(* ===== verification/_CoqProject ===== *)
-Q . S2P
Prelude.v
Words.v
Time.v
SqlState.v
Errors.v
PgTypes.v
TypeSystem.v
Stream.v
Codec.v
CodecSize.v
CodecRoundtrip.v
CodecSafety.v
Concepts.v
Query.v
QueryText.v
QueryConf.v
QueryGrammar.v
Result.v
ResultAccess.v
Wrapped.v
Connection.v
Executors.v
Deadlines.v
Cancel.v
Connect.v
Request.v
Options.v
Providers.v
Failover.v
Strategies.v
PoolStorage.v
PoolQueue.v
ResourcePool.v
PoolDisable.v
SyncPool.v
ConnectionPool.v
SharedPool.v
AsyncPool.v
Operations.v
Echo.v
Recovery.v
Transaction.v
Facades.v
Waits.v
