(* ===== verification/Prelude.v ===== *)
(** * OZO: an asynchronous PostgreSQL client, verified

    OZO ([src/include/ozo]) is a header-only C++20 library over Boost.Asio and
    libpq.  A user builds a query, takes a connection from a source or from a pool,
    and executes the query; parameters are serialized to PostgreSQL's binary
    format, results are received into C++ objects by reflection.  Pools are built on
    the resource pool in [src/contrib/resource_pool].  This library models the
    parts that carry the program's own logic and proves what makes them correct.

    ** The parts, and the files that model them

    - [Prelude]: results of code that throws, tactics, lemmas on lists.
    - [Words]: w-bit integers, byte order ([detail/endian.h]), typed buffers, bits of
      floating point objects ([detail/float.h]), base 36 ([detail/base36.h]).
    - [Time]: deadlines ([deadline.h]), the share of a try ([failover/retry.h]),
      the saturating addition of the resource pool, intervals and time points
      ([ext/std/duration.h], [ext/std/time_point.h]).
    - [SqlState], [Errors]: [error.h], its enumerations, messages and conditions, and
      the exceptions of the library.
    - [PgTypes], [TypeSystem]: [pg/definitions.h] as a table; [type_traits.h],
      the nullable types and the OID map over a universe [cty] of C++
      types, with [den t] the objects of type [t].
    - [Stream], [Codec], [CodecSize], [CodecRoundtrip], [CodecSafety]: [io/ostream.h],
      [io/istream.h]; [io/size_of.h], [io/send.h], [io/recv.h], [io/array.h],
      [io/composite.h] and the types of [pg/types] and [ext]; the size theorem; the
      round trip; what is received from arbitrary bytes.
    - [Concepts]: the concepts of [core/concept.h] and [io/type_traits.h], overload
      resolution and the dispatchers, which select the templates [Codec] is written
      with.
    - [Query], [QueryText], [QueryConf], [QueryGrammar]: [query_builder.h] and
      [io/binary_query.h]; the types of query texts ([query.h]); [query_conf.h], its line
      visitor and repository and then its grammars.
    - [Result], [ResultAccess]: [result.h] and the reception of rows ([io/recv.h]); then
      the iterators over a result and the owners of a [PGresult] ([pg/handle.h]).
    - [Wrapped], [Connection]: values behind pointers, optionals and references
      ([core/nullable.h], [core/recursive.h], [core/unwrap.h]); the connection object
      and the functions of wrapped connections ([connection.h], [impl/connection.h]).
    - [Executors]: the executors and allocators of the function objects around a
      handler, from [detail/bind.h] and [detail/wrap_executor.h] to those of the
      operations, of the failover and of the resource pool.
    - [Deadlines], [Cancel], [Connect], [Request]: the race of an operation with its
      timer ([detail/deadline.h]), [impl/cancel.h], [impl/async_connect.h] and
      [impl/async_request.h].
    - [Options], [Providers], [Failover], [Strategies]: [core/options.h]; connection
      sources and providers ([connection.h], [connector.h], [connection_info.h], the
      role-based sources); [failover/strategy.h], [retry.h], [role_based.h] as an
      execution of tries, each with the context it initiates its operation with; then
      the options of the strategies and what a completed try does with its connection,
      in order.
    - [PoolStorage], [PoolQueue], [ResourcePool], [PoolDisable], [AsyncPool], [SyncPool]:
      the resource pool ([detail/storage.hpp], [handle.hpp], [async/detail/queue.hpp],
      [async/detail/pool_impl.hpp]), its [disable] turn by turn with the handlers it runs
      at once, a program that uses it through pool objects and
      handles ([async/pool.hpp]), and its synchronous variant
      ([sync/detail/pool_impl.hpp], [sync/pool.hpp]).
    - [ConnectionPool], [SharedPool]: [impl/connection_pool.h], what one call and one
      connection do, then the pool with all its clients over the resource pool.
    - [Operations]: [async_request], [async_execute] and [async_connect] as a user calls
      them, each a composition of [Connect] or [Request] with [Deadlines].
    - [Echo]: the way of values from the query builder to libpq and from a result to the
      user, a composition of [Query], [Codec], [Result] and [Operations].
    - [Recovery]: the operation objects ([request.h], [asio.h]) and failover over whole
      operations ([failover/strategy.h]), a composition of [Failover] with
      [Operations].
    - [Transaction]: [detail/begin_statement_builder.h], [transaction.h] and
      [impl/transaction.h], over the operations.
    - [Facades]: the objects a user calls, [request], [execute], [get_connection],
      [begin], [commit] and [rollback], their initiators and [op[strategy]], each
      strategy with the errors its tries have ended with
      ([request.h], [execute.h], [connection.h], [transaction.h], [asio.h]).
    - [Waits]: the waits for the socket of connections, pooled connections and
      transactions ([impl/connection.h], [impl/connection_pool.h], [transaction.h]).

    ** How the code is modelled

    A function that may throw returns an [outcome]; undefined behaviour and
    programs a static assertion rejects are [None].  Objects with state are
    records, their member functions take and return the record.  A callback-driven
    operation is a state with the waits in flight and the calls its handler
    received, and a step per completion; theorems quantify over every order of
    completions.  Threads of the pools are steps between the points where they hold
    the mutex.  Code that is not in the repository is a parameter: libpq is the
    class [libpq] in [Request] and [pg_result] in [Result], and functions such as
    [PQstatus] elsewhere; what [PQsocket] answers is an argument of each call that asks
    for it, since libpq may change the socket of a handle; the streams of Boost.Asio are the class
    [StreamDescriptor] of [Waits], with an instance; the combinators of Spirit are the class [X3]
    of [QueryGrammar], with the instance [peg] that has their documented meaning, and
    [QueryConf] takes the parsers as parameters.

    Interfaces between components are type classes that one component's theorems
    assume and another's discharge: [WireLaws] and [WireTyped] (wire formats, for the
    codec), [FailoverTry] (tries, for the failover execution) and [BoundedTry] (what the tries
    of the library promise besides, that they come to an end), [RequestQueue] (the
    queue, for the resource pool), [IoOperation], [OneCall] and [StepsOnce] (operations
    on a socket, for the deadline and the failover around them; the record [operation]
    of [Recovery] packs them, so that a strategy applies to a strategy), [Waiter]
    (connections that wait, for what is asked of them).

    ** What is proved

    - Codec: for every type of the universe, [size_of] is the length of what
      [send] writes and [recv] gives the object back ([CodecSize],
      [CodecRoundtrip]), on either byte order, when the object is [regular] (no array
      mixes nulls with values of static size), [representable] (in range, whole
      microseconds) and its encoding fits; from arbitrary bytes [recv] gives an
      object of the type or throws ([CodecSafety]); rows are received by position and
      by name; a binary query hands libpq each parameter's bytes and its text; loops
      over a result visit what is in it, and each [PGresult] is cleared once; the
      parameters of a query that returns them are received as they were given, when
      besides only nulls have empty encodings ([Echo]);
      the overloads and specializations C++ selects are those of the model
      ([Concepts]).
    - Query configurations: the grammars split any text without loss, parse and print
      query texts both ways; a repository has every declared query once.
    - Operations: connects, requests and cancels call their handlers, and how often;
      with a time constraint around them and the request of the oids behind them the
      user's handler is called once as long as no result is reported before its query
      was sent, and success means what it says ([Operations]);
      handles of libpq are finished once, waits for sockets complete once and sockets
      are closed by libpq only, when no stream watches them, as long as libpq keeps the
      socket of a handle ([Waits]); which callbacks are serialized by a strand, and that
      the user's handler runs on its own executor ([Executors]).
    - Pools: conservation of cells and requests under every interleaving, liveness of
      what is handed out, refinement of a bounded queue, no idle cell next to a
      waiting request when no call of [get] ever interleaves with another, reuse of idle
      connections only, no connection in the hands of two clients; a program that moves
      and destroys pools and handles at will gets every answer once and, in the end,
      gives every cell back ([AsyncPool]); [disable] returns and leaves no request
      behind, whatever happens between its turns, unless a handler it runs at once
      calls the pool ([PoolDisable]); for the synchronous
      pool conservation, return of calls, and no sleeper that was not told of a cell.
    - Failover: one call of the handler under any strategy and termination under those
      of the library, the number and the order of tries, what a completed try does with
      its connection and in which order, the source and the time each try uses, and one
      call of the user's handler whatever the operations of earlier tries still do
      ([Recovery]); a call of an operation object, under any strategies after any
      errors, leads to the operation it names with the arguments it was given and the
      share of time of its try ([Facades]).
    - Arithmetic: saturation of deadlines and intervals, base 36, the SQLSTATE table,
      the BEGIN statement as an injective function of its options.
    - Some theorems show where the code departs from what it means to do: sizes of
      arrays that mix nulls with values, empty strings sent as NULL, empty arrays
      that keep old items, a handler called twice and a deadline handler called after
      its reset when a result comes early, a lost wakeup of the pool, a stale mark on
      a pool cell, a notification lost to a time-out, a wait that restarts and the
      handle of a failed [get] in the synchronous pool, overflow of intervals and of
      'infinity', a request that starts outside its strand, a connect whose timer is not
      serialized with the request of the oids, handlers run under the mutex of a pool
      that is disabled, which then never returns if they call it, a connect that waits on the first socket of its
      handle only, which stays watched when libpq has closed it, a view without an end sent as a query text, an enumeration
      written as a bool, concepts that reject nothing, a composite received in another
      order than it is sent, a [begin] that no strategy can be given to.

    ** Bounds and fuel

    [ltob36] runs its loop on 13 digits, enough for 64 bits; [to_string] of the
    builder on as many steps as the number, which is more than its digits; the loop
    that drains results on the number of results libpq has left, a measure its
    laws make decreasing; [disable] on the length of the queue; the repetition of
    [peg] on the length of the input, since each of its turns consumes some; a call
    of a source on the depth of the role-based sources inside it; a loop over a result
    on more turns than it has rows or columns.  Each is proved to
    end with a result.  [size_max] is the largest [size_type]; theorems on
    encodings ask that the encoding fits it, as PostgreSQL's protocol does.

    ** What is not modelled

    Completion tokens, failures of allocation, contents of an object after an
    exception left it partly received, user-defined specializations of the
    customization points, the statistics object of a connection (its type is the
    user's), the concepts that only accept or reject a program (of executors, time
    constraints, providers and queries), accessors without behaviour of their own
    ([core/strong_typedef.h], [core/none.h], [pg/types/jsonb.h], [pg/types/ltree.h]) and
    the templates of [detail/functional.h] that call a static [apply].  In [AsyncPool]
    [disable] is one step; [PoolDisable] shows that a call nothing comes between is.
    Executors run what is submitted to them; which thread does is left open. *)

From stdpp Require Export base tactics option list list_numbers numbers strings.
From Stdlib Require Export ZArith Lia.
From Stdlib Require Strings.Byte.

#[local] Open Scope Z_scope.

(** ** Results of code that may throw

    [outcome E A] is what a C++ call that returns an [A] or throws an [E]
    evaluates to.  It is a monad in stdpp's sense, so the models are written
    with stdpp's do-notation [x ← c; k]. *)
Inductive outcome (E A : Type) : Type :=
| Return (a : A)
| Throw (e : E).
Arguments Return {E A} _.
Arguments Throw {E A} _.

#[export] Instance outcome_ret E : MRet (outcome E) := fun A a => Return a.
#[export] Instance outcome_bind E : MBind (outcome E) := fun A B f m =>
  match m with
  | Return a => f a
  | Throw e => Throw e
  end.
#[export] Instance outcome_fmap E : FMap (outcome E) := fun A B f m =>
  match m with
  | Return a => Return (f a)
  | Throw e => Throw e
  end.

#[export] Instance outcome_eq_dec E A `{EqDecision E, EqDecision A} :
  EqDecision (outcome E A).
Proof. solve_decision. Defined.

(** ** Tactics and hint databases *)

Create HintDb ozo discriminated.
Create Rewrite HintDb ozo_len.

(** Turn the boolean comparisons of the models into propositions. *)
Ltac zbool :=
  repeat match goal with
  | H : (_ <? _)%Z = true |- _ => apply Z.ltb_lt in H
  | H : (_ <? _)%Z = false |- _ => apply Z.ltb_ge in H
  | H : (_ <=? _)%Z = true |- _ => apply Z.leb_le in H
  | H : (_ <=? _)%Z = false |- _ => apply Z.leb_gt in H
  | H : (_ =? _)%Z = true |- _ => apply Z.eqb_eq in H
  | H : (_ =? _)%Z = false |- _ => apply Z.eqb_neq in H
  | H : (_ && _) = true |- _ => apply andb_true_iff in H as [? ?]
  | H : (_ || _) = false |- _ => apply orb_false_iff in H as [? ?]
  | H : negb _ = true |- _ => apply negb_true_iff in H
  | H : negb _ = false |- _ => apply negb_false_iff in H
  end.

(** ** Generic lemmas on lists *)

Lemma foldr_lor_snoc (f : nat -> Z) (n : nat) :
  foldr (fun i acc => Z.lor (f i) acc) 0 (seq 0 (S n))
  = Z.lor (foldr (fun i acc => Z.lor (f i) acc) 0 (seq 0 n)) (f n).
Proof.
  rewrite seq_S, foldr_app; simpl. rewrite Z.lor_0_r.
  generalize (seq 0 n) as l; intros l.
  induction l as [|i l IH]; simpl; [now rewrite Z.lor_0_l|].
  now rewrite IH, Z.lor_assoc.
Qed.

(** A disjoint bitwise or is a sum. *)
Lemma lor_add_disjoint (a b k : Z) :
  0 <= k -> 0 <= b < 2 ^ k -> Z.lor (Z.shiftl a k) b = Z.shiftl a k + b.
Proof.
  intros Hk Hb. symmetry. apply Z.add_nocarry_lor.
  apply Z.bits_inj'; intros n Hn. rewrite Z.land_spec, Z.bits_0.
  destruct (Z.ltb_spec n k) as [Hlt|Hge].
  - now rewrite Z.shiftl_spec_low by lia.
  - destruct (decide (b = 0)) as [->|]; [now rewrite Z.bits_0, andb_false_r|].
    rewrite (Z.bits_above_log2 b n), andb_false_r; [done|lia|].
    enough (Z.log2 b < k) by lia. apply Z.log2_lt_pow2; lia.
Qed.

(** A checked table: a boolean test evaluated on every row gives the
    proposition it decides on every row. *)
Lemma Forall_check {A} (f : A -> bool) (P : A -> Prop) (l : list A) :
  forallb f l = true -> (forall x, f x = true -> P x) -> Forall P l.
Proof. intros H HP. rewrite forallb_forall in H. apply Forall_forall.
  intros x Hx. by apply HP, H, list_elem_of_In. Qed.

(** Equality test of lists from one of elements; the element test is a
    parameter outside the recursion, so that nested types can use it. *)
Definition list_eqb {A} (f : A -> A -> bool) : list A -> list A -> bool :=
  fix go l1 l2 :=
    match l1, l2 with
    | [], [] => true
    | x :: l1, y :: l2 => f x y && go l1 l2
    | _, _ => false
    end.

Lemma list_eqb_spec {A} (f : A -> A -> bool) l1 l2 :
  Forall (fun x => forall y, f x y = true <-> x = y) l1 -> list_eqb f l1 l2 = true <-> l1 = l2.
Proof.
  intros H. revert l2. induction H as [|x l1 Hx _ IH]; intros [|y l2]; simpl; [done..|].
  rewrite andb_true_iff, Hx, IH. naive_solver.
Qed.

(** ** Filters *)

Lemma list_filter_all {A} (P : A -> Prop) `{forall x, Decision (P x)} (l : list A) :
  Forall P l -> filter P l = l.
Proof. induction 1; [done|]. rewrite filter_cons_True by done. by f_equal. Qed.

Lemma list_filter_none {A} (P : A -> Prop) `{forall x, Decision (P x)} (l : list A) :
  Forall (fun x => ~ P x) l -> filter P l = [].
Proof. induction 1; [done|]. by rewrite filter_cons_False. Qed.

Lemma list_filter_fmap {A B} (f : A -> B) (P : B -> Prop) `{forall x, Decision (P x)}
    (l : list A) :
  filter P (f <$> l) = f <$> filter (fun x => P (f x)) l.
Proof.
  induction l as [|x l IH]; [done|]. rewrite fmap_cons, !filter_cons, IH. by case_decide.
Qed.

(** ** Lists of nodes with an identity

    A C++ list iterator or pointer is modelled by a number, the [key] of the node
    it points to; [take_key] is what [splice] takes out of a list. *)
Fixpoint take_key {A} (key : A -> nat) (i : nat) (l : list A) : option (A * list A) :=
  match l with
  | [] => None
  | x :: l =>
      if decide (key x = i) then Some (x, l)
      else '(y, l) ← take_key key i l; Some (y, x :: l)
  end.

Lemma take_key_spec {A} (key : A -> nat) i l x l' : take_key key i l = Some (x, l') ->
  key x = i /\ exists l1 l2, l = l1 ++ x :: l2 /\ l' = l1 ++ l2.
Proof.
  revert l'. induction l as [|d l IH]; intros l' E; simpl in E; [done|].
  case_decide.
  - simplify_eq. split; [done|]. by exists [], l'.
  - destruct (take_key key i l) as [[d' l0]|] eqn:El; simplify_eq/=.
    destruct (IH l0) as (Hi & l1 & l2 & -> & ->); [done|].
    split; [done|]. by exists (d :: l1), l2.
Qed.

Lemma take_key_perm {A} (key : A -> nat) i l x l' : take_key key i l = Some (x, l') -> l ≡ₚ x :: l'.
Proof. intros (_ & l1 & l2 & -> & ->)%take_key_spec. by rewrite Permutation_middle. Qed.

Lemma take_key_is_Some {A} (key : A -> nat) i l : i ∈ key <$> l -> is_Some (take_key key i l).
Proof.
  induction l as [|d l IH]; intros Hi; [by apply elem_of_nil in Hi|]. simpl.
  case_decide; [by eexists|]. apply elem_of_cons in Hi as [Hi|Hi]; [done|].
  destruct (IH Hi) as [[c l'] ->]. by eexists.
Qed.

(** A key of an association list with different keys has one value. *)
Lemma assoc_unique {A B} (l : list (A * B)) x y1 y2 : NoDup l.*1 -> (x, y1) ∈ l -> (x, y2) ∈ l -> y1 = y2.
Proof.
  induction l as [|[a b] l IH]; intros Hnd H1 H2; [by apply elem_of_nil in H1|].
  rewrite fmap_cons in Hnd. apply NoDup_cons in Hnd as [Ha Hnd].
  apply elem_of_cons in H1 as [H1|H1], H2 as [H2|H2]; simplify_eq/=; [done| | |by apply IH];
    (destruct Ha; by apply (list_elem_of_fmap_2 fst) in H1 || by apply (list_elem_of_fmap_2 fst) in H2).
Qed.

(** What a partial function finds in a list, when an element is replaced. *)
Lemma omap_insert_perm {A B} (f : A -> option B) (l : list A) x a b : l !! x = Some a ->
  option_list (f b) ++ omap f l ≡ₚ option_list (f a) ++ omap f (<[x := b]> l).
Proof.
  revert x. induction l as [|k l IH]; intros x E; [done|]. destruct x as [|x]; simpl in *.
  - simplify_eq. destruct (f a), (f b); simpl; solve_Permutation.
  - specialize (IH x E). destruct (f k) as [i|]; [|done].
    transitivity (i :: (option_list (f b) ++ omap f l)); [solve_Permutation|].
    rewrite IH. solve_Permutation.
Qed.
