(* ===== verification/Words.v ===== *)
(** * Machine words: [include/ozo/detail/endian.h], [float.h], [typed_buffer.h],
      [base36.h]

    Fixed-width integers are [Z] with the wrap-around of their C++ type written
    out, an object's storage is the list of its bytes in memory order, and the
    byte order of the platform ([endian::native]) is a parameter. *)

From Stdlib Require Import Strings.Byte Strings.Ascii.
From S2P Require Import Prelude.
#[local] Open Scope Z_scope.

(** ** Bytes and integral types *)

Definition byte_to_Z (b : byte) : Z := Z.of_N (Byte.to_N b).

Definition byte_of_Z (z : Z) : byte :=
  match Byte.of_N (Z.to_N (z mod 256)) with
  | Some b => b
  | None => x00
  end.

#[export] Instance byte_eq_dec : EqDecision byte := Byte.byte_eq_dec.

(** An integral type: [sizeof] in bytes and signedness. *)
Record int_type := IntType { it_size : nat; it_signed : bool }.

Definition int8_t := IntType 1 true.
Definition int16_t := IntType 2 true.
Definition int32_t := IntType 4 true.
Definition int64_t := IntType 8 true.
Definition uint32_t := IntType 4 false.
Definition uint64_t := IntType 8 false.

Definition it_bits (ty : int_type) : Z := 8 * Z.of_nat (it_size ty).

(** [std::numeric_limits<T>::min()] and [max()]. *)
Definition it_min (ty : int_type) : Z :=
  if it_signed ty then - 2 ^ (it_bits ty - 1) else 0.
Definition it_max (ty : int_type) : Z :=
  if it_signed ty then 2 ^ (it_bits ty - 1) - 1 else 2 ^ it_bits ty - 1.

Definition in_range (ty : int_type) (z : Z) : Prop := it_min ty <= z <= it_max ty.
Definition in_rangeb (ty : int_type) (z : Z) : bool :=
  (it_min ty <=? z) && (z <=? it_max ty).

(** Conversion of an integer value to [ty] (C++20: modulo [2^bits]). *)
Definition it_wrap (ty : int_type) (z : Z) : Z :=
  let u := z mod 2 ^ it_bits ty in
  if it_signed ty then
    if u <? 2 ^ (it_bits ty - 1) then u else u - 2 ^ it_bits ty
  else u.

(** [std::make_unsigned_t]. *)
Definition make_unsigned (ty : int_type) : int_type := IntType (it_size ty) false.

(** ** Digit lists *)

Fixpoint le_bytes (n : nat) (z : Z) : list byte :=
  match n with
  | O => []
  | S n => byte_of_Z z :: le_bytes n (Z.shiftr z 8)
  end.

Fixpoint le_decode (bs : list byte) : Z :=
  match bs with
  | [] => 0
  | b :: bs => byte_to_Z b + 256 * le_decode bs
  end.

(** Network byte order. *)
Definition be_bytes (n : nat) (z : Z) : list byte := reverse (le_bytes n z).
Definition be_decode (bs : list byte) : Z := le_decode (reverse bs).

(** ** [endian.h] *)

Inductive endian := little | big.

Definition CHAR_BIT : Z := 8.
Definition uint8_max : Z := 255.

(** [(((value >> N * CHAR_BIT & 0xff) << (sizeof(T) - 1 - N) * CHAR_BIT) | ...)]
    over the index sequence [0 .. sizeof(T) - 1], a right fold. *)
Definition byte_order_swap (size : nat) (value : Z) : Z :=
  foldr (fun N acc =>
    Z.lor (Z.shiftl (Z.land (Z.shiftr value (Z.of_nat N * CHAR_BIT)) uint8_max)
                    (Z.of_nat (size - 1 - N) * CHAR_BIT)) acc)
    0 (seq 0 size).

Definition convert_to_big_endian (native : endian) (ty : int_type) (value : Z) : Z :=
  match native with
  | little => byte_order_swap (it_size ty) (it_wrap (make_unsigned ty) value)
  | big => value
  end.

Definition convert_from_big_endian (native : endian) (ty : int_type) (value : Z) : Z :=
  match native with
  | little => byte_order_swap (it_size ty) (it_wrap (make_unsigned ty) value)
  | big => value
  end.

(** ** [typed_buffer.h]: the union of an object and its storage *)

(** Writing [typed] and looking at [raw]. *)
Definition typed_buffer_raw (native : endian) (ty : int_type) (typed : Z) : list byte :=
  match native with
  | little => le_bytes (it_size ty) typed
  | big => be_bytes (it_size ty) typed
  end.

(** Writing [raw] and looking at [typed]. *)
Definition typed_buffer_typed (native : endian) (ty : int_type) (raw : list byte) : Z :=
  it_wrap ty (match native with
              | little => le_decode raw
              | big => be_decode raw
              end).

(** ** [float.h]: a floating point object is its IEEE bit pattern

    [to_integral] and [to_floating_point] read the other member of a union, so
    they relate the unsigned bit pattern that represents the floating point
    object with the value of the signed integer of the same size. *)
Definition floating_point_integral (size : nat) : int_type := IntType size true.

Definition to_integral (size : nat) (bits : Z) : Z :=
  it_wrap (floating_point_integral size) bits.

Definition to_floating_point (size : nat) (value : Z) : Z :=
  it_wrap (make_unsigned (floating_point_integral size)) value.

(** ** [base36.h] *)

(** [d < 10 ? '0' + d : 'A' + d - 10] *)
Definition b36_digit (d : Z) : ascii :=
  ascii_of_nat (Z.to_nat (if d <? 10 then 48 + d else 65 + d - 10)).

(** The [do { ... } while (u > 0)] loop; [None] when the fuel runs out. *)
Fixpoint ltob36_loop (fuel : nat) (u : Z) (out : list ascii) : option (list ascii) :=
  match fuel with
  | O => None
  | S fuel =>
      let d := u mod 36 in
      let out := out ++ [b36_digit d] in
      let u := u / 36 in
      if 0 <? u then ltob36_loop fuel u out else Some out
  end.

(** 13 base-36 digits hold any [unsigned long]. *)
Definition ltob36 (i : Z) : option string :=
  out ← ltob36_loop 13 (it_wrap uint64_t i) [];
  Some (String.string_of_list_ascii (reverse out)).

(** [strtol(s, nullptr, 36)]: leading white space, an optional sign, the longest
    run of base-36 digits, the value clamped to [long]. *)
Definition is_space (c : ascii) : bool :=
  let n := nat_of_ascii c in ((n =? 32) || ((9 <=? n) && (n <=? 13)))%nat.

Definition b36_value (c : ascii) : option Z :=
  let n := Z.of_nat (nat_of_ascii c) in
  if (48 <=? n) && (n <=? 57) then Some (n - 48)
  else if (65 <=? n) && (n <=? 90) then Some (n - 65 + 10)
  else if (97 <=? n) && (n <=? 122) then Some (n - 97 + 10)
  else None.

Fixpoint b36_digits (acc : Z) (s : list ascii) : Z :=
  match s with
  | [] => acc
  | c :: s => match b36_value c with
              | Some d => b36_digits (36 * acc + d) s
              | None => acc
              end
  end.

Fixpoint drop_space (s : list ascii) : list ascii :=
  match s with
  | c :: s' => if is_space c then drop_space s' else s
  | [] => []
  end.

Definition clamp (ty : int_type) (z : Z) : Z := Z.max (it_min ty) (Z.min z (it_max ty)).

Definition strtol36 (s : list ascii) : Z :=
  clamp int64_t
    (match drop_space s with
     | "-"%char :: s => - b36_digits 0 s
     | "+"%char :: s => b36_digits 0 s
     | s => b36_digits 0 s
     end).

Definition b36tol (s : string) : Z := strtol36 (String.list_ascii_of_string s).

(** ** Lemmas on bytes *)

Lemma byte_to_Z_range b : 0 <= byte_to_Z b < 256.
Proof. destruct b; vm_compute; intuition congruence. Qed.

Lemma byte_of_to_Z b : byte_of_Z (byte_to_Z b) = b.
Proof. now destruct b. Qed.

Lemma byte_to_of_Z z : byte_to_Z (byte_of_Z z) = z mod 256.
Proof.
  pose proof (Z.mod_pos_bound z 256 ltac:(lia)) as Hb. unfold byte_of_Z, byte_to_Z.
  destruct (Byte.of_N _) as [b|] eqn:E.
  - apply Byte.to_of_N in E. rewrite E. lia.
  - apply Byte.of_N_None_iff in E. lia.
Qed.

Lemma byte_to_Z_inj b1 b2 : byte_to_Z b1 = byte_to_Z b2 -> b1 = b2.
Proof. intros H. rewrite <- (byte_of_to_Z b1), <- (byte_of_to_Z b2). now f_equal. Qed.

Lemma byte_of_Z_mod z : byte_of_Z (z mod 256) = byte_of_Z z.
Proof. apply byte_to_Z_inj. rewrite !byte_to_of_Z. now rewrite Z.mod_mod. Qed.

(** ** Lemmas on digit lists *)

Lemma length_le_bytes n z : length (le_bytes n z) = n.
Proof. revert z; induction n; simpl; intros; congruence. Qed.

Lemma length_be_bytes n z : length (be_bytes n z) = n.
Proof. unfold be_bytes. now rewrite length_reverse, length_le_bytes. Qed.

Lemma pow256_succ n : 2 ^ (8 * Z.of_nat (S n)) = 256 * 2 ^ (8 * Z.of_nat n).
Proof. rewrite Nat2Z.inj_succ. replace (8 * Z.succ (Z.of_nat n)) with (8 * Z.of_nat n + 8) by lia.
  rewrite Z.pow_add_r by lia. change (2 ^ 8) with 256. lia. Qed.

Lemma pow256_pos n : 0 < 2 ^ (8 * Z.of_nat n).
Proof. apply Z.pow_pos_nonneg; lia. Qed.

Lemma le_decode_bytes n z : le_decode (le_bytes n z) = z mod 2 ^ (8 * Z.of_nat n).
Proof.
  revert z; induction n as [|n IH]; intros z; [simpl; now rewrite Z.mod_1_r|].
  cbn [le_bytes le_decode]. rewrite IH, byte_to_of_Z, pow256_succ.
  rewrite Z.shiftr_div_pow2 by lia. change (2 ^ 8) with 256.
  pose proof (pow256_pos n). rewrite Z.rem_mul_r by lia. reflexivity.
Qed.

Lemma le_bytes_decode bs n : length bs = n -> le_bytes n (le_decode bs) = bs.
Proof.
  intros <-. induction bs as [|b bs IH]; [done|]. cbn [length le_bytes le_decode].
  pose proof (byte_to_Z_range b). f_equal.
  - rewrite <- byte_of_Z_mod, Z.mul_comm, Z.mod_add, byte_of_Z_mod by lia.
    apply byte_of_to_Z.
  - rewrite Z.shiftr_div_pow2, Z.mul_comm by lia. change (2 ^ 8) with 256.
    rewrite Z.div_add, Z.div_small by lia. apply IH.
Qed.

Lemma le_bytes_mod n z : le_bytes n (z mod 2 ^ (8 * Z.of_nat n)) = le_bytes n z.
Proof. rewrite <- le_decode_bytes. apply le_bytes_decode, length_le_bytes. Qed.

Lemma be_decode_bytes n z : be_decode (be_bytes n z) = z mod 2 ^ (8 * Z.of_nat n).
Proof. unfold be_decode, be_bytes. rewrite reverse_involutive. apply le_decode_bytes. Qed.

#[export] Hint Rewrite length_le_bytes length_be_bytes : ozo_len.

(** ** [byte_order_swap] reverses the bytes *)

(** The digit [N] of the value, as the code extracts it. *)
Lemma swap_digit value N :
  Z.land (Z.shiftr value (Z.of_nat N * CHAR_BIT)) uint8_max
  = byte_to_Z (byte_of_Z (Z.shiftr value (8 * Z.of_nat N))).
Proof.
  rewrite byte_to_of_Z. change uint8_max with (Z.ones 8).
  rewrite Z.land_ones by lia. unfold CHAR_BIT. now rewrite (Z.mul_comm _ 8).
Qed.

(** The partial fold over the indexes below [k] is the big-endian value of the
    low [k] digits, shifted to the top. *)
Lemma swap_partial value size k : (k <= size)%nat ->
  foldr (fun N acc =>
    Z.lor (Z.shiftl (Z.land (Z.shiftr value (Z.of_nat N * CHAR_BIT)) uint8_max)
                    (Z.of_nat (size - 1 - N) * CHAR_BIT)) acc) 0 (seq 0 k)
  = Z.shiftl (be_decode (le_bytes k value)) (8 * Z.of_nat (size - k)).
Proof.
  induction k as [|k IH]; intros Hk; [now rewrite Z.shiftl_0_l|].
  rewrite (foldr_lor_snoc (fun N => Z.shiftl _ (Z.of_nat (size - 1 - N) * CHAR_BIT))).
  rewrite IH by lia. rewrite swap_digit.
  set (b := byte_of_Z (Z.shiftr value (8 * Z.of_nat k))).
  assert (le_bytes (S k) value = le_bytes k value ++ [b]) as ->.
  { unfold b. clear. revert value. induction k as [|k IH]; intros value; [done|].
    change (le_bytes (S (S k)) value) with (byte_of_Z value :: le_bytes (S k) (Z.shiftr value 8)).
    rewrite IH, Z.shiftr_shiftr by lia. cbn [le_bytes app].
    now replace (8 + 8 * Z.of_nat k) with (8 * Z.of_nat (S k)) by lia. }
  unfold be_decode. rewrite reverse_app. cbn [app reverse rev_append le_decode].
  change (reverse [b]) with [b]. cbn [app le_decode].
  set (D := le_decode (reverse (le_bytes k value))).
  pose proof (byte_to_Z_range b) as Hb.
  replace (8 * Z.of_nat (size - k)) with (8 + 8 * Z.of_nat (size - S k)) by lia.
  replace (Z.of_nat (size - 1 - k) * CHAR_BIT) with (8 * Z.of_nat (size - S k))
    by (unfold CHAR_BIT; lia).
  rewrite <- Z.shiftl_shiftl by lia. rewrite <- Z.shiftl_lor. f_equal.
  rewrite lor_add_disjoint by (simpl; lia). rewrite Z.shiftl_mul_pow2 by lia.
  change (2 ^ 8) with 256. lia.
Qed.

Lemma byte_order_swap_decode size value :
  byte_order_swap size value = be_decode (le_bytes size value).
Proof.
  unfold byte_order_swap. rewrite swap_partial by lia.
  rewrite Nat.sub_diag. apply Z.shiftl_0_r.
Qed.

Lemma le_bytes_swap size value : le_bytes size (byte_order_swap size value) = be_bytes size value.
Proof.
  rewrite byte_order_swap_decode. unfold be_decode.
  rewrite le_bytes_decode; [done|]. now rewrite length_reverse, length_le_bytes.
Qed.

(** ** Conversions between integral types *)

Lemma it_bits_pos ty : it_size ty <> 0%nat -> 8 <= it_bits ty.
Proof. unfold it_bits. lia. Qed.

Lemma it_wrap_mod ty z : it_wrap ty z mod 2 ^ it_bits ty = z mod 2 ^ it_bits ty.
Proof.
  assert (0 < 2 ^ it_bits ty) by (unfold it_bits; apply pow256_pos).
  unfold it_wrap. destruct (it_signed ty); [destruct (_ <? _)|]; rewrite ?Z.mod_mod by lia; try done.
  replace (z mod 2 ^ it_bits ty - 2 ^ it_bits ty)
    with (z mod 2 ^ it_bits ty + (-1) * 2 ^ it_bits ty) by lia.
  now rewrite Z.mod_add, Z.mod_mod by lia.
Qed.

Lemma it_wrap_congr ty z1 z2 :
  z1 mod 2 ^ it_bits ty = z2 mod 2 ^ it_bits ty -> it_wrap ty z1 = it_wrap ty z2.
Proof. unfold it_wrap. now intros ->. Qed.

Lemma it_half ty : it_size ty <> 0%nat -> 2 ^ it_bits ty = 2 * 2 ^ (it_bits ty - 1).
Proof.
  intros H. pose proof (it_bits_pos ty H).
  replace (it_bits ty) with (1 + (it_bits ty - 1)) at 1 by lia.
  rewrite Z.pow_add_r by lia. lia.
Qed.

Lemma it_wrap_id ty z : it_size ty <> 0%nat -> in_range ty z -> it_wrap ty z = z.
Proof.
  intros Hs. pose proof (it_half ty Hs) as Hh. unfold in_range, it_min, it_max, it_wrap.
  destruct (it_signed ty); intros Hz; [|apply Z.mod_small; lia].
  destruct (Z.ltb_spec (z mod 2 ^ it_bits ty) (2 ^ (it_bits ty - 1))).
  - destruct (decide (0 <= z)); [apply Z.mod_small; lia|].
    rewrite <- (Z.mod_add z 1), Z.mod_small in * by lia. lia.
  - destruct (decide (0 <= z)); [rewrite Z.mod_small in * by lia; lia|].
    rewrite <- (Z.mod_add z 1), Z.mod_small in * by lia. lia.
Qed.

Lemma it_wrap_range ty z : it_size ty <> 0%nat -> in_range ty (it_wrap ty z).
Proof.
  intros Hs. pose proof (it_half ty Hs) as Hh. pose proof (it_bits_pos ty Hs).
  assert (0 < 2 ^ (it_bits ty - 1)) by (apply Z.pow_pos_nonneg; lia).
  pose proof (Z.mod_pos_bound z (2 ^ it_bits ty) ltac:(lia)).
  unfold in_range, it_min, it_max, it_wrap.
  destruct (it_signed ty); [destruct (Z.ltb_spec (z mod 2 ^ it_bits ty) (2 ^ (it_bits ty - 1)))|]; lia.
Qed.

Lemma in_rangeb_spec ty z : in_rangeb ty z = true <-> in_range ty z.
Proof. unfold in_rangeb, in_range. rewrite andb_true_iff, !Z.leb_le. done. Qed.

(** ** Base 36: printing and parsing are inverse *)

Definition b36_digit_ok (d : Z) : bool :=
  bool_decide (b36_value (b36_digit d) = Some d)
  && negb (is_space (b36_digit d))
  && bool_decide (b36_digit d <> "-"%char) && bool_decide (b36_digit d <> "+"%char).

Lemma b36_digit_spec d : 0 <= d < 36 ->
  b36_value (b36_digit d) = Some d /\ is_space (b36_digit d) = false
  /\ b36_digit d <> "-"%char /\ b36_digit d <> "+"%char.
Proof.
  intros Hd. assert (b36_digit_ok d = true) as H.
  { assert (forallb b36_digit_ok (Z.of_nat <$> seq 0 36) = true) as Hall by (vm_compute; done).
    rewrite forallb_forall in Hall. apply Hall. apply list_elem_of_In, list_elem_of_fmap.
    exists (Z.to_nat d). split; [lia|]. apply elem_of_seq. lia. }
  unfold b36_digit_ok in H. zbool. rewrite !bool_decide_eq_true in *. auto.
Qed.

(** The value of a digit list, least significant digit first. *)
Fixpoint b36_sum (ds : list Z) : Z :=
  match ds with
  | [] => 0
  | d :: ds => d + 36 * b36_sum ds
  end.

Lemma b36_sum_snoc ds d : b36_sum (ds ++ [d]) = b36_sum ds + 36 ^ Z.of_nat (length ds) * d.
Proof.
  induction ds as [|e ds IH]; [simpl; lia|]. cbn [app b36_sum length].
  rewrite IH, Nat2Z.inj_succ, Z.pow_succ_r by lia. lia.
Qed.

Lemma ltob36_loop_spec fuel u out : 0 <= u < 36 ^ Z.of_nat fuel -> fuel <> 0%nat ->
  exists ds, ltob36_loop fuel u out = Some (out ++ (b36_digit <$> ds))
    /\ ds <> [] /\ Forall (fun d => 0 <= d < 36) ds /\ b36_sum ds = u.
Proof.
  revert u out. induction fuel as [|fuel IH]; intros u out Hu Hf; [done|].
  cbn [ltob36_loop]. rewrite Nat2Z.inj_succ, Z.pow_succ_r in Hu by lia.
  pose proof (Z.mod_pos_bound u 36 ltac:(lia)) as Hm.
  pose proof (Z.div_mod u 36 ltac:(lia)) as Hdm.
  destruct (Z.ltb_spec 0 (u / 36)) as [Hpos|Hz].
  - assert (0 <= u / 36 < 36 ^ Z.of_nat fuel) as Hq by (split; [lia|apply Z.div_lt_upper_bound; lia]).
    assert (fuel <> 0%nat) by (intros ->; simpl in Hq; lia).
    destruct (IH (u / 36) (out ++ [b36_digit (u mod 36)])) as (ds & -> & Hne & Hds & Hsum); [done..|].
    exists (u mod 36 :: ds). split_and!; [by rewrite <- app_assoc|done|by constructor|].
    cbn [b36_sum]. lia.
  - exists [u mod 36]. split_and!; [done|done|by apply Forall_singleton|]. cbn [b36_sum].
    assert (u / 36 = 0) by (pose proof (Z.div_pos u 36); lia). lia.
Qed.

Lemma b36_digits_map acc ds : Forall (fun d => 0 <= d < 36) ds ->
  b36_digits acc (b36_digit <$> ds) = b36_sum (reverse ds) + 36 ^ Z.of_nat (length ds) * acc.
Proof.
  intros H. revert acc. induction H as [|d ds Hd Hds IH]; intros acc; [simpl; lia|].
  rewrite fmap_cons. cbn [b36_digits]. destruct (b36_digit_spec d Hd) as (-> & _).
  rewrite IH, reverse_cons, b36_sum_snoc, length_reverse. cbn [length].
  rewrite Nat2Z.inj_succ, Z.pow_succ_r by lia. lia.
Qed.

Lemma strtol36_digits ds : Forall (fun d => 0 <= d < 36) ds -> ds <> [] ->
  strtol36 (b36_digit <$> ds) = clamp int64_t (b36_sum (reverse ds)).
Proof.
  intros H Hne. unfold strtol36. f_equal.
  assert (b36_digits 0 (b36_digit <$> ds) = b36_sum (reverse ds)) as <-
    by (rewrite b36_digits_map by done; lia).
  destruct H as [|d ds Hd Hds]; [done|].
  rewrite fmap_cons. destruct (b36_digit_spec d Hd) as (_ & Hsp & Hm & Hp).
  cbn [drop_space]. rewrite Hsp. clear - Hm Hp.
  destruct (b36_digit d) as [[] [] [] [] [] [] [] []]; first [reflexivity | now destruct Hm | now destruct Hp].
Qed.

Lemma ltob36_digits i : exists ds,
  ltob36 i = Some (String.string_of_list_ascii (b36_digit <$> ds))
  /\ ds <> [] /\ Forall (fun d => 0 <= d < 36) ds
  /\ b36_sum (reverse ds) = it_wrap uint64_t i.
Proof.
  assert (0 <= it_wrap uint64_t i < 36 ^ Z.of_nat 13) as Hr.
  { pose proof (it_wrap_range uint64_t i ltac:(done)) as [H1 H2].
    change (it_min uint64_t) with 0 in H1. change (it_max uint64_t) with 18446744073709551615 in H2.
    change (36 ^ Z.of_nat 13) with 170581728179578208256. lia. }
  destruct (ltob36_loop_spec 13 _ [] Hr) as (ds & Hl & Hne & Hds & Hsum); [done|].
  exists (reverse ds). unfold ltob36. rewrite Hl. simpl.
  rewrite fmap_reverse, reverse_involutive. split_and!; [done| |by apply Forall_reverse|done].
  intros H. apply Hne. rewrite <- (reverse_involutive ds), H. done.
Qed.

Module Base36.

(** [ltob36] always terminates with a result, and [b36tol] reads back
    every non-negative [long]. *)
Theorem b36tol_ltob36 (i : Z) (Hi : 0 <= i <= it_max int64_t) :
  exists s, ltob36 i = Some s /\ b36tol s = i.
Proof.
  destruct (ltob36_digits i) as (ds & -> & Hne & Hds & Hsum).
  eexists; split; [done|]. unfold b36tol. rewrite String.list_ascii_of_string_of_list_ascii.
  rewrite strtol36_digits, Hsum by done.
  change (it_max int64_t) with 9223372036854775807 in Hi.
  rewrite it_wrap_id; [|done|].
  - unfold clamp. change (it_max int64_t) with 9223372036854775807.
    change (it_min int64_t) with (-9223372036854775808). lia.
  - unfold in_range. change (it_min uint64_t) with 0.
    change (it_max uint64_t) with 18446744073709551615. lia.
Qed.

End Base36.
