(* ===== verification/Time.v ===== *)
(** * Time: [deadline.h], [time_traits.h], the pool's [time_traits::add], the
      time constraints of [retry.h], [connector.h] and [connection_pool.h], and
      the chrono codecs' arithmetic ([ext/std/duration.h], [ext/std/time_point.h])

    Time points and durations are 64-bit tick counts.  Every [int64_t]
    operation of the code that can leave the range is written with [w64], the
    two's complement wrap-around; the theorems state where it is not reached. *)

From S2P Require Import Prelude Words.
#[local] Open Scope Z_scope.

Definition w64 (z : Z) : Z := it_wrap int64_t z.
Definition i64_min : Z := it_min int64_t.
Definition i64_max : Z := it_max int64_t.

Lemma w64_id z : i64_min <= z <= i64_max -> w64 z = z.
Proof. intros H. now apply it_wrap_id. Qed.

(** ** Deadlines *)
Module Deadline.

(** [time_traits::time_point::max()]. *)
Definition time_point_max : Z := i64_max.

(** [deadline(duration after, time_point now)] *)
Definition deadline_after (after now : Z) : Z :=
  if after <? 0 then now
  else if w64 (time_point_max - now) <? after then time_point_max
  else w64 (now + after).

(** [time_left(time_point t, time_point now)] *)
Definition time_left (t now : Z) : Z := if now <? t then w64 (t - now) else 0.

(** [expired(time_point t, time_point now)] *)
Definition expired (t now : Z) : bool := time_left t now =? 0.

(** The types that model [TimeConstraint]: [none_t], a duration, a time point. *)
Inductive time_constraint :=
| tc_none
| tc_duration (d : Z)
| tc_time_point (t : Z).

(** The overload set [deadline(t)] over the constraint types; the clock
    reading [now] stands for [time_traits::now()]. *)
Definition deadline (now : Z) (t : time_constraint) : time_constraint :=
  match t with
  | tc_none => tc_none
  | tc_duration d => tc_time_point (deadline_after d now)
  | tc_time_point t => tc_time_point t
  end.

(** [failover::detail::get_try_time_constraint]; integer division of durations
    truncates. *)
Definition get_try_time_constraint (t : time_constraint) (n_tries : Z) (now : Z)
    : time_constraint :=
  match t with
  | tc_none => tc_none
  | tc_time_point t =>
      tc_duration (if 0 <? n_tries then Z.quot (time_left t now) n_tries else 0)
  | tc_duration d => tc_duration (if 0 <? n_tries then Z.quot d n_tries else 0)
  end.

(** [bind_get_connection_timeout::timeout(t)]: the bound timeout caps the
    constraint of the operation. *)
Definition bind_timeout (timeout now : Z) (t : time_constraint) : Z :=
  match t with
  | tc_none => timeout
  | tc_time_point t => Z.min timeout (time_left t now)
  | tc_duration d => Z.min timeout d
  end.

(** [connection_pool::queue_timeout]. *)
Definition queue_timeout (now : Z) (t : time_constraint) : Z :=
  match t with
  | tc_none => 0
  | tc_time_point at_ => time_left at_ now
  | tc_duration d => d
  end.

(** A clock reading of a steady clock: not before its epoch. *)
Definition clock_reading (now : Z) : Prop := 0 <= now <= time_point_max.

Lemma i64_max_val : i64_max = 9223372036854775807. Proof. done. Qed.
Lemma i64_min_val : i64_min = -9223372036854775808. Proof. done. Qed.

Ltac i64 := unfold clock_reading, time_point_max in *; rewrite ?i64_max_val, ?i64_min_val in *; lia.

Lemma time_left_eq t now : clock_reading now -> t <= time_point_max ->
  time_left t now = Z.max 0 (t - now).
Proof.
  intros Hn Ht. unfold time_left. destruct (Z.ltb_spec now t); [|lia].
  rewrite w64_id by i64. lia.
Qed.

Lemma deadline_after_eq after now : clock_reading now -> after <= i64_max ->
  deadline_after after now = Z.min time_point_max (now + Z.max 0 after).
Proof.
  intros Hn Ha. unfold deadline_after. destruct (Z.ltb_spec after 0).
  { i64. }
  rewrite w64_id by i64. destruct (Z.ltb_spec (time_point_max - now) after); [i64|].
  rewrite w64_id by i64. i64.
Qed.

(** The deadline of a duration is [now + max(after, 0)]
    saturated at the last time point, and the time left to it at [now] is the
    duration itself whenever it was not saturated: neither computation
    overflows for any duration and any reading of a steady clock. *)
Theorem deadline_saturates (after now : Z)
    (Hnow : clock_reading now) (Hafter : i64_min <= after <= i64_max) :
  let d := deadline_after after now in
  d = Z.min time_point_max (now + Z.max 0 after)
  /\ now <= d <= time_point_max
  /\ time_left d now = Z.min (Z.max 0 after) (time_point_max - now)
  /\ expired d now = bool_decide (after <= 0 \/ now = time_point_max).
Proof.
  intros d. subst d. unfold expired. rewrite !deadline_after_eq, time_left_eq by i64.
  split_and!; [done|i64|i64|i64|].
  case_bool_decide; [apply Z.eqb_eq|apply Z.eqb_neq]; i64.
Qed.

(** With [n] tries left before a deadline, the share of a try is
    non-negative, [n] shares fit in the time left, and a try that used at most
    its share leaves the next try at least as large a share; with no try left
    the share is zero. *)
Theorem try_share_fair (t now e n : Z)
    (Hnow : clock_reading now) (Ht : now <= t <= time_point_max) (Hn : 1 < n) (He : 0 <= e) :
  exists share, get_try_time_constraint (tc_time_point t) n now = tc_duration share
  /\ 0 <= share /\ n * share <= t - now
  /\ (e <= share ->
      exists share', get_try_time_constraint (tc_time_point t) (n - 1) (now + e) = tc_duration share'
      /\ share <= share' /\ now + e + share' <= t)
  /\ get_try_time_constraint (tc_time_point t) 0 now = tc_duration 0.
Proof.
  eexists. split; [done|]. unfold get_try_time_constraint.
  rewrite (proj2 (Z.ltb_lt 0 n)), (proj2 (Z.ltb_lt 0 (n - 1))) by lia.
  rewrite !time_left_eq, Z.max_r by i64.
  rewrite !Z.quot_div_nonneg by lia.
  pose proof (Z.div_mod (t - now) n ltac:(lia)) as Hdm.
  pose proof (Z.mod_pos_bound (t - now) n ltac:(lia)).
  assert (0 <= (t - now) / n) by (apply Z.div_pos; lia).
  split_and!; [done|nia| |done]. intros Hshare. eexists; split; [done|].
  assert (now + e <= t) by nia. rewrite time_left_eq, Z.max_r by i64.
  pose proof (Z.div_mod (t - (now + e)) (n - 1) ltac:(lia)) as Hdm'.
  pose proof (Z.mod_pos_bound (t - (now + e)) (n - 1) ltac:(lia)).
  rewrite Z.quot_div_nonneg by lia.
  assert (0 <= (t - (now + e)) / (n - 1)) by (apply Z.div_pos; lia).
  split; [|nia]. apply Z.div_le_lower_bound; nia.
Qed.

End Deadline.

(** ** The resource pool's saturating addition *)
Module PoolTime.

(** [yamail::resource_pool::time_traits::add(time_point t, duration d)] *)
Definition add (t d : Z) : Z :=
  let epoch := 0 in
  if epoch <=? t then
    if w64 (i64_max - t) <? d then i64_max else w64 (t + d)
  else
    if d <? w64 (- w64 (t - i64_min)) then i64_min else w64 (t + d).

(** [add] is addition saturated to the range of a time point, for every time
    point and every duration: no operation in it overflows. *)
Lemma add_saturates (t d : Z) :
  i64_min <= t <= i64_max -> i64_min <= d <= i64_max -> add t d = clamp int64_t (t + d).
Proof.
  intros Ht Hd. unfold add, clamp. fold i64_min i64_max.
  rewrite Deadline.i64_max_val, Deadline.i64_min_val in *.
  destruct (Z.leb_spec 0 t).
  - rewrite w64_id by Deadline.i64. destruct (Z.ltb_spec (9223372036854775807 - t) d); [lia|].
    rewrite w64_id by Deadline.i64. lia.
  - rewrite (w64_id (t - _)) by Deadline.i64. rewrite w64_id by Deadline.i64.
    destruct (Z.ltb_spec d (- (t - -9223372036854775808))); [lia|].
    rewrite w64_id by Deadline.i64. lia.
Qed.

End PoolTime.

(** ** Chrono types on the wire *)
Module Chrono.

Definition day : Z := 86400000000.

(** [detail::pg_interval] *)
Record pg_interval := PgInterval { microseconds : Z; days : Z; months : Z }.

(** [from_chrono_duration]: remainder and quotient of a division that truncates;
    the quotient is a [duration<int32_t, days>]. *)
Definition from_chrono_duration (usec : Z) : pg_interval :=
  PgInterval (Z.rem usec day) (it_wrap int32_t (Z.quot usec day)) 0.

(** [to_chrono_duration], the [int64_t] microsecond arithmetic wrapping. *)
Definition to_chrono_duration (i : pg_interval) : Z :=
  let usecs_surplus := Z.rem (microseconds i) day in
  let days_total := months i * 30 + days i + Z.quot (microseconds i) day in
  if (days_total <? Z.quot i64_min day - 1)
     || ((days_total <? 0)
         && (w64 (w64 ((days_total + 1) * day) + usecs_surplus) <? w64 (i64_min + day)))
  then i64_min
  else if (Z.quot i64_max day + 1 <? days_total)
     || ((0 <? days_total)
         && (w64 (i64_max - day) <? w64 (w64 ((days_total - 1) * day) + usecs_surplus)))
  then i64_max
  else w64 (w64 (days_total * day) + usecs_surplus).

(** The microseconds an interval denotes, with months of 30 days. *)
Definition interval_usecs (i : pg_interval) : Z :=
  (months i * 30 + days i) * day + microseconds i.

(** The intervals on which the intermediate sums stay in range: the whole days
    are not exactly one day beyond the representable ones with a surplus that
    points further out. *)
Definition interval_safe (i : pg_interval) : Prop :=
  let surplus := Z.rem (microseconds i) day in
  let total := months i * 30 + days i + Z.quot (microseconds i) day in
  ~ (total = -106751992 /\ surplus < -14454775808)
  /\ ~ (total = 106751992 /\ surplus > 14454775807).

Definition interval_in_range (i : pg_interval) : Prop :=
  in_range int64_t (microseconds i) /\ in_range int32_t (days i) /\ in_range int32_t (months i).

(** [send_impl<system_clock::time_point>]: ticks since the Unix epoch to
    microseconds since 2000-01-01; [tick] is the number of clock ticks in a
    microsecond (1000 for libstdc++'s nanosecond clock, 1 for libc++'s). *)
Definition epoch (tick : Z) : Z := 946684800000000 * tick.

Definition time_point_to_pg (tick tp : Z) : Z := Z.quot (w64 (tp - epoch tick)) tick.

(** [recv_impl<system_clock::time_point>]: [epoch + microseconds{value}] in
    clock ticks. *)
Definition time_point_of_pg (tick value : Z) : Z := w64 (epoch tick + w64 (value * tick)).

Lemma w64_add_l a b : w64 (w64 a + b) = w64 (a + b).
Proof.
  apply it_wrap_congr. rewrite <- (Z.add_mod_idemp_l (it_wrap int64_t a)) by done.
  rewrite it_wrap_mod. now rewrite Z.add_mod_idemp_l by done.
Qed.

Lemma quot_rem_day us :
  us = day * Z.quot us day + Z.rem us day /\ - day < Z.rem us day < day
  /\ (0 <= us -> 0 <= Z.rem us day) /\ (us <= 0 -> Z.rem us day <= 0).
Proof.
  pose proof (Z.quot_rem us day ltac:(done)) as H.
  pose proof (Z.rem_bound_abs us day ltac:(done)). change (Z.abs day) with day in *.
  split_and!; [lia|lia|lia|intros; by apply Z.rem_nonneg|intros; by apply Z.rem_nonpos].
Qed.

Lemma to_chrono_clamp (i : pg_interval) :
  interval_in_range i -> interval_safe i ->
  to_chrono_duration i = clamp int64_t (interval_usecs i).
Proof.
  intros Hi Hs. destruct i as [us ds ms]. unfold interval_safe, to_chrono_duration, interval_usecs, clamp in *.
  cbn [microseconds days months] in *. fold i64_min i64_max.
  destruct (quot_rem_day us) as (Hq & Hr & _).
  set (q := Z.quot us day) in *. set (r := Z.rem us day) in *.
  set (total := ms * 30 + ds + q) in *.
  assert ((ms * 30 + ds) * day + us = total * day + r) as -> by (unfold total; lia).
  rewrite !w64_add_l. clearbody total r. clear Hi Hq.
  change (Z.quot i64_min day) with (-106751991). change (Z.quot i64_max day) with 106751991.
  change (w64 (i64_min + day)) with (-9223371950454775808).
  change (w64 (i64_max - day)) with 9223371950454775807.
  rewrite Deadline.i64_min_val, Deadline.i64_max_val. unfold day in *.
  destruct (Z.ltb_spec total (-106751991 - 1)); cbn [orb]; [lia|].
  destruct (Z.ltb_spec total 0); cbn [andb].
  { rewrite (proj2 (Z.ltb_ge 0 total)), (proj2 (Z.ltb_ge (106751991 + 1) total)) by lia. cbn [orb andb].
    rewrite w64_id by Deadline.i64. destruct (Z.ltb_spec ((total + 1) * 86400000000 + r) (-9223371950454775808)); [lia|].
    rewrite w64_id by Deadline.i64. lia. }
  destruct (Z.ltb_spec (106751991 + 1) total); cbn [orb]; [lia|].
  destruct (Z.ltb_spec 0 total); cbn [andb].
  { rewrite w64_id by Deadline.i64. destruct (Z.ltb_spec 9223371950454775807 ((total - 1) * 86400000000 + r)); [lia|].
    rewrite w64_id by Deadline.i64. lia. }
  rewrite w64_id by Deadline.i64. lia.
Qed.

(** C40: an interval is received as the number of
    microseconds it denotes, saturated to the range of
    [std::chrono::microseconds], on every interval whose total is not exactly
    one day beyond that range. *)
Theorem to_chrono_duration_clamps (i : pg_interval)
    (Hi : interval_in_range i) (Hs : interval_safe i) :
  to_chrono_duration i = clamp int64_t (interval_usecs i).
Proof. by apply to_chrono_clamp. Qed.

Lemma to_chrono_duration_clamps_witness :
  to_chrono_duration (PgInterval 36672013014 9 92) = clamp int64_t 239278272013014
  /\ to_chrono_duration (PgInterval 0 2147483647 0) = i64_max.
Proof.
  split; rewrite to_chrono_duration_clamps; try done;
    vm_compute; intuition discriminate.
Defined.

(** On an interval of 106751992 days and 5 hours the sum
    wraps around, and the code returns a large negative duration where the
    maximum is due (the tests ask for saturation on such inputs). *)
Theorem to_chrono_duration_wraps :
  let i := PgInterval 18000000000 106751992 0 in
  interval_in_range i
  /\ interval_usecs i > i64_max
  /\ to_chrono_duration i = -9223371946909551616
  /\ to_chrono_duration i <> clamp int64_t (interval_usecs i).
Proof. vm_compute. intuition discriminate. Qed.

Lemma from_chrono_duration_range x :
  i64_min <= x <= i64_max -> interval_in_range (from_chrono_duration x).
Proof.
  intros Hx. destruct (quot_rem_day x) as (Hq & Hr & _). unfold from_chrono_duration, interval_in_range.
  cbn [microseconds days months]. split_and!.
  - unfold in_range. fold i64_min i64_max. rewrite Deadline.i64_min_val, Deadline.i64_max_val. unfold day in *. lia.
  - by apply it_wrap_range.
  - vm_compute. intuition discriminate.
Qed.

Lemma from_chrono_quot x : i64_min <= x <= i64_max ->
  it_wrap int32_t (Z.quot x day) = Z.quot x day /\ -106751991 <= Z.quot x day <= 106751991.
Proof.
  intros Hx. destruct (quot_rem_day x) as (Hq & Hr & Hp & Hn).
  rewrite Deadline.i64_min_val, Deadline.i64_max_val in Hx.
  assert (-106751991 <= Z.quot x day <= 106751991) as H by (unfold day in *; lia).
  split; [|done]. apply it_wrap_id; [done|]. unfold in_range.
  change (it_min int32_t) with (-2147483648). change (it_max int32_t) with 2147483647. lia.
Qed.

Lemma interval_usecs_roundtrip x : i64_min <= x <= i64_max ->
  to_chrono_duration (from_chrono_duration x) = x.
Proof.
  intros Hx.
  destruct (from_chrono_quot x Hx) as [Hw Hb]. destruct (quot_rem_day x) as (Hq & Hr & _).
  assert (interval_usecs (from_chrono_duration x) = x) as Hu.
  { unfold interval_usecs, from_chrono_duration. cbn [microseconds days months]. rewrite Hw. lia. }
  assert (Z.quot (Z.rem x day) day = 0) as Hz.
  { destruct (decide (0 <= x)).
    - apply Z.quot_small. pose proof (Z.rem_nonneg x day). unfold day in *. lia.
    - rewrite <- (Z.opp_involutive (Z.rem x day)), Z.quot_opp_l by done.
      rewrite Z.quot_small; [done|]. pose proof (Z.rem_nonpos x day). unfold day in *. lia. }
  assert (interval_safe (from_chrono_duration x)) as Hs.
  { unfold interval_safe, from_chrono_duration. cbn [microseconds days months]. rewrite Hw, Hz. lia. }
  rewrite to_chrono_clamp, Hu by auto using from_chrono_duration_range.
  unfold clamp. fold i64_min i64_max. lia.
Qed.

(** Every [std::chrono::microseconds] survives the
    conversion to [pg_interval] and back. *)
Theorem interval_roundtrip (x : Z) (Hx : i64_min <= x <= i64_max) :
  to_chrono_duration (from_chrono_duration x) = x.
Proof. by apply interval_usecs_roundtrip. Qed.

(** A time point comes back truncated to a whole microsecond after the PostgreSQL epoch (towards it). *)
Lemma time_point_roundtrip tick tp : 0 < tick -> i64_min <= epoch tick <= i64_max ->
  i64_min <= tp <= i64_max -> i64_min <= tp - epoch tick <= i64_max ->
  time_point_of_pg tick (time_point_to_pg tick tp) = tp - Z.rem (tp - epoch tick) tick.
Proof.
  intros Ht He Htp Hd. unfold time_point_of_pg, time_point_to_pg. rewrite (w64_id (tp - _)) by done.
  pose proof (Z.quot_rem (tp - epoch tick) tick ltac:(lia)) as Hqr.
  pose proof (Z.rem_bound_abs (tp - epoch tick) tick ltac:(lia)).
  set (r := Z.rem _ tick) in *. set (q := Z.quot _ tick) in *.
  assert ((0 <= tp - epoch tick -> 0 <= r) /\ (tp - epoch tick <= 0 -> r <= 0)) as [Hp Hn].
  { split; intros; [by apply Z.rem_nonneg; lia|by apply Z.rem_nonpos; lia]. }
  assert (tp - epoch tick = q * tick + r) by lia.
  assert ((0 <= tp - epoch tick -> 0 <= q * tick) /\ (tp - epoch tick <= 0 -> q * tick <= 0)).
  { split; intros; [assert (0 <= q) by nia|assert (q <= 0) by nia]; nia. }
  change i64_max with 9223372036854775807 in *. change i64_min with (-9223372036854775808) in *.
  rewrite (w64_id (q * tick)) by Deadline.i64. rewrite w64_id by Deadline.i64. lia.
Qed.

(** On a nanosecond system clock the PostgreSQL timestamp
    'infinity' (the largest [int64_t]) is not representable: the tick
    multiplication wraps, and the code yields a time point one microsecond
    before the PostgreSQL epoch. *)
Theorem timestamp_infinity_wraps :
  time_point_of_pg 1000 i64_max = epoch 1000 - 1000
  /\ epoch 1000 + i64_max * 1000 > i64_max.
Proof. vm_compute. done. Qed.

End Chrono.
