(* ===== verification/SqlState.v ===== *)
(** * SQLSTATE codes: the [sqlstate] namespace of [include/ozo/error.h]

    The enumeration is a table of its enumerators in source order, each with its
    value and the five-character SQLSTATE its comment gives.  The [switch]
    tables of [category::message] and [category::equivalent] are the lists of
    their [case] labels. *)

From S2P Require Import Prelude Words.
#[local] Open Scope string_scope.
#[local] Open Scope Z_scope.

Module SqlState.

(** One enumerator: name, value, SQLSTATE. *)
Abbreviation enumerator := (string * Z * string)%type.

(** [sqlstate::code], classes 00 to 3F. *)
Definition codes_00_3F : list enumerator :=
[ ("successful_completion", 0, "00000")
; ("warning", 46656, "01000")
; ("dynamic_result_sets_returned", 46668, "0100C")
; ("implicit_zero_bit_padding", 46664, "01008")
; ("null_value_eliminated_in_set_function", 46659, "01003")
; ("privilege_not_granted", 46663, "01007")
; ("privilege_not_revoked", 46662, "01006")
; ("string_data_right_truncation_warning", 46660, "01004")
; ("deprecated_feature", 79057, "01P01")
; ("no_data", 93312, "02000")
; ("no_additional_dynamic_result_sets_returned", 93313, "02001")
; ("sql_statement_not_yet_complete", 139968, "03000")
; ("connection_exception", 373248, "08000")
; ("connection_does_not_exist", 373251, "08003")
; ("connection_failure", 373254, "08006")
; ("sqlclient_unable_to_establish_sqlconnection", 373249, "08001")
; ("sqlserver_rejected_establishment_of_sqlconnection", 373252, "08004")
; ("transaction_resolution_unknown", 373255, "08007")
; ("protocol_violation", 405649, "08P01")
; ("triggered_action_exception", 419904, "09000")
; ("feature_not_supported", 466560, "0A000")
; ("invalid_transaction_initiation", 513216, "0B000")
; ("locator_exception", 699840, "0F000")
; ("invalid_locator_specification", 699841, "0F001")
; ("invalid_grantor", 979776, "0L000")
; ("invalid_grant_operation", 1012177, "0LP01")
; ("invalid_role_specification", 1166400, "0P000")
; ("diagnostics_exception", 1632960, "0Z000")
; ("stacked_diagnostics_accessed_without_active_handler", 1632962, "0Z002")
; ("case_not_found", 3359232, "20000")
; ("cardinality_violation", 3405888, "21000")
; ("data_exception", 3452544, "22000")
; ("array_subscript_error", 3452630, "2202E")
; ("character_not_in_repertoire", 3452617, "22021")
; ("datetime_field_overflow", 3452552, "22008")
; ("division_by_zero", 3452582, "22012")
; ("error_in_assignment", 3452549, "22005")
; ("escape_character_conflict", 3452555, "2200B")
; ("indicator_overflow", 3452618, "22022")
; ("interval_field_overflow", 3452585, "22015")
; ("invalid_argument_for_logarithm", 3452594, "2201E")
; ("invalid_argument_for_ntile_function", 3452584, "22014")
; ("invalid_argument_for_nth_value_function", 3452586, "22016")
; ("invalid_argument_for_power_function", 3452595, "2201F")
; ("invalid_argument_for_width_bucket_function", 3452596, "2201G")
; ("invalid_character_value_for_cast", 3452588, "22018")
; ("invalid_datetime_format", 3452551, "22007")
; ("invalid_escape_character", 3452589, "22019")
; ("invalid_escape_octet", 3452557, "2200D")
; ("invalid_escape_sequence", 3452621, "22025")
; ("nonstandard_use_of_escape_character", 3484950, "22P06")
; ("invalid_indicator_parameter_value", 3452580, "22010")
; ("invalid_parameter_value", 3452619, "22023")
; ("invalid_regular_expression", 3452591, "2201B")
; ("invalid_row_count_in_limit_clause", 3452612, "2201W")
; ("invalid_row_count_in_result_offset_clause", 3452613, "2201X")
; ("invalid_time_zone_displacement_value", 3452553, "22009")
; ("invalid_use_of_escape_character", 3452556, "2200C")
; ("most_specific_type_mismatch", 3452560, "2200G")
; ("null_value_not_allowed", 3452548, "22004")
; ("null_value_no_indicator_parameter", 3452546, "22002")
; ("numeric_value_out_of_range", 3452547, "22003")
; ("string_data_length_mismatch", 3452622, "22026")
; ("string_data_right_truncation", 3452545, "22001")
; ("substring_error", 3452581, "22011")
; ("trim_error", 3452623, "22027")
; ("unterminated_c_string", 3452620, "22024")
; ("zero_length_character_string", 3452559, "2200F")
; ("floating_point_exception", 3484945, "22P01")
; ("invalid_text_representation", 3484946, "22P02")
; ("invalid_binary_representation", 3484947, "22P03")
; ("bad_copy_file_format", 3484948, "22P04")
; ("untranslatable_character", 3484949, "22P05")
; ("not_an_xml_document", 3452565, "2200L")
; ("invalid_xml_document", 3452566, "2200M")
; ("invalid_xml_content", 3452567, "2200N")
; ("invalid_xml_comment", 3452572, "2200S")
; ("invalid_xml_processing_instruction", 3452573, "2200T")
; ("integrity_constraint_violation", 3499200, "23000")
; ("restrict_violation", 3499201, "23001")
; ("not_null_violation", 3505682, "23502")
; ("foreign_key_violation", 3505683, "23503")
; ("unique_violation", 3505685, "23505")
; ("check_violation", 3505720, "23514")
; ("exclusion_violation", 3531601, "23P01")
; ("invalid_cursor_state", 3545856, "24000")
; ("invalid_transaction_state", 3592512, "25000")
; ("active_sql_transaction", 3592513, "25001")
; ("branch_transaction_already_active", 3592514, "25002")
; ("held_cursor_requires_same_isolation_level", 3592520, "25008")
; ("inappropriate_access_mode_for_branch_transaction", 3592515, "25003")
; ("inappropriate_isolation_level_for_branch_transaction", 3592516, "25004")
; ("no_active_sql_transaction_for_branch_transaction", 3592517, "25005")
; ("read_only_sql_transaction", 3592518, "25006")
; ("schema_and_data_statement_mixing_not_supported", 3592519, "25007")
; ("no_active_sql_transaction", 3624913, "25P01")
; ("in_failed_sql_transaction", 3624914, "25P02")
; ("invalid_sql_statement_name", 3639168, "26000")
; ("triggered_data_change_violation", 3685824, "27000")
; ("invalid_authorization_specification", 3732480, "28000")
; ("invalid_password", 3764881, "28P01")
; ("dependent_privilege_descriptors_still_exist", 3872448, "2B000")
; ("dependent_objects_still_exist", 3904849, "2BP01")
; ("invalid_transaction_termination", 3965760, "2D000")
; ("sql_routine_exception", 4059072, "2F000")
; ("function_executed_no_return_statement", 4059077, "2F005")
; ("modifying_sql_data_not_permitted", 4059074, "2F002")
; ("prohibited_sql_statement_attempted", 4059075, "2F003")
; ("reading_sql_data_not_permitted", 4059076, "2F004")
; ("invalid_cursor_name", 5225472, "34000")
; ("external_routine_exception", 5412096, "38000")
; ("containing_sql_not_permitted", 5412097, "38001")
; ("modifying_sql_data_not_permitted_external", 5412098, "38002")
; ("prohibited_sql_statement_attempted_external", 5412099, "38003")
; ("reading_sql_data_not_permitted_external", 5412100, "38004")
; ("external_routine_invocation_exception", 5458752, "39000")
; ("invalid_sqlstate_returned", 5458753, "39001")
; ("null_value_not_allowed_external", 5458756, "39004")
; ("trigger_protocol_violated", 5491153, "39P01")
; ("srf_protocol_violated", 5491154, "39P02")
; ("savepoint_exception", 5552064, "3B000")
; ("invalid_savepoint_specification", 5552065, "3B001")
; ("invalid_catalog_name", 5645376, "3D000")
; ("invalid_schema_name", 5738688, "3F000") ].

(** [sqlstate::code], classes 40 to XX. *)
Definition codes_40_XX : list enumerator :=
[ ("transaction_rollback", 6718464, "40000")
; ("transaction_integrity_constraint_violation", 6718466, "40002")
; ("serialization_failure", 6718465, "40001")
; ("statement_completion_unknown", 6718467, "40003")
; ("deadlock_detected", 6750865, "40P01")
; ("syntax_error_or_access_rule_violation", 6811776, "42000")
; ("syntax_error", 6819553, "42601")
; ("insufficient_privilege", 6818257, "42501")
; ("cannot_coerce", 6822294, "42846")
; ("grouping_error", 6822147, "42803")
; ("windowing_error", 6844248, "42P20")
; ("invalid_recursion", 6844221, "42P19")
; ("invalid_foreign_key", 6822252, "42830")
; ("invalid_name", 6819554, "42602")
; ("name_too_long", 6819626, "42622")
; ("reserved_name", 6823557, "42939")
; ("datatype_mismatch", 6822148, "42804")
; ("indeterminate_datatype", 6844220, "42P18")
; ("collation_mismatch", 6844249, "42P21")
; ("indeterminate_collation", 6844250, "42P22")
; ("wrong_object_type", 6822153, "42809")
; ("undefined_column", 6820851, "42703")
; ("undefined_function", 6822435, "42883")
; ("undefined_table", 6844177, "42P01")
; ("undefined_parameter", 6844178, "42P02")
; ("undefined_object", 6820852, "42704")
; ("duplicate_column", 6820849, "42701")
; ("duplicate_cursor", 6844179, "42P03")
; ("duplicate_database", 6844180, "42P04")
; ("duplicate_function", 6820923, "42723")
; ("duplicate_prepared_statement", 6844181, "42P05")
; ("duplicate_schema", 6844182, "42P06")
; ("duplicate_table", 6844183, "42P07")
; ("duplicate_alias", 6820886, "42712")
; ("duplicate_object", 6820884, "42710")
; ("ambiguous_column", 6820850, "42702")
; ("ambiguous_function", 6820925, "42725")
; ("ambiguous_parameter", 6844184, "42P08")
; ("ambiguous_alias", 6844185, "42P09")
; ("invalid_column_reference", 6844212, "42P10")
; ("invalid_column_definition", 6819589, "42611")
; ("invalid_cursor_definition", 6844213, "42P11")
; ("invalid_database_definition", 6844214, "42P12")
; ("invalid_function_definition", 6844215, "42P13")
; ("invalid_prepared_statement_definition", 6844216, "42P14")
; ("invalid_schema_definition", 6844217, "42P15")
; ("invalid_table_definition", 6844218, "42P16")
; ("invalid_object_definition", 6844219, "42P17")
; ("with_check_option_violation", 6905088, "44000")
; ("insufficient_resources", 8538048, "53000")
; ("disk_full", 8539344, "53100")
; ("out_of_memory", 8540640, "53200")
; ("too_many_connections", 8541936, "53300")
; ("configuration_limit_exceeded", 8543232, "53400")
; ("program_limit_exceeded", 8584704, "54000")
; ("statement_too_complex", 8584705, "54001")
; ("too_many_columns", 8584741, "54011")
; ("too_many_arguments", 8584779, "54023")
; ("object_not_in_prerequisite_state", 8631360, "55000")
; ("object_in_use", 8631366, "55006")
; ("cant_change_runtime_param", 8663762, "55P02")
; ("lock_not_available", 8663763, "55P03")
; ("operator_intervention", 8724672, "57000")
; ("query_canceled", 8724712, "57014")
; ("admin_shutdown", 8757073, "57P01")
; ("crash_shutdown", 8757074, "57P02")
; ("cannot_connect_now", 8757075, "57P03")
; ("database_dropped", 8757076, "57P04")
; ("system_error", 8771328, "58000")
; ("io_error", 8771436, "58030")
; ("undefined_file", 8803729, "58P01")
; ("duplicate_file", 8803730, "58P02")
; ("snapshot_too_old", 11850624, "72000")
; ("config_file_error", 25194240, "F0000")
; ("lock_file_exists", 25194241, "F0001")
; ("fdw_error", 29999808, "HV000")
; ("fdw_column_name_not_found", 29999813, "HV005")
; ("fdw_dynamic_parameter_value_needed", 29999810, "HV002")
; ("fdw_function_sequence_error", 29999844, "HV010")
; ("fdw_inconsistent_descriptor_information", 29999881, "HV021")
; ("fdw_invalid_attribute_value", 29999884, "HV024")
; ("fdw_invalid_column_name", 29999815, "HV007")
; ("fdw_invalid_column_number", 29999816, "HV008")
; ("fdw_invalid_data_type", 29999812, "HV004")
; ("fdw_invalid_data_type_descriptors", 29999814, "HV006")
; ("fdw_invalid_descriptor_field_identifier", 30000133, "HV091")
; ("fdw_invalid_handle", 29999819, "HV00B")
; ("fdw_invalid_option_index", 29999820, "HV00C")
; ("fdw_invalid_option_name", 29999821, "HV00D")
; ("fdw_invalid_string_length_or_buffer_length", 30000132, "HV090")
; ("fdw_invalid_string_format", 29999818, "HV00A")
; ("fdw_invalid_use_of_null_pointer", 29999817, "HV009")
; ("fdw_too_many_handles", 29999848, "HV014")
; ("fdw_out_of_memory", 29999809, "HV001")
; ("fdw_no_schemas", 29999833, "HV00P")
; ("fdw_option_name_not_found", 29999827, "HV00J")
; ("fdw_reply_handle", 29999828, "HV00K")
; ("fdw_schema_not_found", 29999834, "HV00Q")
; ("fdw_table_not_found", 29999835, "HV00R")
; ("fdw_unable_to_create_execution", 29999829, "HV00L")
; ("fdw_unable_to_create_reply", 29999830, "HV00M")
; ("fdw_unable_to_establish_connection", 29999831, "HV00N")
; ("plpgsql_error", 41990400, "P0000")
; ("raise_exception", 41990401, "P0001")
; ("no_data_found", 41990402, "P0002")
; ("too_many_rows", 41990403, "P0003")
; ("internal_error", 56966976, "XX000")
; ("data_corrupted", 56966977, "XX001")
; ("index_corrupted", 56966978, "XX002") ].

Definition code : list enumerator := codes_00_3F ++ codes_40_XX.

(** The [OZO_SQLSTATE_NAME] labels of [category::message]. *)
Definition message_labels_00_3F : list string :=
[ "successful_completion"; "warning"; "dynamic_result_sets_returned"; "implicit_zero_bit_padding";
  "null_value_eliminated_in_set_function"; "privilege_not_granted"; "privilege_not_revoked";
  "string_data_right_truncation_warning"; "deprecated_feature"; "no_data";
  "no_additional_dynamic_result_sets_returned"; "sql_statement_not_yet_complete";
  "connection_exception"; "connection_does_not_exist"; "connection_failure";
  "sqlclient_unable_to_establish_sqlconnection";
  "sqlserver_rejected_establishment_of_sqlconnection"; "transaction_resolution_unknown";
  "protocol_violation"; "triggered_action_exception"; "feature_not_supported";
  "invalid_transaction_initiation"; "locator_exception"; "invalid_locator_specification";
  "invalid_grantor"; "invalid_grant_operation"; "invalid_role_specification";
  "diagnostics_exception"; "stacked_diagnostics_accessed_without_active_handler"; "case_not_found";
  "cardinality_violation"; "data_exception"; "array_subscript_error";
  "character_not_in_repertoire"; "datetime_field_overflow"; "division_by_zero";
  "error_in_assignment"; "escape_character_conflict"; "indicator_overflow";
  "interval_field_overflow"; "invalid_argument_for_logarithm";
  "invalid_argument_for_ntile_function"; "invalid_argument_for_nth_value_function";
  "invalid_argument_for_power_function"; "invalid_argument_for_width_bucket_function";
  "invalid_character_value_for_cast"; "invalid_datetime_format"; "invalid_escape_character";
  "invalid_escape_octet"; "invalid_escape_sequence"; "nonstandard_use_of_escape_character";
  "invalid_indicator_parameter_value"; "invalid_parameter_value"; "invalid_regular_expression";
  "invalid_row_count_in_limit_clause"; "invalid_row_count_in_result_offset_clause";
  "invalid_time_zone_displacement_value"; "invalid_use_of_escape_character";
  "most_specific_type_mismatch"; "null_value_not_allowed"; "null_value_no_indicator_parameter";
  "numeric_value_out_of_range"; "string_data_length_mismatch"; "string_data_right_truncation";
  "substring_error"; "trim_error"; "unterminated_c_string"; "zero_length_character_string";
  "floating_point_exception"; "invalid_text_representation"; "invalid_binary_representation";
  "bad_copy_file_format"; "untranslatable_character"; "not_an_xml_document";
  "invalid_xml_document"; "invalid_xml_content"; "invalid_xml_comment";
  "invalid_xml_processing_instruction"; "integrity_constraint_violation"; "restrict_violation";
  "not_null_violation"; "foreign_key_violation"; "unique_violation"; "check_violation";
  "exclusion_violation"; "invalid_cursor_state"; "invalid_transaction_state";
  "active_sql_transaction"; "branch_transaction_already_active";
  "held_cursor_requires_same_isolation_level"; "inappropriate_access_mode_for_branch_transaction";
  "inappropriate_isolation_level_for_branch_transaction";
  "no_active_sql_transaction_for_branch_transaction"; "read_only_sql_transaction";
  "schema_and_data_statement_mixing_not_supported"; "no_active_sql_transaction";
  "in_failed_sql_transaction"; "invalid_sql_statement_name"; "triggered_data_change_violation";
  "invalid_authorization_specification"; "invalid_password";
  "dependent_privilege_descriptors_still_exist"; "dependent_objects_still_exist";
  "invalid_transaction_termination"; "sql_routine_exception";
  "function_executed_no_return_statement"; "modifying_sql_data_not_permitted";
  "prohibited_sql_statement_attempted"; "reading_sql_data_not_permitted"; "invalid_cursor_name";
  "external_routine_exception"; "containing_sql_not_permitted";
  "modifying_sql_data_not_permitted_external"; "prohibited_sql_statement_attempted_external";
  "reading_sql_data_not_permitted_external"; "external_routine_invocation_exception";
  "invalid_sqlstate_returned"; "null_value_not_allowed_external"; "trigger_protocol_violated";
  "srf_protocol_violated"; "savepoint_exception"; "invalid_savepoint_specification";
  "invalid_catalog_name"; "invalid_schema_name" ].

Definition message_labels_40_XX : list string :=
[ "transaction_rollback"; "transaction_integrity_constraint_violation"; "serialization_failure";
  "statement_completion_unknown"; "deadlock_detected"; "syntax_error_or_access_rule_violation";
  "syntax_error"; "insufficient_privilege"; "cannot_coerce"; "grouping_error"; "windowing_error";
  "invalid_recursion"; "invalid_foreign_key"; "invalid_name"; "name_too_long"; "reserved_name";
  "datatype_mismatch"; "indeterminate_datatype"; "collation_mismatch"; "indeterminate_collation";
  "wrong_object_type"; "undefined_column"; "undefined_function"; "undefined_table";
  "undefined_parameter"; "undefined_object"; "duplicate_column"; "duplicate_cursor";
  "duplicate_database"; "duplicate_function"; "duplicate_prepared_statement"; "duplicate_schema";
  "duplicate_table"; "duplicate_alias"; "duplicate_object"; "ambiguous_column";
  "ambiguous_function"; "ambiguous_parameter"; "ambiguous_alias"; "invalid_column_reference";
  "invalid_column_definition"; "invalid_cursor_definition"; "invalid_database_definition";
  "invalid_function_definition"; "invalid_prepared_statement_definition";
  "invalid_schema_definition"; "invalid_table_definition"; "invalid_object_definition";
  "with_check_option_violation"; "insufficient_resources"; "disk_full"; "out_of_memory";
  "too_many_connections"; "configuration_limit_exceeded"; "program_limit_exceeded";
  "statement_too_complex"; "too_many_columns"; "too_many_arguments";
  "object_not_in_prerequisite_state"; "object_in_use"; "cant_change_runtime_param";
  "lock_not_available"; "operator_intervention"; "query_canceled"; "admin_shutdown";
  "crash_shutdown"; "cannot_connect_now"; "database_dropped"; "system_error"; "io_error";
  "undefined_file"; "duplicate_file"; "config_file_error"; "lock_file_exists"; "fdw_error";
  "fdw_column_name_not_found"; "fdw_dynamic_parameter_value_needed"; "fdw_function_sequence_error";
  "fdw_inconsistent_descriptor_information"; "fdw_invalid_attribute_value";
  "fdw_invalid_column_name"; "fdw_invalid_column_number"; "fdw_invalid_data_type";
  "fdw_invalid_data_type_descriptors"; "fdw_invalid_descriptor_field_identifier";
  "fdw_invalid_handle"; "fdw_invalid_option_index"; "fdw_invalid_option_name";
  "fdw_invalid_string_length_or_buffer_length"; "fdw_invalid_string_format";
  "fdw_invalid_use_of_null_pointer"; "fdw_too_many_handles"; "fdw_out_of_memory"; "fdw_no_schemas";
  "fdw_option_name_not_found"; "fdw_reply_handle"; "fdw_schema_not_found"; "fdw_table_not_found";
  "fdw_unable_to_create_execution"; "fdw_unable_to_create_reply";
  "fdw_unable_to_establish_connection"; "plpgsql_error"; "raise_exception"; "no_data_found";
  "too_many_rows"; "internal_error"; "data_corrupted"; "index_corrupted" ].

Definition message_labels : list string := message_labels_00_3F ++ message_labels_40_XX.

(** The [OZO_SQL_STATE_CONDITION] labels of [category::equivalent]. *)
Definition condition_labels : list string :=
[ "warning"; "no_data"; "sql_statement_not_yet_complete"; "connection_exception";
  "triggered_action_exception"; "feature_not_supported"; "invalid_transaction_initiation";
  "locator_exception"; "invalid_grantor"; "invalid_role_specification"; "diagnostics_exception";
  "case_not_found"; "cardinality_violation"; "data_exception"; "integrity_constraint_violation";
  "invalid_cursor_state"; "invalid_transaction_state"; "invalid_sql_statement_name";
  "triggered_data_change_violation"; "invalid_authorization_specification";
  "dependent_privilege_descriptors_still_exist"; "invalid_transaction_termination";
  "sql_routine_exception"; "invalid_cursor_name"; "external_routine_exception";
  "external_routine_invocation_exception"; "savepoint_exception"; "invalid_catalog_name";
  "invalid_schema_name"; "transaction_rollback"; "syntax_error_or_access_rule_violation";
  "with_check_option_violation"; "insufficient_resources"; "program_limit_exceeded";
  "object_not_in_prerequisite_state"; "operator_intervention"; "system_error"; "snapshot_too_old";
  "config_file_error"; "fdw_error"; "plpgsql_error"; "internal_error" ].


(** The value the name of an enumerator denotes. *)
Definition value_of (name : string) : option Z :=
  match List.find (fun e => bool_decide (e.1.1 = name)) code with
  | Some e => Some e.1.2
  | None => None
  end.

(** [switch (value) { case label: ... }] over a list of labels. *)
Definition switch (labels : list string) (value : Z) : option string :=
  List.find (fun l => bool_decide (value_of l = Some value)) labels.

(** [category::message]; [None] only if [ltob36] did not terminate. *)
Definition message (value : Z) : option string :=
  match switch message_labels value with
  | Some name => (fun d => name +:+ "(" +:+ d +:+ ")") <$> ltob36 value
  | None => (fun d => "sql state " +:+ d) <$> ltob36 value
  end.

(** Error code class width, 01000 in base 36. *)
Definition class_width : Z := 46656.

(** [category::equivalent(code, condition)] for a [code] of this category: a
    class condition matches the class, any other its own value. *)
Definition equivalent (value condition : Z) : bool :=
  match switch condition_labels condition with
  | Some _ => (condition <=? value) && (value <? condition + class_width)
  | None => value =? condition
  end.

(** ** Properties *)

(** A string of base-36 digits, upper case, as PostgreSQL writes an SQLSTATE. *)
Definition sqlstate_string (ds : list Z) : string :=
  String.string_of_list_ascii (b36_digit <$> ds).

Definition is_sqlstate (ds : list Z) : Prop :=
  length ds = 5%nat /\ Forall (fun d => 0 <= d < 36) ds.

Lemma b36tol_sqlstate d1 d2 d3 d4 d5 :
  is_sqlstate [d1; d2; d3; d4; d5] ->
  b36tol (sqlstate_string [d1; d2; d3; d4; d5]) = (36 * d1 + d2) * class_width + (1296 * d3 + 36 * d4 + d5).
Proof.
  intros [_ H]. unfold b36tol, sqlstate_string.
  rewrite String.list_ascii_of_string_of_list_ascii, strtol36_digits by done.
  rewrite !Forall_cons in H. unfold clamp, class_width. change (it_min int64_t) with (-9223372036854775808).
  change (it_max int64_t) with 9223372036854775807. cbn [reverse rev_append b36_sum]. lia.
Qed.

Lemma class_value_spec d1 d2 low : 0 <= low < class_width ->
  ((36 * d1 + d2) * class_width + low) / class_width = 36 * d1 + d2.
Proof. intros H. rewrite Z.div_add_l, Z.div_small by (unfold class_width in *; lia). lia. Qed.

Lemma equivalent_class_div condition v :
  switch condition_labels condition <> None -> condition mod class_width = 0 ->
  equivalent v condition = (v / class_width =? condition / class_width).
Proof.
  intros Hs Hm. unfold equivalent. destruct (switch _ _); [|done].
  pose proof (Z.div_mod condition class_width ltac:(done)) as Hc.
  pose proof (Z.div_mod v class_width ltac:(done)) as Hv.
  pose proof (Z.mod_pos_bound v class_width ltac:(done)) as Hb. rewrite Hm in Hc.
  unfold class_width in *. apply eq_true_iff_eq. rewrite andb_true_iff, Z.leb_le, Z.ltb_lt, Z.eqb_eq. lia.
Qed.

(** Every enumerator's value is what [strtol(state, 0, 36)]
    makes of the five-character SQLSTATE it stands for, so an error reply with
    that state becomes exactly that code; values and names are distinct. *)
Theorem code_is_base36_of_sqlstate :
  Forall (fun e => b36tol e.2 = e.1.2 /\ String.length e.2 = 5%nat) code
  /\ NoDup ((fun e => e.1.2) <$> code) /\ NoDup ((fun e => e.1.1) <$> code)
  /\ length code = 233%nat.
Proof.
  split_and!; [|apply (bool_decide_unpack _); vm_compute; done..|done].
  apply (bool_decide_unpack _). vm_compute. done.
Qed.

Lemma condition_labels_classes :
  Forall (fun l => exists v, value_of l = Some v /\ v mod class_width = 0 /\ switch condition_labels v <> None)
    condition_labels.
Proof.
  apply (Forall_check (fun l => match value_of l with
    | Some v => (v mod class_width =? 0) && bool_decide (switch condition_labels v <> None)
    | None => false end)); [vm_compute; done|].
  intros l H. destruct (value_of l) as [v|]; [|done].
  apply andb_true_iff in H as [H1 H2]. apply bool_decide_eq_true in H2. apply Z.eqb_eq in H1. eauto.
Qed.

(** Comparing an SQLSTATE with a class condition holds
    exactly when the states have the same class, their first two characters. *)
Theorem class_condition_matches_class (label : string) (d1 d2 d3 d4 d5 c1 c2 : Z)
    (Hl : label ∈ condition_labels)
    (Hv : value_of label = Some (b36tol (sqlstate_string [c1; c2; 0; 0; 0])))
    (Hc : is_sqlstate [c1; c2; 0; 0; 0]) (Hd : is_sqlstate [d1; d2; d3; d4; d5]) :
  equivalent (b36tol (sqlstate_string [d1; d2; d3; d4; d5]))
             (b36tol (sqlstate_string [c1; c2; 0; 0; 0])) = true
  <-> d1 = c1 /\ d2 = c2.
Proof.
  pose proof condition_labels_classes as Hall. rewrite Forall_forall in Hall.
  destruct (Hall label Hl) as (v & Hv' & Hm & Hs). rewrite Hv in Hv'. simplify_eq.
  rewrite equivalent_class_div by done.
  rewrite !b36tol_sqlstate by done. destruct Hc as [_ Hc], Hd as [_ Hd]. rewrite !Forall_cons in Hc, Hd.
  rewrite !class_value_spec by (unfold class_width; lia). rewrite Z.eqb_eq. lia.
Qed.

(** [message] names every enumerated code except
    [snapshot_too_old] (class 72), which has an enumerator and a class
    condition but no [case], so it is printed as an unknown state. *)
Theorem message_names_codes :
  Forall (fun e => if bool_decide (e.1.1 = "snapshot_too_old")
                   then message e.1.2 = Some "sql state 72000"
                   else exists d, ltob36 e.1.2 = Some d /\ message e.1.2 = Some (e.1.1 +:+ "(" +:+ d +:+ ")")) code.
Proof.
  apply (Forall_check (fun e => if bool_decide (e.1.1 = "snapshot_too_old")
    then bool_decide (message e.1.2 = Some "sql state 72000")
    else match ltob36 e.1.2 with
         | Some d => bool_decide (message e.1.2 = Some (e.1.1 +:+ "(" +:+ d +:+ ")"))
         | None => false end)); [vm_compute; done|].
  intros e H. case_bool_decide; [by apply bool_decide_eq_true in H|].
  destruct (ltob36 _) as [d|]; [|done]. apply bool_decide_eq_true in H. eauto.
Qed.

End SqlState.
