(* ===== verification/Errors.v ===== *)
(** * Error codes and conditions: [include/ozo/error.h], the resource pool's
      [error.hpp], and the exceptions the library throws

    An [error_code] is a value tagged with its category.  Codes of the operating
    system that Boost.Asio names are kept symbolic. *)

From stdpp Require Import pretty.
From S2P Require Import Prelude Words SqlState.
#[local] Open Scope string_scope.
#[local] Open Scope Z_scope.

(** [ozo::error::code] *)
Inductive code :=
| ok | pq_connection_start_failed | pq_socket_failed | pq_connection_status_bad
| pq_connect_poll_failed | oid_type_mismatch | unexpected_eof
| pg_send_query_params_failed | pg_consume_input_failed | pg_set_nonblocking_failed
| pg_flush_failed | bad_result_process | no_sql_state_found | result_status_unexpected
| result_status_empty_query | result_status_bad_response | oid_request_failed
| bad_object_size | bad_array_size | bad_array_dimension | bad_composite_size
| pq_cancel_failed | pq_get_cancel_failed.

#[export] Instance code_eq_dec : EqDecision code.
Proof. solve_decision. Defined.

(** The Boost.Asio errors the sources name. *)
Inductive asio_error :=
| broken_pipe | connection_aborted | connection_refused | connection_reset | fault
| host_unreachable | interrupted | network_reset | not_connected | operation_aborted
| shut_down | timed_out | try_again | host_not_found | host_not_found_try_again
| no_data | no_recovery | bad_descriptor.

#[export] Instance asio_error_eq_dec : EqDecision asio_error.
Proof. solve_decision. Defined.

(** [yamail::resource_pool::error::code] *)
Inductive pool_code := pool_ok | get_resource_timeout | request_queue_overflow | disabled.

#[export] Instance pool_code_eq_dec : EqDecision pool_code.
Proof. solve_decision. Defined.

(** [boost::system::error_code]: the default code, and codes of the categories
    the library deals with; [ec_io_error] is the system's EIO and [ec_other]
    any other code of another category. *)
Inductive error_code :=
| ec_default
| ec_ozo (c : code)
| ec_sqlstate (value : Z)
| ec_asio (e : asio_error)
| ec_pool (p : pool_code)
| ec_io_error
| ec_other (value : Z).

#[export] Instance error_code_eq_dec : EqDecision error_code.
Proof. solve_decision. Defined.

Coercion ec_ozo : code >-> error_code.
Coercion ec_asio : asio_error >-> error_code.

(** [explicit operator bool]: the value is not zero. *)
Definition failed (ec : error_code) : bool :=
  match ec with
  | ec_default => false
  | ec_ozo c => negb (bool_decide (c = ok))
  | ec_sqlstate v => negb (v =? 0)
  | ec_asio _ => true
  | ec_pool p => negb (bool_decide (p = pool_ok))
  | ec_io_error => true
  | ec_other v => negb (v =? 0)
  end.

(** [ozo::errc::code] *)
Inductive errc :=
| errc_ok | connection_error | database_readonly | introspection_error
| type_mismatch | protocol_error.

#[export] Instance errc_eq_dec : EqDecision errc.
Proof. solve_decision. Defined.

(** What a code is compared with in [codes_for_condition]: another code, the
    condition an [sqlstate::code] converts to, or [boost::system::errc::io_error]. *)
Inductive matcher :=
| is_code (ec : error_code)
| is_sqlstate (name : string)
| is_io_error.

(** [ec == x] *)
Definition matches (ec : error_code) (m : matcher) : bool :=
  match m with
  | is_code ec' => bool_decide (ec = ec')
  | is_sqlstate name =>
      match ec, SqlState.value_of name with
      | ec_sqlstate v, Some cond => SqlState.equivalent v cond
      | _, _ => false
      end
  | is_io_error => bool_decide (ec = ec_io_error)
  end.

(** [errc::match_code(conditions, ec)]: [((ec == x) || ... || false)] *)
Definition match_code (conditions : list matcher) (ec : error_code) : bool :=
  foldr (fun x acc => matches ec x || acc) false conditions.

(** [errc::impl::codes_for_condition<Code>::value] *)
Definition codes_for_condition (c : errc) : list matcher :=
  match c with
  | errc_ok => []
  | connection_error =>
      [is_sqlstate "connection_exception"]
      ++ (is_code ∘ ec_asio <$>
          [broken_pipe; connection_aborted; connection_refused; connection_reset; fault;
           host_unreachable; interrupted; network_reset; not_connected; operation_aborted;
           shut_down; timed_out; try_again;
           host_not_found; host_not_found_try_again; no_data; no_recovery])
      ++ [is_io_error]
      ++ (is_code ∘ ec_ozo <$>
          [pq_connection_start_failed; pq_socket_failed; pq_connection_status_bad;
           pq_connect_poll_failed; pg_send_query_params_failed; pg_consume_input_failed;
           pg_set_nonblocking_failed; pg_flush_failed])
  | database_readonly => [is_sqlstate "read_only_sql_transaction"]
  | introspection_error =>
      is_code ∘ ec_ozo <$>
        [bad_result_process; bad_object_size; bad_array_size; bad_array_dimension;
         bad_composite_size; unexpected_eof]
  | type_mismatch => [is_code oid_type_mismatch]
  | protocol_error =>
      is_code ∘ ec_ozo <$>
        [no_sql_state_found; result_status_unexpected; result_status_empty_query;
         result_status_bad_response; oid_request_failed]
  end.

(** [errc::impl::category::equivalent] *)
Definition equivalent (ec : error_code) (condition : errc) : bool :=
  match condition with
  | errc_ok => bool_decide (ec = ec_default)
  | c => match_code (codes_for_condition c) ec
  end.

(** [match_code] over a tuple of conditions, as the failover strategies use it. *)
Definition match_conditions (conditions : list errc) (ec : error_code) : bool :=
  foldr (fun c acc => equivalent ec c || acc) false conditions.

(** ** Categories *)
Module Categories.

(** The enumerators of [error::code], [errc::code] and the pool's [error::code] in
    the order of the sources: an enumerator's value is its position. *)
Definition codes : list code :=
  [ok; pq_connection_start_failed; pq_socket_failed; pq_connection_status_bad;
   pq_connect_poll_failed; oid_type_mismatch; unexpected_eof;
   pg_send_query_params_failed; pg_consume_input_failed; pg_set_nonblocking_failed;
   pg_flush_failed; bad_result_process; no_sql_state_found; result_status_unexpected;
   result_status_empty_query; result_status_bad_response; oid_request_failed;
   bad_object_size; bad_array_size; bad_array_dimension; bad_composite_size;
   pq_cancel_failed; pq_get_cancel_failed].
Definition errcs : list errc :=
  [errc_ok; connection_error; database_readonly; introspection_error; type_mismatch; protocol_error].

(** [code(value)] in a switch: the enumerator of a value, if it has one. *)
Definition enumerator {E : Type} (es : list E) (value : Z) : option E :=
  if value <? 0 then None else es !! Z.to_nat value.

(** [static_cast<int>(e)] *)
Definition value_of_code (c : code) : Z :=
  match list_find (fun c' => c' = c) codes with Some (i, _) => Z.of_nat i | None => -1 end.
Definition value_of_errc (c : errc) : Z :=
  match list_find (fun c' => c' = c) errcs with Some (i, _) => Z.of_nat i | None => -1 end.

(** The names of the categories. *)
Definition error_category_name : string := "ozo::error::category".
Definition sqlstate_category_name : string := "ozo::sqlstate::category".
Definition errc_category_name : string := "ozo::errc::category".

(** The switch of [error::impl::category::message] *)
Definition code_message (c : code) : string :=
  match c with
  | ok => "no error"
  | pq_connection_start_failed => "pq_connection_start_failed - PQConnectionStart function failed"
  | pq_socket_failed =>
      "pq_socket_failed - PQSocket returned -1 as fd - it seems like there is no connection"
  | pq_connection_status_bad => "pq_connection_status_bad - PQstatus returned CONNECTION_BAD"
  | pq_connect_poll_failed => "pq_connect_poll_failed - PQconnectPoll function failed"
  | oid_type_mismatch => "no conversion possible from oid to user-supplied type"
  | unexpected_eof => "unexpected EOF while data read"
  | pg_send_query_params_failed => "pg_send_query_params_failed - PQsendQueryParams function failed"
  | pg_consume_input_failed => "pg_consume_input_failed - PQconsumeInput function failed"
  | pg_set_nonblocking_failed => "pg_set_nonblocking_failed - PQsetnonblocking function failed"
  | pg_flush_failed => "pg_flush_failed - PQflush function failed"
  | bad_result_process =>
      "bad_result_process - error while processing or converting result from the database"
  | no_sql_state_found =>
      "no_sql_state_found - no sql state has been found in database query execution error reply"
  | result_status_unexpected => "result_status_unexpected - got unexpected status from query result"
  | result_status_empty_query => "result_status_empty_query - the string sent to the server was empty"
  | result_status_bad_response => "result_status_bad_response - the server's response was not understood"
  | oid_request_failed => "error during request oids from a database"
  | bad_object_size => "an object size received does not equal to the expected"
  | bad_array_size =>
      "an array size received does not equal to the expected or not supported by the type"
  | bad_array_dimension =>
      "an array dimension count received does not equal to the expected or not supported by the type"
  | bad_composite_size =>
      "a composite's fields number received does not equal to the expected or not supported by the type"
  | pq_cancel_failed => "libpq PQcancel function call failed"
  | pq_get_cancel_failed => "libpq PQgetCancel function call failed"
  end.

(** The switch of [errc::impl::category::message] *)
Definition errc_message (c : errc) : string :=
  match c with
  | errc_ok => "no error"
  | connection_error => "communication error"
  | database_readonly => "database in read-only state"
  | introspection_error => "serialization/deserialization related error"
  | type_mismatch => "expected type mismatch received type"
  | protocol_error => "protocol-related error"
  end.

(** [message(value)] of a category, with the text for other values. *)
Definition category_message {E : Type} (es : list E) (text : E -> string) (value : Z) : string :=
  match enumerator es value with
  | Some e => text e
  | None => "no message for value: " +:+ pretty value
  end.
Definition message_of_error (value : Z) : string := category_message codes code_message value.
Definition message_of_errc (value : Z) : string := category_message errcs errc_message value.

(** The message of a value tells the enumerator: distinct enumerators have
    distinct values and messages, and no other value has the message of one. *)
Lemma messages_tell_codes (c1 c2 : code) :
  message_of_error (value_of_code c1) = code_message c1
  /\ (code_message c1 = code_message c2 -> c1 = c2)
  /\ (value_of_code c1 = value_of_code c2 -> c1 = c2).
Proof.
  split; [by destruct c1; vm_compute|].
  assert (Hn : NoDup (code_message <$> codes)) by (apply (bool_decide_unpack _); by vm_compute).
  assert (Hin : forall c, c ∈ codes) by (intros c; apply (bool_decide_unpack _); by destruct c; vm_compute).
  split.
  - intros E. destruct (proj1 (list_elem_of_lookup _ _) (Hin c1)) as [i Hi].
    destruct (proj1 (list_elem_of_lookup _ _) (Hin c2)) as [j Hj].
    assert (i = j) as ->; [|congruence].
    apply (NoDup_lookup (code_message <$> codes) i j (code_message c1)); [done| |].
    + by rewrite list_lookup_fmap, Hi.
    + by rewrite list_lookup_fmap, Hj, E.
  - intros E. assert (Hv : forall c, enumerator codes (value_of_code c) = Some c)
      by (intros c; by destruct c). pose proof (Hv c1) as H1. rewrite E, Hv in H1. congruence.
Qed.

Lemma messages_tell_errcs (c1 c2 : errc) :
  message_of_errc (value_of_errc c1) = errc_message c1
  /\ (errc_message c1 = errc_message c2 -> c1 = c2).
Proof. split; [by destruct c1|]. by destruct c1, c2. Qed.

Lemma unknown_values_have_no_message v : v < 0 \/ 23 <= v ->
  message_of_error v = "no message for value: " +:+ pretty v.
Proof.
  intros Hv. unfold message_of_error, category_message, enumerator. destruct (Z.ltb_spec v 0); [done|].
  rewrite lookup_ge_None_2; [done|]. simpl. lia.
Qed.
End Categories.

(** ** Exceptions *)

(** The exceptions that the modelled code throws; [what()] is not modelled. *)
Inductive exn :=
| system_error (ec : error_code)
| invalid_argument
| range_error
| out_of_range
| length_error
| bad_alloc.

#[export] Instance exn_eq_dec : EqDecision exn.
Proof. solve_decision. Defined.

Abbreviation may_throw := (outcome exn).

(** ** Properties *)

(** An SQLSTATE is a connection error exactly in class 08, and reports a
    read-only database exactly as 25006. *)
Lemma equivalent_sqlstate v c : equivalent (ec_sqlstate v) c =
  match c with
  | connection_error => (373248 <=? v) && (v <? 419904)
  | database_readonly => v =? 3592518
  | _ => false
  end.
Proof.
  assert (forall name cond, SqlState.value_of name = Some cond ->
    matches (ec_sqlstate v) (is_sqlstate name) = SqlState.equivalent v cond) as Hm
    by (intros name cond H; unfold matches; now rewrite H).
  destruct c; try done; unfold equivalent, match_code.
  - unfold codes_for_condition. cbn [foldr app fmap list_fmap].
    rewrite (Hm _ 373248) by (vm_compute; done). cbn [matches].
    rewrite !bool_decide_eq_false_2, !orb_false_r by done.
    unfold SqlState.equivalent.
    destruct (SqlState.switch SqlState.condition_labels 373248) eqn:E; [done|vm_compute in E; done].
  - cbn [codes_for_condition foldr]. rewrite (Hm _ 3592518), orb_false_r by (vm_compute; done).
    unfold SqlState.equivalent.
    destruct (SqlState.switch SqlState.condition_labels 3592518) eqn:E; [vm_compute in E; done|done].
Qed.

Lemma equivalent_other v c : equivalent (ec_other v) c = false.
Proof. by destruct c. Qed.

Lemma equivalent_asio e c : equivalent (ec_asio e) c =
  bool_decide (c = connection_error /\ e <> bad_descriptor).
Proof. destruct e, c; done. Qed.

(** Conditions exclude each other. *)
Lemma equivalent_unique ec c1 c2 : equivalent ec c1 = true -> equivalent ec c2 = true -> c1 = c2.
Proof.
  destruct ec as [|c|v|e|p| |v].
  - destruct c1, c2; done.
  - destruct c, c1, c2; done.
  - rewrite !equivalent_sqlstate. intros H1 H2. destruct c1, c2; try done; zbool; lia.
  - rewrite !equivalent_asio. intros H1%bool_decide_eq_true H2%bool_decide_eq_true. naive_solver.
  - destruct p, c1, c2; done.
  - destruct c1, c2; done.
  - rewrite equivalent_other. done.
Qed.

(** No error code satisfies two different conditions of
    [ozo::errc], and every [ozo::error] code satisfies one, but for [ok] and
    the two cancel failures, which no condition covers. *)
Theorem errc_partition (ec : error_code) (c1 c2 : errc) :
  (equivalent ec c1 = true -> equivalent ec c2 = true -> c1 = c2)
  /\ (forall c : code,
        (exists e, equivalent c e = true) <-> c <> ok /\ c <> pq_cancel_failed /\ c <> pq_get_cancel_failed).
Proof.
  split.
  - apply equivalent_unique.
  - intros c. split.
    + intros [e He]. destruct c, e; done.
    + intros (? & ? & ?).
      destruct c; try done;
        first [by exists connection_error|by exists introspection_error
              |by exists type_mismatch|by exists protocol_error].
Qed.
