(* ===== verification/PgTypes.v ===== *)
(** * PostgreSQL built-in types: [include/ozo/pg/definitions.h]

    The specializations of [pg::type_definition] are rows of a table in source
    order: name, oid, oid of the array type, element type, size. *)

From S2P Require Import Prelude Words.
#[local] Open Scope string_scope.
#[local] Open Scope Z_scope.

Module PgTypes.

(** [size_constant<n>] or [dynamic_size]; the code tells them apart by type, so
    [null_state_size] is the constant [bytes (-1)] and not [dynamic_size]. *)
Inductive size_trait := bytes (n : Z) | dynamic_size.

#[export] Instance size_trait_eq_dec : EqDecision size_trait.
Proof. solve_decision. Defined.

Definition null_oid : Z := 0.
Definition null_state_size : Z := -1.

Record type_definition := Def {
  td_name : string;
  td_oid : Z;
  td_array_oid : option Z;
  td_value_type : option string;
  td_size : size_trait
}.

(** The pseudo-type of [nullptr_t] and [nullopt_t]. *)
Definition null_definition : type_definition :=
  Def "null" null_oid None None (bytes null_state_size).

(** aclitem to daterange. *)
Definition definitions_aclitem_daterange : list type_definition :=
[ Def "aclitem" 1033 (Some 1034) (None) (bytes 12)
; Def "any" 2276 (None) (None) (bytes 4)
; Def "anyarray" 2277 (None) (None) (dynamic_size)
; Def "anyelement" 2283 (None) (None) (bytes 4)
; Def "anyenum" 3500 (None) (None) (bytes 4)
; Def "anynonarray" 2776 (None) (None) (bytes 4)
; Def "anyrange" 3831 (None) (None) (dynamic_size)
; Def "bit" 1560 (Some 1561) (None) (dynamic_size)
; Def "bool" 16 (Some 1000) (None) (bytes 1)
; Def "box" 603 (Some 1020) (Some "point") (bytes 32)
; Def "bpchar" 1042 (Some 1014) (None) (dynamic_size)
; Def "bytea" 17 (Some 1001) (None) (dynamic_size)
; Def "char" 18 (Some 1002) (None) (bytes 1)
; Def "cid" 29 (Some 1012) (None) (bytes 4)
; Def "cidr" 650 (Some 651) (None) (dynamic_size)
; Def "circle" 718 (Some 719) (None) (bytes 24)
; Def "cstring" 2275 (Some 1263) (None) (dynamic_size)
; Def "date" 1082 (Some 1182) (None) (bytes 4)
; Def "daterange" 3912 (Some 3913) (None) (dynamic_size) ].

(** event_trigger to line. *)
Definition definitions_event_trigger_line : list type_definition :=
[ Def "event_trigger" 3838 (None) (None) (bytes 4)
; Def "fdw_handler" 3115 (None) (None) (bytes 4)
; Def "float4" 700 (Some 1021) (None) (bytes 4)
; Def "float8" 701 (Some 1022) (None) (bytes 8)
; Def "gtsvector" 3642 (Some 3644) (None) (dynamic_size)
; Def "index_am_handler" 325 (None) (None) (bytes 4)
; Def "inet" 869 (Some 1041) (None) (dynamic_size)
; Def "int2" 21 (Some 1005) (None) (bytes 2)
; Def "int2vector" 22 (Some 1006) (Some "int2") (dynamic_size)
; Def "int4" 23 (Some 1007) (None) (bytes 4)
; Def "int4range" 3904 (Some 3905) (None) (dynamic_size)
; Def "int8" 20 (Some 1016) (None) (bytes 8)
; Def "int8range" 3926 (Some 3927) (None) (dynamic_size)
; Def "interval" 1186 (Some 1187) (None) (bytes 16)
; Def "json" 114 (Some 199) (None) (dynamic_size)
; Def "jsonb" 3802 (Some 3807) (None) (dynamic_size)
; Def "jsonpath" 4072 (Some 4073) (None) (dynamic_size)
; Def "language_handler" 2280 (None) (None) (bytes 4)
; Def "line" 628 (Some 629) (Some "float8") (bytes 24) ].

(** lseg to pg_proc. *)
Definition definitions_lseg_pg_proc : list type_definition :=
[ Def "lseg" 601 (Some 1018) (Some "point") (bytes 32)
; Def "macaddr" 829 (Some 1040) (None) (bytes 6)
; Def "macaddr8" 774 (Some 775) (None) (bytes 8)
; Def "money" 790 (Some 791) (None) (bytes 8)
; Def "name" 19 (Some 1003) (Some "char") (dynamic_size)
; Def "numeric" 1700 (Some 1231) (None) (dynamic_size)
; Def "numrange" 3906 (Some 3907) (None) (dynamic_size)
; Def "oid" 26 (Some 1028) (None) (bytes 4)
; Def "oidvector" 30 (Some 1013) (Some "oid") (dynamic_size)
; Def "opaque" 2282 (None) (None) (bytes 4)
; Def "path" 602 (Some 1019) (None) (dynamic_size)
; Def "pg_attribute" 75 (None) (None) (dynamic_size)
; Def "pg_class" 83 (None) (None) (dynamic_size)
; Def "pg_dependencies" 3402 (None) (None) (dynamic_size)
; Def "pg_lsn" 3220 (Some 3221) (None) (bytes 8)
; Def "pg_mcv_list" 5017 (None) (None) (dynamic_size)
; Def "pg_ndistinct" 3361 (None) (None) (dynamic_size)
; Def "pg_node_tree" 194 (None) (None) (dynamic_size)
; Def "pg_proc" 81 (None) (None) (dynamic_size) ].

(** pg_type to time. *)
Definition definitions_pg_type_time : list type_definition :=
[ Def "pg_type" 71 (None) (None) (dynamic_size)
; Def "point" 600 (Some 1017) (Some "float8") (bytes 16)
; Def "polygon" 604 (Some 1027) (None) (dynamic_size)
; Def "record" 2249 (None) (None) (dynamic_size)
; Def "refcursor" 1790 (Some 2201) (None) (dynamic_size)
; Def "regclass" 2205 (Some 2210) (None) (bytes 4)
; Def "regconfig" 3734 (Some 3735) (None) (bytes 4)
; Def "regdictionary" 3769 (Some 3770) (None) (bytes 4)
; Def "regnamespace" 4089 (Some 4090) (None) (bytes 4)
; Def "regoper" 2203 (Some 2208) (None) (bytes 4)
; Def "regoperator" 2204 (Some 2209) (None) (bytes 4)
; Def "regproc" 24 (Some 1008) (None) (bytes 4)
; Def "regprocedure" 2202 (Some 2207) (None) (bytes 4)
; Def "regrole" 4096 (Some 4097) (None) (bytes 4)
; Def "regtype" 2206 (Some 2211) (None) (bytes 4)
; Def "table_am_handler" 269 (None) (None) (bytes 4)
; Def "text" 25 (Some 1009) (None) (dynamic_size)
; Def "tid" 27 (Some 1010) (None) (bytes 6)
; Def "time" 1083 (Some 1183) (None) (bytes 8) ].

(** timestamp to xml. *)
Definition definitions_timestamp_xml : list type_definition :=
[ Def "timestamp" 1114 (Some 1115) (None) (bytes 8)
; Def "timestamptz" 1184 (Some 1185) (None) (bytes 8)
; Def "timetz" 1266 (Some 1270) (None) (bytes 12)
; Def "trigger" 2279 (None) (None) (bytes 4)
; Def "tsm_handler" 3310 (None) (None) (bytes 4)
; Def "tsquery" 3615 (Some 3645) (None) (dynamic_size)
; Def "tsrange" 3908 (Some 3909) (None) (dynamic_size)
; Def "tstzrange" 3910 (Some 3911) (None) (dynamic_size)
; Def "tsvector" 3614 (Some 3643) (None) (dynamic_size)
; Def "txid_snapshot" 2970 (Some 2949) (None) (dynamic_size)
; Def "unknown" 705 (None) (None) (dynamic_size)
; Def "uuid" 2950 (Some 2951) (None) (bytes 16)
; Def "varbit" 1562 (Some 1563) (None) (dynamic_size)
; Def "varchar" 1043 (Some 1015) (None) (dynamic_size)
; Def "void" 2278 (None) (None) (bytes 4)
; Def "xid" 28 (Some 1011) (None) (bytes 4)
; Def "xml" 142 (Some 143) (None) (dynamic_size) ].

Definition definitions : list type_definition :=
  null_definition :: definitions_aclitem_daterange ++ definitions_event_trigger_line ++ definitions_lseg_pg_proc ++ definitions_pg_type_time ++ definitions_timestamp_xml.

(** [type_definition<Name>]: no definition is a compile-time failure. *)
Definition type_definition_of (name : string) : option type_definition :=
  List.find (fun d => bool_decide (td_name d = name)) definitions.

(** Name and oid of [array_definition<Name>], where it is defined: the array of
    records is specialized, the others follow from [array_oid]. *)
Definition array_definition_of (name : string) : option (string * Z) :=
  if bool_decide (name = "record") then Some ("_record", 2287)
  else d ← type_definition_of name;
       oid ← td_array_oid d;
       Some (td_name d +:+ "[]", oid).

(** The table is consistent: names are distinct, no two of the
    type and array oids are equal (the null pseudo-type apart no oid is the null
    oid), every element type named is defined, and every fixed size is positive. *)
Theorem definitions_consistent :
  NoDup (td_name <$> definitions)
  /\ NoDup ((td_oid <$> definitions) ++ 2287 :: omap td_array_oid definitions)
  /\ Forall (fun d => forall n, td_value_type d = Some n -> is_Some (type_definition_of n)) definitions
  /\ Forall (fun d => match td_size d with bytes n => 0 < n | dynamic_size => True end) (tail definitions)
  /\ Forall (fun d => 0 < td_oid d < 2 ^ 32) (tail definitions).
Proof.
  split_and!; [apply (bool_decide_unpack _); vm_compute; done..| | |].
  - apply (Forall_check (fun d => match td_value_type d with
      | Some n => bool_decide (is_Some (type_definition_of n)) | None => true end)); [vm_compute; done|].
    intros d H n Hn. rewrite Hn in H. by apply bool_decide_eq_true in H.
  - apply (Forall_check (fun d => match td_size d with bytes n => 0 <? n | dynamic_size => true end));
      [vm_compute; done|].
    intros d H. destruct (td_size d); [by apply Z.ltb_lt|done].
  - apply (Forall_check (fun d => (0 <? td_oid d) && (td_oid d <? 2 ^ 32))); [vm_compute; done|].
    intros d H. zbool. lia.
Qed.

End PgTypes.
