(* ===== verification/TypeSystem.v ===== *)
(** * The type system: [type_traits.h], [core/nullable.h], [core/unwrap.h], the
      bindings of [pg/types/*.h] and [ext/*], and [impl/request_oid_map.h]

    The C++ types a query can send or receive are a universe [cty]; a C++ value
    of type [t] is an element of [den t].  What the library decides by template
    specialization is computed from the [cty]; a static assertion that would
    reject the program is [None] or a hypothesis of the theorems. *)

From Stdlib Require Import Strings.Byte.
From S2P Require Import Prelude Words Errors PgTypes.
Import PgTypes.
#[local] Open Scope string_scope.
#[local] Open Scope list_scope.
#[local] Open Scope Z_scope.

(** ** The universe of C++ types *)

(** Types bound to a PostgreSQL type by [OZO_PG_BIND_TYPE] (and [ltree], a
    custom type): integers, floating point, strings and byte vectors behind a
    strong typedef, [jsonb], [ltree], [boost::uuids::uuid], and the chrono types. *)
Inductive scalar :=
| sc_bool | sc_char | sc_int2 | sc_int4 | sc_int8 | sc_oid | sc_float4 | sc_float8
| sc_text | sc_bytea | sc_json | sc_name | sc_jsonb | sc_ltree | sc_uuid
| sc_timestamp | sc_interval.

#[export] Instance scalar_eq_dec : EqDecision scalar.
Proof. solve_decision. Defined.

(** Models of [Array]: [std::vector], [std::list], [std::array<T, n>]. *)
Inductive container := c_vector | c_list | c_array (n : nat).

#[export] Instance container_eq_dec : EqDecision container.
Proof. solve_decision. Defined.

(** [Nullable] stands for the optionals and smart pointers of [ext]; [Tuple] for
    [std::tuple], [std::pair] and [boost::tuple]; [Struct] for an adapted
    structure registered under a database type name, with its member names. *)
Inductive cty :=
| Scalar (s : scalar)
| Nullable (t : cty)
| Array (c : container) (t : cty)
| Tuple (ts : list cty)
| Struct (name : string) (members : list string) (ts : list cty).

(** Induction with a hypothesis for every component of a composite. *)
Definition cty_ind' (P : cty -> Prop)
    (Hs : forall s, P (Scalar s)) (Hn : forall t, P t -> P (Nullable t))
    (Ha : forall c t, P t -> P (Array c t)) (Ht : forall ts, Forall P ts -> P (Tuple ts))
    (Hc : forall n ms ts, Forall P ts -> P (Struct n ms ts)) : forall t, P t :=
  fix go t :=
    let all := fix all ts : Forall P ts :=
      match ts with
      | [] => @Forall_nil_2 _ P
      | t :: ts => @Forall_cons_2 _ P t ts (go t) (all ts)
      end in
    match t with
    | Scalar s => Hs s
    | Nullable t => Hn t (go t)
    | Array c t => Ha c t (go t)
    | Tuple ts => Ht ts (all ts)
    | Struct n ms ts => Hc n ms ts (all ts)
    end.

Fixpoint cty_eqb (a b : cty) {struct a} : bool :=
  match a, b with
  | Scalar s1, Scalar s2 => bool_decide (s1 = s2)
  | Nullable a, Nullable b => cty_eqb a b
  | Array c1 a, Array c2 b => bool_decide (c1 = c2) && cty_eqb a b
  | Tuple l1, Tuple l2 => list_eqb cty_eqb l1 l2
  | Struct n1 m1 l1, Struct n2 m2 l2 =>
      bool_decide (n1 = n2) && bool_decide (m1 = m2) && list_eqb cty_eqb l1 l2
  | _, _ => false
  end.

Lemma cty_eqb_eq a b : cty_eqb a b = true <-> a = b.
Proof.
  revert b. induction a as [s|t IH|c t IH|ts IH|n ms ts IH] using cty_ind'; intros b;
    destruct b; simpl; try (split; [done|congruence]);
    rewrite ?andb_true_iff, ?bool_decide_eq_true, ?IH, ?list_eqb_spec by done; naive_solver.
Qed.

#[export] Instance cty_eq_dec : EqDecision cty.
Proof.
  intros a b. destruct (cty_eqb a b) eqn:E; [left; by apply cty_eqb_eq|right].
  intros H%cty_eqb_eq. congruence.
Defined.

(** ** Values *)

(** Floating point objects are their bit patterns, timestamps and intervals
    their tick counts, strings their bytes. *)
Definition sden (s : scalar) : Type :=
  match s with
  | sc_bool => bool
  | sc_text | sc_bytea | sc_json | sc_name | sc_jsonb | sc_ltree | sc_uuid => list byte
  | _ => Z
  end.

Fixpoint den (t : cty) : Type :=
  match t with
  | Scalar s => sden s
  | Nullable t => option (den t)
  | Array _ t => list (den t)
  | Tuple ts | Struct _ _ ts => foldr (fun t acc => (den t * acc)%type) unit ts
  end.

(** The members of a composite. *)
Definition dens (ts : list cty) : Type := foldr (fun t acc => (den t * acc)%type) unit ts.

(** A value-initialized object, [T{}]. *)
Definition sdefault (s : scalar) : sden s :=
  match s with
  | sc_bool => false
  | sc_text | sc_bytea | sc_json | sc_name | sc_jsonb | sc_ltree => []
  | sc_uuid => replicate 16 x00
  | _ => 0
  end.

Fixpoint default_den (t : cty) : den t :=
  let defaults := fix defaults ts : dens ts :=
    match ts with
    | [] => tt
    | t :: ts => (default_den t, defaults ts)
    end in
  match t with
  | Scalar s => sdefault s
  | Nullable t => None
  | Array c t => match c with
                 | c_array n => replicate n (default_den t)
                 | _ => []
                 end
  | Tuple ts => defaults ts
  | Struct _ _ ts => defaults ts
  end.

Fixpoint default_dens (ts : list cty) : dens ts :=
  match ts with
  | [] => tt
  | t :: ts => (default_den t, default_dens ts)
  end.

(** ** Type traits *)

(** [unwrap_type<T>]: one level, as [ozo::unwrap] takes off. *)
Definition unwrap_type (t : cty) : cty :=
  match t with
  | Nullable t => t
  | t => t
  end.

(** [is_nullable], [is_array], [is_composite]. *)
Definition is_nullable (t : cty) : bool := match t with Nullable _ => true | _ => false end.
Definition is_array (t : cty) : bool := match t with Array _ _ => true | _ => false end.
Definition is_composite (t : cty) : bool :=
  match t with Tuple _ | Struct _ _ _ => true | _ => false end.

(** The database type a C++ type is bound to. *)
Definition pg_name (s : scalar) : string :=
  match s with
  | sc_bool => "bool" | sc_char => "char" | sc_int2 => "int2" | sc_int4 => "int4"
  | sc_int8 => "int8" | sc_oid => "oid" | sc_float4 => "float4" | sc_float8 => "float8"
  | sc_text => "text" | sc_bytea => "bytea" | sc_json => "json" | sc_name => "name"
  | sc_jsonb => "jsonb" | sc_ltree => "ltree" | sc_uuid => "uuid"
  | sc_timestamp => "timestamp" | sc_interval => "interval"
  end.

(** [type_traits<T>]: name, oid ([None] is [void], a custom type), size. *)
Record type_traits := Traits { name : string; oid : option Z; size : size_trait }.

(** [definitions::type<T>] *)
Definition definitions_type (t : cty) : option type_traits :=
  match t with
  | Scalar sc_ltree => Some (Traits "ltree" None dynamic_size)
  | Scalar s => d ← type_definition_of (pg_name s);
                Some (Traits (td_name d) (Some (td_oid d)) (td_size d))
  | Tuple _ => d ← type_definition_of "record";
               Some (Traits (td_name d) (Some (td_oid d)) (td_size d))
  | Struct n _ _ => Some (Traits n None dynamic_size)
  | Nullable _ | Array _ _ => None
  end.

(** [definitions::array<T>] *)
Definition definitions_array (t : cty) : option type_traits :=
  let built_in n := d ← array_definition_of n; Some (Traits d.1 (Some d.2) dynamic_size) in
  match t with
  | Scalar sc_ltree => Some (Traits "ltree[]" None dynamic_size)
  | Scalar s => built_in (pg_name s)
  | Tuple _ => built_in "record"
  | Struct n _ _ => Some (Traits (n +:+ "[]") None dynamic_size)
  | Nullable _ | Array _ _ => None
  end.

(** [detail::get_type_traits]; [None] is [void], no definition. *)
Definition get_type_traits (t : cty) : option type_traits :=
  match unwrap_type t with
  | Array _ e => definitions_array (unwrap_type e)
  | u => definitions_type u
  end.

Definition HasDefinition (t : cty) : bool :=
  match get_type_traits t with Some _ => true | None => false end.

Definition BuiltIn (t : cty) : bool :=
  match get_type_traits t with Some (Traits _ (Some _) _) => true | _ => false end.

Definition DynamicSize (t : cty) : bool :=
  match get_type_traits t with
  | Some tr => bool_decide (size tr = dynamic_size)
  | None => false
  end.
Definition StaticSize (t : cty) : bool := negb (DynamicSize t).

(** [type_name<T>()] *)
Definition type_name (t : cty) : option string := name <$> get_type_traits t.

(** ** Nullables *)

(** [is_null(v)]: only a nullable can be null. *)
Definition is_null {t : cty} : den t -> bool :=
  match t return den t -> bool with
  | Nullable _ => fun v => match v with None => true | Some _ => false end
  | _ => fun _ => false
  end.

(** [unwrap(v)]; a null is never unwrapped by the callers. *)
Definition unwrap {t : cty} : den t -> option (den (unwrap_type t)) :=
  match t return den t -> option (den (unwrap_type t)) with
  | Nullable t => fun v => v
  | Scalar s => Some | Array c t => Some | Tuple ts => Some | Struct n m ts => Some
  end.

(** [init_nullable(n)]: allocate a value-initialized object if there is none. *)
Definition init_nullable {t : cty} (n : option (den t)) : den t :=
  match n with
  | Some v => v
  | None => default_den t
  end.

(** ** Oid maps *)

(** [oid_map_t]: a [hana::map] from types to oids, in registration order. *)
Abbreviation oid_map := (list (cty * Z)).

(** [register_types<Ts...>()] *)
Definition register_types (ts : list cty) : oid_map := (fun t => (t, null_oid)) <$> ts.

Definition keys (m : oid_map) : list cty := m.*1.

(** [map.impl[key]]; [None]: the key is not in the map, a static assertion. *)
Definition map_at (m : oid_map) (key : cty) : option Z :=
  snd <$> List.find (fun p => bool_decide (p.1 = key)) m.

(** [map.impl[key] = oid] *)
Definition map_set (m : oid_map) (key : cty) (oid : Z) : oid_map :=
  (fun p => if bool_decide (p.1 = key) then (key, oid) else p) <$> m.

(** [set_type_oid<T>(map, oid)] *)
Definition set_type_oid (t : cty) (m : oid_map) (oid : Z) : oid_map := map_set m t oid.

(** [type_oid<T>(map)] for a type that is not built in, and for one that is;
    for a type that is neither built in nor registered the code does not
    compile, and the model yields the null oid. *)
Definition type_oid (m : oid_map) (t : cty) : Z :=
  match get_type_traits t with
  | Some (Traits _ (Some o) _) => o
  | _ => default null_oid (map_at m (unwrap_type t))
  end.

(** [accepts_oid<T>(map, oid)] *)
Definition accepts_oid (m : oid_map) (t : cty) (oid : Z) : bool := type_oid m t =? oid.

(** [empty(map)] *)
Definition oid_map_empty (m : oid_map) : bool := bool_decide (m = []).

(** ** [impl/request_oid_map.h] *)

(** [get_types_names]: the names of the registered types, in map order. *)
Definition get_types_names (m : oid_map) : option (list string) :=
  mapM type_name (keys m).

(** [set_oid_map(oid_map, res)]: the map is assigned key by key until an oid is
    null; the map after the call and the exception, if one was thrown. *)
Fixpoint set_oids (m : oid_map) (ks : list cty) (res : list Z) : oid_map * option exn :=
  match ks, res with
  | k :: ks, i :: res =>
      if i =? null_oid then (m, Some invalid_argument)
      else set_oids (map_set m k i) ks res
  | _, _ => (m, None)
  end.

Definition set_oid_map (m : oid_map) (res : list Z) : oid_map * option exn :=
  if bool_decide (length m = length res) then set_oids m (keys m) res
  else (m, Some length_error).

(** ** Properties of oid maps *)

Lemma keys_cons k o m : keys ((k, o) :: m) = k :: keys m.
Proof. done. Qed.

Lemma keys_map_set m k o : keys (map_set m k o) = keys m.
Proof.
  induction m as [|[k' o'] m IH]; [done|]. unfold keys, map_set in *. rewrite !fmap_cons. f_equal; [|done].
  simpl. by case_bool_decide.
Qed.

Lemma map_set_notin m k o : k ∉ keys m -> map_set m k o = m.
Proof.
  unfold map_set. induction m as [|[k' o'] m IH]; intros H; [done|].
  rewrite keys_cons, not_elem_of_cons in H. destruct H as [H1 H2]. rewrite fmap_cons. simpl.
  rewrite bool_decide_eq_false_2 by done. f_equal. by apply IH.
Qed.

Lemma map_set_app m1 m2 k o : map_set (m1 ++ m2) k o = map_set m1 k o ++ map_set m2 k o.
Proof. apply fmap_app. Qed.

Lemma map_at_app_r m1 m2 k : k ∉ keys m1 -> map_at (m1 ++ m2) k = map_at m2 k.
Proof.
  unfold map_at. induction m1 as [|[k' o'] m1 IH]; intros H; [done|].
  rewrite keys_cons, not_elem_of_cons in H. destruct H as [H1 H2]. simpl.
  rewrite bool_decide_eq_false_2 by done. by apply IH.
Qed.

(** The loop of [set_oid_map] with the keys before the current one assigned. *)
Lemma set_oids_spec pre post res :
  NoDup (keys (pre ++ post)) -> length post = length res ->
  (Forall (fun i => i <> null_oid) res ->
     set_oids (pre ++ post) (keys post) res = (pre ++ zip (keys post) res, None))
  /\ (~ Forall (fun i => i <> null_oid) res ->
     exists m', set_oids (pre ++ post) (keys post) res = (m', Some invalid_argument)
                /\ keys m' = keys (pre ++ post)).
Proof.
  revert pre res. induction post as [|[k o] post IH]; intros pre [|i res] Hnd Hlen; try done.
  - split; [done|]. intros H. destruct H. constructor.
  - rewrite keys_cons. cbn [set_oids]. injection Hlen as Hlen.
    assert (map_set (pre ++ (k, o) :: post) k i = (pre ++ [(k, i)]) ++ post) as Hset.
    { unfold keys in Hnd. rewrite fmap_app, fmap_cons in Hnd.
      apply NoDup_app in Hnd as (Hpre & Hdis & Hpost). apply NoDup_cons in Hpost as [Hk Hpost].
      rewrite map_set_app. rewrite map_set_notin.
      - rewrite <- app_assoc. f_equal. unfold map_set. rewrite fmap_cons. simpl.
        rewrite bool_decide_eq_true_2 by done. f_equal. by apply map_set_notin.
      - intros Hin. apply (Hdis k Hin). left. }
    assert (keys (pre ++ (k, o) :: post) = keys ((pre ++ [(k, i)]) ++ post)) as Hkeys
      by (by rewrite <- Hset, keys_map_set).
    destruct (IH (pre ++ [(k, i)]) res) as [IH1 IH2]; [by rewrite <- Hkeys|done|].
    rewrite Hset. split.
    + intros Hall. apply Forall_cons in Hall as [Hi Hall].
      rewrite (proj2 (Z.eqb_neq i null_oid)) by done. rewrite IH1 by done. by rewrite <- app_assoc.
    + intros Hn. destruct (Z.eqb_spec i null_oid) as [|Hi]; [by eexists|].
      destruct IH2 as (m' & -> & Hk').
      { intros Hall. apply Hn. by constructor. }
      exists m'. by rewrite Hk', Hkeys.
Qed.

(** A reply with one non-null oid per registered type is stored
    type by type in registration order, and afterwards every registered
    non-built-in type has exactly the oid the database returned for it; a reply
    of another length leaves the map as it was and throws, a null oid throws
    too, and the set of registered types never changes. *)
Theorem set_oid_map_assigns (m : oid_map) (res : list Z) (Hnd : NoDup (keys m)) :
  keys (set_oid_map m res).1 = keys m
  /\ (length m <> length res -> set_oid_map m res = (m, Some length_error))
  /\ (length m = length res -> ~ Forall (fun i => i <> null_oid) res ->
        (set_oid_map m res).2 = Some invalid_argument)
  /\ (length m = length res -> Forall (fun i => i <> null_oid) res ->
        set_oid_map m res = (zip (keys m) res, None)
        /\ forall k t o, keys m !! k = Some t -> res !! k = Some o ->
             BuiltIn t = false -> unwrap_type t = t -> type_oid (set_oid_map m res).1 t = o).
Proof.
  unfold set_oid_map. case_bool_decide as Hlen; [|done].
  destruct (set_oids_spec [] m res) as [H1 H2]; [done..|]. simpl in H1, H2.
  split_and!; [|done| |].
  - destruct (decide (Forall (fun i => i <> null_oid) res)) as [Hf|Hf].
    + rewrite H1 by done. unfold keys at 1. simpl. rewrite fst_zip; [done|].
      unfold keys. rewrite length_fmap. lia.
    + destruct H2 as (m' & -> & Hk); done.
  - intros _ Hf. destruct H2 as (m' & -> & Hk); done.
  - intros _ Hf. rewrite H1 by done. split; [done|]. intros k t o Hk Ho Hb Hu. simpl.
    assert (map_at (zip (keys m) res) t = Some o) as Hat.
    { assert ((zip (keys m) res) !! k = Some (t, o)) as Hz by (apply lookup_zip_Some; done).
      apply list_elem_of_split_length in Hz as (l1 & l2 & Hz & _). rewrite Hz.
      assert (NoDup (keys (zip (keys m) res))) as Hnd'.
      { unfold keys at 1. rewrite fst_zip; [done|]. unfold keys. rewrite length_fmap. lia. }
      rewrite Hz in Hnd'. unfold keys in Hnd'. rewrite fmap_app, fmap_cons in Hnd'.
      apply NoDup_app in Hnd' as (_ & Hdis & _). rewrite map_at_app_r.
      - unfold map_at. simpl. by rewrite bool_decide_eq_true_2.
      - intros Hin. apply (Hdis t Hin). left. }
    unfold type_oid. rewrite Hu, Hat. unfold BuiltIn in Hb.
    destruct (get_type_traits t) as [[? [?|] ?]|]; done.
Qed.
