(* ===== verification/Stream.v ===== *)
(** * Streams: [io/ostream.h] and [io/istream.h]

    An [ostream] appends to its buffer; an [istream] is the unread input and the
    sticky flag [unexpected_eof_].  How an object of a type is written and read
    is a [wire] format; [WireLaws] is what the codecs rely on, and the formats
    of the library are its instances. *)

From Stdlib Require Import Strings.Byte.
From S2P Require Import Prelude Words Errors.
#[local] Open Scope Z_scope.

(** ** [ostream] *)

Definition ostream := list byte.

(** [write(const char* s, streamsize n)] *)
Definition write_raw (s : list byte) (out : ostream) : ostream := out ++ s.

(** [put(char ch)] *)
Definition put (ch : byte) (out : ostream) : ostream := out ++ [ch].

(** ** [istream] *)

Record istream := IStream { rest : list byte; unexpected_eof_ : bool }.

(** [read(char* buf, streamsize len)] into a buffer of [len] bytes: as many
    bytes as there are; the tail of the buffer keeps its contents. *)
Definition read_raw (buf : list byte) (i : istream) : list byte * istream :=
  let n := length buf in
  let got := take n (rest i) in
  (got ++ drop (length got) buf,
   IStream (drop n (rest i))
           (unexpected_eof_ i || negb (bool_decide (length got = n)))).

(** [get()]: [None] is [traits_type::eof()]. *)
Definition get (i : istream) : option byte * istream :=
  let '(buf, i) := read_raw [x00] i in
  (if unexpected_eof_ i then None else head buf, i).

(** [traits_type::to_char_type(get())]: [eof()] is -1. *)
Definition get_char (i : istream) : byte * istream :=
  let '(c, i) := get i in (default xff c, i).

(** ** Wire formats *)

Record wire (A : Type) := Wire {
  w_size : nat;
  w_ok : A -> Prop;
  w_put : A -> ostream -> ostream;
  w_get : istream -> A * istream
}.
Arguments Wire {A} _ _ _ _.
Arguments w_size {A} _.
Arguments w_ok {A} _ _.
Arguments w_put {A} _ _ _.
Arguments w_get {A} _ _.

(** The bytes an object is written as. *)
Definition w_bytes {A} (w : wire A) (a : A) : list byte := w_put w a [].

(** Writing appends [w_size] bytes and reading takes them back; short input is
    flagged, sufficient input never is. *)
Class WireLaws {A} (w : wire A) : Prop := {
  w_put_app a out : w_put w a out = out ++ w_bytes w a;
  w_bytes_size a : length (w_bytes w a) = w_size w;
  w_get_put a more : w_ok w a ->
    w_get w (IStream (w_bytes w a ++ more) false) = (a, IStream more false);
  w_get_short bs : (length bs < w_size w)%nat ->
    unexpected_eof_ (w_get w (IStream bs false)).2 = true;
  w_get_enough bs : (w_size w <= length bs)%nat ->
    (w_get w (IStream bs false)).2 = IStream (drop (w_size w) bs) false;
  w_get_eof bs : unexpected_eof_ (w_get w (IStream bs true)).2 = true
}.

(** The free function [read(in, v)]. *)
Definition read {A} (w : wire A) (i : istream) : may_throw (A * istream) :=
  let '(a, i) := w_get w i in
  if unexpected_eof_ i then Throw (system_error unexpected_eof) else Return (a, i).

(** The free function [read(in, out)] of a resized container: raw bytes into
    the [n] bytes of its storage. *)
Definition read_bytes (buf : list byte) (i : istream) : may_throw (list byte * istream) :=
  let '(a, i) := read_raw buf i in
  if unexpected_eof_ i then Throw (system_error unexpected_eof) else Return (a, i).

Section formats.
Context (native : endian).

(** [write(T in)] and [read(T& out)] for integral [T]; [junk] is the
    uninitialized storage of the [typed_buffer]. *)
Definition write_int (ty : int_type) (v : Z) (out : ostream) : ostream :=
  if bool_decide (it_size ty = 1%nat) then put (byte_of_Z v) out
  else write_raw (typed_buffer_raw native ty (it_wrap ty (convert_to_big_endian native ty v))) out.

Definition read_int (junk : list byte) (ty : int_type) (i : istream) : Z * istream :=
  if bool_decide (it_size ty = 1%nat) then
    let '(c, i) := get_char i in (it_wrap ty (byte_to_Z c), i)
  else
    let '(raw, i) := read_raw (take (it_size ty) junk) i in
    (it_wrap ty (convert_from_big_endian native ty (typed_buffer_typed native ty raw)), i).

(** Storage that has not been written yet. *)
Definition uninitialized : list byte := replicate 8 x00.

Definition int_wire (ty : int_type) : wire Z :=
  Wire (it_size ty) (in_range ty) (write_int ty) (read_int uninitialized ty).

(** [write(T in)] and [read(T& out)] for floating point [T] of [size] bytes. *)
Definition write_float (size : nat) (bits : Z) : ostream -> ostream :=
  write_int (floating_point_integral size) (to_integral size bits).

Definition read_float (size : nat) (i : istream) : Z * istream :=
  let '(tmp, i) := read_int uninitialized (floating_point_integral size) i in
  (to_floating_point size tmp, i).

Definition float_wire (size : nat) : wire Z :=
  Wire size (in_range (IntType size false)) (write_float size) (read_float size).

(** [write(bool in)] and [read(bool& out)] *)
Definition write_bool (b : bool) : ostream -> ostream :=
  write_int int8_t (if b then 1 else 0).

Definition read_bool (i : istream) : bool * istream :=
  let '(tmp, i) := read_int uninitialized int8_t i in (negb (tmp =? 0), i).

Definition bool_wire : wire bool := Wire 1 (fun _ => True) write_bool read_bool.

(** [write] and [read] of a Hana sequence or structure: member by member. *)
Definition pair_wire {A B} (wa : wire A) (wb : wire B) : wire (A * B) :=
  Wire (w_size wa + w_size wb) (fun p => w_ok wa p.1 /\ w_ok wb p.2)
    (fun p out => w_put wb p.2 (w_put wa p.1 out))
    (fun i => let '(a, i) := w_get wa i in let '(b, i) := w_get wb i in ((a, b), i)).

(** ** Lemmas on raw reads *)

Lemma read_raw_app buf bs more eof : length buf = length bs ->
  read_raw buf (IStream (bs ++ more) eof) = (bs, IStream more eof).
Proof.
  intros H. unfold read_raw. cbn [rest unexpected_eof_]. rewrite H, take_app_length, drop_app_length.
  rewrite bool_decide_eq_true_2 by done. rewrite <- H, drop_all, app_nil_r. by rewrite orb_false_r.
Qed.

Lemma read_raw_short buf bs : (length bs < length buf)%nat ->
  unexpected_eof_ (read_raw buf (IStream bs false)).2 = true.
Proof.
  intros H. unfold read_raw. simpl. rewrite bool_decide_eq_false_2; [done|].
  rewrite length_take. lia.
Qed.

Lemma read_bytes_app buf bs more : length buf = length bs ->
  read_bytes buf (IStream (bs ++ more) false) = Return (bs, IStream more false).
Proof. intros H. unfold read_bytes. by rewrite read_raw_app. Qed.

(** ** Integers *)

(** The widths the library uses. *)
Definition int_ok (ty : int_type) : Prop := (1 <= it_size ty <= 8)%nat.
Existing Class int_ok.

Lemma typed_buffer_be ty v : it_size ty <> 0%nat ->
  typed_buffer_raw native ty (it_wrap ty (convert_to_big_endian native ty v))
  = be_bytes (it_size ty) v.
Proof.
  intros H. assert (forall z, le_bytes (it_size ty) (it_wrap ty z) = le_bytes (it_size ty) z) as Hw.
  { intros z. rewrite <- le_bytes_mod, <- (le_bytes_mod _ z). f_equal. apply it_wrap_mod. }
  unfold typed_buffer_raw, convert_to_big_endian. destruct native.
  - rewrite Hw, le_bytes_swap. unfold be_bytes. f_equal.
    rewrite <- le_bytes_mod, <- (le_bytes_mod _ v). f_equal. apply (it_wrap_mod (make_unsigned ty)).
  - unfold be_bytes. by rewrite Hw.
Qed.

Lemma write_int_be ty v out : it_size ty <> 0%nat ->
  write_int ty v out = out ++ be_bytes (it_size ty) v.
Proof.
  intros H. unfold write_int. case_bool_decide as H1.
  - by rewrite H1.
  - unfold write_raw. by rewrite typed_buffer_be.
Qed.

Lemma typed_buffer_from_be ty raw : length raw = it_size ty ->
  it_wrap ty (convert_from_big_endian native ty (typed_buffer_typed native ty raw))
  = it_wrap ty (be_decode raw).
Proof.
  intros H. unfold typed_buffer_typed, convert_from_big_endian. destruct native.
  - f_equal. rewrite byte_order_swap_decode. f_equal.
    rewrite <- (le_bytes_decode raw (it_size ty)) at 2 by done.
    rewrite <- le_bytes_mod, <- (le_bytes_mod _ (le_decode raw)). f_equal.
    etrans; [apply (it_wrap_mod (make_unsigned ty))|apply (it_wrap_mod ty)].
  - apply it_wrap_congr. apply it_wrap_mod.
Qed.

Lemma read_int_be ty raw more : int_ok ty -> length raw = it_size ty ->
  read_int uninitialized ty (IStream (raw ++ more) false)
  = (it_wrap ty (be_decode raw), IStream more false).
Proof.
  intros Hok H. unfold read_int. case_bool_decide as H1.
  - rewrite H1 in H. destruct raw as [|b [|]]; try done.
    unfold get_char, get. rewrite (read_raw_app [x00] [b]) by done. simpl.
    f_equal. f_equal. unfold be_decode. simpl. lia.
  - rewrite read_raw_app.
    + by rewrite typed_buffer_from_be.
    + rewrite length_take. unfold uninitialized. rewrite length_replicate. unfold int_ok in Hok. lia.
Qed.

Lemma read_int_snd ty bs eof : int_ok ty ->
  (read_int uninitialized ty (IStream bs eof)).2
  = (read_raw (take (it_size ty) uninitialized) (IStream bs eof)).2.
Proof.
  intros Hok. unfold read_int. case_bool_decide as H1.
  - rewrite H1. unfold get_char, get. change (take 1 uninitialized) with [x00].
    by destruct (read_raw _ _).
  - by destruct (read_raw _ _).
Qed.

Lemma it_wrap_be_decode ty v : int_ok ty -> in_range ty v ->
  it_wrap ty (be_decode (be_bytes (it_size ty) v)) = v.
Proof.
  intros Hok Hv. rewrite be_decode_bytes. etrans; [|apply (it_wrap_id ty); [unfold int_ok in Hok; lia|done]].
  apply it_wrap_congr. unfold it_bits. apply Z.mod_mod. pose proof (pow256_pos (it_size ty)). lia.
Qed.

Lemma length_uninitialized n : (n <= 8)%nat -> length (take n uninitialized) = n.
Proof. intros H. rewrite length_take. unfold uninitialized. rewrite length_replicate. lia. Qed.

(** The stream after reading an integer, whatever its type. *)
Lemma int_tail_laws ty : int_ok ty ->
  (forall bs, (length bs < it_size ty)%nat ->
     unexpected_eof_ (read_int uninitialized ty (IStream bs false)).2 = true)
  /\ (forall bs, (it_size ty <= length bs)%nat ->
     (read_int uninitialized ty (IStream bs false)).2 = IStream (drop (it_size ty) bs) false)
  /\ (forall bs, unexpected_eof_ (read_int uninitialized ty (IStream bs true)).2 = true).
Proof.
  intros Hok. unfold int_ok in Hok. split_and!; intros bs.
  - intros H. rewrite read_int_snd by done. apply read_raw_short. rewrite length_uninitialized; lia.
  - intros H. rewrite <- (take_drop (it_size ty) bs) at 1. rewrite read_int_be; [done|done|].
    rewrite length_take. lia.
  - by rewrite read_int_snd.
Qed.

#[export] Instance int_wire_laws ty : int_ok ty -> WireLaws (int_wire ty).
Proof.
  intros Hok. pose proof Hok as Hok'. unfold int_ok in Hok'.
  destruct (int_tail_laws ty Hok) as (H1 & H2 & H3).
  split; unfold w_bytes; simpl; try done.
  - intros a out. rewrite !write_int_be by lia. done.
  - intros a. rewrite write_int_be by lia. apply length_be_bytes.
  - intros a more Ha. rewrite write_int_be by lia. simpl.
    rewrite read_int_be by (done || apply length_be_bytes). by rewrite it_wrap_be_decode.
Qed.

Lemma w_bytes_int ty v : int_ok ty -> w_bytes (int_wire ty) v = be_bytes (it_size ty) v.
Proof. intros H. unfold w_bytes. simpl. rewrite write_int_be; [done|unfold int_ok in H; lia]. Qed.

(** ** Floating point and booleans: integers of the same width *)

Lemma float_roundtrip size bits : (size <> 0)%nat -> in_range (IntType size false) bits ->
  to_floating_point size (to_integral size bits) = bits.
Proof.
  intros Hs H. unfold to_floating_point, to_integral.
  etrans; [apply (it_wrap_congr _ _ bits)|by apply it_wrap_id].
  apply (it_wrap_mod (floating_point_integral size)).
Qed.

#[export] Instance float_wire_laws size : int_ok (floating_point_integral size) ->
  WireLaws (float_wire size).
Proof.
  intros Hok. pose proof Hok as Hok'. unfold int_ok in Hok'. simpl in Hok'.
  destruct (int_tail_laws _ Hok) as (H1 & H2 & H3). simpl in *.
  assert (forall i, (read_float size i).2
    = (read_int uninitialized (floating_point_integral size) i).2) as Hsnd.
  { intros i. unfold read_float. by destruct (read_int _ _ _). }
  split; unfold w_bytes; simpl.
  - intros a out. unfold write_float. rewrite !write_int_be by (simpl; lia). done.
  - intros a. unfold write_float. rewrite write_int_be by (simpl; lia). apply length_be_bytes.
  - intros a more Ha. unfold write_float. rewrite write_int_be by (simpl; lia). simpl. unfold read_float.
    rewrite read_int_be by (done || apply length_be_bytes).
    rewrite (it_wrap_be_decode (floating_point_integral size)) by
      (done || apply it_wrap_range; simpl; lia).
    by rewrite float_roundtrip by (done || lia).
  - intros bs Hbs. rewrite Hsnd. auto.
  - intros bs Hbs. rewrite Hsnd. auto.
  - intros bs. rewrite Hsnd. auto.
Qed.

#[export] Instance bool_wire_laws : WireLaws bool_wire.
Proof.
  assert (int_ok int8_t) as Hok by (unfold int_ok; simpl; lia).
  destruct (int_tail_laws _ Hok) as (H1 & H2 & H3).
  assert (forall i, (read_bool i).2 = (read_int uninitialized int8_t i).2) as Hsnd.
  { intros i. unfold read_bool. by destruct (read_int _ _ _). }
  split; unfold w_bytes; try done; cbn [w_size w_get w_put bool_wire].
  - intros a more _. unfold write_bool. rewrite write_int_be by done. unfold read_bool. rewrite app_nil_l.
    rewrite read_int_be by done. by destruct a.
Qed.

(** ** Sequences *)

#[export] Instance pair_wire_laws {A B} (wa : wire A) (wb : wire B) :
  WireLaws wa -> WireLaws wb -> WireLaws (pair_wire wa wb).
Proof.
  intros La Lb. split; unfold w_bytes; simpl.
  - intros [a b] out. simpl. rewrite !(w_put_app b), !(w_put_app a). by rewrite app_assoc.
  - intros [a b]. simpl. rewrite !(w_put_app b), !(w_put_app a). simpl.
    rewrite length_app, (w_bytes_size a), (w_bytes_size b). done.
  - intros [a b] more [Ha Hb]. simpl. rewrite (w_put_app b), (w_put_app a). simpl.
    rewrite <- app_assoc. rewrite (w_get_put a) by done. by rewrite (w_get_put b).
  - intros bs Hbs. destruct (decide (length bs < w_size wa)%nat) as [Hlt|Hge].
    + pose proof (w_get_short bs Hlt) as He. destruct (w_get wa _) as [a [r e]]. simpl in He. subst.
      pose proof (w_get_eof r (w := wb)) as He. by destruct (w_get wb _).
    + pose proof (w_get_enough bs (w := wa) ltac:(lia)) as He.
      destruct (w_get wa _) as [a i]. simpl in He. subst.
      assert (length (drop (w_size wa) bs) < w_size wb)%nat as Hd by (rewrite length_drop; lia).
      pose proof (w_get_short _ Hd) as He. by destruct (w_get wb _).
  - intros bs Hbs. pose proof (w_get_enough bs (w := wa) ltac:(lia)) as He.
    destruct (w_get wa _) as [a i]. simpl in He. subst.
    assert (w_size wb <= length (drop (w_size wa) bs))%nat as Hd by (rewrite length_drop; lia).
    pose proof (w_get_enough _ Hd) as He. destruct (w_get wb _). simpl in *. subst.
    by rewrite drop_drop.
  - intros bs. pose proof (w_get_eof bs (w := wa)) as He. destruct (w_get wa _) as [a [r e]].
    simpl in He. subst. pose proof (w_get_eof r (w := wb)) as He. by destruct (w_get wb _).
Qed.

End formats.

(** ** Reads of any lawful format *)

Section read.
Context {A} (w : wire A) `{!WireLaws w}.

Lemma read_put a more : w_ok w a ->
  read w (IStream (w_bytes w a ++ more) false) = Return (a, IStream more false).
Proof. intros H. unfold read. by rewrite w_get_put. Qed.

Lemma read_short bs : (length bs < w_size w)%nat ->
  read w (IStream bs false) = Throw (system_error unexpected_eof).
Proof.
  intros H. unfold read. pose proof (w_get_short bs H) as He.
  destruct (w_get w _) as [a i]. simpl in He. by rewrite He.
Qed.

End read.

#[export] Hint Extern 1 (int_ok _) => first [assumption | unfold int_ok; simpl; lia] : typeclass_instances ozo.

Module Stream.

(** On a platform of either byte order, an integer of 1 to 8 bytes
    is appended to the output in network byte order; reading that output back
    returns the integer and leaves the bytes that follow; and input shorter than
    the integer throws [unexpected_eof]. *)
Theorem integer_wire_format (native : endian) (ty : int_type) (v : Z) (out more short : list byte)
    (Hty : int_ok ty) (Hv : in_range ty v) (Hshort : (length short < it_size ty)%nat) :
  w_put (int_wire native ty) v out = out ++ be_bytes (it_size ty) v
  /\ read (int_wire native ty) (IStream (be_bytes (it_size ty) v ++ more) false)
     = Return (v, IStream more false)
  /\ read (int_wire native ty) (IStream short false) = Throw (system_error unexpected_eof).
Proof.
  split_and!.
  - rewrite w_put_app. by rewrite w_bytes_int.
  - rewrite <- (w_bytes_int native) by done. by apply read_put; [apply _|].
  - apply read_short; [apply _|done].
Qed.

End Stream.
