(* ===== verification/Codec.v ===== *)
(** * The binary codec: [io/size_of.h], [io/send.h], [io/recv.h], [io/array.h],
      [io/composite.h] and the customizations in [pg/types] and [ext]

    Sizes, serialization and deserialization of every type of the universe
    [cty], by recursion on the type as the templates instantiate.  The size
    arithmetic is kept in the [int32_t] of [size_type].  [recv] takes the object
    it overwrites; what a partially received object holds after an exception is
    not modelled. *)

From Stdlib Require Import Strings.Byte.
From S2P Require Import Prelude Words Time Errors PgTypes TypeSystem Stream.
Import PgTypes.
#[local] Open Scope Z_scope.

(** ** [size_of.h] *)

(** Conversion to [size_type]. *)
Definition to_size_type (z : Z) : Z := it_wrap int32_t z.

(** [typename type_traits<T>::size{}] *)
Definition trait_size (t : cty) : Z :=
  match get_type_traits t with
  | Some tr => match size tr with bytes n => n | dynamic_size => null_state_size end
  | None => null_state_size
  end.

(** [size_of_impl<T>::apply]: the default, [jsonb] and [ltree]. *)
Definition size_of_scalar (s : scalar) : sden s -> Z :=
  match s return sden s -> Z with
  | sc_text | sc_bytea | sc_json | sc_name => fun v => Z.of_nat (length v)
  | sc_jsonb | sc_ltree => fun v => Z.of_nat (length v) + 1
  | s => fun _ => trait_size (Scalar s)
  end.

(** [data_frame_size] and [frame_size], from the size of the object. *)
Definition data_frame_size (size : Z) : Z := to_size_type (4 + Z.max size 0).
Definition frame_size (size : Z) : Z := to_size_type (4 + data_frame_size size).

(** [size_of_array_impl::data_size], from the sizes of the items. *)
Definition array_data_size (static : bool) (sizes : list Z) : Z :=
  if static then
    match sizes with
    | [] => 0
    | first :: _ => to_size_type (data_frame_size first * Z.of_nat (length sizes))
    end
  else foldl (fun r s => to_size_type (r + data_frame_size s)) 0 sizes.

(** [detail::data_size] of a Fusion sequence, a left fold, and of a Hana
    structure, a right fold. *)
Definition fusion_data_size (sizes : list Z) : Z :=
  foldl (fun r s => to_size_type (r + frame_size s)) 0 sizes.
Definition hana_data_size (sizes : list Z) : Z :=
  foldr (fun s r => to_size_type (frame_size s + r)) 0 sizes.

Definition array_header_size : Z := 4 + 4 + 4.
Definition dimension_header_size : Z := 4 + 4.
Definition composite_header_size : Z := 4.

(** [size_of(v)] *)
Fixpoint size_of (t : cty) : den t -> Z :=
  let members := fix members ts : dens ts -> list Z :=
    match ts return dens ts -> list Z with
    | [] => fun _ => []
    | t :: ts => fun v => size_of t v.1 :: members ts v.2
    end in
  match t return den t -> Z with
  | Scalar s => fun v => to_size_type (size_of_scalar s v)
  | Nullable t => fun v => match v with None => null_state_size | Some v => size_of t v end
  | Array _ e => fun v =>
      to_size_type (array_header_size + dimension_header_size
                    + array_data_size (StaticSize e) (size_of e <$> v))
  | Tuple ts => fun v => to_size_type (composite_header_size + fusion_data_size (members ts v))
  | Struct _ _ ts => fun v => to_size_type (composite_header_size + hana_data_size (members ts v))
  end.

Fixpoint member_sizes (ts : list cty) : dens ts -> list Z :=
  match ts return dens ts -> list Z with
  | [] => fun _ => []
  | t :: ts => fun v => size_of t v.1 :: member_sizes ts v.2
  end.

Section codec.
Context (native : endian) (tick : Z) (oids : oid_map).

Abbreviation int_w := (int_wire native).

(** ** Wire formats of the headers *)

(** [detail::pg_array], [pg_array_dimension], [pg_composite], [pg_interval] *)
Definition pg_array_wire : wire (Z * (Z * Z)) :=
  pair_wire (int_w int32_t) (pair_wire (int_w int32_t) (int_w uint32_t)).
Definition pg_array_dimension_wire : wire (Z * Z) :=
  pair_wire (int_w int32_t) (int_w int32_t).
Definition pg_composite_wire : wire Z := int_w int32_t.
Definition pg_interval_wire : wire (Z * (Z * Z)) :=
  pair_wire (int_w int64_t) (pair_wire (int_w int32_t) (int_w int32_t)).

(** ** [send.h] *)

(** [send_impl] of [jsonb] and [ltree], of a time point and of a duration. *)
Definition send_versioned (v : list byte) (out : ostream) : ostream :=
  write_raw v (w_put (int_w int8_t) 1 out).
Definition send_time_point (v : Z) (out : ostream) : ostream :=
  w_put (int_w int64_t) (Chrono.time_point_to_pg tick v) out.
Definition send_duration (v : Z) (out : ostream) : ostream :=
  let i := Chrono.from_chrono_duration v in
  w_put pg_interval_wire (Chrono.microseconds i, (Chrono.days i, Chrono.months i)) out.

(** [send_impl<T>::apply] of the scalar types. *)
Definition send_scalar (s : scalar) : sden s -> ostream -> ostream :=
  match s return sden s -> ostream -> ostream with
  | sc_bool => w_put (bool_wire native)
  | sc_char => w_put (int_w int8_t)
  | sc_int2 => w_put (int_w int16_t)
  | sc_int4 => w_put (int_w int32_t)
  | sc_int8 => w_put (int_w int64_t)
  | sc_oid => w_put (int_w uint32_t)
  | sc_float4 => w_put (float_wire native 4)
  | sc_float8 => w_put (float_wire native 8)
  | sc_text | sc_bytea | sc_json | sc_name | sc_uuid => write_raw
  | sc_jsonb | sc_ltree => send_versioned
  | sc_timestamp => send_time_point
  | sc_interval => send_duration
  end.

(** [send_data_frame] and [send_frame], from the serializer of the type. *)
Definition data_frame {t} (snd : den t -> ostream -> ostream) (v : den t) (out : ostream) : ostream :=
  snd v (w_put (int_w int32_t) (size_of t v) out).

Definition frame {t} (snd : den t -> ostream -> ostream) (v : den t) (out : ostream) : ostream :=
  data_frame snd v (w_put (int_w uint32_t) (type_oid oids t) out).

(** [send(out, oid_map, in)]: nothing for a null. *)
Fixpoint send (t : cty) : den t -> ostream -> ostream :=
  let members := fix members ts : dens ts -> ostream -> ostream :=
    match ts return dens ts -> ostream -> ostream with
    | [] => fun _ out => out
    | t :: ts => fun v out => members ts v.2 (frame (send t) v.1 out)
    end in
  match t return den t -> ostream -> ostream with
  | Scalar s => send_scalar s
  | Nullable t => fun v out => match v with None => out | Some v => send t v out end
  | Array _ e => fun v out =>
      let out := w_put pg_array_wire (1, (0, type_oid oids e)) out in
      let out := w_put pg_array_dimension_wire (it_wrap int32_t (Z.of_nat (length v)), 0) out in
      foldl (fun out item => data_frame (send e) item out) out v
  | Tuple ts => fun v out => members ts v (w_put pg_composite_wire (Z.of_nat (length ts)) out)
  | Struct _ _ ts => fun v out => members ts v (w_put pg_composite_wire (Z.of_nat (length ts)) out)
  end.

Fixpoint send_members (ts : list cty) : dens ts -> ostream -> ostream :=
  match ts return dens ts -> ostream -> ostream with
  | [] => fun _ out => out
  | t :: ts => fun v out => send_members ts v.2 (frame (send t) v.1 out)
  end.

Definition send_data_frame (t : cty) : den t -> ostream -> ostream := data_frame (send t).
Definition send_frame (t : cty) : den t -> ostream -> ostream := frame (send t).

(** ** [recv.h] *)

(** [recv_impl<T>::apply]: fixed-size types, types of dynamic size, and the
    versioned strings [jsonb] and [ltree]. *)
Definition recv_static {A} (w : wire A) (expected : Z) (i : istream) (size : Z)
    : may_throw (A * istream) :=
  if size =? expected then read w i else Throw (system_error bad_object_size).

Definition recv_dynamic (out : list byte) (i : istream) (size : Z) : may_throw (list byte * istream) :=
  if size <? 0 then Throw length_error else read_bytes (resize (Z.to_nat size) x00 out) i.

Definition recv_versioned (out : list byte) (i : istream) (size : Z) : may_throw (list byte * istream) :=
  if size <? 1 then Throw range_error else
  '(_, i) ← read (int_w int8_t) i;
  read_bytes (resize (Z.to_nat (size - 1)) x00 out) i.

(** [recv_impl] of a time point and of a duration. *)
Definition recv_time_point (i : istream) : may_throw (Z * istream) :=
  '(value, i) ← read (int_w int64_t) i; Return (Chrono.time_point_of_pg tick value, i).
Definition recv_duration (i : istream) : may_throw (Z * istream) :=
  '(v, i) ← read pg_interval_wire i;
  Return (Chrono.to_chrono_duration (Chrono.PgInterval v.1 v.2.1 v.2.2), i).

Definition recv_scalar (s : scalar) : istream -> Z -> sden s -> may_throw (sden s * istream) :=
  match s return istream -> Z -> sden s -> may_throw (sden s * istream) with
  | sc_bool => fun i size out => recv_static (bool_wire native) (size_of (Scalar sc_bool) out) i size
  | sc_char => fun i size out => recv_static (int_w int8_t) (size_of (Scalar sc_char) out) i size
  | sc_int2 => fun i size out => recv_static (int_w int16_t) (size_of (Scalar sc_int2) out) i size
  | sc_int4 => fun i size out => recv_static (int_w int32_t) (size_of (Scalar sc_int4) out) i size
  | sc_int8 => fun i size out => recv_static (int_w int64_t) (size_of (Scalar sc_int8) out) i size
  | sc_oid => fun i size out => recv_static (int_w uint32_t) (size_of (Scalar sc_oid) out) i size
  | sc_float4 => fun i size out => recv_static (float_wire native 4) (size_of (Scalar sc_float4) out) i size
  | sc_float8 => fun i size out => recv_static (float_wire native 8) (size_of (Scalar sc_float8) out) i size
  | sc_text | sc_bytea | sc_json | sc_name => fun i size out => recv_dynamic out i size
  | sc_jsonb | sc_ltree => fun i size out => recv_versioned out i size
  | sc_uuid => fun i _ out => read_bytes out i
  | sc_timestamp => fun i _ _ => recv_time_point i
  | sc_interval => fun i _ _ => recv_duration i
  end.

(** [reset_nullable(out)] *)
Definition reset_nullable {t : cty} : den t -> den t :=
  match t return den t -> den t with
  | Nullable _ => fun _ => None
  | Scalar _ => fun v => v | Array _ _ => fun v => v
  | Tuple _ => fun v => v | Struct _ _ _ => fun v => v
  end.

(** [detail::recv(in, oid, size, oids, out)], from the [recv_impl] of the
    unwrapped type; [oid] is [None] for [null_oid_t], when it is not checked. *)
Definition recv_with {t} (impl : istream -> Z -> den t -> may_throw (den t * istream))
    (i : istream) (oid : option Z) (size : Z) (out : den t) : may_throw (den t * istream) :=
  if is_nullable t && (size =? null_state_size) then Return (reset_nullable out, i)
  else if negb (match oid with Some oid => accepts_oid oids t oid | None => true end)
  then Throw (system_error oid_type_mismatch)
  else if negb (is_nullable t) && (size =? null_state_size) then Throw invalid_argument
  else impl i size out.

(** [detail::recv_data_frame(in, oid, oids, out)] and [recv_frame]. *)
Definition recv_data_frame_with {t} (impl : istream -> Z -> den t -> may_throw (den t * istream))
    (oid : option Z) (i : istream) (out : den t) : may_throw (den t * istream) :=
  '(size, i) ← read (int_w int32_t) i; recv_with impl i oid size out.

Definition recv_frame_with {t} (impl : istream -> Z -> den t -> may_throw (den t * istream))
    (i : istream) (out : den t) : may_throw (den t * istream) :=
  '(oid, i) ← read (int_w uint32_t) i; recv_data_frame_with impl (Some oid) i out.

(** [for (auto& item : out) f(in, item)] *)
Fixpoint recv_items {A} (f : istream -> A -> may_throw (A * istream)) (i : istream) (out : list A)
    : may_throw (list A * istream) :=
  match out with
  | [] => Return ([], i)
  | item :: out =>
      '(item, i) ← f i item;
      '(out, i) ← recv_items f i out;
      Return (item :: out, i)
  end.

(** [fit_array_size(array, count)]: [resize] of a vector or list, whose argument
    is a [size_t]; a check for [std::array]. *)
Definition fit_array_size {A} (dflt : A) (c : container) (array : list A) (count : Z)
    : may_throw (list A) :=
  match c with
  | c_vector => if count <? 0 then Throw length_error else Return (resize (Z.to_nat count) dflt array)
  | c_list => if count <? 0 then Throw bad_alloc else Return (resize (Z.to_nat count) dflt array)
  | c_array n =>
      if count =? to_size_type (Z.of_nat n) then Return array
      else Throw (system_error bad_array_size)
  end.

(** [read_and_verify_header] *)
Definition read_and_verify_header (fields_number : nat) (i : istream) : may_throw istream :=
  '(count, i) ← read pg_composite_wire i;
  if count =? Z.of_nat fields_number then Return i else Throw (system_error bad_composite_size).

(** [get_recv_impl<T>::apply(in, size, oids, unwrap(out))]; a nullable has been
    initialized by [init_nullable]. *)
Fixpoint recv_impl (t : cty) : istream -> Z -> den t -> may_throw (den t * istream) :=
  let members := fix members ts : istream -> dens ts -> may_throw (dens ts * istream) :=
    match ts return istream -> dens ts -> may_throw (dens ts * istream) with
    | [] => fun i _ => Return (tt, i)
    | t :: ts => fun i out =>
        '(v, i) ← recv_frame_with (recv_impl t) i out.1;
        '(vs, i) ← members ts i out.2;
        Return ((v, vs), i)
    end in
  match t return istream -> Z -> den t -> may_throw (den t * istream) with
  | Scalar s => recv_scalar s
  | Nullable t => fun i size out =>
      '(v, i) ← recv_impl t i size (init_nullable out); Return (Some v, i)
  | Array c e => fun i _ out =>
      '(header, i) ← read pg_array_wire i;
      if 1 <? header.1 then Throw (system_error bad_array_dimension)
      else if negb (accepts_oid oids (unwrap_type e) header.2.2)
      then Throw (system_error oid_type_mismatch)
      else if header.1 <? 1 then Return (out, i) else
      '(dim, i) ← read pg_array_dimension_wire i;
      if dim.1 =? 0 then Return (out, i) else
      out ← fit_array_size (default_den e) c out dim.1;
      recv_items (recv_data_frame_with (recv_impl e) None) i out
  | Tuple ts => fun i _ out => i ← read_and_verify_header (length ts) i; members ts i out
  | Struct _ _ ts => fun i _ out => i ← read_and_verify_header (length ts) i; members ts i out
  end.

Fixpoint recv_members (ts : list cty) : istream -> dens ts -> may_throw (dens ts * istream) :=
  match ts return istream -> dens ts -> may_throw (dens ts * istream) with
  | [] => fun i _ => Return (tt, i)
  | t :: ts => fun i out =>
      '(v, i) ← recv_frame_with (recv_impl t) i out.1;
      '(vs, i) ← recv_members ts i out.2;
      Return ((v, vs), i)
  end.

(** [recv(in, oid, size, oids, out)] *)
Definition recv (t : cty) (i : istream) (oid size : Z) (out : den t) : may_throw (den t * istream) :=
  recv_with (recv_impl t) i (Some oid) size out.

Definition recv_data_frame (t : cty) : istream -> den t -> may_throw (den t * istream) :=
  recv_data_frame_with (recv_impl t) None.
Definition recv_frame (t : cty) : istream -> den t -> may_throw (den t * istream) :=
  recv_frame_with (recv_impl t).

(** ** Serialization only appends *)

Definition bytes_of (t : cty) (v : den t) : list byte := send t v [].
Definition data_frame_bytes (t : cty) (v : den t) : list byte :=
  w_bytes (int_w int32_t) (size_of t v) ++ bytes_of t v.
Definition frame_bytes (t : cty) (v : den t) : list byte :=
  w_bytes (int_w uint32_t) (type_oid oids t) ++ data_frame_bytes t v.

#[local] Instance pg_array_laws : WireLaws pg_array_wire.
Proof. apply _. Qed.
#[local] Instance pg_array_dimension_laws : WireLaws pg_array_dimension_wire.
Proof. apply _. Qed.
#[local] Instance pg_composite_laws : WireLaws pg_composite_wire.
Proof. apply _. Qed.
#[local] Instance pg_interval_laws : WireLaws pg_interval_wire.
Proof. apply _. Qed.

(** Everything the library writes, it appends. *)
Definition appends {A} (snd : A -> ostream -> ostream) : Prop :=
  forall v out, snd v out = out ++ snd v [].

Lemma put_appends {A} (w : wire A) `{!WireLaws w} : appends (w_put w).
Proof. intros v out. apply w_put_app. Qed.

Lemma versioned_appends : appends (fun v out => write_raw v (w_put (int_w int8_t) 1 out)).
Proof.
  intros v out. unfold write_raw. rewrite (w_put_app _ out), <- app_assoc. by rewrite (w_put_app _ []).
Qed.

Lemma write_raw_appends : appends write_raw.
Proof. intros v out. unfold write_raw. by rewrite app_nil_l. Qed.

Lemma send_scalar_appends s : appends (send_scalar s).
Proof.
  destruct s; cbn [send_scalar];
    first [ exact (put_appends _) | exact write_raw_appends | exact versioned_appends
          | intros v out; apply put_appends; apply _ ].
Qed.

Lemma data_frame_appends {t} (snd : den t -> ostream -> ostream) : appends snd -> appends (data_frame snd).
Proof.
  intros H v out. unfold data_frame. rewrite (H v (w_put _ _ out)), (H v (w_put _ _ [])), !(w_put_app _ out).
  by rewrite app_assoc.
Qed.

Lemma frame_appends {t} (snd : den t -> ostream -> ostream) : appends snd -> appends (frame snd).
Proof.
  intros H v out. unfold frame. pose proof (data_frame_appends snd H) as Hd.
  rewrite (Hd v (w_put _ _ out)), (Hd v (w_put _ _ [])), (w_put_app _ out). by rewrite app_assoc.
Qed.

Lemma foldl_appends {A} (snd : A -> ostream -> ostream) l out : appends snd ->
  foldl (fun out x => snd x out) out l = out ++ concat ((fun x => snd x []) <$> l).
Proof.
  intros H. revert out. induction l as [|x l IH]; intros out; [by rewrite app_nil_r|].
  simpl. rewrite IH, (H x out). by rewrite app_assoc.
Qed.

(** The members of a composite, framed one after the other. *)
Fixpoint members_bytes (ts : list cty) : dens ts -> list byte :=
  match ts return dens ts -> list byte with
  | [] => fun _ => []
  | t :: ts => fun v => frame_bytes t v.1 ++ members_bytes ts v.2
  end.

Lemma frame_send t v out : appends (send t) -> frame (send t) v out = out ++ frame_bytes t v.
Proof.
  intros H. rewrite (frame_appends _ H). f_equal. unfold frame, data_frame, frame_bytes, data_frame_bytes.
  rewrite H, (w_put_app _ (w_put _ _ [])). unfold w_bytes at 1 2. by rewrite <- app_assoc.
Qed.

Lemma data_frame_send t v out : appends (send t) -> data_frame (send t) v out = out ++ data_frame_bytes t v.
Proof.
  intros H. rewrite (data_frame_appends _ H). f_equal. unfold data_frame, data_frame_bytes. by rewrite H.
Qed.

Lemma send_members_eq ts v out : Forall (fun t => appends (send t)) ts ->
  send_members ts v out = out ++ members_bytes ts v.
Proof.
  intros H. revert v out. induction H as [|t ts Ht _ IH]; intros v out; [by rewrite app_nil_r|].
  cbn [send_members members_bytes]. rewrite IH, frame_send by done. by rewrite app_assoc.
Qed.

Lemma send_appends t : appends (send t).
Proof.
  induction t as [s|t IH|c t IH|ts IH|n ms ts IH] using cty_ind'.
  - apply send_scalar_appends.
  - intros [v|] out; [apply IH|simpl; by rewrite app_nil_r].
  - intros v out. cbn [send]. rewrite !(foldl_appends (data_frame (send t))) by (by apply data_frame_appends).
    rewrite !(w_put_app _ (w_put _ _ _)), !(w_put_app _ out). unfold w_bytes at 3.
    by rewrite <- !app_assoc.
  - intros v out. change (send (Tuple ts)) with
      (fun v out => send_members ts v (w_put pg_composite_wire (Z.of_nat (length ts)) out)).
    cbv beta. rewrite !send_members_eq, (w_put_app _ out) by done. by rewrite app_assoc.
  - intros v out. change (send (Struct n ms ts)) with
      (fun v out => send_members ts v (w_put pg_composite_wire (Z.of_nat (length ts)) out)).
    cbv beta. rewrite !send_members_eq, (w_put_app _ out) by done. by rewrite app_assoc.
Qed.

Lemma bytes_of_array c e (v : list (den e)) :
  bytes_of (Array c e) v
  = w_bytes pg_array_wire (1, (0, type_oid oids e))
    ++ w_bytes pg_array_dimension_wire (it_wrap int32_t (Z.of_nat (length v)), 0)
    ++ concat (data_frame_bytes e <$> v).
Proof.
  unfold bytes_of. cbn [send]. rewrite (foldl_appends (data_frame (send e))) by apply data_frame_appends, send_appends.
  rewrite (w_put_app _ (w_put _ _ _)). rewrite <- app_assoc. f_equal. f_equal. f_equal.
  apply list_fmap_ext. intros _ x _. by rewrite data_frame_send by apply send_appends.
Qed.

Lemma bytes_of_members ts v :
  send_members ts v (w_put pg_composite_wire (Z.of_nat (length ts)) [])
  = w_bytes pg_composite_wire (Z.of_nat (length ts)) ++ members_bytes ts v.
Proof. apply send_members_eq. apply Forall_forall. intros t _. apply send_appends. Qed.

Lemma bytes_of_tuple ts v :
  bytes_of (Tuple ts) v = w_bytes pg_composite_wire (Z.of_nat (length ts)) ++ members_bytes ts v.
Proof. apply bytes_of_members. Qed.

Lemma bytes_of_struct n ms ts v :
  bytes_of (Struct n ms ts) v = w_bytes pg_composite_wire (Z.of_nat (length ts)) ++ members_bytes ts v.
Proof. apply bytes_of_members. Qed.

End codec.
