(* ===== verification/CodecSize.v ===== *)
(** * Sizes: what [size_of] promises the callers that preallocate and frame

    [size_of] is the number of bytes [send] produces (and -1 for a null) as long
    as the whole object fits [size_type] and the nulls of arrays of fixed-size
    items are not mixed with values; the last condition is needed. *)

From Stdlib Require Import Strings.Byte.
From S2P Require Import Prelude Words Time Errors PgTypes TypeSystem Stream Codec.
Import PgTypes.
#[local] Open Scope Z_scope.

(** ** Sums of sizes *)

Definition size_max : Z := 2147483647.

Definition zsum (l : list Z) : Z := foldr Z.add 0 l.

Lemma zsum_cons x l : zsum (x :: l) = x + zsum l.
Proof. done. Qed.

Lemma zsum_nonneg l : Forall (fun x => 0 <= x) l -> 0 <= zsum l.
Proof. induction 1; simpl; lia. Qed.

Lemma zsum_length {A} (f : A -> list byte) l :
  Z.of_nat (length (concat (f <$> l))) = zsum ((fun x => Z.of_nat (length (f x))) <$> l).
Proof. induction l as [|x l IH]; [done|].
  rewrite !fmap_cons, zsum_cons. cbn [concat]. rewrite length_app, Nat2Z.inj_add, IH. done. Qed.

Lemma to_size_type_id z : 0 <= z <= size_max -> to_size_type z = z.
Proof.
  intros H. apply it_wrap_id; [done|]. unfold in_range, size_max in *.
  change (it_min int32_t) with (-2147483648). change (it_max int32_t) with 2147483647. lia.
Qed.

(** The exact sizes of frames, without wrap-around. *)
Definition exact_data_frame (s : Z) : Z := 4 + Z.max s 0.
Definition exact_frame (s : Z) : Z := 4 + exact_data_frame s.

Lemma data_frame_size_exact s : exact_data_frame s <= size_max -> data_frame_size s = exact_data_frame s.
Proof. intros H. unfold data_frame_size, exact_data_frame in *. apply to_size_type_id. lia. Qed.

Lemma frame_size_exact s : exact_frame s <= size_max -> frame_size s = exact_frame s.
Proof.
  intros H. unfold frame_size, exact_frame in *. unfold exact_data_frame in *.
  rewrite data_frame_size_exact by (unfold exact_data_frame; lia). apply to_size_type_id.
  unfold exact_data_frame. lia.
Qed.

(** Left and right folds with wrap-around are sums when the total fits. *)
Lemma foldl_sizes (f g : Z -> Z) r l :
  (forall s, 4 <= g s) -> (forall s, g s <= size_max -> f s = g s) ->
  0 <= r -> r + zsum (g <$> l) <= size_max ->
  foldl (fun r s => to_size_type (r + f s)) r l = r + zsum (g <$> l).
Proof.
  intros Hg Hf. revert r. induction l as [|s l IH]; intros r Hr Hs; [simpl; lia|].
  rewrite fmap_cons, zsum_cons in *. cbn [foldl].
  assert (0 <= zsum (g <$> l)) as Hp.
  { apply zsum_nonneg, Forall_fmap, Forall_true. intros x. simpl. specialize (Hg x). lia. }
  specialize (Hg s). rewrite Hf by lia. rewrite to_size_type_id by lia.
  rewrite IH by lia. lia.
Qed.

Lemma foldr_sizes (f g : Z -> Z) l :
  (forall s, 4 <= g s) -> (forall s, g s <= size_max -> f s = g s) ->
  zsum (g <$> l) <= size_max ->
  foldr (fun s r => to_size_type (f s + r)) 0 l = zsum (g <$> l).
Proof.
  intros Hg Hf. induction l as [|s l IH]; intros Hs; [done|].
  rewrite fmap_cons, zsum_cons in *. cbn [foldr].
  assert (0 <= zsum (g <$> l)) as Hp.
  { apply zsum_nonneg, Forall_fmap, Forall_true. intros x. simpl. specialize (Hg x). lia. }
  specialize (Hg s). rewrite IH by lia. rewrite Hf by lia. apply to_size_type_id. lia.
Qed.

Lemma exact_data_frame_ge s : 4 <= exact_data_frame s.
Proof. unfold exact_data_frame. lia. Qed.

Lemma exact_frame_ge s : 4 <= exact_frame s.
Proof. unfold exact_frame, exact_data_frame. lia. Qed.

Lemma zsum_const (g : Z -> Z) s l : Forall (fun x => x = s) l -> zsum (g <$> l) = g s * Z.of_nat (length l).
Proof. induction 1 as [|x l -> _ IH]; [simpl; lia|].
  rewrite fmap_cons, zsum_cons, IH. cbn [length]. lia. Qed.

Lemma array_data_size_exact static sizes :
  (static = true -> exists s, Forall (fun x => x = s) sizes) ->
  zsum (exact_data_frame <$> sizes) <= size_max ->
  array_data_size static sizes = zsum (exact_data_frame <$> sizes).
Proof.
  intros Hst Hs. unfold array_data_size. destruct static.
  - destruct Hst as [s Hall]; [done|]. destruct sizes as [|x sizes]; [done|].
    pose proof (zsum_const exact_data_frame s _ Hall) as Hz. rewrite Hz in Hs |- *.
    apply Forall_cons in Hall as [-> Hall]. pose proof (exact_data_frame_ge s).
    cbn [length] in *. rewrite Nat2Z.inj_succ in *. rewrite data_frame_size_exact by nia.
    apply to_size_type_id. nia.
  - rewrite (foldl_sizes _ exact_data_frame); [lia| | |lia|lia].
    + apply exact_data_frame_ge.
    + apply data_frame_size_exact.
Qed.

Lemma fusion_data_size_exact sizes : zsum (exact_frame <$> sizes) <= size_max ->
  fusion_data_size sizes = zsum (exact_frame <$> sizes).
Proof.
  intros H. unfold fusion_data_size. rewrite (foldl_sizes _ exact_frame); [lia| | |lia|lia].
  - apply exact_frame_ge.
  - apply frame_size_exact.
Qed.

Lemma hana_data_size_exact sizes : zsum (exact_frame <$> sizes) <= size_max ->
  hana_data_size sizes = zsum (exact_frame <$> sizes).
Proof.
  intros H. apply foldr_sizes; [apply exact_frame_ge|apply frame_size_exact|done].
Qed.

(** ** Regular objects *)

(** A [uuid] has 16 bytes; a null is not nested in a null; the items of an array
    are a type that has an array type, and where their size is static they are
    all null or all values. *)
Definition scalar_regular (s : scalar) : sden s -> Prop :=
  match s return sden s -> Prop with
  | sc_uuid => fun v => length v = 16%nat
  | _ => fun _ => True
  end.

Definition same_nullness {e} (v : list (den e)) : Prop :=
  exists b, Forall (fun x => is_null x = b) v.

Fixpoint regular (t : cty) : den t -> Prop :=
  let members := fix members ts : dens ts -> Prop :=
    match ts return dens ts -> Prop with
    | [] => fun _ => True
    | t :: ts => fun v => regular t v.1 /\ members ts v.2
    end in
  match t return den t -> Prop with
  | Scalar s => scalar_regular s
  | Nullable t => fun v =>
      is_nullable t = false /\ match v with None => True | Some v => regular t v end
  | Array c e => fun v =>
      HasDefinition (Array c e) = true
      /\ (StaticSize e = true -> same_nullness v)
      /\ Forall (regular e) v
  | Tuple ts => members ts
  | Struct _ _ ts => members ts
  end.

Fixpoint regular_members (ts : list cty) : dens ts -> Prop :=
  match ts return dens ts -> Prop with
  | [] => fun _ => True
  | t :: ts => fun v => regular t v.1 /\ regular_members ts v.2
  end.

Section sizes.
Context (native : endian) (tick : Z) (oids : oid_map).
Abbreviation bytes_of := (bytes_of native tick oids).
Abbreviation data_frame_bytes := (data_frame_bytes native tick oids).
Abbreviation frame_bytes := (frame_bytes native tick oids).
Abbreviation members_bytes := (members_bytes native tick oids).

Definition len (bs : list byte) : Z := Z.of_nat (length bs).

(** What [size_of] should return. *)
Definition size_spec (t : cty) (v : den t) : Prop :=
  len (bytes_of t v) <= size_max ->
  size_of t v = if is_null v then null_state_size else len (bytes_of t v).

Lemma scalar_size s v : scalar_regular s v -> len (bytes_of (Scalar s) v) = size_of_scalar s v.
Proof.
  unfold len, Codec.bytes_of. cbn [send]. intros Hr.
  assert (forall {A} (w : wire A) `{!WireLaws w} a, length (w_put w a []) = w_size w) as Hw
    by (intros A w Hw a; apply w_bytes_size).
  destruct s; cbn [send_scalar size_of_scalar sden] in *;
    unfold send_versioned, send_time_point, send_duration;
    first [ rewrite Hw by apply _; vm_compute; reflexivity
          | unfold write_raw; rewrite app_nil_l; done
          | unfold write_raw; rewrite app_nil_l, Hr; vm_compute; reflexivity
          | unfold write_raw; rewrite length_app, Hw by apply _; cbn [w_size int_wire it_size int8_t]; lia
          | cbv zeta; rewrite Hw by apply _; vm_compute; reflexivity ].
Qed.

Lemma null_bytes t v : is_null v = true -> bytes_of t v = [].
Proof. destruct t; try done. by destruct v. Qed.

Lemma max_size_len t v : size_spec t v -> len (bytes_of t v) <= size_max ->
  Z.max (size_of t v) 0 = len (bytes_of t v).
Proof.
  intros H Hl. rewrite (H Hl). destruct (is_null v) eqn:E.
  - by rewrite (null_bytes t v E).
  - unfold len. lia.
Qed.

Lemma len_data_frame t v : len (data_frame_bytes t v) = 4 + len (bytes_of t v).
Proof.
  unfold len, Codec.data_frame_bytes. rewrite length_app, w_bytes_size.
  cbn [w_size int_wire it_size int32_t]. lia.
Qed.

Lemma len_frame t v : len (frame_bytes t v) = 4 + len (data_frame_bytes t v).
Proof.
  unfold len, Codec.frame_bytes. rewrite length_app, w_bytes_size.
  cbn [w_size int_wire it_size uint32_t]. lia.
Qed.

Lemma len_members_cons t ts (v : dens (t :: ts)) :
  len (members_bytes (t :: ts) v) = len (frame_bytes t v.1) + len (members_bytes ts v.2).
Proof. unfold len. cbn [Codec.members_bytes]. rewrite length_app. lia. Qed.

(** The sizes of the items of an array, and of the members of a composite, add
    up to what is sent for them. *)
Lemma items_sum e v : Forall (size_spec e) v ->
  len (concat (data_frame_bytes e <$> v)) <= size_max ->
  zsum (exact_data_frame <$> (size_of e <$> v)) = len (concat (data_frame_bytes e <$> v)).
Proof.
  unfold len. rewrite zsum_length. induction 1 as [|x v Hx _ IH]; intros Hs; [done|].
  rewrite !fmap_cons, !zsum_cons in *. fold (len (data_frame_bytes e x)) in *.
  assert (0 <= zsum ((fun x => len (data_frame_bytes e x)) <$> v)) as Hp.
  { apply zsum_nonneg, Forall_fmap, Forall_true. intros y. simpl. unfold len. lia. }
  rewrite len_data_frame in *. assert (0 <= len (bytes_of e x)) by (unfold len; lia).
  unfold len in Hp. rewrite IH by lia. unfold exact_data_frame. rewrite max_size_len; [lia|done|lia].
Qed.

Lemma members_sum ts (v : dens ts) : Forall (fun t => forall v, regular t v -> size_spec t v) ts ->
  regular_members ts v -> len (members_bytes ts v) <= size_max ->
  zsum (exact_frame <$> member_sizes ts v) = len (members_bytes ts v).
Proof.
  intros H. revert v. induction H as [|t ts Ht _ IH]; intros v Hr Hs; [done|].
  destruct Hr as [Hr1 Hr2]. rewrite len_members_cons in Hs |- *. rewrite len_frame, len_data_frame in Hs |- *.
  cbn [member_sizes]. rewrite fmap_cons, zsum_cons.
  assert (0 <= len (members_bytes ts v.2) /\ 0 <= len (bytes_of t v.1)) by (unfold len; lia).
  rewrite IH by (done || lia). unfold exact_frame, exact_data_frame.
  rewrite max_size_len; [lia|by apply Ht|lia].
Qed.

(** Items of static size: scalars, or nullable scalars. *)
Lemma static_items_same c e (v : list (den e)) :
  HasDefinition (Array c e) = true -> StaticSize e = true -> same_nullness v ->
  exists s, Forall (fun x => x = s) (size_of e <$> v).
Proof.
  intros Hd Hst [b Hb].
  assert (forall s, StaticSize (Scalar s) = true -> forall x y, size_of (Scalar s) x = size_of (Scalar s) y) as Hs.
  { intros s H x y. destruct s; try discriminate H; reflexivity. }
  destruct e as [s|e| | |]; try discriminate Hd; try discriminate Hst.
  - exists (size_of (Scalar s) (sdefault s)). apply Forall_fmap, Forall_true. intros x. by apply Hs.
  - destruct e as [s|e| | |]; try discriminate Hd; try discriminate Hst.
    destruct b.
    + exists null_state_size. apply Forall_fmap. eapply Forall_impl; [done|]. by intros [x|].
    + exists (size_of (Scalar s) (sdefault s)). apply Forall_fmap. eapply Forall_impl; [done|].
      intros [x|]; [|done]. intros _. by apply (Hs s).
Qed.

Lemma size_of_spec t : forall v, regular t v -> size_spec t v.
Proof.
  induction t as [s|t IH|c e IH|ts IH|n ms ts IH] using cty_ind'; intros v Hr Hl.
  - cbn [is_null size_of]. rewrite scalar_size in * by done. apply to_size_type_id.
    split; [|done]. rewrite <- (scalar_size s v Hr). unfold len. lia.
  - destruct v as [v|]; [|done]. destruct Hr as [Hn Hr]. cbn [is_null size_of].
    change (bytes_of (Nullable t) (Some v)) with (bytes_of t v) in *.
    rewrite (IH v Hr Hl). by destruct t.
  - destruct Hr as (Hd & Hst & Hall). cbn [is_null size_of]. rewrite bytes_of_array in *.
    unfold len in *. rewrite !length_app, !w_bytes_size in *.
    cbn [w_size pair_wire int_wire it_size int32_t uint32_t pg_array_wire pg_array_dimension_wire] in *.
    rewrite array_data_size_exact, items_sum.
    + unfold len, array_header_size, dimension_header_size. rewrite to_size_type_id; lia.
    + eapply Forall_impl; [done|]. apply IH.
    + unfold len. lia.
    + intros H. by eapply static_items_same; eauto.
    + rewrite items_sum; unfold len; [lia| |lia]. eapply Forall_impl; [done|]. apply IH.
  - change (size_of (Tuple ts) v) with (to_size_type (composite_header_size + fusion_data_size (member_sizes ts v))).
    change (regular_members ts v) in Hr. rewrite bytes_of_tuple in *. unfold len in *.
    rewrite length_app, w_bytes_size in Hl |- *. cbn [w_size int_wire it_size int32_t pg_composite_wire is_null] in *.
    rewrite fusion_data_size_exact; rewrite members_sum; unfold len; try done; try lia.
    unfold composite_header_size. rewrite to_size_type_id; lia.
  - change (size_of (Struct n ms ts) v) with (to_size_type (composite_header_size + hana_data_size (member_sizes ts v))).
    change (regular_members ts v) in Hr. rewrite bytes_of_struct in *. unfold len in *.
    rewrite length_app, w_bytes_size in Hl |- *. cbn [w_size int_wire it_size int32_t pg_composite_wire is_null] in *.
    rewrite hana_data_size_exact; rewrite members_sum; unfold len; try done; try lia.
    unfold composite_header_size. rewrite to_size_type_id; lia.
Qed.

End sizes.

Module Sizes.

(** C13: for every type, [size_of] is the number of bytes [send] appends,
    and -1 for a null, as long as the object's encoding fits a [size_type] and
    arrays of fixed-size items do not mix nulls with values. *)
Theorem size_of_is_length_of_send (native : endian) (tick : Z) (oids : oid_map) (t : cty) (v : den t)
    (out : ostream) (Hr : regular t v)
    (Hfits : Z.of_nat (length (send native tick oids t v [])) <= size_max) :
  send native tick oids t v out = out ++ send native tick oids t v []
  /\ size_of t v = if is_null v then null_state_size
                   else Z.of_nat (length (send native tick oids t v [])).
Proof.
  split; [apply send_appends|]. by apply (size_of_spec native tick oids).
Qed.

Lemma size_of_is_length_of_send_witness :
  size_of (Tuple [Scalar sc_int4; Nullable (Array c_list (Scalar sc_text))]) (7, (Some [[x41]; []], tt)) = 53.
Proof.
  destruct (size_of_is_length_of_send little 1000 []
    (Tuple [Scalar sc_int4; Nullable (Array c_list (Scalar sc_text))]) (7, (Some [[x41]; []], tt)) []) as [_ ->].
  - repeat split; try done; repeat constructor; done.
  - vm_compute. discriminate.
  - vm_compute. reflexivity.
Defined.

(** The condition on nulls is needed: of a vector of optional
    4-byte integers that starts with a null, [size_of] counts the frame of the
    first item for all of them, so it is smaller than what [send] writes, and
    larger where the null comes last. *)
Theorem mixed_nulls_size_mismatch (native : endian) (tick : Z) (oids : oid_map) (x y : Z) :
  let t := Array c_vector (Nullable (Scalar sc_int4)) in
  (size_of t [None; Some x] = 28 /\ length (send native tick oids t [None; Some x] []) = 32%nat)
  /\ (size_of t [Some x; None] = 36 /\ length (send native tick oids t [Some x; None] []) = 32%nat).
Proof.
  cbv zeta. split; (split; [vm_compute; reflexivity|]);
    change (send native tick oids ?t ?v []) with (bytes_of native tick oids t v);
    rewrite bytes_of_array, !length_app, !w_bytes_size; cbn [fmap list_fmap concat];
    rewrite !length_app; unfold data_frame_bytes; rewrite !length_app, !w_bytes_size;
    unfold bytes_of; cbn [send send_scalar]; rewrite ?w_put_app, ?length_app, ?w_bytes_size; reflexivity.
Qed.

End Sizes.
