(* ===== verification/CodecRoundtrip.v ===== *)
(** * Round trips of the codec, and the objects it does not overwrite *)

From Stdlib Require Import Strings.Byte.
From S2P Require Import Prelude Words Time Errors PgTypes TypeSystem Stream Codec CodecSize.
Import PgTypes.
#[local] Open Scope Z_scope.

(** ** Representable objects *)

(** Integers in the range of their type, floating point objects of their width,
    time points that are whole microseconds in the range PostgreSQL can express,
    [std::array]s of their size. *)
Definition scalar_representable (tick : Z) (s : scalar) : sden s -> Prop :=
  match s return sden s -> Prop with
  | sc_char => in_range int8_t
  | sc_int2 => in_range int16_t
  | sc_int4 => in_range int32_t
  | sc_int8 => in_range int64_t
  | sc_oid => in_range uint32_t
  | sc_float4 => in_range (IntType 4 false)
  | sc_float8 => in_range (IntType 8 false)
  | sc_timestamp => fun v =>
      i64_min <= v <= i64_max /\ i64_min <= v - Chrono.epoch tick <= i64_max
      /\ Z.rem (v - Chrono.epoch tick) tick = 0
  | sc_interval => fun v => i64_min <= v <= i64_max
  | _ => fun _ => True
  end.

Definition container_fits (c : container) {A} (v : list A) : Prop :=
  match c with
  | c_array n => length v = n
  | _ => True
  end.

Section representable.
Context (tick : Z).

Fixpoint representable (t : cty) : den t -> Prop :=
  let members := fix members ts : dens ts -> Prop :=
    match ts return dens ts -> Prop with
    | [] => fun _ => True
    | t :: ts => fun v => representable t v.1 /\ members ts v.2
    end in
  match t return den t -> Prop with
  | Scalar s => scalar_representable tick s
  | Nullable t => fun v => match v with None => True | Some v => representable t v end
  | Array c e => fun v => container_fits c v /\ Forall (representable e) v
  | Tuple ts => members ts
  | Struct _ _ ts => members ts
  end.

Fixpoint representable_members (ts : list cty) : dens ts -> Prop :=
  match ts return dens ts -> Prop with
  | [] => fun _ => True
  | t :: ts => fun v => representable t v.1 /\ representable_members ts v.2
  end.

End representable.

(** The oids the database assigned are [Oid]s. *)
Definition oids_in_range (oids : oid_map) : Prop := Forall (fun p => in_range uint32_t p.2) oids.

(** The clock: a positive number of ticks per microsecond that can express the
    PostgreSQL epoch. *)
Definition clock_ok (tick : Z) : Prop := 0 < tick /\ i64_min <= Chrono.epoch tick <= i64_max.

Lemma range_check ty z : in_rangeb ty z = true -> in_range ty z.
Proof. apply in_rangeb_spec. Qed.

Definition traits_oid_ok (tr : option type_traits) : bool :=
  match tr with
  | Some (Traits _ (Some o) _) => in_rangeb uint32_t o
  | _ => true
  end.

Lemma built_in_oids_ok t : traits_oid_ok (get_type_traits t) = true.
Proof.
  unfold get_type_traits. destruct (unwrap_type t) as [s|t'|c e|ts|n ms ts]; [|done| | |done].
  - destruct s; vm_compute; reflexivity.
  - destruct (unwrap_type e) as [s|t''|c' e'|ts|n ms ts]; [|done|done| |done].
    + destruct s; vm_compute; reflexivity.
    + vm_compute. reflexivity.
  - vm_compute. reflexivity.
Qed.

Lemma type_oid_range oids t : oids_in_range oids -> in_range uint32_t (type_oid oids t).
Proof.
  intros H. assert (in_range uint32_t (default null_oid (map_at oids (unwrap_type t)))) as Hd.
  { unfold map_at. destruct (List.find _ _) as [[k o]|] eqn:E; [|by apply range_check].
    apply List.find_some in E as [Hin _]. simpl.
    rewrite <- list_elem_of_In in Hin. unfold oids_in_range in H. rewrite Forall_forall in H.
    by apply (H (k, o)). }
  unfold type_oid. pose proof (built_in_oids_ok t) as Ht.
  destruct (get_type_traits t) as [[n [o|] sz]|]; [by apply range_check|done..].
Qed.

Section roundtrip.
Context (native : endian) (tick : Z) (oids : oid_map).
Context (Htick : clock_ok tick) (Hoids : oids_in_range oids).
Abbreviation bytes_of := (bytes_of native tick oids).
Abbreviation data_frame_bytes := (data_frame_bytes native tick oids).
Abbreviation frame_bytes := (frame_bytes native tick oids).
Abbreviation members_bytes := (members_bytes native tick oids).
Abbreviation int_w := (int_wire native).

(** [recv_impl] takes back what [send] wrote, from a fresh object. *)
Definition received (t : cty) (v : den t) : Prop := forall more,
  is_null v = false ->
  recv_impl native tick oids t (IStream (bytes_of t v ++ more) false) (size_of t v) (default_den t)
  = Return (v, IStream more false).

Lemma recv_static_ok {A} (w : wire A) `{!WireLaws w} a more n : w_ok w a ->
  recv_static w n (IStream (w_put w a [] ++ more) false) n = Return (a, IStream more false).
Proof. intros H. unfold recv_static. rewrite Z.eqb_refl. by apply read_put. Qed.

Lemma recv_dynamic_ok v more :
  recv_dynamic [] (IStream (v ++ more) false) (Z.of_nat (length v)) = Return (v, IStream more false).
Proof.
  unfold recv_dynamic. rewrite (proj2 (Z.ltb_ge _ _)) by lia. apply read_bytes_app.
  rewrite length_resize. lia.
Qed.

Lemma recv_versioned_ok v more :
  recv_versioned native [] (IStream ((w_put (int_w int8_t) 1 [] ++ v) ++ more) false)
    (Z.of_nat (length v) + 1) = Return (v, IStream more false).
Proof.
  unfold recv_versioned. rewrite (proj2 (Z.ltb_ge _ _)) by lia. rewrite <- app_assoc.
  change (w_put (int_w int8_t) 1 []) with (w_bytes (int_w int8_t) 1).
  rewrite read_put by (apply _ || by apply range_check). cbn [mbind outcome_bind].
  apply read_bytes_app. rewrite length_resize. lia.
Qed.

Lemma timestamp_ok v more : scalar_representable tick sc_timestamp v ->
  recv_scalar native tick sc_timestamp
    (IStream (w_put (int_w int64_t) (Chrono.time_point_to_pg tick v) [] ++ more) false) 8 0
  = Return (v, IStream more false).
Proof.
  intros (H1 & H2 & H3). cbn [recv_scalar]. unfold recv_time_point.
  change (w_put (int_w int64_t) ?a []) with (w_bytes (int_w int64_t) a).
  destruct Htick as [Ht He]. rewrite read_put; [|apply _|].
  - cbn [mbind outcome_bind]. by rewrite Chrono.time_point_roundtrip, H3, Z.sub_0_r.
  - change (in_range int64_t (Chrono.time_point_to_pg tick v)). unfold Chrono.time_point_to_pg.
    rewrite w64_id by done. unfold in_range. fold i64_min i64_max.
    pose proof (Z.quot_rem (v - Chrono.epoch tick) tick ltac:(lia)) as Hq.
    set (q := Z.quot _ _) in *. rewrite H3 in Hq. change i64_min with (-9223372036854775808) in *.
    change i64_max with 9223372036854775807 in *. nia.
Qed.

Lemma interval_ok v more : scalar_representable tick sc_interval v ->
  recv_scalar native tick sc_interval
    (IStream (send_scalar native tick sc_interval v [] ++ more) false) 16 0
  = Return (v, IStream more false).
Proof.
  intros H. cbn [recv_scalar send_scalar]. unfold recv_duration, send_duration. cbv zeta.
  change (w_put (pg_interval_wire native) ?a []) with (w_bytes (pg_interval_wire native) a).
  rewrite read_put; [|apply _|].
  - cbn [mbind outcome_bind fst snd]. do 2 f_equal. by apply Chrono.interval_usecs_roundtrip.
  - by apply Chrono.from_chrono_duration_range.
Qed.

Lemma recv_scalar_ok s v : scalar_regular s v -> scalar_representable tick s v ->
  Z.of_nat (length (bytes_of (Scalar s) v)) <= size_max -> received (Scalar s) v.
Proof.
  intros Hr Hp Hl more _.
  pose proof (scalar_size native tick oids s v Hr) as Hsz. unfold len in Hsz.
  assert (size_of (Scalar s) v = size_of_scalar s v) as Hs.
  { cbn [size_of]. apply to_size_type_id. lia. }
  unfold Codec.bytes_of. cbn [recv_impl send default_den].
  destruct s; cbn [recv_scalar send_scalar sdefault];
    unfold send_versioned, send_time_point;
    try (apply recv_static_ok; [apply _|done]); rewrite ?Hs; cbn [size_of_scalar];
    try (unfold write_raw; apply recv_dynamic_ok).
  - unfold write_raw. apply recv_versioned_ok.
  - unfold write_raw. apply recv_versioned_ok.
  - unfold write_raw. apply read_bytes_app. rewrite length_replicate. by rewrite Hr.
  - by apply timestamp_ok.
  - by apply interval_ok.
Qed.

Lemma size_of_range t v : regular t v -> len (bytes_of t v) <= size_max ->
  in_range int32_t (size_of t v).
Proof.
  intros Hr Hl. rewrite (size_of_spec native tick oids t v Hr Hl). unfold in_range.
  change (it_min int32_t) with (-2147483648). change (it_max int32_t) with 2147483647.
  unfold size_max, len, null_state_size in *. destruct (is_null v); lia.
Qed.

Lemma null_value t (v : den t) : is_null v = true -> is_nullable t = true /\ v = reset_nullable (default_den t).
Proof. destruct t; try done. by destruct v. Qed.

(** The checks of [recv] pass. *)
Lemma recv_with_ok t v oid more : regular t v -> received t v ->
  len (bytes_of t v) <= size_max -> (oid = None \/ oid = Some (type_oid oids t)) ->
  recv_with oids (recv_impl native tick oids t) (IStream (bytes_of t v ++ more) false) oid
    (size_of t v) (default_den t) = Return (v, IStream more false).
Proof.
  intros Hr Hv Hl Ho. unfold recv_with.
  assert (match oid with Some oid => accepts_oid oids t oid | None => true end = true) as ->.
  { destruct Ho as [->| ->]; [done|]. apply Z.eqb_refl. }
  pose proof (size_of_spec native tick oids t v Hr Hl) as Hs.
  destruct (is_null v) eqn:E.
  - destruct (null_value t v E) as [Hn Hd]. rewrite Hs, Hn, (null_bytes _ _ _ _ _ E). simpl.
    by rewrite <- Hd.
  - assert ((size_of t v =? null_state_size) = false) as Hneq.
    { rewrite Hs. apply Z.eqb_neq. unfold len, null_state_size. lia. }
    rewrite Hneq, !andb_false_r. by apply Hv.
Qed.

Lemma recv_data_frame_ok t v oid more : regular t v -> received t v ->
  len (bytes_of t v) <= size_max -> (oid = None \/ oid = Some (type_oid oids t)) ->
  recv_data_frame_with native oids (recv_impl native tick oids t) oid
    (IStream (data_frame_bytes t v ++ more) false) (default_den t) = Return (v, IStream more false).
Proof.
  intros Hr Hv Hl Ho. unfold recv_data_frame_with, Codec.data_frame_bytes. rewrite <- app_assoc.
  rewrite read_put; [|apply _|by apply size_of_range]. cbn [mbind outcome_bind].
  by apply recv_with_ok.
Qed.

Lemma recv_frame_ok t v more : regular t v -> received t v -> len (bytes_of t v) <= size_max ->
  recv_frame_with native oids (recv_impl native tick oids t)
    (IStream (frame_bytes t v ++ more) false) (default_den t) = Return (v, IStream more false).
Proof.
  intros Hr Hv Hl. unfold recv_frame_with, Codec.frame_bytes. rewrite <- app_assoc.
  rewrite read_put; [|apply _|by apply type_oid_range]. cbn [mbind outcome_bind].
  apply recv_data_frame_ok; auto.
Qed.

Lemma recv_items_ok e v more : Forall (fun x => regular e x /\ (len (bytes_of e x) <= size_max -> received e x)) v ->
  len (concat (data_frame_bytes e <$> v)) <= size_max ->
  recv_items (recv_data_frame_with native oids (recv_impl native tick oids e) None)
    (IStream (concat (data_frame_bytes e <$> v) ++ more) false) (replicate (length v) (default_den e))
  = Return (v, IStream more false).
Proof.
  intros H. revert more. induction H as [|x v [Hr Hx] _ IH]; intros more Hl; [done|].
  rewrite fmap_cons in *. cbn [concat length replicate recv_items] in *.
  unfold len in *. rewrite length_app in Hl. pose proof (len_data_frame native tick oids e x) as Hd.
  unfold len in Hd. rewrite <- app_assoc, recv_data_frame_ok; unfold len; auto with lia.
  cbn [mbind outcome_bind]. rewrite IH by lia. done.
Qed.

Lemma fit_default {A} (d : A) c (out : list A) (v : list A) :
  container_fits c v -> v <> [] -> Z.of_nat (length v) <= size_max ->
  out = match c with c_array n => replicate n d | _ => [] end ->
  fit_array_size d c out (Z.of_nat (length v)) = Return (replicate (length v) d).
Proof.
  intros Hc Hne Hl ->. destruct c; simpl in *.
  - rewrite (proj2 (Z.ltb_ge _ _)) by lia. by rewrite resize_nil, Nat2Z.id.
  - rewrite (proj2 (Z.ltb_ge _ _)) by lia. by rewrite resize_nil, Nat2Z.id.
  - subst. by rewrite to_size_type_id, Z.eqb_refl by lia.
Qed.

Lemma accepts_unwrapped e : HasDefinition (Array c_vector e) = true ->
  accepts_oid oids (unwrap_type e) (type_oid oids e) = true.
Proof.
  intros H. unfold accepts_oid. apply Z.eqb_eq. unfold type_oid, get_type_traits.
  destruct e as [s|e| | |]; try done. cbn [unwrap_type]. destruct e; try discriminate H; done.
Qed.

Lemma items_length e v : 4 * Z.of_nat (length v) <= len (concat (data_frame_bytes e <$> v)).
Proof.
  induction v as [|x v IH]; [done|]. rewrite fmap_cons. cbn [concat length]. unfold len in *.
  rewrite length_app. pose proof (len_data_frame native tick oids e x). unfold len in *. lia.
Qed.

Lemma array_header_ok e : w_ok (pg_array_wire native) (1, (0, type_oid oids e)).
Proof.
  split; [by apply range_check|]. split; [by apply range_check|]. by apply type_oid_range.
Qed.

Lemma dimension_header_ok n : 0 <= n <= size_max -> w_ok (pg_array_dimension_wire native) (n, 0).
Proof.
  intros H. split; [|by apply range_check]. unfold size_max in H. split; simpl.
  - change (it_min int32_t) with (-2147483648). lia.
  - change (it_max int32_t) with 2147483647. lia.
Qed.

Lemma recv_array_ok c e (v : list (den e)) :
  (forall x, regular e x -> representable tick e x -> len (bytes_of e x) <= size_max -> received e x) ->
  regular (Array c e) v -> representable tick (Array c e) v ->
  len (bytes_of (Array c e) v) <= size_max -> received (Array c e) v.
Proof.
  intros IH (Hd & Hst & Hall) (Hc & Hrep) Hl more _.
  rewrite bytes_of_array in Hl |- *. unfold len in Hl. rewrite !length_app, !w_bytes_size in Hl.
  pose proof (items_length e v) as Hn. unfold len in Hn.
  rewrite (it_wrap_id int32_t (Z.of_nat (length v))); [|done|].
  2: { unfold in_range, size_max in *. change (it_min int32_t) with (-2147483648).
       change (it_max int32_t) with 2147483647. lia. }
  cbn [recv_impl]. rewrite <- !app_assoc.
  rewrite read_put; [|apply _|apply array_header_ok].
  cbn [mbind outcome_bind fst snd]. change (1 <? 1) with false. cbv iota.
  rewrite accepts_unwrapped by done. cbn [negb]. cbv iota.
  rewrite read_put; [|apply _|apply dimension_header_ok; lia].
  cbn [mbind outcome_bind fst snd]. destruct (decide (v = [])) as [->|Hne].
  { cbn [length]. change (Z.of_nat 0 =? 0) with true. cbv iota. destruct c as [| |n]; [done..|].
    simpl in Hc. by subst. }
  rewrite (proj2 (Z.eqb_neq _ _)) by (destruct v; [done|simpl; lia]).
  rewrite fit_default by (done || lia || by destruct c). cbn [mbind outcome_bind].
  apply recv_items_ok; [|unfold len; lia].
  apply Forall_forall. intros x Hx. rewrite Forall_forall in Hall, Hrep. auto.
Qed.

Lemma recv_members_ok ts (v : dens ts) more :
  Forall (fun t => forall x, regular t x -> representable tick t x ->
            len (bytes_of t x) <= size_max -> received t x) ts ->
  regular_members ts v -> representable_members tick ts v -> len (members_bytes ts v) <= size_max ->
  recv_members native tick oids ts (IStream (members_bytes ts v ++ more) false) (default_dens ts)
  = Return (v, IStream more false).
Proof.
  intros H. revert v more. induction H as [|t ts Ht _ IH]; intros v more Hr Hp Hl.
  - by destruct v.
  - destruct Hr as [Hr1 Hr2], Hp as [Hp1 Hp2]. rewrite len_members_cons, len_frame, len_data_frame in Hl.
    assert (0 <= len (members_bytes ts v.2) /\ 0 <= len (bytes_of t v.1)) by (unfold len; lia).
    cbn [Codec.members_bytes recv_members default_dens fst snd]. rewrite <- app_assoc.
    rewrite recv_frame_ok; [|done|apply Ht; done || lia|lia]. cbn [mbind outcome_bind].
    rewrite IH by (done || lia). simpl. by destruct v.
Qed.

Lemma members_count ts (v : dens ts) : Z.of_nat (length ts) <= len (members_bytes ts v).
Proof.
  induction ts as [|t ts IH]; [done|]. rewrite len_members_cons, len_frame, len_data_frame. cbn [length].
  specialize (IH v.2). assert (0 <= len (bytes_of t v.1)) by (unfold len; lia). lia.
Qed.

Lemma recv_header_ok ts (v : dens ts) more : len (members_bytes ts v) <= size_max ->
  read_and_verify_header native (length ts)
    (IStream (w_bytes (pg_composite_wire native) (Z.of_nat (length ts)) ++ more) false)
  = Return (IStream more false).
Proof.
  intros Hl. unfold read_and_verify_header. rewrite read_put; [|apply _|].
  - cbn [mbind outcome_bind]. by rewrite Z.eqb_refl.
  - pose proof (members_count ts v). change (in_range int32_t (Z.of_nat (length ts))).
    unfold in_range, size_max in *. change (it_min int32_t) with (-2147483648).
    change (it_max int32_t) with 2147483647. lia.
Qed.

Lemma received_all t : forall v, regular t v -> representable tick t v ->
  len (bytes_of t v) <= size_max -> received t v.
Proof.
  induction t as [s|t IH|c e IH|ts IH|n ms ts IH] using cty_ind'; intros v Hr Hp Hl.
  - by apply recv_scalar_ok.
  - intros more Hnn. destruct v as [v|]; [|done]. destruct Hr as [Hn Hr].
    change (bytes_of (Nullable t) (Some v)) with (bytes_of t v) in *.
    cbn [recv_impl size_of default_den init_nullable].
    rewrite (IH v Hr Hp Hl more); [done|]. by destruct t.
  - by apply recv_array_ok.
  - intros more _. rewrite bytes_of_tuple in *. unfold len in Hl. rewrite length_app in Hl.
    change (recv_impl native tick oids (Tuple ts)) with (fun (i : istream) (_ : Z) out =>
      i ← read_and_verify_header native (length ts) i; recv_members native tick oids ts i out).
    cbv beta. rewrite <- app_assoc, (recv_header_ok ts v) by (unfold len; lia). cbn [mbind outcome_bind].
    apply recv_members_ok; try done. unfold len; lia.
  - intros more _. rewrite bytes_of_struct in *. unfold len in Hl. rewrite length_app in Hl.
    change (recv_impl native tick oids (Struct n ms ts)) with (fun (i : istream) (_ : Z) out =>
      i ← read_and_verify_header native (length ts) i; recv_members native tick oids ts i out).
    cbv beta. rewrite <- app_assoc, (recv_header_ok ts v) by (unfold len; lia). cbn [mbind outcome_bind].
    apply recv_members_ok; try done. unfold len; lia.
Qed.

End roundtrip.

Module Roundtrip.

(** C1: an object of any type of the universe (scalars, nullables,
    arrays and composites, nested as the type system allows) that was sent is
    received back exactly, into a value-initialized object, from the bytes
    [send] wrote with the size [size_of] announced and the oid [type_oid]
    announced, on a platform of either byte order; the bytes that follow are
    left in the stream.  The object has to be one that can be sent: it is [regular]
    (a [uuid] of 16 bytes, no null inside a null, no array that mixes nulls and values
    of an item type of static size), [representable] (integers in the range of their
    types, time points that are whole microseconds, [std::array]s of their size), and
    its encoding fits into [size_type]. *)
Theorem recv_send (native : endian) (tick : Z) (oids : oid_map) (t : cty) (v : den t) (more : list byte)
    (Htick : clock_ok tick) (Hoids : oids_in_range oids)
    (Hr : regular t v) (Hp : representable tick t v)
    (Hfits : Z.of_nat (length (send native tick oids t v [])) <= size_max) :
  recv native tick oids t (IStream (send native tick oids t v [] ++ more) false)
    (type_oid oids t) (size_of t v) (default_den t) = Return (v, IStream more false).
Proof.
  unfold recv. apply (recv_with_ok native tick oids t v); [done| |done|by right].
  by apply received_all.
Qed.

(** A structure with a nullable timestamp, an array of nullable strings and a
    nested tuple, registered as a custom type. *)
Definition sample_type : cty :=
  Struct "message" ["id"; "at"; "to"; "extra"]
    [Scalar sc_int8; Nullable (Scalar sc_timestamp); Array c_vector (Nullable (Scalar sc_text));
     Tuple [Scalar sc_bool; Nullable (Scalar sc_jsonb)]].

Definition sample_value : den sample_type :=
  (42, (Some 946684800000001000, ([Some [x41; x42]; None], ((true, (None, tt)), tt)))).

Lemma recv_send_witness :
  recv little 1000 [(sample_type, 16385)] sample_type
    (IStream (send little 1000 [(sample_type, 16385)] sample_type sample_value [] ++ [x07]) false)
    16385 (size_of sample_type sample_value) (default_den sample_type)
  = Return (sample_value, IStream [x07] false).
Proof.
  apply (recv_send little 1000 [(sample_type, 16385)] sample_type sample_value [x07]).
  - vm_compute. intuition discriminate.
  - repeat constructor; vm_compute; discriminate.
  - repeat split; try done. repeat constructor; done.
  - repeat split; try (vm_compute; discriminate); try done. repeat constructor; done.
  - vm_compute. discriminate.
Defined.

(** An empty array leaves the object it is received into as it
    was: whatever items a vector held before, they are still there after an
    empty array was received successfully. *)
Theorem empty_array_keeps_old_items (native : endian) (tick : Z) (oids : oid_map)
    (s : scalar) (out : list (sden s)) (size : Z)
    (Hoids : oids_in_range oids) (Hsize : size <> null_state_size) :
  let t := Array c_vector (Scalar s) in
  recv native tick oids t (IStream (send native tick oids t [] []) false) (type_oid oids t) size out
  = Return (out, IStream [] false).
Proof.
  cbv zeta. unfold recv, recv_with. cbn [is_nullable andb negb].
  unfold accepts_oid at 1. rewrite Z.eqb_refl. cbn [negb]. rewrite (proj2 (Z.eqb_neq _ _)) by done.
  change (send native tick oids (Array c_vector (Scalar s)) _ [])
    with (bytes_of native tick oids (Array c_vector (Scalar s)) (@nil (den (Scalar s)))).
  rewrite bytes_of_array. cbn [recv_impl fmap list_fmap concat].
  rewrite read_put; [|apply _|by apply array_header_ok].
  cbn [mbind outcome_bind fst snd]. change (1 <? 1) with false. cbv iota.
  unfold accepts_oid. cbn [unwrap_type]. rewrite Z.eqb_refl. cbn [negb].
  rewrite read_put; [done|apply _|by apply dimension_header_ok].
Qed.

End Roundtrip.
