(* ===== verification/CodecSafety.v ===== *)
(** * Receiving from any input: objects of their type, no read outside the input

    What [recv] does with bytes that no [send] wrote: it throws one of the errors
    the library names, or gives an object of the type it was asked for, having
    consumed a part of the input from its beginning. *)

From Stdlib Require Import Strings.Byte.
From S2P Require Import Prelude Words Time Errors PgTypes TypeSystem Stream Codec.
Import PgTypes.
#[local] Open Scope Z_scope.

(** ** Objects of a type *)

(** Integers in the range of their type, floating point objects of their width,
    tick counts of 64 bits, uuids of 16 bytes, [std::array]s of their size. *)
Definition scalar_typed (s : scalar) : sden s -> Prop :=
  match s return sden s -> Prop with
  | sc_char => in_range int8_t
  | sc_int2 => in_range int16_t
  | sc_int4 => in_range int32_t
  | sc_int8 => in_range int64_t
  | sc_oid => in_range uint32_t
  | sc_float4 => in_range (IntType 4 false)
  | sc_float8 => in_range (IntType 8 false)
  | sc_uuid => fun v => length v = 16%nat
  | sc_timestamp | sc_interval => in_range int64_t
  | _ => fun _ => True
  end.

Definition container_typed (c : container) (n : nat) : Prop :=
  match c with c_array m => n = m | _ => True end.

Fixpoint typed (t : cty) : den t -> Prop :=
  let members := fix members ts : dens ts -> Prop :=
    match ts return dens ts -> Prop with
    | [] => fun _ => True
    | t :: ts => fun v => typed t v.1 /\ members ts v.2
    end in
  match t return den t -> Prop with
  | Scalar s => scalar_typed s
  | Nullable t => fun v => match v with None => True | Some v => typed t v end
  | Array c e => fun v => container_typed c (length v) /\ Forall (typed e) v
  | Tuple ts => members ts
  | Struct _ _ ts => members ts
  end.

Fixpoint typed_members (ts : list cty) : dens ts -> Prop :=
  match ts return dens ts -> Prop with
  | [] => fun _ => True
  | t :: ts => fun v => typed t v.1 /\ typed_members ts v.2
  end.

(** The exceptions of [recv]. *)
Definition recv_error (e : exn) : bool :=
  match e with
  | system_error (ec_ozo (unexpected_eof | bad_object_size | oid_type_mismatch
      | bad_array_dimension | bad_array_size | bad_composite_size)) => true
  | invalid_argument | range_error | length_error | bad_alloc => true
  | _ => false
  end.

(** ** Safe readers *)

(** A reader that gives an object with [P] and leaves what follows what it
    consumed, or throws an error of [recv]. *)
Definition safe {A : Type} (P : A -> Prop) (f : istream -> may_throw (A * istream)) : Prop :=
  forall i, unexpected_eof_ i = false ->
    match f i with
    | Return (a, i') => P a /\ unexpected_eof_ i' = false /\ exists used, rest i = used ++ rest i'
    | Throw e => recv_error e = true
    end.

Lemma safe_return {A : Type} (P : A -> Prop) a : P a -> safe P (fun i => Return (a, i)).
Proof. intros Ha i Hi. split_and!; [done|done|by exists []]. Qed.

Lemma safe_throw {A : Type} (P : A -> Prop) e : recv_error e = true -> safe P (fun _ => Throw e).
Proof. by intros He i Hi. Qed.

Lemma safe_bind {A B : Type} (P : A -> Prop) (Q : B -> Prop) f (g : A -> istream -> may_throw (B * istream)) :
  safe P f -> (forall a, P a -> safe Q (g a)) -> safe Q (fun i => '(a, i) ← f i; g a i).
Proof.
  intros Hf Hg i Hi. specialize (Hf i Hi). destruct (f i) as [[a i1]|e]; cbn; [|done].
  destruct Hf as (Ha & Hi1 & used & Hu). specialize (Hg a Ha i1 Hi1).
  destruct (g a i1) as [[b i2]|e]; [|done]. destruct Hg as (Hb & Hi2 & used' & Hu').
  split_and!; [done|done|]. exists (used ++ used'). by rewrite Hu, Hu', app_assoc.
Qed.

Lemma safe_if {A : Type} (P : A -> Prop) (b : bool) f g :
  safe P f -> safe P g -> safe P (fun i => if b then f i else g i).
Proof. by destruct b. Qed.

Lemma safe_weaken {A : Type} (P Q : A -> Prop) f : safe P f -> (forall a, P a -> Q a) -> safe Q f.
Proof.
  intros Hf HPQ i Hi. specialize (Hf i Hi). destruct (f i) as [[a i']|]; [|done].
  destruct Hf as (? & ? & ?). by auto.
Qed.

(** A wire format whose reader gives a value in range whatever it reads. *)
Class WireTyped {A} (w : wire A) : Prop := w_get_ok i : w_ok w (w_get w i).1.

#[export] Instance int_wire_typed native ty : int_ok ty -> WireTyped (int_wire native ty).
Proof.
  intros Hok i. assert (it_size ty <> 0%nat) by (unfold int_ok in Hok; lia).
  unfold int_wire, read_int. cbn [w_ok w_get]. case_bool_decide.
  - destruct (get_char i). by apply it_wrap_range.
  - destruct (read_raw (take (it_size ty) uninitialized) i). by apply it_wrap_range.
Qed.
#[export] Instance float_wire_typed native size :
  int_ok (floating_point_integral size) -> WireTyped (float_wire native size).
Proof.
  intros Hok i. unfold float_wire, read_float. cbn [w_ok w_get].
  destruct (read_int native uninitialized (floating_point_integral size) i).
  unfold to_floating_point. apply (it_wrap_range (IntType size false)). unfold int_ok in Hok. simpl in *. lia.
Qed.
#[export] Instance bool_wire_typed native : WireTyped (bool_wire native).
Proof. by intros i. Qed.
#[export] Instance pair_wire_typed {A B} (wa : wire A) (wb : wire B) :
  WireTyped wa -> WireTyped wb -> WireTyped (pair_wire wa wb).
Proof.
  intros Ha Hb i. cbn [w_ok w_get pair_wire]. specialize (Ha i). destruct (w_get wa i) as [a i1].
  specialize (Hb i1). by destruct (w_get wb i1).
Qed.

Lemma safe_read {A : Type} (w : wire A) `{!WireLaws w, !WireTyped w} : safe (w_ok w) (read w).
Proof.
  intros [bs eof] Hi. simpl in Hi. subst eof. unfold read. pose proof (w_get_ok (w := w) (IStream bs false)) as Hok.
  destruct (decide (length bs < w_size w)%nat) as [Hl|Hl].
  - pose proof (w_get_short (w := w) bs Hl) as He. destruct (w_get w (IStream bs false)) as [a i']. simpl in *.
    by rewrite He.
  - pose proof (w_get_enough (w := w) bs ltac:(lia)) as He. destruct (w_get w (IStream bs false)) as [a i'].
    simpl in *. subst i'. simpl. split_and!; [done|done|]. exists (take (w_size w) bs). by rewrite take_drop.
Qed.

Lemma safe_read_bytes buf : safe (fun v => length v = length buf) (read_bytes buf).
Proof.
  intros [bs eof] Hi. simpl in Hi. subst eof. unfold read_bytes, read_raw. cbn [rest unexpected_eof_ orb].
  case_bool_decide as Hl; simpl; [|done]. rewrite length_take in Hl. split_and!; [|done|].
  - rewrite length_app, length_take, length_drop. lia.
  - exists (take (length buf) bs). by rewrite take_drop.
Qed.

(** ** Default objects *)

Lemma scalar_default_typed s : scalar_typed s (sdefault s).
Proof. destruct s; try done; cbn; apply in_rangeb_spec; by vm_compute. Qed.

Lemma default_members_typed ts : Forall (fun t => typed t (default_den t)) ts ->
  typed_members ts (default_dens ts).
Proof. induction 1; [done|]. by split. Qed.

Lemma default_typed t : typed t (default_den t).
Proof.
  induction t as [s|t IH|c t IH|ts IH|n ms ts IH] using cty_ind'.
  - apply scalar_default_typed.
  - done.
  - destruct c; cbn; [done|done|]. split; [apply length_replicate|by apply Forall_replicate].
  - apply (default_members_typed ts IH).
  - apply (default_members_typed ts IH).
Qed.

(** ** [recv] *)

Section safety.
Context (native : endian) (tick : Z) (oids : oid_map).

Lemma safe_recv_static {A : Type} (w : wire A) `{!WireLaws w, !WireTyped w} expected size :
  safe (w_ok w) (fun i => recv_static w expected i size).
Proof. unfold recv_static. apply safe_if; [by apply safe_read|by apply safe_throw]. Qed.

Lemma safe_recv_dynamic out size : safe (fun _ => True) (fun i => recv_dynamic out i size).
Proof.
  unfold recv_dynamic. apply safe_if; [by apply safe_throw|].
  eapply safe_weaken; [apply safe_read_bytes|done].
Qed.

Lemma safe_recv_versioned out size : safe (fun _ => True) (fun i => recv_versioned native out i size).
Proof.
  unfold recv_versioned. apply safe_if; [by apply safe_throw|]. eapply safe_bind; [apply safe_read; apply _|].
  intros a _. eapply safe_weaken; [apply safe_read_bytes|done].
Qed.

Lemma w64_range z : in_range int64_t (w64 z).
Proof. by apply it_wrap_range. Qed.

Lemma safe_recv_time_point : safe (in_range int64_t) (recv_time_point native tick).
Proof.
  unfold recv_time_point. eapply safe_bind; [apply safe_read; apply _|]. intros v _.
  apply safe_return. apply w64_range.
Qed.

Lemma to_chrono_duration_range i : in_range int64_t (Chrono.to_chrono_duration i).
Proof.
  unfold Chrono.to_chrono_duration. repeat case_match; [apply in_rangeb_spec; by vm_compute..|apply w64_range].
Qed.

Lemma safe_recv_duration : safe (in_range int64_t) (recv_duration native).
Proof.
  unfold recv_duration. eapply safe_bind; [apply safe_read; apply _|]. intros v _.
  apply safe_return. apply to_chrono_duration_range.
Qed.

Lemma safe_recv_scalar s size (out : sden s) : scalar_typed s out ->
  safe (scalar_typed s) (fun i => recv_scalar native tick s i size out).
Proof.
  intros Hout. destruct s; cbn [recv_scalar scalar_typed] in *;
    first [apply safe_recv_dynamic | apply safe_recv_versioned | apply safe_recv_time_point
          | apply safe_recv_duration
          | eapply safe_weaken; [apply safe_read_bytes|intros v Hv; cbv beta in Hv; congruence]
          | apply (safe_recv_static (bool_wire native))
          | apply (safe_recv_static (int_wire native _))
          | apply (safe_recv_static (float_wire native _))].
Qed.

Lemma reset_typed {t} (out : den t) : typed t out -> typed t (reset_nullable out).
Proof. by destruct t. Qed.

(** A safe [recv_impl], from any object of the type. *)
Definition safe_impl {t} (impl : istream -> Z -> den t -> may_throw (den t * istream)) : Prop :=
  forall size out, typed t out -> safe (typed t) (fun i => impl i size out).

Lemma safe_recv_with {t} impl oid size (out : den t) : safe_impl impl -> typed t out ->
  safe (typed t) (fun i => recv_with oids impl i oid size out).
Proof.
  intros Hi Hout. unfold recv_with.
  apply safe_if; [by apply safe_return, reset_typed|]. apply safe_if; [by apply safe_throw|].
  apply safe_if; [by apply safe_throw|by apply Hi].
Qed.

Lemma safe_recv_data_frame {t} impl oid (out : den t) : safe_impl impl -> typed t out ->
  safe (typed t) (fun i => recv_data_frame_with native oids impl oid i out).
Proof.
  intros Hi Hout. unfold recv_data_frame_with. eapply safe_bind; [apply safe_read; apply _|].
  intros size _. by apply safe_recv_with.
Qed.

Lemma safe_recv_frame {t} impl (out : den t) : safe_impl impl -> typed t out ->
  safe (typed t) (fun i => recv_frame_with native oids impl i out).
Proof.
  intros Hi Hout. unfold recv_frame_with. eapply safe_bind; [apply safe_read; apply _|].
  intros oid _. by apply safe_recv_data_frame.
Qed.

Lemma safe_recv_items {A : Type} (P : A -> Prop) f out :
  (forall x, P x -> safe P (fun i => f i x)) -> Forall P out ->
  safe (fun v => length v = length out /\ Forall P v) (fun i => recv_items f i out).
Proof.
  intros Hf Hout. induction Hout as [|x out Hx Hout IH]; cbn [recv_items]; [by apply safe_return|].
  eapply safe_bind; [by apply Hf|]. intros a Ha. eapply safe_bind; [exact IH|]. intros l [Hl Hp].
  apply safe_return. split; [simpl; congruence|by constructor].
Qed.

Lemma fit_array_size_typed e c (out : list (den e)) count :
  container_typed c (length out) -> Forall (typed e) out ->
  match fit_array_size (default_den e) c out count with
  | Return v => container_typed c (length v) /\ Forall (typed e) v
  | Throw x => recv_error x = true
  end.
Proof.
  intros Hc Hout. assert (Hr : forall n, Forall (typed e) (resize n (default_den e) out))
    by (intros n; apply Forall_resize; [apply default_typed|done]).
  destruct c as [| |n]; cbn [fit_array_size]; [destruct (count <? 0)..|destruct (count =? _)]; try done; by split.
Qed.

Lemma safe_read_header n : safe (fun _ => True) (fun i => i ← read_and_verify_header native n i; Return (tt, i)).
Proof.
  unfold read_and_verify_header. intros i Hi.
  pose proof (safe_read (pg_composite_wire native) i Hi) as Hr.
  destruct (read (pg_composite_wire native) i) as [[count i']|e]; cbn; [|done].
  destruct (count =? Z.of_nat n); cbn; [|done]. by destruct Hr as (_ & ? & ?).
Qed.

Lemma safe_after_header {A : Type} (P : A -> Prop) n (f : istream -> may_throw (A * istream)) : safe P f ->
  safe P (fun i => i ← read_and_verify_header native n i; f i).
Proof.
  intros Hf i Hi. pose proof (safe_read_header n i Hi) as Hh. cbv beta in Hh.
  destruct (read_and_verify_header native n i) as [i1|e]; [|exact Hh]. cbn [mbind outcome_bind] in *.
  destruct Hh as (_ & Hi1 & used & Hu). specialize (Hf i1 Hi1). destruct (f i1) as [[a i2]|]; [|done].
  destruct Hf as (Ha & Hi2 & used' & Hu'). split_and!; [done|done|].
  exists (used ++ used'). by rewrite Hu, Hu', app_assoc.
Qed.

Lemma safe_recv_members ts (out : dens ts) :
  Forall (fun t => safe_impl (recv_impl native tick oids t)) ts -> typed_members ts out ->
  safe (typed_members ts) (fun i => recv_members native tick oids ts i out).
Proof.
  intros Hts. revert out. induction Hts as [|t ts Ht Hts IH]; intros out Hout; cbn [recv_members];
    [by apply safe_return|]. destruct Hout as [H1 H2].
  eapply safe_bind; [by apply safe_recv_frame|]. intros v Hv. eapply safe_bind; [by apply IH|].
  intros vs Hvs. apply safe_return. by split.
Qed.

Lemma safe_recv_array c e : safe_impl (recv_impl native tick oids e) ->
  safe_impl (recv_impl native tick oids (Array c e)).
Proof.
  intros He size out [Hc Hout]. cbn [recv_impl].
  eapply safe_bind; [apply (safe_read (pg_array_wire native))|]. intros header _.
  apply safe_if; [by apply safe_throw|]. apply safe_if; [by apply safe_throw|].
  apply safe_if; [by apply safe_return|].
  eapply safe_bind; [apply (safe_read (pg_array_dimension_wire native))|]. intros dim _.
  apply safe_if; [by apply safe_return|].
  pose proof (fit_array_size_typed e c out dim.1 Hc Hout) as Hf.
  destruct (fit_array_size (default_den e) c out dim.1) as [v|x]; cbn [mbind outcome_bind];
    [|by apply safe_throw]. destruct Hf as [Hc' Hv].
  eapply safe_weaken; [apply (safe_recv_items (typed e)); [|exact Hv]|].
  - intros x Hx. by apply safe_recv_data_frame.
  - intros l [Hl Hp]. exact (conj (eq_ind_r (container_typed c) Hc' Hl) Hp).
Qed.

Lemma safe_recv_impl t : safe_impl (recv_impl native tick oids t).
Proof.
  induction t as [s|t IH|c t IH|ts IH|n ms ts IH] using cty_ind'.
  - intros size out Hout. by apply safe_recv_scalar.
  - intros size out Hout. cbn [recv_impl]. eapply safe_bind.
    + apply (IH size (init_nullable out)). destruct out; [done|apply default_typed].
    + intros v Hv. by apply safe_return.
  - by apply safe_recv_array.
  - intros size out Hout. apply (safe_after_header (typed_members ts)). by apply safe_recv_members.
  - intros size out Hout. apply (safe_after_header (typed_members ts)). by apply safe_recv_members.
Qed.
End safety.

Module Safety.

(** C17: whatever bytes come from the database, of whatever announced type and
    size, receiving an object of any type into any object of the type gives an
    object of the type (its numbers in range, its arrays of their size) and leaves
    the rest of the input after the bytes it consumed, or throws one of the errors
    of the library; it never reads outside the input. *)
Theorem recv_gives_objects_of_the_type (native : endian) (tick : Z) (oids : oid_map) (t : cty)
    (bs : list byte) (oid size : Z) (out : den t) : typed t out ->
  match recv native tick oids t (IStream bs false) oid size out with
  | Return (v, i) => typed t v /\ unexpected_eof_ i = false /\ exists used, bs = used ++ rest i
  | Throw e => recv_error e = true
  end.
Proof.
  intros Hout. apply (safe_recv_with oids (recv_impl native tick oids t) (Some oid) size out
    (safe_recv_impl native tick oids t) Hout (IStream bs false) eq_refl).
Qed.

Lemma recv_gives_objects_of_the_type_witness :
  let bs := [x80; x00; x01] in
  recv little 1000 [] (Scalar sc_int2) (IStream bs false) 21 2 0 = Return (-32768, IStream [x01] false)
  /\ typed (Scalar sc_int2) (-32768).
Proof.
  intros bs. assert (E : recv little 1000 [] (Scalar sc_int2) (IStream bs false) 21 2 0
    = Return (-32768, IStream [x01] false)) by (vm_compute; reflexivity).
  split; [exact E|].
  pose proof (recv_gives_objects_of_the_type little 1000 [] (Scalar sc_int2) bs 21 2 0
    (default_typed (Scalar sc_int2))) as H. rewrite E in H. apply H.
Defined.
End Safety.
