(* ===== verification/Concepts.v ===== *)
(** * Concepts and the overloads they select: [core/concept.h], [io/type_traits.h],
      the dispatchers of [io/size_of.h], [io/send.h], [io/recv.h], [io/array.h] and
      [io/composite.h]

    The codec is a set of templates; which of them a call instantiates is decided by
    concepts, by overload resolution and by partial specialization.  [Codec] is
    written with the outcome of these decisions.  Here a C++ type is described by
    what the concepts ask of it, the concepts are functions on the descriptions, and
    the outcome is computed and compared with [Codec]. *)

From Stdlib Require Import Strings.Byte.
From S2P Require Import Prelude Words Time Errors PgTypes TypeSystem Stream Codec.
#[local] Open Scope Z_scope.

(** ** Overload resolution

    A candidate is viable with a rank, the worst conversion of its argument;
    of two candidates of one rank the one that is not a template is better. *)
Section resolution.
Context {O : Type} `{EqDecision O} (rank : O -> option nat) (is_template : O -> bool).

Definition better (a b : O) : bool :=
  match rank a, rank b with
  | Some i, Some j => (i <? j)%nat || ((i =? j)%nat && negb (is_template a) && is_template b)
  | _, _ => false
  end.

Definition viable (a : O) : bool := match rank a with Some _ => true | None => false end.

Definition best_of (os : list O) (a : O) : bool :=
  viable a && forallb (fun b => bool_decide (a = b) || negb (viable b) || better a b) os.

(** The best viable candidate; [None] when there is none or the call is ambiguous. *)
Definition resolve (os : list O) : option O := List.find (best_of os) os.

Lemma better_asym a b : better a b = true -> better b a = false.
Proof.
  unfold better. destruct (rank a) as [i|], (rank b) as [j|]; try done.
  destruct (Nat.ltb_spec i j), (Nat.ltb_spec j i), (Nat.eqb_spec i j), (Nat.eqb_spec j i);
    try done; try lia; by destruct (is_template a), (is_template b).
Qed.

Lemma best_of_spec os a : best_of os a = true <->
  viable a = true /\ forall b, b ∈ os -> viable b = true -> a = b \/ better a b = true.
Proof.
  unfold best_of. rewrite andb_true_iff, forallb_forall.
  split; intros [Hv Hb]; (split; [done|]); intros b Hin.
  - intros Hvb. apply list_elem_of_In in Hin. specialize (Hb b Hin). rewrite Hvb in Hb.
    case_bool_decide; [by left|right]. by destruct (better a b).
  - apply list_elem_of_In in Hin. destruct (viable b) eqn:Hvb; [|by rewrite orb_true_r].
    destruct (Hb b Hin Hvb) as [->| ->]; [by rewrite bool_decide_eq_true_2|by rewrite orb_true_r].
Qed.

Lemma resolve_Some os a :
  resolve os = Some a <-> a ∈ os /\ viable a = true
    /\ forall b, b ∈ os -> viable b = true -> a = b \/ better a b = true.
Proof.
  unfold resolve. rewrite <- best_of_spec. split.
  - intros [Hin Hb]%List.find_some. split; [by apply list_elem_of_In|done].
  - intros [Hin Hb]. destruct (List.find (best_of os) os) as [b|] eqn:E.
    + apply List.find_some in E as [Hin' Hb']. apply list_elem_of_In in Hin'. f_equal.
      apply best_of_spec in Hb as [Hva Hb], Hb' as [Hvb Hb'].
      destruct (Hb b Hin' Hvb) as [|Hab], (Hb' a Hin Hva) as [|Hba]; try done.
      apply better_asym in Hab. congruence.
    + apply list_elem_of_In in Hin. pose proof (List.find_none _ _ E a Hin) as Hn. congruence.
Qed.
End resolution.

(** ** C++ types as the concepts see them *)

(** [std::data(v) + std::size(v)] is well formed: the size of an element, and
    whether the pointer is to constant elements, always or when [v] is constant. *)
Record data_info := DataInfo { elem_size : nat; elem_const : bool; deep_const : bool }.

(** A class: what its members, the Boost adaptations of it and the specializations
    for it provide. *)
Record class_info := ClassInfo {
  class_size : nat;
  std_data : option data_info;
  adl_data : option data_info;
  has_resize : bool;
  converts_to_bool : bool;
  hana_sequence : bool;
  hana_struct : bool;
  fusion_sequence : bool;
  fusion_struct : bool;
  composite : bool
}.

Inductive cpp :=
| Bool
| Int (ty : int_type)
| Float (size : nat)
| Enum (scoped : bool) (ty : int_type)
| CArray (elem : cpp) (n : nat)
| Strong (base : cpp)
| Container (c : container) (elem : cpp)
| StdTuple (ms : list cpp)
| HanaTuple (ms : list cpp)
| HanaStruct (ms : list cpp)
| Class (c : class_info).

(** A class without any of these, and a few of the standard library. *)
Definition plain_class (size : nat) : class_info :=
  ClassInfo size None None false false false false false false false.
Definition data_class (size : nat) (d : data_info) (resize fusion : bool) : class_info :=
  ClassInfo size (Some d) None resize false false false fusion false false.
Definition std_string : class_info := data_class 32 (DataInfo 1 false true) true false.
Definition std_string_view : class_info := data_class 16 (DataInfo 1 true false) false false.

(** [sizeof], without the padding between members: what matters below is whether it
    is 1.  A vector and a list hold more than one pointer. *)
Fixpoint sizeof (c : cpp) : nat :=
  match c with
  | Bool => 1
  | Int ty | Enum _ ty => it_size ty
  | Float size => size
  | CArray e n | Container (c_array n) e => n * sizeof e
  | Strong b => sizeof b
  | Container _ _ => 24
  | StdTuple ms | HanaTuple ms | HanaStruct ms => Nat.max 1 (sum_list_with sizeof ms)
  | Class i => class_size i
  end.

(** What holds of a type, as if it were a class.  [std::tuple] is a
    sequence of both libraries, which adapt it, and a composite; [hana::tuple] is one of
    Hana only; [boost/fusion/adapted.hpp] adapts [std::array]. *)
Definition info (c : cpp) : class_info :=
  match c with
  | CArray e _ => data_class (sizeof c) (DataInfo (sizeof e) false true) false false
  | Container c_vector Bool | Container c_list _ =>
      ClassInfo (sizeof c) None None true false false false false false false
  | Container c_vector e => data_class (sizeof c) (DataInfo (sizeof e) false true) true false
  | Container (c_array _) e => data_class (sizeof c) (DataInfo (sizeof e) false true) false true
  | StdTuple _ => ClassInfo (sizeof c) None None false false true false true false true
  | HanaTuple _ => ClassInfo (sizeof c) None None false false true false false false false
  | HanaStruct _ => ClassInfo (sizeof c) None None false false false true false false false
  | Class i => i
  | _ => plain_class (sizeof c)
  end.

(** ** [core/concept.h] *)

(** A type with or without [const] at the top. *)
Record qualified := Qualified { is_const : bool; type_of : cpp }.
Definition add_const (q : qualified) : qualified := Qualified true (type_of q).

(** [std_size_data_compatible] and [adl_size_data_compatible] *)
Definition pointee_const (q : qualified) (d : data_info) : bool :=
  elem_const d || (is_const q && deep_const d).
Definition size_data_compatible (q : qualified) (d : option data_info) : bool :=
  match d with
  | Some d => negb (pointee_const q d) || is_const q
  | None => false
  end.
Definition std_size_data_compatible (q : qualified) : bool :=
  size_data_compatible q (std_data (info (type_of q))).
Definition adl_size_data_compatible (q : qualified) : bool :=
  size_data_compatible q (adl_data (info (type_of q))).

(** [sizeof_value_type<T>()] *)
Definition sizeof_value_type (q : qualified) : nat :=
  let size d := match d with Some d => elem_size d | None => 0%nat end in
  if std_size_data_compatible q then size (std_data (info (type_of q)))
  else if adl_size_data_compatible q then size (adl_data (info (type_of q)))
  else 0%nat.

Definition is_raw_data_writable (q : qualified) : bool :=
  negb (is_const q) && (sizeof_value_type q =? 1)%nat.
Definition is_raw_data_readable (q : qualified) : bool :=
  (sizeof_value_type (add_const q) =? 1)%nat.

(** [Integral], [FloatingPoint], [HanaSequence], [HanaStruct], [FusionSequence],
    [FusionAdaptedStruct]; all of them decay their argument. *)
Definition Integral (c : cpp) : bool := match c with Bool | Int _ => true | _ => false end.
Definition FloatingPoint (c : cpp) : bool := match c with Float _ => true | _ => false end.
Definition is_hana_sequence (c : cpp) : bool := hana_sequence (info c).
Definition is_hana_struct (c : cpp) : bool := hana_struct (info c).
Definition is_fusion_sequence (c : cpp) : bool := fusion_sequence (info c).
Definition is_fusion_struct (c : cpp) : bool := fusion_struct (info c).

(** [is_strong_typedef], [is_array] and [is_composite] *)
Definition StrongTypedef (c : cpp) : bool := match c with Strong _ => true | _ => false end.
Definition IsArray (c : cpp) : bool := match c with Container _ _ => true | _ => false end.
Definition Composite (c : cpp) : bool :=
  composite (info c) || is_hana_struct c || is_fusion_struct c.

(** [has_resize] *)
Definition Resizable (c : cpp) : bool := has_resize (info c).

(** ** The overloads of [ostream::write] and [istream::read] with one argument *)

Inductive write_overload :=
| w_byte | w_raw | w_int | w_float | w_bool | w_sequence | w_struct.
Inductive read_overload := r_raw | r_byte | r_int | r_float | r_bool | r_struct.
#[export] Instance write_overload_eq_dec : EqDecision write_overload.
Proof. solve_decision. Defined.
#[export] Instance read_overload_eq_dec : EqDecision read_overload.
Proof. solve_decision. Defined.

Definition write_overloads : list write_overload :=
  [w_byte; w_raw; w_int; w_float; w_bool; w_sequence; w_struct].
Definition read_overloads : list read_overload := [r_raw; r_byte; r_int; r_float; r_bool; r_struct].

(** The rank of the conversion to [bool]: identity, a standard conversion (from a
    number, an unscoped enumeration, or the pointer an array decays to) or one of the
    user, which for a strong typedef is the conversion to its base. *)
Definition rank_to_bool (c : cpp) : option nat :=
  match c with
  | Bool => Some 0%nat
  | Int _ | Float _ | Enum false _ | CArray _ _ => Some 2%nat
  | Strong b => match b with
                | Bool | Int _ | Float _ | Enum false _ | CArray _ _ => Some 3%nat
                | _ => None
                end
  | Class i => if converts_to_bool i then Some 3%nat else None
  | _ => None
  end.

(** An enabled template takes its argument as it is. *)
Definition require (b : bool) : option nat := if b then Some 0%nat else None.

Definition write_rank (c : cpp) (o : write_overload) : option nat :=
  match o with
  | w_byte => require (Integral c && (sizeof c =? 1)%nat)
  | w_raw => require (is_raw_data_readable (Qualified false c))
  | w_int => require (Integral c && negb (sizeof c =? 1)%nat)
  | w_float => require (FloatingPoint c)
  | w_bool => rank_to_bool c
  | w_sequence => require (is_hana_sequence c)
  | w_struct => require (is_hana_struct c)
  end.
Definition write_template (o : write_overload) : bool := match o with w_bool => false | _ => true end.

Definition read_rank (q : qualified) (o : read_overload) : option nat :=
  let c := type_of q in
  match o with
  | r_raw => require (is_raw_data_writable q)
  | r_byte => require (Integral c && (sizeof c =? 1)%nat)
  | r_int => require (Integral c && negb (sizeof c =? 1)%nat)
  | r_float => require (FloatingPoint c)
  | r_bool => match c with Bool => require (negb (is_const q)) | _ => None end
  | r_struct => require (is_hana_struct c)
  end.
Definition read_template (o : read_overload) : bool := match o with r_bool => false | _ => true end.

Definition write_resolved (c : cpp) : option write_overload :=
  resolve (write_rank c) write_template write_overloads.
Definition read_resolved (q : qualified) : option read_overload :=
  resolve (read_rank q) read_template read_overloads.

(** [Readable] and [Writable] of [io/type_traits.h] ask whether the free functions
    [write(ostream&, Ts&&...)] and [read(istream&, Ts&&...)] can be called; these take
    anything and say what they return, so their bodies are not looked at. *)
Definition free_function_rank (q : qualified) : option nat := Some 0%nat.
Definition Readable (q : qualified) : bool :=
  match resolve (fun _ : () => free_function_rank q) (fun _ => true) [()] with Some _ => true | None => false end.
Definition Writable : qualified -> bool := Readable.

(** ** What a call writes and reads *)

(** The objects of the types the streams take: numbers are their values, bit patterns
    or enumerators, raw data its bytes. *)
Fixpoint object (c : cpp) : Type :=
  match c with
  | Bool => bool
  | Int _ | Float _ | Enum _ _ => Z
  | StdTuple ms | HanaTuple ms | HanaStruct ms => foldr (fun m acc => (object m * acc)%type) unit ms
  | CArray _ _ | Container _ _ | Strong _ | Class _ => list byte
  end.
Definition objects (ms : list cpp) : Type := foldr (fun m acc => (object m * acc)%type) unit ms.

(** The conversion of an argument to [bool]: non-zero, or not null. *)
Definition to_bool (c : cpp) : object c -> option bool :=
  match c return object c -> option bool with
  | Bool => Some
  | Int _ | Float _ | Enum _ _ => fun v => Some (negb (v =? 0))
  | CArray _ _ => fun _ => Some true
  | _ => fun _ => None
  end.

Section calls.
Context (native : endian).

(** [write(buf.raw)] and [read(buf.raw)], and raw data of any type: the overload has to
    be the one for raw data. *)
Definition write_raw_data (c : cpp) (bytes : list byte) (out : ostream) : option ostream :=
  match write_resolved c with Some w_raw => Some (write_raw bytes out) | _ => None end.
Definition read_raw_data (c : cpp) (buf : list byte) (i : istream) : option (list byte * istream) :=
  match read_resolved (Qualified false c) with Some r_raw => Some (read_raw buf i) | _ => None end.

(** [write(in)] and [read(out)] of an integer. *)
Definition char_array (n : nat) : cpp := CArray (Int int8_t) n.
Definition write_integer (ty : int_type) (v : Z) (out : ostream) : option ostream :=
  match write_resolved (Int ty) with
  | Some w_byte => Some (put (byte_of_Z v) out)
  | Some w_int =>
      write_raw_data (char_array (it_size ty))
        (typed_buffer_raw native ty (it_wrap ty (convert_to_big_endian native ty v))) out
  | _ => None
  end.
Definition read_integer (ty : int_type) (i : istream) : option (Z * istream) :=
  match read_resolved (Qualified false (Int ty)) with
  | Some r_byte => let '(c, i) := get_char i in Some (it_wrap ty (byte_to_Z c), i)
  | Some r_int =>
      '(raw, i) ← read_raw_data (char_array (it_size ty)) (take (it_size ty) uninitialized) i;
      Some (it_wrap ty (convert_from_big_endian native ty (typed_buffer_typed native ty raw)), i)
  | _ => None
  end.

(** The overloads that do not go through members. *)
Definition write_leaf (o : write_overload) (c : cpp) : object c -> ostream -> option ostream :=
  match o with
  | w_byte | w_int =>
      match c return object c -> ostream -> option ostream with
      | Int ty => write_integer ty
      | _ => fun _ _ => None
      end
  | w_float =>
      match c return object c -> ostream -> option ostream with
      | Float size => fun v => write_integer (floating_point_integral size) (to_integral size v)
      | _ => fun _ _ => None
      end
  | w_bool => fun v out => b ← to_bool c v; write_integer int8_t (if (b : bool) then 1 else 0) out
  | w_raw =>
      match c return object c -> ostream -> option ostream with
      | CArray e n => write_raw_data (CArray e n)
      | Container k e => write_raw_data (Container k e)
      | Class i => write_raw_data (Class i)
      | _ => fun _ _ => None
      end
  | w_sequence | w_struct => fun _ _ => None
  end.
Definition read_leaf (o : read_overload) (c : cpp) : object c -> istream -> option (object c * istream) :=
  match o with
  | r_byte | r_int =>
      match c return object c -> istream -> option (object c * istream) with
      | Int ty => fun _ => read_integer ty
      | _ => fun _ _ => None
      end
  | r_float =>
      match c return object c -> istream -> option (object c * istream) with
      | Float size => fun _ i =>
          '(tmp, i) ← read_integer (floating_point_integral size) i; Some (to_floating_point size tmp, i)
      | _ => fun _ _ => None
      end
  | r_bool =>
      match c return object c -> istream -> option (object c * istream) with
      | Bool => fun _ i => '(tmp, i) ← read_integer int8_t i; Some (negb (tmp =? 0), i)
      | _ => fun _ _ => None
      end
  | r_raw =>
      match c return object c -> istream -> option (object c * istream) with
      | CArray e n => read_raw_data (CArray e n)
      | Container k e => read_raw_data (Container k e)
      | Class i => read_raw_data (Class i)
      | _ => fun _ _ => None
      end
  | r_struct => fun _ _ => None
  end.

(** [write(in)] and [read(out)] of an object; [None] when the call does not compile, or
    an object of a class is converted to [bool]. *)
Fixpoint write_object (c : cpp) : object c -> ostream -> option ostream :=
  let members := fix members ms : objects ms -> ostream -> option ostream :=
    match ms return objects ms -> ostream -> option ostream with
    | [] => fun _ out => Some out
    | m :: ms => fun v out => out ← write_object m v.1 out; members ms v.2 out
    end in
  match write_resolved c with
  | None => fun _ _ => None
  | Some o =>
      match c return object c -> ostream -> option ostream with
      | StdTuple ms | HanaTuple ms => members ms
      | HanaStruct ms => fun v out =>
          match write_resolved (HanaTuple ms) with Some w_sequence => members ms v out | _ => None end
      | c => write_leaf o c
      end
  end.

Fixpoint read_object (c : cpp) : object c -> istream -> option (object c * istream) :=
  let members := fix members ms : objects ms -> istream -> option (objects ms * istream) :=
    match ms return objects ms -> istream -> option (objects ms * istream) with
    | [] => fun _ i => Some (tt, i)
    | m :: ms => fun v i =>
        '(a, i) ← read_object m v.1 i; '(b, i) ← members ms v.2 i; Some ((a, b), i)
    end in
  match read_resolved (Qualified false c) with
  | None => fun _ _ => None
  | Some o =>
      match c return object c -> istream -> option (object c * istream) with
      | HanaStruct ms => members ms
      | c => read_leaf o c
      end
  end.

(** The members of a structure, one after the other. *)
Fixpoint write_members (ms : list cpp) : objects ms -> ostream -> option ostream :=
  match ms return objects ms -> ostream -> option ostream with
  | [] => fun _ out => Some out
  | m :: ms => fun v out => out ← write_object m v.1 out; write_members ms v.2 out
  end.
Fixpoint read_members (ms : list cpp) : objects ms -> istream -> option (objects ms * istream) :=
  match ms return objects ms -> istream -> option (objects ms * istream) with
  | [] => fun _ i => Some (tt, i)
  | m :: ms => fun v i =>
      '(a, i) ← read_object m v.1 i; '(b, i) ← read_members ms v.2 i; Some ((a, b), i)
  end.

Lemma struct_members ms v out i :
  write_object (HanaStruct ms) v out = write_members ms v out
  /\ read_object (HanaStruct ms) v i = read_members ms v i.
Proof. done. Qed.

(** ** Numbers *)

Lemma write_resolved_int ty :
  write_resolved (Int ty) = Some (if (it_size ty =? 1)%nat then w_byte else w_int).
Proof. destruct ty as [[|[|n]] sg]; reflexivity. Qed.

Lemma read_resolved_int ty :
  read_resolved (Qualified false (Int ty)) = Some (if (it_size ty =? 1)%nat then r_byte else r_int).
Proof. destruct ty as [[|[|n]] sg]; reflexivity. Qed.

(** Whatever the size of an integer, its byte buffer is raw data. *)
Lemma raw_char_array n :
  write_resolved (char_array n) = Some w_raw /\ read_resolved (Qualified false (char_array n)) = Some r_raw.
Proof. done. Qed.

Lemma write_integer_eq ty v out : write_integer ty v out = Some (write_int native ty v out).
Proof.
  unfold write_integer, write_int. rewrite write_resolved_int.
  destruct (Nat.eqb_spec (it_size ty) 1) as [E|E]; [by rewrite bool_decide_eq_true_2|].
  rewrite bool_decide_eq_false_2 by done. unfold write_raw_data. by rewrite (proj1 (raw_char_array _)).
Qed.

Lemma read_integer_eq ty i : read_integer ty i = Some (read_int native uninitialized ty i).
Proof.
  unfold read_integer, read_int. rewrite read_resolved_int.
  destruct (Nat.eqb_spec (it_size ty) 1) as [E|E].
  - rewrite bool_decide_eq_true_2 by done. by destruct (get_char i).
  - rewrite bool_decide_eq_false_2 by done. unfold read_raw_data.
    rewrite (proj2 (raw_char_array _)). by destruct (read_raw (take (it_size ty) uninitialized) i).
Qed.

(** Objects of the types the library streams. *)
Lemma write_number (v : Z) (b : bool) out :
  (forall ty, write_object (Int ty) v out = Some (write_int native ty v out))
  /\ (forall n, write_object (Float n) v out = Some (write_float native n v out))
  /\ write_object Bool b out = Some (write_bool native b out).
Proof.
  split_and!; [intros ty|intros n|]; cbn [write_object]; [rewrite write_resolved_int|..];
    [destruct (it_size ty =? 1)%nat|..]; apply write_integer_eq.
Qed.

Lemma read_number (v : Z) (b : bool) i :
  (forall ty, read_object (Int ty) v i = Some (read_int native uninitialized ty i))
  /\ (forall n, read_object (Float n) v i = Some (read_float native n i))
  /\ read_object Bool b i = Some (read_bool native i).
Proof.
  split_and!; [intros ty|intros n|]; cbn [read_object]; [rewrite read_resolved_int|..].
  - destruct (it_size ty =? 1)%nat; apply read_integer_eq.
  - change (read_resolved (Qualified false (Float n))) with (Some r_float). cbn [read_leaf].
    rewrite read_integer_eq. unfold read_float. cbn [mbind option_bind].
    by destruct (read_int native uninitialized _ i).
  - change (read_resolved (Qualified false Bool)) with (Some r_bool). cbn [read_leaf].
    rewrite read_integer_eq. unfold read_bool. cbn [mbind option_bind].
    by destruct (read_int native uninitialized _ i).
Qed.

(** ** Classes *)

(** A class is written by the one concept it models; one that models two of them is
    not written at all, one that models none is written as a [bool] if it converts. *)
Lemma write_resolved_class (i : class_info) :
  write_resolved (Class i)
  = match is_raw_data_readable (Qualified false (Class i)), hana_sequence i, hana_struct i with
    | true, false, false => Some w_raw
    | false, true, false => Some w_sequence
    | false, false, true => Some w_struct
    | false, false, false => if converts_to_bool i then Some w_bool else None
    | _, _, _ => None
    end.
Proof.
  unfold write_resolved, resolve, write_overloads, best_of, viable, better. cbn [write_rank rank_to_bool List.find forallb].
  unfold is_hana_sequence, is_hana_struct. cbn [info Integral FloatingPoint andb require].
  destruct (is_raw_data_readable _), (hana_sequence i), (hana_struct i), (converts_to_bool i); reflexivity.
Qed.

(** Received into by the one it models too; sequences are not received. *)
Lemma read_resolved_class (i : class_info) :
  read_resolved (Qualified false (Class i))
  = match is_raw_data_writable (Qualified false (Class i)), hana_struct i with
    | true, false => Some r_raw
    | false, true => Some r_struct
    | _, _ => None
    end.
Proof.
  unfold read_resolved, resolve, read_overloads, best_of, viable, better. cbn [read_rank type_of List.find forallb].
  unfold is_hana_struct. cbn [info Integral FloatingPoint andb require].
  destruct (is_raw_data_writable _), (hana_struct i); reflexivity.
Qed.

End calls.

(** ** The dispatchers *)

(** The implementation a dispatcher selects: one for arrays, one for composites (two
    when receiving), or the customization point [size_of_impl], [send_impl] or
    [recv_impl] of a type. *)
Inductive impl := for_array | for_composite | for_fusion_composite | for_hana_composite | impl_of (c : cpp).

(** The partial specializations that match; more than one is an error, none leaves the
    primary template. *)
Definition dispatch (specializations : list (option impl)) (c : cpp) : option impl :=
  match omap id specializations with
  | [] => Some (impl_of c)
  | [i] => Some i
  | _ => None
  end.
Definition when (b : bool) (i : impl) : option impl := if b then Some i else None.

Definition strong_base (c : cpp) : option impl :=
  match c with Strong b => Some (impl_of b) | _ => None end.
Definition size_of_impl_dispatcher (c : cpp) : option impl :=
  dispatch [strong_base c; when (IsArray c) for_array; when (Composite c) for_composite] c.
Definition send_impl_dispatcher (c : cpp) : option impl :=
  dispatch [strong_base c; when (IsArray c) for_array; when (Composite c) for_composite] c.
Definition recv_impl_dispatcher (c : cpp) : option impl :=
  dispatch [when (IsArray c) for_array;
            when (Composite c && is_fusion_sequence c) for_fusion_composite;
            when (Composite c && negb (is_fusion_sequence c)) for_hana_composite] c.

(** The overloads of [recv_row] *)
Inductive row_overload := row_single | row_sequence | row_fusion_struct | row_hana_struct.
#[export] Instance row_overload_eq_dec : EqDecision row_overload.
Proof. solve_decision. Defined.
Definition row_rank (c : cpp) (o : row_overload) : option nat :=
  let fs := is_fusion_sequence c in let fa := is_fusion_struct c in let hs := is_hana_struct c in
  require match o with
  | row_single => negb fs && negb fa && negb hs
  | row_sequence => fs && negb fa && negb hs
  | row_fusion_struct => fa && negb hs
  | row_hana_struct => hs
  end.
Definition recv_row_resolved (c : cpp) : option row_overload :=
  resolve (row_rank c) (fun _ => true) [row_single; row_sequence; row_fusion_struct; row_hana_struct].

(** Iterators: the category, and the [container_type] of insert iterators, if the type
    has one, with whether it is a class. *)
Inductive category := input_tag | output_tag | forward_tag | bidirectional_tag | random_access_tag.
Record iterator_type := Iterator { iterator_category : option category; container_type : option bool }.

(** [std::is_base_of<base, category>] *)
Definition derives (c base : category) : bool :=
  match base, c with
  | output_tag, output_tag | random_access_tag, random_access_tag => true
  | bidirectional_tag, (bidirectional_tag | random_access_tag) => true
  | forward_tag, (forward_tag | bidirectional_tag | random_access_tag) => true
  | input_tag, (input_tag | forward_tag | bidirectional_tag | random_access_tag) => true
  | _, _ => false
  end.
Definition has_category (base : category) (it : iterator_type) : bool :=
  match iterator_category it with Some c => derives c base | None => false end.

(** [is_output_iterator], [is_forward_iterator], [is_insert_iterator] *)
Definition OutputIterator : iterator_type -> bool := has_category output_tag.
Definition ForwardIterator : iterator_type -> bool := has_category forward_tag.
Definition InsertIterator (it : iterator_type) : bool :=
  OutputIterator it && match container_type it with Some is_class => is_class | None => false end.

(** What the rows of a result are received into: a result, through a reference wrapper,
    or through an iterator that is overwritten or that inserts. *)
Inductive destination := to_result | to_reference (d : destination) | to_iterator (it : iterator_type).
Inductive result_overload := result_forward | result_insert | result_move | result_reference.
#[export] Instance result_overload_eq_dec : EqDecision result_overload.
Proof. solve_decision. Defined.
Definition result_rank (d : destination) (o : result_overload) : option nat :=
  require match o, d with
  | result_forward, to_iterator it => ForwardIterator it
  | result_insert, to_iterator it => InsertIterator it
  | result_move, to_result => true
  | result_reference, to_reference _ => true
  | _, _ => false
  end.
Definition recv_result_resolved (d : destination) : option result_overload :=
  resolve (result_rank d) (fun _ => true) [result_forward; result_insert; result_move; result_reference].

(** No category is one of an output and of a forward iterator, so that the overloads of
    [recv_result] exclude each other; an output iterator without a container is not
    supported. *)
Lemma recv_result_one (it : iterator_type) :
  recv_result_resolved (to_iterator it)
  = if ForwardIterator it then Some result_forward
    else if InsertIterator it then Some result_insert else None.
Proof. destruct it as [[[]|] [[]|]]; reflexivity. Qed.

(** Exactly one overload of [recv_row] is enabled, whatever a type is adapted to. *)
Lemma recv_row_one (c : cpp) : is_Some (recv_row_resolved c).
Proof.
  unfold recv_row_resolved, resolve, best_of, viable, better, row_rank. cbn [List.find forallb].
  destruct (is_fusion_sequence c), (is_fusion_struct c), (is_hana_struct c); cbn; eexists; reflexivity.
Qed.

(** The types of the universe. *)
Definition scalar_cpp (s : scalar) : cpp :=
  match s with
  | sc_bool => Bool
  | sc_char => Int int8_t
  | sc_int2 => Int int16_t
  | sc_int4 => Int int32_t
  | sc_int8 => Int int64_t
  | sc_oid => Int uint32_t
  | sc_float4 => Float 4
  | sc_float8 => Float 8
  | sc_text => Class std_string
  | sc_bytea => Strong (Container c_vector (Int int8_t))
  | sc_json | sc_name => Strong (Class std_string)
  | sc_jsonb | sc_ltree => Class (plain_class 32)
  | sc_uuid => Class (plain_class 16)
  | sc_timestamp | sc_interval => Class (plain_class 8)
  end.
Fixpoint cpp_of (t : cty) : cpp :=
  match t with
  | Scalar s => scalar_cpp s
  | Nullable _ => Class (plain_class 16)
  | Array c e => Container c (cpp_of e)
  | Tuple ts => StdTuple (cpp_of <$> ts)
  | Struct _ _ ts => HanaStruct (cpp_of <$> ts)
  end.

(** The scalars [send_impl] and [recv_impl] are specialized for. *)
Definition specialized (s : scalar) : bool :=
  match s with sc_jsonb | sc_ltree | sc_uuid | sc_timestamp | sc_interval => true | _ => false end.

(** The object the default [send_impl] writes: of a strong typedef, its base. *)
Definition streamed (s : scalar) : cpp :=
  match scalar_cpp s with Strong b => b | c => c end.
Definition as_object (s : scalar) : sden s -> object (streamed s) :=
  match s return sden s -> object (streamed s) with
  | sc_bool => id | sc_char => id | sc_int2 => id | sc_int4 => id | sc_int8 => id | sc_oid => id
  | sc_float4 => id | sc_float8 => id | sc_text => id | sc_bytea => id | sc_json => id | sc_name => id
  | sc_uuid => id | sc_jsonb => id | sc_ltree => id
  | sc_timestamp | sc_interval => fun _ => []
  end.
Definition of_object (s : scalar) : object (streamed s) -> sden s :=
  match s return object (streamed s) -> sden s with
  | sc_bool => id | sc_char => id | sc_int2 => id | sc_int4 => id | sc_int8 => id | sc_oid => id
  | sc_float4 => id | sc_float8 => id | sc_text => id | sc_bytea => id | sc_json => id | sc_name => id
  | sc_uuid => id | sc_jsonb => id | sc_ltree => id
  | sc_timestamp | sc_interval => fun _ => 0
  end.

(** ** The codec, by the outcome of resolution *)
Section codec.
Context (native : endian) (tick : Z).

(** [send_impl<T>::apply], not specialized *)
Definition send_impl_default (s : scalar) (v : sden s) (out : ostream) : option ostream :=
  write_object native (streamed s) (as_object s v) out.

(** [real_out.resize(size)] *)
Definition resized (c : cpp) (size : Z) : object c -> option (may_throw (object c)) :=
  if Resizable c then
    match c return object c -> option (may_throw (object c)) with
    | Class _ | Container _ _ => fun v =>
        Some (if size <? 0 then Throw length_error else Return (resize (Z.to_nat size) x00 v))
    | _ => fun _ => None
    end
  else fun _ => None.

(** The free function [read(in, real_out)] *)
Definition read_out (s : scalar) (v : object (streamed s)) (i : istream) :
    option (may_throw (sden s * istream)) :=
  '(v, i) ← read_object native (streamed s) v i;
  Some (if unexpected_eof_ i then Throw (system_error unexpected_eof) else Return (of_object s v, i)).

(** [recv_impl<T>::apply], not specialized *)
Definition recv_impl_default (s : scalar) (i : istream) (size : Z) (out : sden s) :
    option (may_throw (sden s * istream)) :=
  if DynamicSize (Scalar s) then
    r ← resized (streamed s) size (as_object s out);
    match r with
    | Return v => read_out s v i
    | Throw e => Some (Throw e)
    end
  else if size =? size_of (Scalar s) out then read_out s (as_object s out) i
  else Some (Throw (system_error bad_object_size)).

(** The headers of arrays and composites and the interval, as Hana structures. *)
Definition pg_array : cpp := HanaStruct [Int int32_t; Int int32_t; Int uint32_t].
Definition pg_array_dimension : cpp := HanaStruct [Int int32_t; Int int32_t].
Definition pg_composite : cpp := HanaStruct [Int int32_t].
Definition pg_interval_layout : cpp := HanaStruct [Int int64_t; Int int32_t; Int int32_t].

(** What [Codec] does with a type that is not null. *)
Definition sent_by (t : cty) : impl :=
  match t with
  | Scalar s => impl_of (streamed s)
  | Array _ _ => for_array
  | Nullable _ => impl_of (cpp_of t)
  | Tuple _ | Struct _ _ _ => for_composite
  end.
Definition received_by (t : cty) : impl :=
  match t with
  | Scalar s => impl_of (scalar_cpp s)
  | Array _ _ => for_array
  | Nullable _ => impl_of (cpp_of t)
  | Tuple _ => for_fusion_composite
  | Struct _ _ _ => for_hana_composite
  end.

Lemma dispatched t :
  size_of_impl_dispatcher (cpp_of t) = Some (sent_by t)
  /\ send_impl_dispatcher (cpp_of t) = Some (sent_by t)
  /\ recv_impl_dispatcher (cpp_of t) = Some (received_by t).
Proof. destruct t as [[]|t|c t|ts|n ms ts]; split_and!; try reflexivity;
  destruct c; try reflexivity; simpl; by destruct (cpp_of t).
Qed.

Lemma send_default s v out : specialized s = false ->
  send_impl_default s v out = Some (send_scalar native tick s v out).
Proof.
  intros Hs. destruct s; try done; unfold send_impl_default; cbn -[write_integer write_int];
    rewrite ?write_integer_eq; reflexivity.
Qed.

(** Once the overload is known. *)
Lemma read_out_eq s v i r : read_object native (streamed s) v i = Some r ->
  read_out s v i
  = Some (let '(a, i) := r in
          if unexpected_eof_ i then Throw (system_error unexpected_eof) else Return (of_object s a, i)).
Proof. intros E. unfold read_out. rewrite E. by destruct r. Qed.

Lemma recv_default s i size out : specialized s = false ->
  recv_impl_default s i size out = Some (recv_scalar native tick s i size out).
Proof.
  intros Hs. unfold recv_impl_default.
  destruct s; try done;
    lazymatch goal with |- context [DynamicSize ?t] =>
      let b := eval vm_compute in (DynamicSize t) in change (DynamicSize t) with b end; cbv iota;
    cbn [recv_scalar]; unfold recv_static, recv_dynamic.
  1-8: destruct (_ =? _); [|done].
  1-8: erewrite read_out_eq by (first [ apply (proj1 (read_number native _ false i))
         | apply (proj1 (proj2 (read_number native _ false i)))
         | apply (proj2 (proj2 (read_number native 0 _ i))) ]); reflexivity.
  all: change (resized (streamed _) size (as_object _ out)) with
    (Some (if size <? 0 then Throw length_error else Return (resize (Z.to_nat size) x00 out))
      : option (may_throw (list byte))); cbn [mbind option_bind]; destruct (size <? 0); [done|].
  all: lazymatch goal with |- read_out ?s ?v ?i = _ => exact (read_out_eq s v i (read_raw v i) eq_refl) end.
Qed.

(** Structures of integers are written and read member by member. *)
Lemma headers_streamed (a b c : Z) out i :
  write_object native pg_array (a, (b, (c, tt))) out = Some (w_put (pg_array_wire native) (a, (b, c)) out)
  /\ write_object native pg_array_dimension (a, (b, tt)) out
     = Some (w_put (pg_array_dimension_wire native) (a, b) out)
  /\ write_object native pg_composite (a, tt) out = Some (w_put (pg_composite_wire native) a out)
  /\ write_object native pg_interval_layout (a, (b, (c, tt))) out
     = Some (w_put (pg_interval_wire native) (a, (b, c)) out)
  /\ read_object native pg_array (a, (b, (c, tt))) i
     = (let '(v, i) := w_get (pg_array_wire native) i in Some ((v.1, (v.2.1, (v.2.2, tt))), i))
  /\ read_object native pg_composite (a, tt) i
     = (let '(v, i) := w_get (pg_composite_wire native) i in Some ((v, tt), i)).
Proof.
  assert (W : forall ty v out, write_object native (Int ty) v out = Some (write_int native ty v out))
    by (intros; apply (write_number native v false)).
  assert (R : forall ty v i, read_object native (Int ty) v i = Some (read_int native uninitialized ty i))
    by (intros; apply (read_number native v false)).
  unfold pg_array, pg_array_dimension, pg_composite, pg_interval_layout.
  rewrite !(proj1 (struct_members native _ _ _ i)), !(proj2 (struct_members native _ _ out _)).
  split_and!; cbn [write_members read_members fst snd]; rewrite ?W, ?R; cbn [mbind option_bind];
    rewrite ?W, ?R; cbn [mbind option_bind]; rewrite ?W, ?R; [reflexivity..| |].
  - cbn [w_get pg_array_wire pair_wire int_wire]. cbn [mbind option_bind].
    destruct (read_int native uninitialized int32_t i) as [x i1]. rewrite R. cbn [mbind option_bind].
    destruct (read_int native uninitialized int32_t i1) as [y i2]. rewrite R. cbn [mbind option_bind].
    by destruct (read_int native uninitialized uint32_t i2) as [z i3].
  - cbn [w_get pg_composite_wire int_wire mbind option_bind].
    by destruct (read_int native uninitialized int32_t i) as [x i1].
Qed.

(** C18: the templates of the codec are instantiated as [Codec] has them.  For
    every type of the universe exactly one partial specialization of each dispatcher
    matches, or none and the customization point of the type is used: arrays and
    composites have theirs, a strong typedef is sent as its base; one overload of
    [recv_row] is enabled.  Where the default implementation is used, the overloads of
    the streams that are resolved write and read what [send_scalar] and [recv_scalar]
    say, short input and wrong sizes included; the headers of arrays and composites
    are written and read member by member. *)
Theorem codec_uses_resolved_overloads :
  (forall t, size_of_impl_dispatcher (cpp_of t) = Some (sent_by t)
     /\ send_impl_dispatcher (cpp_of t) = Some (sent_by t)
     /\ recv_impl_dispatcher (cpp_of t) = Some (received_by t)
     /\ is_Some (recv_row_resolved (cpp_of t)))
  /\ (forall s v out, specialized s = false ->
        send_impl_default s v out = Some (send_scalar native tick s v out))
  /\ (forall s i size out, specialized s = false ->
        recv_impl_default s i size out = Some (recv_scalar native tick s i size out))
  /\ (forall a b c out i,
        write_object native pg_array (a, (b, (c, tt))) out
          = Some (w_put (pg_array_wire native) (a, (b, c)) out)
        /\ read_object native pg_array (a, (b, (c, tt))) i
          = (let '(v, i) := w_get (pg_array_wire native) i in Some ((v.1, (v.2.1, (v.2.2, tt))), i))
        /\ write_object native pg_composite (a, tt) out = Some (w_put (pg_composite_wire native) a out)
        /\ read_object native pg_composite (a, tt) i
          = (let '(v, i) := w_get (pg_composite_wire native) i in Some ((v, tt), i))).
Proof.
  split_and!; [|exact send_default|exact recv_default|].
  - intros t. destruct (dispatched t) as (H1 & H2 & H3). do 3 (split; [done|]). apply recv_row_one.
  - intros a b c out i. by destruct (headers_streamed a b c out i) as (H1 & _ & H2 & _ & H3 & H4).
Qed.

(** ** Where the outcome is not what the code means *)

(** An object of an unscoped enumeration bound to a PostgreSQL type, of the size
    [OZO_PG_BIND_TYPE] checks, is converted to [bool]: one byte, zero or one, is written
    whatever the size of the enumeration.  A scoped enumeration is not written. *)
Theorem unscoped_enumeration_is_written_as_bool (ty : int_type) (v : Z) (out : ostream) :
  write_object native (Enum false ty) v out = Some (out ++ [byte_of_Z (if v =? 0 then 0 else 1)])
  /\ write_object native (Enum true ty) v out = None.
Proof.
  split; [|done]. change (write_object native (Enum false ty) v out)
    with (write_integer native int8_t (if negb (v =? 0) then 1 else 0) out).
  rewrite write_integer_eq. by destruct (v =? 0).
Qed.

(** [Readable] and [Writable] reject nothing, so that the static assertions of
    [send_impl] and [recv_impl] hold for a class no overload takes. *)
Theorem readable_rejects_nothing :
  (forall q, Readable q = true /\ Writable q = true)
  /\ write_resolved (Class (plain_class 8)) = None
  /\ read_resolved (Qualified false (Class (plain_class 8))) = None.
Proof. done. Qed.
End codec.

(** The members of a composite, in the order of its Hana and of its Fusion adaptation:
    [for_each_member] sends by Hana if it can, [recv_impl_dispatcher] receives by Fusion
    if it can. *)
Section orders.
Context {M : Type} (by_hana by_fusion : list M).

Definition sent_order (c : cpp) : list M := if is_hana_struct c then by_hana else by_fusion.
Definition received_order (c : cpp) : option (list M) :=
  match recv_impl_dispatcher c with
  | Some for_fusion_composite => Some by_fusion
  | Some for_hana_composite => Some by_hana
  | _ => None
  end.

(** A composite adapted to one library is received in the order it was sent, one
    adapted to both is sent in the order of one and received in the order of the
    other. *)
Theorem composite_adapted_twice_is_received_in_other_order (i : class_info) :
  Composite (Class i) = true -> (composite i || fusion_struct i = true -> fusion_sequence i = true) ->
  sent_order (Class i) = (if hana_struct i then by_hana else by_fusion)
  /\ received_order (Class i)
     = Some (if hana_struct i && fusion_sequence i then by_fusion else sent_order (Class i)).
Proof.
  unfold received_order, recv_impl_dispatcher, sent_order, Composite, is_hana_struct, is_fusion_struct,
    is_fusion_sequence. cbn [info IsArray].
  destruct (composite i), (hana_struct i), (fusion_struct i), (fusion_sequence i); cbn;
    intros Hc Hf; try (specialize (Hf eq_refl)); done.
Qed.
End orders.

(** A 4 byte integer, a text and the header of an array on a little-endian host. *)
Lemma codec_uses_resolved_overloads_witness :
  send_impl_default little sc_int4 258 [] = Some [x00; x00; x01; x02]
  /\ recv_impl_default little sc_text (IStream [x61; x62; x63] false) 2 []
     = Some (Return ([x61; x62], IStream [x63] false))
  /\ write_object little pg_array (1, (0, (23, tt))) []
     = Some [x00; x00; x00; x01; x00; x00; x00; x00; x00; x00; x00; x17].
Proof.
  destruct (codec_uses_resolved_overloads little 1000) as (_ & Hs & Hr & Hh). split_and!.
  - rewrite (Hs sc_int4 258 [] eq_refl). reflexivity.
  - rewrite (Hr sc_text (IStream [x61; x62; x63] false) 2 [] eq_refl). reflexivity.
  - destruct (Hh 1 0 23 [] (IStream [] false)) as (-> & _). reflexivity.
Defined.
