(* ===== verification/Query.v ===== *)
(** * Queries: [query.h], [impl/query.h], [query_builder.h], [io/binary_query.h]

    A query is its text and parameters; the builder numbers the placeholders;
    [binary_query] lays the parameters out in one buffer and hands libpq an
    array of pointers into it, which are offsets here ([None] is [nullptr]). *)

From Stdlib Require Import Strings.Byte Strings.Ascii.
From stdpp Require Import pretty.
From S2P Require Import Prelude Words Time Errors PgTypes TypeSystem Stream Codec CodecSize.
Import PgTypes.
#[local] Open Scope string_scope.
#[local] Open Scope list_scope.
#[local] Open Scope Z_scope.

(** A query parameter: an object with its C++ type. *)
Record param := Param { p_type : cty; p_value : den p_type }.

(** [impl::query] *)
Record query := make_query { get_query_text : string; get_query_params : list param }.

(** ** [query_builder.h] *)

(** [digit_to_string]: ['0' + value] *)
Definition digit_to_string (value : N) : string := String (ascii_of_N (48 + value)) "".

(** [to_string] with [to_string_head]; [None] when the fuel runs out. *)
Fixpoint to_string_loop (fuel : nat) (value : N) : option string :=
  match fuel with
  | O => None
  | S fuel =>
      let divident := (value mod 10)%N in
      let head := ((value - divident) / 10)%N in
      h ← (if (head =? 0)%N then Some "" else to_string_loop fuel head);
      Some (h +:+ digit_to_string divident)
  end.

(** Every step divides the value by ten, so it is its own fuel. *)
Definition to_string (value : N) : option string := to_string_loop (S (N.to_nat value)) value.

(** [query_element<ValueT, TagT>]: a piece of text or a parameter. *)
Inductive query_element := query_text (value : string) | query_param (value : param).

(** [query_builder<ElementsT>] *)
Definition query_builder := list query_element.

(** The accumulator of [text()]: [nothing_t] until there is text. *)
Inductive text_acc := nothing | text_of (s : string).

(** One step of the fold of [text()]; [None] where no overload exists: a
    parameter before any text. *)
Definition text_step (r : option (N * text_acc)) (e : query_element) : option (N * text_acc) :=
  '(n, acc) ← r;
  match e, acc with
  | query_text s, nothing => Some (n, text_of s)
  | query_text s, text_of t => Some (n, text_of (t +:+ s))
  | query_param _, nothing => None
  | query_param _, text_of t => d ← to_string n; Some ((n + 1)%N, text_of (t +:+ "$" +:+ d))
  end.

(** [text()] *)
Definition builder_text (b : query_builder) : option string :=
  '(_, acc) ← foldl text_step (Some (1%N, nothing)) b;
  match acc with
  | text_of s => Some s
  | nothing => None
  end.

(** [params()] *)
Definition builder_params (b : query_builder) : list param :=
  foldl (fun r e => match e with
                    | query_text _ => r
                    | query_param v => r ++ [v]
                    end) [] b.

(** [build()] *)
Definition build (b : query_builder) : option query :=
  t ← builder_text b; Some (make_query t (builder_params b)).

(** [operator +] of builders, elements and values. *)
Definition concat_builders (lhs rhs : query_builder) : query_builder := lhs ++ rhs.
Definition append_element (b : query_builder) (e : query_element) : query_builder := b ++ [e].
Definition prepend_element (e : query_element) (b : query_builder) : query_builder := e :: b.
Definition append_value (b : query_builder) (v : param) : query_builder :=
  append_element b (query_param v).
Definition SQL (text : string) : query_builder := [query_text text].

(** ** [binary_query] *)

Definition binary_format : Z := 1.

Record binary_query := BinaryQuery {
  text_ : string;
  buffer_ : list byte;
  types_ : list Z;
  formats_ : list Z;
  lengths_ : list Z;
  values_ : list (option Z)
}.

(** [values_[i] = lengths_[i] ? std::data(buffer_) + offset : nullptr;
    offset += lengths_[i];] *)
Fixpoint value_pointers (offset : Z) (lengths : list Z) : list (option Z) :=
  match lengths with
  | [] => []
  | l :: ls => (if l =? 0 then None else Some offset) :: value_pointers (offset + l) ls
  end.

Definition params_count (q : binary_query) : nat := length (types_ q).

Section binary_query.
Context (native : endian) (tick : Z) (oids : oid_map).

(** The constructor of [impl_type]; [reserve] of a negative number of bytes
    throws. *)
Definition make_binary_query (text : string) (params : list param) : may_throw binary_query :=
  let lengths := (fun p => Z.max 0 (size_of (p_type p) (p_value p))) <$> params in
  let types := (fun p => type_oid oids (p_type p)) <$> params in
  let reserved := foldr (fun x r => it_wrap int32_t (x + r)) 0 lengths in
  if reserved <? 0 then Throw length_error else
  let buffer := foldl (fun os p => send native tick oids (p_type p) (p_value p) os) [] params in
  Return (BinaryQuery text buffer types (replicate (length params) binary_format) lengths
            (value_pointers 0 lengths)).

(** [to_binary_query(query, oid_map)] *)
Definition to_binary_query (q : query) : may_throw binary_query :=
  make_binary_query (get_query_text q) (get_query_params q).

End binary_query.

(** What libpq reads for parameter [i]: a null pointer is an SQL NULL,
    otherwise [lengths_[i]] bytes from the pointer; [None] is out of range. *)
Definition libpq_param (q : binary_query) (i : nat) : option (option (list byte)) :=
  p ← values_ q !! i;
  l ← lengths_ q !! i;
  match p with
  | None => Some None
  | Some o => if o + l <=? Z.of_nat (length (buffer_ q))
              then Some (Some (take (Z.to_nat l) (drop (Z.to_nat o) (buffer_ q))))
              else None
  end.

(** ** Numbering of the placeholders *)

Lemma digit_to_string_pretty (d : N) : (d < 10)%N -> digit_to_string d = String (pretty_N_char d) "".
Proof.
  intros H. unfold digit_to_string. f_equal.
  assert (forallb (fun n => bool_decide (ascii_of_N (48 + N.of_nat n) = pretty_N_char (N.of_nat n)))
            (seq 0 10) = true) as Hall by (vm_compute; reflexivity).
  rewrite forallb_forall in Hall. specialize (Hall (N.to_nat d)).
  rewrite bool_decide_eq_true, N2Nat.id in Hall. apply Hall. apply in_seq. lia.
Qed.

Lemma string_app_assoc (a b c : string) : (a +:+ b) +:+ c = a +:+ (b +:+ c).
Proof.
  induction a as [|ch a IH]; [done|].
  change (String ch ((a +:+ b) +:+ c) = String ch (a +:+ (b +:+ c))). by rewrite IH.
Qed.

Lemma string_app_nil_r (a : string) : a +:+ "" = a.
Proof.
  induction a as [|ch a IH]; [done|]. change (String ch (a +:+ "") = String ch a). by rewrite IH.
Qed.

Lemma to_string_loop_go fuel value s : (0 < value)%N -> (N.to_nat value < fuel)%nat ->
  exists t, to_string_loop fuel value = Some t /\ t +:+ s = pretty_N_go value s.
Proof.
  revert value s. induction fuel as [|fuel IH]; intros value s Hv Hf; [lia|].
  cbn [to_string_loop]. rewrite pretty_N_go_step by done.
  pose proof (N.div_mod value 10 ltac:(done)) as Hdm. pose proof (N.mod_lt value 10 ltac:(done)) as Hm.
  assert (((value - value mod 10) / 10)%N = (value / 10)%N) as ->.
  { replace (value - value mod 10)%N with (value / 10 * 10)%N by lia. by rewrite N.div_mul. }
  destruct (N.eqb_spec (value / 10) 0) as [Hz|Hz].
  - eexists. split; [done|]. rewrite Hz, pretty_N_go_0, digit_to_string_pretty by done. done.
  - assert (value / 10 < value)%N by (by apply N.div_lt).
    destruct (IH (value / 10)%N (String (pretty_N_char (value mod 10)) s)) as (t & -> & Ht); [lia|lia|].
    eexists. split; [done|]. rewrite digit_to_string_pretty, string_app_assoc by done. exact Ht.
Qed.

(** The compile-time conversion is decimal notation. *)
Lemma to_string_pretty value : to_string value = Some (pretty value).
Proof.
  unfold to_string, pretty, pretty_N. destruct (decide (value = 0%N)) as [->|Hne]; [done|].
  destruct (to_string_loop_go (S (N.to_nat value)) value "") as (t & -> & Ht); [lia|lia|].
  by rewrite <- Ht, string_app_nil_r.
Qed.

(** The text with the placeholders numbered from [n]. *)
Fixpoint render (n : N) (b : query_builder) : string :=
  match b with
  | [] => ""
  | query_text s :: b => s +:+ render n b
  | query_param _ :: b => "$" +:+ pretty n +:+ render (n + 1) b
  end.

Definition starts_with_text (b : query_builder) : Prop :=
  match b with query_text _ :: _ => True | _ => False end.

Lemma text_fold n t b : exists n', foldl text_step (Some (n, text_of t)) b
  = Some (n', text_of (t +:+ render n b)).
Proof.
  revert n t. induction b as [|[s|p] b IH]; intros n t.
  - exists n. simpl. by rewrite string_app_nil_r.
  - destruct (IH n (t +:+ s)) as [n' H]. exists n'. cbn [foldl text_step mbind option_bind] in *.
    rewrite H. cbn [render]. by rewrite string_app_assoc.
  - destruct (IH (n + 1)%N (t +:+ "$" +:+ pretty n)) as [n' H]. exists n'.
    cbn [foldl text_step mbind option_bind]. rewrite to_string_pretty. cbn [mbind option_bind].
    rewrite H. cbn [render]. by rewrite !string_app_assoc.
Qed.

Lemma builder_text_render b : starts_with_text b -> builder_text b = Some (render 1 b).
Proof.
  destruct b as [|[s|p] b]; try done. intros _. unfold builder_text.
  cbn [foldl text_step mbind option_bind]. destruct (text_fold 1 s b) as [n' ->]. done.
Qed.

(** The parameters among the elements. *)
Definition params_of (b : query_builder) : list param :=
  omap (fun e => match e with query_text _ => None | query_param v => Some v end) b.

Lemma builder_params_of b : builder_params b = params_of b.
Proof.
  unfold builder_params. change (params_of b) with ([] ++ params_of b).
  pose (r0 := @nil param). change (@nil param) with r0 at 2 3. generalize r0 as r. clear r0.
  induction b as [|[s|p] b IH]; intros r; cbn [foldl]; [by rewrite app_nil_r|by rewrite IH|].
  rewrite IH. change (params_of (query_param p :: b)) with (p :: params_of b). by rewrite <- app_assoc.
Qed.

Lemma render_app n b1 b2 :
  render n (b1 ++ b2) = render n b1 +:+ render (n + N.of_nat (length (params_of b1))) b2.
Proof.
  revert n. induction b1 as [|[s|p] b1 IH]; intros n; cbn [app render].
  - simpl. by rewrite N.add_0_r.
  - rewrite IH. change (params_of (query_text s :: b1)) with (params_of b1). by rewrite string_app_assoc.
  - rewrite IH. change (params_of (query_param p :: b1)) with (p :: params_of b1). cbn [length].
    rewrite !string_app_assoc. do 4 f_equal. lia.
Qed.

Module Builder.

(** A builder that starts with text builds a query; the parameter
    appended as the k-th one is written as the placeholder "$k" in decimal,
    the text around it is kept, and it is the k-th of the query's parameters;
    so concatenating builders renumbers the placeholders of the right one by
    the number of parameters of the left one. *)
Theorem build_numbers_placeholders (b : query_builder) (v : param) (rest : query_builder)
    (Hb : starts_with_text b) :
  build (concat_builders (append_value b v) rest)
  = Some (make_query
      (render 1 b +:+ "$" +:+ pretty (N.of_nat (length (builder_params b)) + 1)%N
       +:+ render (N.of_nat (length (builder_params b)) + 2) rest)
      (builder_params b ++ v :: builder_params rest)).
Proof.
  unfold build, concat_builders, append_value, append_element.
  rewrite builder_text_render by (by destruct b as [|[]]).
  rewrite !builder_params_of. cbn [mbind option_bind]. f_equal. f_equal.
  - rewrite <- app_assoc, render_app. cbn [app render]. do 3 f_equal; [f_equal; lia|f_equal; lia].
  - unfold params_of. rewrite !omap_app. cbn [omap list_omap]. by rewrite <- app_assoc.
Qed.

End Builder.

(** ** The layout of the buffer *)

Section layout.
Context (native : endian) (tick : Z) (oids : oid_map).

Abbreviation bytes_of := (bytes_of native tick oids).
Definition param_bytes (p : param) : list byte := bytes_of (p_type p) (p_value p).
Definition regular_param (p : param) : Prop := regular (p_type p) (p_value p).

Lemma param_length p : regular_param p -> len (param_bytes p) <= size_max ->
  Z.max 0 (size_of (p_type p) (p_value p)) = len (param_bytes p).
Proof.
  intros Hr Hl. rewrite Z.max_comm. apply max_size_len; [|done]. by apply size_of_spec.
Qed.

Lemma buffer_concat params out :
  foldl (fun os p => send native tick oids (p_type p) (p_value p) os) out params
  = out ++ concat (param_bytes <$> params).
Proof.
  revert out. induction params as [|p params IH]; intros out; cbn [foldl]; [by rewrite app_nil_r|].
  rewrite IH, send_appends, fmap_cons. cbn [concat]. by rewrite <- app_assoc.
Qed.

Lemma reserved_exact (ls : list Z) : Forall (fun l => 0 <= l) ls -> zsum ls <= size_max ->
  foldr (fun x r => it_wrap int32_t (x + r)) 0 ls = zsum ls.
Proof.
  induction 1 as [|l ls Hl Hls IH]; intros Hs; [done|]. rewrite zsum_cons in *.
  pose proof (zsum_nonneg ls Hls). cbn [foldr]. rewrite IH by lia. apply to_size_type_id. lia.
Qed.

Lemma value_pointers_lookup offset ls i l : ls !! i = Some l ->
  value_pointers offset ls !! i
  = Some (if l =? 0 then None else Some (offset + zsum (take i ls))).
Proof.
  revert offset i. induction ls as [|x ls IH]; intros offset i H; [done|].
  destruct i as [|i]; cbn [value_pointers lookup list_lookup take] in *.
  - injection H as ->. by rewrite Z.add_0_r.
  - rewrite (IH _ _ H), zsum_cons. by rewrite Z.add_assoc.
Qed.

Lemma lengths_exact params : Forall regular_param params ->
  len (concat (param_bytes <$> params)) <= size_max ->
  ((fun p => Z.max 0 (size_of (p_type p) (p_value p))) <$> params)
  = ((fun p => len (param_bytes p)) <$> params).
Proof.
  induction 1 as [|p params Hp _ IH]; intros Hl; [done|]. rewrite !fmap_cons in *. cbn [concat] in Hl.
  unfold len in Hl. rewrite length_app in Hl. unfold len. rewrite param_length by (done || unfold len; lia).
  f_equal. apply IH. unfold len. lia.
Qed.

Lemma make_binary_query_eq text params : Forall regular_param params ->
  len (concat (param_bytes <$> params)) <= size_max ->
  make_binary_query native tick oids text params
  = Return (BinaryQuery text (concat (param_bytes <$> params))
      ((fun p => type_oid oids (p_type p)) <$> params) (replicate (length params) binary_format)
      ((fun p => len (param_bytes p)) <$> params)
      (value_pointers 0 ((fun p => len (param_bytes p)) <$> params))).
Proof.
  intros Hr Hl. unfold make_binary_query. rewrite lengths_exact, buffer_concat by done.
  rewrite reserved_exact.
  - rewrite (proj2 (Z.ltb_ge _ _)); [done|]. apply zsum_nonneg, Forall_fmap, Forall_true.
    intros p. unfold len. simpl. lia.
  - apply Forall_fmap, Forall_true. intros p. unfold len. simpl. lia.
  - unfold len in *. by rewrite zsum_length in Hl.
Qed.

Lemma concat_slice (f : param -> list byte) params i p : params !! i = Some p ->
  take (length (f p)) (drop (length (concat (f <$> take i params))) (concat (f <$> params))) = f p
  /\ (length (concat (f <$> take i params)) + length (f p) <= length (concat (f <$> params)))%nat.
Proof.
  intros H. rewrite <- (take_drop_middle params i p H) at 2 4.
  rewrite fmap_app, fmap_cons, concat_app. cbn [concat].
  rewrite drop_app_length, take_app_length. split; [done|].
  rewrite !length_app. lia.
Qed.

(** What libpq reads for a parameter: its bytes, or a null where there are none. *)
Lemma libpq_reads text types formats params i p : params !! i = Some p ->
  libpq_param (BinaryQuery text (concat (param_bytes <$> params)) types formats
      ((fun p => len (param_bytes p)) <$> params)
      (value_pointers 0 ((fun p => len (param_bytes p)) <$> params))) i
  = Some (match param_bytes p with [] => None | bs => Some bs end).
Proof.
  intros Hp. unfold libpq_param. simpl.
  assert (((fun p => len (param_bytes p)) <$> params) !! i = Some (len (param_bytes p))) as Hl
    by (by rewrite list_lookup_fmap, Hp).
  rewrite (value_pointers_lookup _ _ _ _ Hl), Hl. cbn [mbind option_bind].
  destruct (concat_slice param_bytes params i p Hp) as [Hsl Hin].
  assert (zsum (take i ((fun p => len (param_bytes p)) <$> params))
          = len (concat (param_bytes <$> take i params))) as Hoff.
  { unfold len. by rewrite zsum_length, fmap_take. }
  destruct (Z.eqb_spec (len (param_bytes p)) 0) as [Hz|Hz].
  - unfold len in Hz. by destruct (param_bytes p).
  - rewrite Hoff, Z.add_0_l. unfold len in *. rewrite (proj2 (Z.leb_le _ _)) by lia.
    rewrite !Nat2Z.id, Hsl. by destruct (param_bytes p).
Qed.

End layout.

Module Binary.

(** C14: for regular parameters (no array of them mixes nulls and values of an item
    type of static size) whose encodings together fit into [size_type], the
    construction succeeds with one oid, one (binary) format, one length and one pointer
    per parameter; libpq reads for each parameter exactly the bytes [send] wrote for
    it, inside the buffer; a parameter with no bytes, a null or a value whose encoding
    is empty, is handed over with a null pointer, as an SQL NULL; and the space
    reserved is exactly the space used. *)
Theorem binary_query_layout (native : endian) (tick : Z) (oids : oid_map) (text : string)
    (params : list param) (Hr : Forall regular_param params)
    (Hfits : len (concat (param_bytes native tick oids <$> params)) <= size_max) :
  exists q, make_binary_query native tick oids text params = Return q
    /\ text_ q = text
    /\ types_ q = ((fun p => type_oid oids (p_type p)) <$> params)
    /\ formats_ q = replicate (length params) binary_format
    /\ length (lengths_ q) = params_count q /\ length (values_ q) = params_count q
    /\ zsum (lengths_ q) = Z.of_nat (length (buffer_ q))
    /\ forall i p, params !! i = Some p ->
         libpq_param q i = Some (match send native tick oids (p_type p) (p_value p) [] with
                                 | [] => None
                                 | bs => Some bs
                                 end).
Proof.
  eexists. split; [by apply make_binary_query_eq|]. unfold params_count. simpl.
  assert (forall o l, length (value_pointers o l) = length l) as Hvp.
  { intros o l. revert o. induction l; intros o; simpl; congruence. }
  rewrite Hvp, !length_fmap. split_and!; try done.
  { unfold len. by rewrite zsum_length. }
  intros i p Hp. by apply libpq_reads.
Qed.

Lemma binary_query_layout_witness :
  exists q, make_binary_query little 1000 [] "SELECT $1, $2"
      [Param (Scalar sc_int4) 42; Param (Nullable (Scalar sc_text)) None] = Return q
    /\ libpq_param q 0 = Some (Some [x00; x00; x00; x2a]) /\ libpq_param q 1 = Some None.
Proof.
  destruct (binary_query_layout little 1000 [] "SELECT $1, $2"
      [Param (Scalar sc_int4) 42; Param (Nullable (Scalar sc_text)) None])
    as (q & Hq & _ & _ & _ & _ & _ & _ & H).
  - repeat constructor.
  - vm_compute. discriminate.
  - exists q. split; [done|]. split; [rewrite (H 0%nat _ eq_refl)|rewrite (H 1%nat _ eq_refl)]; reflexivity.
Defined.

(** A parameter that is an empty string (not a null) is handed to
    libpq with a null pointer, which makes it an SQL NULL: it cannot be told
    from a null parameter. *)
Theorem empty_string_is_sent_as_null (native : endian) (tick : Z) (oids : oid_map) (text : string) :
  make_binary_query native tick oids text [Param (Scalar sc_text) []]
  = make_binary_query native tick oids text [Param (Nullable (Scalar sc_text)) None]
  /\ exists q, make_binary_query native tick oids text [Param (Scalar sc_text) []] = Return q
       /\ libpq_param q 0 = Some None.
Proof.
  split; [reflexivity|]. eexists. split; [reflexivity|]. reflexivity.
Qed.

(** A vector of optional integers that mixes nulls with values
    shifts the parameters after it: the 4-byte integer that follows the vector
    [{null, 1}] is read from the last item of the vector. *)
Theorem mixed_nulls_shift_parameters :
  exists q, make_binary_query little 1000 [] ""
      [Param (Array c_vector (Nullable (Scalar sc_int4))) [None; Some 1]; Param (Scalar sc_int4) 42]
      = Return q
    /\ libpq_param q 1 = Some (Some (send little 1000 [] (Scalar sc_int4) 1 [])).
Proof. eexists. split; [reflexivity|]. vm_compute. reflexivity. Qed.

End Binary.
