(* ===== verification/QueryText.v ===== *)
(** * Query texts: [query.h] and [binary_query::text]

    libpq takes the text of a query as a pointer to characters that end at the
    first NUL.  A text is one of the types [to_const_char] has an overload for; some
    own their characters, the others point to memory of the user. *)

From Stdlib Require Import Strings.Ascii Strings.String.
From stdpp Require Import list.
From S2P Require Import Prelude.
#[local] Open Scope list_scope.

Section texts.
(** The memory of the user: the characters from address 0 on. *)
Context (mem : list ascii).

(** The types with a [to_const_char_impl]; [string_view(data, size)] and
    [const char*] point to memory. *)
Inductive text_object :=
| hana_string (s : list ascii)
| std_string (s : list ascii)
| string_view (data size : nat)
| c_string (data : nat).

(** What lies where a pointer points to, up to the end of the memory that may be
    read: [hana::to<const char*>] and [std::string::data()] end with a NUL. *)
Definition to_const_char (t : text_object) : list ascii :=
  match t with
  | hana_string s => s ++ [zero]
  | std_string s => s ++ [zero]
  | string_view data _ => drop data mem
  | c_string data => drop data mem
  end.

(** The characters up to the first NUL; [None]: there is none, and the read leaves
    the memory. *)
Fixpoint c_str (p : list ascii) : option (list ascii) :=
  match p with
  | [] => None
  | c :: p => if decide (c = zero) then Some [] else s ← c_str p; Some (c :: s)
  end.

(** The text that a text object stands for in C++; [None]: it is not valid. *)
Definition text_value (t : text_object) : option (list ascii) :=
  match t with
  | hana_string s | std_string s => Some s
  | string_view data size => if (data + size <=? length mem)%nat then Some (take size (drop data mem)) else None
  | c_string data => c_str (drop data mem)
  end.

(** [make_query(const char* text, params...)]: the text is [std::string_view(text)]. *)
Definition make_query_of (data : nat) : option text_object :=
  s ← c_str (drop data mem); Some (string_view data (length s)).

(** [binary_query::text()] as libpq reads it. *)
Definition sent_text (t : text_object) : option (list ascii) := c_str (to_const_char t).

Lemma c_str_app s rest : zero ∉ s -> c_str (s ++ zero :: rest) = Some s.
Proof using.
  induction s as [|c s IH]; intros Hz; simpl; [done|].
  apply not_elem_of_cons in Hz as [Hc Hz]. rewrite decide_False by done. by rewrite IH.
Qed.

Lemma c_str_Some p s : c_str p = Some s <-> (zero ∉ s) /\ exists rest, p = s ++ zero :: rest.
Proof using.
  split; [|intros (Hz & rest & ->); by apply c_str_app].
  revert s. induction p as [|c p IH]; intros s E; [done|]. simpl in E.
  destruct (decide (c = zero)) as [->|Hc]; [injection E as <-; split; [apply not_elem_of_nil|by exists p]|].
  destruct (c_str p) as [s'|] eqn:E'; [|done]. injection E as <-.
  destruct (IH s' eq_refl) as (Hz & rest & ->). split; [|by exists rest]. by apply not_elem_of_cons.
Qed.

Lemma view_sent data size s : text_value (string_view data size) = Some s ->
  sent_text (string_view data size) = Some s <-> (zero ∉ s) /\ mem !! (data + size)%nat = Some zero.
Proof using.
  unfold text_value, sent_text. destruct (data + size <=? length mem)%nat eqn:Hl; [|done].
  apply Nat.leb_le in Hl. intros [= <-]. cbn [to_const_char]. rewrite c_str_Some.
  assert (length (take size (drop data mem)) = size) as Hlen by (rewrite length_take, length_drop; lia).
  rewrite <- lookup_drop. split; intros [Hz Hr]; (split; [done|]).
  - destruct Hr as [rest Hr]. rewrite Hr, lookup_app_r by lia. by rewrite Hlen, Nat.sub_diag.
  - exists (drop (S size) (drop data mem)). rewrite <- (take_drop size (drop data mem)) at 1. f_equal.
    by rewrite (drop_S _ _ _ Hr).
Qed.

End texts.

Module Texts.

(** Libpq is sent exactly the text of a query if the text is a compile-time
    string or a [std::string] without NULs, or comes as a [const char*], directly
    or through [make_query]; a [std::string_view] is sent as it is exactly when
    it has no NUL and the character behind its end is one. *)
Theorem sent_text_is_query_text (mem : list ascii) :
  (forall s, zero ∉ s -> sent_text mem (hana_string s) = Some s /\ sent_text mem (std_string s) = Some s)
  /\ (forall data, sent_text mem (c_string data) = text_value mem (c_string data))
  /\ (forall data t, make_query_of mem data = Some t ->
       text_value mem t = text_value mem (c_string data) /\ sent_text mem t = text_value mem t)
  /\ (forall data size s, text_value mem (string_view data size) = Some s ->
       sent_text mem (string_view data size) = Some s <-> (zero ∉ s) /\ mem !! (data + size)%nat = Some zero).
Proof.
  split_and!.
  - intros s Hz. split; by apply c_str_app.
  - done.
  - intros data t Ht. unfold make_query_of in Ht. destruct (c_str (drop data mem)) as [s|] eqn:Es; [|done].
    injection Ht as <-. pose proof Es as (_ & rest & Hd)%c_str_Some.
    assert (text_value mem (string_view data (length s)) = Some s) as Hv.
    { unfold text_value. assert (length (drop data mem) = length s + S (length rest))%nat as Hl
        by (rewrite Hd, length_app; done).
      rewrite length_drop in Hl. rewrite (proj2 (Nat.leb_le _ _)) by lia.
      by rewrite Hd, take_app_length. }
    rewrite Hv. split; [done|exact Es].
  - intros data size s. apply view_sent.
Qed.

(** A view of the beginning of a string: more than the text is sent. *)
Lemma view_without_end_sends_more :
  let mem := list_ascii_of_string "SELECT 1; DROP" ++ [zero] in
  text_value mem (string_view 0 8) = Some (list_ascii_of_string "SELECT 1")
  /\ sent_text mem (string_view 0 8) = Some (list_ascii_of_string "SELECT 1; DROP").
Proof. split; vm_compute; reflexivity. Qed.

End Texts.
