(* ===== verification/QueryConf.v ===== *)
(** * Query configuration files: [query_conf.h]

    [boost::trim] and Boost's lexical conversion are parameters, and so are here
    the parsers of the three Boost.Spirit grammars ([QueryGrammar] has the
    grammars); the state machine over the parsed lines, the
    checks of declarations against definitions, the substitution of parameter
    names by placeholders and the repository are modelled. *)

From stdpp Require Import pretty gmap.
From S2P Require Import Prelude Errors TypeSystem Query.
#[local] Open Scope string_scope.
#[local] Open Scope list_scope.
#[local] Open Scope Z_scope.

(** ** Data *)

(** [boost::variant<query_line_comment, query_line_text>] *)
Inductive query_line := query_line_comment (value : string) | query_line_text (value : string).

(** [boost::variant<query_text_part, query_parameter_name>] *)
Inductive query_text_element := query_text_part (value : string) | query_parameter_name (value : string).

Record parsed_query := ParsedQuery { pq_name : string; pq_text : list query_text_element }.

Inductive state_type := initial | header_parsed.

(** The data members of [line_visitor]. *)
Record line_visitor := LineVisitor { lv_state : state_type; queries : list parsed_query }.

(** [parameters_type] of a declared query: an adapted structure with its member
    names, or a tuple of a size. *)
Inductive parameters_type := has_members (names : list string) | tuple_of (size : N).

(** A query class: its name and its parameters. *)
Record query_class := QueryClass { qc_name : string; qc_parameters : parameters_type }.

Record query_description := QueryDescription { qd_name : string; qd_text : string }.

(** [query_conf]: the descriptions and the map of the names to the texts. *)
Record query_conf := QueryConf { descriptions : list query_description; conf_queries : gmap string string }.

(** [queries.back().text.insert(end, ...)] *)
Fixpoint append_to_back (qs : list parsed_query) (t : list query_text_element) : list parsed_query :=
  match qs with
  | [] => []
  | [q] => [ParsedQuery (pq_name q) (pq_text q ++ t)]
  | q :: qs => q :: append_to_back qs t
  end.

Section query_conf.
(** [phrase_parse] with [lines_parser::conf], [header_parser::header] and
    [text_parser::text]; [boost::trim]; [try_lexical_convert<size_t>]. *)
Context (parse_lines : string -> option (list query_line))
        (header_parser : string -> option string)
        (text_parser : string -> option (list query_text_element))
        (trim : string -> string)
        (try_lexical_convert : string -> option N).

(** ** [line_visitor] *)

Definition parse_header (v : line_visitor) (comment : string) : line_visitor :=
  match header_parser comment with
  | Some name => LineVisitor header_parsed (queries v ++ [ParsedQuery name []])
  | None => v
  end.

Definition parse_text (v : line_visitor) (text : string) : may_throw line_visitor :=
  match text_parser text with
  | None => Throw invalid_argument
  | Some parsed_text => Return (LineVisitor (lv_state v) (append_to_back (queries v) parsed_text))
  end.

Definition visit_line (v : line_visitor) (line : query_line) : may_throw line_visitor :=
  match line with
  | query_line_comment comment => Return (parse_header v comment)
  | query_line_text text =>
      match lv_state v with
      | initial => Throw invalid_argument
      | header_parsed => parse_text v text
      end
  end.

Fixpoint visit_lines (v : line_visitor) (lines : list query_line) : may_throw line_visitor :=
  match lines with
  | [] => Return v
  | line :: lines => v ← visit_line v line; visit_lines v lines
  end.

Definition parse_query_conf_lines (conf : string) : may_throw (list query_line) :=
  match parse_lines conf with
  | Some lines => Return lines
  | None => Throw invalid_argument
  end.

Definition parse_query_conf_elements (lines : list query_line) : may_throw (list parsed_query) :=
  v ← visit_lines (LineVisitor initial []) lines; Return (queries v).

Definition parse_query_conf (conf : string) : may_throw (list parsed_query) :=
  lines ← parse_query_conf_lines conf; parse_query_conf_elements lines.

(** ** Declarations against definitions *)

(** Both overloads of [check_for_duplicates]: insert name after name and throw
    when the set did not change. *)
Fixpoint insert_names (set : gset string) (names : list string) : may_throw (gset string) :=
  match names with
  | [] => Return set
  | n :: names =>
      if decide (n ∈ set) then Throw invalid_argument else insert_names ({[n]} ∪ set) names
  end.

Definition check_for_duplicates (names : list string) : may_throw (gset string) := insert_names ∅ names.

Fixpoint check_for_undefined (declarations : list query_class) (definitions : gset string) : may_throw () :=
  match declarations with
  | [] => Return tt
  | q :: qs =>
      if decide (qc_name q ∈ definitions) then check_for_undefined qs definitions
      else Throw invalid_argument
  end.

(** ** [query_part_visitor] *)

(** The loop over the member names: [found] and [number]. *)
Fixpoint find_member (names : list string) (value : string) (found : bool) (number : N) : bool * N :=
  match names with
  | [] => (found, number)
  | key :: names =>
      if bool_decide (key = value) then find_member names value true number
      else if negb found then find_member names value found (number + 1)
      else find_member names value found number
  end.

Definition part_text (q : query_class) (part : query_text_element) : may_throw string :=
  match part with
  | query_text_part s => Return s
  | query_parameter_name value =>
      number ← match qc_parameters q with
               | has_members names =>
                   let '(found, number) := find_member names value false 0 in
                   if found then Return number else Throw invalid_argument
               | tuple_of size =>
                   match try_lexical_convert value with
                   | None => Throw invalid_argument
                   | Some number => if (size <=? number)%N then Throw out_of_range else Return number
                   end
               end;
      Return ("$" +:+ pretty (number + 1)%N)
  end.

(** The loop over the parts of a parsed query. *)
Fixpoint parts_text (q : query_class) (text : string) (parts : list query_text_element) : may_throw string :=
  match parts with
  | [] => Return text
  | p :: ps => s ← part_text q p; parts_text q (text +:+ s) ps
  end.

(** [make_query_description(query, parsed)] *)
Definition describe (q : query_class) (parsed : parsed_query) : may_throw query_description :=
  text ← parts_text q "" (pq_text parsed);
  Return (QueryDescription (pq_name parsed) (trim text)).

(** [make_query_description(queries, parsed)]: every declaration of the name is
    tried, the last one is kept. *)
Fixpoint describe_among (qs : list query_class) (parsed : parsed_query)
    (opt : option query_description) : may_throw (option query_description) :=
  match qs with
  | [] => Return opt
  | q :: qs =>
      if bool_decide (qc_name q = pq_name parsed)
      then d ← describe q parsed; describe_among qs parsed (Some d)
      else describe_among qs parsed opt
  end.

Definition make_query_description (qs : list query_class) (parsed : parsed_query)
    : may_throw query_description :=
  opt ← describe_among qs parsed None;
  match opt with
  | Some d => Return d
  | None => Throw invalid_argument
  end.

(** [make_query_descriptions] *)
Fixpoint make_query_descriptions (qs : list query_class) (parsed : list parsed_query)
    : may_throw (list query_description) :=
  match parsed with
  | [] => Return []
  | p :: ps =>
      d ← make_query_description qs p;
      ds ← make_query_descriptions qs ps;
      Return (d :: ds)
  end.

(** [make_query_conf]: [unordered_map::insert] keeps the first value of a key. *)
Definition make_query_conf (ds : list query_description) : query_conf :=
  QueryConf ds
    (foldl (fun m d => match m !! qd_name d with
                       | Some _ => m
                       | None => <[qd_name d := qd_text d]> m
                       end) ∅ ds).

(** ** [query_repository] *)

Definition make_query_repository (conf : string) (qs : list query_class) : may_throw query_conf :=
  _ ← check_for_duplicates (qc_name <$> qs);
  parsed ← parse_query_conf conf;
  names ← check_for_duplicates (pq_name <$> parsed);
  _ ← check_for_undefined qs names;
  ds ← make_query_descriptions qs parsed;
  Return (make_query_conf ds).

(** [get_description<QueryT>()]: [queries.at(name)] *)
Definition get_description (c : query_conf) (q : query_class) : may_throw string :=
  match conf_queries c !! qc_name q with
  | Some text => Return text
  | None => Throw out_of_range
  end.

(** [make_query<QueryT>(parameters)] *)
Definition repository_make_query (c : query_conf) (q : query_class) (parameters : list param)
    : may_throw query :=
  text ← get_description c q; Return (make_query text parameters).

(** ** Lemmas *)

(** While there is a query the text goes to the last one; there is one as soon
    as a header was parsed. *)
Definition visitor_ok (v : line_visitor) : Prop := lv_state v = header_parsed -> queries v <> [].

Lemma insert_names_spec set names r : insert_names set names = Return r <->
  NoDup names /\ (forall n, n ∈ names -> n ∉ set) /\ r = list_to_set names ∪ set.
Proof using.
  clear parse_lines header_parser text_parser trim try_lexical_convert.
  revert set. induction names as [|n names IH]; intros set; cbn [insert_names].
  - split; [intros [= <-]|intros (_ & _ & ->)].
    + split_and!; [constructor|intros n Hn; inversion Hn|]. simpl. by rewrite union_empty_l_L.
    + simpl. by rewrite union_empty_l_L.
  - destruct (decide (n ∈ set)) as [Hin|Hin].
    + split; [done|]. intros (_ & H & _). destruct (H n); [left|done].
    + rewrite IH, NoDup_cons. split.
      * intros (Hnd & Hout & ->). split_and!; [|done| |].
        -- intros Hn. apply (Hout n Hn). set_solver.
        -- intros m Hm. apply elem_of_cons in Hm as [->|Hm]; [done|]. specialize (Hout m Hm). set_solver.
        -- simpl. set_solver.
      * intros ((Hn & Hnd) & Hout & ->). split_and!; [done| |simpl; set_solver].
        intros m Hm. specialize (Hout m (list_elem_of_further _ _ _ Hm)).
        intros [->%elem_of_singleton|]%elem_of_union; done.
Qed.

Lemma check_for_undefined_spec qs names : check_for_undefined qs names = Return tt <->
  Forall (fun q => qc_name q ∈ names) qs.
Proof using.
  induction qs as [|q qs IH]; cbn [check_for_undefined]; [done|].
  rewrite Forall_cons. destruct (decide (qc_name q ∈ names)); [|naive_solver]. rewrite IH. naive_solver.
Qed.

Lemma find_member_found names value n : find_member names value true n = (true, n).
Proof using. induction names as [|k names IH]; simpl; [done|]. by case_bool_decide. Qed.

Lemma find_member_spec names value n :
  find_member names value false n
  = match list_find (fun k => k = value) names with
    | Some (i, _) => (true, (n + N.of_nat i)%N)
    | None => (false, (n + N.of_nat (length names))%N)
    end.
Proof using.
  revert n. induction names as [|k names IH]; intros n; simpl; [by rewrite N.add_0_r|].
  case_bool_decide as Hk.
  - rewrite decide_True by done. rewrite find_member_found. by rewrite N.add_0_r.
  - rewrite decide_False by done. rewrite IH.
    destruct (list_find _ names) as [[i x]|]; simpl; f_equal; lia.
Qed.

(** What a part of a query becomes: text stays, the member at index [k]
    becomes "$k+1". *)
Lemma part_text_member q names value s : qc_parameters q = has_members names ->
  part_text q (query_parameter_name value) = Return s <->
  exists k, names !! k = Some value /\ (forall j, (j < k)%nat -> names !! j <> Some value)
            /\ s = "$" +:+ pretty (N.of_nat k + 1)%N.
Proof.
  intros Hq. unfold part_text. rewrite Hq, find_member_spec.
  destruct (list_find _ names) as [[i x]|] eqn:E; simpl.
  - apply list_find_Some in E as (Hi & -> & Hfirst). split.
    + intros [= <-]. exists i. split_and!; [done| |done]. intros j Hj Hjv. by apply (Hfirst j value Hjv Hj).
    + intros (k & Hk & Hmin & ->). do 4 f_equal.
      destruct (Nat.lt_trichotomy i k) as [Hlt|[->|Hlt]]; [by destruct (Hmin i Hlt)|done|].
      exfalso. by apply (Hfirst k value Hk Hlt).
  - split; [done|]. intros (k & Hk & _). apply list_find_None in E.
    rewrite Forall_forall in E. destruct (E value); [|done]. by eapply list_elem_of_lookup_2.
Qed.

Lemma describe_name q p d : describe q p = Return d -> qd_name d = pq_name p.
Proof. unfold describe. destruct (parts_text _ _ _); simpl; [|done]. by intros [= <-]. Qed.

Lemma describe_among_spec qs p opt r : NoDup (qc_name <$> qs) -> describe_among qs p opt = Return r ->
  (exists q d, q ∈ qs /\ qc_name q = pq_name p /\ r = Some d /\ describe q p = Return d)
  \/ (r = opt /\ forall q, q ∈ qs -> qc_name q <> pq_name p).
Proof.
  revert opt. induction qs as [|q qs IH]; intros opt Hnd H; cbn [describe_among] in H.
  - injection H as <-. right. split; [done|]. intros q Hq. inversion Hq.
  - rewrite fmap_cons, NoDup_cons in Hnd. destruct Hnd as [Hq Hnd].
    case_bool_decide as Hn.
    + destruct (describe q p) as [d|] eqn:Ed; simpl in H; [|done].
      destruct (IH _ Hnd H) as [(q' & d' & Hin & Hn' & _)|[-> _]].
      * exfalso. apply Hq. rewrite Hn, <- Hn'. by apply list_elem_of_fmap_2.
      * left. exists q, d. split_and!; [left|done..].
    + destruct (IH _ Hnd H) as [(q' & d' & Hin & Hrest)|[-> Hall]].
      * left. exists q', d'. split; [by right|done].
      * right. split; [done|]. intros q' [->|Hin]%elem_of_cons; auto.
Qed.

(** Every parsed query has a description, made by its declaration. *)
Definition described (qs : list query_class) (p : parsed_query) (d : query_description) : Prop :=
  exists q, q ∈ qs /\ qc_name q = pq_name p /\ describe q p = Return d.

Lemma make_query_descriptions_spec qs ps ds : NoDup (qc_name <$> qs) ->
  make_query_descriptions qs ps = Return ds -> Forall2 (described qs) ps ds.
Proof.
  intros Hnd. revert ds. induction ps as [|p ps IH]; intros ds H; cbn [make_query_descriptions] in H.
  - injection H as <-. constructor.
  - unfold make_query_description in H.
    destruct (describe_among qs p None) as [opt|] eqn:Ed; simpl in H; [|done].
    destruct opt as [d|]; simpl in H; [|done].
    destruct (make_query_descriptions qs ps) as [ds'|] eqn:Eds; simpl in H; [|done]. injection H as <-.
    constructor; [|by apply IH].
    destruct (describe_among_spec _ _ _ _ Hnd Ed) as [(q & d' & Hin & Hn & [= <-] & Hd)|[? _]]; [|done].
    by exists q.
Qed.

(** Lookup in the map of a configuration with distinct names. *)
Lemma make_query_conf_lookup ds d : NoDup (qd_name <$> ds) -> d ∈ ds ->
  conf_queries (make_query_conf ds) !! qd_name d = Some (qd_text d).
Proof using.
  unfold make_query_conf. simpl.
  set (f := fun (m : gmap string string) d => _).
  assert (forall ds m, foldl f m ds !! qd_name d
    = match m !! qd_name d with
      | Some t => Some t
      | None => foldl f ∅ ds !! qd_name d
      end) as Hkeep.
  { assert (forall ds m t, m !! qd_name d = Some t -> foldl f m ds !! qd_name d = Some t) as Hk.
    { clear. induction ds as [|e ds IH]; intros m t Hm; [done|]. simpl. apply IH. unfold f.
      destruct (m !! qd_name e) eqn:Ee; [done|]. rewrite lookup_insert_ne; [done|congruence]. }
    assert (forall ds m m', m !! qd_name d = None -> m' !! qd_name d = None ->
              foldl f m ds !! qd_name d = foldl f m' ds !! qd_name d) as Hn.
    { clear -Hk. induction ds as [|e ds IH]; intros m m' Hm Hm'; simpl; [congruence|].
      destruct (decide (qd_name e = qd_name d)) as [He|He].
      - unfold f at 2 4. rewrite He, Hm, Hm'.
        by rewrite !(Hk ds _ (qd_text e)) by apply lookup_insert_eq.
      - apply IH; unfold f; destruct (_ !! qd_name e); rewrite ?lookup_insert_ne by done; done. }
    intros ds' m. destruct (m !! qd_name d) as [t|] eqn:Em; [by apply Hk|]. by apply Hn. }
  induction ds as [|e ds IH]; intros Hnd Hin; [inversion Hin|].
  rewrite fmap_cons, NoDup_cons in Hnd. destruct Hnd as [He Hnd]. cbn [foldl]. rewrite Hkeep.
  unfold f at 1. rewrite lookup_empty. apply elem_of_cons in Hin as [->|Hin].
  - by rewrite lookup_insert_eq.
  - rewrite lookup_insert_ne, lookup_empty; [by apply IH|].
    intros Heq. apply He. rewrite Heq. by apply list_elem_of_fmap_2.
Qed.

End query_conf.

Module Conf.

(** C37: when a repository is made, the declared names are distinct, and for
    every declared query the configuration has exactly one definition: its text
    is found by name (never [out_of_range]) and is the trimmed concatenation of
    the definition's parts with its parameters replaced by placeholders. *)
Theorem repository_has_every_declared_query
    (parse_lines : string -> option (list query_line)) (header_parser : string -> option string)
    (text_parser : string -> option (list query_text_element)) (trim : string -> string)
    (try_lexical_convert : string -> option N)
    (conf : string) (qs : list query_class) (c : query_conf)
    (Hc : make_query_repository parse_lines header_parser text_parser trim try_lexical_convert conf qs
          = Return c) :
  NoDup (qc_name <$> qs)
  /\ exists parsed, parse_query_conf parse_lines header_parser text_parser conf = Return parsed
     /\ NoDup (pq_name <$> parsed)
     /\ forall q, q ∈ qs -> exists p text, p ∈ parsed /\ pq_name p = qc_name q
          /\ parts_text try_lexical_convert q "" (pq_text p) = Return text
          /\ get_description c q = Return (trim text).
Proof.
  unfold make_query_repository in Hc.
  destruct (check_for_duplicates (qc_name <$> qs)) as [r|] eqn:E1; simpl in Hc; [|done].
  destruct (parse_query_conf _ _ _ conf) as [parsed|] eqn:E2; simpl in Hc; [|done].
  destruct (check_for_duplicates (pq_name <$> parsed)) as [names|] eqn:E3; simpl in Hc; [|done].
  destruct (check_for_undefined qs names) as [[]|] eqn:E4; simpl in Hc; [|done].
  destruct (make_query_descriptions _ _ qs parsed) as [ds|] eqn:E5; simpl in Hc; [|done].
  injection Hc as <-. apply insert_names_spec in E1 as (Hnd & _ & _).
  apply insert_names_spec in E3 as (Hpn & _ & ->). apply check_for_undefined_spec in E4.
  apply make_query_descriptions_spec in E5; [|done].
  split; [done|]. exists parsed. split_and!; [done|done|]. intros q Hq.
  rewrite Forall_forall in E4. specialize (E4 q Hq). rewrite union_empty_r_L in E4.
  apply elem_of_list_to_set, list_elem_of_fmap in E4 as (p & Hn & Hp).
  apply list_elem_of_lookup in Hp as [i Hi].
  destruct (Forall2_lookup_l _ _ _ _ _ E5 Hi) as (d & Hd & q' & Hq' & Hn' & Hdesc).
  assert (q' = q) as ->.
  { apply list_elem_of_lookup in Hq as [j Hj], Hq' as [k Hk].
    assert (j = k) as <-.
    { apply (NoDup_lookup _ j k (qc_name q) Hnd); rewrite list_lookup_fmap, ?Hj, ?Hk; simpl; congruence. }
    congruence. }
  unfold describe in Hdesc. destruct (parts_text _ q "" (pq_text p)) as [text|] eqn:Et; simpl in Hdesc; [|done].
  injection Hdesc as <-. exists p, text. split_and!; [by eapply list_elem_of_lookup_2|done|done|].
  unfold get_description. rewrite Hn.
  assert (qd_name <$> ds = pq_name <$> parsed) as Hnames.
  { clear - E5. induction E5 as [|p d ps ds (q & _ & _ & Hd) _ IH]; [done|].
    rewrite !fmap_cons, IH. f_equal. by apply describe_name in Hd. }
  pose proof (make_query_conf_lookup ds (QueryDescription (pq_name p) (trim text))) as Hl. simpl in Hl.
  unfold make_query_conf. simpl. rewrite Hl; [done|by rewrite Hnames|by eapply list_elem_of_lookup_2].
Qed.

(** A one-query configuration, with a grammar that recognizes its two lines. *)
Definition sample_lines (conf : string) : option (list query_line) :=
  Some [query_line_comment "-- name: by id"; query_line_text "SELECT :id "].
Definition sample_header (comment : string) : option string := Some "by id".
Definition sample_text (text : string) : option (list query_text_element) :=
  Some [query_text_part "SELECT "; query_parameter_name "id"].
Definition sample_query : query_class := QueryClass "by id" (has_members ["name"; "id"]).

Lemma repository_has_every_declared_query_witness :
  exists c, make_query_repository sample_lines sample_header sample_text id (fun _ => None) "" [sample_query]
            = Return c
    /\ exists text, get_description c sample_query = Return text.
Proof.
  eexists. split; [vm_compute; reflexivity|].
  edestruct (repository_has_every_declared_query sample_lines sample_header sample_text id (fun _ => None)
    "" [sample_query]) as (_ & parsed & _ & _ & H); [vm_compute; reflexivity|].
  destruct (H sample_query) as (p & text & _ & _ & _ & Hd); [left|]. by eexists.
Defined.

(** A named parameter of a query over an adapted structure becomes
    the placeholder of the (first) member of that name, and names that are no
    member are rejected. *)
Theorem parameter_names_become_placeholders (try_lexical_convert : string -> option N)
    (q : query_class) (names : list string) (value s : string)
    (Hq : qc_parameters q = has_members names) :
  (part_text try_lexical_convert q (query_parameter_name value) = Return s <->
   exists k, names !! k = Some value /\ (forall j, (j < k)%nat -> names !! j <> Some value)
             /\ s = "$" +:+ pretty (N.of_nat k + 1)%N)
  /\ (value ∉ names -> part_text try_lexical_convert q (query_parameter_name value) = Throw invalid_argument).
Proof.
  split; [by apply part_text_member|]. intros Hn. unfold part_text. rewrite Hq, find_member_spec.
  destruct (list_find _ names) as [[i x]|] eqn:E; [|done].
  apply list_find_Some in E as (Hi & -> & _). exfalso. apply Hn. by eapply list_elem_of_lookup_2.
Qed.

End Conf.
