(* ===== verification/QueryGrammar.v ===== *)
(** * The grammars of query configuration files: the Boost.Spirit X3 parsers of
      [query_conf.h]

    X3 is an interface here: the class [X3] has the parsers and operators the
    grammars use, with what its documentation says each matches.  The grammars
    are written with them as the source does.  [peg] is a concrete
    implementation, so the grammars can be run. *)

From Stdlib Require Import Strings.Ascii Strings.String.
From stdpp Require Import gmap.
From S2P Require Import Prelude Errors TypeSystem Query QueryConf.
#[local] Open Scope list_scope.

(** ** X3 *)

Definition nul : ascii := Ascii.zero.
Definition cr : ascii := "013"%char.
Definition lf : ascii := "010"%char.

(** What [phrase_parse] skips before a parser that is not inside [lexeme]: the
    skipper of the three grammars is [char_('\0')]. *)
Fixpoint skip_nul (s : list ascii) : list ascii :=
  match s with
  | c :: s' => if decide (c = nul) then skip_nul s' else s
  | [] => []
  end.
Definition skip (skipping : bool) (s : list ascii) : list ascii :=
  if skipping then skip_nul s else s.

(** What [eol] matches: "\r\n", "\r" or "\n". *)
Definition match_eol (s : list ascii) : option (list ascii) :=
  match s with
  | c :: s' =>
      if decide (c = cr) then
        match s' with
        | d :: s'' => if decide (d = lf) then Some s'' else Some s'
        | [] => Some []
        end
      else if decide (c = lf) then Some s' else None
  | [] => None
  end.

Fixpoint match_string (t s : list ascii) : option (list ascii) :=
  match t, s with
  | [], _ => Some s
  | c :: t, d :: s => if decide (c = d) then match_string t s else None
  | _ :: _, [] => None
  end.

(** A parser of an attribute, run with or without the skipper: what it leaves of
    the input when it matches. *)
Class X3 := {
  parser : Type -> Type;
  parse {A : Type} : parser A -> bool -> list ascii -> option (A * list ascii);
  char_if : (ascii -> bool) -> parser ascii;
  string_ : list ascii -> parser (list ascii);
  eol : parser ();
  eoi : parser ();
  lexeme {A : Type} : parser A -> parser A;
  seq {A B : Type} : parser A -> parser B -> parser (A * B);
  alt {A : Type} : parser A -> parser A -> parser A;
  minus {A B : Type} : parser A -> parser B -> parser A;
  kleene {A : Type} : parser A -> parser (list A);
  plus {A : Type} : parser A -> parser (list A);
  opt {A : Type} : parser A -> parser (option A);
  action {A B : Type} : (A -> B) -> parser A -> parser B;
  parse_char_if f k s :
    parse (char_if f) k s
    = match skip k s with c :: r => if f c then Some (c, r) else None | [] => None end;
  parse_string t k s : parse (string_ t) k s = (r ← match_string t (skip k s); Some (t, r));
  parse_eol k s : parse eol k s = (r ← match_eol (skip k s); Some (tt, r));
  parse_eoi k s : parse eoi k s = match skip k s with [] => Some (tt, []) | _ :: _ => None end;
  parse_lexeme {A} (p : parser A) k s : parse (lexeme p) k s = parse p false (skip k s);
  parse_seq {A B} (p : parser A) (q : parser B) k s :
    parse (seq p q) k s = ('(a, r) ← parse p k s; '(b, r) ← parse q k r; Some ((a, b), r));
  parse_alt {A} (p q : parser A) k s :
    parse (alt p q) k s = match parse p k s with Some x => Some x | None => parse q k s end;
  parse_minus {A B} (p : parser A) (q : parser B) k s :
    parse (minus p q) k s = match parse q k s with Some _ => None | None => parse p k s end;
  parse_kleene {A} (p : parser A) k s :
    (forall s a r, parse p k s = Some (a, r) -> length r < length s) ->
    parse (kleene p) k s
    = match parse p k s with
      | Some (a, r) => '(l, r) ← parse (kleene p) k r; Some (a :: l, r)
      | None => Some ([], s)
      end;
  parse_plus {A} (p : parser A) k s :
    parse (plus p) k s = ('(a, r) ← parse p k s; '(l, r) ← parse (kleene p) k r; Some (a :: l, r));
  parse_opt {A} (p : parser A) k s :
    parse (opt p) k s
    = match parse p k s with Some (a, r) => Some (Some a, r) | None => Some (None, s) end;
  parse_action {A B} (f : A -> B) (p : parser A) k s :
    parse (action f p) k s = ('(a, r) ← parse p k s; Some (f a, r))
}.

(** ** The grammars *)
Section grammar.
Context `{X3}.

Definition char_ : parser ascii := char_if (fun _ => true).
Definition char_lit (c : ascii) : parser ascii := char_if (fun d => bool_decide (d = c)).
Definition lit (s : string) : parser () := action (fun _ => tt) (string_ (list_ascii_of_string s)).
(** [x3::space]: the white space of the standard encoding. *)
Definition is_space (c : ascii) : bool :=
  let n := N_of_ascii c in (n =? 32)%N || ((9 <=? n) && (n <=? 13))%N.
Definition space : parser ascii := char_if is_space.

Definition not_eol : parser ascii := minus char_ eol.

(** [to_string_visitor] over the attribute of a sequence: the pieces appended. *)
Definition to_string_visitor (pieces : list (list ascii)) : string :=
  string_of_list_ascii (concat pieces).

(** [lines_parser::end_def] *)
Definition end_def : parser (list ascii) :=
  lexeme (alt (string_ [cr; lf]) (alt (string_ [cr]) (string_ [lf]))).

(** [lines_parser::line_def]: a comment, a line of text with its end, or the
    text at the end of the input. *)
Definition comment_line : parser query_line :=
  action (fun '(a, (b, c)) => query_line_comment (to_string_visitor [a; b; c]))
    (lexeme (seq (string_ (list_ascii_of_string "--"))
               (seq (kleene not_eol) (alt end_def (action (fun _ => []) eoi))))).
Definition text_line : parser query_line :=
  action (fun '(a, b) => query_line_text (to_string_visitor [a; b])) (lexeme (seq (kleene not_eol) end_def)).
Definition last_line : parser query_line :=
  action fst (seq (action (fun a => query_line_text (to_string_visitor [a])) (lexeme (plus not_eol))) eoi).
Definition line_def : parser query_line := alt comment_line (alt text_line last_line).

(** [lines_parser::conf_def] *)
Definition conf_def : parser (list query_line) := action fst (seq (kleene line_def) eoi).

(** [header_parser::header_def] *)
Definition header_def : parser string :=
  action (fun '(name, _) => string_of_list_ascii name)
    (action snd (seq (lit "--") (action snd (seq (kleene space)
      (action snd (seq (lit "name") (action snd (seq (kleene space)
        (action snd (seq (lit ":") (action snd (seq (kleene space)
          (seq (lexeme (plus not_eol)) (seq (opt eol) eoi)))))))))))))).

(** [char_("_0-9A-Za-z")] *)
Definition is_name_char (c : ascii) : bool :=
  let n := N_of_ascii c in
  bool_decide (c = "_"%char) || ((48 <=? n) && (n <=? 57))%N
  || ((65 <=? n) && (n <=? 90))%N || ((97 <=? n) && (n <=? 122))%N.

(** [text_parser::text_part_def], [parameter_name_def] and [text_def] *)
Definition text_part_def : parser (list ascii) :=
  action (@concat ascii)
    (plus (lexeme (alt (string_ (list_ascii_of_string "::"))
      (alt (string_ (list_ascii_of_string ":="))
           (plus (minus (minus char_ (char_lit ":"%char)) (char_lit nul))))))).

Definition parameter_name_def : parser (list ascii) :=
  action snd (seq (lit ":") (lexeme (plus (char_if is_name_char)))).

Definition text_def : parser (list query_text_element) :=
  action fst
    (seq (kleene (alt (action (fun n => query_parameter_name (string_of_list_ascii n)) parameter_name_def)
                      (action (fun t => query_text_part (string_of_list_ascii t)) text_part_def)))
         eoi).

(** The calls of [phrase_parse]. *)
Definition parse_conf_lines (conf : string) : option (list query_line) :=
  fst <$> parse conf_def true (list_ascii_of_string conf).
Definition parse_comment (comment : string) : option string :=
  fst <$> parse header_def true (list_ascii_of_string comment).
Definition parse_query_text (text : string) : option (list query_text_element) :=
  fst <$> parse text_def true (list_ascii_of_string text).
End grammar.

(** ** An implementation *)

(** The loop of [kleene]: it ends because each turn consumes input. *)
Fixpoint peg_kleene {A} (fuel : nat) (p : list ascii -> option (A * list ascii)) (s : list ascii) :
    option (list A * list ascii) :=
  match fuel with
  | O => Some ([], s)
  | S fuel =>
      match p s with
      | Some (a, r) => '(l, r) ← peg_kleene fuel p r; Some (a :: l, r)
      | None => Some ([], s)
      end
  end.

Lemma peg_kleene_fuel {A} (p : list ascii -> option (A * list ascii)) n s :
  (forall s a r, p s = Some (a, r) -> length r < length s) -> length s <= n ->
  peg_kleene n p s = peg_kleene (length s) p s.
Proof.
  intros Hp. revert s. induction n as [n IH] using lt_wf_ind. intros s Hn.
  destruct n as [|n]; [by destruct s; simpl in *; [|lia]|].
  destruct (length s) as [|m] eqn:El.
  - simpl. destruct (p s) as [[a r]|] eqn:E; [|done]. apply Hp in E. lia.
  - simpl. destruct (p s) as [[a r]|] eqn:E; [|done]. apply Hp in E.
    rewrite (IH n), (IH m); [done|lia..].
Qed.

Lemma peg_parse_kleene {A} (p : bool -> list ascii -> option (A * list ascii)) k s :
  (forall s a r, p k s = Some (a, r) -> length r < length s) ->
  peg_kleene (length s) (p k) s
  = match p k s with
    | Some (a, r) => '(l, r) ← peg_kleene (length r) (p k) r; Some (a :: l, r)
    | None => Some ([], s)
    end.
Proof.
  intros Hp. destruct (length s) as [|n] eqn:El; simpl;
    (destruct (p k s) as [[a r]|] eqn:E; [|done]); apply Hp in E; [lia|].
  rewrite (peg_kleene_fuel (p k) n) by (done || lia). done.
Qed.

Definition peg : X3 := {|
  parser A := bool -> list ascii -> option (A * list ascii);
  parse A p := p;
  char_if f := fun k s => match skip k s with c :: r => if f c then Some (c, r) else None | [] => None end;
  string_ t := fun k s => r ← match_string t (skip k s); Some (t, r);
  eol := fun k s => r ← match_eol (skip k s); Some (tt, r);
  eoi := fun k s => match skip k s with [] => Some (tt, []) | _ :: _ => None end;
  lexeme A p := fun k s => p false (skip k s);
  seq A B p q := fun k s => '(a, r) ← p k s; '(b, r) ← q k r; Some ((a, b), r);
  alt A p q := fun k s => match p k s with Some x => Some x | None => q k s end;
  minus A B p q := fun k s => match q k s with Some _ => None | None => p k s end;
  kleene A p := fun k s => peg_kleene (length s) (p k) s;
  plus A p := fun k s => '(a, r) ← p k s; '(l, r) ← peg_kleene (length r) (p k) r; Some (a :: l, r);
  opt A p := fun k s => match p k s with Some (a, r) => Some (Some a, r) | None => Some (None, s) end;
  action A B f p := fun k s => '(a, r) ← p k s; Some (f a, r);
  parse_char_if f k s := eq_refl;
  parse_string t k s := eq_refl;
  parse_eol k s := eq_refl;
  parse_eoi k s := eq_refl;
  parse_lexeme A p k s := eq_refl;
  parse_seq A B p q k s := eq_refl;
  parse_alt A p q k s := eq_refl;
  parse_minus A B p q k s := eq_refl;
  parse_kleene A p k s := peg_parse_kleene p k s;
  parse_plus A p k s := eq_refl;
  parse_opt A p k s := eq_refl;
  parse_action A B f p k s := eq_refl
|}.

Example peg_header :
  @parse_comment peg ("-- name: query without parameters" +:+ String lf "")
  = Some "query without parameters"%string.
Proof. reflexivity. Qed.
Example peg_text :
  @parse_query_text peg "SELECT :a::integer + :b"
  = Some [query_text_part "SELECT "; query_parameter_name "a"; query_text_part "::integer + ";
          query_parameter_name "b"]%string.
Proof. vm_compute. reflexivity. Qed.
Example peg_lines :
  @parse_conf_lines peg ("-- name: q" +:+ String lf ("SELECT 1" +:+ String lf "1"))
  = Some [query_line_comment ("-- name: q" +:+ String lf ""); query_line_text ("SELECT 1" +:+ String lf "");
          query_line_text "1"]%string.
Proof. vm_compute. reflexivity. Qed.

(** ** What the parsers of single characters match *)

Fixpoint span (f : ascii -> bool) (s : list ascii) : list ascii * list ascii :=
  match s with
  | c :: s' => if f c then let '(a, r) := span f s' in (c :: a, r) else ([], s)
  | [] => ([], [])
  end.

(** The text without the characters the skipper drops. *)
Definition strip (s : list ascii) : list ascii := filter (fun c => c <> nul) s.

Definition is_eol (c : ascii) : bool := bool_decide (c = cr) || bool_decide (c = lf).

Lemma span_app f s : s = (span f s).1 ++ (span f s).2.
Proof. induction s as [|c s IH]; [done|]. simpl. destruct (f c); [|done].
  destruct (span f s) as [a r]. simpl in *. by rewrite <- IH. Qed.

Lemma span_all f s : Forall (fun c => f c = true) (span f s).1.
Proof. induction s as [|c s IH]; simpl; [constructor|]. destruct (f c) eqn:E; [|constructor].
  destruct (span f s). by constructor. Qed.

Lemma span_stop f s : match (span f s).2 with c :: _ => f c = false | [] => True end.
Proof. induction s as [|c s IH]; simpl; [done|]. destruct (f c) eqn:E; [|done]. by destruct (span f s). Qed.

Lemma span_prefix f a r : Forall (fun c => f c = true) a ->
  match r with c :: _ => f c = false | [] => True end -> span f (a ++ r) = (a, r).
Proof.
  intros Ha Hr. induction Ha as [|c a Hc Ha IH]; simpl.
  - destruct r as [|c r]; [done|]. simpl. by rewrite Hr.
  - by rewrite Hc, IH.
Qed.

Lemma strip_app s t : strip (s ++ t) = strip s ++ strip t.
Proof. apply filter_app. Qed.

Lemma strip_skip k s : strip (skip k s) = strip s.
Proof.
  destruct k; [|done]. simpl. induction s as [|c s IH]; [done|]. simpl.
  destruct (decide (c = nul)) as [->|]; [|done]. rewrite IH. unfold strip.
  rewrite filter_cons_False; [done|]. by intros [].
Qed.

Lemma skip_length k s : length (skip k s) <= length s.
Proof. destruct k; [|done]. simpl. induction s as [|c s IH]; [done|]. simpl.
  destruct (decide (c = nul)); simpl; lia. Qed.

Lemma skip_head k s : match s with c :: _ => c <> nul | [] => True end -> skip k s = s.
Proof. destruct k; [|done]. destruct s as [|c s]; [done|]. intros Hc. simpl. by rewrite decide_False. Qed.

Lemma skip_nul_head s : match skip_nul s with c :: _ => c <> nul | [] => True end.
Proof. induction s as [|c s IH]; [done|]. simpl. by destruct (decide (c = nul)). Qed.

Lemma match_eol_spec s : match match_eol s with
  | Some r => exists c e, s = c :: e ++ r /\ is_eol c = true /\ (c :: e) ∈ [[cr; lf]; [cr]; [lf]]
  | None => match s with c :: _ => is_eol c = false | [] => True end
  end.
Proof.
  unfold match_eol, is_eol. destruct s as [|c s]; [done|]. destruct (decide (c = cr)) as [->|].
  - destruct s as [|d s]; [|destruct (decide (d = lf)) as [->|]].
    + exists cr, []. split_and!; [done|done|]. apply (bool_decide_unpack _). by vm_compute.
    + exists cr, [lf]. split_and!; [done|done|]. apply (bool_decide_unpack _). by vm_compute.
    + exists cr, []. split_and!; [done|done|]. apply (bool_decide_unpack _). by vm_compute.
  - destruct (decide (c = lf)) as [->|].
    + exists lf, []. split_and!; [done|done|]. apply (bool_decide_unpack _). by vm_compute.
    + by rewrite !bool_decide_false.
Qed.

Section parsers.
Context `{X3}.

(** A parser of one character of a class, without the skipper. *)
Definition one_of (p : parser ascii) (f : ascii -> bool) : Prop :=
  forall s, parse p false s = match s with c :: r => if f c then Some (c, r) else None | [] => None end.

Lemma one_of_char_if f : one_of (char_if f) f.
Proof. intros s. by rewrite parse_char_if. Qed.

Lemma one_of_not_eol : one_of not_eol (fun c => negb (is_eol c)).
Proof.
  intros s. unfold not_eol, char_. rewrite parse_minus, parse_eol, parse_char_if. simpl.
  pose proof (match_eol_spec s) as Hs. destruct (match_eol s) as [r|]; simpl.
  - destruct Hs as (c & e & -> & Hc & _). by rewrite Hc.
  - destruct s as [|c s]; [done|]. by rewrite Hs.
Qed.

Lemma parse_kleene_span p f s : one_of p f -> parse (kleene p) false s = Some (span f s).
Proof.
  intros Hp. assert (Hc : forall s a r, parse p false s = Some (a, r) -> length r < length s).
  { intros t a r. rewrite Hp. destruct t as [|c t]; [done|]. destruct (f c); [|done].
    intros [= _ <-]. simpl. lia. }
  induction s as [|c s IH]; rewrite parse_kleene, Hp by done; [done|]. simpl.
  destruct (f c); [|done]. rewrite IH. simpl. by destruct (span f s).
Qed.

Lemma parse_plus_span p f s : one_of p f -> parse (plus p) false s
  = match span f s with ([], _) => None | x => Some x end.
Proof.
  intros Hp. rewrite parse_plus, Hp. destruct s as [|c s]; [done|]. simpl.
  destruct (f c); [|done]. simpl. rewrite (parse_kleene_span p f) by done. simpl. by destruct (span f s).
Qed.

Lemma match_string_spec t s r : match_string t s = Some r <-> s = t ++ r.
Proof.
  revert s. induction t as [|c t IH]; intros s; simpl; [naive_solver|].
  destruct s as [|d s]; [done|]. destruct (decide (c = d)) as [->|]; [|naive_solver].
  rewrite IH. naive_solver.
Qed.

(** What ends a line. *)
Definition line_ends : list (list ascii) := [[cr; lf]; [cr]; [lf]].

Lemma parse_end s : match parse end_def false s with
  | Some (e, r) => s = e ++ r /\ e ∈ line_ends
  | None => match s with c :: _ => is_eol c = false | [] => True end
  end.
Proof.
  unfold end_def. rewrite parse_lexeme, !parse_alt, !parse_string. cbn [skip].
  destruct (match_string [cr; lf] s) as [r|] eqn:E1; cbn [mbind option_bind];
    [apply match_string_spec in E1; split; [done|set_solver]|].
  destruct (match_string [cr] s) as [r|] eqn:E2; cbn [mbind option_bind];
    [apply match_string_spec in E2; split; [done|set_solver]|].
  destruct (match_string [lf] s) as [r|] eqn:E3; cbn [mbind option_bind];
    [apply match_string_spec in E3; split; [done|set_solver]|].
  destruct s as [|c s]; [done|]. simpl in E2, E3. unfold is_eol.
  destruct (decide (cr = c)); [done|]. destruct (decide (lf = c)); [done|].
  by rewrite !bool_decide_false by congruence.
Qed.

(** ** Lines *)

Definition is_comment (v : list ascii) : bool :=
  match match_string (list_ascii_of_string "--") v with Some _ => true | None => false end.
Definition make_line (v : list ascii) : query_line :=
  (if is_comment v then query_line_comment else query_line_text) (string_of_list_ascii v).

(** A line: characters that do not end it and, unless it is the last, its end. *)
Definition line_shape (v r : list ascii) : Prop :=
  v <> [] /\ exists body e, v = body ++ e /\ Forall (fun c => is_eol c = false) body
    /\ (e ∈ line_ends \/ e = [] /\ r = []).

Lemma span_not_eol s : let '(body, r) := span (fun c => negb (is_eol c)) s in
  s = body ++ r /\ Forall (fun c => is_eol c = false) body
  /\ match r with c :: _ => is_eol c = true | [] => True end.
Proof.
  pose proof (span_app (fun c => negb (is_eol c)) s) as Hs.
  pose proof (span_all (fun c => negb (is_eol c)) s) as Ha.
  pose proof (span_stop (fun c => negb (is_eol c)) s) as Hr.
  destruct (span _ s) as [body r]. simpl in *. split_and!; [done| |].
  - eapply Forall_impl; [exact Ha|]. intros c Hc. by apply negb_true_iff.
  - destruct r; [done|]. by apply negb_false_iff.
Qed.

Lemma is_comment_app v w : is_eol <$> head w <> Some false -> is_comment (v ++ w) = is_comment v.
Proof.
  unfold is_comment. simpl. intros Hw. destruct v as [|a [|b v]]; simpl; [| |by repeat case_decide].
  - destruct w as [|c w]; [done|]. simpl in Hw. destruct (decide ("-"%char = c)) as [<-|]; [by destruct Hw|done].
  - destruct w as [|c w]; [done|]. simpl in Hw. destruct (decide ("-"%char = a)); [|done].
    destruct (decide ("-"%char = c)) as [<-|]; [by destruct Hw|done].
Qed.

(** What a line parser gives for a text: a line in front of it. *)
Definition takes_line (p : option (query_line * list ascii)) (s : list ascii) : Prop :=
  exists v r, p = Some (make_line v, r) /\ s = v ++ r /\ line_shape v r.

Lemma parse_comment_line s s1 : skip_nul s = list_ascii_of_string "--" ++ s1 ->
  takes_line (parse comment_line true s) (skip_nul s).
Proof.
  intros E. unfold comment_line, to_string_visitor, takes_line.
  rewrite parse_action, parse_lexeme, parse_seq, parse_string. cbn [skip]. rewrite E.
  rewrite (proj2 (match_string_spec _ _ s1)) by done. cbn [mbind option_bind].
  rewrite parse_seq, (parse_kleene_span _ _ _ one_of_not_eol). pose proof (span_not_eol s1) as Hsp.
  destruct (span _ s1) as [body r]. destruct Hsp as (-> & Hb & Hr). cbn [mbind option_bind].
  rewrite parse_alt, parse_action.
  assert (exists e r', match parse end_def false r with
      | Some x => Some x
      | None => '(_, r) ← parse eoi false r; Some ([], r)
      end = Some (e, r') /\ r = e ++ r' /\ (e ∈ line_ends \/ e = [] /\ r' = []))
    as (e & r' & -> & -> & He).
  { pose proof (parse_end r) as He. destruct (parse end_def false r) as [[e r']|].
    - destruct He as [-> He]. exists e, r'. by auto.
    - destruct r as [|c r]; [|congruence]. rewrite parse_eoi. simpl. exists [], []. by auto. }
  cbn [mbind option_bind]. exists ((list_ascii_of_string "--" ++ body) ++ e), r'. split_and!.
  - unfold make_line. simpl. by rewrite app_nil_r.
  - by rewrite <- !app_assoc.
  - split; [done|]. exists (list_ascii_of_string "--" ++ body), e. split_and!; [done| |done].
    apply Forall_app. split; [by repeat constructor|done].
Qed.

Lemma parse_text_line s : match_string (list_ascii_of_string "--") (skip_nul s) = None ->
  if decide (skip_nul s = []) then parse (alt text_line last_line) true s = None
  else takes_line (parse (alt text_line last_line) true s) (skip_nul s).
Proof.
  intros E. unfold text_line, last_line, to_string_visitor, takes_line.
  rewrite parse_alt, !parse_action, parse_lexeme, !parse_seq, parse_action, parse_lexeme,
    (parse_kleene_span _ _ _ one_of_not_eol), (parse_plus_span _ _ _ one_of_not_eol). cbn [skip].
  pose proof (span_not_eol (skip_nul s)) as Hsp. destruct (span _ (skip_nul s)) as [body r].
  destruct Hsp as (Hs & Hb & Hr). cbn [mbind option_bind].
  assert (Hnc : is_comment body = false).
  { destruct (is_comment body) eqn:Ec; [|done]. unfold is_comment in Ec.
    destruct (match_string _ body) as [x|] eqn:Ex; [|done]. apply match_string_spec in Ex.
    rewrite Hs, Ex, <- app_assoc in E. by rewrite (proj2 (match_string_spec _ _ (x ++ r))) in E. }
  pose proof (parse_end r) as He. destruct (parse end_def false r) as [[e r']|]; cbn [mbind option_bind].
  - destruct He as [-> He]. assert (He0 : is_eol <$> head e <> Some false /\ e <> []).
    { unfold line_ends in He. repeat (apply elem_of_cons in He as [->|He]; [by split|]).
      by apply elem_of_nil in He. }
    rewrite decide_False by (rewrite Hs; destruct body, e; naive_solver).
    exists (body ++ e), r'. split_and!; [|by rewrite Hs, <- app_assoc|].
    + unfold make_line. rewrite is_comment_app, Hnc by apply He0. simpl. by rewrite app_nil_r.
    + split; [destruct body, e; naive_solver|]. by exists body, e; auto.
  - destruct r as [|c r]; [|congruence]. rewrite app_nil_r in Hs. destruct body as [|b body].
    { by rewrite decide_True. }
    rewrite decide_False by (by rewrite Hs). cbn [mbind option_bind]. rewrite parse_eoi.
    exists (b :: body), []. split_and!; [|by rewrite app_nil_r|].
    + unfold make_line. rewrite Hnc. simpl. by rewrite app_nil_r.
    + split; [done|]. exists (b :: body), []. rewrite app_nil_r. by auto.
Qed.

(** [lines_parser::line] takes the characters up to and with the end of the line. *)
Lemma parse_line s :
  match parse line_def true s with
  | Some (l, r) => exists v, skip_nul s = v ++ r /\ line_shape v r /\ l = make_line v
  | None => skip_nul s = []
  end.
Proof.
  unfold line_def. rewrite parse_alt.
  destruct (match_string (list_ascii_of_string "--") (skip_nul s)) as [s1|] eqn:E.
  - apply match_string_spec in E. destruct (parse_comment_line s s1 E) as (v & r & -> & ? & ?). by eauto.
  - assert (parse comment_line true s = None) as ->.
    { unfold comment_line. rewrite parse_action, parse_lexeme, parse_seq, parse_string. cbn [skip].
      by rewrite E. }
    pose proof (parse_text_line s E) as Ht. case_decide as Hs; [by rewrite Ht|].
    destruct Ht as (v & r & -> & ? & ?). by eauto.
Qed.

(** A parser that prints: what it consumed, without the skipped characters, is
    what [f] prints for its attribute. *)
Definition prints {A : Type} (p : parser A) (f : A -> list ascii) : Prop :=
  forall s a r, parse p true s = Some (a, r) -> strip s = strip (f a) ++ strip r /\ length r < length s.

Lemma prints_kleene_le {A : Type} (p : parser A) f n s : prints p f -> length s <= n ->
  exists l r, parse (kleene p) true s = Some (l, r) /\ parse p true r = None
    /\ strip s = strip (concat (f <$> l)) ++ strip r /\ length r <= length s.
Proof.
  intros Hp. assert (Hc : forall s a r, parse p true s = Some (a, r) -> length r < length s)
    by (intros t a r E; by apply Hp in E as [_ ?]).
  revert s. induction n as [n IH] using lt_wf_ind. intros s Hn. rewrite parse_kleene by done.
  destruct (parse p true s) as [[a r]|] eqn:E; [|by exists [], s].
  destruct (Hp _ _ _ E) as [Hs Hl]. destruct (IH (length r)) with (s := r) as (l & r' & -> & Hn' & Hr & Hl');
    [lia|lia|]. exists (a :: l), r'. split_and!; [done|done| |lia].
  simpl. by rewrite Hs, Hr, strip_app, app_assoc.
Qed.

Definition line_value (l : query_line) : list ascii :=
  list_ascii_of_string match l with query_line_comment v | query_line_text v => v end.

Lemma line_value_make v : line_value (make_line v) = v.
Proof. unfold make_line. by destruct (is_comment v); apply list_ascii_of_string_of_list_ascii. Qed.

Lemma prints_line : prints line_def line_value.
Proof.
  intros s a r E. pose proof (parse_line s) as Hl. rewrite E in Hl.
  destruct Hl as (v & Hs & [Hv _] & ->). rewrite line_value_make. split.
  - rewrite <- strip_app, <- Hs. symmetry. apply (strip_skip true).
  - apply (f_equal length) in Hs. rewrite length_app in Hs. pose proof (skip_length true s) as Hk.
    simpl in Hk. destruct v; [done|]. simpl in *. lia.
Qed.

Lemma prints_kleene {A : Type} (p : parser A) f s : prints p f ->
  exists l r, parse (kleene p) true s = Some (l, r) /\ parse p true r = None
    /\ strip s = strip (concat (f <$> l)) ++ strip r /\ length r <= length s.
Proof. intros Hp. by apply (prints_kleene_le p f (length s)). Qed.

(** The lines a parse gives are lines: comments and texts told apart by "--", no
    end of line but at the end, which only the last may lack. *)
Fixpoint lines_ok (ls : list query_line) : Prop :=
  match ls with
  | [] => True
  | l :: ls => l = make_line (line_value l) /\ line_shape (line_value l) (concat (line_value <$> ls))
      /\ lines_ok ls
  end.

Lemma kleene_lines_ok n s ls r : length s <= n ->
  parse (kleene line_def) true s = Some (ls, r) -> lines_ok ls.
Proof.
  assert (Hc : forall s a r, parse line_def true s = Some (a, r) -> length r < length s)
    by (intros t a x E; by apply prints_line in E as [_ ?]).
  revert s ls r. induction n as [n IH] using lt_wf_ind. intros s ls r Hn E.
  rewrite parse_kleene in E by done. destruct (parse line_def true s) as [[l r1]|] eqn:El; simplify_eq; [|done].
  destruct (parse (kleene line_def) true r1) as [[ls1 r2]|] eqn:Ek; simplify_eq/=.
  pose proof (Hc _ _ _ El) as Hl. pose proof (parse_line s) as Hs. rewrite El in Hs.
  destruct Hs as (v & Hs & [Hv (body & e & -> & Hb & He)] & ->). rewrite line_value_make.
  split_and!; [done| |by apply (IH (length r1)) in Ek; [|lia..]]. split; [done|].
  exists body, e. split_and!; [done|done|]. destruct He as [?|[-> ->]]; [by left|right]. split; [done|].
  rewrite parse_kleene in Ek by done. pose proof (parse_line []) as H0.
  destruct (parse line_def true []) as [[l r0]|] eqn:E0; [|by simplify_eq].
  apply Hc in E0. simpl in E0. lia.
Qed.

(** Every configuration text is a sequence of lines: the parser of lines
    never fails, the lines put together are the text (without the zero bytes the
    skipper drops), a line is a comment exactly when it starts with "--", and it
    contains no end of line but its own, which only the last line may lack. *)
Theorem conf_lines_partition_text (conf : string) :
  exists ls, parse_conf_lines conf = Some ls
    /\ strip (concat (line_value <$> ls)) = strip (list_ascii_of_string conf) /\ lines_ok ls.
Proof.
  unfold parse_conf_lines, conf_def. rewrite parse_action, parse_seq.
  set (s := list_ascii_of_string conf).
  destruct (prints_kleene line_def line_value s prints_line) as (ls & r & E & Hn & Hs & _).
  rewrite E. cbn [mbind option_bind]. rewrite parse_eoi. pose proof (parse_line r) as Hr.
  rewrite Hn in Hr. cbn [skip]. rewrite Hr. cbn. exists ls. split; [done|].
  split; [|by eapply kleene_lines_ok].
  rewrite Hs. rewrite <- (strip_skip true r). cbn [skip]. rewrite Hr. by rewrite app_nil_r.
Qed.

(** ** Texts *)

Definition plain (c : ascii) : bool :=
  negb (bool_decide (c = ":"%char)) && negb (bool_decide (c = nul)).

Definition plain_char : parser ascii := minus (minus char_ (char_lit ":"%char)) (char_lit nul).

Lemma one_of_plain : one_of plain_char plain.
Proof.
  intros s. unfold plain_char, char_, char_lit. rewrite !parse_minus, !parse_char_if. simpl.
  destruct s as [|c s]; [done|]. unfold plain.
  destruct (bool_decide (c = nul)), (bool_decide (c = ":"%char)); done.
Qed.

(** One piece of a [text_part]. *)
Definition text_piece : parser (list ascii) :=
  lexeme (alt (string_ (list_ascii_of_string "::"))
    (alt (string_ (list_ascii_of_string ":=")) (plus plain_char))).

Lemma parse_text_piece k s : parse text_piece k s
  = let s := skip k s in
    match match_string (list_ascii_of_string "::") s with
    | Some r => Some (list_ascii_of_string "::", r)
    | None =>
        match match_string (list_ascii_of_string ":=") s with
        | Some r => Some (list_ascii_of_string ":=", r)
        | None => match span plain s with ([], _) => None | x => Some x end
        end
    end.
Proof.
  unfold text_piece. rewrite parse_lexeme, !parse_alt, !parse_string, (parse_plus_span _ _ _ one_of_plain).
  cbn [skip]. cbv zeta. generalize (skip k s). clear s. intros s.
  destruct (match_string (list_ascii_of_string "::") s); [done|].
  by destruct (match_string (list_ascii_of_string ":=") s).
Qed.

(** Characters consumed after those skipped. *)
Lemma consumed k s v r : skip k s = v ++ r -> v <> [] ->
  strip s = strip v ++ strip r /\ length r < length s.
Proof.
  intros Hs Hv. rewrite <- strip_app, <- Hs, strip_skip. split; [done|].
  apply (f_equal length) in Hs. rewrite length_app in Hs. pose proof (skip_length k s).
  destruct v; [done|]. simpl in *. lia.
Qed.

Lemma prints_text_piece : prints text_piece id.
Proof.
  intros s a r E. rewrite parse_text_piece in E. cbv zeta in E.
  assert (skip true s = a ++ r /\ a <> []) as [Hs Ha]; [|by eapply consumed].
  destruct (match_string (list_ascii_of_string "::") (skip true s)) eqn:E1;
    [apply match_string_spec in E1; by simplify_eq/=|].
  destruct (match_string (list_ascii_of_string ":=") (skip true s)) eqn:E2;
    [apply match_string_spec in E2; by simplify_eq/=|].
  pose proof (span_app plain (skip true s)) as Hs. destruct (span plain (skip true s)) as [[|c b] x];
    simplify_eq/=. done.
Qed.

Lemma text_part_pieces : text_part_def = action (@concat ascii) (plus text_piece).
Proof. done. Qed.

Lemma prints_text_part : prints text_part_def id.
Proof.
  intros s a r E. rewrite text_part_pieces, parse_action, parse_plus in E.
  destruct (parse text_piece true s) as [[b r1]|] eqn:E1; simplify_eq/=.
  destruct (prints_kleene text_piece id r1 prints_text_piece) as (l & r2 & E2 & _ & Hr & Hl).
  rewrite E2 in E. simplify_eq/=. apply prints_text_piece in E1 as [Hs Hl1]. split; [|lia].
  unfold id in *. rewrite Hs, Hr, list_fmap_id, app_assoc, <- strip_app. done.
Qed.

Lemma prints_parameter : prints parameter_name_def (fun n => ":"%char :: n).
Proof.
  intros s a r E. unfold parameter_name_def, lit in E. rewrite parse_action, parse_seq, parse_action,
    parse_string in E. destruct (match_string _ (skip true s)) as [r1|] eqn:E1; [|done].
  apply match_string_spec, consumed in E1 as [E1 Hl]; [|done].
  cbn [mbind option_bind] in E. rewrite parse_lexeme, (parse_plus_span _ _ _ (one_of_char_if _)) in E.
  pose proof (span_app is_name_char (skip true r1)) as Hs.
  destruct (span is_name_char (skip true r1)) as [[|c b] x]; [done|].
  apply (consumed true _ (c :: b)) in Hs as [Hs Hl1]; [|done]. simplify_eq/=.
  split; [|lia]. by rewrite E1, Hs.
Qed.

(** What an element stands for in the text of the query. *)
Definition element_text (e : query_text_element) : list ascii :=
  match e with
  | query_text_part t => list_ascii_of_string t
  | query_parameter_name n => ":"%char :: list_ascii_of_string n
  end.

Definition element_def : parser query_text_element :=
  alt (action (fun n => query_parameter_name (string_of_list_ascii n)) parameter_name_def)
      (action (fun t => query_text_part (string_of_list_ascii t)) text_part_def).

Lemma prints_element : prints element_def element_text.
Proof.
  intros s a r E. unfold element_def in E. rewrite parse_alt, !parse_action in E.
  destruct (parse parameter_name_def true s) as [[n r1]|] eqn:E1; simplify_eq/=.
  - apply prints_parameter in E1. by rewrite list_ascii_of_string_of_list_ascii.
  - destruct (parse text_part_def true s) as [[t r1]|] eqn:E2; simplify_eq/=.
    apply prints_text_part in E2. by rewrite list_ascii_of_string_of_list_ascii.
Qed.

(** C38: a query text that parses is what its elements print: the text parts and
    the parameter names behind a colon put together are the text without the zero
    bytes the skipper drops, nothing is lost and nothing is added. *)
Theorem parsed_text_prints_back (text : string) (es : list query_text_element) :
  parse_query_text text = Some es ->
  strip (concat (element_text <$> es)) = strip (list_ascii_of_string text).
Proof.
  unfold parse_query_text, text_def. fold element_def. rewrite parse_action, parse_seq.
  set (s := list_ascii_of_string text). intros E.
  destruct (prints_kleene element_def element_text s prints_element) as (l & r & Ek & _ & Hs & _).
  rewrite Ek in E. cbn [mbind option_bind] in E. rewrite parse_eoi in E. cbn [skip] in E.
  destruct (skip_nul r) eqn:Er; simplify_eq/=.
  rewrite Hs, <- (strip_skip true r). cbn [skip]. rewrite Er. by rewrite app_nil_r.
Qed.



























(** ** Headers *)

Lemma parse_lit t s : match s with c :: _ => c <> nul | [] => True end ->
  parse (lit t) true s = (r ← match_string (list_ascii_of_string t) s; Some (tt, r)).
Proof.
  intros Hs. unfold lit. rewrite parse_action, parse_string, skip_head by done.
  by destruct (match_string _ s).
Qed.

Lemma parse_lit_app c t r : c <> nul -> parse (lit (String c t)) true (list_ascii_of_string (String c t) ++ r) = Some (tt, r).
Proof. intros Hc. rewrite parse_lit by done. by rewrite (proj2 (match_string_spec _ _ r)). Qed.

(** White space before something else. *)
Lemma parse_spaces sp r : Forall (fun c => is_space c = true) sp ->
  match r with c :: _ => c <> nul /\ is_space c = false | [] => True end ->
  parse (kleene space) true (sp ++ r) = Some (sp, r).
Proof.
  assert (Hc : forall s a r, parse space true s = Some (a, r) -> length r < length s).
  { intros s a x. unfold space. rewrite parse_char_if. pose proof (skip_length true s).
    destruct (skip true s) as [|c t]; [done|]. destruct (is_space c); [|done]. intros [= _ <-].
    simpl in *. lia. }
  intros Hsp Hr. induction Hsp as [|c sp Hs Hsp IH]; rewrite parse_kleene by done; unfold space at 1;
    rewrite parse_char_if.
  - destruct r as [|c r]; [done|]. destruct Hr as [Hn Hs]. simpl app. rewrite skip_head by done. by rewrite Hs.
  - simpl app. rewrite skip_head by (by intros ->). rewrite Hs, IH. done.
Qed.

Lemma parse_header_name name e : name <> [] -> Forall (fun c => is_eol c = false) name ->
  match name with c :: _ => c <> nul | [] => True end -> e = [] \/ e ∈ line_ends ->
  parse (seq (lexeme (plus not_eol)) (seq (opt eol) eoi)) true (name ++ e)
  = Some ((name, (match e with [] => None | _ => Some tt end, tt)), []).
Proof.
  intros Hn Hc H0 He. rewrite parse_seq, parse_lexeme, (parse_plus_span _ _ _ one_of_not_eol).
  rewrite skip_head, (span_prefix _ name e).
  - destruct name as [|c name]; [done|]. cbn [mbind option_bind]. rewrite parse_seq, parse_opt, parse_eol.
    destruct He as [->|He]; [cbn [skip skip_nul match_eol mbind option_bind]; by rewrite parse_eoi|].
    assert (match_eol (skip true e) = Some []) as ->.
    { unfold line_ends in He. by repeat (apply elem_of_cons in He as [->|He]; [done|]); apply elem_of_nil in He. }
    cbn [mbind option_bind]. rewrite parse_eoi. unfold line_ends in He. by destruct e; [set_solver|].
  - eapply Forall_impl; [exact Hc|]. by intros c ->.
  - destruct He as [->|He]; [done|]. unfold line_ends in He.
    by repeat (apply elem_of_cons in He as [->|He]; [done|]); apply elem_of_nil in He.
  - by destruct name.
Qed.

(** A comment line "-- name: N", with any white space between its words and
    any end of line, is a header of the query named N, all that follows the white
    space after the colon. *)
Theorem header_names_query sp1 sp2 sp3 (name e : list ascii) :
  Forall (fun c => is_space c = true) (sp1 ++ sp2 ++ sp3) ->
  name <> [] -> Forall (fun c => is_eol c = false) name ->
  match name with c :: _ => c <> nul /\ is_space c = false | [] => True end ->
  e = [] \/ e ∈ line_ends ->
  parse_comment (string_of_list_ascii
    (list_ascii_of_string "--" ++ sp1 ++ list_ascii_of_string "name" ++ sp2
     ++ list_ascii_of_string ":" ++ sp3 ++ name ++ e))
  = Some (string_of_list_ascii name).
Proof.
  intros [H1 [H2 H3]%Forall_app]%Forall_app Hn Hc H0 He.
  unfold parse_comment, header_def. rewrite list_ascii_of_string_of_list_ascii.
  rewrite !parse_action, parse_seq, parse_lit_app by done. cbn [mbind option_bind].
  rewrite parse_action, parse_seq, parse_spaces by done. cbn [mbind option_bind].
  rewrite parse_action, parse_seq, parse_lit_app by done. cbn [mbind option_bind].
  rewrite parse_action, parse_seq, parse_spaces by done. cbn [mbind option_bind].
  rewrite parse_action, parse_seq, parse_lit_app by done. cbn [mbind option_bind].
  rewrite parse_action, parse_seq, parse_spaces by (done || by destruct name). cbn [mbind option_bind].
  rewrite parse_header_name; [done|done|done|by destruct name; naive_solver|done].
Qed.
End parsers.

(** ** The grammars run *)

Lemma parsed_text_prints_back_witness :
  @parse_query_text peg "SELECT :a::integer"
  = Some [query_text_part "SELECT "; query_parameter_name "a"; query_text_part "::integer"]%string
  /\ strip (concat (element_text <$> [query_text_part "SELECT "; query_parameter_name "a";
              query_text_part "::integer"]%string))
     = strip (list_ascii_of_string "SELECT :a::integer").
Proof.
  assert (E : @parse_query_text peg "SELECT :a::integer"
    = Some [query_text_part "SELECT "; query_parameter_name "a"; query_text_part "::integer"]%string)
    by (vm_compute; reflexivity).
  split; [exact E|]. apply (@parsed_text_prints_back peg _ _ E).
Defined.


(** [parse_query_conf] with the grammars run. *)
Example peg_parse_query_conf :
  parse_query_conf (@parse_conf_lines peg) (@parse_comment peg) (@parse_query_text peg)
    ("-- name: a" +:+ String lf ("SELECT :x" +:+ String lf ("-- name: b" +:+ String lf "SELECT 2")))
  = Return [ParsedQuery "a" [query_text_part "SELECT "; query_parameter_name "x"; query_text_part (String lf "")];
            ParsedQuery "b" [query_text_part "SELECT 2"]]%string.
Proof. vm_compute. reflexivity. Qed.
