(* ===== verification/Result.v ===== *)
(** * Query results: [result.h], [impl/result.h] and the row receivers of [io/recv.h]

    The [PGresult] of libpq is an interface, the class [pg_result]; a [value]
    and a [row] are its coordinates.  [recv_result] keeps what was received
    before an exception. *)

From Stdlib Require Import Strings.Byte.
From S2P Require Import Prelude Words Time Errors PgTypes TypeSystem Stream Codec CodecSize CodecRoundtrip.
Import PgTypes.
#[local] Open Scope string_scope.
#[local] Open Scope list_scope.
#[local] Open Scope Z_scope.

(** [result_format], an enumeration over [int] *)
Inductive result_format := format_text | format_binary.
Definition format_value (f : result_format) : Z := match f with format_text => 0 | format_binary => 1 end.

(** [PQftype], [PQfformat], [PQgetvalue], [PQgetlength], [PQgetisnull], [PQfnumber],
    [PQnfields], [PQntuples]. *)
Class pg_result (R : Type) := PgResult {
  field_type : R -> Z -> Z;
  field_format : R -> Z -> Z;
  get_value : R -> Z -> Z -> list byte;
  get_length : R -> Z -> Z -> Z;
  get_isnull : R -> Z -> Z -> bool;
  field_number : R -> string -> Z;
  nfields : R -> Z;
  ntuples : R -> Z
}.

(** What the library documents: a column number is -1 or that of a column. *)
Class pg_result_laws (R : Type) `{pg_result R} : Prop := {
  field_number_range r name : field_number r name = -1 \/ 0 <= field_number r name < nfields r;
  nfields_nonneg r : 0 <= nfields r;
  ntuples_nonneg r : 0 <= ntuples r
}.

Section result.
Context {R : Type} `{pg_result R}.

(** ** [value], [row] and [basic_result] *)

Record coordinates := Coordinates { res : R; row_ : Z; col : Z }.

Definition value_oid (v : coordinates) : Z := field_type (res v) (col v).
Definition value_is_text (v : coordinates) : bool :=
  field_format (res v) (col v) =? format_value format_text.
Definition value_is_binary (v : coordinates) : bool :=
  field_format (res v) (col v) =? format_value format_binary.
Definition value_data (v : coordinates) : list byte := get_value (res v) (row_ v) (col v).
Definition value_size (v : coordinates) : Z := get_length (res v) (row_ v) (col v).
Definition value_is_null (v : coordinates) : bool := get_isnull (res v) (row_ v) (col v).

(** A [row] is the coordinates of its first value; its iterators count columns. *)
Definition row_size (r : coordinates) : Z := nfields (res r).
Definition row_empty (r : coordinates) : bool := row_size r =? 0.
Definition row_advance (r : coordinates) (n : Z) : coordinates := Coordinates (res r) (row_ r) (col r + n).
Definition row_index (r : coordinates) (index : Z) : coordinates := row_advance r index.

(** [find(name)]: [None] is [end()]. *)
Definition row_find (r : coordinates) (name : string) : option coordinates :=
  let i := field_number (res r) name in
  if i =? -1 then None else Some (row_advance r i).

Definition row_at (r : coordinates) (index : Z) : may_throw coordinates :=
  if (index <? 0) || (row_size r <=? index) then Throw out_of_range else Return (row_index r index).

Definition row_at_name (r : coordinates) (name : string) : may_throw coordinates :=
  match row_find r name with
  | None => Throw out_of_range
  | Some v => Return v
  end.

(** [basic_result]: iteration over the rows, [at]. *)
Definition result_size (r : R) : Z := ntuples r.
Definition result_empty (r : R) : bool := result_size r =? 0.
Definition result_index (r : R) (i : Z) : coordinates := Coordinates r i 0.
Definition result_at (r : R) (i : Z) : may_throw coordinates :=
  if (i <? 0) || (result_size r <=? i) then Throw out_of_range else Return (result_index r i).
Definition result_rows (r : R) : list coordinates :=
  (fun i => result_index r (Z.of_nat i)) <$> seq 0 (Z.to_nat (result_size r)).

(** [at] is iteration with a bounds check. *)
Lemma result_at_rows r i c :
  result_at r i = Return c <-> 0 <= i /\ result_rows r !! Z.to_nat i = Some c.
Proof.
  unfold result_at, result_rows. rewrite list_lookup_fmap.
  destruct (Z.ltb_spec i 0); simpl; [split; [done|lia]|].
  destruct (Z.leb_spec (result_size r) i).
  - rewrite lookup_seq_ge by lia. split; [done|]. by intros [_ ?].
  - rewrite lookup_seq_lt by lia. simpl. rewrite Z2Nat.id by lia. naive_solver.
Qed.

(** ** [recv.h]: values, rows and results *)

Context (native : endian) (tick : Z) (oids : oid_map).

(** [recv(const value<T>& in, oids, out)] *)
Definition recv_value (t : cty) (v : coordinates) (out : den t) : may_throw (den t) :=
  let size := if value_is_null v then null_state_size else to_size_type (value_size v) in
  '(o, _) ← recv native tick oids t (IStream (take (Z.to_nat (value_size v)) (value_data v)) false)
              (value_oid v) size out;
  Return o.

(** The items of a sequence, column by column. *)
Fixpoint recv_columns (ts : list cty) : coordinates -> dens ts -> may_throw (dens ts) :=
  match ts return coordinates -> dens ts -> may_throw (dens ts) with
  | [] => fun _ _ => Return tt
  | t :: ts => fun i out =>
      v ← recv_value t i out.1;
      vs ← recv_columns ts (row_advance i 1) out.2;
      Return (v, vs)
  end.

(** The members of a structure, each from the column of its name. *)
Fixpoint recv_named (r : coordinates) (ts : list cty) : list string -> dens ts -> may_throw (dens ts) :=
  match ts return list string -> dens ts -> may_throw (dens ts) with
  | [] => fun _ _ => Return tt
  | t :: ts => fun names out =>
      match names with
      | [] => Throw range_error
      | name :: names =>
          match row_find r name with
          | None => Throw range_error
          | Some i =>
              v ← recv_value t i out.1;
              vs ← recv_named r ts names out.2;
              Return (v, vs)
          end
      end
  end.

(** [recv_row(in, oid_map, out)]: sequences by position, structures by name,
    anything else from the single column of the row. *)
Definition recv_row (t : cty) (r : coordinates) : den t -> may_throw (den t) :=
  match t return den t -> may_throw (den t) with
  | Tuple ts => fun out =>
      if negb (Z.of_nat (length ts) =? row_size r) then Throw range_error else recv_columns ts r out
  | Struct _ names ts => fun out =>
      if negb (Z.of_nat (length ts) =? row_size r) then Throw range_error else recv_named r ts names out
  | t => fun out => if negb (row_size r =? 1) then Throw range_error else recv_value t r out
  end.

(** [recv_result(in, oid_map, out)] with an insert iterator: a value-initialized
    object per row; what was inserted, and the exception if one was thrown. *)
Fixpoint recv_rows (t : cty) (rows : list coordinates) (out : list (den t)) : list (den t) * option exn :=
  match rows with
  | [] => (out, None)
  | r :: rows =>
      match recv_row t r (default_den t) with
      | Return v => recv_rows t rows (out ++ [v])
      | Throw e => (out, Some e)
      end
  end.

Definition recv_result (t : cty) (r : R) (out : list (den t)) : list (den t) * option exn :=
  recv_rows t (result_rows r) out.

(** The same with a forward iterator over existing objects; [None] when the rows
    outnumber them, which is undefined behaviour. *)
Fixpoint recv_rows_into (t : cty) (rows : list coordinates) (out : list (den t))
    : option (list (den t) * option exn) :=
  match rows, out with
  | [], _ => Some (out, None)
  | _ :: _, [] => None
  | r :: rows, o :: out =>
      match recv_row t r o with
      | Return v => p ← recv_rows_into t rows out; Some (v :: p.1, p.2)
      | Throw e => Some (o :: out, Some e)
      end
  end.

Definition recv_result_into (t : cty) (r : R) (out : list (den t)) : option (list (den t) * option exn) :=
  recv_rows_into t (result_rows r) out.

(** ** Lemmas *)

(** The server sent [v] as a value of [t] in this cell. *)
Definition cell_holds (c : coordinates) (t : cty) (v : den t) : Prop :=
  value_oid c = type_oid oids t
  /\ value_is_null c = is_null v
  /\ (is_null v = true \/
      value_data c = bytes_of native tick oids t v /\ value_size c = len (bytes_of native tick oids t v)).

(** [v] can be sent and received. *)
Definition transferable (t : cty) (v : den t) : Prop :=
  regular t v /\ representable tick t v /\ len (bytes_of native tick oids t v) <= size_max.

Context (Htick : clock_ok tick) (Hoids : oids_in_range oids).

Lemma recv_value_ok t c v : transferable t v -> cell_holds c t v ->
  recv_value t c (default_den t) = Return v.
Proof using Htick Hoids.
  intros (Hr & Hp & Hl) (Ho & Hn & Hd). unfold recv_value, recv. rewrite Ho, Hn.
  pose proof (size_of_spec native tick oids t v Hr Hl) as Hs.
  assert (forall more, recv_with oids (recv_impl native tick oids t)
            (IStream (bytes_of native tick oids t v ++ more) false) (Some (type_oid oids t))
            (size_of t v) (default_den t) = Return (v, IStream more false)) as Hok.
  { intros more. apply recv_with_ok; [done|by apply received_all|done|by right]. }
  destruct (is_null v) eqn:En.
  - destruct (null_value t v En) as [Hnull ->]. unfold recv_with. rewrite Hnull. done.
  - destruct Hd as [Hd|[Hd Hsz]]; [done|]. rewrite Hd, Hsz, Hs in *. rewrite to_size_type_id by (unfold len in *; lia).
    unfold len at 1. rewrite Nat2Z.id, take_ge by done.
    specialize (Hok []). rewrite app_nil_r in Hok. by rewrite Hok.
Qed.

(** All members of a composite sit in the cells [cell] assigns to them. *)
Fixpoint cells_hold (cell : nat -> option coordinates) (k : nat) (ts : list cty) : dens ts -> Prop :=
  match ts return dens ts -> Prop with
  | [] => fun _ => True
  | t :: ts => fun v =>
      (exists c, cell k = Some c /\ transferable t v.1 /\ cell_holds c t v.1)
      /\ cells_hold cell (S k) ts v.2
  end.

Lemma row_advance_add r a b : row_advance (row_advance r a) b = row_advance r (a + b).
Proof using. unfold row_advance. simpl. by rewrite Z.add_assoc. Qed.

Lemma recv_columns_ok r k ts v :
  cells_hold (fun j => Some (row_advance r (Z.of_nat j))) k ts v ->
  recv_columns ts (row_advance r (Z.of_nat k)) (default_dens ts) = Return v.
Proof using Htick Hoids.
  revert k v. induction ts as [|t ts IH]; intros k v Hc; [by destruct v|].
  destruct Hc as [(c & [= <-] & Ht & Hh) Hc]. cbn [recv_columns default_dens fst snd].
  rewrite (recv_value_ok t _ v.1) by done. cbn [mbind outcome_bind].
  rewrite row_advance_add. replace (Z.of_nat k + 1) with (Z.of_nat (S k)) by lia.
  rewrite (IH _ _ Hc). simpl. by destruct v.
Qed.

Lemma recv_named_ok r ts v : forall names k all, drop k all = names -> length names = length ts ->
  cells_hold (fun j => n ← all !! j; row_find r n) k ts v ->
  recv_named r ts names (default_dens ts) = Return v.
Proof using Htick Hoids.
  induction ts as [|t ts IH]; intros names k all Hk Hlen Hc; [by destruct v|].
  destruct names as [|n names]; [done|]. destruct Hc as [(c & Hf & Ht & Hh) Hc].
  assert (all !! k = Some n) as Hn by (rewrite <- (Nat.add_0_r k), <- lookup_drop, Hk; done).
  rewrite Hn in Hf. cbn [mbind option_bind] in Hf. cbn [recv_named default_dens fst snd]. rewrite Hf.
  rewrite (recv_value_ok t c v.1) by done. cbn [mbind outcome_bind].
  erewrite (IH v.2 names (S k) all); [by destruct v| |simpl in Hlen; lia|done].
  rewrite <- Nat.add_1_r, <- drop_drop, Hk. done.
Qed.

(** A member without a column throws [range_error], unless an earlier member's
    column could not be received. *)
Lemma recv_named_missing r ts : forall names k n out, length names = length ts ->
  names !! k = Some n -> row_find r n = None ->
  exists e, recv_named r ts names out = Throw e
    /\ (e = range_error \/ exists j t n' c o, (j < k)%nat /\ names !! j = Some n' /\ ts !! j = Some t
          /\ row_find r n' = Some c /\ recv_value t c o = Throw e).
Proof using.
  induction ts as [|t ts IH]; intros names k n out Hlen Hk Hn; [by destruct names|].
  destruct names as [|n0 names]; [done|]. cbn [recv_named].
  destruct (row_find r n0) as [c|] eqn:Hf; [|by exists range_error; auto].
  destruct k as [|k]; [injection Hk as ->; congruence|].
  destruct (recv_value t c out.1) as [v|e] eqn:Ev; cbn [mbind outcome_bind].
  - destruct (IH names k n out.2) as (e & -> & He); [simpl in Hlen; lia|done..|]. exists e. split; [done|].
    destruct He as [He|(j & t' & n' & c' & o & Hj & He)]; [by left|right]. exists (S j), t', n', c', o.
    split; [lia|done].
  - exists e. split; [done|right]. exists 0%nat, t, n0, c, out.1. split; [lia|done].
Qed.

Lemma recv_rows_app t rows out :
  (forall r, r ∈ rows -> exists v, recv_row t r (default_den t) = Return v) ->
  exists vs, recv_rows t rows out = (out ++ vs, None)
    /\ Forall2 (fun r v => recv_row t r (default_den t) = Return v) rows vs.
Proof using.
  revert out. induction rows as [|r rows IH]; intros out Hall.
  - exists []. rewrite app_nil_r. split; [done|constructor].
  - destruct (Hall r) as [v Hv]; [left|]. cbn [recv_rows]. rewrite Hv.
    destruct (IH (out ++ [v])) as (vs & -> & Hvs).
    { intros r' Hr'. apply Hall. by right. }
    exists (v :: vs). rewrite <- app_assoc. split; [done|]. by constructor.
Qed.

Lemma recv_rows_fail t rows1 r rows2 out vs e :
  Forall2 (fun r v => recv_row t r (default_den t) = Return v) rows1 vs ->
  recv_row t r (default_den t) = Throw e ->
  recv_rows t (rows1 ++ r :: rows2) out = (out ++ vs, Some e).
Proof using.
  intros Hvs He. revert out. induction Hvs as [|r1 v1 rows1 vs Hv _ IH]; intros out; cbn [app recv_rows].
  - by rewrite He, app_nil_r.
  - rewrite Hv, IH. by rewrite <- app_assoc.
Qed.

End result.
Arguments coordinates : clear implicits.

(** ** A result held in memory *)

(** The columns (name and oid) and the rows of a result; [None] is an SQL NULL. *)
Record table := Table { t_columns : list (string * Z); t_rows : list (list (option (list byte))) }.

Definition table_cell (r : table) (i j : Z) : option (list byte) :=
  row ← t_rows r !! Z.to_nat i; cell ← row !! Z.to_nat j; cell.

#[export] Instance table_result : pg_result table := {
  field_type r j := default 0 (snd <$> t_columns r !! Z.to_nat j);
  field_format r j := format_value format_binary;
  get_value r i j := default [] (table_cell r i j);
  get_length r i j := Z.of_nat (length (default [] (table_cell r i j)));
  get_isnull r i j := match table_cell r i j with Some _ => false | None => true end;
  field_number r name := match list_find (fun c => c.1 = name) (t_columns r) with
                         | Some (i, _) => Z.of_nat i
                         | None => -1
                         end;
  nfields r := Z.of_nat (length (t_columns r));
  ntuples r := Z.of_nat (length (t_rows r))
}.

#[export] Instance table_result_laws : pg_result_laws table.
Proof.
  split; simpl; intros r; [intros name|lia|lia].
  destruct (list_find _ _) as [[i c]|] eqn:E; [right|by left].
  apply list_find_Some in E as (Hi & _). apply lookup_lt_Some in Hi. lia.
Qed.

Module ResultRows.

(** C33: a row is received into an adapted structure by column names: in
    whatever order the columns come, if the column of each member's name holds
    the member's value then the structure is received with exactly those
    values; another number of columns throws [range_error], and so does any member
    without a column, unless the column of a member before it was found and could
    not be received, which throws that exception. *)
Theorem recv_row_by_name {R : Type} `{pg_result R} (native : endian) (tick : Z) (oids : oid_map)
    (r : coordinates R) (name : string) (members : list string) (ts : list cty) (v : dens ts)
    (Htick : clock_ok tick) (Hoids : oids_in_range oids) (Hlen : length members = length ts) :
  (row_size r = Z.of_nat (length ts) ->
   cells_hold native tick oids (fun j => n ← members !! j; row_find r n) 0 ts v ->
   recv_row native tick oids (Struct name members ts) r (default_dens ts) = Return v)
  /\ (row_size r <> Z.of_nat (length ts) ->
      forall out, recv_row native tick oids (Struct name members ts) r out = Throw range_error)
  /\ (forall k m, members !! k = Some m -> row_find r m = None ->
      forall out, exists e, recv_row native tick oids (Struct name members ts) r out = Throw e
        /\ (e = range_error
            \/ exists j t n c o, (j < k)%nat /\ members !! j = Some n /\ ts !! j = Some t
                 /\ row_find r n = Some c /\ recv_value native tick oids t c o = Throw e)).
Proof.
  split_and!.
  - intros Hs Hc. cbn [recv_row]. rewrite Hs, Z.eqb_refl. cbn [negb].
    by apply (recv_named_ok native tick oids Htick Hoids r ts v members 0 members).
  - intros Hs out. cbn [recv_row]. by rewrite (proj2 (Z.eqb_neq _ _)).
  - intros k m Hm Hf out. cbn [recv_row]. destruct (negb _); [by exists range_error; auto|].
    by eapply recv_named_missing.
Qed.

Lemma recv_row_by_name_witness :
  recv_row little 1000 [] (Struct "user" ["id"; "name"] [Scalar sc_int4; Nullable (Scalar sc_text)])
    (Coordinates (Table [("name", 25); ("id", 23)] [[Some [x41]; Some [x00; x00; x00; x07]]]) 0 0)
    (default_dens [Scalar sc_int4; Nullable (Scalar sc_text)])
  = Return (7, (Some [x41], tt)).
Proof.
  apply (recv_row_by_name little 1000 []).
  - vm_compute. intuition discriminate.
  - constructor.
  - reflexivity.
  - reflexivity.
  - split; [|split; [|exact I]].
    + eexists. split; [reflexivity|]. split.
      * split; [exact I|]. split; [vm_compute; split; discriminate|vm_compute; discriminate].
      * split; [reflexivity|]. split; [reflexivity|]. right. split; reflexivity.
    + eexists. split; [reflexivity|]. split.
      * split; [split; [reflexivity|exact I]|]. split; [exact I|vm_compute; discriminate].
      * split; [reflexivity|]. split; [reflexivity|]. right. split; reflexivity.
Defined.

(** C34: an insert iterator gets one object per row, in order; when a row
    cannot be received the objects of the rows before it have been inserted,
    nothing after it, and the exception is that row's. *)
Theorem recv_result_inserts_prefix {R : Type} `{pg_result R} (native : endian) (tick : Z)
    (oids : oid_map) (t : cty) (r : R) (out : list (den t)) :
  (exists vs, recv_result native tick oids t r out = (out ++ vs, None)
     /\ Forall2 (fun c v => recv_row native tick oids t c (default_den t) = Return v) (result_rows r) vs)
  \/ (exists before row after vs e, result_rows r = before ++ row :: after
     /\ Forall2 (fun c v => recv_row native tick oids t c (default_den t) = Return v) before vs
     /\ recv_row native tick oids t row (default_den t) = Throw e
     /\ recv_result native tick oids t r out = (out ++ vs, Some e)).
Proof.
  unfold recv_result. induction (result_rows r) as [|c rows IH] using rev_ind.
  - left. exists []. simpl. rewrite app_nil_r. split; [done|constructor].
  - destruct IH as [(vs & Hr & Hvs)|(before & row & after & vs & e & -> & Hvs & He & Hr)].
    + destruct (recv_row native tick oids t c (default_den t)) as [v|e] eqn:Ec.
      * left. destruct (recv_rows_app native tick oids t (rows ++ [c]) out) as (vs' & Hr' & Hvs').
        { intros c' [Hin|Hin%list_elem_of_singleton]%elem_of_app; [|subst; by exists v].
          apply list_elem_of_lookup in Hin as [i Hi].
          destruct (Forall2_lookup_l _ _ _ _ _ Hvs Hi) as (v' & _ & Hv'). by exists v'. }
        by exists vs'.
      * right. exists rows, c, [], vs, e. split_and!; [done..|]. by apply recv_rows_fail.
    + right. exists before, row, (after ++ [c]), vs, e. rewrite <- app_assoc. cbn [app].
      split_and!; [done..|]. by apply recv_rows_fail.
Qed.

End ResultRows.
