(* ===== verification/ResultAccess.v ===== *)
(** * Access to a raw result: iterators and handles of [result.h]

    [Result] addresses rows and values by coordinates.  Here are the objects a user
    of [ozo::result] and [ozo::shared_result] has: the iterators with their [int]
    positions, whose loops are proved to visit the coordinates of [Result], and the
    owners of the [PGresult], which is proved to be cleared once. *)

From stdpp Require Import sets.
From Stdlib Require Import Strings.Byte.
From S2P Require Import Prelude Words Time Errors PgTypes TypeSystem Stream Codec Result.
#[local] Open Scope string_scope.
#[local] Open Scope list_scope.
#[local] Open Scope Z_scope.

(** ** Iterators *)

Section iterators.
Context {R : Type} `{pg_result R}.
(** The results libpq has allocated, by address. *)
Context (mem : nat -> option R).

(** [coordinates] as an iterator holds them: a pointer, which may be null, and two
    [int]s. *)
Record iterator := Iterator { it_res : option nat; it_row : Z; it_col : Z }.

(** Addition of [int]s; [None] when it overflows. *)
Definition int_add (a n : Z) : option Z := if in_rangeb int32_t (a + n) then Some (a + n) else None.

(** [row::const_iterator]: [dereference], [equal], [advance]. *)
Definition row_it_deref (i : iterator) : option (coordinates R) :=
  p ← it_res i; r ← mem p; Some (Coordinates r (it_row i) (it_col i)).
Definition row_it_equal (i j : iterator) : bool :=
  bool_decide (it_res i = it_res j) && (it_col i =? it_col j) && (it_row i =? it_row j).
Definition row_it_advance (n : Z) (i : iterator) : option iterator :=
  c ← int_add (it_col i) n; Some (Iterator (it_res i) (it_row i) c).

(** [row::begin], [row::end], [row::find]; a [row] is the iterator at its first
    value. *)
Definition row_begin (first : iterator) : iterator := first.
Definition row_of (first : iterator) : option R := it_res first ≫= mem.
Definition row_end (first : iterator) : option iterator :=
  r ← row_of first; row_it_advance (nfields r) (row_begin first).
Definition row_find_it (first : iterator) (name : string) : option iterator :=
  r ← row_of first;
  let i := field_number r name in
  if i =? -1 then row_end first else row_it_advance i (row_begin first).

(** [row::at(name)]; the outer [None] is undefined behaviour. *)
Definition row_it_at_name (first : iterator) (name : string) : option (may_throw (coordinates R)) :=
  i ← row_find_it first name; e ← row_end first;
  if row_it_equal i e then Some (Throw out_of_range) else v ← row_it_deref i; Some (Return v).

(** [basic_result::const_iterator] *)
Definition result_it_deref (i : iterator) : iterator := i.
Definition result_it_equal (i j : iterator) : bool :=
  bool_decide (it_res i = it_res j) && (it_row i =? it_row j).
Definition result_it_advance (n : Z) (i : iterator) : option iterator :=
  r ← int_add (it_row i) n; Some (Iterator (it_res i) r (it_col i)).

(** [basic_result::begin], [end], of a result with this native handle. *)
Definition result_begin (h : option nat) : iterator := Iterator h 0 0.
Definition result_end (h : option nat) : option iterator :=
  r ← h ≫= mem; result_it_advance (ntuples r) (result_begin h).

(** [for (; it != end; ++it) f( *it)], for at most [fuel] turns. *)
Fixpoint for_each {A} (equal : iterator -> iterator -> bool) (next : iterator -> option iterator)
    (deref : iterator -> option A) (fuel : nat) (i e : iterator) : option (list A) :=
  match fuel with
  | O => None
  | S fuel =>
      if equal i e then Some [] else
      a ← deref i; i ← next i; l ← for_each equal next deref fuel i e; Some (a :: l)
  end.

(** The rows and the values of a row, as a range-for visits them. *)
Definition iterate_rows (fuel : nat) (h : option nat) : option (list (coordinates R)) :=
  e ← result_end h;
  for_each result_it_equal (result_it_advance 1) (fun i => row_it_deref (result_it_deref i)) fuel (result_begin h) e.
Definition iterate_values (fuel : nat) (first : iterator) : option (list (coordinates R)) :=
  e ← row_end first;
  for_each row_it_equal (row_it_advance 1) row_it_deref fuel (row_begin first) e.

(** The columns of a row of [Result]. *)
Definition row_values (c : coordinates R) : list (coordinates R) :=
  (fun j => row_advance c (Z.of_nat j)) <$> seq 0 (Z.to_nat (row_size c)).

(** A loop that counts from [k] to [n] visits what lies between. *)
Lemma for_each_counts {A} equal next (deref : iterator -> option A) (pos : nat -> iterator) (at_ : nat -> A) n :
  (forall k, (k <= n)%nat -> equal (pos k) (pos n) = bool_decide (k = n)) ->
  (forall k, (k < n)%nat -> next (pos k) = Some (pos (S k)) /\ deref (pos k) = Some (at_ k)) ->
  forall k fuel, (k <= n)%nat -> (n - k < fuel)%nat ->
  for_each equal next deref fuel (pos k) (pos n) = Some (at_ <$> seq k (n - k)).
Proof using.
  intros Heq Hnext k fuel. revert k. induction fuel as [|fuel IH]; intros k Hk Hf; [lia|].
  cbn [for_each]. rewrite Heq by done. case_bool_decide as Hkn.
  - subst k. by rewrite Nat.sub_diag.
  - destruct (Hnext k) as [-> ->]; [lia|]. cbn [mbind option_bind]. rewrite IH by lia. cbn [mbind option_bind].
    replace (n - k)%nat with (S (n - S k)) by lia. done.
Qed.

Lemma int_add_in a n : it_min int32_t <= a + n <= it_max int32_t -> int_add a n = Some (a + n).
Proof using.
  intros Hr. unfold int_add. assert (in_rangeb int32_t (a + n) = true) as ->; [|done].
  unfold in_rangeb. apply andb_true_iff. split; apply Z.leb_le; lia.
Qed.

(** [PQntuples] and [PQnfields] are [int]s. *)
Definition sizes_fit (r : R) : Prop :=
  0 <= ntuples r <= it_max int32_t /\ 0 <= nfields r <= it_max int32_t.

Lemma result_end_spec p r : mem p = Some r -> sizes_fit r ->
  result_end (Some p) = Some (Iterator (Some p) (ntuples r) 0).
Proof using.
  intros Hp [Hn _]. unfold result_end. simpl. rewrite Hp. simpl. unfold result_it_advance. simpl.
  by rewrite int_add_in by (unfold it_min; simpl in *; lia).
Qed.

Lemma iterate_rows_spec p r fuel : mem p = Some r -> sizes_fit r -> ntuples r < Z.of_nat fuel ->
  iterate_rows fuel (Some p) = Some (result_rows r).
Proof using.
  intros Hp Hs Hf. unfold iterate_rows. rewrite (result_end_spec p r) by done. cbn [mbind option_bind].
  destruct Hs as [Hn _]. set (n := Z.to_nat (ntuples r)).
  pose (pos := fun k => Iterator (Some p) (Z.of_nat k) 0).
  replace (Iterator _ (ntuples r) _) with (pos n) by (unfold pos, n; f_equal; lia).
  change (result_begin (Some p)) with (pos 0%nat).
  rewrite (for_each_counts _ _ _ pos (fun k => result_index r (Z.of_nat k)) n);
    [by rewrite Nat.sub_0_r| | |lia|unfold n; lia].
  - intros k Hk. unfold result_it_equal, pos. simpl. rewrite bool_decide_eq_true_2 by done. simpl.
    case_bool_decide; [subst; apply Z.eqb_refl|apply Z.eqb_neq; lia].
  - intros k Hk. unfold result_it_advance, row_it_deref, result_it_deref, pos. simpl.
    rewrite int_add_in by (unfold it_min, n in *; simpl in *; lia). rewrite Hp. simpl. split; [|done].
    do 2 f_equal. lia.
Qed.

Lemma row_end_spec p r i : mem p = Some r -> sizes_fit r ->
  row_end (Iterator (Some p) i 0) = Some (Iterator (Some p) i (nfields r)).
Proof using.
  intros Hp [_ Hn]. unfold row_end, row_of. simpl. rewrite Hp. simpl. unfold row_it_advance. simpl.
  by rewrite int_add_in by (unfold it_min; simpl in *; lia).
Qed.

Lemma iterate_values_spec p r i fuel : mem p = Some r -> sizes_fit r -> nfields r < Z.of_nat fuel ->
  iterate_values fuel (Iterator (Some p) i 0) = Some (row_values (result_index r i)).
Proof using.
  intros Hp Hs Hf. unfold iterate_values. rewrite (row_end_spec p r) by done. cbn [mbind option_bind].
  destruct Hs as [_ Hn]. set (n := Z.to_nat (nfields r)).
  pose (pos := fun k => Iterator (Some p) i (Z.of_nat k)).
  replace (Iterator _ _ (nfields r)) with (pos n) by (unfold pos, n; f_equal; lia).
  change (row_begin _) with (pos 0%nat).
  rewrite (for_each_counts _ _ _ pos (fun k => row_advance (result_index r i) (Z.of_nat k)) n);
    [by rewrite Nat.sub_0_r| | |lia|unfold n; lia].
  - intros k Hk. unfold row_it_equal, pos. simpl. rewrite bool_decide_eq_true_2 by done.
    rewrite Z.eqb_refl, andb_true_r. simpl.
    case_bool_decide; [subst; apply Z.eqb_refl|apply Z.eqb_neq; lia].
  - intros k Hk. unfold row_it_advance, row_it_deref, pos. simpl.
    rewrite int_add_in by (unfold it_min, n in *; simpl in *; lia). rewrite Hp. simpl. split; [|done].
    do 2 f_equal. lia.
Qed.

(** [find] and [at] by name are those of [Result]. *)
Lemma ends_meet p r i : mem p = Some r -> sizes_fit r ->
  result_it_equal (result_begin (Some p)) <$> result_end (Some p) = Some (result_empty r)
  /\ row_it_equal (row_begin (Iterator (Some p) i 0)) <$> row_end (Iterator (Some p) i 0)
     = Some (row_empty (result_index r i)).
Proof using.
  intros Hp Hs. rewrite (result_end_spec p r), (row_end_spec p r i) by done.
  unfold result_it_equal, row_it_equal, result_empty, row_empty, result_size, row_size. simpl.
  rewrite !bool_decide_eq_true_2 by done. simpl. rewrite Z.eqb_refl, andb_true_r. split; f_equal; apply Z.eqb_sym.
Qed.

Lemma row_it_at_name_spec `{!pg_result_laws R} p r i name : mem p = Some r -> sizes_fit r ->
  row_it_at_name (Iterator (Some p) i 0) name = Some (row_at_name (result_index r i) name).
Proof.
  intros Hp Hs. unfold row_it_at_name, row_find_it, row_of. cbn [it_res mbind option_bind]. rewrite Hp.
  cbn [mbind option_bind]. rewrite (row_end_spec p r) by done. unfold row_at_name, row_find. simpl.
  destruct (Z.eqb_spec (field_number r name) (-1)) as [E|E]; simpl.
  - unfold row_it_equal. simpl. rewrite bool_decide_eq_true_2 by done. by rewrite !Z.eqb_refl.
  - destruct (field_number_range r name) as [?|Hn]; [done|]. destruct Hs as [_ Hs]. unfold row_it_advance. simpl.
    rewrite int_add_in by (unfold it_min; simpl in *; lia). simpl. unfold row_it_equal. simpl.
    rewrite bool_decide_eq_true_2 by done. cbn [andb].
    destruct (Z.eqb_spec (0 + field_number r name) (nfields r)); [lia|]. unfold row_it_deref. simpl. by rewrite Hp.
Qed.
End iterators.

(** ** Handles *)

(** A [result] or the [pg::result] it holds, or a [shared_result] or its
    [pg::shared_result]: who owns which [PGresult]. *)
Record holder := Holder { is_shared : bool; handle_ : option nat }.

(** [basic_result::native_handle()] and [valid()] *)
Definition native_handle (h : holder) : option nat := handle_ h.
Definition valid (h : holder) : bool := match handle_ h with Some _ => true | None => false end.

(** What a move leaves behind. *)
Definition emptied (h : holder) : holder := Holder (is_shared h) None.

(** The holders of a program by their address, and the calls of [PQclear]. *)
Record holders := Holders { objects_ : list (option holder); cleared : list nat }.

Inductive holder_op :=
| Receive (x p : nat)
| Move (x y : nat)
| Share (x y : nat)
| Copy (x y : nat)
| MoveAssign (x y : nat)
| CopyAssign (x y : nat)
| Drop (x : nat).

Definition holder_at (x : nat) (s : holders) : option holder := mjoin (objects_ s !! x).
Definition is_vacant (x : nat) (s : holders) : bool :=
  match objects_ s !! x with Some None => true | _ => false end.

(** The references to results that objects hold. *)
Definition reference (o : option holder) : option (bool * nat) :=
  h ← o; p ← handle_ h; Some (is_shared h, p).
Definition references (l : list (option holder)) : list (bool * nat) := omap reference l.

Definition put (x : nat) (o : option holder) (s : holders) : holders :=
  Holders (<[x := o]> (objects_ s)) (cleared s).

(** The destructor of what a holder held: the deleter of a [unique_ptr], or the
    last [shared_ptr], clears the result. *)
Definition let_go (o : option holder) (s : holders) : holders :=
  match reference o with
  | Some (false, p) => Holders (objects_ s) (cleared s ++ [p])
  | Some (true, p) =>
      if decide (p ∈ (references (objects_ s)).*2) then s else Holders (objects_ s) (cleared s ++ [p])
  | None => s
  end.

(** One operation; [None] when the program is not well formed.  [Receive]:
    [make_result] of a result of libpq; [Move]: move construction, or [release()]
    into another object; [Share]: [shared_result(result&&)], by [to_impl];
    assignment of an object to itself changes nothing. *)
Definition holder_exec (a : holder_op) (s : holders) : option holders :=
  match a with
  | Receive x p => if is_vacant x s then Some (put x (Some (Holder false (Some p))) s) else None
  | Move x y =>
      h ← holder_at y s;
      if is_vacant x s then Some (put y (Some (emptied h)) (put x (Some h) s)) else None
  | Share x y =>
      h ← holder_at y s;
      if is_vacant x s && negb (is_shared h)
      then Some (put y (Some (emptied h)) (put x (Some (Holder true (handle_ h))) s)) else None
  | Copy x y =>
      h ← holder_at y s;
      if is_vacant x s && is_shared h then Some (put x (Some h) s) else None
  | MoveAssign x y =>
      old ← holder_at x s; h ← holder_at y s;
      if negb (Bool.eqb (is_shared old) (is_shared h)) then None
      else if decide (x = y) then Some s
      else Some (let_go (Some old) (put y (Some (emptied h)) (put x (Some h) s)))
  | CopyAssign x y =>
      old ← holder_at x s; h ← holder_at y s;
      if is_shared old && is_shared h then Some (let_go (Some old) (put x (Some h) s)) else None
  | Drop x => old ← holder_at x s; Some (let_go (Some old) (put x None s))
  end.

Fixpoint holder_exec_all (prog : list holder_op) (s : holders) : option holders :=
  match prog with
  | [] => Some s
  | a :: prog => s ← holder_exec a s; holder_exec_all prog s
  end.

(** The results a program got from libpq. *)
Definition received (prog : list holder_op) : list nat :=
  omap (fun a => match a with Receive _ p => Some p | _ => None end) prog.

(** ** Each result has its owners or was cleared *)

Definition owned_alone (l : list (bool * nat)) : list nat :=
  omap (fun r => if (r.1 : bool) then None else Some r.2) l.
Definition owned_shared (l : list (bool * nat)) : list nat :=
  omap (fun r => if (r.1 : bool) then Some r.2 else None) l.

(** Every result once: those with one owner, those with several, those cleared. *)
Definition account (l : list (bool * nat)) (c : list nat) : list nat :=
  owned_alone l ++ remove_dups (owned_shared l) ++ c.

#[export] Instance remove_dups_perm : Proper ((≡ₚ) ==> (≡ₚ)) (remove_dups (A := nat)).
Proof.
  intros l1 l2 Hl. apply NoDup_Permutation; [apply NoDup_remove_dups..|].
  intros p. rewrite !elem_of_remove_dups. by rewrite Hl.
Qed.

#[export] Instance account_perm : Proper ((≡ₚ) ==> (≡ₚ) ==> (≡ₚ)) account.
Proof. intros l1 l2 Hl c1 c2 Hc. unfold account, owned_alone, owned_shared. by rewrite Hl, Hc. Qed.

Lemma owned_split l p : p ∈ l.*2 <-> p ∈ owned_alone l \/ p ∈ owned_shared l.
Proof.
  unfold owned_alone, owned_shared. rewrite list_elem_of_fmap, !list_elem_of_omap. split.
  - intros ([[] p'] & -> & Hin); [right|left]; eexists; (split; [exact Hin|done]).
  - intros [([[] p'] & Hin & E)|([[] p'] & Hin & E)]; simplify_eq/=; eexists; (split; [|exact Hin]); done.
Qed.

Lemma account_alone p l c : account ((false, p) :: l) c = p :: account l c.
Proof. done. Qed.

Lemma account_shared_cons p l c : account ((true, p) :: l) c
  = owned_alone l ++ (if decide (p ∈ owned_shared l) then remove_dups (owned_shared l)
                      else p :: remove_dups (owned_shared l)) ++ c.
Proof. done. Qed.

Lemma account_shared p l c : NoDup (account ((true, p) :: l) c) ->
  account ((true, p) :: l) c ≡ₚ (if decide (p ∈ l.*2) then [] else [p]) ++ account l c.
Proof.
  rewrite account_shared_cons. intros Hnd. destruct (decide (p ∈ owned_shared l)) as [Hs|Hs].
  - rewrite decide_True; [done|]. apply owned_split. by right.
  - rewrite decide_False; [unfold account; solve_Permutation|]. rewrite owned_split. intros [Ha|Ha]; [|done].
    apply NoDup_app in Hnd as (_ & Hd & _). apply (Hd p Ha). left.
Qed.

(** A second shared reference changes nothing. *)
Lemma reference_again p l c : (true, p) ∈ l -> account ((true, p) :: l) c ≡ₚ account l c.
Proof.
  intros Hin. rewrite account_shared_cons, decide_True; [done|].
  unfold owned_shared. apply list_elem_of_omap. by exists (true, p).
Qed.

(** What is let go is cleared if nothing else refers to it. *)
Lemma let_go_account o s : let refs := option_list (reference o) ++ references (objects_ s) in
  NoDup (account refs (cleared s)) ->
  account (references (objects_ (let_go o s))) (cleared (let_go o s)) ≡ₚ account refs (cleared s).
Proof.
  intros refs Hnd. subst refs. unfold let_go.
  assert (forall p, account (references (objects_ s)) (cleared s ++ [p])
                    ≡ₚ p :: account (references (objects_ s)) (cleared s)) as Hone
    by (intros p; unfold account; solve_Permutation).
  destruct (reference o) as [[[] p]|]; [|exact (Hone p)|done].
  etransitivity; [|symmetry; exact (account_shared p _ _ Hnd)]. case_decide; [done|]. exact (Hone p).
Qed.

Lemma references_put x o o' s : objects_ s !! x = Some o ->
  option_list (reference o') ++ references (objects_ s) ≡ₚ option_list (reference o) ++ references (objects_ (put x o' s)).
Proof. intros E. exact (omap_insert_perm reference _ x o o' E). Qed.

Lemma holder_at_lookup x s h : holder_at x s = Some h -> objects_ s !! x = Some (Some h).
Proof. unfold holder_at. destruct (objects_ s !! x) as [[]|]; simpl; congruence. Qed.

Lemma vacant_lookup x s : is_vacant x s = true -> objects_ s !! x = Some None.
Proof. unfold is_vacant. by destruct (objects_ s !! x) as [[]|]. Qed.

(** A handle moves from [y] to the object [k] at [x], which held nothing. *)
Lemma references_move x y h k o s : objects_ s !! x = Some o -> holder_at y s = Some h -> x <> y ->
  option_list (reference (Some k)) ++ references (objects_ s)
  ≡ₚ option_list (reference o) ++ option_list (reference (Some h))
       ++ references (objects_ (put y (Some (emptied h)) (put x (Some k) s))).
Proof.
  intros Hx Hy%holder_at_lookup Hn. rewrite (references_put x o (Some k) s Hx). f_equiv.
  rewrite <- (references_put y (Some h) (Some (emptied h)) (put x (Some k) s)); [done|].
  simpl. by rewrite list_lookup_insert_ne.
Qed.

Lemma vacant_ne x y s h : is_vacant x s = true -> holder_at y s = Some h -> x <> y.
Proof. intros Hx%vacant_lookup Hy%holder_at_lookup ->. congruence. Qed.

(** The only owner becomes the first of several. *)
Lemma share_account x y p s : is_vacant x s = true -> holder_at y s = Some (Holder false (Some p)) ->
  let s' := put y (Some (Holder false None)) (put x (Some (Holder true (Some p))) s) in
  NoDup (account (references (objects_ s)) (cleared s)) ->
  account (references (objects_ s')) (cleared s') ≡ₚ account (references (objects_ s)) (cleared s).
Proof.
  intros Hx Hy s' Hnd.
  pose proof (references_move x y _ (Holder true (Some p)) None s
    (vacant_lookup _ _ Hx) Hy (vacant_ne _ _ _ _ Hx Hy)) as Hp. simpl in Hp.
  pose proof (references_put y _ None s (holder_at_lookup _ _ _ Hy)) as Hl. simpl in Hl.
  rewrite Hl in Hp, Hnd |- *. rewrite account_alone in Hnd |- *.
  set (rest := references (<[y := None]> (objects_ s))) in *.
  assert (references (objects_ s') ≡ₚ (true, p) :: rest) as ->.
  { apply (Permutation_cons_inv (a := (false, p))). simpl. rewrite <- Hp. solve_Permutation. }
  apply NoDup_cons in Hnd as [Hp' _]. rewrite account_shared_cons, decide_False; [unfold account; solve_Permutation|].
  intros Hin. apply Hp'. unfold account. rewrite !elem_of_app, elem_of_remove_dups. tauto.
Qed.

Lemma holder_exec_account a s s' : holder_exec a s = Some s' ->
  NoDup (received [a] ++ account (references (objects_ s)) (cleared s)) ->
  account (references (objects_ s')) (cleared s')
  ≡ₚ received [a] ++ account (references (objects_ s)) (cleared s).
Proof.
  intros E Hnd. destruct a as [x p|x y|x y|x y|x y|x y|x]; cbn [holder_exec] in E; simpl in Hnd.
  - destruct (is_vacant x s) eqn:Hx; simplify_eq. apply vacant_lookup in Hx.
    pose proof (references_put x None (Some (Holder false (Some p))) s Hx) as Hp. simpl in Hp. simpl.
    by rewrite <- Hp.
  - destruct (holder_at y s) as [h|] eqn:Hy; simplify_eq/=. destruct (is_vacant x s) eqn:Hx; simplify_eq.
    pose proof (references_move x y h h None s (vacant_lookup _ _ Hx) Hy (vacant_ne _ _ _ _ Hx Hy)) as Hp.
    by rewrite (Permutation_app_inv_l (option_list (reference (Some h))) _ _ Hp).
  - destruct (holder_at y s) as [h|] eqn:Hy; simplify_eq/=.
    destruct (is_vacant x s) eqn:Hx; simplify_eq/=. destruct h as [[] [p|]]; simplify_eq/=.
    + by apply share_account.
    + pose proof (references_move x y (Holder false None) (Holder true None) None s
        (vacant_lookup _ _ Hx) Hy (vacant_ne _ _ _ _ Hx Hy)) as Hp. simpl in *. by rewrite <- Hp.
  - destruct (holder_at y s) as [h|] eqn:Hy; simplify_eq/=.
    destruct (is_vacant x s) eqn:Hx; simplify_eq/=. destruct h as [[] hp]; simplify_eq/=.
    pose proof (references_put x None (Some (Holder true hp)) s (vacant_lookup _ _ Hx)) as Hp. simpl in Hp.
    rewrite <- Hp. destruct hp as [p|]; [|done].
    pose proof (references_put y (Some (Holder true (Some p))) None s (holder_at_lookup _ _ _ Hy)) as Hl.
    apply reference_again. rewrite Hl. left.
  - destruct (holder_at x s) as [old|] eqn:Hx; simplify_eq/=. destruct (holder_at y s) as [h|] eqn:Hy; simplify_eq/=.
    destruct (negb _); [done|]. case_decide as Hxy; simplify_eq; [done|].
    pose proof (references_move x y h h (Some old) s (holder_at_lookup _ _ _ Hx) Hy Hxy) as Hp.
    set (s1 := put y (Some (emptied h)) (put x (Some h) s)) in *.
    assert (references (objects_ s) ≡ₚ option_list (reference (Some old)) ++ references (objects_ s1)) as Hr.
    { apply (Permutation_app_inv_l (option_list (reference (Some h)))). rewrite Hp. solve_Permutation. }
    rewrite let_go_account; [by rewrite <- Hr|]. by rewrite <- Hr.
  - destruct (holder_at x s) as [old|] eqn:Hx; simplify_eq/=. destruct (holder_at y s) as [h|] eqn:Hy; simplify_eq/=.
    destruct (is_shared old) eqn:Hso; [|done]. destruct (is_shared h) eqn:Hsh; [|done]. cbn [andb] in E. simplify_eq.
    pose proof (references_put x (Some old) (Some h) s (holder_at_lookup _ _ _ Hx)) as Hp.
    assert (account (option_list (reference (Some h)) ++ references (objects_ s)) (cleared s)
            ≡ₚ account (references (objects_ s)) (cleared s)) as Hsame.
    { destruct h as [[] [p|]]; [|done..].
      pose proof (references_put y (Some (Holder true (Some p))) None s (holder_at_lookup _ _ _ Hy)) as Hl.
      apply reference_again. rewrite Hl. left. }
    rewrite let_go_account; rewrite <- Hp; by rewrite Hsame.
  - destruct (holder_at x s) as [old|] eqn:Hx; simplify_eq/=.
    pose proof (references_put x (Some old) None s (holder_at_lookup _ _ _ Hx)) as Hp.
    cbn [reference mbind option_bind option_list app] in Hp.
    rewrite let_go_account; [by rewrite <- Hp|]. by rewrite <- Hp.
Qed.

Lemma holder_exec_all_account prog s s' : holder_exec_all prog s = Some s' ->
  NoDup (received prog ++ account (references (objects_ s)) (cleared s)) ->
  account (references (objects_ s')) (cleared s') ≡ₚ received prog ++ account (references (objects_ s)) (cleared s).
Proof.
  revert s. induction prog as [|a prog IH]; intros s E Hnd; cbn [holder_exec_all] in E; [by simplify_eq|].
  destruct (holder_exec a s) as [s1|] eqn:Ea; [|done]. cbn [mbind option_bind] in E.
  assert (received (a :: prog) = received [a] ++ received prog) as Hr by exact (omap_app _ [a] prog).
  rewrite Hr in Hnd |- *.
  assert (account (references (objects_ s1)) (cleared s1) ≡ₚ received [a] ++ account (references (objects_ s)) (cleared s)) as H1.
  { apply holder_exec_account; [done|]. rewrite (Permutation_app_comm (received [a])), <- app_assoc in Hnd.
    by apply NoDup_app in Hnd as (_ & _ & Hnd). }
  rewrite (IH s1 E); rewrite H1; [solve_Permutation|].
  rewrite <- app_assoc, (Permutation_app_comm (received [a])), <- app_assoc, (Permutation_app_comm _ (received [a])) in Hnd.
  done.
Qed.

Lemma references_none l : Forall (fun o => o = None) l -> references l = [].
Proof. induction 1 as [|o l -> _ IH]; [done|exact IH]. Qed.

Lemma referenced p s : p ∈ (references (objects_ s)).*2 <->
  exists x h, holder_at x s = Some h /\ native_handle h = Some p.
Proof.
  unfold references. rewrite list_elem_of_fmap. split.
  - intros ([b p'] & -> & (o & Ho & Hr)%list_elem_of_omap). destruct o as [[sh [q|]]|]; simplify_eq/=.
    apply list_elem_of_lookup_1 in Ho as [x Hx]. eexists x, _. unfold holder_at. rewrite Hx. done.
  - intros (x & [sh hp] & Hx%holder_at_lookup & Hp). simpl in Hp. subst hp. exists (sh, p). split; [done|].
    apply list_elem_of_omap. exists (Some (Holder sh (Some p))). split; [by eapply list_elem_of_lookup_2|done].
Qed.

Module RawResults.

(** C36: a range-for over a result visits its rows in order and one over a row its
    values in order, ending after as many turns as there are, without overflow of
    the [int] positions; they are empty exactly when their iterators meet; [at] with
    a name gives the value of that column or throws, as [recv_row] finds it. *)
Theorem iteration_visits_rows_and_values {R : Type} `{pg_result R} (mem : nat -> option R) (p : nat) (r : R)
    (Hlaws : pg_result_laws R) (Hp : mem p = Some r) (Hs : sizes_fit r) :
  (forall fuel, ntuples r < Z.of_nat fuel -> iterate_rows mem fuel (Some p) = Some (result_rows r))
  /\ (forall fuel i, nfields r < Z.of_nat fuel ->
       iterate_values mem fuel (Iterator (Some p) i 0) = Some (row_values (result_index r i)))
  /\ (forall i, result_it_equal (result_begin (Some p)) <$> result_end mem (Some p) = Some (result_empty r)
       /\ row_it_equal (row_begin (Iterator (Some p) i 0)) <$> row_end mem (Iterator (Some p) i 0)
          = Some (row_empty (result_index r i)))
  /\ (forall i name, row_it_at_name mem (Iterator (Some p) i 0) name = Some (row_at_name (result_index r i) name)).
Proof.
  split_and!; intros.
  - by apply iterate_rows_spec.
  - by apply iterate_values_spec.
  - by apply ends_meet.
  - by apply row_it_at_name_spec.
Qed.

Lemma iteration_visits_rows_and_values_witness :
  let r := Table [("id", 23); ("name", 25)] [[Some [x01]; None]; [Some [x02]; Some [x41]]] in
  let mem p := if (p =? 5)%nat then Some r else None in
  iterate_rows mem 3 (Some 5%nat) = Some (result_rows r)
  /\ iterate_values mem 3 (Iterator (Some 5%nat) 1 0) = Some [Coordinates r 1 0; Coordinates r 1 1].
Proof.
  intros r mem.
  destruct (iteration_visits_rows_and_values mem 5 r table_result_laws eq_refl) as (H1 & H2 & _).
  { split; vm_compute; split; discriminate. }
  split; [apply H1; reflexivity|apply (H2 3%nat 1); reflexivity].
Defined.

(** C35: whatever a program does with its [result] and [shared_result] objects
    (moves, releases, sharing, copies, assignments, self-assignment, destruction),
    every [PGresult] it received has an owner or was cleared, not both, and was
    cleared once; the native handle of an object is that of a result not cleared; a
    [result] shares its handle with no other object; and when no object is left every
    result was cleared exactly once. *)
Theorem results_are_cleared_once (prog : list holder_op) (n : nat) (s : holders) :
  NoDup (received prog) -> holder_exec_all prog (Holders (replicate n None) []) = Some s ->
  NoDup (cleared s)
  /\ (forall p, p ∈ received prog <-> p ∈ cleared s \/ exists x h, holder_at x s = Some h /\ native_handle h = Some p)
  /\ (forall x h p, holder_at x s = Some h -> native_handle h = Some p -> p ∉ cleared s)
  /\ (forall x y h h' p, holder_at x s = Some h -> holder_at y s = Some h' -> is_shared h = false ->
       native_handle h = Some p -> native_handle h' = Some p -> x = y)
  /\ (Forall (fun o => o = None) (objects_ s) -> cleared s ≡ₚ received prog).
Proof.
  intros Hnd E. set (l := objects_ s).
  assert (account (references l) (cleared s) ≡ₚ received prog) as Hacc.
  { assert (references (replicate n None) = []) as Hn by (by apply references_none, Forall_replicate).
    pose proof (holder_exec_all_account prog _ s E) as Ha. simpl in Ha. rewrite Hn, !app_nil_r in Ha. by apply Ha. }
  rewrite <- Hacc in Hnd. assert (forall p, p ∈ (references l).*2 <->
    exists x h, holder_at x s = Some h /\ native_handle h = Some p) as Href by (intros p; apply referenced).
  assert (forall p, p ∈ (references l).*2 -> p ∉ cleared s) as Hdis.
  { intros p Hp Hc. unfold account in Hnd. rewrite app_assoc in Hnd. apply NoDup_app in Hnd as (_ & Hd & _).
    apply (Hd p); [|done]. rewrite elem_of_app, elem_of_remove_dups. by apply owned_split. }
  split_and!.
  - unfold account in Hnd. rewrite app_assoc in Hnd. by apply NoDup_app in Hnd as (_ & _ & Hnd).
  - intros p. rewrite <- Hacc, <- Href, owned_split. unfold account.
    rewrite !elem_of_app, elem_of_remove_dups. tauto.
  - intros x h p Hx Hp. apply Hdis, Href. by exists x, h.
  - intros x y h h' p Hx Hy Hu Hp Hp'. destruct (decide (x = y)) as [|Hxy]; [done|]. exfalso.
    pose proof (references_put x (Some h) None s (holder_at_lookup _ _ _ Hx)) as Hl.
    destruct h as [[] hp]; [done|]. simpl in Hp. subst hp. simpl in Hl.
    fold l in Hl. rewrite Hl, account_alone in Hnd. apply NoDup_cons in Hnd as [Hn _]. apply Hn.
    assert (p ∈ (references (<[x := None]> l)).*2) as Hin.
    { apply (referenced p (put x None s)). exists y, h'. split; [|done].
      unfold holder_at. simpl. rewrite list_lookup_insert_ne by done. exact Hy. }
    unfold account. apply owned_split in Hin. rewrite !elem_of_app, elem_of_remove_dups. tauto.
  - intros Hnone. rewrite <- Hacc. by rewrite (references_none l Hnone).
Qed.

Lemma results_are_cleared_once_witness :
  let prog := [Receive 0 7; Receive 1 9; Share 2 0; Copy 3 2; MoveAssign 0 1; Drop 2; CopyAssign 3 3; Drop 0; Drop 1; Drop 3] in
  holder_exec_all prog (Holders (replicate 4 None) []) = Some (Holders (replicate 4 None) [9%nat; 7%nat])
  /\ [9%nat; 7%nat] ≡ₚ received prog.
Proof.
  intros prog. assert (E : holder_exec_all prog (Holders (replicate 4 None) [])
    = Some (Holders (replicate 4 None) [9%nat; 7%nat])) by (vm_compute; reflexivity).
  split; [exact E|].
  assert (Hnd : NoDup (received prog)) by (apply (bool_decide_unpack _); vm_compute; exact I).
  destruct (results_are_cleared_once prog 4 _ Hnd E) as (_ & _ & _ & _ & Hall). apply Hall. repeat constructor.
Defined.

End RawResults.
