(* ===== verification/Wrapped.v ===== *)
(** * Wrappers: [core/unwrap.h], [core/recursive.h], [core/nullable.h] and the
      pointers, optionals and references of [ext/std] and [ext/boost]

    A wrapped value is a value behind any number of wrappers, outermost first.
    [None] in a wrapper is its null state (for a reference and a handle of the
    pool, which have none, it is an object used against its rules).  Dereferencing
    it is undefined: [None]. *)

From S2P Require Import Prelude.

(** The wrapper templates; [unique_ptr] says whether its deleter is the default. *)
Inductive wrapper :=
| shared_ptr | unique_ptr (default_delete : bool) | scoped_ptr | optional | weak_ptr
| raw_pointer | reference_wrapper | pool_handle.

#[export] Instance wrapper_eq_dec : EqDecision wrapper.
Proof. solve_decision. Defined.

(** [is_nullable<W<T>>] *)
Definition wrapper_nullable (k : wrapper) : bool :=
  match k with reference_wrapper | pool_handle => false | _ => true end.

(** Whether [unwrap_impl<W<T>>] is specialized: [unwrap_type] is not the type
    itself then.  The specialization for [std::unique_ptr<T>] is for the default
    deleter. *)
Definition wrapper_unwraps (k : wrapper) : bool :=
  match k with raw_pointer | unique_ptr false => false | _ => true end.

Inductive wrapped (A : Type) := Bare (a : A) | Wrap (k : wrapper) (content : option (wrapped A)).
Arguments Bare {A} _.
Arguments Wrap {A} _ _.

Section wrapped.
Context {A : Type}.
Implicit Types (w : wrapped A).

(** [is_null(v)]; [weak_ptr] is locked, the others are negated. *)
Definition wrapper_is_null w : bool :=
  match w with
  | Bare _ => false
  | Wrap k content => wrapper_nullable k && match content with None => true | Some _ => false end
  end.

(** [unwrap(v)] *)
Definition unwrap w : option (wrapped A) :=
  match w with
  | Bare _ => Some w
  | Wrap k content => if wrapper_unwraps k then content else Some w
  end.

(** [unwrap_recursive(v)], when the type unwraps to the end. *)
Fixpoint unwrap_recursive w : option A :=
  match w with
  | Bare a => Some a
  | Wrap k content =>
      if wrapper_unwraps k then
        match content with Some w => unwrap_recursive w | None => None end
      else None
  end.

(** [is_null_recursive(v)]: [is_null(v) ? true : is_null_recursive(unwrap(v))];
    [None] is an unwrapping of nothing. *)
Fixpoint is_null_recursive w : option bool :=
  match w with
  | Bare _ => Some false
  | Wrap k content =>
      if wrapper_is_null (Wrap k content) then Some true
      else if wrapper_unwraps k then
        match content with Some w => is_null_recursive w | None => None end
      else Some false
  end.

(** The type unwraps to the end: what the concept [Connection] asks of the type of
    a wrapped connection. *)
Fixpoint unwraps_to_end w : bool :=
  match w with
  | Bare _ => true
  | Wrap k content =>
      wrapper_unwraps k && match content with Some w => unwraps_to_end w | None => true end
  end.

(** References are bound and handles of the pool are not empty. *)
Fixpoint bound w : bool :=
  match w with
  | Bare _ => true
  | Wrap k content =>
      match content with Some w => bound w | None => wrapper_nullable k end
  end.

(** The check is what guards the unwrapping: it never dereferences null itself,
    and the value is there exactly when it says so. *)
Lemma is_null_recursive_guards w : unwraps_to_end w = true -> bound w = true ->
  is_null_recursive w = Some (match unwrap_recursive w with Some _ => false | None => true end).
Proof.
  revert w. fix IH 1. intros w Hu Hb. destruct w as [a|k content]; [done|].
  cbn [unwraps_to_end bound is_null_recursive unwrap_recursive wrapper_is_null] in *.
  apply andb_true_iff in Hu as [-> Hu]. destruct content as [w|].
  - rewrite andb_false_r. by apply IH.
  - by rewrite Hb.
Qed.

End wrapped.
