(* ===== verification/Connection.v ===== *)
(** * The connection object: [connection.h], [impl/connection.h], [dispatch_cancel]
      of [impl/cancel.h] and [impl/transaction_status.h]

    A [PGconn] is a handle; what libpq tells about it ([PQstatus],
    [PQerrorMessage], [PQtransactionStatus], [PQcancel]) is a parameter, and so is
    what [PQsocket] answers at each call: libpq may change the socket of a handle.  The
    handles passed to [PQfinish] are logged, so that ownership is a statement
    about the log. *)

From Stdlib Require Import Strings.Ascii.
From S2P Require Import Prelude Words Errors Wrapped.
#[local] Open Scope string_scope.
#[local] Open Scope list_scope.
#[local] Open Scope Z_scope.

Definition handle := nat.

Inductive conn_status := CONNECTION_OK | CONNECTION_BAD | CONNECTION_OTHER.
#[export] Instance conn_status_eq_dec : EqDecision conn_status.
Proof. solve_decision. Defined.

(** The data members of [connection]: [socket_] holds a descriptor or none. *)
Record connection := Connection {
  handle_ : option handle;
  socket_ : option Z;
  error_context_ : string
}.

Definition new_connection : connection := Connection None None "".

(** ** Trimming of C buffers *)

(** [find_last_not_of(ch)]; [None] is [npos]. *)
Fixpoint find_last_not_of (ch : ascii) (s : list ascii) : option nat :=
  match s with
  | [] => None
  | c :: s =>
      match find_last_not_of ch s with
      | Some i => Some (S i)
      | None => if decide (c = ch) then None else Some 0%nat
      end
  end.

(** [connection_error_message]: [remove_suffix] after the last character that is
    not a space. *)
Definition connection_error_message (v : list ascii) : list ascii :=
  match find_last_not_of " "%char v with
  | None => take (length v - length v) v
  | Some trim_pos =>
      if (trim_pos <? length v)%nat then take (length v - (length v - trim_pos - 1)) v else v
  end.

(** [dispatch_cancel], given whether [PQcancel] succeeded and the 255-byte buffer
    it left. *)
Definition dispatch_cancel (ok : bool) (msg : list ascii) : error_code * list ascii :=
  if negb ok then
    (ec_ozo pq_cancel_failed,
     match find_last_not_of zero msg with
     | None => []
     | Some pos => if (pos <? length msg)%nat then take (pos + 1) msg else msg
     end)
  else (ec_default, []).

(** What both do: drop a run of one character at the end. *)
Definition trim_end (ch : ascii) (s : list ascii) : list ascii :=
  match find_last_not_of ch s with
  | None => []
  | Some i => take (S i) s
  end.

Lemma find_last_not_of_None ch s : find_last_not_of ch s = None <-> s = replicate (length s) ch.
Proof.
  induction s as [|c s IH]; [done|]. simpl. destruct (find_last_not_of ch s) as [i|].
  - split; [done|]. intros [= _ H]. by apply IH in H.
  - destruct (decide (c = ch)) as [->|Hne]; [|split; [done|congruence]].
    split; [|done]. intros _. f_equal. by apply IH.
Qed.

Lemma find_last_not_of_Some ch s i : find_last_not_of ch s = Some i ->
  (i < length s)%nat /\ (exists c, s !! i = Some c /\ c <> ch)
  /\ drop (S i) s = replicate (length s - S i) ch.
Proof.
  revert i. induction s as [|c s IH]; intros i H; [done|]. simpl in H.
  destruct (find_last_not_of ch s) as [j|] eqn:E.
  - injection H as <-. destruct (IH j eq_refl) as (Hl & Hc & Hd). simpl. split_and!; [lia|done|done].
  - destruct (decide (c = ch)); [done|]. injection H as <-. simpl. split_and!; [lia|by exists c|].
    rewrite drop_0, Nat.sub_0_r. by apply find_last_not_of_None.
Qed.

Lemma trim_end_spec ch s : exists n, s = trim_end ch s ++ replicate n ch
  /\ (trim_end ch s = [] \/ exists p c, trim_end ch s = p ++ [c] /\ c <> ch).
Proof.
  unfold trim_end. destruct (find_last_not_of ch s) as [i|] eqn:E.
  - apply find_last_not_of_Some in E as (Hl & (c & Hc & Hne) & Hd).
    exists (length s - S i)%nat. rewrite <- Hd, take_drop. split; [done|right].
    exists (take i s), c. by rewrite (take_S_r _ _ _ Hc).
  - exists (length s). split; [|by left]. by apply find_last_not_of_None in E.
Qed.

Lemma error_message_trim v : connection_error_message v = trim_end " "%char v.
Proof.
  unfold connection_error_message, trim_end. destruct (find_last_not_of " "%char v) as [i|] eqn:E.
  - apply find_last_not_of_Some in E as (Hl & _). rewrite (proj2 (Nat.ltb_lt _ _)) by done.
    f_equal. lia.
  - by rewrite Nat.sub_diag.
Qed.

Lemma dispatch_cancel_trim msg : dispatch_cancel false msg = (ec_ozo pq_cancel_failed, trim_end zero msg).
Proof.
  unfold dispatch_cancel, trim_end. simpl. destruct (find_last_not_of zero msg) as [i|] eqn:E; [|done].
  apply find_last_not_of_Some in E as (Hl & _). rewrite (proj2 (Nat.ltb_lt _ _)) by done.
  by rewrite Nat.add_1_r.
Qed.

Section connection.
Context (PQstatus : handle -> conn_status).

(** [connection_status_bad] and [connection_status_ok] *)
Definition connection_status_bad (h : option handle) : bool :=
  match h with
  | None => true
  | Some h => bool_decide (PQstatus h = CONNECTION_BAD)
  end.
Definition connection_status_ok (h : option handle) : bool :=
  match h with
  | None => false
  | Some h => bool_decide (PQstatus h = CONNECTION_OK)
  end.

(** [assign(handle)], given the descriptor [PQsocket] answers: a handle without a
    socket is left with the caller; otherwise the handle held so far is finished by
    the assignment. *)
Definition assign (fd : Z) (h : handle) (c : connection) (finished : list handle)
    : error_code * connection * list handle :=
  if fd =? -1 then (ec_ozo pq_socket_failed, c, finished)
  else (ec_default, Connection (Some h) (Some fd) (error_context_ c),
        finished ++ option_list (handle_ c)).

(** [release()]: the caller owns the handle. *)
Definition release (c : connection) : option handle * connection :=
  (handle_ c, Connection None None (error_context_ c)).

(** [close()]: [release().reset()] *)
Definition close (c : connection) (finished : list handle) : connection * list handle :=
  let '(h, c) := release c in (c, finished ++ option_list h).

Definition is_bad (c : connection) : bool := negb (connection_status_ok (handle_ c)).
Definition is_open (c : connection) : bool := match handle_ c with Some _ => true | None => false end.
Definition set_error_context (v : string) (c : connection) : connection :=
  Connection (handle_ c) (socket_ c) v.

(** [connection::operator bool] *)
Definition connection_bool (c : connection) : bool := negb (is_bad c).

(** ** Functions of wrapped connections *)

(** [None] is an undefined call: a null connection was dereferenced. *)

(** [connection_bad(conn)] and [connection_good(conn)] *)
Definition connection_bad (w : wrapped connection) : option bool :=
  null ← is_null_recursive w;
  if (null : bool) then Some true else c ← unwrap_recursive w; Some (is_bad c).
Definition connection_good (w : wrapped connection) : option bool := negb <$> connection_bad w.

(** [get_native_handle(conn)] and [get_error_context(conn)] *)
Definition get_native_handle (w : wrapped connection) : option (option handle) :=
  handle_ <$> unwrap_recursive w.
Definition get_error_context (w : wrapped connection) : option string :=
  error_context_ <$> unwrap_recursive w.

(** [error_message(conn)], given what [PQerrorMessage] says of a handle. *)
Definition error_message (PQerrorMessage : option handle -> list ascii) (w : wrapped connection) :
    option (list ascii) :=
  null ← is_null_recursive w;
  if (null : bool) then Some []
  else h ← get_native_handle w; Some (connection_error_message (PQerrorMessage h)).

(** [make_string_view(src)] *)
Definition make_string_view (src : option (list ascii)) : list ascii :=
  match src with None => [] | Some s => s end.

(** [get_database], [get_host], [get_port], [get_user] and [get_password], with the
    function of libpq each calls. *)
Definition get_property (PQ : option handle -> option (list ascii)) (w : wrapped connection) :
    option (list ascii) :=
  h ← get_native_handle w; Some (make_string_view (PQ h)).

(** A write to the connection behind the wrappers. *)
Fixpoint update_wrapped (f : connection -> connection) (w : wrapped connection) : wrapped connection :=
  match w with
  | Bare c => Bare (f c)
  | Wrap k content =>
      Wrap k (match content with Some w => Some (update_wrapped f w) | None => None end)
  end.

(** [close_connection(conn)] *)
Definition close_connection (w : wrapped connection) (finished : list handle)
    : option (error_code * wrapped connection * list handle) :=
  c ← unwrap_recursive w;
  Some (ec_default, update_wrapped (fun c => (close c []).1) w, (close c finished).2).

(** The guard of [defer_close_connection(conn)] when it is destroyed; the argument
    is a pointer that may be null. *)
Definition defer_close_connection (conn : option (wrapped connection)) (finished : list handle)
    : option (option (wrapped connection) * list handle) :=
  match conn with
  | None => Some (None, finished)
  | Some w =>
      null ← is_null_recursive w;
      if (null : bool) then Some (Some w, finished)
      else '(_, w, finished) ← close_connection w finished; Some (Some w, finished)
  end.

Lemma unwrap_update f w : unwrap_recursive (update_wrapped f w) = f <$> unwrap_recursive w.
Proof.
  revert w. fix IH 1. intros [c|k [w|]]; [done| |]; cbn; destruct (wrapper_unwraps k);
    [exact (IH w)|reflexivity..].
Qed.

(** ** Ownership of the handles *)

Inductive conn_op :=
  op_assign (fd : Z) (h : handle) | op_release | op_close | op_set_error_context (v : string).

Record owners := Owners {
  o_conn : connection;
  o_finished : list handle;
  o_released : list handle
}.

Definition apply_op (o : owners) (op : conn_op) : owners :=
  match op with
  | op_assign fd h =>
      let '(_, c, f) := assign fd h (o_conn o) (o_finished o) in Owners c f (o_released o)
  | op_release =>
      let '(h, c) := release (o_conn o) in Owners c (o_finished o) (o_released o ++ option_list h)
  | op_close =>
      let '(c, f) := close (o_conn o) (o_finished o) in Owners c f (o_released o)
  | op_set_error_context v => Owners (set_error_context v (o_conn o)) (o_finished o) (o_released o)
  end.

(** The handles a sequence of operations hands over to the connection. *)
Definition handed_over (op : conn_op) : list handle :=
  match op with
  | op_assign fd h => if fd =? -1 then [] else [h]
  | _ => []
  end.

(** The handle a sequence of operations leaves with the connection, and the
    descriptor [PQsocket] answered when it was assigned. *)
Definition assigned (held : option (handle * Z)) (op : conn_op) : option (handle * Z) :=
  match op with
  | op_assign fd h => if fd =? -1 then held else Some (h, fd)
  | op_release | op_close => None
  | op_set_error_context _ => held
  end.

Lemma apply_op_assigned o op held :
  (handle_ (o_conn o), socket_ (o_conn o)) = (fst <$> held, snd <$> held) ->
  (handle_ (o_conn (apply_op o op)), socket_ (o_conn (apply_op o op)))
  = (fst <$> assigned held op, snd <$> assigned held op).
Proof.
  intros H. destruct op as [fd h| | |v]; simpl; try done. unfold assign. by destruct (_ =? _).
Qed.

Lemma apply_op_owners o op :
  option_list (handle_ (o_conn (apply_op o op))) ++ o_finished (apply_op o op) ++ o_released (apply_op o op)
  ≡ₚ handed_over op ++ option_list (handle_ (o_conn o)) ++ o_finished o ++ o_released o.
Proof.
  destruct op as [fd h| | |v]; simpl.
  - unfold assign. destruct (_ =? _); simpl; [done|]. constructor. rewrite !app_assoc.
    by rewrite (Permutation_app_comm (o_finished o)).
  - rewrite (Permutation_app_comm (o_released o)). rewrite !app_assoc. apply Permutation_app_tail.
    apply Permutation_app_comm.
  - rewrite (Permutation_app_comm (o_finished o)). by rewrite <- app_assoc.
  - done.
Qed.

End connection.

(** ** [transaction_status] *)

Inductive pq_transaction_status :=
| PQTRANS_UNKNOWN | PQTRANS_IDLE | PQTRANS_ACTIVE | PQTRANS_INTRANS | PQTRANS_INERROR
| PQTRANS_OTHER (v : Z).

Inductive transaction_status := ts_unknown | ts_idle | ts_active | ts_transaction | ts_error.

(** [get_transaction_status(conn)]; [None] is a null connection. *)
Definition get_transaction_status (status : option handle -> pq_transaction_status)
    (conn : option connection) : may_throw transaction_status :=
  match conn with
  | None => Return ts_unknown
  | Some c =>
      match status (handle_ c) with
      | PQTRANS_UNKNOWN => Return ts_unknown
      | PQTRANS_IDLE => Return ts_idle
      | PQTRANS_ACTIVE => Return ts_active
      | PQTRANS_INTRANS => Return ts_transaction
      | PQTRANS_INERROR => Return ts_error
      | PQTRANS_OTHER _ => Throw invalid_argument
      end
  end.

Module Connections.

(** C28: over any sequence of operations on a connection, ended by its
    destructor, every handle it was given is finished exactly once or was
    released to the caller exactly once: none leaks and none is finished
    twice.  At every moment it holds the handle of the last assignment that
    succeeded and was not undone by a release or a close, and waits on the
    descriptor [PQsocket] answered in that assignment, whatever it answers later;
    after the destructor it holds neither. *)
Theorem handles_are_finished_once (ops : list conn_op) :
  let o := foldl apply_op (Owners new_connection [] []) ops in
  let held := foldl assigned None ops in
  let '(c, finished) := close (o_conn o) (o_finished o) in
  handle_ (o_conn o) = fst <$> held /\ socket_ (o_conn o) = snd <$> held
  /\ is_open c = false /\ socket_ c = None
  /\ finished ++ o_released o ≡ₚ concat (handed_over <$> ops).
Proof.
  cbv zeta. set (o0 := Owners new_connection [] []).
  assert ((handle_ (o_conn (foldl apply_op o0 ops)), socket_ (o_conn (foldl apply_op o0 ops)))
      = (fst <$> foldl assigned None ops, snd <$> foldl assigned None ops)
    /\ option_list (handle_ (o_conn (foldl apply_op o0 ops)))
       ++ o_finished (foldl apply_op o0 ops) ++ o_released (foldl apply_op o0 ops)
       ≡ₚ concat (handed_over <$> ops)) as [Hi Hp].
  { induction ops as [|op ops IH] using rev_ind; [done|]. destruct IH as [IHi IHp].
    rewrite !foldl_app. cbn [foldl]. split; [by apply apply_op_assigned|].
    rewrite apply_op_owners, IHp, fmap_app, concat_app. simpl. rewrite app_nil_r.
    apply Permutation_app_comm. }
  injection Hi as Hh Hs. simpl. split_and!; [done..|]. rewrite <- Hp, !app_assoc. apply Permutation_app_tail.
  apply Permutation_app_comm.
Qed.

(** The error message of a connection is the libpq message without its
    trailing spaces, and the message of a failed cancel is the buffer without
    its trailing zeros: nothing else is removed and no trailing one is left. *)
Theorem messages_are_trimmed (v msg : list ascii) :
  (exists n, v = connection_error_message v ++ replicate n " "%char
    /\ (connection_error_message v = []
        \/ exists p c, connection_error_message v = p ++ [c] /\ c <> " "%char))
  /\ (exists n, (dispatch_cancel false msg).1 = ec_ozo pq_cancel_failed
    /\ msg = (dispatch_cancel false msg).2 ++ replicate n zero
    /\ ((dispatch_cancel false msg).2 = []
        \/ exists p c, (dispatch_cancel false msg).2 = p ++ [c] /\ c <> zero)).
Proof.
  rewrite error_message_trim, dispatch_cancel_trim. split; [apply trim_end_spec|].
  destruct (trim_end_spec zero msg) as (n & H1 & H2). by exists n.
Qed.


(** C32: on any connection behind wrappers whose references are bound, null or
    not, [connection_bad], [error_message] and the guard of
    [defer_close_connection] are defined: a null connection is bad, has no message
    and is not closed; otherwise they are what the connection itself says, and the
    guard leaves it closed, its handle finished.  The other functions are undefined
    on exactly the null connections. *)
Theorem null_connections_are_guarded (PQstatus : handle -> conn_status)
    (PQerrorMessage : option handle -> list ascii) (w : wrapped connection) (finished : list handle) :
  unwraps_to_end w = true -> bound w = true ->
  match unwrap_recursive w with
  | None => connection_bad PQstatus w = Some true /\ error_message PQerrorMessage w = Some []
      /\ defer_close_connection (Some w) finished = Some (Some w, finished)
      /\ get_native_handle w = None /\ get_error_context w = None
      /\ close_connection w finished = None
  | Some c => connection_bad PQstatus w = Some (is_bad PQstatus c)
      /\ error_message PQerrorMessage w = Some (connection_error_message (PQerrorMessage (handle_ c)))
      /\ get_native_handle w = Some (handle_ c) /\ get_error_context w = Some (error_context_ c)
      /\ exists w', defer_close_connection (Some w) finished
             = Some (Some w', finished ++ option_list (handle_ c))
           /\ unwrap_recursive w' = Some (Connection None None (error_context_ c))
  end.
Proof.
  intros Hu Hb. pose proof (is_null_recursive_guards w Hu Hb) as Hn.
  unfold connection_bad, error_message, defer_close_connection, close_connection,
    get_native_handle, get_error_context.
  destruct (unwrap_recursive w) as [c|] eqn:Ew; rewrite Hn; simpl; [|done].
  split_and!; try done. eexists. split; [done|]. by rewrite unwrap_update, Ew.
Qed.

Lemma null_connections_are_guarded_witness :
  let w := Wrap shared_ptr (Some (Bare (Connection (Some 3%nat) (Some 5) "ctx"))) in
  connection_bad (fun _ => CONNECTION_OK) w = Some false
  /\ connection_bad (fun _ => CONNECTION_OK) (Wrap shared_ptr None) = Some true.
Proof.
  split.
  - apply (null_connections_are_guarded (fun _ => CONNECTION_OK) (fun _ => [])
             (Wrap shared_ptr (Some (Bare (Connection (Some 3%nat) (Some 5) "ctx")))) [] eq_refl eq_refl).
  - apply (null_connections_are_guarded (fun _ => CONNECTION_OK) (fun _ => [])
             (Wrap shared_ptr None) [] eq_refl eq_refl).
Defined.

End Connections.
