(* ===== verification/Executors.v ===== *)
(** * Executors and allocators of completion handlers

    An operation of the library is a tower of function objects around the handler
    of the user; Boost.Asio runs each of them on its associated executor and
    allocates with its associated allocator, which the objects forward or replace
    in their [get_executor] and [get_allocator].  The other files take it as given
    that the completions of one operation do not run at the same time, which is not
    so of a connect's timer and the request of the oids, and that the user's handler
    is called where it belongs; here both are read off the towers
    that [impl/async_request.h], [impl/async_connect.h], [impl/cancel.h],
    [impl/connection_pool.h], [failover/strategy.h] and [impl/transaction.h] build. *)

From stdpp Require Import sets.
From S2P Require Import Prelude Time.
Import Deadline.
#[local] Open Scope Z_scope.

(** [inline_executor] runs a function where it is submitted and is what asio
    associates with a function object that names no executor; a strand runs one
    function at a time. *)
Inductive executor :=
| inline_executor
| io_executor (n : nat)
| strand (id : nat) (inner : executor).

#[export] Instance executor_eq_dec : EqDecision executor.
Proof. solve_decision. Defined.

(** [None]: [std::allocator]. *)
Abbreviation allocator := (option nat).

(** The function objects of the library around a handler, from [bind.h] to
    the handlers of the resource pool. *)
Inductive layer :=
| binder
| wrap_executor (ex : executor)
| make_copyable
| io_deadline_handler
| timer_handler
| async_send_query_params_op
| async_get_result_op
| async_request_op
| async_connect_op
| request_oid_map_handler
| request_oid_map_op
| pooled_connection_wrapper
| pooled_source_wrapper
| failover_continuation
| async_start_transaction_op
| async_end_transaction_op
| deadline_cancel_handler
| on_timer_expired
| cancel_op (ex : executor)
| post_handler (ex : executor)
| on_get_handler (default_executor : executor)
| list_iterator_handler (default_executor : executor)
| on_list_iterator_handler
| on_error_handler
| on_serve_queued_handler
| expired_handler.

Inductive handler :=
| user_handler (ex : option executor) (alloc : allocator)
| layered (l : layer) (h : handler).

(** What [get_associated_executor(h, d)], for every default [d], and
    [get_associated_allocator(h)] give. *)
Record association := Association { executor_for : executor -> executor; allocator_of : allocator }.

(** Objects whose [get_executor] and [get_allocator] are
    [get_associated_executor(handler)] and [get_associated_allocator(handler)] of the
    handler [h] inside. *)
Definition forwards (h : association) : association :=
  Association (fun _ => executor_for h inline_executor) (allocator_of h).
(** The same without a [get_allocator]. *)
Definition forwards_executor (h : association) : association :=
  Association (fun _ => executor_for h inline_executor) None.
(** Objects with neither. *)
Definition no_association : association := Association (fun d => d) None.

(** [get_executor] and [get_allocator] of the classes. *)
Definition binder_association (h : association) : association := forwards h.
Definition wrap_executor_association (ex : executor) (h : association) : association :=
  Association (fun _ => ex) (allocator_of h).
Definition make_copyable_association (h : association) : association := forwards h.
Definition io_deadline_handler_association (h : association) : association := forwards h.
Definition timer_handler_association (h : association) : association := forwards h.
Definition async_send_query_params_op_association (h : association) : association := forwards h.
Definition async_get_result_op_association (h : association) : association := forwards h.
Definition async_request_op_association (h : association) : association := forwards h.
Definition async_connect_op_association (h : association) : association := forwards h.
Definition request_oid_map_handler_association (h : association) : association := forwards h.
Definition request_oid_map_op_association (h : association) : association := forwards h.
Definition pooled_connection_wrapper_association (h : association) : association := forwards h.
Definition pooled_source_wrapper_association (h : association) : association := forwards h.
Definition continuation_association (h : association) : association := forwards h.
Definition deadline_cancel_handler_association (h : association) : association := forwards h.
Definition on_timer_expired_association (h : association) : association := forwards h.
Definition cancel_op_association (ex : executor) (h : association) : association :=
  Association (fun _ => ex) (allocator_of h).
(** The two that resolve the executor once, against a fallback. *)
Definition on_get_handler_association (default_executor : executor) (h : association) : association :=
  Association (fun _ => executor_for h default_executor) None.
Definition list_iterator_handler_association (default_executor : executor) (h : association) : association :=
  Association (fun _ => executor_for h default_executor) None.
Definition on_list_iterator_handler_association (h : association) : association := forwards_executor h.
Definition on_error_handler_association (h : association) : association := forwards_executor h.
Definition on_serve_queued_handler_association (h : association) : association := forwards_executor h.
Definition expired_handler_association (h : association) : association := forwards_executor h.

Definition layer_association (l : layer) (h : association) : association :=
  match l with
  | binder => binder_association h
  | wrap_executor ex => wrap_executor_association ex h
  | make_copyable => make_copyable_association h
  | io_deadline_handler => io_deadline_handler_association h
  | timer_handler => timer_handler_association h
  | async_send_query_params_op => async_send_query_params_op_association h
  | async_get_result_op => async_get_result_op_association h
  | async_request_op => async_request_op_association h
  | async_connect_op => async_connect_op_association h
  | request_oid_map_handler => request_oid_map_handler_association h
  | request_oid_map_op => request_oid_map_op_association h
  | pooled_connection_wrapper => pooled_connection_wrapper_association h
  | pooled_source_wrapper => pooled_source_wrapper_association h
  | failover_continuation => continuation_association h
  | async_start_transaction_op | async_end_transaction_op | post_handler _ => no_association
  | deadline_cancel_handler => deadline_cancel_handler_association h
  | on_timer_expired => on_timer_expired_association h
  | cancel_op ex => cancel_op_association ex h
  | on_get_handler ex => on_get_handler_association ex h
  | list_iterator_handler ex => list_iterator_handler_association ex h
  | on_list_iterator_handler => on_list_iterator_handler_association h
  | on_error_handler => on_error_handler_association h
  | on_serve_queued_handler => on_serve_queued_handler_association h
  | expired_handler => expired_handler_association h
  end.

Fixpoint associated (h : handler) : association :=
  match h with
  | user_handler ex alloc => Association (fun d => default d ex) alloc
  | layered l h => layer_association l (associated h)
  end.

Definition associated_executor (h : handler) (d : executor) : executor := executor_for (associated h) d.
Definition associated_allocator (h : handler) : allocator := allocator_of (associated h).

(** A function submitted to [ex] from code that runs on [cur]. *)
Definition enter (cur ex : executor) : executor :=
  match ex with inline_executor => cur | _ => ex end.

(** [asio::dispatch(h)] *)
Definition dispatch (cur : executor) (h : handler) : executor := enter cur (associated_executor h inline_executor).

(** [asio::dispatch(ex, h)] and [asio::post(ex, h)]: through [ex] to the executor
    of [h]. *)
Definition submit (cur ex : executor) (h : handler) : executor := dispatch (enter cur ex) h.

(** Where the object of a layer that runs on [cur] calls the handler inside. *)
Definition layer_calls (l : layer) (cur : executor) (h : handler) : executor :=
  match l with
  | wrap_executor _ | cancel_op _ | async_start_transaction_op | async_end_transaction_op =>
      dispatch cur (layered binder h)
  | post_handler ex => submit cur ex (layered binder h)
  | _ => cur
  end.

(** Where the handler of the user is called when the tower is called on [cur]. *)
Fixpoint user_runs_on (cur : executor) (h : handler) : executor :=
  match h with
  | user_handler _ _ => cur
  | layered l h => user_runs_on (layer_calls l cur h) h
  end.

Fixpoint user_of (h : handler) : option executor :=
  match h with
  | user_handler ex _ => ex
  | layered _ h => user_of h
  end.

(** ** The towers of the operations *)

Definition is_none (t : time_constraint) : bool := match t with tc_none => true | _ => false end.

(** [async_request_op::apply_time_constaint_or_strand] *)
Definition apply_time_constaint_or_strand (t : time_constraint) (h : handler) : handler :=
  if is_none t then h else layered io_deadline_handler h.

(** [async_request_op::operator()(ec, conn)] without an error: the handler of the
    context; [id] is the strand made for it, [ex] the executor of the connection. *)
Definition request_context (t : time_constraint) (id : nat) (ex : executor) (h : handler) : handler :=
  apply_time_constaint_or_strand t (layered (wrap_executor (strand id ex)) h).

(** The timer of an [io_deadline_handler] is given a handler of the same context. *)
Definition timer_waits (t : time_constraint) (h : handler) : list handler :=
  if is_none t then [] else [layered timer_handler h].

(** What a request gives the stream and the timer to call back. *)
Definition request_completions (t : time_constraint) (id : nat) (ex : executor) (h : handler) : list handler :=
  let ctx := request_context t id ex h in
  layered async_send_query_params_op ctx :: layered async_get_result_op ctx
  :: timer_waits t (layered (wrap_executor (strand id ex)) h).

(** [apply_time_constaint(t, conn, handler)] of a connect *)
Definition connect_wrap (t : time_constraint) (id : nat) (ex : executor) (h : handler) : handler :=
  layered (wrap_executor (if is_none t then ex else strand id ex)) h.
Definition apply_time_constaint (t : time_constraint) (id : nat) (ex : executor) (h : handler) : handler :=
  apply_time_constaint_or_strand t (connect_wrap t id ex h).

(** [apply_oid_map_request(handler)] *)
Definition apply_oid_map_request (oids : bool) (h : handler) : handler :=
  if oids then layered request_oid_map_handler h else h.

(** [async_connect]: its own completions, and the handler it ends with. *)
Definition connect_op (oids : bool) (t : time_constraint) (id : nat) (ex : executor) (h : handler) : handler :=
  layered async_connect_op (apply_oid_map_request oids (apply_time_constaint t id ex h)).
Definition connect_completions (oids : bool) (t : time_constraint) (id : nat) (ex : executor) (h : handler) :
    list handler :=
  connect_op oids t id ex h :: timer_waits t (connect_wrap t id ex h).

(** The request of the oids that [request_oid_map_op] makes when the connection
    is there: it has no time constraint of its own and a strand [id'] of its own. *)
Definition oids_completions (t : time_constraint) (id id' : nat) (ex : executor) (h : handler) : list handler :=
  request_completions tc_none id' ex (layered request_oid_map_op (apply_time_constaint t id ex h)).

(** [initiate_async_cancel] with a time constraint: [cancel_op] on the executor
    of the cancel handle, its handler and the timer's. *)
Definition cancel_wrap (id : nat) (ex : executor) (h : handler) : handler :=
  layered (wrap_executor (strand id ex)) h.
Definition cancel_completions (handle_ex : executor) (id : nat) (ex : executor) (h : handler) : list handler :=
  [layered (cancel_op handle_ex) (layered deadline_cancel_handler (cancel_wrap id ex h));
   layered on_timer_expired (cancel_wrap id ex h)].

(** The object that [pool_impl::get], its queue and its returns submit for a call of
    [pool::get]; [queued]: the request was in the queue and is answered by this
    object. *)
Definition pool_get (queued : option layer) (ex : executor) (h : handler) : handler :=
  let on_get := layered (on_get_handler ex) h in
  match queued with
  | None => layered on_list_iterator_handler on_get
  | Some l => layered l (layered (list_iterator_handler ex) on_get)
  end.

(** ** Lemmas *)

Lemma enter_twice cur ex : enter (enter cur ex) ex = enter cur ex.
Proof. by destruct ex. Qed.

(** A handler that asio runs on its associated executor, whatever it was
    associated with by default, calls the user's on the user's. *)
Lemma user_runs_on_own h ex : user_of h = Some ex -> ex <> inline_executor ->
  forall cur d, user_runs_on (enter cur (associated_executor h d)) h = ex.
Proof.
  intros Hu Hi. induction h as [o a|l h IH]; intros cur d; simpl in *.
  - subst o. by destruct ex.
  - specialize (IH Hu). destruct l; simpl; try apply IH; unfold dispatch, submit; simpl; apply IH.
Qed.

(** Layers that leave the executor they run on call the user there from
    anywhere. *)
Lemma dispatching_layer l h ex cur : user_of h = Some ex -> ex <> inline_executor ->
  (forall c, exists c', layer_calls l c h = enter c' (associated_executor h inline_executor)) ->
  user_runs_on cur (layered l h) = ex.
Proof.
  intros Hu Hi Hl. simpl. destruct (Hl cur) as [c ->]. by apply user_runs_on_own.
Qed.

Lemma wrapped_runs_on_own ex0 h ex cur : user_of h = Some ex -> ex <> inline_executor ->
  user_runs_on cur (layered (wrap_executor ex0) h) = ex.
Proof. intros. apply dispatching_layer; [done..|]. intros c. by exists c. Qed.

Lemma request_context_runs_on_own t id ex0 h ex cur : user_of h = Some ex -> ex <> inline_executor ->
  user_runs_on cur (request_context t id ex0 h) = ex.
Proof.
  intros Hu Hi. unfold request_context, apply_time_constaint_or_strand.
  destruct (is_none t); exact (wrapped_runs_on_own _ h ex cur Hu Hi).
Qed.

Lemma request_completions_strand t id ex h c d : c ∈ request_completions t id ex h ->
  associated_executor c d = strand id ex.
Proof.
  unfold request_completions, request_context, apply_time_constaint_or_strand, timer_waits.
  destruct (is_none t); set_solver.
Qed.

Lemma timed_connect_completions_strand oids t id ex h c d : is_none t = false ->
  c ∈ connect_completions oids t id ex h -> associated_executor c d = strand id ex.
Proof.
  intros Ht. unfold connect_completions, connect_op, apply_oid_map_request, apply_time_constaint,
    apply_time_constaint_or_strand, timer_waits, connect_wrap. rewrite Ht.
  destruct oids; set_solver.
Qed.

(** ** What the towers guarantee *)

Module Executing.

(** C16: which callbacks never run at the same time, being associated with the same
    strand.  Those a request gives to the socket and to its timer, with or without a
    time constraint, are on the one strand the request made.  Those of a connect with
    a time constraint, the polling of the socket and the timer, are on the strand of
    the connect; without a time constraint there is no strand, but there is only one
    callback at a time.  The request of the oids that follows a connect has its
    callbacks on a strand of its own, and its end is handed over to the strand of the
    connect; so the timer of the connect, which runs through that request, is on
    another strand than its callbacks: these are not serialized.  The end of
    [PQcancel] and the timer of a cancel meet on one strand.  Each callback of a
    request and of a connect allocates with the allocator of the user's handler. *)
Theorem completions_are_serialized (t : time_constraint) (id id' : nat) (ex handle_ex : executor)
    (oids : bool) (h : handler) :
  (forall c d, c ∈ request_completions t id ex h ->
     associated_executor c d = strand id ex /\ associated_allocator c = associated_allocator h)
  /\ (forall c d, c ∈ connect_completions oids t id ex h ->
       (is_none t = false -> associated_executor c d = strand id ex)
       /\ (is_none t = true -> connect_completions oids t id ex h = [c])
       /\ associated_allocator c = associated_allocator h)
  /\ (forall c d, c ∈ oids_completions t id id' ex h -> associated_executor c d = strand id' ex)
  /\ (id <> id' -> forall timer c d, timer ∈ timer_waits t (connect_wrap t id ex h) -> c ∈ oids_completions t id id' ex h ->
       associated_executor timer d = strand id ex /\ associated_executor timer d <> associated_executor c d)
  /\ (is_none t = false -> forall cur,
       dispatch cur (layered binder (layered request_oid_map_op (apply_time_constaint t id ex h)))
       = strand id ex)
  /\ (forall c d, c ∈ cancel_completions handle_ex id ex h ->
       exists f, c = layered (cancel_op handle_ex) f /\ (forall cur, layer_calls (cancel_op handle_ex) cur f = strand id ex)
       \/ c = layered on_timer_expired f /\ associated_executor c d = strand id ex).
Proof.
  split_and!.
  - intros c d Hc. split; [by eapply request_completions_strand|].
    revert Hc. unfold request_completions, request_context, apply_time_constaint_or_strand, timer_waits.
    destruct (is_none t); set_solver.
  - intros c d Hc. split; [intros Ht; by eapply timed_connect_completions_strand|]. revert Hc.
    unfold connect_completions, connect_op, apply_oid_map_request, apply_time_constaint,
      apply_time_constaint_or_strand, timer_waits.
    destruct (is_none t), oids; set_solver.
  - intros c d Hc. by eapply request_completions_strand.
  - intros Hid timer c d Ht Hc. rewrite (request_completions_strand _ _ _ _ _ _ Hc).
    unfold timer_waits, connect_wrap in Ht. destruct (is_none t); [by apply elem_of_nil in Ht|].
    apply list_elem_of_singleton in Ht as ->. split; [done|]. cbn. congruence.
  - intros Ht cur. unfold apply_time_constaint, apply_time_constaint_or_strand, connect_wrap. by rewrite Ht.
  - intros c d Hc. unfold cancel_completions in Hc. apply elem_of_cons in Hc as [->|Hc].
    + eexists. left. by split.
    + apply list_elem_of_singleton in Hc as ->. eexists. right. by split.
Qed.

(** A handler with an executor of its own is called on that executor, under
    whatever tower of operations (requests, connects, pools, failover, transactions,
    cancels): when asio runs the tower on its associated executor, and also when a
    request, a connect, a cancel or a transaction reports an error at once from
    wherever it was started.  A handler without one is called on the strand of its
    request. *)
Theorem user_handlers_run_on_their_executor (h : handler) (ex : executor) :
  user_of h = Some ex -> ex <> inline_executor ->
  (forall cur d, user_runs_on (enter cur (associated_executor h d)) h = ex)
  /\ (forall t id ex0 cur, user_runs_on cur (request_context t id ex0 h) = ex)
  /\ (forall oids t id ex0 cur, user_runs_on cur (connect_op oids t id ex0 h) = ex)
  /\ (forall ex0 id ex1 cur c, c ∈ cancel_completions ex0 id ex1 h -> user_runs_on cur c = ex)
  /\ (forall queued ex0 cur, user_runs_on (submit cur ex0 (pool_get queued ex0 h)) (pool_get queued ex0 h) = ex)
  /\ (forall t id ex0 a c cur, c ∈ request_completions t id ex0 (user_handler None a) ->
       user_runs_on (dispatch cur c) c = strand id ex0).
Proof.
  intros Hu Hi. split_and!.
  - by apply user_runs_on_own.
  - intros. by apply request_context_runs_on_own.
  - intros oids t id ex0 cur. unfold connect_op, apply_oid_map_request, apply_time_constaint,
      apply_time_constaint_or_strand, connect_wrap.
    destruct oids, (is_none t); exact (wrapped_runs_on_own _ h ex cur Hu Hi).
  - intros ex0 id ex1 cur c Hc. unfold cancel_completions, cancel_wrap in Hc.
    apply elem_of_cons in Hc as [->|Hc]; [|apply list_elem_of_singleton in Hc as ->]; exact (wrapped_runs_on_own _ h ex _ Hu Hi).
  - intros queued ex0 cur. unfold submit, dispatch. apply user_runs_on_own; [by destruct queued|done].
  - intros t id ex0 a c cur Hc. unfold dispatch. rewrite (request_completions_strand _ _ _ _ _ _ Hc).
    revert Hc. unfold request_completions, request_context, apply_time_constaint_or_strand, timer_waits.
    destruct (is_none t); set_solver.
Qed.

End Executing.

(** A request touches the connection from its start, on the executor of the
    user's handler, while its first wait may complete on the strand: the two are
    not serialized. *)
Lemma request_starts_outside_its_strand t id ex n a cur c :
  c ∈ request_completions t id ex (user_handler (Some (io_executor n)) a) ->
  dispatch cur (layered async_request_op (user_handler (Some (io_executor n)) a)) = io_executor n
  /\ associated_executor c inline_executor <> io_executor n.
Proof. intros Hc. split; [done|]. by rewrite (request_completions_strand _ _ _ _ _ _ Hc). Qed.
