(* ===== verification/Deadlines.v ===== *)
(** * Operations with a deadline: [detail/deadline.h]

    A completion handler races with a timer; both run on the handler's strand (see
    [Executors]), so the two calls are serialized and a run is an order of them.  [None] is a
    call through a context pointer that was already reset. *)

From S2P Require Import Prelude Errors.
#[local] Open Scope Z_scope.

(** ** [io_deadline_handler] *)
Module IoDeadline.
Section io_deadline.
Context {Result : Type}.

(** The shared [context], and which of the two parties still points to it. *)
Record state := State {
  first_call : Z;
  ctx_ec : error_code;
  ctx_result : option Result;
  operation_ctx : bool;
  timer_ctx : bool;
  timer_cancelled : bool;
  stream_cancelled : bool;
  calls : list (error_code * option Result)
}.

(** The constructor: both the operation and the timer are pending. *)
Definition io_start : state := State 2 ec_default None true true false false [].

Inductive event := operation_done (ec : error_code) (result : Result) | timer_done (ec : error_code).

(** [io_deadline_handler::operator()] *)
Definition on_operation (ec : error_code) (result : Result) (s : state) : option state :=
  if negb (operation_ctx s) then None else
  let n := first_call s - 1 in
  if negb (n =? 0) then
    Some (State n ec (Some result) false (timer_ctx s) true (stream_cancelled s) (calls s))
  else
    Some (State n (ctx_ec s) (ctx_result s) false (timer_ctx s) (timer_cancelled s)
            (stream_cancelled s) (calls s ++ [(ctx_ec s, Some result)])).

(** [timer_handler::operator()] *)
Definition on_timer (s : state) : option state :=
  if negb (timer_ctx s) then None else
  let n := first_call s - 1 in
  if negb (n =? 0) then
    Some (State n (ec_asio timed_out) (ctx_result s) (operation_ctx s) false (timer_cancelled s)
            true (calls s))
  else
    Some (State n (ctx_ec s) (ctx_result s) (operation_ctx s) false (timer_cancelled s)
            (stream_cancelled s) (calls s ++ [(ctx_ec s, ctx_result s)])).

Definition step (s : state) (e : event) : option state :=
  match e with
  | operation_done ec r => on_operation ec r s
  | timer_done _ => on_timer s
  end.

Fixpoint run (s : state) (es : list event) : option state :=
  match es with
  | [] => Some s
  | e :: es => s ← step s e; run s es
  end.

End io_deadline.
Arguments state : clear implicits.
Arguments event : clear implicits.

(** Whichever of the operation and the timer comes first, the
    handler is called exactly once, by whichever comes second, with the
    operation's result: with the operation's own error when the operation won
    (and the timer is cancelled), with [timed_out] when the timer won (and the
    stream is cancelled). *)
Theorem deadline_calls_handler_once {Result : Type} (ec timer_ec : error_code) (result : Result) :
  (exists s, run io_start [operation_done ec result] = Some s /\ calls s = [] /\ timer_cancelled s = true)
  /\ (exists s, run io_start [timer_done timer_ec] = Some s
        /\ calls (Result := Result) s = [] /\ stream_cancelled s = true)
  /\ (exists s, run io_start [operation_done ec result; timer_done timer_ec] = Some s
        /\ calls s = [(ec, Some result)])
  /\ (exists s, run io_start [timer_done timer_ec; operation_done ec result] = Some s
        /\ calls s = [(ec_asio timed_out, Some result)])
  /\ forall es (s : state Result), run io_start es = Some s -> (length (calls s) <= 1)%nat /\ (length es <= 2)%nat.
Proof.
  split_and!; try (eexists; split; [reflexivity|]; done).
  intros es s H. destruct es as [|[ec1 r1|t1] [|[ec2 r2|t2] [|[ec3 r3|t3] es]]]; simpl in H;
    try discriminate H; injection H as <-; simpl; lia.
Qed.

End IoDeadline.
