(* ===== verification/Cancel.v ===== *)
(** * The cancel operation: [cancel.h], [impl/cancel.h]

    [PQcancel] blocks the thread of the cancel handle's executor, while a timer
    runs on the strand of the completion handler.  Both decrement the counter
    of a shared context; the one that comes first calls the handler.  The
    decrement is atomic and nothing else is assumed about the order of the two
    parties: what each does is cut into the steps between which the other may
    run. *)

From Stdlib Require Import Strings.Ascii Strings.String.
From S2P Require Import Prelude Words Time Errors Wrapped Connection.
#[local] Open Scope list_scope.
#[local] Open Scope Z_scope.

Module Cancel.

(** A [PGcancel]; [None] is the null pointer. *)
Definition pg_cancel := option nat.

(** [cancel_handle<Executor>]: the native handle and the executor. *)
Record cancel_handle := CancelHandle { native_handle : pg_cancel; executor : nat }.

Section cancel.
(** [PQgetCancel], and what [PQcancel] returns and leaves in the 255 bytes of the
    error buffer. *)
Context (PQgetCancel : option handle -> pg_cancel)
        (PQcancel : pg_cancel -> bool * list ascii).

(** [get_cancel_handle(connection, executor)]; [None] when the connection is null. *)
Definition get_cancel_handle (w : wrapped connection) (ex : nat) : option cancel_handle :=
  h ← get_native_handle w; Some (CancelHandle (PQgetCancel h) ex).

(** What the operation of a cancel handle completes with:
    [dispatch_cancel(cancel_handle_)] with [pq_cancel]. *)
Definition cancel_result (h : cancel_handle) : error_code * list ascii :=
  let '(success, err) := PQcancel (native_handle h) in dispatch_cancel success err.

(** [cancel(handle, token)]: [cancel_op] is posted to the executor of the handle
    and calls the handler. *)
Definition cancel_without_timer (h : cancel_handle) : list (error_code * list ascii) :=
  [cancel_result h].

(** [asio::error::timed_out] and the text of [on_timer_expired]. *)
Definition timeout_result : error_code * list ascii :=
  (ec_asio timed_out, list_ascii_of_string "cancel() operation waiting aborted by time-out").

(** Where the posted [cancel_op] and its [deadline_cancel_handler] are: not run
    yet, [PQcancel] returned, the counter decremented (to a value), done. *)
Inductive op_state := op_posted | op_dispatched | op_decremented (n : Z) | op_done.

(** Where the timer is: its wait is pending, [on_timer_expired] decremented the
    counter, done. *)
Inductive timer_state := timer_waiting | timer_decremented (n : Z) | timer_done.

Record state := State {
  state_ : Z;
  handler_ : bool;
  op : op_state;
  timer : timer_state;
  timer_cancelled : bool;
  freed : list pg_cancel;
  calls : list (error_code * list ascii)
}.

(** [deadline_cancel_handler(ex, t, handler)], and [cancel_op] posted. *)
Definition initiate_async_cancel : state := State 2 true op_posted timer_waiting false [] [].

Inductive event := run_cancel | decrement_op | finish_op | decrement_timer | finish_timer.

(** [std::move(ctx_->handler_)] and the call; [None] when the handler was moved
    away already. *)
Definition call_handler (r : error_code * list ascii) (s : state) : option state :=
  if handler_ s then
    Some (State (state_ s) false (op s) (timer s) (timer_cancelled s) (freed s) (calls s ++ [r]))
  else None.

Definition set_op (x : op_state) (s : state) : state :=
  State (state_ s) (handler_ s) x (timer s) (timer_cancelled s) (freed s) (calls s).
Definition set_timer (x : timer_state) (s : state) : state :=
  State (state_ s) (handler_ s) (op s) x (timer_cancelled s) (freed s) (calls s).
Definition decrement (s : state) : state :=
  State (state_ s - 1) (handler_ s) (op s) (timer s) (timer_cancelled s) (freed s) (calls s).

(** [cancel_op::operator()] up to the call of its handler: [pq_cancel] takes the
    handle by value and so frees it. *)
Definition on_run (h : cancel_handle) (s : state) : state :=
  State (state_ s) (handler_ s) op_dispatched (timer s) (timer_cancelled s)
    (freed s ++ [native_handle h]) (calls s).

(** [deadline_cancel_handler::operator()] after [--ctx_->state_]. *)
Definition on_cancel (h : cancel_handle) (n : Z) (s : state) : option state :=
  let s := set_op op_done s in
  if negb (n =? 0) then
    call_handler (cancel_result h)
      (State (state_ s) (handler_ s) (op s) (timer s) true (freed s) (calls s))
  else Some s.

(** [on_timer_expired::operator()] after [--(ctx_->state_)]. *)
Definition on_timer_expired (n : Z) (s : state) : option state :=
  let s := set_timer timer_done s in
  if negb (n =? 0) then call_handler timeout_result s else Some s.

(** One step of a party; [None] when the party is elsewhere, or calls a handler
    that was moved away. *)
Definition step (h : cancel_handle) (e : event) (s : state) : option state :=
  match e, op s, timer s with
  | run_cancel, op_posted, _ => Some (on_run h s)
  | decrement_op, op_dispatched, _ => Some (set_op (op_decremented (state_ s - 1)) (decrement s))
  | finish_op, op_decremented n, _ => on_cancel h n s
  | decrement_timer, _, timer_waiting =>
      Some (set_timer (timer_decremented (state_ s - 1)) (decrement s))
  | finish_timer, _, timer_decremented n => on_timer_expired n s
  | _, _, _ => None
  end.

Fixpoint run (h : cancel_handle) (es : list event) (s : state) : option state :=
  match es with
  | [] => Some s
  | e :: es => s ← step h e s; run h es s
  end.

(** ** The invariant *)

(** The handler is called once: it was, or the party that will call it is about
    to, or the counter is still 2. *)
Definition cancel_ok (h : cancel_handle) (s : state) : Prop :=
  freed s = (match op s with op_posted => [] | _ => [native_handle h] end)
  /\ (calls s = [] \/ calls s = [cancel_result h] \/ calls s = [timeout_result])
  /\ handler_ s = bool_decide (calls s = [])
  /\ match op s, timer s with
     | (op_posted | op_dispatched), timer_waiting => state_ s = 2 /\ calls s = []
     | (op_posted | op_dispatched), timer_decremented n => state_ s = 1 /\ n = 1 /\ calls s = []
     | (op_posted | op_dispatched), timer_done => state_ s = 1 /\ calls s = [timeout_result]
     | op_decremented n, timer_waiting => state_ s = 1 /\ n = 1 /\ calls s = []
     | op_decremented n, timer_decremented m =>
         state_ s = 0 /\ calls s = [] /\ (n = 1 /\ m = 0 \/ n = 0 /\ m = 1)
     | op_decremented n, timer_done =>
         state_ s = 0 /\ (n = 1 /\ calls s = [] \/ n = 0 /\ calls s = [timeout_result])
     | op_done, timer_waiting => state_ s = 1 /\ calls s = [cancel_result h]
     | op_done, timer_decremented m =>
         state_ s = 0 /\ (m = 1 /\ calls s = [] \/ m = 0 /\ calls s = [cancel_result h])
     | op_done, timer_done => state_ s = 0 /\ length (calls s) = 1%nat
     end.


(** Whether the party of a step is where the step starts. *)
Definition ready (e : event) (s : state) : bool :=
  match e, op s, timer s with
  | run_cancel, op_posted, _ | decrement_op, op_dispatched, _
  | finish_op, op_decremented _, _ | decrement_timer, _, timer_waiting
  | finish_timer, _, timer_decremented _ => true
  | _, _, _ => false
  end.

(** The steps left. *)
Definition op_left (x : op_state) : nat :=
  match x with op_posted => 3 | op_dispatched => 2 | op_decremented _ => 1 | op_done => 0 end.
Definition timer_left (x : timer_state) : nat :=
  match x with timer_waiting => 2 | timer_decremented _ => 1 | timer_done => 0 end.
Definition steps_left (s : state) : nat := (op_left (op s) + timer_left (timer s))%nat.

Lemma cancel_start_ok h : cancel_ok h initiate_async_cancel.
Proof. unfold cancel_ok. simpl. split_and!; auto. Qed.

(** A party that is ready can always do its step: no handler is called twice. *)
Lemma cancel_step_ok h e s : cancel_ok h s -> ready e s = true ->
  exists s', step h e s = Some s' /\ cancel_ok h s' /\ steps_left s = S (steps_left s').
Proof.
  destruct s as [n hd o t tc fr cs]. unfold cancel_ok, ready, step, on_cancel, on_timer_expired,
    call_handler, on_run, steps_left. simpl.
  intros (-> & Hcs & -> & Hm) Hr.
  destruct e, o as [| |k|], t as [|m|]; try discriminate Hr; simpl in *;
    destruct_and?; subst; simpl;
    repeat match goal with
    | H : _ \/ _ |- _ => destruct H
    | H : _ /\ _ |- _ => destruct H
    | H : ?x = _ |- _ => is_var x; subst x
    end; simpl in *; try discriminate;
    (eexists; split; [reflexivity|]); simpl; split_and!; auto 10.
Qed.

Lemma step_ready h e s s' : step h e s = Some s' -> ready e s = true.
Proof. unfold step, ready. by destruct e, (op s), (timer s). Qed.

Lemma cancel_run_ok h es s s' : cancel_ok h s -> run h es s = Some s' ->
  cancel_ok h s' /\ steps_left s = (length es + steps_left s')%nat.
Proof.
  revert s. induction es as [|e es IH]; intros s Hs E; simpl in E; simplify_eq; [done|].
  destruct (step h e s) as [s1|] eqn:E1; simplify_eq/=.
  destruct (cancel_step_ok h e s Hs (step_ready _ _ _ _ E1)) as (s2 & E2 & Hs2 & Hl).
  rewrite E1 in E2. simplify_eq. destruct (IH _ Hs2 E) as [? ?]. split; [done|lia].
Qed.

Lemma ready_exists s : steps_left s <> 0%nat -> exists e, ready e s = true.
Proof.
  unfold steps_left, ready. destruct (op s), (timer s); simpl; intros; try lia;
    solve [by exists run_cancel|by exists decrement_op|by exists finish_op
          |by exists decrement_timer|by exists finish_timer].
Qed.

(** C31: however the cancel request and the timer interleave, the completion
    handler is called at most once, with what [PQcancel] gave or with the time-out,
    and never through a context it was moved out of; the native handle is freed at
    most once; the parties take at most five steps, some step is possible until
    all are taken, and then the handler was called and the handle freed exactly
    once. *)
Theorem cancel_calls_handler_once (h : cancel_handle) (es : list event) (s : state) :
  run h es initiate_async_cancel = Some s ->
  (length (calls s) <= 1)%nat
  /\ (forall r, r ∈ calls s -> r = cancel_result h \/ r = timeout_result)
  /\ (length (freed s) <= 1)%nat
  /\ (forall e, ready e s = true -> is_Some (step h e s))
  /\ (length es <= 5)%nat
  /\ ((length es < 5)%nat -> exists e, ready e s = true)
  /\ (length es = 5%nat -> length (calls s) = 1%nat /\ freed s = [native_handle h]).
Proof.
  intros E. destruct (cancel_run_ok _ _ _ _ (cancel_start_ok h) E) as [Hs Hl].
  change (steps_left initiate_async_cancel) with 5%nat in Hl.
  split_and!; [| | | |lia|intros; apply ready_exists; lia|].
  - destruct Hs as (_ & [->|[->| ->]] & _); simpl; lia.
  - destruct Hs as (_ & Hc & _). intros r Hr. destruct Hc as [Hc|[Hc|Hc]]; rewrite Hc in Hr;
      [by apply elem_of_nil in Hr|left|right]; by apply list_elem_of_singleton.
  - destruct Hs as (-> & _). destruct (op s); simpl; lia.
  - intros e He. destruct (cancel_step_ok h e s Hs He) as (s' & -> & _). by eexists.
  - intros H5. assert (steps_left s = 0%nat) as H0 by lia. unfold steps_left in H0.
    destruct Hs as (-> & _ & _ & Hm). destruct (op s), (timer s); simpl in *; try lia.
    by destruct Hm.
Qed.
End cancel.

Lemma cancel_calls_handler_once_witness :
  let PQcancel := fun _ => (false, list_ascii_of_string "no") in
  exists s, run PQcancel (CancelHandle (Some 7%nat) 0)
      [decrement_timer; run_cancel; decrement_op; finish_op; finish_timer] initiate_async_cancel = Some s
    /\ length (calls s) = 1%nat /\ freed s = [Some 7%nat].
Proof.
  eexists. split; [vm_compute; reflexivity|].
  apply (cancel_calls_handler_once (fun _ => (false, list_ascii_of_string "no"))
    (CancelHandle (Some 7%nat) 0) [decrement_timer; run_cancel; decrement_op; finish_op; finish_timer]);
    vm_compute; reflexivity.
Defined.

(** When the timer is first the handler hears of the time-out, when the request
    is first of its result, its message without the zero bytes at the end. *)
Example cancel_timer_first :
  calls <$> run (fun _ => (false, [])) (CancelHandle None 0)
    [decrement_timer; run_cancel; finish_timer; decrement_op; finish_op] initiate_async_cancel
  = Some [timeout_result].
Proof. reflexivity. Qed.

Example cancel_request_first :
  calls <$> run (fun _ => (false, list_ascii_of_string "no" ++ [zero; zero])) (CancelHandle (Some 1%nat) 0)
    [run_cancel; decrement_op; decrement_timer; finish_timer; finish_op] initiate_async_cancel
  = Some [(ec_ozo pq_cancel_failed, list_ascii_of_string "no")].
Proof. reflexivity. Qed.
End Cancel.
