(* ===== verification/Connect.v ===== *)
(** * Connecting: [impl/async_connect.h] and [request_oid_map_op] of
      [impl/request_oid_map.h]

    [async_connect_op] is a state machine driven by socket readiness; what libpq
    answers ([PQconnectStart], [PQstatus], [PQsocket], [PQconnectPoll]) comes
    with the calls and events; [PQsocket] is asked once, before polling.  After a successful connect the oids of the registered types are
    requested, if there are any, before the handler is called. *)

From S2P Require Import Prelude Errors TypeSystem Connection.
#[local] Open Scope string_scope.
#[local] Open Scope list_scope.
#[local] Open Scope Z_scope.

Inductive polling_status :=
  PGRES_POLLING_OK | PGRES_POLLING_WRITING | PGRES_POLLING_READING
| PGRES_POLLING_FAILED | PGRES_POLLING_ACTIVE.

Inductive wait := wait_read | wait_write.

(** The connection, the wait in flight, the calls of the handler. *)
Record connect_state := ConnectState {
  cs_conn : connection;
  cs_finished : list handle;
  cs_wait : option wait;
  cs_calls : list error_code
}.

Section connect.
Context (PQstatus : handle -> conn_status).

(** [done(ec)] *)
Definition connect_done (ec : error_code) (s : connect_state) : connect_state :=
  ConnectState (cs_conn s) (cs_finished s) None (cs_calls s ++ [ec]).

Definition wait_for (w : wait) (s : connect_state) : connect_state :=
  ConnectState (cs_conn s) (cs_finished s) (Some w) (cs_calls s).

(** [perform(conninfo)], given the result of [PQconnectStart] and what [PQsocket]
    answers for it then; a handle that is not assigned is finished when the local
    [pg::conn] is destroyed. *)
Definition perform (started : option handle) (fd : Z) (s : connect_state) : connect_state :=
  match started with
  | None => connect_done (ec_ozo pq_connection_start_failed) s
  | Some h =>
      if connection_status_bad PQstatus (Some h)
      then connect_done (ec_ozo pq_connection_status_bad)
             (ConnectState (cs_conn s) (cs_finished s ++ [h]) (cs_wait s) (cs_calls s))
      else
        let '(ec, c, f) := assign fd h (cs_conn s) (cs_finished s) in
        if failed ec
        then connect_done ec (ConnectState c (f ++ [h]) (cs_wait s) (cs_calls s))
        else wait_for wait_write (ConnectState c f (cs_wait s) (cs_calls s))
  end.

(** [operator()(ec)], given what [PQconnectPoll] returns when it is called. *)
Definition on_ready (ec : error_code) (poll : polling_status) (s : connect_state) : connect_state :=
  if failed ec then
    let c := if bool_decide (error_context_ (cs_conn s) = "")
             then set_error_context "error while connection polling" (cs_conn s) else cs_conn s in
    connect_done ec (ConnectState c (cs_finished s) (cs_wait s) (cs_calls s))
  else
    match poll with
    | PGRES_POLLING_OK => connect_done ec_default s
    | PGRES_POLLING_WRITING => wait_for wait_write s
    | PGRES_POLLING_READING => wait_for wait_read s
    | PGRES_POLLING_FAILED | PGRES_POLLING_ACTIVE => connect_done (ec_ozo pq_connect_poll_failed) s
    end.

(** A completion of the wait in flight; [None] when there is none. *)
Definition connect_step (s : connect_state) (e : error_code * polling_status) : option connect_state :=
  match cs_wait s with
  | None => None
  | Some _ => Some (on_ready e.1 e.2 s)
  end.

Definition new_connect : connect_state := ConnectState new_connection [] None [].

(** The states of a connect operation. *)
Inductive connecting (started : option handle) (fd : Z) : connect_state -> Prop :=
| connecting_perform : connecting started fd (perform started fd new_connect)
| connecting_step s e s' : connecting started fd s -> connect_step s e = Some s' -> connecting started fd s'.

(** The states of a connect operation with the socket libpq uses: [PQconnectPoll]
    may go on with another one, for instance when it tries the next address of a
    host. *)
Inductive connecting_on (started : option handle) (fd : Z) : connect_state -> Z -> Prop :=
| connecting_on_perform : connecting_on started fd (perform started fd new_connect) fd
| connecting_on_step s sock e s' sock' : connecting_on started fd s sock -> connect_step s e = Some s' ->
    connecting_on started fd s' (if failed e.1 then sock else sock').

(** Either one wait is in flight and the handler was not called, or it was
    called once and nothing is in flight; a success means there is a handle. *)
Definition connect_inv (s : connect_state) : Prop :=
  ((exists w, cs_wait s = Some w) /\ cs_calls s = [] /\ is_open (cs_conn s) = true)
  \/ (exists ec, cs_wait s = None /\ cs_calls s = [ec]
       /\ (failed ec = false -> is_open (cs_conn s) = true)).

Lemma perform_inv started fd : connect_inv (perform started fd new_connect).
Proof.
  unfold perform. destruct started as [h|]; [|right; by eexists].
  destruct (connection_status_bad PQstatus (Some h)); [right; by eexists|].
  unfold assign. destruct (_ =? _); simpl; [right; by eexists|left; by eauto].
Qed.

Lemma on_ready_inv ec poll s w : cs_wait s = Some w -> connect_inv s -> connect_inv (on_ready ec poll s).
Proof.
  intros Hw [(_ & Hc & Ho)|(ec' & Hn & _)]; [|congruence]. unfold on_ready.
  destruct (failed ec) eqn:Ef.
  - right. exists ec. simpl. rewrite Hc, Ef. split_and!; [done..|discriminate].
  - destruct poll; simpl; [right|left|left|right|right];
      try (split; [by eexists|done]); eexists; simpl; rewrite Hc; (split_and!; [done|done|done || discriminate]).
Qed.

Lemma connecting_inv started fd s : connecting started fd s -> connect_inv s.
Proof.
  induction 1 as [|s e s' _ IH Hs]; [apply perform_inv|]. unfold connect_step in Hs.
  destruct (cs_wait s) eqn:Ew; [|done]. injection Hs as <-. by eapply on_ready_inv.
Qed.

(** Every handle [PQconnectStart] returned is held by the connection or
    finished. *)
Lemma connecting_owned started fd s : connecting started fd s ->
  option_list (handle_ (cs_conn s)) ++ cs_finished s = option_list started.
Proof.
  induction 1 as [|s [ec poll] s' _ IH Hs].
  - unfold perform. destruct started as [h|]; [|done].
    destruct (connection_status_bad PQstatus (Some h)); [done|].
    unfold assign. destruct (_ =? _); done.
  - unfold connect_step in Hs. destruct (cs_wait s); [|done]. injection Hs as <-. rewrite <- IH.
    unfold on_ready. simpl. destruct (failed ec); simpl; [by case_bool_decide|]. by destruct poll.
Qed.

End connect.

(** ** The oids of the registered types *)

(** [request_oid_map_op::operator()]: the map after the call, the error passed
    on, and the error context set. *)
Definition on_oids (ec : error_code) (res : list Z) (m : oid_map) (what : exn -> string)
    : error_code * oid_map * option string :=
  if failed ec then (ec, m, None)
  else
    match set_oid_map m res with
    | (m, None) => (ec, m, None)
    | (m, Some e) => (ec_ozo oid_request_failed, m, Some (what e))
    end.

(** What happens after [async_connect_op] is done: [apply_oid_map_request] and
    [request_oid_map_handler]. *)
Inductive continuation := call_handler (ec : error_code) | request_oids.

Definition after_connect (m : oid_map) (ec : error_code) : continuation :=
  if oid_map_empty m then call_handler ec
  else if failed ec then call_handler ec
  else request_oids.

Module ConnectOp.

(** At every moment of a connect operation either exactly one socket
    wait is in flight and the handler was not called, or nothing is in flight
    and it was called exactly once; success is reported only with an open
    handle; and the handle libpq returned is held by the connection or finished,
    never both and never leaked. *)
Theorem connect_calls_handler_once (PQstatus : handle -> conn_status)
    (started : option handle) (fd : Z) (s : connect_state) (Hs : connecting PQstatus started fd s) :
  connect_inv s /\ option_list (handle_ (cs_conn s)) ++ cs_finished s = option_list started.
Proof. split; [by eapply connecting_inv|by eapply connecting_owned]. Qed.

(** After connecting, the handler is called with success only when the
    registered types (if any) have all got the oids the database returned,
    none of them null; a reply that does not fit is reported as
    [oid_request_failed], and a failed request with its own error. *)
Theorem connect_succeeds_with_oids (m : oid_map) (res : list Z) (what : exn -> string) (ec : error_code) :
  let '(ec', m', ctx) := on_oids ec res m what in
  keys m' = keys m
  /\ (failed ec = true -> ec' = ec /\ m' = m)
  /\ (failed ec = false -> failed ec' = false ->
        length res = length m /\ (set_oid_map m res).2 = None /\ m' = (set_oid_map m res).1)
  /\ (failed ec = false -> failed ec' = true -> ec' = ec_ozo oid_request_failed /\ ctx <> None)
  /\ (after_connect m ec_default = call_handler ec_default <-> m = []).
Proof.
  unfold on_oids, after_connect, oid_map_empty.
  assert (keys (set_oid_map m res).1 = keys m) as Hk.
  { unfold set_oid_map. case_bool_decide; [|done]. generalize (keys m) at 1 as ks. clear. revert m.
    induction res as [|i res IH]; intros m [|k ks]; simpl; try done.
    destruct (_ =? _); [done|]. by rewrite IH, keys_map_set. }
  assert ((set_oid_map m res).2 = None -> length res = length m) as Hl.
  { unfold set_oid_map. case_bool_decide; [by intros _|done]. }
  assert ((if bool_decide (m = []) then call_handler ec_default
           else if failed ec_default then call_handler ec_default else request_oids)
          = call_handler ec_default <-> m = []) as Hm.
  { case_bool_decide; [done|]. change (failed ec_default) with false. simpl. split; [discriminate|done]. }
  destruct (failed ec) eqn:Ef.
  - split_and!; try done; congruence.
  - destruct (set_oid_map m res) as [m' [e|]]; simpl in *; split_and!; try done; try congruence.
    intros _ _. by split_and!; [apply Hl| |].
Qed.

(** The descriptor a connect operation waits for is the socket the handle had when
    [PQconnectStart] returned it, whatever [PQconnectPoll] answers. *)
Lemma connecting_socket (PQstatus : handle -> conn_status) (started : option handle) (fd : Z) (s : connect_state) :
  connecting PQstatus started fd s -> is_open (cs_conn s) = true -> socket_ (cs_conn s) = Some fd.
Proof.
  induction 1 as [|s [ec poll] s' Hs IH E].
  - unfold perform. destruct started as [h|]; [|done]. destruct (connection_status_bad PQstatus (Some h)); [done|].
    unfold assign. by destruct (_ =? _).
  - unfold connect_step in E. destruct (cs_wait s); [|done]. injection E as <-. intros Ho.
    unfold on_ready in *. simpl in *. destruct (failed ec); simpl in *; [case_bool_decide; by apply IH|].
    destruct poll; by apply IH.
Qed.

(** So when libpq goes on with another socket, the operation waits for one that
    libpq does not use any more. *)
Lemma connect_waits_on_first_socket (PQstatus : handle -> conn_status) (h : handle) (fd fd' : Z) :
  PQstatus h <> CONNECTION_BAD -> fd <> -1 -> fd' <> fd ->
  exists s, connecting_on PQstatus (Some h) fd s fd' /\ cs_wait s = Some wait_write
    /\ handle_ (cs_conn s) = Some h /\ socket_ (cs_conn s) = Some fd.
Proof.
  intros Hst Hfd _. assert (perform PQstatus (Some h) fd new_connect
    = ConnectState (Connection (Some h) (Some fd) "") [] (Some wait_write) []) as Hp.
  { unfold perform, assign. simpl. rewrite bool_decide_false by done. by rewrite (proj2 (Z.eqb_neq _ _)). }
  exists (perform PQstatus (Some h) fd new_connect). split; [|by rewrite Hp].
  apply (connecting_on_step PQstatus (Some h) fd (perform PQstatus (Some h) fd new_connect) fd
    (ec_default, PGRES_POLLING_WRITING) _ fd'); [constructor|by rewrite Hp].
Qed.

End ConnectOp.
