(* ===== verification/Request.v ===== *)
(** * Requests: [impl/io.h], [impl/async_request.h]

    A request runs two operations on one connection: sending the query
    ([async_send_query_params_op], which waits until the socket is writable) and
    getting the result ([async_get_result_op], a coroutine that waits until it is
    readable).  They share the [query_state] of the context, and each of them
    may finish the request.  libpq is an interface, the class [libpq]; a state
    holds the pending waits and the calls of the completion handler. *)

From Stdlib Require Import Strings.Ascii.
From S2P Require Import Prelude Words Errors.
#[local] Open Scope string_scope.
#[local] Open Scope list_scope.
#[local] Open Scope Z_scope.

(** [ExecStatusType] *)
Inductive exec_status :=
| PGRES_EMPTY_QUERY | PGRES_COMMAND_OK | PGRES_TUPLES_OK | PGRES_COPY_OUT | PGRES_COPY_IN
| PGRES_BAD_RESPONSE | PGRES_NONFATAL_ERROR | PGRES_FATAL_ERROR | PGRES_COPY_BOTH
| PGRES_SINGLE_TUPLE | PGRES_PIPELINE_SYNC | PGRES_PIPELINE_ABORTED | PGRES_TUPLES_CHUNK.

#[export] Instance exec_status_eq_dec : EqDecision exec_status.
Proof. solve_decision. Defined.

(** [get_result_status_name] *)
Definition get_result_status_name (s : exec_status) : string :=
  match s with
  | PGRES_SINGLE_TUPLE => "PGRES_SINGLE_TUPLE" | PGRES_TUPLES_OK => "PGRES_TUPLES_OK"
  | PGRES_COMMAND_OK => "PGRES_COMMAND_OK" | PGRES_COPY_OUT => "PGRES_COPY_OUT"
  | PGRES_COPY_IN => "PGRES_COPY_IN" | PGRES_COPY_BOTH => "PGRES_COPY_BOTH"
  | PGRES_NONFATAL_ERROR => "PGRES_NONFATAL_ERROR" | PGRES_BAD_RESPONSE => "PGRES_BAD_RESPONSE"
  | PGRES_EMPTY_QUERY => "PGRES_EMPTY_QUERY" | PGRES_FATAL_ERROR => "PGRES_FATAL_ERROR"
  | PGRES_PIPELINE_SYNC => "PGRES_PIPELINE_SYNC" | PGRES_PIPELINE_ABORTED => "PGRES_PIPELINE_ABORTED"
  | PGRES_TUPLES_CHUNK => "PGRES_TUPLES_CHUNK"
  end.

(** [query_state] *)
Inductive query_state := qs_error | qs_send_finish | qs_send_in_progress.

#[export] Instance query_state_eq_dec : EqDecision query_state.
Proof. solve_decision. Defined.

(** The calls of libpq on a connection in state [L] and on a result [R]. *)
Class libpq (L R : Type) := Libpq {
  pq_set_nonblocking : L -> bool * L;
  pq_send_query_params : L -> bool * L;
  pq_flush : L -> query_state * L;
  pq_is_busy : L -> bool;
  pq_consume_input : L -> bool * L;
  pq_get_result : L -> option R * L;
  pq_result_status : R -> exec_status;
  pq_result_sqlstate : R -> option (list ascii)
}.

(** [PQgetResult] returns a null after finitely many results: [results_left]
    bounds how many more there can be without reading from the socket. *)
Class libpq_laws (L R : Type) `{libpq L R} (results_left : L -> nat) : Prop := {
  get_result_decreases l r l' :
    pq_get_result l = (Some r, l') -> (results_left l' < results_left l)%nat
}.

(** Where [async_get_result_op] waits for the socket. *)
Inductive recv_at := at_start | at_first_loop | at_drain_loop | at_end.

#[export] Instance recv_at_eq_dec : EqDecision recv_at.
Proof. solve_decision. Defined.

(** The request: the connection, the [query_state], whether a write wait is
    pending, where the result operation is, the result it holds, the error
    context, how often the socket was cancelled, the results processed and the
    calls of the handler. *)
Record request (L R : Type) := Request {
  rq_lib : L;
  rq_state : query_state;
  rq_write_wait : bool;
  rq_recv : recv_at;
  rq_result : option R;
  rq_context : string;
  rq_cancels : nat;
  rq_processed : list R;
  rq_calls : list error_code
}.
Arguments Request {L R} _ _ _ _ _ _ _ _ _.
Arguments rq_lib {L R} _.
Arguments rq_state {L R} _.
Arguments rq_write_wait {L R} _.
Arguments rq_recv {L R} _.
Arguments rq_result {L R} _.
Arguments rq_context {L R} _.
Arguments rq_cancels {L R} _.
Arguments rq_processed {L R} _.
Arguments rq_calls {L R} _.

Section request.
Context {L R : Type} `{libpq L R} (results_left : L -> nat).
(** [process_], the out handler, and [e.what()]. *)
Context (process : R -> may_throw ()) (what : exn -> string).

Abbreviation request := (request L R).

Definition with_lib (l : L) (s : request) : request :=
  Request l (rq_state s) (rq_write_wait s) (rq_recv s) (rq_result s) (rq_context s)
    (rq_cancels s) (rq_processed s) (rq_calls s).
Definition set_query_state (q : query_state) (s : request) : request :=
  Request (rq_lib s) q (rq_write_wait s) (rq_recv s) (rq_result s) (rq_context s)
    (rq_cancels s) (rq_processed s) (rq_calls s).
Definition set_write_wait (b : bool) (s : request) : request :=
  Request (rq_lib s) (rq_state s) b (rq_recv s) (rq_result s) (rq_context s)
    (rq_cancels s) (rq_processed s) (rq_calls s).
Definition set_recv (p : recv_at) (s : request) : request :=
  Request (rq_lib s) (rq_state s) (rq_write_wait s) p (rq_result s) (rq_context s)
    (rq_cancels s) (rq_processed s) (rq_calls s).
Definition set_result (r : option R) (s : request) : request :=
  Request (rq_lib s) (rq_state s) (rq_write_wait s) (rq_recv s) r (rq_context s)
    (rq_cancels s) (rq_processed s) (rq_calls s).
Definition set_context (c : string) (s : request) : request :=
  Request (rq_lib s) (rq_state s) (rq_write_wait s) (rq_recv s) (rq_result s) c
    (rq_cancels s) (rq_processed s) (rq_calls s).
Definition processed (r : R) (s : request) : request :=
  Request (rq_lib s) (rq_state s) (rq_write_wait s) (rq_recv s) (rq_result s) (rq_context s)
    (rq_cancels s) (rq_processed s ++ [r]) (rq_calls s).
Definition cancel_socket (s : request) : request :=
  Request (rq_lib s) (rq_state s) (rq_write_wait s) (rq_recv s) (rq_result s) (rq_context s)
    (S (rq_cancels s)) (rq_processed s) (rq_calls s).
Definition call_handler (ec : error_code) (s : request) : request :=
  Request (rq_lib s) (rq_state s) (rq_write_wait s) (rq_recv s) (rq_result s) (rq_context s)
    (rq_cancels s) (rq_processed s) (rq_calls s ++ [ec]).

(** [impl::done(ctx, ec)] and [impl::done(ctx)] *)
Definition done_error (ec : error_code) (s : request) : request :=
  call_handler ec (cancel_socket (set_query_state qs_error s)).
Definition done_ok (s : request) : request := call_handler ec_default s.

(** ** [async_send_query_params_op] *)

(** [operator()(ec)] *)
Definition send_op (ec : error_code) (s : request) : request :=
  let s := set_write_wait false s in
  if negb (bool_decide (rq_state s = qs_send_in_progress)) then s
  else if failed ec then done_error ec s
  else
    let '(q, l) := pq_flush (rq_lib s) in
    let s := with_lib l s in
    match q with
    | qs_error => done_error (ec_ozo pg_flush_failed) s
    | qs_send_in_progress => set_write_wait true s
    | qs_send_finish => set_query_state qs_send_finish s
    end.

(** [perform()] *)
Definition send_perform (s : request) : request :=
  let '(b, l) := pq_set_nonblocking (rq_lib s) in
  let s := with_lib l s in
  if negb b then done_error (ec_ozo pg_set_nonblocking_failed) s
  else
    let '(b, l) := pq_send_query_params (rq_lib s) in
    let s := with_lib l s in
    if negb b then done_error (ec_ozo pg_send_query_params_failed) s
    else send_op ec_default s.

(** ** [async_get_result_op] *)

(** [done(ec)] *)
Definition recv_done_error (ec : error_code) (s : request) : request :=
  done_error ec (if bool_decide (rq_context s = "") then set_context "error while get request result" s else s).

(** [result_error(res)] *)
Definition result_error (r : R) : error_code :=
  match pq_result_sqlstate r with
  | Some s => ec_sqlstate (strtol36 s)
  | None => ec_ozo no_sql_state_found
  end.

(** [process_and_done(res)] *)
Definition process_and_done (r : R) (s : request) : request :=
  let s := processed r s in
  match process r with
  | Return _ => done_ok s
  | Throw e => recv_done_error (ec_ozo bad_result_process) (set_context (what e) s)
  end.

(** [handle_result()]; it is never called without a result. *)
Definition handle_result (s : request) : request :=
  match rq_result s with
  | None => s
  | Some r =>
      match pq_result_status r with
      | PGRES_SINGLE_TUPLE | PGRES_TUPLES_OK | PGRES_COMMAND_OK => process_and_done r s
      | PGRES_BAD_RESPONSE => recv_done_error (ec_ozo result_status_bad_response) s
      | PGRES_EMPTY_QUERY => recv_done_error (ec_ozo result_status_empty_query) s
      | PGRES_FATAL_ERROR => recv_done_error (result_error r) s
      | st => recv_done_error (ec_ozo result_status_unexpected)
                (set_context (get_result_status_name st) s)
      end
  end.

(** The [do ... while (get_result())] loop that drains the remaining results up
    to the next wait; [None] when the fuel runs out. *)
Fixpoint drain (fuel : nat) (s : request) : option request :=
  match fuel with
  | O => None
  | S fuel =>
      if pq_is_busy (rq_lib s) then Some (set_recv at_drain_loop s)
      else
        let '(r, l) := pq_get_result (rq_lib s) in
        let s := with_lib l s in
        match r with
        | Some _ => drain fuel s
        | None => Some (handle_result (set_recv at_end s))
        end
  end.

Definition drain_all (s : request) : option request := drain (S (results_left (rq_lib s))) s.

(** The coroutine from the head of its first loop. *)
Definition first_loop (s : request) : option request :=
  if pq_is_busy (rq_lib s) then Some (set_recv at_first_loop s)
  else
    let '(r, l) := pq_get_result (rq_lib s) in
    let s := set_result r (with_lib l s) in
    match r with
    | None => Some (done_ok (set_recv at_end s))
    | Some res =>
        if negb (bool_decide (pq_result_status res = PGRES_SINGLE_TUPLE))
        then drain_all s
        else Some (handle_result (set_recv at_end s))
    end.

(** [operator()(ec)]: the guards, then the coroutine from where it waited. *)
Definition recv_op (ec : error_code) (s : request) : option request :=
  if bool_decide (rq_state s = qs_error) then Some (set_recv at_end s)
  else if failed ec then
    let ec := if bool_decide (ec = ec_asio bad_descriptor) then ec_asio operation_aborted else ec in
    Some (recv_done_error ec (set_recv at_end s))
  else
    match rq_recv s with
    | at_start => first_loop s
    | at_first_loop =>
        let '(b, l) := pq_consume_input (rq_lib s) in
        let s := with_lib l s in
        if negb b then Some (recv_done_error (ec_ozo pg_consume_input_failed) (set_recv at_end s))
        else first_loop s
    | at_drain_loop =>
        let '(b, l) := pq_consume_input (rq_lib s) in
        let s := with_lib l s in
        if negb b then Some (handle_result (set_recv at_end s))
        else drain_all s
    | at_end => None
    end.

(** ** [async_request_op] *)

Definition new_request (l : L) : request :=
  Request l qs_send_in_progress false at_start None "" 0 [] [].

(** [operator()(ec, conn)]: a connection that could not be got is reported;
    otherwise the query is sent and the result is awaited. *)
Definition request_start (ec : error_code) (l : L) : option request :=
  if failed ec then Some (call_handler ec (set_recv at_end (set_query_state qs_error (new_request l))))
  else recv_op ec_default (send_perform (new_request l)).

Inductive event := write_ready (ec : error_code) | read_ready (ec : error_code).

(** A completion of a pending wait; [None] when there is no such wait. *)
Definition request_step (s : request) (e : event) : option request :=
  match e with
  | write_ready ec => if rq_write_wait s then Some (send_op ec s) else None
  | read_ready ec =>
      match rq_recv s with
      | at_first_loop | at_drain_loop => recv_op ec s
      | _ => None
      end
  end.

Inductive requesting (ec : error_code) (l : L) : request -> Prop :=
| requesting_start s : request_start ec l = Some s -> requesting ec l s
| requesting_step s e s' : requesting ec l s -> request_step s e = Some s' -> requesting ec l s'.

(** No wait is pending. *)
Definition quiescent (s : request) : Prop := rq_write_wait s = false /\ rq_recv s = at_end.

(** The result was taken and reported while the query is still being sent. *)
Definition early (s : request) : Prop := rq_recv s = at_end /\ rq_state s = qs_send_in_progress.

(** ** The invariant of a request *)

(** Sending and the reception are in progress and nobody was called. *)
Definition awaiting (s : request) : Prop :=
  rq_state s <> qs_error /\ rq_recv s <> at_end /\ rq_calls s = []
  /\ (rq_write_wait s = true <-> rq_state s = qs_send_in_progress).

(** The query was sent, the result was reported. *)
Definition completed (s : request) : Prop :=
  rq_state s = qs_send_finish /\ rq_write_wait s = false /\ rq_recv s = at_end
  /\ rq_calls s = [ec_default].

(** The result was reported while the query is still being sent. *)
Definition completed_early (s : request) : Prop :=
  early s /\ rq_write_wait s = true /\ rq_calls s = [ec_default].

(** An error was reported. *)
Definition failed_once (s : request) : Prop := rq_state s = qs_error /\ length (rq_calls s) = 1%nat.

(** A success was reported early, and then an error. *)
Definition failed_late (s : request) : Prop :=
  rq_state s = qs_error /\ quiescent s /\ exists ec, rq_calls s = [ec_default; ec].

Definition request_inv (s : request) : Prop :=
  awaiting s \/ completed s \/ completed_early s \/ failed_once s \/ failed_late s.

(** The reception ends with the success of a request that was awaiting, or with
    an error. *)
Definition receives (s s' : request) : Prop :=
  (awaiting s' /\ rq_state s' = rq_state s /\ rq_write_wait s' = rq_write_wait s)
  \/ failed_once s'
  \/ (rq_recv s' = at_end /\ rq_state s' = rq_state s /\ rq_write_wait s' = rq_write_wait s
      /\ rq_calls s' = [ec_default]).

Lemma recv_done_error_fails ec s : rq_calls s = [] -> failed_once (recv_done_error ec s).
Proof using. intros Hc. unfold recv_done_error. case_bool_decide; split; try done; simpl; by rewrite Hc. Qed.

Lemma handle_result_receives s r : rq_calls s = [] -> rq_result s = Some r -> rq_recv s = at_end ->
  receives s (handle_result s).
Proof using.
  intros Hc Hr He. unfold handle_result. rewrite Hr.
  destruct (pq_result_status r); try (right; left; by apply recv_done_error_fails).
  all: unfold process_and_done; destruct (process r);
    [right; right; simpl; by rewrite Hc|right; left; by apply recv_done_error_fails].
Qed.

Lemma receives_same s s1 s' : rq_state s1 = rq_state s -> rq_write_wait s1 = rq_write_wait s ->
  receives s1 s' -> receives s s'.
Proof using. intros H1 H2. unfold receives. by rewrite H1, H2. Qed.

Lemma drain_receives fuel s r s' : awaiting (set_recv at_drain_loop s) -> rq_result s = Some r ->
  drain fuel s = Some s' -> receives s s'.
Proof using.
  revert s. induction fuel as [|fuel IH]; intros s Ha Hr Hd; [done|]. cbn [drain] in Hd.
  destruct (pq_is_busy (rq_lib s)).
  { injection Hd as <-. left. split_and!; [done|done|done]. }
  destruct (pq_get_result (rq_lib s)) as [[r'|] l].
  - eapply (receives_same _ (with_lib l s)); [done|done|]. by apply IH.
  - injection Hd as <-. eapply (receives_same _ (set_recv at_end (with_lib l s))); [done|done|].
    destruct Ha as (_ & _ & Hc & _). by eapply handle_result_receives.
Qed.

Lemma first_loop_receives s s' : awaiting (set_recv at_first_loop s) ->
  first_loop s = Some s' -> receives s s'.
Proof using.
  intros Ha Hf. unfold first_loop in Hf. pose proof Ha as (Hs & _ & Hc & Hw). simpl in *.
  destruct (pq_is_busy (rq_lib s)).
  { injection Hf as <-. left. split_and!; done. }
  destruct (pq_get_result (rq_lib s)) as [[res|] l].
  - case_bool_decide; simpl in Hf.
    + injection Hf as <-. eapply (receives_same _ (set_recv at_end (set_result (Some res) (with_lib l s))));
        [done|done|]. by eapply handle_result_receives.
    + eapply (receives_same _ (set_result (Some res) (with_lib l s))); [done|done|].
      by eapply drain_receives.
  - injection Hf as <-. right. right. simpl. by rewrite Hc.
Qed.

Lemma awaiting_at p s : p <> at_end -> awaiting s -> awaiting (set_recv p s).
Proof using. intros Hp (H1 & _ & H3 & H4). by split_and!. Qed.

(** The result operation drains only after it has got a result. *)
Definition result_held (s : request) : Prop := rq_recv s = at_drain_loop -> rq_result s <> None.

Lemma recv_op_receives ec s s' : awaiting s -> result_held s -> recv_op ec s = Some s' -> receives s s'.
Proof using.
  intros Ha Hh Hr. pose proof Ha as (Hs & He & Hc & Hw). unfold recv_op in Hr.
  rewrite bool_decide_eq_false_2 in Hr by done. destruct (failed ec).
  { injection Hr as <-. right. left. by apply recv_done_error_fails. }
  destruct (rq_recv s) eqn:Ep; [| | |done].
  - apply first_loop_receives; [|done]. by apply awaiting_at.
  - destruct (pq_consume_input (rq_lib s)) as [b l]. destruct b; simpl in Hr.
    + eapply (receives_same _ (with_lib l s)); [done|done|]. by apply first_loop_receives; [apply awaiting_at|].
    + injection Hr as <-. right. left. by apply recv_done_error_fails.
  - destruct (rq_result s) as [r|] eqn:Er; [|by destruct (Hh Ep)].
    destruct (pq_consume_input (rq_lib s)) as [b l]. destruct b; simpl in Hr.
    + eapply (receives_same _ (with_lib l s)); [done|done|].
      eapply drain_receives; [by apply awaiting_at|done|done].
    + injection Hr as <-. eapply (receives_same _ (set_recv at_end (with_lib l s))); [done|done|].
      by eapply handle_result_receives.
Qed.

(** Whether a result is held at the drain loop, after the steps. *)
Lemma handle_result_not_drain s : rq_recv s = at_end -> rq_recv (handle_result s) = at_end.
Proof using.
  intros He. unfold handle_result. destruct (rq_result s) as [r|]; [|done].
  destruct (pq_result_status r); unfold process_and_done, recv_done_error; try (case_bool_decide; done).
  all: destruct (process r); try done; case_bool_decide; done.
Qed.

Lemma held_elsewhere s : rq_recv s <> at_drain_loop -> result_held s.
Proof using. by intros Hp Hp'. Qed.

Lemma recv_done_error_at ec s : rq_recv (recv_done_error ec s) = rq_recv s.
Proof using. unfold recv_done_error. by case_bool_decide. Qed.

Lemma drain_held fuel s s' : rq_result s <> None -> drain fuel s = Some s' -> result_held s'.
Proof using.
  revert s. induction fuel as [|fuel IH]; intros s Hr Hd; [done|]. cbn [drain] in Hd.
  destruct (pq_is_busy (rq_lib s)); [injection Hd as <-; intros _; exact Hr|].
  destruct (pq_get_result (rq_lib s)) as [[r'|] l]; [by eapply (IH (with_lib l s))|].
  injection Hd as <-. apply held_elsewhere. by rewrite handle_result_not_drain.
Qed.

Lemma first_loop_held s s' : first_loop s = Some s' -> result_held s'.
Proof using.
  unfold first_loop. destruct (pq_is_busy (rq_lib s)); [intros [= <-]; by apply held_elsewhere|].
  destruct (pq_get_result (rq_lib s)) as [[res|] l]; [|intros [= <-]; by apply held_elsewhere].
  case_bool_decide; simpl; [|by apply drain_held].
  intros [= <-]. apply held_elsewhere. by rewrite handle_result_not_drain.
Qed.

Lemma recv_op_held ec s s' : result_held s -> recv_op ec s = Some s' -> result_held s'.
Proof using.
  intros Hh Hr. unfold recv_op in Hr. case_bool_decide; [injection Hr as <-; by apply held_elsewhere|].
  destruct (failed ec).
  { injection Hr as <-. apply held_elsewhere. by rewrite recv_done_error_at. }
  destruct (rq_recv s) eqn:Ep; [by eapply first_loop_held| | |done].
  - destruct (pq_consume_input (rq_lib s)) as [b l]. destruct b; simpl in Hr; [by eapply first_loop_held|].
    injection Hr as <-. apply held_elsewhere. by rewrite recv_done_error_at.
  - destruct (pq_consume_input (rq_lib s)) as [b l]. destruct b; simpl in Hr.
    + eapply drain_held; [|done]. by apply Hh.
    + injection Hr as <-. apply held_elsewhere. by rewrite handle_result_not_drain.
Qed.

Lemma send_op_held ec s : result_held s -> result_held (send_op ec s).
Proof using.
  intros Hh. unfold send_op. case_bool_decide; simpl; [|exact Hh].
  destruct (failed ec); [exact Hh|]. destruct (pq_flush (rq_lib s)) as [q l]. destruct q; exact Hh.
Qed.

(** ** The invariant holds *)

Lemma receives_inv s s' : awaiting s -> receives s s' -> request_inv s'.
Proof using.
  intros (Hs & _ & _ & Hw) [(Ha & _)|[Hf|(He & Hq & Hww & Hc)]].
  - by left.
  - right. right. right. by left.
  - destruct (rq_state s) eqn:Es; [done| |].
    + right. left. split_and!; [done| |done|done]. rewrite Hww. destruct (rq_write_wait s); [|done].
      discriminate (proj1 Hw eq_refl).
    + right. right. left. split_and!; [by split| |done]. rewrite Hww. by apply Hw.
Qed.

(** Sending: from a state in which it was in progress. *)
Lemma send_op_awaiting ec s : rq_state s = qs_send_in_progress -> rq_recv s <> at_end -> rq_calls s = [] ->
  awaiting (send_op ec s) \/ failed_once (send_op ec s).
Proof using.
  intros Hs He Hc. unfold send_op. simpl. rewrite bool_decide_eq_true_2 by done. simpl.
  destruct (failed ec); [right; split; [done|simpl; by rewrite Hc]|].
  destruct (pq_flush (rq_lib s)) as [q l]. destruct q.
  - right. split; [done|simpl; by rewrite Hc].
  - left. split_and!; try done.
  - left. split_and!; simpl; try done. by rewrite Hs.
Qed.

Lemma send_op_step ec s : rq_write_wait s = true -> request_inv s -> request_inv (send_op ec s).
Proof using.
  intros Hw [Ha|[Hb|[Hb|[Hb|Hb]]]].
  - pose proof Ha as (_ & He & Hc & Hww).
    destruct (send_op_awaiting ec s) as [H1|H1]; [by apply Hww|done|done|by left|].
    right. right. right. by left.
  - destruct Hb as (_ & Hb & _). congruence.
  - destruct Hb as ((He & Hs) & _ & Hc). unfold send_op. simpl. rewrite bool_decide_eq_true_2 by done. simpl.
    destruct (failed ec).
    { do 4 right. split; [done|]. split; [done|]. exists ec. simpl. by rewrite Hc. }
    destruct (pq_flush (rq_lib s)) as [q l]. destruct q; simpl.
    + do 4 right. split; [done|]. split; [done|]. eexists. simpl. by rewrite Hc.
    + right. left. by split_and!.
    + right. right. left. by split_and!.
  - destruct Hb as (Hs & Hc). unfold send_op. simpl. rewrite bool_decide_eq_false_2 by congruence. simpl.
    right. right. right. left. by split.
  - destruct Hb as (_ & (Hb & _) & _). congruence.
Qed.

Lemma send_perform_awaiting l : awaiting (send_perform (new_request l)) \/ failed_once (send_perform (new_request l)).
Proof using.
  unfold send_perform. destruct (pq_set_nonblocking _) as [[] l1]; [|by right].
  destruct (pq_send_query_params _) as [[] l2]; [|by right]. cbn [negb].
  by apply send_op_awaiting.
Qed.

Lemma recv_op_failed ec s s' : failed_once s -> recv_op ec s = Some s' -> failed_once s'.
Proof using.
  intros (Hs & Hc) Hr. unfold recv_op in Hr. rewrite bool_decide_eq_true_2 in Hr by done.
  by injection Hr as <-.
Qed.

Lemma request_start_inv ec l s : request_start ec l = Some s -> request_inv s /\ result_held s.
Proof using.
  unfold request_start. destruct (failed ec).
  { intros [= <-]. split; [|done]. right. right. right. by left. }
  assert (result_held (send_perform (new_request l))) as Hh.
  { unfold send_perform. destruct (pq_set_nonblocking _) as [[] l1]; [|done].
    destruct (pq_send_query_params _) as [[] l2]; [|done]. by apply send_op_held. }
  intros Hr. split; [|by eapply recv_op_held].
  destruct (send_perform_awaiting l) as [Ha|Hf].
  - eapply receives_inv; [done|]. by eapply recv_op_receives.
  - right. right. right. left. by eapply recv_op_failed.
Qed.

Lemma request_step_inv s e s' : request_inv s -> result_held s -> request_step s e = Some s' ->
  request_inv s' /\ result_held s'.
Proof using.
  intros Hi Hh Hs. destruct e as [ec|ec]; simpl in Hs.
  - destruct (rq_write_wait s) eqn:Ew; [|done]. injection Hs as <-.
    split; [by apply send_op_step|by apply send_op_held].
  - assert (rq_recv s <> at_end /\ recv_op ec s = Some s') as [He Hr] by (destruct (rq_recv s); done).
    split; [|by eapply recv_op_held].
    destruct Hi as [Ha|[Hb|[Hb|[Hb|Hb]]]].
    + eapply receives_inv; [done|]. by eapply recv_op_receives.
    + by destruct Hb as (_ & _ & Hb & _).
    + by destruct Hb as ((Hb & _) & _).
    + right. right. right. left. by eapply recv_op_failed.
    + by destruct Hb as (_ & (_ & Hb) & _).
Qed.

Lemma requesting_inv ec l s : requesting ec l s -> request_inv s /\ result_held s.
Proof using.
  induction 1 as [s Hs|s e s' _ [IH1 IH2] Hs]; [by eapply request_start_inv|].
  by eapply request_step_inv.
Qed.

(** ** Requests in which no result comes early *)

Lemma not_early_once s : request_inv s -> ~ early s -> ~ failed_late s ->
  (length (rq_calls s) <= 1)%nat /\ (quiescent s -> length (rq_calls s) = 1%nat).
Proof using.
  intros [Ha|[Hb|[Hb|[Hb|Hb]]]] Hn Hl.
  - destruct Ha as (_ & He & -> & _). split; [simpl; lia|]. intros [_ ?]. done.
  - destruct Hb as (_ & _ & _ & ->). done.
  - by destruct Hb as (Hb & _).
  - destruct Hb as (_ & Hb). rewrite Hb. split; [lia|done].
  - done.
Qed.

Lemma one_call_not_late s : (length (rq_calls s) <= 1)%nat -> ~ failed_late s.
Proof using. intros Hc (_ & _ & ec & He). rewrite He in Hc. simpl in Hc. lia. Qed.

Lemma receives_one_call s s' : receives s s' -> (length (rq_calls s') <= 1)%nat.
Proof using.
  intros [((_ & _ & -> & _) & _)|[(_ & ->)|(_ & _ & _ & ->)]]; simpl; lia.
Qed.

Lemma request_start_not_late ec l s : request_start ec l = Some s -> ~ failed_late s.
Proof using.
  intros Hs. apply one_call_not_late. unfold request_start in Hs. destruct (failed ec).
  { injection Hs as <-. simpl. lia. }
  destruct (send_perform_awaiting l) as [Ha|Hf].
  - eapply receives_one_call, recv_op_receives; [done| |done].
    unfold send_perform. destruct (pq_set_nonblocking _) as [[] l1]; [|by apply held_elsewhere].
    destruct (pq_send_query_params _) as [[] l2]; [|by apply held_elsewhere].
    apply send_op_held. by apply held_elsewhere.
  - destruct (recv_op_failed _ _ _ Hf Hs) as (_ & ->). lia.
Qed.

Lemma request_step_not_late s e s' : request_inv s -> result_held s -> ~ early s -> ~ failed_late s ->
  request_step s e = Some s' -> ~ failed_late s'.
Proof using.
  intros Hi Hh Hn Hl Hs. apply one_call_not_late. destruct e as [ec|ec]; simpl in Hs.
  - destruct (rq_write_wait s) eqn:Ew; [|done]. injection Hs as <-.
    destruct Hi as [(_ & He & Hc & Hww)|[(_ & Hb & _)|[(Hb & _)|[(Hq & Hc)|Hb]]]]; try congruence; try done.
    + destruct (send_op_awaiting ec s) as [(_ & _ & -> & _)|(_ & ->)]; [by apply Hww|done|done|simpl; lia|lia].
    + unfold send_op. simpl. rewrite bool_decide_eq_false_2 by congruence. simpl. lia.
  - assert (rq_recv s <> at_end /\ recv_op ec s = Some s') as [He Hr] by (destruct (rq_recv s); done).
    destruct Hi as [Ha|[(_ & _ & Hb & _)|[(Hb & _)|[Hb|Hb]]]]; try done.
    + by eapply receives_one_call, recv_op_receives.
    + destruct (recv_op_failed _ _ _ Hb Hr) as (_ & ->). lia.
Qed.

(** ** Termination of the drain loop *)

Lemma drain_total `{!libpq_laws L R results_left} fuel s :
  (results_left (rq_lib s) < fuel)%nat -> exists s', drain fuel s = Some s'.
Proof.
  revert s. induction fuel as [|fuel IH]; intros s Hf; [lia|]. cbn [drain].
  destruct (pq_is_busy (rq_lib s)); [by eexists|].
  destruct (pq_get_result (rq_lib s)) as [[r|] l] eqn:Eg; [|by eexists].
  apply IH. simpl. apply get_result_decreases in Eg. lia.
Qed.

Lemma recv_op_total `{!libpq_laws L R results_left} ec s : rq_recv s <> at_end ->
  exists s', recv_op ec s = Some s'.
Proof.
  intros He. unfold recv_op. case_bool_decide; [by eexists|]. destruct (failed ec); [by eexists|].
  assert (forall s, exists s', first_loop s = Some s') as Hf.
  { intros s0. unfold first_loop. destruct (pq_is_busy _); [by eexists|].
    destruct (pq_get_result _) as [[r|] l]; [|by eexists]. case_bool_decide; simpl; [by eexists|].
    apply drain_total. simpl. lia. }
  destruct (rq_recv s); [apply Hf| | |done].
  - destruct (pq_consume_input _) as [[] l]; simpl; [apply Hf|by eexists].
  - destruct (pq_consume_input _) as [[] l]; simpl; [|by eexists]. apply drain_total. simpl. lia.
Qed.

End request.

(** ** A scripted libpq *)

(** A connection that answers [PQflush] and [PQgetResult] from lists. *)
Record script := Script { sc_flush : list query_state; sc_results : list exec_status }.

#[export] Instance script_libpq : libpq script exec_status := {
  pq_set_nonblocking l := (true, l);
  pq_send_query_params l := (true, l);
  pq_flush l := (default qs_error (head (sc_flush l)), Script (tail (sc_flush l)) (sc_results l));
  pq_is_busy l := false;
  pq_consume_input l := (true, l);
  pq_get_result l := (head (sc_results l), Script (sc_flush l) (tail (sc_results l)));
  pq_result_status r := r;
  pq_result_sqlstate r := None
}.

#[export] Instance script_laws : libpq_laws script exec_status (fun l => length (sc_results l)).
Proof. split. intros [f rs] r l' [= H <-]. destruct rs; [done|]. simpl. lia. Qed.

Module Requests.

(** C8: in every state of a request the completion handler was called at
    most twice, and twice only when a success had been reported while the query
    was still being sent; a request with no pending wait has called it;
    and every pending wait can be completed, whatever its outcome. *)
Theorem request_completes {L R : Type} `{libpq L R} (results_left : L -> nat)
    (process : R -> may_throw ()) (what : exn -> string) (ec : error_code) (l : L) (s : request L R)
    (Hlaws : libpq_laws L R results_left)
    (Hs : requesting results_left process what ec l s) :
  request_inv s
  /\ (quiescent s -> rq_calls s <> [])
  /\ (length (rq_calls s) <= 2)%nat
  /\ (length (rq_calls s) = 2%nat -> head (rq_calls s) = Some ec_default)
  /\ (forall ec', rq_write_wait s = true ->
        exists s', request_step results_left process what s (write_ready ec') = Some s')
  /\ (forall ec', rq_recv s = at_first_loop \/ rq_recv s = at_drain_loop ->
        exists s', request_step results_left process what s (read_ready ec') = Some s').
Proof.
  destruct (requesting_inv results_left process what ec l s Hs) as [Hi _].
  split_and!.
  - done.
  - intros [Hw He]. destruct Hi as [Ha|[Hb|[Hb|[Hb|Hb]]]].
    + by destruct Ha as (_ & Ha & _).
    + destruct Hb as (_ & _ & _ & ->). done.
    + destruct Hb as (_ & _ & ->). done.
    + destruct Hb as (_ & Hb). by destruct (rq_calls s).
    + destruct Hb as (_ & _ & ec' & ->). done.
  - destruct Hi as [(_ & _ & -> & _)|[(_ & _ & _ & ->)|[(_ & _ & ->)|[(_ & ->)|(_ & _ & ec' & ->)]]]]; simpl; lia.
  - destruct Hi as [(_ & _ & -> & _)|[(_ & _ & _ & ->)|[(_ & _ & ->)|[(_ & ->)|(_ & _ & ec' & ->)]]]]; done.
  - intros ec' Hw. simpl. rewrite Hw. by eexists.
  - intros ec' Hr. simpl. destruct (recv_op_total results_left process what ec' s) as [s' Hs'].
    + destruct Hr as [-> | ->]; done.
    + exists s'. by destruct Hr as [-> | ->].
Qed.

Lemma request_completes_witness :
  let s := Request (Script [] []) qs_send_finish false at_end (Some PGRES_TUPLES_OK) "" 0
             [PGRES_TUPLES_OK] [ec_default] in
  rq_calls s <> [].
Proof.
  intros s. apply (request_completes (fun l => length (sc_results l)) (fun _ => Return tt) (fun _ => "")
    ec_default (Script [qs_send_finish] [PGRES_TUPLES_OK]) s); [apply _| |done].
  apply requesting_start. reflexivity.
Defined.

(** As long as no result is reported before the query was sent
    completely, the handler is called exactly once: never twice, and at the
    latest when no wait is pending. *)
Theorem request_calls_handler_once {L R : Type} `{libpq L R} (results_left : L -> nat)
    (process : R -> may_throw ()) (what : exn -> string) (ec : error_code) (l : L)
    (s0 : request L R) (es : list event) (states : list (request L R))
    (Hstart : request_start results_left process what ec l = Some s0)
    (Hrun : Forall2 (fun p s' => request_step results_left process what p.1 p.2 = Some s')
              (zip (s0 :: states) es) states)
    (Hlen : length es = length states)
    (Hordered : Forall (fun s => ~ early s) (s0 :: states)) :
  Forall (fun s => (length (rq_calls s) <= 1)%nat
                   /\ (quiescent s -> length (rq_calls s) = 1%nat)) (s0 :: states).
Proof.
  destruct (request_start_inv _ _ _ _ _ _ Hstart) as [Hi Hh].
  pose proof (request_start_not_late _ _ _ _ _ _ Hstart) as Hl.
  clear Hstart. revert s0 es Hrun Hlen Hordered Hi Hh Hl.
  induction states as [|s1 states IH]; intros s0 es Hrun Hlen Hordered Hi Hh Hl;
    apply Forall_cons in Hordered as [Hn Hordered]; (constructor; [by apply not_early_once|]); [constructor|].
  destruct es as [|e es]; [done|]. cbn [zip zip_with] in Hrun. apply Forall2_cons in Hrun as [Hstep Hrun].
  destruct (request_step_inv results_left process what _ _ _ Hi Hh Hstep) as [Hi1 Hh1].
  apply (IH s1 es); try done; [simpl in Hlen; lia|].
  by eapply (request_step_not_late results_left process what s0 e).
Qed.

(** The handler can be called twice: when the result is taken before
    the query has been flushed, the write wait stays pending and its failure (say,
    because the connection was closed in the handler) is reported again. *)
Theorem handler_called_twice_when_result_comes_early :
  exists s0 s1 : request script exec_status,
    request_start (fun l => length (sc_results l)) (fun _ => Return tt) (fun _ => "")
      ec_default (Script [qs_send_in_progress] [PGRES_COMMAND_OK]) = Some s0
    /\ early s0
    /\ request_step (fun l => length (sc_results l)) (fun _ => Return tt) (fun _ => "") s0
         (write_ready (ec_asio operation_aborted)) = Some s1
    /\ rq_calls s1 = [ec_default; ec_asio operation_aborted].
Proof.
  exists (Request (Script [] []) qs_send_in_progress true at_end (Some PGRES_COMMAND_OK) "" 0
            [PGRES_COMMAND_OK] [ec_default]),
         (Request (Script [] []) qs_error false at_end (Some PGRES_COMMAND_OK) "" 1
            [PGRES_COMMAND_OK] [ec_default; ec_asio operation_aborted]).
  split; [vm_compute; reflexivity|]. split; [by split|]. split; vm_compute; reflexivity.
Qed.

End Requests.
