(* ===== verification/Options.v ===== *)
(** * Option maps: [core/options.h]

    An options map is a Hana map: at most one value for each option, found by the
    type of the option. *)

From S2P Require Import Prelude.

Module Options.
Section options.
Context {K V : Type} `{EqDecision K}.
Implicit Types (m : list (K * V)) (k : K) (v : V).

(** [hana::contains(map, op)] *)
Definition has m k : bool := bool_decide (k ∈ m.*1).

(** [map[op]] *)
Fixpoint find_option m k : option V :=
  match m with
  | [] => None
  | (k', v) :: m => if decide (k' = k) then Some v else find_option m k
  end.

(** [get_option(map, op, default)] *)
Definition get_option m k (default_ : V) : V :=
  match find_option m k with
  | Some v => v
  | None => default_
  end.

Fixpoint assign_option m k v : list (K * V) :=
  match m with
  | [] => []
  | (k', v') :: m => if decide (k' = k) then (k', v) :: m else (k', v') :: assign_option m k v
  end.

(** [options_factory_base::set(pair)] *)
Definition set m k v : list (K * V) :=
  if has m k then assign_option m k v else m ++ [(k, v)].

(** [options_factory_base::set(pairs...)] *)
Definition set_all m (vs : list (K * V)) : list (K * V) :=
  foldl (fun m p => set m p.1 p.2) m vs.

(** [options_factory_base::get(op)], and [get_option(map, op)]: [None] does not
    compile. *)
Definition get m k : option V := find_option m k.

(** [make_options(opts...)]: [hana::make_map] does not compile with a key twice. *)
Definition make_options (opts : list (K * V)) : option (list (K * V)) :=
  if decide (NoDup opts.*1) then Some opts else None.

Lemma find_assign m k v k' : k ∈ m.*1 ->
  find_option (assign_option m k v) k' = if decide (k = k') then Some v else find_option m k'.
Proof.
  induction m as [|[k0 v0] m IH]; intros Hk; [by apply elem_of_nil in Hk|]. simpl in *.
  apply elem_of_cons in Hk. destruct (decide (k0 = k)) as [->|Hne]; simpl.
  - by destruct (decide (k = k')).
  - destruct Hk as [->|Hk]; [done|]. rewrite (IH Hk).
    destruct (decide (k0 = k')) as [->|]; [|done]. by rewrite decide_False.
Qed.

Lemma find_snoc m k v k' : k ∉ m.*1 ->
  find_option (m ++ [(k, v)]) k' = if decide (k = k') then Some v else find_option m k'.
Proof.
  induction m as [|[k0 v0] m IH]; intros Hk; [done|]. simpl in *.
  apply not_elem_of_cons in Hk as [Hne Hk]. rewrite (IH Hk).
  destruct (decide (k0 = k')) as [->|]; [|done]. by rewrite decide_False.
Qed.

(** Setting an option changes that option only. *)
Lemma find_set m k v k' :
  find_option (set m k v) k' = if decide (k = k') then Some v else find_option m k'.
Proof.
  unfold set, has. destruct (bool_decide_reflect (k ∈ m.*1)); [by apply find_assign|by apply find_snoc].
Qed.

Lemma assign_keys m k v : (assign_option m k v).*1 = m.*1.
Proof.
  induction m as [|[k0 v0] m IH]; [done|]. cbn [assign_option]. destruct (decide (k0 = k)); [done|].
  rewrite !fmap_cons. by f_equal.
Qed.

Lemma set_keys m k v : NoDup m.*1 -> NoDup (set m k v).*1.
Proof.
  intros Hm. unfold set, has. destruct (bool_decide_reflect (k ∈ m.*1)) as [Hk|Hk].
  - by rewrite assign_keys.
  - rewrite fmap_app. apply NoDup_app. split; [done|]. split; [|apply NoDup_singleton].
    by intros x Hx ->%list_elem_of_singleton.
Qed.

(** The last value among the pairs set, if there is one. *)
Definition last_set (vs : list (K * V)) k : option V := find_option (reverse vs) k.

Lemma find_option_app m m' k :
  find_option (m ++ m') k = match find_option m k with Some v => Some v | None => find_option m' k end.
Proof. induction m as [|[k0 v0] m IH]; [done|]. simpl. by destruct (decide (k0 = k)). Qed.

(** Setting options one after the other: the last value of an option counts, the
    options not set are kept, and a map stays a map. *)
Lemma find_set_all m vs k : NoDup m.*1 ->
  find_option (set_all m vs) k
  = match last_set vs k with Some v => Some v | None => find_option m k end
  /\ NoDup (set_all m vs).*1.
Proof.
  revert m. unfold set_all, last_set. induction vs as [|[k0 v0] vs IH]; intros m Hm; [done|].
  cbn [foldl fst snd]. destruct (IH (set m k0 v0) (set_keys _ _ _ Hm)) as [-> ?]. split; [|done].
  rewrite reverse_cons, find_option_app, find_set. simpl.
  destruct (find_option (reverse vs) k); [done|]. by destruct (decide (k0 = k)).
Qed.

End options.
End Options.
