(* ===== verification/Providers.v ===== *)
(** * Where connections come from: [connection_info.h], [connector.h],
      [async_get_connection] of [connection.h] and the sources and providers of
      [failover/role_based.h]

    A connection source is called with an executor, a time constraint and a
    handler.  What a source does with them is the matter of its own component
    (connecting, the pool); here a source is named by [leaf], and the model says
    which one is called and with what. *)

From S2P Require Import Prelude Words Time Errors Wrapped Connection.
Import Deadline.
#[local] Open Scope Z_scope.

(** [failover::master] and [failover::replica] *)
Inductive role := master | replica.

#[export] Instance role_eq_dec : EqDecision role.
Proof. solve_decision. Defined.

(** ** Sources *)

(** A source: [connection_info] with its string, a [connection_pool] by its
    identity, or [role_based_connection_source<SourcesMap, Role>], the map as the
    pairs it is made of. *)
Inductive source :=
| connection_info (conn_str : string)
| connection_pool (id : nat)
| role_based_connection_source (sources_ : list (role * source)) (role_ : role).

(** [sources_[role_]] *)
Fixpoint source_of {S : Type} (sources : list (role * S)) (r : role) : option S :=
  match sources with
  | [] => None
  | (r', s) :: sources => if decide (r' = r) then Some s else source_of sources r
  end.

(** [role_based_connection_source::is_supported<OtherRole>()], and the support of
    roles by any source ([connection_source_supports_role]). *)
Definition supports_role (s : source) (r : role) : bool :=
  match s with
  | role_based_connection_source sources _ =>
      match source_of sources r with Some _ => true | None => false end
  | _ => false
  end.

(** [source.rebind_role(r)]: [None] does not compile. *)
Definition source_rebind_role (s : source) (r : role) : option source :=
  match s with
  | role_based_connection_source sources _ =>
      if supports_role s r then Some (role_based_connection_source sources r) else None
  | _ => None
  end.

(** [make_role_based_connection_source(p1, ps...)]: the first role is the default;
    [hana::make_map] does not compile with a repeated key. *)
Definition make_role_based_connection_source (p1 : role * source) (ps : list (role * source)) :
    option source :=
  if decide (NoDup (p1 :: ps).*1) then Some (role_based_connection_source (p1 :: ps) p1.1) else None.

(** The call that reaches a source that is not role-based. *)
Record source_call := SourceCall { leaf : source; on_executor : nat; within : time_constraint }.

(** [source(ex, t, handler)]; [fuel] is the depth of role-based sources inside
    role-based sources. *)
Fixpoint call_source (fuel : nat) (s : source) (ex : nat) (t : time_constraint) : option source_call :=
  match fuel with
  | O => None
  | S fuel =>
      match s with
      | role_based_connection_source sources r => s ← source_of sources r; call_source fuel s ex t
      | _ => Some (SourceCall s ex t)
      end
  end.

Fixpoint depth (s : source) : nat :=
  match s with
  | role_based_connection_source sources _ =>
      S (foldr (fun p n => Nat.max (depth p.2) n) 0%nat sources)
  | _ => 1
  end.

(** ** Providers *)

(** [connection_provider<Source>] and [role_based_connection_provider<Source>]: a
    source and the executor; [bind_get_connection_timeout<Provider>]; a
    connection, which provides itself. *)
Inductive provider :=
| source_provider (s : source) (ex : nat)
| bind_get_connection_timeout (target : provider) (timeout : Z)
| connection_itself (conn : wrapped connection).

(** [source[io]] *)
Definition bind_executor (s : source) (ex : nat) : provider := source_provider s ex.

(** [make_connector(source, io, timeout)] and [make_connector(source, io)] *)
Definition make_connector (s : source) (ex : nat) (timeout : option Z) : provider :=
  match timeout with
  | Some timeout => bind_get_connection_timeout (bind_executor s ex) timeout
  | None => bind_executor s ex
  end.

(** What [async_get_connection] leads to: a call of a source, or the handler
    called with no error and the connection given. *)
Inductive getting := from_source (c : source_call) | at_once (ec : error_code) (conn : wrapped connection).

(** [connection_provider::async_get_connection] *)
Definition provider_get_connection (s : source) (ex : nat) (t : time_constraint) : option getting :=
  c ← call_source (depth s) s ex t; Some (from_source c).

(** [detail::forward_connection]: the connection goes to the handler with its
    error context cleared. *)
Definition forward_connection (w : wrapped connection) : option getting :=
  _ ← unwrap_recursive w;
  Some (at_once ec_default (update_wrapped (set_error_context "") w)).

(** [async_get_connection(provider, t, handler)]: [call_async_get_connection] for
    providers, [forward_connection] for connections. *)
Fixpoint async_get_connection (now : Z) (p : provider) (t : time_constraint) : option getting :=
  match p with
  | source_provider s ex => provider_get_connection s ex t
  | bind_get_connection_timeout target timeout =>
      async_get_connection now target (tc_duration (bind_timeout timeout now t))
  | connection_itself w => forward_connection w
  end.

(** [get_connection(provider, token)] *)
Definition get_connection (now : Z) (p : provider) : option getting := async_get_connection now p tc_none.

(** [role_based_connection_provider::rebind_role(r)] *)
Definition rebind_role (p : provider) (r : role) : option provider :=
  match p with
  | source_provider s ex => s ← source_rebind_role s r; Some (source_provider s ex)
  | _ => None
  end.

(** ** Lemmas *)

(** A source that compiles: the role of a role-based source is one of its map,
    and so inside. *)
Fixpoint source_ok (s : source) : bool :=
  match s with
  | role_based_connection_source sources r =>
      supports_role s r && foldr (fun p b => source_ok p.2 && b) true sources
  | _ => true
  end.

Definition is_leaf (s : source) : bool :=
  match s with role_based_connection_source _ _ => false | _ => true end.

Lemma source_of_depth sources r s : source_of sources r = Some s ->
  (depth s <= foldr (fun p n => Nat.max (depth p.2) n) 0 sources)%nat.
Proof.
  induction sources as [|[r' s'] sources IH]; simpl; [done|]. case_decide; intros E; simplify_eq; [lia|].
  specialize (IH E). lia.
Qed.

Lemma source_of_ok sources r s : foldr (fun p b => source_ok p.2 && b) true sources = true ->
  source_of sources r = Some s -> source_ok s = true.
Proof.
  induction sources as [|[r' s'] sources IH]; simpl; [done|]. intros [H1 H2]%andb_true_iff.
  case_decide; intros E; simplify_eq; [done|by apply IH].
Qed.

Lemma source_of_In {S : Type} (sources : list (role * S)) r s : source_of sources r = Some s -> (r, s) ∈ sources.
Proof.
  induction sources as [|[r' s'] sources IH]; simpl; [done|]. case_decide; intros E; simplify_eq; [by left|].
  right. by apply IH.
Qed.

(** Role-based sources only choose: the executor and the time constraint reach
    the source chosen as they are. *)
Lemma call_source_ok n s : source_ok s = true -> (depth s <= n)%nat ->
  exists l, is_leaf l = true /\ forall ex t, call_source n s ex t = Some (SourceCall l ex t).
Proof.
  revert s. induction n as [|n IH]; intros s Hs Hn; [by destruct s; simpl in Hn; lia|].
  destruct s as [str|id|sources r]; [by exists (connection_info str)|by exists (connection_pool id)|].
  simpl in Hs, Hn.
  apply andb_true_iff in Hs as [Hr Hs]. destruct (source_of sources r) as [s|] eqn:E; [|done].
  destruct (IH s) as (l & Hl & Hc); [by eapply source_of_ok|apply source_of_depth in E; lia|].
  exists l. split; [done|]. intros ex t. simpl. rewrite E. apply Hc.
Qed.

(** The provider the timeouts [ds] are bound to, the last one first. *)
Definition bind_timeouts (ds : list Z) (p : provider) : provider :=
  foldr (fun d p => bind_get_connection_timeout p d) p ds.

(** What is left for a connection: the least of the timeouts and of what the
    constraint of the operation leaves. *)
Definition least_timeout (now : Z) (d : Z) (ds : list Z) (t : time_constraint) : Z :=
  foldl Z.min (bind_timeout d now t) ds.

Lemma least_timeout_le now d ds t : least_timeout now d ds t <= bind_timeout d now t
  /\ Forall (fun x => least_timeout now d ds t <= x) ds.
Proof.
  unfold least_timeout. generalize (bind_timeout d now t). clear d t.
  induction ds as [|x ds IH]; intros d; simpl; [done|].
  destruct (IH (Z.min d x)) as [H1 H2]. split; [lia|]. constructor; [lia|done].
Qed.

Lemma bind_timeouts_call now d ds p t :
  async_get_connection now (bind_timeouts (d :: ds) p) t
  = async_get_connection now p (tc_duration (least_timeout now d ds t)).
Proof.
  revert d t. induction ds as [|x ds IH]; intros d t; [done|].
  change (bind_timeouts (d :: x :: ds) p)
    with (bind_get_connection_timeout (bind_timeouts (x :: ds) p) d).
  cbn [async_get_connection]. rewrite IH. unfold least_timeout. simpl. by rewrite Z.min_comm.
Qed.

Lemma rebind_role_spec s ex r p : rebind_role (source_provider s ex) r = Some p ->
  exists sources r0, s = role_based_connection_source sources r0
    /\ supports_role s r = true
    /\ p = source_provider (role_based_connection_source sources r) ex.
Proof.
  unfold rebind_role. destruct s as [str|id|sources r0]; [done|done|].
  cbn [source_rebind_role]. destruct (supports_role _ r) eqn:E; [|done]. intros [= <-].
  by exists sources, r0.
Qed.

(** The role-based source that holds only plain sources. *)
Lemma call_role_source sources r s ex t : forallb (fun q => is_leaf q.2) sources = true ->
  source_of sources r = Some s ->
  call_source (depth (role_based_connection_source sources r)) (role_based_connection_source sources r) ex t
  = Some (SourceCall s ex t).
Proof.
  intros Hleaf E. cbn [depth call_source]. rewrite E. cbn [mbind option_bind].
  apply source_of_depth in E as Hd. apply source_of_In in E.
  rewrite forallb_forall in Hleaf. specialize (Hleaf _ (proj1 (list_elem_of_In _ _) E)). simpl in Hleaf.
  destruct (foldr _ 0%nat sources) as [|n]; destruct s; simpl in *; (done || lia).
Qed.

(** The provider of a role calls the source given for that role. *)
Lemma rebound_calls_source sources r0 r ex : forallb (fun q => is_leaf q.2) sources = true ->
  supports_role (role_based_connection_source sources r0) r = true ->
  exists p s, rebind_role (bind_executor (role_based_connection_source sources r0) ex) r = Some p
    /\ source_of sources r = Some s
    /\ forall now t, async_get_connection now p t = Some (from_source (SourceCall s ex t)).
Proof.
  intros Hleaf Hr. assert (exists s, source_of sources r = Some s) as [s Hs].
  { unfold supports_role in Hr. destruct (source_of sources r); [by eexists|done]. }
  unfold bind_executor, rebind_role, source_rebind_role. rewrite Hr. eexists _, s. split; [done|]. split; [done|].
  intros now t. cbn [async_get_connection]. unfold provider_get_connection.
  by rewrite (call_role_source sources r s).
Qed.

Module Providing.

(** A provider calls the source it is bound to, on its executor, with the
    operation's time constraint cut to the least of the timeouts bound on the way:
    none of them can be exceeded and none adds time. *)
Theorem provider_calls_source_within_timeouts (s : source) (ex : nat) (d : Z) (ds : list Z)
    (now : Z) (t : time_constraint) : source_ok s = true ->
  exists l, is_leaf l = true
    /\ async_get_connection now (bind_executor s ex) t = Some (from_source (SourceCall l ex t))
    /\ async_get_connection now (bind_timeouts (d :: ds) (bind_executor s ex)) t
       = Some (from_source (SourceCall l ex (tc_duration (least_timeout now d ds t))))
    /\ least_timeout now d ds t <= bind_timeout d now t
    /\ Forall (fun x => least_timeout now d ds t <= x) ds.
Proof.
  intros Hs. destruct (call_source_ok (depth s) s Hs) as (l & Hl & Hc); [done|]. exists l.
  split; [done|]. rewrite bind_timeouts_call. unfold bind_executor. cbn [async_get_connection].
  unfold provider_get_connection. rewrite !Hc. split_and!; [done|done|apply least_timeout_le..].
Qed.

(** Rebinding a provider changes its role and nothing else: the provider of
    a role calls the source given for that role, whatever roles it was bound to
    before. *)
Theorem rebound_provider_calls_source_of_role (sources : list (role * source)) (ex : nat)
    (rs : list role) (r0 r : role) (p p' : provider) (now : Z) (t : time_constraint) :
  forallb (fun q => is_leaf q.2) sources = true ->
  foldl (fun p r => p ≫= fun p => rebind_role p r)
    (Some (bind_executor (role_based_connection_source sources r0) ex)) rs = Some p ->
  rebind_role p r = Some p' ->
  exists s, source_of sources r = Some s
    /\ async_get_connection now p' t = Some (from_source (SourceCall s ex t)).
Proof.
  intros Hleaf Hp Hr.
  assert (Hinv : exists r1, p = source_provider (role_based_connection_source sources r1) ex).
  { clear Hr. revert p Hp. induction rs as [|r1 rs IH] using rev_ind; intros p Hp.
    - simplify_eq/=. by eexists.
    - rewrite foldl_app in Hp. cbn [foldl] in Hp. destruct (foldl _ _ rs) as [q|]; [|done].
      destruct (IH q eq_refl) as [r2 ->]. cbn [mbind option_bind] in Hp.
      apply rebind_role_spec in Hp as (ss & ? & [= <- <-] & _ & ->). by eexists. }
  destruct Hinv as [r1 ->]. apply rebind_role_spec in Hr as (ss & ? & [= <- <-] & Hs & ->).
  unfold supports_role in Hs. destruct (source_of sources r) as [s|] eqn:E; [|done]. exists s.
  split; [done|]. cbn [async_get_connection]. unfold provider_get_connection.
  by rewrite (call_role_source sources r s).
Qed.

(** A connection given where a provider is expected is used as it is, its error
    context cleared, whatever the time constraint; a null one is undefined. *)
Lemma connection_provides_itself now (w : wrapped connection) t :
  match async_get_connection now (connection_itself w) t with
  | Some (at_once ec w') => ec = ec_default
      /\ exists c, unwrap_recursive w = Some c /\ unwrap_recursive w' = Some (set_error_context "" c)
  | Some (from_source _) => False
  | None => unwrap_recursive w = None
  end.
Proof.
  simpl. unfold forward_connection. destruct (unwrap_recursive w) as [c|] eqn:E; [|done]. simpl.
  split; [done|]. exists c.
  split; [done|]. by rewrite unwrap_update, E.
Qed.
End Providing.
