(* ===== verification/Failover.v ===== *)
(** * Failover: [failover/strategy.h], [failover/retry.h], [failover/role_based.h]

    A failover operation is initiated with the context of a try; when it fails the
    strategy is asked for the next try.  The class [FailoverTry] is what a strategy
    has to provide, [BoundedTry] what the strategies of the library promise besides:
    that they come to an end, which [strategy.h] does not ask of a strategy. *)

From S2P Require Import Prelude Words Time Errors Wrapped Connection Providers.
Import Deadline.
#[local] Open Scope Z_scope.

(** ** [strategy.h] *)

(** [basic_context]: the connection provider, the deadline and the other arguments
    of an operation. *)
Record basic_context (P A : Type) := BasicContext {
  ctx_provider : P;
  ctx_time_constraint : time_constraint;
  ctx_args : A
}.
Arguments BasicContext {P A} _ _ _.
Arguments ctx_provider {P A} _.
Arguments ctx_time_constraint {P A} _.
Arguments ctx_args {P A} _.

(** A try: the arguments its operation is initiated with, given the clock, and the
    try that comes after an error. *)
Class FailoverTry (T C : Type) := {
  get_try_context : Z -> T -> C;
  initiate_next_try : T -> error_code -> option T
}.

(** Tries that come to an end. *)
Class BoundedTry (T C : Type) `{FailoverTry T C} := {
  tries_bound : T -> nat;
  tries_bound_decreases t ec t' :
    initiate_next_try t ec = Some t' -> (tries_bound t' < tries_bound t)%nat
}.

(** What a failover execution has done so far: the operations initiated, the calls
    of the handler and the try in progress. *)
Record execution (T C : Type) := Execution {
  ex_initiated : list C;
  ex_calls : list error_code;
  ex_try : option T
}.
Arguments Execution {T C} _ _ _.
Arguments ex_initiated {T C} _.
Arguments ex_calls {T C} _.
Arguments ex_try {T C} _.

Section strategy.
Context {T C : Type} `{FailoverTry T C}.

(** [initiate_operation(op, a_try, handler)] *)
Definition initiate_operation (now : Z) (t : T) (e : execution T C) : execution T C :=
  Execution (ex_initiated e ++ [get_try_context now t]) (ex_calls e) (Some t).

(** [operation_initiator::operator()] *)
Definition failover_start (now : Z) (first_try : T) : execution T C :=
  initiate_operation now first_try (Execution [] [] None).

(** [continuation::operator()(ec, conn)]: the operation of the try completed. *)
Definition on_completed (now : Z) (ec : error_code) (e : execution T C) : option (execution T C) :=
  t ← ex_try e;
  let finish := Execution (ex_initiated e) (ex_calls e ++ [ec]) None in
  if failed ec then
    match initiate_next_try t ec with
    | Some next => Some (initiate_operation now next e)
    | None => Some finish
    end
  else Some finish.

(** The completions of the operations initiated one after the other, each with
    the time it came. *)
Fixpoint run (e : execution T C) (completions : list (Z * error_code)) : execution T C :=
  match completions with
  | [] => e
  | (now, ec) :: cs =>
      match on_completed now ec e with
      | Some e => run e cs
      | None => e
      end
  end.

(** The tries a sequence of errors leads through, from a given one. *)
Fixpoint tries (t : T) (errors : list error_code) : list T :=
  t :: match errors with
       | [] => []
       | ec :: es =>
           if failed ec then
             match initiate_next_try t ec with
             | Some t' => tries t' es
             | None => []
             end
           else []
       end.

Lemma on_completed_next now ec e t t' : ex_try e = Some t -> failed ec = true ->
  initiate_next_try t ec = Some t' ->
  on_completed now ec e = Some (Execution (ex_initiated e ++ [get_try_context now t']) (ex_calls e) (Some t')).
Proof. intros Ht Hf Hn. unfold on_completed. rewrite Ht. simpl. by rewrite Hf, Hn. Qed.

Lemma on_completed_end now ec e t : ex_try e = Some t ->
  (failed ec = false \/ initiate_next_try t ec = None) ->
  on_completed now ec e = Some (Execution (ex_initiated e) (ex_calls e ++ [ec]) None).
Proof.
  intros Ht [Hf|Hn]; unfold on_completed; rewrite Ht; simpl.
  - by rewrite Hf.
  - destruct (failed ec); [by rewrite Hn|done].
Qed.

Lemma run_done e cs : ex_try e = None -> run e cs = e.
Proof. intros Ht. destruct cs as [|[now ec] cs]; [done|]. simpl. unfold on_completed. by rewrite Ht. Qed.

Lemma on_completed_total now ec e t : ex_try e = Some t -> exists e', on_completed now ec e = Some e'.
Proof.
  intros Ht. unfold on_completed. rewrite Ht. cbn [mbind option_bind].
  destruct (failed ec); [destruct (initiate_next_try t ec)|]; by eexists.
Qed.

Lemma run_app e cs1 cs2 : is_Some (ex_try (run e cs1)) -> run e (cs1 ++ cs2) = run (run e cs1) cs2.
Proof.
  revert e. induction cs1 as [|[now ec] cs1 IH]; intros e Ht; [done|]. cbn [app run] in *.
  destruct (on_completed now ec e) as [e1|] eqn:E; [by apply IH|].
  destruct Ht as [t Ht]. destruct (on_completed_total now ec e t Ht). congruence.
Qed.

(** A run from a try initiates the operation of each of the tries the errors lead
    through, when the error came. *)
Lemma run_initiated t e cs : ex_try e = Some t ->
  ex_initiated (run e cs) = ex_initiated e ++ zip_with get_try_context cs.*1 (tail (tries t cs.*2)).
Proof.
  revert t e. induction cs as [|[now ec] cs IH]; intros t e Ht; [simpl; by rewrite app_nil_r|].
  cbn [run]. rewrite !fmap_cons. cbn [fst snd tries tail].
  destruct (failed ec) eqn:Ef; [destruct (initiate_next_try t ec) as [t'|] eqn:En|].
  - rewrite (on_completed_next now ec e t t' Ht Ef En), (IH t') by done. simpl. rewrite <- app_assoc.
    assert (tries t' cs.*2 = t' :: tail (tries t' cs.*2)) as -> by (by destruct (cs.*2)). done.
  - rewrite (on_completed_end now ec e t Ht), run_done by auto. simpl. by rewrite app_nil_r.
  - rewrite (on_completed_end now ec e t Ht), run_done by auto. simpl. by rewrite app_nil_r.
Qed.

Lemma start_initiated now t cs :
  ex_initiated (run (failover_start now t) cs) = zip_with get_try_context (now :: cs.*1) (tries t cs.*2).
Proof.
  rewrite (run_initiated t) by done. simpl.
  assert (tries t cs.*2 = t :: tail (tries t cs.*2)) as -> by (by destruct (cs.*2)). done.
Qed.

(** A run from a try: it is still in one, or the handler was called once. *)
Lemma run_calls t e cs : ex_try e = Some t ->
  let e' := run e cs in
  (is_Some (ex_try e') /\ ex_calls e' = ex_calls e /\ length (ex_initiated e') = (length (ex_initiated e) + length cs)%nat)
  \/ (exists now ec, ex_try e' = None /\ ex_calls e' = ex_calls e ++ [ec] /\ (now, ec) ∈ cs).
Proof.
  cbv zeta. revert t e. induction cs as [|[now ec] cs IH]; intros t e Ht; cbn [run].
  { left. split_and!; [by exists t|done|simpl; lia]. }
  destruct (failed ec) eqn:Ef; [destruct (initiate_next_try t ec) as [t'|] eqn:En|].
  - rewrite (on_completed_next now ec e t t' Ht Ef En).
    match goal with |- context [run ?e1 cs] => destruct (IH t' e1 eq_refl) as [(H1 & H2 & H3)|(now2 & ec2 & H1 & H2 & H3)] end.
    + left. split_and!; [done|done|]. rewrite H3. simpl. rewrite length_app. simpl. lia.
    + right. exists now2, ec2. split_and!; [done|done|by right].
  - rewrite (on_completed_end now ec e t Ht), run_done by auto. right. exists now, ec. split_and!; [done|done|left].
  - rewrite (on_completed_end now ec e t Ht), run_done by auto. right. exists now, ec. split_and!; [done|done|left].
Qed.

(** Tries that are bounded. *)
Lemma run_spec `{!BoundedTry T C} t e cs : ex_try e = Some t ->
  let e' := run e cs in
  (length (ex_initiated e') <= length (ex_initiated e) + tries_bound t)%nat
  /\ (is_Some (ex_try e') -> (length cs <= tries_bound t)%nat).
Proof.
  cbv zeta. revert t e. induction cs as [|[now ec] cs IH]; intros t e Ht; cbn [run].
  { split; [lia|]. intros _. simpl. lia. }
  destruct (failed ec) eqn:Ef; [destruct (initiate_next_try t ec) as [t'|] eqn:En|].
  - rewrite (on_completed_next now ec e t t' Ht Ef En).
    pose proof (tries_bound_decreases _ _ _ En) as Hd.
    match goal with |- context [run ?e1 cs] => destruct (IH t' e1 eq_refl) as [Hl Hr] end.
    simpl in *. rewrite length_app in Hl. simpl in Hl. split; [lia|]. intros Hs. specialize (Hr Hs). lia.
  - rewrite (on_completed_end now ec e t Ht), run_done by auto. simpl. split; [lia|]. by intros [? ?].
  - rewrite (on_completed_end now ec e t Ht), run_done by auto. simpl. split; [lia|]. by intros [? ?].
Qed.

(** What a failover does under a strategy, ended or not. *)
Definition calls_once (completions : list (Z * error_code)) (e : execution T C) : Prop :=
  (length (ex_calls e) <= 1)%nat
  /\ (ex_try e = None <-> ex_calls e <> [])
  /\ (forall ec, ex_calls e = [ec] -> exists at_, (at_, ec) ∈ completions)
  /\ (ex_calls e = [] -> length (ex_initiated e) = S (length completions)).

Lemma failover_calls_once now t cs : calls_once cs (run (failover_start now t) cs).
Proof.
  destruct (run_calls t (failover_start now t) cs eq_refl) as [([t' H1] & H2 & H3)|(at_ & ec & H1 & H2 & H3)];
    unfold calls_once; rewrite ?H1, H2; simpl; split_and!; try done; try lia.
  intros ec' [= <-]. by exists at_.
Qed.

(** What it does besides when tries are bounded. *)
Lemma failover_bounded `{!BoundedTry T C} now t cs :
  let e := run (failover_start now t) cs in
  (length (ex_initiated e) <= S (tries_bound t))%nat
  /\ ((S (tries_bound t) <= length cs)%nat -> exists ec, ex_calls e = [ec]).
Proof.
  cbv zeta. destruct (run_spec t (failover_start now t) cs eq_refl) as [Hl Hr]. simpl in Hl. split; [lia|].
  intros Hlen. destruct (run_calls t (failover_start now t) cs eq_refl) as [(H1 & _)|(at_ & ec & _ & H2 & _)].
  - specialize (Hr H1). lia.
  - by exists ec.
Qed.

End strategy.

(** ** [retry.h] *)

Section retry.
Context {P A : Type}.

(** [basic_try]: the options used by the strategy and the context. *)
Record retry_try := RetryTry {
  rt_tries : Z;
  rt_conditions : list errc;
  rt_close_connection : bool;
  rt_context : basic_context P A
}.

(** [adjust_tries_remain] *)
Definition adjust_tries_remain (t : retry_try) : retry_try :=
  RetryTry (Z.max 0 (rt_tries t - 1)) (rt_conditions t) (rt_close_connection t) (rt_context t).

(** The conditions of [can_retry]: any error where none are given. *)
Definition conditions_match (conditions : list errc) (ec : error_code) : bool :=
  match conditions with
  | [] => true
  | _ :: _ => match_conditions conditions ec
  end.

(** [can_retry(ec)] *)
Definition can_retry (t : retry_try) (ec : error_code) : bool :=
  if rt_tries t <? 1 then false else conditions_match (rt_conditions t) ec.

(** [get_next_try(ec, conn)] *)
Definition get_next_try (t : retry_try) (ec : error_code) : option retry_try :=
  let t := adjust_tries_remain t in
  if can_retry t ec then Some t else None.

(** [basic_try::get_context()] *)
Definition retry_get_context (now : Z) (t : retry_try) : P * time_constraint * A :=
  (ctx_provider (rt_context t),
   get_try_time_constraint (ctx_time_constraint (rt_context t)) (rt_tries t) now,
   ctx_args (rt_context t)).

(** [retry_strategy::get_first_try] *)
Definition retry_first_try (now : Z) (n : Z) (conditions : list errc) (p : P) (t : time_constraint) (args : A) :
    retry_try :=
  RetryTry n conditions true (BasicContext p (deadline now t) args).

#[export] Instance retry_failover : FailoverTry retry_try (P * time_constraint * A) := {|
  get_try_context := retry_get_context;
  initiate_next_try := get_next_try
|}.

#[export, program] Instance retry_bounded : BoundedTry retry_try (P * time_constraint * A) := {|
  tries_bound t := Z.to_nat (rt_tries t - 1)
|}.
Next Obligation.
  intros t ec t' Hn. cbn in Hn. unfold get_next_try in Hn. destruct (can_retry _ _) eqn:Ec; [|done].
  injection Hn as <-. unfold can_retry, adjust_tries_remain in *. simpl in *.
  destruct (Z.ltb_spec (Z.max 0 (rt_tries t - 1)) 1); [done|]. lia.
Qed.
End retry.
Arguments retry_try : clear implicits.

(** ** [role_based.h] *)

(** [can_recover_impl<Role>::value] and [can_recover] *)
Definition role_conditions (r : role) : list errc :=
  match r with
  | master => [connection_error; type_mismatch; protocol_error; database_readonly]
  | replica => [connection_error; type_mismatch; protocol_error]
  end.

Definition can_recover (r : role) (ec : error_code) : bool := match_conditions (role_conditions r) ec.

(** [initiate_next_try(ec, conn, init)]: the next role that can recover. *)
Fixpoint next_role (rest : list role) (ec : error_code) : option (role * list role) :=
  match rest with
  | [] => None
  | r :: rest => if can_recover r ec then Some (r, rest) else next_role rest ec
  end.

Lemma next_role_suffix rest ec r rest' : next_role rest ec = Some (r, rest') ->
  exists skipped, rest = skipped ++ r :: rest' /\ can_recover r ec = true
    /\ Forall (fun r => can_recover r ec = false) skipped.
Proof.
  induction rest as [|x rest IH]; simpl; [done|]. destruct (can_recover x ec) eqn:Ex.
  - intros [= -> ->]. exists []. done.
  - intros Hn. destruct (IH Hn) as (sk & -> & Hr & Hs). exists (x :: sk). split_and!; [done|done|by constructor].
Qed.

Section role_based.
Context {A : Type}.

(** [role_based_try<Options, Context, RoleIdx>]: the roles from its own on.  The
    provider is one whose roles can be rebound; [None]: it was rebound to a role it
    does not support, which does not compile. *)
Record role_try := RoleTry {
  ro_role : role;
  ro_rest : list role;
  ro_close_connection : bool;
  ro_context : basic_context (option provider) A
}.

Definition role_next_try (t : role_try) (ec : error_code) : option role_try :=
  '(r, rest) ← next_role (ro_rest t) ec;
  Some (RoleTry r rest (ro_close_connection t) (ro_context t)).

(** [tries_left()] *)
Definition tries_left (t : role_try) : Z := 1 + Z.of_nat (length (ro_rest t)).

(** [role_based_try::get_context()] *)
Definition role_get_context (now : Z) (t : role_try) : option provider * time_constraint * A :=
  (p ← ctx_provider (ro_context t); rebind_role p (ro_role t),
   get_try_time_constraint (ctx_time_constraint (ro_context t)) (tries_left t) now,
   ctx_args (ro_context t)).

(** [role_based_strategy::get_first_try] *)
Definition role_first_try (now : Z) (first : role) (rest : list role) (p : option provider)
    (t : time_constraint) (args : A) : role_try :=
  RoleTry first rest true (BasicContext p (deadline now t) args).

#[export] Instance role_failover : FailoverTry role_try (option provider * time_constraint * A) := {|
  get_try_context := role_get_context;
  initiate_next_try := role_next_try
|}.

#[export, program] Instance role_bounded : BoundedTry role_try (option provider * time_constraint * A) := {|
  tries_bound t := length (ro_rest t)
|}.
Next Obligation.
  intros t ec t' Hn. cbn in Hn. unfold role_next_try in Hn.
  destruct (next_role (ro_rest t) ec) as [[r rest]|] eqn:En; simpl in Hn; [|done].
  injection Hn as <-. apply next_role_suffix in En as (sk & -> & _). simpl. rewrite length_app. simpl. lia.
Qed.
End role_based.
Arguments role_try : clear implicits.

(** ** The tries of a retry *)

Section retries.
Context {P A : Type}.
Implicit Types (t : retry_try P A).

(** The next try of a retry has one try less. *)
Lemma retry_next t ec : get_next_try t ec =
  if (2 <=? rt_tries t) && conditions_match (rt_conditions t) ec
  then Some (RetryTry (rt_tries t - 1) (rt_conditions t) (rt_close_connection t) (rt_context t))
  else None.
Proof.
  unfold get_next_try, can_retry, adjust_tries_remain. simpl.
  destruct (Z.leb_spec 2 (rt_tries t)).
  - rewrite Z.max_r by lia. rewrite (proj2 (Z.ltb_ge _ _)) by lia. done.
  - rewrite (proj2 (Z.ltb_lt _ _)) by lia. done.
Qed.

(** An error the strategy reacts to. *)
Definition retried (conditions : list errc) (ec : error_code) : bool :=
  failed ec && conditions_match conditions ec.

(** After [k] matching errors the [n]-try strategy has [n - k] tries left. *)
Lemma retry_run_errors (cs : list (Z * error_code)) t (e : execution (retry_try P A) (P * time_constraint * A)) :
  ex_try e = Some t -> Z.of_nat (length cs) < Z.max 1 (rt_tries t) ->
  Forall (fun c => retried (rt_conditions t) c.2 = true) cs ->
  exists t', ex_try (run e cs) = Some t' /\ rt_tries t' = rt_tries t - Z.of_nat (length cs)
    /\ rt_conditions t' = rt_conditions t /\ rt_context t' = rt_context t
    /\ ex_calls (run e cs) = ex_calls e
    /\ length (ex_initiated (run e cs)) = (length (ex_initiated e) + length cs)%nat.
Proof.
  revert t e. induction cs as [|[now ec] cs IH]; intros t e Ht Hl Hall.
  { exists t. simpl. split_and!; [done|lia|done|done|done|lia]. }
  apply Forall_cons in Hall as [Hec Hall]. unfold retried in Hec. simpl in Hec.
  apply andb_true_iff in Hec as [Hf Hc]. cbn [length] in Hl.
  assert (initiate_next_try t ec = Some (RetryTry (rt_tries t - 1) (rt_conditions t)
            (rt_close_connection t) (rt_context t))) as Hn.
  { cbn. rewrite retry_next, Hc, (proj2 (Z.leb_le _ _)) by lia. done. }
  cbn [run]. rewrite (on_completed_next now ec e t _ Ht Hf Hn).
  match goal with |- context [run ?e1 cs] =>
    destruct (IH _ e1 eq_refl) as (t' & H1 & H2 & H3 & H4 & H5 & H6); [simpl; lia|done|] end.
  exists t'. simpl in *. rewrite length_app in H6. simpl in H6. split_and!; [done|lia|done|done|done|lia].
Qed.

End retries.

(** ** The roles of a role-based failover *)

(** The roles tried, in order, are a subsequence of the roles of the strategy,
    and each of them can recover the error that led to it. *)
Lemma role_tries_sublist {A} (t : role_try A) es :
  ro_role <$> tries t es `sublist_of` ro_role t :: ro_rest t.
Proof.
  revert t. induction es as [|ec es IH]; intros t; cbn [tries].
  { rewrite fmap_cons. apply sublist_skip. apply sublist_nil_l. }
  rewrite fmap_cons. apply sublist_skip. destruct (failed ec); [|apply sublist_nil_l].
  change (initiate_next_try t ec) with (role_next_try t ec). unfold role_next_try.
  destruct (next_role (ro_rest t) ec) as [[r rest]|] eqn:En; simpl; [|apply sublist_nil_l].
  apply next_role_suffix in En as (sk & -> & _). etrans; [apply IH|]. simpl. by apply sublist_inserts_l.
Qed.

Lemma replica_cannot_recover_readonly ec :
  equivalent ec database_readonly = true -> can_recover replica ec = false.
Proof.
  intros Hro. apply not_true_is_false. unfold can_recover. cbn [role_conditions match_conditions foldr].
  intros Hr. repeat (apply orb_true_iff in Hr as [Hr|Hr]; [by pose proof (equivalent_unique ec _ _ Hro Hr)|]).
  done.
Qed.

(** Every try is at one of the roles of the strategy, those after it left, with the
    context of the first. *)
Lemma role_tries_suffix {A} (t : role_try A) es u : u ∈ tries t es ->
  (exists before, ro_role t :: ro_rest t = before ++ ro_role u :: ro_rest u) /\ ro_context u = ro_context t.
Proof.
  revert t. induction es as [|ec es IH]; intros t Hu; cbn [tries] in Hu.
  { apply list_elem_of_singleton in Hu as ->. split; [by exists []|done]. }
  apply elem_of_cons in Hu as [->|Hu]; [split; [by exists []|done]|]. destruct (failed ec); [|by apply elem_of_nil in Hu].
  change (initiate_next_try t ec) with (role_next_try t ec) in Hu. unfold role_next_try in Hu.
  destruct (next_role (ro_rest t) ec) as [[r rest]|] eqn:En; simpl in Hu; [|by apply elem_of_nil in Hu].
  apply next_role_suffix in En as (sk & Hsk & _). destruct (IH _ Hu) as [[before Hb] Hc]. simpl in *. split; [|done].
  exists (ro_role t :: sk ++ before). rewrite Hsk. simpl. by rewrite Hb, <- app_assoc.
Qed.

(** The strategy of the documentation of [get_next_try]: the same try again after
    every error that is recoverable. *)
Section same_try.
Context (recoverable : error_code -> bool).
Definition same_try : FailoverTry () () :=
  {| get_try_context _ _ := tt; initiate_next_try t ec := if recoverable ec then Some t else None |}.
End same_try.

Lemma same_try_goes_on recoverable ec n : failed ec = true -> recoverable ec = true ->
  let e := run (H := same_try recoverable) (failover_start (H := same_try recoverable) 0 tt) (replicate n (0, ec)) in
  ex_calls e = [] /\ length (ex_initiated e) = S n.
Proof.
  intros Hf Hr. cbv zeta.
  assert (Hgen : forall e : execution () (), ex_try e = Some tt ->
    ex_calls (run (H := same_try recoverable) e (replicate n (0, ec))) = ex_calls e
    /\ length (ex_initiated (run (H := same_try recoverable) e (replicate n (0, ec)))) = (length (ex_initiated e) + n)%nat).
  { induction n as [|n IH]; intros e He; simpl; [by rewrite Nat.add_0_r|].
    rewrite (on_completed_next (H := same_try recoverable) 0 ec e tt tt He Hf) by (cbn; by rewrite Hr).
    match goal with |- context [run ?e1 _] => destruct (IH e1 eq_refl) as [H1 H2] end.
    rewrite H1, H2. simpl. rewrite length_app. simpl. split; [done|lia]. }
  destruct (Hgen (failover_start (H := same_try recoverable) 0 tt) eq_refl) as [H1 H2]. rewrite H1, H2. done.
Qed.

(** The share of the time a try has: what is left at its beginning, divided among
    the tries left. *)
Definition share_of (now : Z) (t : time_constraint) (at_ : Z) (left : Z) : time_constraint :=
  match t with
  | tc_none => tc_none
  | tc_duration d => tc_duration (Z.quot (time_left (deadline_after d now) at_) left)
  | tc_time_point p => tc_duration (Z.quot (time_left p at_) left)
  end.

Lemma share_of_spec now t at_ n : 0 < n -> get_try_time_constraint (deadline now t) n at_ = share_of now t at_ n.
Proof. intros Hn. destruct t; simpl; rewrite ?(proj2 (Z.ltb_lt _ _)) by done; done. Qed.

Module FailoverStrategies.

(** C15: a failover operation under any strategy calls its handler at most once, and
    then with the outcome of one of the operations it initiated, and each completion
    before that leads to one more operation.  Under the strategies of the library it
    comes to an end: a retry of [n] tries initiates at most [n] operations (one, when
    [n] is less), a role-based failover at most one for each of its roles, and once
    that many have completed the handler was called.  A strategy of the user need not
    come to an end: the one of the documentation, which returns the same try again,
    initiates an operation for every recoverable error, without a bound. *)
Theorem failover_terminates {P A : Type} (now : Z) (completions : list (Z * error_code)) :
  (forall T C (F : FailoverTry T C) (t : T), calls_once completions (run (failover_start now t) completions))
  /\ (forall t : retry_try P A,
        let e := run (failover_start now t) completions in
        Z.of_nat (length (ex_initiated e)) <= Z.max 1 (rt_tries t)
        /\ (Z.max 1 (rt_tries t) <= Z.of_nat (length completions) -> exists ec, ex_calls e = [ec]))
  /\ (forall t : role_try A,
        let e := run (failover_start now t) completions in
        (length (ex_initiated e) <= length (ro_role t :: ro_rest t))%nat
        /\ ((length (ro_role t :: ro_rest t) <= length completions)%nat -> exists ec, ex_calls e = [ec]))
  /\ (forall recoverable ec n, failed ec = true -> recoverable ec = true ->
        let F := same_try recoverable in
        let e := run (H := F) (failover_start (H := F) 0 tt) (replicate n (0, ec)) in
        ex_calls e = [] /\ length (ex_initiated e) = S n).
Proof.
  split_and!.
  - intros T C F t. apply failover_calls_once.
  - intros t. cbv zeta. destruct (failover_bounded now t completions) as [Hl Hc]. cbn [tries_bound retry_bounded] in *.
    split; [lia|]. intros Hn. apply Hc. lia.
  - intros t. exact (failover_bounded now t completions).
  - intros recoverable ec n. apply same_try_goes_on.
Qed.

Lemma failover_terminates_witness :
  let lost := ec_asio connection_reset in
  let e := run (failover_start 0 (retry_first_try 0 2 [connection_error] tt (tc_duration 10) tt)) [(1, lost); (2, lost)] in
  ex_initiated e = [(tt, tc_duration 5, tt); (tt, tc_duration 9, tt)] /\ ex_calls e = [lost]
  /\ (exists ec, ex_calls e = [ec]).
Proof.
  split; [vm_compute; reflexivity|]. split; [vm_compute; reflexivity|].
  apply (proj1 (proj2 (failover_terminates (P := ()) (A := ()) 0
    [(1, ec_asio connection_reset); (2, ec_asio connection_reset)]))
    (retry_first_try 0 2 [connection_error] tt (tc_duration 10) tt)). simpl. lia.
Defined.

(** C19: an operation retried up to [n] times is initiated once more for
    every error that the conditions match (or for every error when there are
    none), up to [n] times in all, and the handler gets the first outcome
    that is a success, does not match or is the [n]-th. *)
Theorem retry_counts_tries {P A : Type} (now n : Z) (conditions : list errc) (p : P) (t : time_constraint)
    (args : A) (errors : list (Z * error_code)) (at_ : Z) (last : error_code)
    (Hn : 1 <= n) (Hl : Z.of_nat (length errors) < n)
    (Herr : Forall (fun c => retried conditions c.2 = true) errors)
    (Hlast : retried conditions last = false \/ Z.of_nat (length errors) = n - 1) :
  let e := run (failover_start now (retry_first_try now n conditions p t args)) (errors ++ [(at_, last)]) in
  length (ex_initiated e) = S (length errors) /\ ex_calls e = [last].
Proof.
  cbv zeta.
  set (e0 := failover_start now (retry_first_try now n conditions p t args)).
  destruct (retry_run_errors errors (retry_first_try now n conditions p t args) e0)
    as (t' & H1 & H2 & H3 & _ & H4 & H5); [done|simpl; lia|done|]. simpl in H2, H3.
  rewrite run_app by (by exists t'). cbn [run].
  rewrite (on_completed_end at_ last (run e0 errors) t' H1).
  - simpl. rewrite H4, H5. simpl. split; [lia|done].
  - unfold retried in Hlast. destruct (failed last); [right|by left].
    change (initiate_next_try t' last) with (get_next_try t' last).
    rewrite retry_next, H2, H3. destruct Hlast as [Hc|Hc].
    + simpl in Hc. by rewrite Hc, andb_false_r.
    + rewrite (proj2 (Z.leb_gt _ _)) by lia. done.
Qed.

Lemma retry_counts_tries_witness :
  let e := run (failover_start 0 (retry_first_try 0 3 [connection_error] tt tc_none tt))
             [(1, ec_asio connection_reset); (2, ec_ozo oid_type_mismatch)] in
  length (ex_initiated e) = 2%nat /\ ex_calls e = [ec_ozo oid_type_mismatch].
Proof.
  apply (retry_counts_tries 0 3 [connection_error] tt tc_none tt [(1, ec_asio connection_reset)] 2
           (ec_ozo oid_type_mismatch)); [lia|simpl; lia| |].
  - apply Forall_singleton. vm_compute. reflexivity.
  - left. vm_compute. reflexivity.
Defined.

(** C20: a role-based failover tries roles in the order of the strategy,
    each at most once, and falls back only to a role that can recover the
    error: in particular never to a replica after a read-only error. *)
Theorem role_based_fallback_order {A : Type} (t : role_try A) (errors : list error_code) (ec : error_code)
    (t' : role_try A)
    (Hnext : role_next_try t ec = Some t') :
  ro_role <$> tries t errors `sublist_of` ro_role t :: ro_rest t
  /\ can_recover (ro_role t') ec = true
  /\ (exists skipped, ro_rest t = skipped ++ ro_role t' :: ro_rest t'
        /\ Forall (fun r => can_recover r ec = false) skipped)
  /\ (equivalent ec database_readonly = true -> ro_role t' = master).
Proof.
  unfold role_next_try in Hnext. destruct (next_role (ro_rest t) ec) as [[r rest]|] eqn:En; simpl in Hnext; [|done].
  injection Hnext as <-. apply next_role_suffix in En as (sk & Hsk & Hr & Hs). simpl.
  split_and!; [apply role_tries_sublist|done|by exists sk|].
  intros Hro. destruct r; [done|]. by rewrite replica_cannot_recover_readonly in Hr.
Qed.

Lemma role_based_fallback_order_witness :
  can_recover replica (ec_asio connection_reset) = true.
Proof.
  apply (role_based_fallback_order (RoleTry master [replica] true (BasicContext None tc_none tt)) []
           (ec_asio connection_reset) (RoleTry replica [] true (BasicContext None tc_none tt))).
  vm_compute. reflexivity.
Defined.

(** C22: the operations a role-based failover initiates are those of the tries it
    goes through, in order, each when the error that led to it came: a try gets its
    connection from the source given for its role, on the executor of the provider,
    within what is left of the time then, divided by the number of roles from its own
    on, and with the other arguments as they are.  The roles tried are roles of the
    strategy, in order; the source only has to be given for each of them. *)
Theorem role_based_operations_use_their_source {A : Type} (first : role) (rest : list role)
    (sources : list (role * source)) (r0 : role) (ex : nat) (t : time_constraint) (args : A) (now : Z)
    (cs : list (Z * error_code)) :
  forallb (fun q => is_leaf q.2) sources = true ->
  forallb (supports_role (role_based_connection_source sources r0)) (first :: rest) = true ->
  let p := bind_executor (role_based_connection_source sources r0) ex in
  let first_try := role_first_try now first rest (Some p) t args in
  let e := run (failover_start now first_try) cs in
  Forall2 (fun operation '(at_, u) =>
      exists p' s, let share := share_of now t at_ (Z.of_nat (length (ro_role u :: ro_rest u))) in
      operation = (Some p', share, args)
      /\ source_of sources (ro_role u) = Some s
      /\ forall now', async_get_connection now' p' share = Some (from_source (SourceCall s ex share)))
    (ex_initiated e) (zip (now :: cs.*1) (tries first_try cs.*2))
  /\ Forall (fun u => exists before, first :: rest = before ++ ro_role u :: ro_rest u) (tries first_try cs.*2)
  /\ ro_role <$> tries first_try cs.*2 `sublist_of` first :: rest.
Proof.
  intros Hleaf Hall. cbv zeta. set (t0 := role_first_try now first rest _ t args).
  assert (Forall (fun u => (exists before, first :: rest = before ++ ro_role u :: ro_rest u)
    /\ ro_context u = ro_context t0) (tries t0 cs.*2)) as Hs.
  { apply Forall_forall. intros u Hu. exact (role_tries_suffix t0 _ u Hu). }
  split_and!; [|eapply Forall_impl; [exact Hs|]; naive_solver|apply (role_tries_sublist t0)].
  rewrite start_initiated.
  generalize (now :: cs.*1) as times. induction Hs as [|u us [[before Hb] Hc] _ IH]; intros [|at_ times]; try constructor.
  - rewrite forallb_forall in Hall.
    destruct (rebound_calls_source sources r0 (ro_role u) ex Hleaf) as (p' & s & Hp & Hso & Hg).
    { apply Hall. apply list_elem_of_In. rewrite Hb. apply elem_of_app. right. by left. }
    exists p', s. cbn [get_try_context role_failover]. unfold role_get_context, tries_left. rewrite Hc. cbn [ro_context t0 role_first_try
      ctx_provider ctx_time_constraint ctx_args mbind option_bind]. rewrite Hp, share_of_spec by lia.
    replace (1 + Z.of_nat (length (ro_rest u))) with (Z.of_nat (length (ro_role u :: ro_rest u))) by (simpl; lia).
    by split_and!.
  - apply IH.
Qed.

Lemma role_based_operations_use_their_source_witness :
  let sources := [(master, connection_info "m"); (replica, connection_info "r")] in
  let p := bind_executor (role_based_connection_source sources master) 1 in
  let p' := bind_executor (role_based_connection_source sources replica) 1 in
  let e := run (failover_start 0 (role_first_try 0 master [replica] (Some p) (tc_duration 10) tt))
             [(4, ec_ozo pq_connection_start_failed)] in
  ex_initiated e = [(Some p, tc_duration 5, tt); (Some p', tc_duration 6, tt)]
  /\ exists s, source_of sources replica = Some s
       /\ async_get_connection 4 p' (tc_duration 6) = Some (from_source (SourceCall s 1 (tc_duration 6))).
Proof.
  cbv zeta. split; [vm_compute; reflexivity|].
  destruct (role_based_operations_use_their_source master [replica]
    [(master, connection_info "m"); (replica, connection_info "r")] master 1 (tc_duration 10) tt 0
    [(4, ec_ozo pq_connection_start_failed)] eq_refl eq_refl) as [H _].
  apply (Forall2_lookup_lr _ _ _ 1 (Some (bind_executor (role_based_connection_source
    [(master, connection_info "m"); (replica, connection_info "r")] replica) 1), tc_duration 6, tt)
    (4, RoleTry replica [] true (BasicContext (Some (bind_executor (role_based_connection_source
    [(master, connection_info "m"); (replica, connection_info "r")] master) 1)) (tc_time_point 10) tt))) in H;
    [|vm_compute; reflexivity..].
  destruct H as (p1 & s & E & Hs & Hg). injection E as <-. exists s. split; [exact Hs|]. exact (Hg 4).
Defined.

End FailoverStrategies.
