(* ===== verification/Strategies.v ===== *)
(** * The strategies of failover with their options: [retry_options],
      [retry_strategy], [role_based_options], [role_based_strategy], and what a
      completed try does, in order

    [Failover] has what the tries decide; here are the options they are made
    with, and the order of what happens when a try completes with a connection: the
    handler of the strategy's event, the closing of the connection, the next
    operation, the call of the operation's handler. *)

From Stdlib Require Import Sorted.
From S2P Require Import Prelude Words Time Errors Options Wrapped Connection Providers Failover.
Import Deadline.
#[local] Open Scope Z_scope.

Module Strategies.

(** ** Options *)

(** [retry_options] and [role_based_options]; [on_event] is [on_retry] or
    [on_fallback]. *)
Inductive strategy_option := on_event | close_connection | tries_count | conditions | roles.
#[export] Instance strategy_option_eq_dec : EqDecision strategy_option.
Proof. solve_decision. Defined.

(** The value of an option; a handler is named. *)
Inductive strategy_value :=
| is_handler (id : nat) | is_bool (b : bool) | is_int (n : Z) | is_conditions (l : list errc)
| is_roles (l : list role).
#[export] Instance strategy_value_eq_dec : EqDecision strategy_value.
Proof. solve_decision. Defined.

Definition strategy_options := list (strategy_option * strategy_value).

(** [retry(ec...)] and [role_based(roles...)] *)
Definition retry (ec : list errc) : strategy_options :=
  match ec with
  | [] => []
  | _ :: _ => Options.set [] conditions (is_conditions ec)
  end.
Definition role_based (rs : list role) : strategy_options :=
  match rs with
  | [] => []
  | _ :: _ => [(roles, is_roles rs)]
  end.

(** [retry_strategy::tries(n)] and [operator *] *)
Definition with_tries (n : Z) (s : strategy_options) : strategy_options :=
  Options.set s tries_count (is_int n).

(** [get_option(options(), op::close_connection, true)] *)
Definition closes (s : strategy_options) : bool :=
  match Options.get_option s close_connection (is_bool true) with is_bool b => b | _ => true end.

(** [get_option(options(), op::on_retry, [](auto&&...){})] and the same for
    [on_fallback]: the default does nothing. *)
Definition event_handler (s : strategy_options) : option nat :=
  match Options.find_option s on_event with Some (is_handler id) => Some id | _ => None end.

(** [get_option(options(), op::conditions, no_conditions_)] *)
Definition retry_conditions (s : strategy_options) : list errc :=
  match Options.get_option s conditions (is_conditions []) with is_conditions l => l | _ => [] end.

(** [retry_strategy::get_first_try]: the number of tries has to be given. *)
Definition get_first_retry {P A : Type} (s : strategy_options) (now : Z) (p : P) (t : time_constraint) (args : A) :
    option (retry_try P A) :=
  match Options.find_option s tries_count with
  | Some (is_int n) => Some (RetryTry n (retry_conditions s) (closes s) (BasicContext p (deadline now t) args))
  | _ => None
  end.

(** [role_based_strategy::get_first_try]: the roles have to be given and not be
    empty. *)
Definition get_first_role_try {A : Type} (s : strategy_options) (now : Z) (p : option provider) (t : time_constraint)
    (args : A) : option (role_try A) :=
  match Options.find_option s roles with
  | Some (is_roles (r :: rs)) => Some (RoleTry r rs (closes s) (BasicContext p (deadline now t) args))
  | _ => None
  end.

(** ** What a completed try does *)

(** The handler of the event is called with the connection, [PQfinish] is called, an
    operation is initiated, the handler is called with a code and a connection. *)
Inductive action (C : Type) :=
| notified (handler : option nat) (conn : wrapped connection)
| finished (h : handle)
| initiated (c : C)
| called (ec : error_code) (conn : wrapped connection).
Arguments notified {C} _ _.
Arguments finished {C} _.
Arguments initiated {C} _.
Arguments called {C} _ _.

(** The guard [defer_close_connection(close ? &conn : nullptr)] at its end: the
    connection after it and the handles it finishes; [None]: an undefined call. *)
Definition guard_end {C : Type} (close : bool) (conn : wrapped connection) :
    option (wrapped connection * list (action C)) :=
  match defer_close_connection (if close then Some conn else None) [] with
  | Some (conn', handles) => Some (default conn conn', finished <$> handles)
  | None => None
  end.

Section completed.
Context {P A : Type}.

(** [continuation::operator()] with [basic_try::get_next_try]: the guard ends with
    [get_next_try], before the next operation is initiated. *)
Definition retry_completed (handler : option nat) (t : retry_try P A) (now : Z) (ec : error_code)
    (conn : wrapped connection) : option (list (action (P * time_constraint * A))) :=
  if failed ec then
    let next := adjust_tries_remain t in
    let retries := can_retry next ec in
    '(conn', guard) ← guard_end (rt_close_connection t) conn;
    Some ((if retries then [notified handler conn] else []) ++ guard
          ++ (if retries then [initiated (get_try_context now next)] else [called ec conn']))
  else Some [called ec conn].

(** [role_based_try::initiate_next_try], from a try with the roles [rest] after
    its own; the flag says whether the initiator was called.  A level that passes
    the error on releases its guard. *)
Fixpoint role_initiate_next (handler : option nat) (close : bool) (ctx : basic_context (option provider) A) (now : Z)
    (ec : error_code) (rest : list role) (conn : wrapped connection) :
    option (list (action (option provider * time_constraint * A)) * wrapped connection * bool) :=
  match rest with
  | [] => '(conn, guard) ← guard_end close conn; Some (guard, conn, false)
  | r :: rest =>
      if can_recover r ec then
        '(conn', guard) ← guard_end close conn;
        Some ([notified handler conn; initiated (get_try_context now (RoleTry r rest close ctx))] ++ guard, conn', true)
      else role_initiate_next handler close ctx now ec rest conn
  end.

(** [continuation::operator()] with a role-based try *)
Definition role_completed (handler : option nat) (t : role_try A) (now : Z) (ec : error_code)
    (conn : wrapped connection) : option (list (action (option provider * time_constraint * A))) :=
  if failed ec then
    '(actions, conn, was_initiated) ←
      role_initiate_next handler (ro_close_connection t) (ro_context t) now ec (ro_rest t) conn;
    Some (if (was_initiated : bool) then actions else actions ++ [called ec conn])
  else Some [called ec conn].
End completed.

(** ** What there is to know of the actions *)

Section actions.
Context {C : Type}.
Implicit Types (l : list (action C)) (conn : wrapped connection).

Definition operations l : list C := omap (fun a => match a with initiated c => Some c | _ => None end) l.
Definition handler_calls l : list error_code :=
  omap (fun a => match a with called ec _ => Some ec | _ => None end) l.
Definition given_to_user l : list (wrapped connection) :=
  omap (fun a => match a with called _ conn => Some conn | _ => None end) l.
Definition notifications l : list (option nat * wrapped connection) :=
  omap (fun a => match a with notified h conn => Some (h, conn) | _ => None end) l.
Definition finishes l : list handle := omap (fun a => match a with finished h => Some h | _ => None end) l.

(** The order of what a retry and what a role-based failover does. *)
Definition retry_rank (a : action C) : nat :=
  match a with notified _ _ => 0 | finished _ => 1 | initiated _ | called _ _ => 2 end.
Definition role_rank (a : action C) : nat :=
  match a with notified _ _ => 0 | initiated _ => 1 | finished _ => 2 | called _ _ => 3 end.

(** The connection the user gets: the one of the operation, closed when it has to be
    and is not null. *)
Definition closed_if (close : bool) conn conn' : Prop :=
  if close then unwrap_recursive conn' = (fun c => Connection None None (error_context_ c)) <$> unwrap_recursive conn
  else conn' = conn.

(** What is done with the connection of a completed operation: [next] is initiated,
    the handler of the event being told of the connection as it was, or the handler is
    called with the code; the handle of a connection that has to be closed and is not
    null is finished, once; all this in the order of [rank]. *)
Definition acts (rank : action C -> nat) (handler : option nat) (ec : error_code) (close : bool) conn
    (next : option C) l : Prop :=
  operations l = option_list next
  /\ handler_calls l = match next with Some _ => [] | None => [ec] end
  /\ notifications l = match next with Some _ => [(handler, conn)] | None => [] end
  /\ finishes l = (if close then option_list (unwrap_recursive conn ≫= handle_) else [])
  /\ Forall (closed_if close conn) (given_to_user l)
  /\ Sorted le (rank <$> l).

(** The handles the guard of a connection finishes. *)
Definition guarded (close : bool) conn : list handle :=
  if close then option_list (unwrap_recursive conn ≫= handle_) else [].

(** The guard of a connection behind wrappers that end. *)
Lemma guard_end_spec close conn : unwraps_to_end conn = true -> bound conn = true ->
  exists conn', guard_end (C := C) close conn = Some (conn', finished <$> guarded close conn)
    /\ closed_if close conn conn'.
Proof using.
  intros Hu Hb. unfold guard_end, guarded. destruct close; [|by exists conn]. pose proof (is_null_recursive_guards conn Hu Hb) as Hn.
  unfold defer_close_connection, Connection.close_connection. destruct (unwrap_recursive conn) as [c|] eqn:Ec; rewrite Hn; simpl.
  - eexists. split; [done|]. simpl. by rewrite unwrap_update, Ec.
  - exists conn. split; [done|]. simpl. by rewrite Ec.
Qed.

Lemma finishes_guard (hs : list handle) : finishes (finished <$> hs) = hs
  /\ operations (finished <$> hs) = [] /\ handler_calls (finished <$> hs) = []
  /\ notifications (finished <$> hs) = [] /\ given_to_user (finished <$> hs) = [].
Proof using.
  induction hs as [|h hs (H1 & H2 & H3 & H4 & H5)]; [done|]. csimpl. unfold finishes in *. csimpl. by rewrite H1.
Qed.

Lemma sorted_ranks rank l1 l2 l3 (n1 n2 n3 : nat) : (n1 <= n2)%nat -> (n2 <= n3)%nat ->
  Forall (fun a => rank a = n1) l1 -> Forall (fun a => rank a = n2) l2 -> Forall (fun a => rank a = n3) l3 ->
  Sorted le (rank <$> l1 ++ l2 ++ l3).
Proof using.
  intros H12 H23 H1 H2 H3. apply StronglySorted_Sorted.
  assert (Hs : forall n l, Forall (fun a => rank a = n) l -> StronglySorted le (rank <$> l)).
  { intros n l Hl. induction Hl as [|a l Ha Hl IH]; [constructor|]. csimpl. constructor; [done|].
    apply Forall_fmap. eapply Forall_impl; [exact Hl|]. simpl. intros b Hb. lia. }
  assert (Ha : forall l l', StronglySorted le (rank <$> l) -> StronglySorted le (rank <$> l') ->
    Forall (fun a => Forall (fun b => (rank a <= rank b)%nat) l') l -> StronglySorted le (rank <$> l ++ l')).
  { intros l l' Hl Hl' Hall. induction l as [|a l IH]; [done|]. csimpl in *. inversion Hl; subst.
    apply Forall_cons in Hall as [Ha Hall]. constructor; [by apply IH|].
    rewrite fmap_app. apply Forall_app. split; [done|]. by apply Forall_fmap. }
  apply Ha; [by eapply Hs|apply Ha; [by eapply Hs..|]|].
  - eapply Forall_impl; [exact H2|]. intros a Ea. eapply Forall_impl; [exact H3|].
    cbv beta in *. intros b Eb. lia.
  - eapply Forall_impl; [exact H1|]. intros a Ea. apply Forall_app. split.
    + eapply Forall_impl; [exact H2|]. cbv beta in *. intros b Eb. lia.
    + eapply Forall_impl; [exact H3|]. cbv beta in *. intros b Eb. lia.
Qed.

Lemma finished_rank (hs : list handle) :
  Forall (fun a => retry_rank a = 1%nat) (finished <$> hs) /\ Forall (fun a => role_rank a = 2%nat) (finished <$> hs).
Proof using. split; apply Forall_fmap, Forall_true; done. Qed.

(** What the actions of a completed try add to an execution. *)
Definition adds {T : Type} l (e e' : execution T C) : Prop :=
  ex_initiated e' = ex_initiated e ++ operations l /\ ex_calls e' = ex_calls e ++ handler_calls l.

(** The handler is called after the guard. *)
Lemma acts_called rank handler ec close conn conn' : (forall c, rank (called ec c) = rank (called ec conn)) ->
  Forall (fun a => (rank a <= rank (called ec conn))%nat) (finished <$> guarded close conn) ->
  closed_if close conn conn' ->
  acts rank handler ec close conn None ((finished <$> guarded close conn) ++ [called ec conn']).
Proof using.
  intros Hr Hle Hc. destruct (finishes_guard (guarded close conn)) as (H1 & H2 & H3 & H4 & H5).
  unfold acts, operations, handler_calls, notifications, finishes, given_to_user in *. rewrite !omap_app.
  rewrite H1, H2, H3, H4, H5. csimpl. rewrite app_nil_r. split_and!; try done.
  - by apply Forall_singleton.
  - unfold guarded in *. destruct close; [|csimpl; repeat constructor].
    destruct (unwrap_recursive conn ≫= handle_) as [h|]; csimpl in *; repeat constructor.
    inversion Hle; subst. rewrite Hr. done.
Qed.

(** The next operation is initiated after the handler of the event is told, and before
    or after the guard. *)
Lemma acts_initiated handler ec close conn (c : C) :
  acts retry_rank handler ec close conn (Some c) ([notified handler conn] ++ (finished <$> guarded close conn) ++ [initiated c])
  /\ acts role_rank handler ec close conn (Some c) ([notified handler conn] ++ [initiated c] ++ (finished <$> guarded close conn)).
Proof using.
  destruct (finishes_guard (guarded close conn)) as (H1 & H2 & H3 & H4 & H5).
  destruct (finished_rank (guarded close conn)) as [Hr1 Hr2].
  split; unfold acts, operations, handler_calls, notifications, finishes, given_to_user in *; rewrite !omap_app, H1, H2, H3, H4, H5;
    (split_and!; [..|eapply sorted_ranks with (n1 := 0%nat) (n2 := 1%nat) (n3 := 2%nat); [lia|lia|by repeat constructor..]]);
    csimpl; rewrite ?app_nil_r; done || constructor.
Qed.
End actions.

Section refinement.
Context {P A : Type}.

Lemma retry_completed_acts handler (t : retry_try P A) now ec conn : unwraps_to_end conn = true -> bound conn = true ->
  exists l, retry_completed handler t now ec conn = Some l
    /\ acts retry_rank handler ec (failed ec && rt_close_connection t) conn
         (if failed ec then get_try_context now <$> get_next_try t ec else None) l.
Proof using.
  intros Hu Hb. unfold retry_completed, get_next_try. destruct (failed ec); cbn [andb].
  - destruct (guard_end_spec (C := P * time_constraint * A) (rt_close_connection t) conn Hu Hb) as (conn' & -> & Hc).
    cbn [mbind option_bind]. eexists. split; [done|]. destruct (can_retry _ ec); cbn [option_map fmap option_fmap].
    + apply acts_initiated.
    + cbn [app]. apply acts_called; [done| |done]. eapply Forall_impl; [apply (proj1 (finished_rank _))|]. cbv beta. intros a ->. simpl. lia.
  - eexists. split; [done|]. apply (acts_called retry_rank handler ec false conn conn); [done|constructor|done].
Qed.

Lemma role_initiate_next_spec handler close (ctx : basic_context (option provider) A) now ec rest conn :
  role_initiate_next handler close ctx now ec rest conn
  = match next_role rest ec with
    | Some (r, rest') =>
        '(conn', guard) ← guard_end close conn;
        Some ([notified handler conn; initiated (get_try_context now (RoleTry r rest' close ctx))] ++ guard, conn', true)
    | None => '(conn, guard) ← guard_end close conn; Some (guard, conn, false)
    end.
Proof using. induction rest as [|r rest IH]; [done|]. simpl. by destruct (can_recover r ec). Qed.

Lemma role_completed_acts handler (t : role_try A) now ec conn : unwraps_to_end conn = true -> bound conn = true ->
  exists l, role_completed handler t now ec conn = Some l
    /\ acts role_rank handler ec (failed ec && ro_close_connection t) conn
         (if failed ec then get_try_context now <$> role_next_try t ec else None) l.
Proof using.
  intros Hu Hb. unfold role_completed, role_next_try. rewrite role_initiate_next_spec. destruct (failed ec); cbn [andb].
  - destruct (guard_end_spec (C := option provider * time_constraint * A) (ro_close_connection t) conn Hu Hb)
      as (conn' & -> & Hc).
    destruct (next_role (ro_rest t) ec) as [[r rest]|]; cbn [mbind option_bind fmap option_fmap option_map];
      (eexists; split; [done|]).
    + apply acts_initiated.
    + apply acts_called; [done| |done]. eapply Forall_impl; [apply (proj2 (finished_rank _))|]. cbv beta. intros a ->. simpl. lia.
  - eexists. split; [done|]. apply (acts_called role_rank handler ec false conn conn); [done|constructor|done].
Qed.

(** Actions that initiate what the strategy does refine its execution. *)
Lemma acts_adds {T C} `{FailoverTry T C} rank handler ec close conn now (t : T) (e : execution T C) l :
  ex_try e = Some t ->
  acts rank handler ec close conn (if failed ec then get_try_context now <$> initiate_next_try t ec else None) l ->
  exists e', on_completed now ec e = Some e' /\ adds l e e'.
Proof using.
  intros Ht (Ho & Hc & _). destruct (failed ec) eqn:Ef; [destruct (initiate_next_try t ec) as [t'|] eqn:En|].
  - rewrite (on_completed_next now ec e t t' Ht Ef En). eexists. split; [done|]. split; simpl; rewrite ?Ho, ?Hc; [done|].
    simpl. by rewrite app_nil_r.
  - rewrite (on_completed_end now ec e t Ht) by auto. eexists. split; [done|]. split; simpl; rewrite ?Ho, ?Hc; [|done].
    simpl. by rewrite app_nil_r.
  - rewrite (on_completed_end now ec e t Ht) by auto. eexists. split; [done|]. split; simpl; rewrite ?Ho, ?Hc; [|done].
    simpl. by rewrite app_nil_r.
Qed.
End refinement.

(** C21: what the completion of a try with a connection does, in order, refines the
    execution of the strategy: the same operations and calls.  The handler of the
    event is called exactly when another operation follows, with the connection as it
    was; a connection that is to be closed has its handle finished exactly once, and
    the user gets it closed, while a null one, which is not closed, or one that is not
    to be closed is left as it is.  A retry closes the connection before the next
    operation is initiated, a role-based fallback after; both before the operation's
    handler is called, which comes last. *)
Theorem completed_tries_act_in_order {P A : Type} (handler : option nat) (now : Z) (ec : error_code)
    (conn : wrapped connection) : unwraps_to_end conn = true -> bound conn = true ->
  (forall (t : retry_try P A) e, ex_try e = Some t ->
     exists l e', retry_completed handler t now ec conn = Some l /\ on_completed now ec e = Some e' /\ adds l e e'
       /\ acts retry_rank handler ec (failed ec && rt_close_connection t) conn
            (if failed ec then get_try_context now <$> get_next_try t ec else None) l)
  /\ (forall (t : role_try A) e, ex_try e = Some t ->
     exists l e', role_completed handler t now ec conn = Some l /\ on_completed now ec e = Some e' /\ adds l e e'
       /\ acts role_rank handler ec (failed ec && ro_close_connection t) conn
            (if failed ec then get_try_context now <$> role_next_try t ec else None) l).
Proof.
  intros Hu Hb. split; intros t e Ht.
  - destruct (retry_completed_acts handler t now ec conn Hu Hb) as (l & Hl & Ha).
    destruct (acts_adds _ _ _ _ _ now t e l Ht Ha) as (e' & He' & Had). exists l, e'. by split_and!.
  - destruct (role_completed_acts handler t now ec conn Hu Hb) as (l & Hl & Ha).
    destruct (acts_adds _ _ _ _ _ now t e l Ht Ha) as (e' & He' & Had). exists l, e'. by split_and!.
Qed.

(** A retry after a lost connection, then the end of its tries with a null one. *)
Lemma completed_tries_act_in_order_witness :
  let lost := ec_asio connection_reset in
  let t := retry_first_try 0 2 [connection_error] tt (tc_duration 10) tt in
  let conn := Bare (Connection (Some 3%nat) (Some 5) "") in
  retry_completed (Some 1%nat) t 4 lost conn
    = Some [notified (Some 1%nat) conn; finished 3%nat; initiated (tt, tc_duration 6, tt)]
  /\ retry_completed (Some 1%nat) (adjust_tries_remain t) 4 lost (Wrap shared_ptr None)
    = Some [called lost (Wrap shared_ptr None)]
  /\ exists l e', retry_completed (Some 1%nat) t 4 lost conn = Some l
       /\ on_completed 4 lost (failover_start 0 t) = Some e' /\ adds l (failover_start 0 t) e'.
Proof.
  cbv zeta. split; [vm_compute; reflexivity|]. split; [vm_compute; reflexivity|].
  destruct (proj1 (completed_tries_act_in_order (P := ()) (A := ()) (Some 1%nat) 4 (ec_asio connection_reset)
    (Bare (Connection (Some 3%nat) (Some 5) "")) eq_refl eq_refl)
    (retry_first_try 0 2 [connection_error] tt (tc_duration 10) tt)
    (failover_start 0 (retry_first_try 0 2 [connection_error] tt (tc_duration 10) tt)) eq_refl) as (l & e' & H1 & H2 & H3 & _).
  exists l, e'. split; [exact H1|]. split; [exact H2|exact H3].
Defined.

(** The first try of a strategy made with [retry(ec...) * n] and options set on it. *)
Lemma first_retry_of_options {P A : Type} ec n vs now (p : P) t (args : A) :
  Options.last_set vs tries_count = None ->
  get_first_retry (Options.set_all (with_tries n (retry ec)) vs) now p t args
  = Some (RetryTry n
      (match Options.last_set vs conditions with Some (is_conditions l) => l | Some _ => [] | None => ec end)
      (match Options.last_set vs close_connection with Some (is_bool b) => b | _ => true end)
      (BasicContext p (deadline now t) args)).
Proof.
  intros Ht. assert (Hnd : NoDup (with_tries n (retry ec)).*1).
  { apply Options.set_keys. destruct ec; [constructor|apply Options.set_keys; constructor]. }
  unfold get_first_retry, retry_conditions, closes, Options.get_option.
  rewrite !(proj1 (Options.find_set_all _ _ _ Hnd)), Ht. unfold with_tries. rewrite !Options.find_set. simpl.
  f_equal. f_equal.
  - destruct (Options.last_set vs conditions) as [[]|]; try done. by destruct ec.
  - destruct (Options.last_set vs close_connection) as [[]|]; try done. by destruct ec.
Qed.

Example retry_three_times :
  get_first_retry (with_tries 3 (retry [connection_error])) 0 tt (tc_duration 9) tt
  = Some (retry_first_try 0 3 [connection_error] tt (tc_duration 9) tt).
Proof. reflexivity. Qed.
Example role_based_first :
  get_first_role_try (Options.set (role_based [master; replica]) close_connection (is_bool false)) 0 None tc_none tt
  = Some (RoleTry master [replica] false (BasicContext None tc_none tt)).
Proof. reflexivity. Qed.

End Strategies.
