(* ===== verification/PoolStorage.v ===== *)
(** * The cells of the resource pool: [detail/idle.hpp], [detail/storage.hpp],
    [handle.hpp]

    A storage keeps its cells in three lists and hands out list iterators.
    Splicing moves a cell between the lists without changing its iterator, so an
    iterator is modelled by the identity [cell_it] of the cell.  The clock
    [time_traits::now()] is an argument of the operations that read it. *)

From S2P Require Import Prelude Words Time.
#[local] Open Scope Z_scope.

Module Storage.

(** [idle<Value>] *)
Record idle (V : Type) := Idle {
  cell_it : nat;
  value : option V;
  drop_time : Z;
  reset_time : Z;
  waste_on_recycle : bool
}.
Arguments Idle {V} _ _ _ _ _.
Arguments cell_it {V} _.
Arguments value {V} _.
Arguments drop_time {V} _.
Arguments reset_time {V} _.
Arguments waste_on_recycle {V} _.

(** [storage<T>] *)
Record storage (V : Type) := MkStorage {
  idle_timeout_ : Z;
  lifespan_ : Z;
  available_ : list (idle V);
  used_ : list (idle V);
  wasted_ : list (idle V)
}.
Arguments MkStorage {V} _ _ _ _ _.
Arguments idle_timeout_ {V} _.
Arguments lifespan_ {V} _.
Arguments available_ {V} _.
Arguments used_ {V} _.
Arguments wasted_ {V} _.

Record storage_stats := StorageStats {
  st_available : nat;
  st_used : nat;
  st_wasted : nat
}.

Section storage.
Context {V : Type}.
Implicit Types (c : idle V) (l : list (idle V)) (s : storage V).

(** [cell.value.reset()] *)
Definition reset_value c : idle V :=
  Idle (cell_it c) None (drop_time c) (reset_time c) (waste_on_recycle c).

(** [cell.waste_on_recycle = b] *)
Definition set_waste_on_recycle (b : bool) c : idle V :=
  Idle (cell_it c) (value c) (drop_time c) (reset_time c) b.

(** [cell.drop_time = t] *)
Definition set_drop_time (t : Z) c : idle V :=
  Idle (cell_it c) (value c) t (reset_time c) (waste_on_recycle c).

Definition with_lists s (available used wasted : list (idle V)) : storage V :=
  MkStorage (idle_timeout_ s) (lifespan_ s) available used wasted.

(** A default constructed cell: no value, never to be dropped, reset at the
    epoch of the clock. *)
Definition default_cell (i : nat) : idle V := Idle i None i64_max 0 false.

(** [storage(capacity, idle_timeout, lifespan)] *)
Definition make_storage (capacity : nat) (idle_timeout lifespan : Z) : storage V :=
  MkStorage idle_timeout lifespan [] [] (default_cell <$> seq 0 capacity).

(** [storage(generator, capacity, idle_timeout, lifespan)] and
    [storage(begin, end, idle_timeout, lifespan)]: [values] are what the
    generator returns or the range holds. *)
Definition make_storage_of (now : Z) (values : list V) (idle_timeout lifespan : Z) : storage V :=
  let drop_time := Z.min (PoolTime.add now idle_timeout) (PoolTime.add now lifespan) in
  MkStorage idle_timeout lifespan
    (imap (fun i v => Idle i (Some v) drop_time now false) values) [] [].

(** [storage::stats()] *)
Definition storage_stats_of s : storage_stats :=
  StorageStats (length (available_ s)) (length (used_ s)) (length (wasted_ s)).

(** The loop of [storage::lease]: the first available cell that is not to be
    dropped yet, the cells after it, and the wasted cells with those dropped. *)
Fixpoint lease_available (now : Z) (available wasted : list (idle V)) :
    option (idle V) * list (idle V) * list (idle V) :=
  match available with
  | [] => (None, [], wasted)
  | candidate :: rest =>
      if now <? drop_time candidate then (Some candidate, rest, wasted)
      else lease_available now rest (wasted ++ [reset_value candidate])
  end.

(** [storage::lease()] *)
Definition lease (now : Z) s : option nat * storage V :=
  match lease_available now (available_ s) (wasted_ s) with
  | (Some candidate, available, wasted) =>
      (Some (cell_it candidate), with_lists s available (used_ s ++ [candidate]) wasted)
  | (None, available, []) => (None, with_lists s available (used_ s) [])
  | (None, available, result :: wasted) =>
      (Some (cell_it result),
       with_lists s available (used_ s ++ [set_waste_on_recycle false result]) wasted)
  end.

(** [storage::waste(cell)]: [None] when the iterator is not one of [used_],
    which is undefined behaviour of [splice]. *)
Definition waste (i : nat) s : option (storage V) :=
  '(cell, used) ← take_key cell_it i (used_ s);
  Some (with_lists s (available_ s) used (wasted_ s ++ [reset_value cell])).

Definition life_end s c : Z := PoolTime.add (reset_time c) (lifespan_ s).

(** [storage::recycle(cell)] *)
Definition recycle (now : Z) (i : nat) s : option (storage V) :=
  '(cell, used) ← take_key cell_it i (used_ s);
  if waste_on_recycle cell then waste i s
  else if life_end s cell <=? now then waste i s
  else
    let cell := set_drop_time (Z.min (PoolTime.add now (idle_timeout_ s)) (life_end s cell)) cell in
    Some (with_lists s (available_ s ++ [cell]) used (wasted_ s)).

(** [storage::is_valid(cell)] *)
Definition is_valid (now : Z) s c : bool :=
  if waste_on_recycle c then false
  else if life_end s c <=? now then false
  else true.

(** [storage::invalidate()] *)
Definition invalidate s : storage V :=
  with_lists s [] (set_waste_on_recycle true <$> used_ s)
    (wasted_ s ++ (reset_value <$> available_ s)).

(** A write through an iterator of a used cell, the other cells unchanged. *)
Definition update_used (i : nat) (f : idle V -> idle V) s : storage V :=
  with_lists s (available_ s)
    ((fun c => if decide (cell_it c = i) then f c else c) <$> used_ s) (wasted_ s).

Definition find_used (i : nat) s : option (idle V) := fst <$> take_key cell_it i (used_ s).

(** [handle::reset(res)] on the cell of the handle. *)
Definition store_value (now : Z) (v : V) c : idle V :=
  Idle (cell_it c) (Some v) (drop_time c) now (waste_on_recycle c).

(** ** The invariant of a storage of [capacity] cells *)

Definition cells s : list nat := cell_it <$> (available_ s ++ used_ s ++ wasted_ s).

(** An available cell may be leased: it is not marked for waste and it will be
    dropped before its resource has lived its lifespan. *)
Definition leasable s c : Prop :=
  waste_on_recycle c = false /\ drop_time c <= life_end s c.

Record storage_ok (capacity : nat) s : Prop := {
  ok_cells : cells s ≡ₚ seq 0 capacity;
  ok_available : Forall (leasable s) (available_ s);
  ok_wasted : Forall (fun c => value c = None) (wasted_ s)
}.

Lemma lease_available_spec now available wasted r av wa :
  lease_available now available wasted = (r, av, wa) ->
  exists dropped, wa = wasted ++ (reset_value <$> dropped)
    /\ Forall (fun c => drop_time c <= now) dropped
    /\ match r with
       | Some c => available = dropped ++ c :: av /\ now < drop_time c
       | None => available = dropped /\ av = []
       end.
Proof.
  revert wasted. induction available as [|c rest IH]; intros wasted E; simpl in E.
  - simplify_eq. exists []. by rewrite app_nil_r.
  - destruct (Z.ltb_spec now (drop_time c)).
    + simplify_eq. exists []. by rewrite app_nil_r.
    + apply IH in E as (dropped & -> & Hd & Hr). exists (c :: dropped).
      split; [by rewrite <- app_assoc|]. split; [by constructor|].
      destruct r; destruct Hr as [-> ?]; by split.
Qed.

Lemma cells_reset l : cell_it <$> (reset_value <$> l) = cell_it <$> l.
Proof. rewrite <- list_fmap_compose. by apply list_fmap_ext. Qed.

Lemma cells_marked b l : cell_it <$> (set_waste_on_recycle b <$> l) = cell_it <$> l.
Proof. rewrite <- list_fmap_compose. by apply list_fmap_ext. Qed.

Lemma cells_update i f l : (forall c, cell_it (f c) = cell_it c) ->
  cell_it <$> ((fun c => if decide (cell_it c = i) then f c else c) <$> l) = cell_it <$> l.
Proof.
  intros Hf. rewrite <- list_fmap_compose. apply list_fmap_ext. intros j c _. simpl.
  case_decide; by rewrite ?Hf.
Qed.

Lemma reset_all_None l : Forall (fun c => value c = None) (reset_value <$> l).
Proof. apply Forall_fmap, Forall_true. done. Qed.

Lemma make_storage_ok cap it ls : storage_ok cap (make_storage cap it ls : storage V).
Proof.
  split; simpl; [|by constructor|].
  - unfold cells. simpl. rewrite <- list_fmap_compose.
    by rewrite (list_fmap_ext _ id), list_fmap_id by done.
  - apply Forall_fmap, Forall_true. done.
Qed.

Lemma cells_imap (f : nat -> V -> idle V) values k : (forall i v, cell_it (f i v) = i) ->
  cell_it <$> imap (fun i v => f (k + i)%nat v) values = seq k (length values).
Proof.
  intros Hf. revert k. induction values as [|v vs IH]; intros k; [done|].
  rewrite imap_cons. cbn [fmap list_fmap length seq]. rewrite Hf, Nat.add_0_r. f_equal.
  rewrite <- (IH (S k)). f_equal. apply imap_ext. intros i x _. simpl. f_equal. lia.
Qed.

Lemma make_storage_of_ok now (values : list V) it ls :
  storage_ok (length values) (make_storage_of now values it ls).
Proof.
  split; simpl; [| |by constructor].
  - unfold cells. simpl. rewrite app_nil_r.
    by rewrite (cells_imap (fun i v => Idle i (Some v) _ now false) values 0).
  - apply Forall_lookup. intros i c. rewrite list_lookup_imap.
    destruct (values !! i); intros [= <-]. split; [done|]. unfold life_end. simpl. lia.
Qed.

(** What a leased cell is good for: it will be recycled unless the pool is
    invalidated meanwhile, and a value it holds is within its lifespan. *)
Definition live (now : Z) s c : Prop :=
  waste_on_recycle c = false /\ (value c = None \/ now < life_end s c).

Lemma lease_ok cap now s r s' : storage_ok cap s -> lease now s = (r, s') ->
  storage_ok cap s' /\
  match r with
  | Some i => exists c, used_ s' = used_ s ++ [c] /\ cell_it c = i /\ live now s' c
  | None => used_ s' = used_ s /\ available_ s' = [] /\ wasted_ s' = []
  end.
Proof.
  intros [Hc Ha Hw] E. unfold lease in E. unfold cells in Hc.
  destruct (lease_available now (available_ s) (wasted_ s)) as [[r0 av] wa] eqn:El.
  apply lease_available_spec in El as (dropped & -> & Hd & Hr).
  assert (Hw' : Forall (fun c => value c = None) (wasted_ s ++ (reset_value <$> dropped)))
    by (apply Forall_app; split; [done|apply reset_all_None]).
  destruct r0 as [c|].
  - simplify_eq. destruct Hr as [Hav Hdt]. rewrite Hav in Hc, Ha.
    apply Forall_app in Ha as [_ [[Hwr Hle] Hav']%Forall_cons]. split.
    + split; simpl; [|exact Hav'|exact Hw'].
      unfold cells. simpl. rewrite <- Hc, !fmap_app, cells_reset. simpl.
      solve_Permutation.
    + exists c. repeat split; [done|]. right. unfold life_end in *. simpl in *. lia.
  - destruct Hr as [<- ->].
    destruct (wasted_ s ++ (reset_value <$> available_ s)) as [|c wa] eqn:Ewa; simplify_eq.
    + split; [|done]. apply app_eq_nil in Ewa as [Ew Ed%fmap_nil_inv].
      split; simpl; [|by constructor|by constructor]. unfold cells. simpl.
      by rewrite <- Hc, Ed, Ew.
    + split; [split; simpl|].
      * unfold cells. simpl. rewrite <- Hc, !fmap_app.
        rewrite <- (cells_reset (available_ s)).
        transitivity ((cell_it <$> used_ s) ++ (cell_it <$> (c :: wa))); [simpl; solve_Permutation|].
        rewrite <- Ewa, fmap_app. solve_Permutation.
      * by constructor.
      * by apply Forall_cons in Hw' as [_ ?].
      * apply Forall_cons in Hw' as [Hv _]. eexists. split; [done|]. split; [done|].
        split; [done|]. by left.
Qed.

Lemma waste_ok cap i s : storage_ok cap s -> i ∈ cell_it <$> used_ s ->
  exists c s', waste i s = Some s' /\ storage_ok cap s' /\ cell_it c = i
    /\ used_ s ≡ₚ c :: used_ s' /\ available_ s' = available_ s
    /\ wasted_ s' = wasted_ s ++ [reset_value c].
Proof.
  intros [Hc Ha Hw] Hi. destruct (take_key_is_Some cell_it _ _ Hi) as [[c used] E].
  exists c, (with_lists s (available_ s) used (wasted_ s ++ [reset_value c])).
  unfold waste. rewrite E. split; [done|].
  pose proof (take_key_perm cell_it _ _ _ _ E) as Hp. destruct (take_key_spec cell_it _ _ _ _ E) as [Hit _].
  repeat split; simpl; try done.
  - unfold cells in *. simpl. rewrite <- Hc, !fmap_app, Hp. simpl. solve_Permutation.
  - apply Forall_app. split; [done|]. by constructor.
Qed.

Lemma recycle_ok cap now i s : storage_ok cap s -> i ∈ cell_it <$> used_ s ->
  exists c s', recycle now i s = Some s' /\ storage_ok cap s' /\ cell_it c = i
    /\ used_ s ≡ₚ c :: used_ s'.
Proof.
  intros Hok Hi. destruct (waste_ok _ _ _ Hok Hi) as (w & sw & Ew & Hwok & Hwit & Hwp & _).
  destruct Hok as [Hc Ha Hw]. destruct (take_key_is_Some cell_it _ _ Hi) as [[c used] E].
  unfold recycle. rewrite E. cbn.
  destruct (waste_on_recycle c) eqn:Ewr; [by exists w, sw|].
  destruct (life_end s c <=? now) eqn:El; [by exists w, sw|].
  pose proof (take_key_perm cell_it _ _ _ _ E) as Hp. destruct (take_key_spec cell_it _ _ _ _ E) as [Hit _].
  eexists c, _. split; [done|]. split; [|done]. split; simpl; [| |done].
  - unfold cells in *. simpl. rewrite <- Hc, !fmap_app, Hp. simpl. solve_Permutation.
  - apply Forall_app. split; [done|]. repeat constructor; [done|].
    unfold life_end. simpl. lia.
Qed.

Lemma invalidate_ok cap s : storage_ok cap s -> storage_ok cap (invalidate s).
Proof.
  intros [Hc Ha Hw]. split; simpl; [|by constructor|].
  - unfold cells in *. simpl. rewrite <- Hc, !fmap_app, cells_reset, cells_marked.
    solve_Permutation.
  - apply Forall_app. split; [done|]. apply reset_all_None.
Qed.

Lemma update_used_ok cap i f s : (forall c, cell_it (f c) = cell_it c) ->
  storage_ok cap s -> storage_ok cap (update_used i f s).
Proof.
  intros Hf [Hc Ha Hw]. split; simpl; [|done|done].
  unfold cells in *. simpl. by rewrite <- Hc, !fmap_app, cells_update.
Qed.

Lemma ok_sizes cap s : storage_ok cap s ->
  (st_available (storage_stats_of s) + st_used (storage_stats_of s)
   + st_wasted (storage_stats_of s))%nat = cap.
Proof.
  intros [Hc%Permutation_length _ _]. simpl.
  unfold cells in Hc. rewrite length_seq, length_fmap, !length_app in Hc. lia.
Qed.

Lemma ok_NoDup cap s : storage_ok cap s -> NoDup (cells s).
Proof. intros [Hc _ _]. rewrite Hc. apply NoDup_seq. Qed.

End storage.
End Storage.

(** ** Handles: [handle.hpp] *)
Module Handles.
Import Storage.

(** [handle::strategy]: the member function a handle returns its cell with. *)
Inductive strategy := UseRecycle | UseWaste.

(** [handle<T>]: [has_pool] is whether [_pool_impl] is set, and a default
    constructed handle has an indeterminate [_use_strategy]. *)
Record handle := Handle {
  has_pool : bool;
  use_strategy : option strategy;
  resource_it : option nat
}.

(** [error::empty_handle] and [error::unusable_handle] *)
Inductive handle_error := empty_handle | unusable_handle.

(** A call of [pool_returns::recycle] or [pool_returns::waste]. *)
Inductive returned := Recycled (i : nat) | Wasted (i : nat).
Definition returned_cell (r : returned) : nat :=
  match r with Recycled i | Wasted i => i end.

Definition default_handle : handle := Handle false None None.

(** [handle(pool_impl, use_strategy, resource_it)] *)
Definition make_handle (u : strategy) (i : nat) : handle := Handle true (Some u) (Some i).

Definition unusable (h : handle) : bool :=
  match resource_it h with Some _ => false | None => true end.

(** [handle::recycle()] and [handle::waste()] *)
Definition handle_recycle (h : handle) : outcome handle_error (handle * returned) :=
  match resource_it h with
  | None => Throw unusable_handle
  | Some i => Return (Handle (has_pool h) (use_strategy h) None, Recycled i)
  end.
Definition handle_waste (h : handle) : outcome handle_error (handle * returned) :=
  match resource_it h with
  | None => Throw unusable_handle
  | Some i => Return (Handle (has_pool h) (use_strategy h) None, Wasted i)
  end.

(** [if (!unusable()) (this->*_use_strategy)();]: [None] is the call of an
    indeterminate member pointer. *)
Definition use_if_usable (h : handle) : option (handle * list returned) :=
  if unusable h then Some (h, []) else
  u ← use_strategy h;
  match (match u with UseRecycle => handle_recycle h | UseWaste => handle_waste h end) with
  | Return (h', r) => Some (h', [r])
  | Throw _ => None
  end.

(** What a move leaves behind. *)
Definition moved_from (h : handle) : handle := Handle false (use_strategy h) None.

Section access.
Context {V : Type}.

(** [handle::empty()] *)
Definition empty (s : storage V) (h : handle) : bool :=
  match resource_it h with
  | None => true
  | Some i => match find_used i s ≫= value with Some _ => false | None => true end
  end.

(** [handle::get()] *)
Definition handle_get (s : storage V) (h : handle) : outcome handle_error V :=
  match resource_it h ≫= (fun i => find_used i s ≫= value) with
  | Some v => Return v
  | None => Throw empty_handle
  end.

(** [handle::reset(res)] *)
Definition handle_reset (now : Z) (v : V) (s : storage V) (h : handle) :
    outcome handle_error (storage V) :=
  match resource_it h with
  | None => Throw unusable_handle
  | Some i => Return (update_used i (store_value now v) s)
  end.

(** A value stored through a handle is the one the handle gives back, when it
    holds a cell in use. *)
Lemma handle_get_reset now v (s : storage V) (h : handle) i :
  resource_it h = Some i -> i ∈ cell_it <$> used_ s ->
  exists s', handle_reset now v s h = Return s' /\ handle_get s' h = Return v /\ empty s' h = false.
Proof.
  intros Hi Hin. unfold handle_reset, handle_get, empty. rewrite Hi.
  eexists. split; [done|]. cbn [mbind option_bind].
  assert (find_used i (update_used i (store_value now v) s) ≫= value = Some v) as ->; [|done].
  unfold find_used, update_used. simpl. induction (used_ s) as [|c l IH];
    [by apply elem_of_nil in Hin|]. simpl. destruct (decide (cell_it c = i)) as [Hc|Hc]; simpl.
  - by rewrite decide_True.
  - rewrite decide_False by done. rewrite fmap_cons in Hin. apply elem_of_cons in Hin as [->|Hin]; [done|].
    specialize (IH Hin). revert IH. change (list_fmap ?A ?B ?f ?l) with (f <$> l).
    match goal with |- context [take_key ?k ?j ?m] => by destruct (take_key k j m) as [[]|] end.
Qed.
End access.

(** The handle objects of a program by their address ([None]: no object lives
    there) and the calls their operations made to the pool. *)
Record objects := Objects {
  handles : list (option handle);
  returns : list returned
}.

Inductive handle_op :=
| New (x : nat) (u : strategy) (i : nat)
| MoveConstruct (x y : nat)
| Assign (x y : nat)
| Destroy (x : nat)
| CallRecycle (x : nat)
| CallWaste (x : nat).

Definition store (x : nat) (h : option handle) (o : objects) : objects :=
  Objects (<[x := h]> (handles o)) (returns o).
Definition log (rs : list returned) (o : objects) : objects :=
  Objects (handles o) (returns o ++ rs).
Definition object_at (x : nat) (o : objects) : option handle := mjoin (handles o !! x).
Definition is_free (x : nat) (o : objects) : bool :=
  match handles o !! x with Some None => true | _ => false end.

(** A member function that may throw: the object is unchanged when it does. *)
Definition call (f : handle -> outcome handle_error (handle * returned)) (x : nat) (o : objects) :
    option (objects * option handle_error) :=
  h ← object_at x o;
  match f h with
  | Return (h', r) => Some (log [r] (store x (Some h') o), None)
  | Throw e => Some (o, Some e)
  end.

(** [handle(handle&& other)] *)
Definition move_construct (x y : nat) (o : objects) : option objects :=
  h ← object_at y o;
  if is_free x o then Some (store y (Some (moved_from h)) (store x (Some h) o)) else None.

(** [handle::operator=(handle&& other)]: [x] and [y] may be the same object, so
    each member is read after the writes before it. *)
Definition assign (x y : nat) (o : objects) : option objects :=
  h ← object_at x o;
  '(h, rs) ← use_if_usable h;
  let o := log rs (store x (Some h) o) in
  other ← object_at y o;
  Some (store y (Some (moved_from other)) (store x (Some other) o)).

(** [~handle()] *)
Definition destroy (x : nat) (o : objects) : option objects :=
  h ← object_at x o;
  '(_, rs) ← use_if_usable h;
  Some (log rs (store x None o)).

(** One operation of a program; [None] when the program is not well formed (it
    uses an object that does not live, or constructs one over another). *)
Definition exec (a : handle_op) (o : objects) : option (objects * option handle_error) :=
  match a with
  | New x u i => if is_free x o then Some (store x (Some (make_handle u i)) o, None) else None
  | MoveConstruct x y => o ← move_construct x y o; Some (o, None)
  | Assign x y => o ← assign x y o; Some (o, None)
  | Destroy x => o ← destroy x o; Some (o, None)
  | CallRecycle x => call handle_recycle x o
  | CallWaste x => call handle_waste x o
  end.

Fixpoint exec_all (p : list handle_op) (o : objects) : option objects :=
  match p with
  | [] => Some o
  | a :: p => '(o, _) ← exec a o; exec_all p o
  end.

(** The cells that a program's handles were constructed with. *)
Definition acquired (p : list handle_op) : list nat :=
  omap (fun a => match a with New _ _ i => Some i | _ => None end) p.

(** The cells the living handles hold. *)
Definition held (o : objects) : list nat :=
  omap (fun h => h ≫= resource_it) (handles o).

Definition cell_of (h : option handle) : list nat := option_list (h ≫= resource_it).

(** Handles are usable only with a pool and a strategy to return their cell. *)
Definition strategy_set (h : handle) : Prop :=
  is_Some (resource_it h) -> is_Some (use_strategy h) /\ has_pool h = true.

Definition objects_ok (o : objects) : Prop :=
  Forall (fun h => match h with Some h => strategy_set h | None => True end) (handles o).

Lemma held_store x h h' o : handles o !! x = Some h ->
  cell_of h' ++ held o ≡ₚ cell_of h ++ held (store x h' o).
Proof. intros E. exact (omap_insert_perm (fun h => h ≫= resource_it) _ x h h' E). Qed.

Lemma object_at_lookup x o h : object_at x o = Some h -> handles o !! x = Some (Some h).
Proof. unfold object_at. destruct (handles o !! x) as [[]|]; simpl; congruence. Qed.

Lemma is_free_lookup x o : is_free x o = true -> handles o !! x = Some None.
Proof. unfold is_free. destruct (handles o !! x) as [[]|]; done. Qed.

Lemma use_if_usable_spec h h' rs : use_if_usable h = Some (h', rs) ->
  resource_it h' = None /\ use_strategy h' = use_strategy h
  /\ returned_cell <$> rs = option_list (resource_it h).
Proof.
  unfold use_if_usable, unusable, handle_recycle, handle_waste.
  destruct (resource_it h) as [i|] eqn:E; [|intros [= <- <-]; by rewrite E].
  destruct (use_strategy h) as [[]|] eqn:Eu; intros H; simplify_eq/=; by rewrite ?Eu.
Qed.

(** Cells returned and cells held. *)
Definition accounted (o : objects) : list nat := (returned_cell <$> returns o) ++ held o.

Lemma accounted_log rs o : accounted (log rs o) ≡ₚ (returned_cell <$> rs) ++ accounted o.
Proof. unfold accounted, log, held. simpl. rewrite fmap_app. solve_Permutation. Qed.

Lemma accounted_store x h h' o : handles o !! x = Some h ->
  cell_of h' ++ accounted o ≡ₚ cell_of h ++ accounted (store x h' o).
Proof.
  intros E. unfold accounted. pose proof (held_store x h h' o E) as Hp.
  transitivity ((returned_cell <$> returns o) ++ (cell_of h' ++ held o)); [solve_Permutation|].
  rewrite Hp. simpl. solve_Permutation.
Qed.

Lemma store_lookup x h o k : handles o !! x = Some k -> handles (store x h o) !! x = Some h.
Proof. intros E. simpl. apply list_lookup_insert_eq, lookup_lt_is_Some. by eexists. Qed.

Lemma objects_ok_store x h o : objects_ok o ->
  match h with Some h => strategy_set h | None => True end -> objects_ok (store x h o).
Proof. intros Ho Hh. unfold objects_ok. simpl. by apply Forall_insert. Qed.

Lemma objects_ok_at x o h : objects_ok o -> object_at x o = Some h -> strategy_set h.
Proof.
  intros Ho E%object_at_lookup. unfold objects_ok in Ho. rewrite Forall_lookup in Ho.
  exact (Ho _ _ E).
Qed.

Lemma no_cell h : resource_it h = None -> cell_of (Some h) = [].
Proof. intros E. unfold cell_of. simpl. by rewrite E. Qed.

Lemma strategy_set_none h : resource_it h = None -> strategy_set h.
Proof. intros E [? E']. congruence. Qed.

(** Using up the cell of a living handle keeps the account. *)
Lemma accounted_use x o h h' rs : object_at x o = Some h -> use_if_usable h = Some (h', rs) ->
  forall k, cell_of k = [] -> accounted (log rs (store x k o)) ≡ₚ accounted o.
Proof.
  intros E%object_at_lookup (_ & _ & Hrs)%use_if_usable_spec k Hk.
  rewrite accounted_log, Hrs. pose proof (accounted_store x _ k o E) as Hp.
  rewrite Hk in Hp. symmetry. exact Hp.
Qed.

Lemma accounted_call f x o o' e :
  (forall h h' r, f h = Return (h', r) ->
     resource_it h = Some (returned_cell r) /\ resource_it h' = None) ->
  objects_ok o -> call f x o = Some (o', e) -> accounted o' ≡ₚ accounted o /\ objects_ok o'.
Proof.
  intros Hf Ho E. unfold call in E. destruct (object_at x o) as [h|] eqn:Eh; simplify_eq/=.
  destruct (f h) as [[h' r]|] eqn:Ef; simplify_eq; [|done].
  destruct (Hf _ _ _ Ef) as [Hr Hn]. split.
  - rewrite accounted_log. apply object_at_lookup in Eh.
    pose proof (accounted_store x _ (Some h') o Eh) as Hp.
    rewrite no_cell in Hp by done. rewrite Hp. unfold cell_of. simpl. by rewrite Hr.
  - apply (objects_ok_store x (Some h')); [done|]. by apply strategy_set_none.
Qed.

Lemma accounted_move_construct x y o o' : objects_ok o -> move_construct x y o = Some o' ->
  accounted o' ≡ₚ accounted o /\ objects_ok o'.
Proof.
  intros Ho E. unfold move_construct in E. destruct (object_at y o) as [h|] eqn:Eh; simplify_eq/=.
  destruct (is_free x o) eqn:Ex; simplify_eq. pose proof (objects_ok_at _ _ _ Ho Eh) as Hs.
  apply is_free_lookup in Ex. apply object_at_lookup in Eh. split.
  - pose proof (accounted_store x _ (Some h) o Ex) as H1. simpl in H1.
    assert (Ey : handles (store x (Some h) o) !! y = Some (Some h)).
    { simpl. rewrite list_lookup_insert_ne; [done|]. intros ->. congruence. }
    pose proof (accounted_store y _ (Some (moved_from h)) _ Ey) as H2.
    rewrite no_cell in H2 by done. simpl in H2. rewrite <- H1 in H2.
    apply (Permutation_app_inv_l (cell_of (Some h))). by rewrite <- H2.
  - apply objects_ok_store; [by apply (objects_ok_store x (Some h))|]. by apply strategy_set_none.
Qed.

Lemma accounted_assign x y o o' : objects_ok o -> assign x y o = Some o' ->
  accounted o' ≡ₚ accounted o /\ objects_ok o'.
Proof.
  intros Ho E. unfold assign in E. destruct (object_at x o) as [h|] eqn:Eh; simplify_eq/=.
  destruct (use_if_usable h) as [[h1 rs]|] eqn:Eu; simplify_eq/=.
  destruct (use_if_usable_spec _ _ _ Eu) as (Hn & _ & _).
  set (o1 := log rs (store x (Some h1) o)) in *.
  destruct (object_at y o1) as [other|] eqn:Ey; simplify_eq/=.
  assert (Ho1 : objects_ok o1)
    by (apply (objects_ok_store x (Some h1)); [done|by apply strategy_set_none]).
  pose proof (accounted_use x o h h1 rs Eh Eu (Some h1) (no_cell _ Hn)) as H1. fold o1 in H1.
  assert (Ex : handles o1 !! x = Some (Some h1))
    by (apply (store_lookup x (Some h1) o (Some h)), object_at_lookup, Eh).
  pose proof (objects_ok_at _ _ _ Ho1 Ey) as Hs. apply object_at_lookup in Ey. split.
  - rewrite <- H1. destruct (decide (x = y)) as [->|Hxy].
    + replace (Some other) with (Some h1) by congruence.
      assert (Eo : store y (Some (moved_from other)) (store y (Some h1) o1)
                   = store y (Some (moved_from other)) o1)
        by (unfold store; simpl; by rewrite list_insert_insert_eq).
      rewrite Eo. pose proof (accounted_store y _ (Some (moved_from other)) o1 Ex) as H2.
      rewrite !no_cell in H2 by done. by symmetry.
    + pose proof (accounted_store x _ (Some other) o1 Ex) as H2.
      rewrite (no_cell h1) in H2 by done.
      assert (Ey' : handles (store x (Some other) o1) !! y = Some (Some other))
        by (simpl; by rewrite list_lookup_insert_ne).
      pose proof (accounted_store y _ (Some (moved_from other)) _ Ey') as H3.
      rewrite (no_cell (moved_from other)) in H3 by done.
      apply (Permutation_app_inv_l (cell_of (Some other))). rewrite <- H3, H2. done.
  - apply objects_ok_store; [by apply (objects_ok_store x (Some other))|].
    by apply strategy_set_none.
Qed.

Lemma accounted_exec a o o' e : objects_ok o -> exec a o = Some (o', e) ->
  accounted o' ≡ₚ acquired [a] ++ accounted o /\ objects_ok o'.
Proof.
  intros Ho E. destruct a as [x u i|x y|x y|x|x|x]; simpl in E.
  - destruct (is_free x o) eqn:Ex; simplify_eq. apply is_free_lookup in Ex. split.
    + by rewrite <- (accounted_store x None (Some (make_handle u i)) o Ex).
    + apply objects_ok_store; [done|]. by split; [eexists|].
  - destruct (move_construct x y o) eqn:Em; simplify_eq/=. by eapply accounted_move_construct.
  - destruct (assign x y o) eqn:Em; simplify_eq/=. by eapply accounted_assign.
  - unfold destroy in E. destruct (object_at x o) as [h|] eqn:Eh; simplify_eq/=.
    destruct (use_if_usable h) as [[h' rs]|] eqn:Eu; simplify_eq/=. split.
    + by eapply accounted_use.
    + by apply (objects_ok_store x None).
  - eapply accounted_call; [|done|exact E]. intros h h' r. unfold handle_recycle.
    destruct (resource_it h); intros; by simplify_eq/=.
  - eapply accounted_call; [|done|exact E]. intros h h' r. unfold handle_waste.
    destruct (resource_it h); intros; by simplify_eq/=.
Qed.

Lemma accounted_exec_all p o o' : objects_ok o -> exec_all p o = Some o' ->
  accounted o' ≡ₚ acquired p ++ accounted o /\ objects_ok o'.
Proof.
  revert o. induction p as [|a p IH]; intros o Ho E; simpl in E; [by simplify_eq|].
  destruct (exec a o) as [[o1 e]|] eqn:Ea; simplify_eq/=.
  destruct (accounted_exec _ _ _ _ Ho Ea) as [H1 Ho1].
  destruct (IH o1 Ho1 E) as [H2 Ho']. split; [|done]. rewrite H2, H1.
  unfold acquired. simpl. destruct a; simpl; solve_Permutation.
Qed.

(** A living handle can always be destroyed: the member pointer its destructor
    calls is set whenever it holds a cell. *)
Lemma destroy_total x o h : objects_ok o -> object_at x o = Some h -> is_Some (destroy x o).
Proof.
  intros Ho E. pose proof (objects_ok_at _ _ _ Ho E) as Hs. unfold destroy. rewrite E. simpl.
  unfold use_if_usable, unusable, handle_recycle, handle_waste, strategy_set in *.
  destruct (resource_it h) as [i|] eqn:Ei; [|by eexists].
  destruct Hs as [[u ->] _]; [by eexists|]. destruct u; simpl; by eexists.
Qed.

(** C27: whatever a program does with its handles (moves, assignments,
    self-assignment, explicit [recycle] and [waste], destruction), the cells it was
    given are exactly the ones returned to the pool and the ones its living handles
    hold, each once; every living handle can be destroyed, and when none is left
    every cell was returned exactly once. *)
Theorem handles_return_cells_once (p : list handle_op) (n : nat) (o : objects) :
  exec_all p (Objects (replicate n None) []) = Some o ->
  (returned_cell <$> returns o) ++ held o ≡ₚ acquired p
  /\ (forall x h, object_at x o = Some h -> is_Some (destroy x o))
  /\ (Forall (fun h => h = None) (handles o) -> returned_cell <$> returns o ≡ₚ acquired p).
Proof.
  intros E. assert (Hh : forall l, Forall (fun h => h = None) l ->
    omap (fun h : option handle => h ≫= resource_it) l = []).
  { intros l Hl. induction Hl as [|? l -> _ IH]; [done|]. exact IH. }
  assert (Hr : Forall (fun h : option handle => h = None) (replicate n None))
    by (by apply Forall_replicate).
  assert (Ho0 : objects_ok (Objects (replicate n None) [])) by (by apply Forall_replicate).
  destruct (accounted_exec_all p _ _ Ho0 E) as [Hp Ho].
  unfold accounted, held in Hp. simpl in Hp. rewrite (Hh _ Hr), !app_nil_r in Hp.
  split; [exact Hp|]. split; [intros x h; by apply destroy_total|].
  intros Hn. by rewrite (Hh _ Hn), app_nil_r in Hp.
Qed.

Lemma handles_return_cells_once_witness :
  let p := [New 0 UseRecycle 7; New 1 UseWaste 9; MoveConstruct 2 0; Assign 1 2; Assign 1 1;
            CallRecycle 1; Destroy 0; Destroy 1; Destroy 2] in
  exec_all p (Objects (replicate 3 None) [])
    = Some (Objects [None; None; None] [Wasted 9; Recycled 7])
  /\ returned_cell <$> [Wasted 9; Recycled 7] ≡ₚ acquired p.
Proof.
  intros p. split; [vm_compute; reflexivity|].
  assert (E : exec_all p (Objects (replicate 3 None) [])
    = Some (Objects [None; None; None] [Wasted 9; Recycled 7])) by (vm_compute; reflexivity).
  apply (handles_return_cells_once p 3 _ E). repeat constructor.
Defined.

End Handles.
