(* ===== verification/PoolQueue.v ===== *)
(** * The queue of waiting requests: [async/detail/queue.hpp]

    The queue keeps its requests in a list in the order they came, in a multimap
    by the time they expire, and reuses the nodes of served requests; the
    entries of the multimap point to nodes of the list.  It implements a bounded
    first-in first-out queue whose requests expire: the class [RequestQueue] is
    that contract, which is what the pool is parameterised by ([class Queue]). *)

From stdpp Require Import gmap sorting.
From S2P Require Import Prelude Words Time.
#[local] Open Scope Z_scope.

Module PoolQueue.

(** An executor, and the execution context [context_of] it. *)
Record executor := Executor { ex_id : nat; context_of : nat }.

(** [queued_value<Value, Executor>] with the time the request expires at. *)
Record queued (R : Type) := Queued {
  qd_executor : executor;
  qd_request : R;
  qd_expires_at : Z
}.
Arguments Queued {R} _ _ _.
Arguments qd_executor {R} _.
Arguments qd_request {R} _.
Arguments qd_expires_at {R} _.

(** ** The contract *)
Class RequestQueue (R Q : Type) := {
  rq_ok : Q -> Prop;
  rq_items : Q -> list (queued R);
  rq_capacity : Q -> nat;
  rq_make : nat -> Q;
  rq_push : Z -> executor -> Z -> R -> Q -> option (bool * Q);
  rq_pop : Q -> option (option (R * executor) * Q);
  rq_cancel : bool -> Z -> Q -> option (list (executor * R) * Q);
  rq_make_law n : rq_ok (rq_make n) /\ rq_items (rq_make n) = [] /\ rq_capacity (rq_make n) = n;
  rq_bound q : rq_ok q -> (length (rq_items q) <= rq_capacity q)%nat;
  rq_push_law now ex wait r q : rq_ok q ->
    if decide (length (rq_items q) < rq_capacity q)%nat then
      exists q', rq_push now ex wait r q = Some (true, q') /\ rq_ok q'
        /\ rq_items q' = rq_items q ++ [Queued ex r (PoolTime.add now wait)]
        /\ rq_capacity q' = rq_capacity q
    else rq_push now ex wait r q = Some (false, q);
  rq_pop_law q : rq_ok q ->
    match rq_items q with
    | [] => rq_pop q = Some (None, q)
    | i :: is_ =>
        exists q', rq_pop q = Some (Some (qd_request i, qd_executor i), q') /\ rq_ok q'
          /\ rq_items q' = is_ /\ rq_capacity q' = rq_capacity q
    end;
  rq_cancel_law t q : rq_ok q ->
    exists posted q', rq_cancel false t q = Some (posted, q') /\ rq_ok q'
      /\ posted ≡ₚ (fun i => (qd_executor i, qd_request i))
                     <$> filter (fun i => qd_expires_at i <= t) (rq_items q)
      /\ rq_items q' = filter (fun i => ~ qd_expires_at i <= t) (rq_items q)
      /\ rq_capacity q' = rq_capacity q;
  rq_cancel_aborted t q : rq_cancel true t q = Some ([], q)
}.

(** ** The implementation *)

(** [expiring_request]: [node_at] is its address, which is also [order_it];
    [node_expires_at] is the key of [expires_at_it]. *)
Record expiring_request (R : Type) := Node {
  node_at : nat;
  node_executor : executor;
  node_request : R;
  node_expires_at : Z
}.
Arguments Node {R} _ _ _ _.
Arguments node_at {R} _.
Arguments node_executor {R} _.
Arguments node_request {R} _.
Arguments node_expires_at {R} _.

(** [queue]: [requests_pool] holds the addresses of the spare nodes (their
    contents are moved-from), [next_address] the first address never used,
    [timers] the time each context's timer is set to. *)
Record queue (R : Type) := Queue {
  capacity : nat;
  requests_pool : list nat;
  ordered_requests : list (expiring_request R);
  expires_at_requests : list (Z * nat);
  timers : gmap nat Z;
  next_address : nat
}.
Arguments Queue {R} _ _ _ _ _ _.
Arguments capacity {R} _.
Arguments requests_pool {R} _.
Arguments ordered_requests {R} _.
Arguments expires_at_requests {R} _.
Arguments timers {R} _.
Arguments next_address {R} _.

(** [std::multimap::insert]: after the entries of the same key. *)
Fixpoint multimap_insert (k : Z) (a : nat) (m : list (Z * nat)) : list (Z * nat) :=
  match m with
  | [] => [(k, a)]
  | (k', a') :: m => if k <? k' then (k, a) :: (k', a') :: m else (k', a') :: multimap_insert k a m
  end.

(** [std::multimap::erase] of the entry that points to a node. *)
Fixpoint multimap_erase (a : nat) (m : list (Z * nat)) : list (Z * nat) :=
  match m with
  | [] => []
  | (k, a') :: m => if decide (a' = a) then m else (k, a') :: multimap_erase a m
  end.

(** The entries before and from [upper_bound(k)]. *)
Fixpoint upper_bound (k : Z) (m : list (Z * nat)) : list (Z * nat) * list (Z * nat) :=
  match m with
  | [] => ([], [])
  | (k', a) :: m =>
      if k <? k' then ([], (k', a) :: m)
      else let '(before, from) := upper_bound k m in ((k', a) :: before, from)
  end.

Section queue.
Context {R : Type}.
Implicit Types (q : queue R) (n : expiring_request R) (l : list (expiring_request R)).

Definition make_queue (cap : nat) : queue R := Queue cap [] [] [] ∅ 0.

(** [queue::size()] and [queue::empty()] *)
Definition size q : nat := length (expires_at_requests q).
Definition empty q : bool := match ordered_requests q with [] => true | _ => false end.

Definition fit_capacity q : bool := (size q <? capacity q)%nat.

Definition set_timers q (t : gmap nat Z) : queue R :=
  Queue (capacity q) (requests_pool q) (ordered_requests q) (expires_at_requests q) t
    (next_address q).

(** [queue::update_timer()]: [None] would be a dangling entry of the multimap. *)
Definition update_timer q : option (queue R) :=
  match expires_at_requests q with
  | [] => Some (set_timers q ∅)
  | (expires_at, a) :: _ =>
      '(n, _) ← take_key node_at a (ordered_requests q);
      Some (set_timers q (<[context_of (node_executor n) := expires_at]> (timers q)))
  end.

(** [queue::push(executor, wait_duration, request)] *)
Definition push (now : Z) (ex : executor) (wait : Z) (request : R) q : option (bool * queue R) :=
  if fit_capacity q then
    let '(pool, next) :=
      match requests_pool q with
      | [] => ([next_address q], S (next_address q))
      | pool => (pool, next_address q)
      end in
    match pool with
    | [] => None
    | order_it :: pool =>
        let expires_at := PoolTime.add now wait in
        q ← update_timer
              (Queue (capacity q) pool
                 (ordered_requests q ++ [Node order_it ex request expires_at])
                 (multimap_insert expires_at order_it (expires_at_requests q)) (timers q) next);
        Some (true, q)
    end
  else Some (false, q).

(** [queue::pop()] *)
Definition pop q : option (option (R * executor) * queue R) :=
  match ordered_requests q with
  | [] => Some (None, q)
  | req :: rest =>
      q ← update_timer
            (Queue (capacity q) (node_at req :: requests_pool q) rest
               (multimap_erase (node_at req) (expires_at_requests q)) (timers q) (next_address q));
      Some (Some (node_request req, node_executor req), q)
  end.

(** The loop of [queue::cancel]: the requests posted, the list of requests and
    the pool of nodes after it. *)
Fixpoint cancel_entries (entries : list (Z * nat)) l (pool : list nat) :
    option (list (executor * R) * list (expiring_request R) * list nat) :=
  match entries with
  | [] => Some ([], l, pool)
  | (_, a) :: entries =>
      '(req, l) ← take_key node_at a l;
      '(posted, l, pool) ← cancel_entries entries l (a :: pool);
      Some ((node_executor req, node_request req) :: posted, l, pool)
  end.

(** [queue::cancel(ec, expires_at)] *)
Definition cancel (ec : bool) (expires_at : Z) q : option (list (executor * R) * queue R) :=
  if ec then Some ([], q) else
  let '(before, from) := upper_bound expires_at (expires_at_requests q) in
  '(posted, l, pool) ← cancel_entries before (ordered_requests q) (requests_pool q);
  q ← update_timer (Queue (capacity q) pool l from (timers q) (next_address q));
  Some (posted, q).

(** ** The invariant *)

Definition entry n : Z * nat := (node_expires_at n, node_at n).
Definition item n : queued R := Queued (node_executor n) (node_request n) (node_expires_at n).
Definition items q : list (queued R) := item <$> ordered_requests q.

(** The timer of the context of the request that expires first is set to the
    time it expires at, or there is no request and no timer. *)
Definition timer_ok q : Prop :=
  match expires_at_requests q with
  | [] => timers q = ∅
  | (k, a) :: _ => exists n, n ∈ ordered_requests q /\ node_at n = a
      /\ timers q !! context_of (node_executor n) = Some k
  end.

Definition keys_sorted (m : list (Z * nat)) : Prop := StronglySorted (fun x y => x.1 <= y.1) m.

(** All of the invariant but the timer. *)
Record lists_ok q : Prop := {
  ok_sorted : keys_sorted (expires_at_requests q);
  ok_entries : expires_at_requests q ≡ₚ entry <$> ordered_requests q;
  ok_addresses : NoDup ((node_at <$> ordered_requests q) ++ requests_pool q);
  ok_next : Forall (fun a => (a < next_address q)%nat)
              ((node_at <$> ordered_requests q) ++ requests_pool q);
  ok_capacity : (length (ordered_requests q) <= capacity q)%nat
}.

Definition queue_ok q : Prop := lists_ok q /\ timer_ok q.

(** [update_timer] restores the invariant of the timers. *)
Lemma update_timer_ok q : lists_ok q ->
  exists t, update_timer q = Some (set_timers q t) /\ queue_ok (set_timers q t).
Proof.
  intros Hok. unfold update_timer.
  destruct (expires_at_requests q) as [|[k a] m] eqn:Em.
  - exists ∅. split; [done|]. split; [by destruct Hok|]. unfold timer_ok. simpl. by rewrite Em.
  - assert (Ha : a ∈ node_at <$> ordered_requests q).
    { assert (He : (k, a) ∈ entry <$> ordered_requests q)
        by (rewrite <- (ok_entries _ Hok), Em; left).
      apply list_elem_of_fmap in He as (n & Hn & Hin). apply list_elem_of_fmap.
      exists n. split; [|done]. unfold entry in Hn. congruence. }
    destruct (take_key_is_Some node_at _ _ Ha) as [[n l] E]. rewrite E. simpl.
    eexists. split; [done|]. split; [by destruct Hok|]. unfold timer_ok. simpl. rewrite Em.
    apply take_key_spec in E as (Hn & l1 & l2 & -> & _).
    exists n. split; [set_solver|]. split; [done|]. by rewrite lookup_insert_eq.
Qed.

(** ** The multimap *)

Lemma multimap_insert_perm k a m : multimap_insert k a m ≡ₚ (k, a) :: m.
Proof.
  induction m as [|[k' a'] m IH]; [done|]. simpl. destruct (k <? k'); [done|].
  rewrite IH. solve_Permutation.
Qed.

Lemma multimap_insert_sorted k a m : keys_sorted m -> keys_sorted (multimap_insert k a m).
Proof.
  intros Hs. induction Hs as [|[k' a'] m Hs IH Hf]; simpl; [repeat constructor|].
  destruct (Z.ltb_spec k k').
  - constructor; [by constructor|]. constructor; [simpl; lia|].
    eapply Forall_impl; [exact Hf|]. simpl. intros. lia.
  - constructor; [done|]. rewrite multimap_insert_perm. constructor; [simpl; lia|done].
Qed.

Lemma multimap_erase_sublist a m : multimap_erase a m `sublist_of` m.
Proof.
  induction m as [|[k a'] m IH]; simpl; [done|].
  case_decide; [by apply sublist_cons|by apply sublist_skip].
Qed.

Lemma multimap_erase_perm n l m : NoDup (node_at <$> n :: l) -> m ≡ₚ entry <$> n :: l ->
  multimap_erase (node_at n) m ≡ₚ entry <$> l.
Proof.
  intros Hnd Hp.
  assert (Ha : NoDup (snd <$> m)).
  { rewrite Hp, <- list_fmap_compose. exact Hnd. }
  assert (Hi : (node_expires_at n, node_at n) ∈ m) by (rewrite Hp; left).
  assert (He : forall k a, (k, a) ∈ m -> NoDup (snd <$> m) -> m ≡ₚ (k, a) :: multimap_erase a m).
  { clear. intros k a. induction m as [|[k' a'] m IH]; intros Hi Ha; [by apply elem_of_nil in Hi|].
    simpl. apply NoDup_cons in Ha as [Hn Ha]. apply elem_of_cons in Hi as [Hi|Hi].
    - simplify_eq. by rewrite decide_True.
    - rewrite decide_False; [rewrite (IH Hi Ha) at 1; solve_Permutation|].
      intros ->. apply Hn. apply list_elem_of_fmap. by exists (k, a). }
  apply (Permutation_cons_inv (a := entry n)). rewrite <- (He _ _ Hi Ha). exact Hp.
Qed.

Lemma keys_sorted_sublist m1 m2 : m1 `sublist_of` m2 -> keys_sorted m2 -> keys_sorted m1.
Proof.
  intros Hs. induction Hs as [|x m1 m2 Hs IH|x m1 m2 Hs IH]; [done| |];
    intros [H Hf]%StronglySorted_inv.
  - constructor; [by apply IH|]. rewrite Forall_forall in *. intros y Hy.
    apply Hf. by eapply elem_of_sublist.
  - by apply IH.
Qed.

Lemma upper_bound_spec k m before from : keys_sorted m -> upper_bound k m = (before, from) ->
  m = before ++ from /\ Forall (fun e => e.1 <= k) before /\ Forall (fun e => k < e.1) from.
Proof.
  intros Hs. revert before. induction Hs as [|[k' a] m Hs IH Hf]; intros before E; simpl in E.
  - by simplify_eq.
  - destruct (Z.ltb_spec k k').
    + simplify_eq. split; [done|]. split; [done|]. constructor; [done|].
      eapply Forall_impl; [exact Hf|]. simpl. intros. lia.
    + destruct (upper_bound k m) as [b f]. simplify_eq.
      destruct (IH b eq_refl) as (-> & Hb & Hfr). split; [done|]. split; [|done]. by constructor.
Qed.

(** The entries that have expired, and those that have not. *)
Lemma expired_entries t before from l : before ++ from ≡ₚ entry <$> l ->
  Forall (fun e => e.1 <= t) before -> Forall (fun e => t < e.1) from ->
  before ≡ₚ entry <$> filter (fun n => node_expires_at n <= t) l
  /\ from ≡ₚ entry <$> filter (fun n => ~ node_expires_at n <= t) l.
Proof.
  intros Hp Hb Hf.
  assert (Hb1 : filter (fun e : Z * nat => e.1 <= t) (before ++ from) = before).
  { rewrite filter_app, (list_filter_all _ before), (list_filter_none _ from); [apply app_nil_r| |done].
    eapply Forall_impl; [exact Hf|]. simpl. intros. lia. }
  assert (Hf1 : filter (fun e : Z * nat => ~ e.1 <= t) (before ++ from) = from).
  { rewrite filter_app, (list_filter_none _ before), (list_filter_all _ from); [done| |].
    - eapply Forall_impl; [exact Hf|]. simpl. intros. lia.
    - eapply Forall_impl; [exact Hb|]. simpl. intros. lia. }
  split.
  - by rewrite <- Hb1, Hp, list_filter_fmap at 1.
  - by rewrite <- Hf1, Hp, list_filter_fmap at 1.
Qed.

Lemma cancel_entries_spec t entries l pool :
  entries ≡ₚ entry <$> filter (fun n => node_expires_at n <= t) l ->
  NoDup (node_at <$> l) ->
  exists posted pool', cancel_entries entries l pool
      = Some (posted, filter (fun n => ~ node_expires_at n <= t) l, pool')
    /\ posted ≡ₚ (fun n => (node_executor n, node_request n))
                    <$> filter (fun n => node_expires_at n <= t) l
    /\ (node_at <$> filter (fun n => ~ node_expires_at n <= t) l) ++ pool'
        ≡ₚ (node_at <$> l) ++ pool.
Proof.
  revert l pool. induction entries as [|[k a] entries IH]; intros l pool Hp Hnd; simpl.
  - apply Permutation_nil_l, symmetry, fmap_nil_inv in Hp. rewrite Hp.
    assert (Hl : filter (fun n => ~ node_expires_at n <= t) l = l).
    { apply list_filter_all. apply Forall_forall. intros n Hn Hle.
      assert (Hn' : n ∈ filter (fun n => node_expires_at n <= t) l)
        by (by apply list_elem_of_filter). rewrite Hp in Hn'. by apply elem_of_nil in Hn'. }
    rewrite Hl. by eexists _, _.
  - assert (He : (k, a) ∈ entry <$> filter (fun n => node_expires_at n <= t) l)
      by (rewrite <- Hp; left).
    apply list_elem_of_fmap in He as (n & [= -> ->] & [Hle Hin]%list_elem_of_filter).
    destruct (take_key_is_Some node_at (node_at n) l) as [[n' l'] E];
      [apply list_elem_of_fmap; by exists n|].
    rewrite E. simpl. apply take_key_spec in E as (Ha & l1 & l2 & -> & ->).
    assert (n' = n) as ->.
    { rewrite fmap_app, fmap_cons in Hnd. apply NoDup_app in Hnd as (_ & Hd & [Hc _]%NoDup_cons).
      apply elem_of_app in Hin as [Hin|[->|Hin]%elem_of_cons]; [|done|].
      - exfalso. apply (Hd (node_at n)); [by apply list_elem_of_fmap_2|]. rewrite Ha. left.
      - exfalso. apply Hc. rewrite Ha. by apply list_elem_of_fmap_2. }
    rewrite filter_app, filter_cons_True in Hp by done.
    rewrite fmap_app, fmap_cons, <- Permutation_middle in Hp. apply Permutation_cons_inv in Hp.
    rewrite <- fmap_app, <- filter_app in Hp.
    rewrite fmap_app, fmap_cons, <- Permutation_middle in Hnd.
    apply NoDup_cons in Hnd as [_ Hnd]. rewrite <- fmap_app in Hnd.
    destruct (IH (l1 ++ l2) (node_at n :: pool) Hp Hnd) as (posted & pool' & -> & Hpo & Hpl).
    simpl. rewrite !filter_app, filter_cons_False, filter_cons_True by (simpl; lia).
    rewrite !filter_app in *. eexists _, _. split; [done|]. split.
    + rewrite Hpo, !fmap_app. simpl. solve_Permutation.
    + rewrite Hpl, !fmap_app. simpl. solve_Permutation.
Qed.

(** ** The operations keep the invariant and do what the contract says *)

Lemma size_items q : queue_ok q -> size q = length (items q).
Proof.
  intros [[_ He _ _ _] _]. unfold size, items. by rewrite He, !length_fmap.
Qed.

Lemma push_accepts now ex wait r q : queue_ok q -> (length (items q) < capacity q)%nat ->
  exists q', push now ex wait r q = Some (true, q') /\ queue_ok q'
    /\ items q' = items q ++ [Queued ex r (PoolTime.add now wait)] /\ capacity q' = capacity q.
Proof.
  intros Hq Hlt. unfold push, fit_capacity. rewrite (size_items q Hq).
  destruct (Nat.ltb_spec (length (items q)) (capacity q)); [|lia].
  destruct Hq as [[Hs He Ha Hn Hc] _]. unfold items in Hlt. rewrite length_fmap in Hlt.
  set (k := PoolTime.add now wait).
  assert (Hpush : forall a pool next,
    NoDup ((node_at <$> ordered_requests q) ++ a :: pool) ->
    Forall (fun x => (x < next)%nat) ((node_at <$> ordered_requests q) ++ a :: pool) ->
    lists_ok (Queue (capacity q) pool (ordered_requests q ++ [Node a ex r k])
                (multimap_insert k a (expires_at_requests q)) (timers q) next)).
  { intros a pool next Hnd Hnx. split; simpl.
    - by apply multimap_insert_sorted.
    - rewrite multimap_insert_perm, He, fmap_app. simpl. solve_Permutation.
    - by rewrite fmap_app, <- app_assoc.
    - by rewrite fmap_app, <- app_assoc.
    - rewrite length_app. simpl. lia. }
  assert (Hend : forall a pool next,
    lists_ok (Queue (capacity q) pool (ordered_requests q ++ [Node a ex r k])
                (multimap_insert k a (expires_at_requests q)) (timers q) next) ->
    exists q', (q ← update_timer (Queue (capacity q) pool (ordered_requests q ++ [Node a ex r k])
                  (multimap_insert k a (expires_at_requests q)) (timers q) next);
                Some (true, q)) = Some (true, q')
      /\ queue_ok q' /\ items q' = items q ++ [Queued ex r k] /\ capacity q' = capacity q).
  { intros a pool next Hok. destruct (update_timer_ok _ Hok) as (t & -> & Hqt).
    eexists. split; [done|]. split; [done|]. split; [|done]. unfold items. simpl.
    by rewrite fmap_app. }
  destruct (requests_pool q) as [|a pool] eqn:Ep.
  - apply Hend, Hpush.
    + rewrite app_nil_r in Ha, Hn. apply NoDup_app. split; [done|]. split; [|apply NoDup_singleton].
      intros x Hx ->%list_elem_of_singleton. rewrite Forall_forall in Hn. apply Hn in Hx. lia.
    + rewrite app_nil_r in Hn. apply Forall_app. split; [|constructor; [lia|done]].
      eapply Forall_impl; [exact Hn|]. simpl. lia.
  - by apply Hend, Hpush.
Qed.

Lemma push_rejects now ex wait r q : queue_ok q -> ~ (length (items q) < capacity q)%nat ->
  push now ex wait r q = Some (false, q).
Proof.
  intros Hq Hge. unfold push, fit_capacity. rewrite (size_items q Hq).
  by destruct (Nat.ltb_spec (length (items q)) (capacity q)).
Qed.

Lemma pop_spec q : queue_ok q ->
  match items q with
  | [] => pop q = Some (None, q)
  | i :: is_ =>
      exists q', pop q = Some (Some (qd_request i, qd_executor i), q') /\ queue_ok q'
        /\ items q' = is_ /\ capacity q' = capacity q
  end.
Proof.
  intros [[Hs He Ha Hn Hc] _]. unfold items, pop.
  destruct (ordered_requests q) as [|req rest] eqn:Eo; simpl; [done|].
  assert (Hnd : NoDup (node_at <$> req :: rest)) by (by apply NoDup_app in Ha as [? _]).
  assert (Hok : lists_ok (Queue (capacity q) (node_at req :: requests_pool q) rest
    (multimap_erase (node_at req) (expires_at_requests q)) (timers q) (next_address q))).
  { split; simpl.
    - eapply keys_sorted_sublist; [apply multimap_erase_sublist|done].
    - by apply multimap_erase_perm.
    - by rewrite <- Permutation_middle.
    - by rewrite <- Permutation_middle.
    - simpl in Hc. lia. }
  destruct (update_timer_ok _ Hok) as (t & -> & Hqt). by eexists.
Qed.

Lemma cancel_spec t q : queue_ok q ->
  exists posted q', cancel false t q = Some (posted, q') /\ queue_ok q'
    /\ posted ≡ₚ (fun i => (qd_executor i, qd_request i))
                   <$> filter (fun i => qd_expires_at i <= t) (items q)
    /\ items q' = filter (fun i => ~ qd_expires_at i <= t) (items q)
    /\ capacity q' = capacity q.
Proof.
  intros [[Hs He Ha Hn Hc] _]. unfold cancel.
  destruct (upper_bound t (expires_at_requests q)) as [before from] eqn:Eu.
  destruct (upper_bound_spec _ _ _ _ Hs Eu) as (Em & Hb & Hf).
  rewrite Em in Hs, He. destruct (expired_entries t _ _ _ He Hb Hf) as [Hpb Hpf].
  apply NoDup_app in Ha as Ha'. destruct Ha' as [Hnd _].
  destruct (cancel_entries_spec t before _ (requests_pool q) Hpb Hnd)
    as (posted & pool' & -> & Hpo & Hpl). cbn [mbind option_bind].
  assert (Hok : lists_ok (Queue (capacity q) pool'
    (filter (fun n => ~ node_expires_at n <= t) (ordered_requests q)) from (timers q)
    (next_address q))).
  { split; simpl; [|done|by rewrite Hpl|by rewrite Hpl|].
    - eapply keys_sorted_sublist; [by apply sublist_inserts_l|done].
    - etrans; [apply length_filter|done]. }
  destruct (update_timer_ok _ Hok) as (t' & -> & Hqt). eexists _, _. split; [done|].
  split; [done|]. unfold items. simpl. rewrite !list_filter_fmap, <- list_fmap_compose.
  split; [exact Hpo|]. by split.
Qed.

Lemma make_queue_ok cap : queue_ok (make_queue cap).
Proof. repeat split; simpl; try constructor. lia. Qed.

#[export] Program Instance queue_is_RequestQueue : RequestQueue R (queue R) := {
  rq_ok := queue_ok;
  rq_items := items;
  rq_capacity := capacity;
  rq_make := make_queue;
  rq_push := push;
  rq_pop := pop;
  rq_cancel := cancel;
  rq_pop_law := pop_spec;
  rq_cancel_law := cancel_spec
}.
Next Obligation. intros n. split; [apply make_queue_ok|done]. Qed.
Next Obligation. intros q [Hok _]. unfold items. rewrite length_fmap. by destruct Hok. Qed.
Next Obligation.
  intros now ex wait r q Hq. case_decide; [by apply push_accepts|by apply push_rejects].
Qed.
Next Obligation. done. Qed.

End queue.

(** ** The specification as a machine, and the refinement *)

Inductive queue_op (R : Type) :=
| Push (now : Z) (ex : executor) (wait : Z) (r : R)
| Pop
| Timer (ec : bool) (t : Z).
Arguments Push {R} _ _ _ _.
Arguments Pop {R}.
Arguments Timer {R} _ _.

Inductive queue_out (R : Type) :=
| Pushed (accepted : bool)
| Popped (r : option (R * executor))
| Expired (posted : list (executor * R)).
Arguments Pushed {R} _.
Arguments Popped {R} _.
Arguments Expired {R} _.

Section refinement.
Context {R : Type}.

(** A bounded queue of requests in the order they came; a timer takes out those
    that have expired. *)
Definition spec_step (cap : nat) (o : queue_op R) (l : list (queued R)) :
    queue_out R * list (queued R) :=
  match o with
  | Push now ex wait r =>
      if decide (length l < cap)%nat then
        (Pushed true, l ++ [Queued ex r (PoolTime.add now wait)])
      else (Pushed false, l)
  | Pop =>
      match l with
      | [] => (Popped None, [])
      | i :: l => (Popped (Some (qd_request i, qd_executor i)), l)
      end
  | Timer true _ => (Expired [], l)
  | Timer false t =>
      (Expired ((fun i => (qd_executor i, qd_request i)) <$> filter (fun i => qd_expires_at i <= t) l),
       filter (fun i => ~ qd_expires_at i <= t) l)
  end.

Fixpoint spec_run (cap : nat) (os : list (queue_op R)) (l : list (queued R)) :
    list (queue_out R) * list (queued R) :=
  match os with
  | [] => ([], l)
  | o :: os =>
      let '(out, l) := spec_step cap o l in
      let '(outs, l) := spec_run cap os l in (out :: outs, l)
  end.

(** Requests that expire at once are posted in the order of their expiry, which
    the specification does not fix. *)
Inductive out_equiv : queue_out R -> queue_out R -> Prop :=
| equiv_pushed b : out_equiv (Pushed b) (Pushed b)
| equiv_popped r : out_equiv (Popped r) (Popped r)
| equiv_expired p1 p2 : p1 ≡ₚ p2 -> out_equiv (Expired p1) (Expired p2).

Section machine.
Context {Q : Type} `{RequestQueue R Q}.

Definition queue_step (o : queue_op R) (q : Q) : option (queue_out R * Q) :=
  match o with
  | Push now ex wait r => '(b, q) ← rq_push now ex wait r q; Some (Pushed b, q)
  | Pop => '(r, q) ← rq_pop q; Some (Popped r, q)
  | Timer ec t => '(p, q) ← rq_cancel ec t q; Some (Expired p, q)
  end.

Fixpoint queue_run (os : list (queue_op R)) (q : Q) : option (list (queue_out R) * Q) :=
  match os with
  | [] => Some ([], q)
  | o :: os =>
      '(out, q) ← queue_step o q;
      '(outs, q) ← queue_run os q; Some (out :: outs, q)
  end.

(** A step of the implementation is a step of the specification. *)
Lemma queue_step_simulates o q : rq_ok q ->
  exists out q', queue_step o q = Some (out, q') /\ rq_ok q' /\ rq_capacity q' = rq_capacity q
    /\ out_equiv out (spec_step (rq_capacity q) o (rq_items q)).1
    /\ rq_items q' = (spec_step (rq_capacity q) o (rq_items q)).2.
Proof.
  intros Hq. destruct o as [now ex wait r| |ec t]; cbn [queue_step spec_step].
  - pose proof (rq_push_law now ex wait r q Hq) as Hl. case_decide.
    + destruct Hl as (q' & -> & Hq' & Hi & Hc). eexists _, q'. repeat split; try done. constructor.
    + rewrite Hl. eexists _, q. repeat split; try done. constructor.
  - pose proof (rq_pop_law q Hq) as Hl. destruct (rq_items q) as [|i l] eqn:Ei.
    + rewrite Hl. eexists _, q. repeat split; try done. constructor.
    + destruct Hl as (q' & -> & Hq' & Hi & Hc). eexists _, q'. repeat split; try done. constructor.
  - destruct ec.
    + rewrite rq_cancel_aborted. eexists _, q. repeat split; try done. by constructor.
    + destruct (rq_cancel_law t q Hq) as (p & q' & -> & Hq' & Hp & Hi & Hc).
      eexists _, q'. repeat split; try done. by constructor.
Qed.

Lemma queue_run_simulates os q : rq_ok q ->
  exists outs q', queue_run os q = Some (outs, q') /\ rq_ok q' /\ rq_capacity q' = rq_capacity q
    /\ Forall2 out_equiv outs (spec_run (rq_capacity q) os (rq_items q)).1
    /\ rq_items q' = (spec_run (rq_capacity q) os (rq_items q)).2.
Proof.
  revert q. induction os as [|o os IH]; intros q Hq; cbn [queue_run spec_run].
  - by eexists _, _.
  - destruct (queue_step_simulates o q Hq) as (out & q1 & -> & Hq1 & Hc1 & Ho & Hi).
    cbn [mbind option_bind]. destruct (IH q1 Hq1) as (outs & q2 & -> & Hq2 & Hc2 & Hos & Hi2).
    cbn [mbind option_bind]. eexists _, q2. split; [done|]. split; [done|]. split; [congruence|].
    rewrite Hc1, Hi in Hos, Hi2.
    destruct (spec_step (rq_capacity q) o (rq_items q)) as [out' l]. simpl in *.
    destruct (spec_run (rq_capacity q) os l) as [outs' l']. simpl in *. by split; [constructor|].
Qed.
End machine.

(** C4: every sequence of [push], [pop] and timer events runs on the
    list, the multimap and the pool of nodes without following a dangling
    pointer, answers as a bounded first-in first-out queue whose requests expire
    does, holds the same requests in the same order, and ends with the timer set
    to the earliest expiry. *)
Theorem queue_refines_bounded_fifo (cap : nat) (os : list (queue_op R)) :
  exists outs (q : queue R), queue_run os (make_queue cap) = Some (outs, q)
    /\ Forall2 out_equiv outs (spec_run cap os []).1
    /\ items q = (spec_run cap os []).2
    /\ (size q <= cap)%nat
    /\ timer_ok q.
Proof.
  assert (Hok : rq_ok (make_queue cap : queue R)) by apply make_queue_ok.
  destruct (queue_run_simulates os _ Hok)
    as (outs & q & E & Hq & Hc & Ho & Hi).
  exists outs, q. repeat split; [done|done|done| |apply Hq].
  rewrite size_items by done. pose proof (rq_bound q Hq) as Hb. by rewrite Hc in Hb.
Qed.

End refinement.
End PoolQueue.
