(* ===== verification/ResourcePool.v ===== *)
(** * The resource pool: [async/detail/pool_impl.hpp], [async/pool.hpp]

    The pool leases the cells of a storage and queues the requests it cannot
    serve.  Its operations run on several threads: what they do under [_mutex] is
    one step; [get] gives the mutex up before it queues the request, so it is two
    steps, between which other threads may run.  The queue is any
    [RequestQueue], as the class template has it. *)

From stdpp Require Import gmap.
From S2P Require Import Prelude Words Time Errors PoolStorage PoolQueue.
Import Storage PoolQueue.
#[local] Open Scope Z_scope.

Module ResourcePool.

(** [category::message] *)
Definition message (e : pool_code) : string :=
  match e with
  | pool_ok => "no error"
  | get_resource_timeout => "get resource timeout"
  | request_queue_overflow => "request queue overflow"
  | disabled => "resource pool is disabled"
  end.

Inductive zero_pool_capacity := ZeroPoolCapacity.

(** What a handler is called with: a cell, or an error. *)
Inductive answer := Cell (i : nat) | Failed (e : pool_code).
#[export] Instance answer_eq_dec : EqDecision answer.
Proof. solve_decision. Defined.

(** [pool_impl]; a request is identified by a number. *)
Record pool_impl (V Q : Type) := PoolImpl {
  storage_ : storage V;
  capacity_ : nat;
  callbacks_ : Q;
  disabled_ : bool
}.
Arguments PoolImpl {V Q} _ _ _ _.
Arguments storage_ {V Q} _.
Arguments capacity_ {V Q} _.
Arguments callbacks_ {V Q} _.
Arguments disabled_ {V Q} _.

Record stats := Stats { size : nat; available : nat; used : nat; queue_size : nat }.

(** [pool_impl::assert_capacity] *)
Definition assert_capacity (value : nat) : outcome zero_pool_capacity nat :=
  match value with
  | O => Throw ZeroPoolCapacity
  | S _ => Return value
  end.

Section pool.
Context {V Q : Type} `{RequestQueue nat Q}.
Implicit Types (p : pool_impl V Q) (i r : nat) (ex : executor).

(** The constructors of [pool_impl] *)
Definition make_pool (capacity queue_capacity : nat) (idle_timeout lifespan : Z) :
    outcome zero_pool_capacity (pool_impl V Q) :=
  n ← assert_capacity capacity;
  mret (PoolImpl (make_storage n idle_timeout lifespan) capacity (rq_make queue_capacity) false).
Definition make_pool_of (now : Z) (values : list V) (queue_capacity : nat)
    (idle_timeout lifespan : Z) : outcome zero_pool_capacity (pool_impl V Q) :=
  n ← assert_capacity (length values);
  mret (PoolImpl (make_storage_of now values idle_timeout lifespan) n
          (rq_make queue_capacity) false).

(** [pool_impl::stats()] *)
Definition pool_stats p : stats :=
  let s := storage_stats_of (storage_ p) in
  Stats (st_available s + st_used s) (st_available s) (st_used s)
    (length (rq_items (callbacks_ p))).

Definition set_storage (s : storage V) p : pool_impl V Q :=
  PoolImpl s (capacity_ p) (callbacks_ p) (disabled_ p).
Definition set_callbacks (q : Q) p : pool_impl V Q :=
  PoolImpl (storage_ p) (capacity_ p) q (disabled_ p).

(** [pool_impl::get], the part under the mutex: the answer, unless every cell is
    in use. *)
Definition get_locked (now : Z) p : option answer * pool_impl V Q :=
  if disabled_ p then (Some (Failed disabled), p) else
  match lease now (storage_ p) with
  | (Some i, s) => (Some (Cell i), set_storage s p)
  | (None, s) => (None, set_storage s p)
  end.

(** [pool_impl::get], after the mutex is unlocked: the answer, unless the request
    is queued. *)
Definition get_unlocked (now : Z) ex r (wait : Z) p : option (option answer * pool_impl V Q) :=
  if wait =? 0 then Some (Some (Failed get_resource_timeout), p) else
  '(pushed, q) ← rq_push now ex wait r (callbacks_ p);
  Some (if (pushed : bool) then None else Some (Failed request_queue_overflow), set_callbacks q p).

(** [pool_impl::get] with no other thread in between. *)
Definition get (now : Z) ex r (wait : Z) p : option (option answer * pool_impl V Q) :=
  match get_locked now p with
  | (Some a, p) => Some (Some a, p)
  | (None, p) => get_unlocked now ex r wait p
  end.

(** [pool_impl::recycle(res_it)]: the answer posted to a queued request, if one
    takes the cell. *)
Definition recycle (now : Z) i p : option (option (nat * answer) * pool_impl V Q) :=
  '(queued, q) ← rq_pop (callbacks_ p);
  let p := set_callbacks q p in
  match queued with
  | None =>
      s ← Storage.recycle now i (storage_ p);
      Some (None, set_storage s p)
  | Some (r, _) =>
      c ← find_used i (storage_ p);
      let s := if is_valid now (storage_ p) c then storage_ p
               else update_used i reset_value (storage_ p) in
      Some (Some (r, Cell i), set_storage s p)
  end.

(** [pool_impl::waste(res_it)] *)
Definition waste i p : option (option (nat * answer) * pool_impl V Q) :=
  '(queued, q) ← rq_pop (callbacks_ p);
  let p := set_callbacks q p in
  match queued with
  | None =>
      s ← Storage.waste i (storage_ p);
      Some (None, set_storage s p)
  | Some (r, _) =>
      Some (Some (r, Cell i), set_storage (update_used i reset_value (storage_ p)) p)
  end.

(** The loop of [pool_impl::disable], for as many requests as [fuel]; [None] when
    that is too few. *)
Fixpoint disable_loop (fuel : nat) (q : Q) : option (list (nat * answer) * Q) :=
  match fuel with
  | O => None
  | S fuel =>
      '(queued, q) ← rq_pop q;
      match queued with
      | None => Some ([], q)
      | Some (r, _) =>
          '(answers, q) ← disable_loop fuel q;
          Some ((r, Failed disabled) :: answers, q)
      end
  end.

(** [pool_impl::disable()] *)
Definition disable p : option (list (nat * answer) * pool_impl V Q) :=
  '(answers, q) ← disable_loop (S (length (rq_items (callbacks_ p)))) (callbacks_ p);
  Some (answers, PoolImpl (storage_ p) (capacity_ p) q true).

(** [pool_impl::invalidate()] *)
Definition pool_invalidate p : pool_impl V Q := set_storage (invalidate (storage_ p)) p.

(** ** The pool and its clients *)

(** [s_waiting]: the calls of [get] that gave the mutex up and have not queued
    their request; [s_answers]: the handlers called, in order; [s_held]: the
    cells in the hands of clients; [s_issued]: the requests made. *)
Record system := System {
  s_pool : pool_impl V Q;
  s_waiting : list (nat * (executor * Z));
  s_answers : list (nat * answer);
  s_held : list nat;
  s_issued : list nat
}.

Inductive event :=
| EGet (now : Z) (r : nat) (ex : executor) (wait : Z)
| EQueue (now : Z) (r : nat)
| ERecycle (now : Z) (i : nat)
| EWaste (i : nat)
| EReset (now : Z) (i : nat) (v : V)
| EInvalidate
| EDisable
| ETimer (ec : bool) (t : Z).

(** A request is made once; only a thread inside [get] queues its request; a cell
    is returned and written by the client that holds it. *)
Definition enabled (e : event) (s : system) : bool :=
  match e with
  | EGet _ r _ _ => bool_decide (r ∉ s_issued s)
  | EQueue _ r => bool_decide (r ∈ (s_waiting s).*1)
  | ERecycle _ i | EWaste i | EReset _ i _ => bool_decide (i ∈ s_held s)
  | EInvalidate | EDisable | ETimer _ _ => true
  end.

(** The cell an answer puts in the hands of a client. *)
Definition answer_cell (a : answer) : option nat :=
  match a with Cell i => Some i | Failed _ => None end.

(** Answers posted to the executors of the requests. *)
Definition post (answers : list (nat * answer)) (s : system) : system :=
  System (s_pool s) (s_waiting s) (s_answers s ++ answers)
    (s_held s ++ omap answer_cell answers.*2) (s_issued s).
Definition set_pool p (s : system) : system :=
  System p (s_waiting s) (s_answers s) (s_held s) (s_issued s).
Definition drop_held i (s : system) : option system :=
  '(_, held) ← take_key id i (s_held s);
  Some (System (s_pool s) (s_waiting s) (s_answers s) held (s_issued s)).

Definition body (e : event) (s : system) : option system :=
  match e with
  | EGet now r ex wait =>
      let '(a, p) := get_locked now (s_pool s) in
      let s := System p (s_waiting s) (s_answers s) (s_held s) (s_issued s ++ [r]) in
      match a with
      | Some a => Some (post [(r, a)] s)
      | None => Some (System p (s_waiting s ++ [(r, (ex, wait))]) (s_answers s) (s_held s) (s_issued s))
      end
  | EQueue now r =>
      '((_, (ex, wait)), waiting) ← take_key fst r (s_waiting s);
      '(a, p) ← get_unlocked now ex r wait (s_pool s);
      let s := System p waiting (s_answers s) (s_held s) (s_issued s) in
      Some (match a with Some a => post [(r, a)] s | None => s end)
  | ERecycle now i =>
      '(a, p) ← recycle now i (s_pool s);
      s ← drop_held i (set_pool p s);
      Some (post (option_list a) s)
  | EWaste i =>
      '(a, p) ← waste i (s_pool s);
      s ← drop_held i (set_pool p s);
      Some (post (option_list a) s)
  | EReset now i v =>
      Some (set_pool (set_storage (update_used i (store_value now v) (storage_ (s_pool s)))
                        (s_pool s)) s)
  | EInvalidate => Some (set_pool (pool_invalidate (s_pool s)) s)
  | EDisable =>
      '(answers, p) ← disable (s_pool s);
      Some (post answers (set_pool p s))
  | ETimer ec t =>
      '(posted, q) ← rq_cancel ec t (callbacks_ (s_pool s));
      Some (post ((fun x => (x.2, Failed get_resource_timeout)) <$> posted)
              (set_pool (set_callbacks q (s_pool s)) s))
  end.

Definition step (e : event) (s : system) : option system :=
  if enabled e s then body e s else None.

Fixpoint run (es : list event) (s : system) : option system :=
  match es with
  | [] => Some s
  | e :: es => s ← step e s; run es s
  end.

Definition start p : system := System p [] [] [] [].

(** ** The invariant *)

Definition cells_in_use p : list nat := cell_it <$> used_ (storage_ p).
Definition queued_requests p : list nat := qd_request <$> rq_items (callbacks_ p).

Record impl_ok (cap qcap : nat) p : Prop := {
  pok_storage : storage_ok cap (storage_ p);
  pok_queue : rq_ok (callbacks_ p);
  pok_capacity : rq_capacity (callbacks_ p) = qcap
}.

Record sys_ok (cap qcap : nat) (s : system) : Prop := {
  sok_pool : impl_ok cap qcap (s_pool s);
  sok_held : cells_in_use (s_pool s) ≡ₚ s_held s;
  sok_issued : s_issued s
    ≡ₚ (s_answers s).*1 ++ (s_waiting s).*1 ++ queued_requests (s_pool s);
  sok_once : NoDup (s_issued s)
}.

(** What the cell of an answer given at [now] holds: nothing, or a resource that
    was not invalidated and has not lived its lifespan. *)
Definition delivered (now : option Z) i (s : storage V) : Prop :=
  exists c, c ∈ used_ s /\ cell_it c = i
    /\ (value c = None
        \/ match now with
           | Some now => waste_on_recycle c = false /\ now < life_end s c
           | None => False
           end).

Lemma in_use_NoDup cap qcap p : impl_ok cap qcap p -> NoDup (cells_in_use p).
Proof.
  intros [Hd%ok_NoDup _ _]. unfold cells in Hd. rewrite !fmap_app in Hd.
  apply NoDup_app in Hd as (_ & _ & Hd). by apply NoDup_app in Hd as (Hd & _).
Qed.

Lemma get_locked_spec cap qcap now p : impl_ok cap qcap p ->
  exists a p', get_locked now p = (a, p') /\ impl_ok cap qcap p'
    /\ callbacks_ p' = callbacks_ p /\ disabled_ p' = disabled_ p
    /\ match a with
       | Some (Cell i) => cells_in_use p' ≡ₚ cells_in_use p ++ [i]
           /\ delivered (Some now) i (storage_ p') /\ disabled_ p = false
       | Some (Failed e) => p' = p /\ e = disabled /\ disabled_ p = true
       | None => cells_in_use p' = cells_in_use p /\ disabled_ p = false
           /\ available_ (storage_ p') = [] /\ wasted_ (storage_ p') = []
       end.
Proof.
  intros Hp. unfold get_locked. destruct (disabled_ p) eqn:Ed.
  { by exists (Some (Failed disabled)), p. }
  destruct Hp as [Hs Hq Hc].
  destruct (lease now (storage_ p)) as [r s] eqn:El.
  destruct (lease_ok _ _ _ _ _ Hs El) as [Hok Hr]. destruct r as [i|].
  - destruct Hr as (c & Hu & Hi & Hw & Hl). exists (Some (Cell i)), (set_storage s p).
    split; [done|]. split; [done|]. split; [done|]. split; [done|]. split; [|split; [|done]].
    + unfold cells_in_use. simpl. by rewrite Hu, fmap_app, <- Hi.
    + exists c. simpl. rewrite Hu. split; [set_solver|]. split; [done|].
      destruct Hl; [by left|by right].
  - destruct Hr as (Hu & Ha & Hw). exists None, (set_storage s p). unfold cells_in_use. simpl.
    rewrite Hu. by split.
Qed.

Lemma get_unlocked_spec cap qcap now ex r wait p : impl_ok cap qcap p ->
  exists a p', get_unlocked now ex r wait p = Some (a, p') /\ impl_ok cap qcap p'
    /\ storage_ p' = storage_ p /\ disabled_ p' = disabled_ p
    /\ match a with
       | Some a => callbacks_ p' = callbacks_ p /\ exists e, a = Failed e
       | None => queued_requests p' = queued_requests p ++ [r]
       end.
Proof.
  intros Hp. unfold get_unlocked. destruct (wait =? 0).
  { eexists (Some (Failed _)), p. do 4 (split; [done|]). split; [done|]. by eexists. }
  destruct Hp as [Hs Hq Hc].
  pose proof (rq_push_law now ex wait r _ Hq) as Hl. case_decide.
  - destruct Hl as (q' & -> & Hq' & Hi & Hc'). exists None, (set_callbacks q' p).
    split; [done|]. split; [split; simpl; [done|done|congruence]|]. do 2 (split; [done|]).
    unfold queued_requests. simpl. by rewrite Hi, fmap_app.
  - rewrite Hl. eexists (Some (Failed _)), _. do 4 (split; [done|]). split; [done|]. by eexists.
Qed.

(** What giving a cell back does: the first queued request gets it, or it goes
    back to the storage. *)
Definition returned_ok (cap qcap : nat) (now : option Z) i p
    (res : option (option (nat * answer) * pool_impl V Q)) : Prop :=
  exists a p', res = Some (a, p') /\ impl_ok cap qcap p' /\ disabled_ p' = disabled_ p
    /\ match queued_requests p with
       | [] => a = None /\ queued_requests p' = [] /\ cells_in_use p ≡ₚ i :: cells_in_use p'
       | r :: rs => a = Some (r, Cell i) /\ queued_requests p' = rs
           /\ cells_in_use p' = cells_in_use p /\ delivered now i (storage_ p')
           /\ available_ (storage_ p') = available_ (storage_ p)
           /\ wasted_ (storage_ p') = wasted_ (storage_ p)
       end.

Lemma pop_queued cap qcap p : impl_ok cap qcap p ->
  exists x q, rq_pop (callbacks_ p) = Some (x, q) /\ impl_ok cap qcap (set_callbacks q p)
    /\ match queued_requests p with
       | [] => x = None /\ queued_requests (set_callbacks q p) = []
       | r :: rs => exists ex, x = Some (r, ex) /\ queued_requests (set_callbacks q p) = rs
       end.
Proof.
  intros [Hs Hq Hc]. pose proof (rq_pop_law _ Hq) as Hl. unfold queued_requests.
  destruct (rq_items (callbacks_ p)) as [|i l] eqn:Ei; simpl.
  - eexists None, _. split; [exact Hl|]. split; [done|]. by rewrite Ei.
  - destruct Hl as (q' & -> & Hq' & Hi & Hc'). eexists _, q'. split; [done|].
    split; [split; simpl; [done|done|congruence]|]. eexists. by rewrite Hi.
Qed.

Lemma find_used_spec i (s : storage V) : i ∈ cell_it <$> used_ s ->
  exists c, find_used i s = Some c /\ c ∈ used_ s /\ cell_it c = i.
Proof.
  intros Hi. destruct (take_key_is_Some cell_it _ _ Hi) as [[c l] E].
  exists c. unfold find_used. rewrite E. split; [done|].
  apply take_key_spec in E as (Hc & l1 & l2 & -> & _). split; [set_solver|done].
Qed.

(** A cell whose value was reset is handed over empty. *)
Lemma delivered_reset now i (s : storage V) : i ∈ cell_it <$> used_ s ->
  delivered now i (update_used i reset_value s).
Proof.
  intros (c & -> & Hc)%list_elem_of_fmap. exists (reset_value c). split; [|split; [done|by left]].
  simpl. apply list_elem_of_fmap. exists c. split; [|done]. by rewrite decide_True.
Qed.

Lemma recycle_spec cap qcap now i p : impl_ok cap qcap p -> i ∈ cells_in_use p ->
  returned_ok cap qcap (Some now) i p (recycle now i p).
Proof.
  intros Hp Hi. unfold returned_ok, recycle.
  destruct (pop_queued _ _ _ Hp) as (x & q & -> & Hp' & Hm). simpl.
  destruct (queued_requests p) as [|r rs].
  - destruct Hm as [-> Hm].
    destruct (recycle_ok cap now i _ (pok_storage _ _ _ Hp) Hi) as (c & s' & -> & Hok & Hc & Hu).
    eexists None, _. split; [done|]. split; [by destruct Hp'|]. split; [done|]. split; [done|].
    split; [exact Hm|]. unfold cells_in_use. rewrite Hu. simpl. by rewrite Hc.
  - destruct Hm as (ex & -> & Hm). destruct (find_used_spec _ _ Hi) as (c & -> & Hin & Hc). simpl.
    eexists _, _. split; [done|]. destruct (is_valid now (storage_ p) c) eqn:Ev.
    + split; [done|]. split; [done|]. split; [done|]. split; [exact Hm|]. split; [done|].
      split; [|done]. exists c. split; [done|]. split; [done|]. right.
      unfold is_valid in Ev. destruct (waste_on_recycle c); [done|].
      destruct (Z.leb_spec (life_end (storage_ p) c) now); [done|]. by split.
    + split; [split; simpl; [|by destruct Hp'|by destruct Hp']|].
      * apply update_used_ok; [done|]. by destruct Hp.
      * split; [done|]. split; [done|]. split; [exact Hm|].
        split; [by apply cells_update|]. split; [by apply delivered_reset|done].
Qed.

Lemma waste_spec cap qcap i p : impl_ok cap qcap p -> i ∈ cells_in_use p ->
  returned_ok cap qcap None i p (waste i p).
Proof.
  intros Hp Hi. unfold returned_ok, waste.
  destruct (pop_queued _ _ _ Hp) as (x & q & -> & Hp' & Hm). simpl.
  destruct (queued_requests p) as [|r rs].
  - destruct Hm as [-> Hm].
    destruct (waste_ok cap i _ (pok_storage _ _ _ Hp) Hi) as (c & s' & -> & Hok & Hc & Hu & _).
    eexists None, _. split; [done|]. split; [by destruct Hp'|]. split; [done|]. split; [done|].
    split; [exact Hm|]. unfold cells_in_use. rewrite Hu. simpl. by rewrite Hc.
  - destruct Hm as (ex & -> & Hm). simpl. eexists _, _. split; [done|].
    split; [split; simpl; [|by destruct Hp'|by destruct Hp']|].
    + apply update_used_ok; [done|]. by destruct Hp.
    + split; [done|]. split; [done|]. split; [exact Hm|].
      split; [by apply cells_update|]. split; [by apply delivered_reset|done].
Qed.

Lemma disable_loop_spec q n : rq_ok q -> (length (rq_items q) < n)%nat ->
  exists q', disable_loop n q
      = Some ((fun x => (qd_request x, Failed disabled)) <$> rq_items q, q')
    /\ rq_ok q' /\ rq_items q' = [] /\ rq_capacity q' = rq_capacity q.
Proof.
  revert q. induction n as [|n IH]; intros q Hq Hn; [lia|]. simpl.
  pose proof (rq_pop_law q Hq) as Hl. destruct (rq_items q) as [|i l] eqn:Ei.
  - rewrite Hl. simpl. by exists q.
  - destruct Hl as (q1 & -> & Hq1 & Hi & Hc). simpl in *.
    destruct (IH q1 Hq1) as (q2 & -> & Hq2 & Hi2 & Hc2); [rewrite Hi; lia|].
    simpl. exists q2. rewrite Hi. repeat split; try done. congruence.
Qed.

Lemma disable_spec cap qcap p : impl_ok cap qcap p ->
  exists p', disable p = Some ((fun r => (r, Failed disabled)) <$> queued_requests p, p')
    /\ impl_ok cap qcap p' /\ queued_requests p' = [] /\ storage_ p' = storage_ p
    /\ disabled_ p' = true.
Proof.
  intros [Hs Hq Hc]. unfold disable.
  destruct (disable_loop_spec (callbacks_ p) (S (length (rq_items (callbacks_ p)))) Hq)
    as (q' & -> & Hq' & Hi & Hc'); [lia|].
  eexists. split; [unfold queued_requests; rewrite <- list_fmap_compose; reflexivity|].
  split; [split; simpl; [done|done|congruence]|]. unfold queued_requests. simpl. by rewrite Hi.
Qed.

Lemma cancel_pool_spec cap qcap ec t p : impl_ok cap qcap p ->
  exists posted q, rq_cancel ec t (callbacks_ p) = Some (posted, q)
    /\ impl_ok cap qcap (set_callbacks q p)
    /\ queued_requests p ≡ₚ posted.*2 ++ queued_requests (set_callbacks q p).
Proof.
  intros [Hs Hq Hc]. destruct ec.
  - rewrite rq_cancel_aborted. by eexists [], _.
  - destruct (rq_cancel_law t _ Hq) as (posted & q & -> & Hq' & Hp & Hi & Hc').
    eexists _, q. split; [done|]. split; [split; simpl; [done|done|congruence]|].
    unfold queued_requests. simpl. rewrite Hp, Hi, <- list_fmap_compose.
    rewrite <- (filter_app_complement (fun x => qd_expires_at x <= t) (rq_items (callbacks_ p))) at 1.
    by rewrite fmap_app.
Qed.

(** ** Every step keeps the invariant *)

Definition event_time (e : event) : option Z :=
  match e with
  | EGet now _ _ _ | EQueue now _ | ERecycle now _ | EReset now _ _ => Some now
  | _ => None
  end.

Definition delivers (e : event) (s s' : system) : Prop :=
  exists new, s_answers s' = s_answers s ++ new
    /\ forall r i, (r, Cell i) ∈ new -> delivered (event_time e) i (storage_ (s_pool s')).

Definition good_step (cap qcap : nat) (e : event) (s : system) : Prop :=
  exists s', body e s = Some s' /\ sys_ok cap qcap s' /\ delivers e s s'.

Lemma post_ok cap qcap answers s : impl_ok cap qcap (s_pool s) ->
  cells_in_use (s_pool s) ≡ₚ s_held s ++ omap answer_cell answers.*2 ->
  s_issued s ≡ₚ (s_answers s).*1 ++ answers.*1 ++ (s_waiting s).*1 ++ queued_requests (s_pool s) ->
  NoDup (s_issued s) -> sys_ok cap qcap (post answers s).
Proof.
  intros Hp Hh Hi Hn. split; simpl; [done|done| |done]. by rewrite Hi, fmap_app, <- app_assoc.
Qed.

Lemma delivers_nothing e s s' : s_answers s' = s_answers s -> delivers e s s'.
Proof. intros E. exists []. rewrite E, app_nil_r. split; [done|]. by intros r i ?%elem_of_nil. Qed.

Lemma delivers_failures e s s' (rs : list nat) (c : pool_code) :
  s_answers s' = s_answers s ++ ((fun r => (r, Failed c)) <$> rs) -> delivers e s s'.
Proof.
  intros E. eexists. split; [exact E|]. intros r i (x & ? & _)%list_elem_of_fmap. done.
Qed.

Lemma no_cells (rs : list nat) (c : pool_code) : omap answer_cell ((fun r => (r, Failed c)) <$> rs).*2 = [].
Proof. induction rs; [done|]. by simpl. Qed.

Lemma first_of_pairs (rs : list nat) (c : pool_code) : ((fun r => (r, Failed c)) <$> rs).*1 = rs.
Proof. induction rs; [done|]. simpl. by f_equal. Qed.

Lemma good_get cap qcap now r ex wait s : sys_ok cap qcap s ->
  enabled (EGet now r ex wait) s = true -> good_step cap qcap (EGet now r ex wait) s.
Proof.
  intros [Hp Hh Hi Hn] He%bool_decide_eq_true. unfold good_step. cbn [body].
  destruct (get_locked_spec cap qcap now _ Hp) as (a & p & -> & Hp' & Hc & Hd & Ha).
  assert (Hn' : NoDup (s_issued s ++ [r])).
  { apply NoDup_app. split; [done|]. split; [|apply NoDup_singleton].
    by intros x Hx ->%list_elem_of_singleton. }
  destruct a as [[i|e]|]; eexists; (split; [done|]).
  - destruct Ha as (Hu & Hdel & _). split.
    + apply post_ok; simpl; [done|by rewrite Hu, Hh| |done].
      unfold queued_requests in *. rewrite Hi, Hc. solve_Permutation.
    + eexists. split; [done|]. intros r' i' Hin%list_elem_of_singleton. by simplify_eq.
  - destruct Ha as (-> & -> & _). split.
    + apply post_ok; simpl; [done|by rewrite app_nil_r, Hh| |done]. rewrite Hi. solve_Permutation.
    + by apply (delivers_failures _ _ _ [r] disabled).
  - destruct Ha as (Hu & _). split; [|by apply delivers_nothing].
    split; simpl; [done|by rewrite Hu| |done]. unfold queued_requests in *.
    rewrite Hi, Hc, fmap_app. simpl. solve_Permutation.
Qed.

Lemma good_queue cap qcap now r s : sys_ok cap qcap s ->
  enabled (EQueue now r) s = true -> good_step cap qcap (EQueue now r) s.
Proof.
  intros [Hp Hh Hi Hn] He%bool_decide_eq_true. unfold good_step. cbn [body].
  destruct (take_key_is_Some fst r _ He) as [[[r' [ex wait]] waiting] E]. rewrite E.
  cbn [mbind option_bind]. pose proof (take_key_perm _ _ _ _ _ E) as Hw.
  apply take_key_spec in E as [Hr _]. simpl in Hr. subst r'. rewrite Hw in Hi. simpl in Hi.
  destruct (get_unlocked_spec cap qcap now ex r wait _ Hp) as (a & p & -> & Hp' & Hs & Hd & Ha).
  cbn [mbind option_bind]. unfold cells_in_use, queued_requests in *.
  destruct a as [a|]; eexists; (split; [done|]).
  - destruct Ha as (Hc & e & ->). split; [|by apply (delivers_failures _ _ _ [r] e)].
    apply post_ok; simpl; [done|by unfold cells_in_use; rewrite app_nil_r, Hs| |done].
    unfold queued_requests. rewrite Hi, Hc. solve_Permutation.
  - split; [|by apply delivers_nothing]. split; simpl; [done| | |done].
    + unfold cells_in_use. by rewrite Hs.
    + unfold queued_requests. rewrite Hi, Ha. solve_Permutation.
Qed.

Lemma good_return cap qcap e i s res : sys_ok cap qcap s -> i ∈ s_held s ->
  returned_ok cap qcap (event_time e) i (s_pool s) res ->
  exists s', ('(a, p) ← res; s ← drop_held i (set_pool p s); Some (post (option_list a) s)) = Some s'
    /\ sys_ok cap qcap s' /\ delivers e s s'.
Proof.
  intros [Hp Hh Hi Hn] Hin (a & p & -> & Hp' & Hd & Ha). cbn [mbind option_bind].
  unfold drop_held. simpl. destruct (take_key_is_Some id i (s_held s)) as [[x held] E];
    [by rewrite list_fmap_id|]. rewrite E. pose proof (take_key_perm _ _ _ _ _ E) as Hw.
  apply take_key_spec in E as [Hx _]. unfold id in Hx. subst x. simpl. eexists. split; [done|].
  destruct (queued_requests (s_pool s)) as [|r rs] eqn:Er.
  - destruct Ha as (-> & Hq & Hu). split.
    + apply post_ok; simpl; [done| | |done].
      * rewrite app_nil_r. rewrite Hu, Hw in Hh. by apply Permutation_cons_inv in Hh.
      * by rewrite Hi, Hq.
    + apply delivers_nothing. simpl. by rewrite app_nil_r.
  - destruct Ha as (-> & Hq & Hu & Hdel & _). split.
    + apply post_ok; simpl; [done| | |done].
      * rewrite Hu, Hh, Hw. solve_Permutation.
      * rewrite Hi, Hq. solve_Permutation.
    + eexists. split; [done|]. intros r' i' Hin'%list_elem_of_singleton. by simplify_eq.
Qed.

Lemma good_disable cap qcap s : sys_ok cap qcap s -> good_step cap qcap EDisable s.
Proof.
  intros [Hp Hh Hi Hn]. unfold good_step. cbn [body].
  destruct (disable_spec _ _ _ Hp) as (p & -> & Hp' & Hq & Hs & _). cbn [mbind option_bind].
  eexists. split; [done|]. split; [|by eapply delivers_failures].
  apply post_ok; simpl; [done| | |done].
  - unfold cells_in_use in *. by rewrite no_cells, app_nil_r, Hs.
  - rewrite first_of_pairs, Hq, Hi. solve_Permutation.
Qed.

Lemma good_timer cap qcap ec t s : sys_ok cap qcap s -> good_step cap qcap (ETimer ec t) s.
Proof.
  intros [Hp Hh Hi Hn]. unfold good_step. cbn [body].
  destruct (cancel_pool_spec _ _ ec t _ Hp) as (posted & q & -> & Hp' & Hq).
  cbn [mbind option_bind]. eexists. split; [done|].
  replace ((fun x : executor * nat => (x.2, Failed get_resource_timeout)) <$> posted)
    with ((fun r => (r, Failed get_resource_timeout)) <$> posted.*2)
    by (by rewrite <- list_fmap_compose).
  split; [|by eapply delivers_failures].
  apply post_ok; simpl; [done| | |done].
  - by rewrite no_cells, app_nil_r.
  - rewrite first_of_pairs, Hi, Hq. solve_Permutation.
Qed.

(** A step that writes the cells in use, or the cells nobody uses. *)
Lemma good_storage cap qcap e st s : sys_ok cap qcap s -> storage_ok cap st ->
  cell_it <$> used_ st = cells_in_use (s_pool s) ->
  sys_ok cap qcap (set_pool (set_storage st (s_pool s)) s)
  /\ delivers e s (set_pool (set_storage st (s_pool s)) s).
Proof.
  intros [[Hs Hq Hc] Hh Hi Hn] Hst Hu. split; [|by apply delivers_nothing].
  split; simpl; [done| |done|done]. unfold cells_in_use at 1. simpl. by rewrite Hu.
Qed.

Lemma step_good cap qcap e s : sys_ok cap qcap s -> enabled e s = true -> good_step cap qcap e s.
Proof.
  intros Hs He. destruct e as [now r ex wait|now r|now i|i|now i v| | |ec t].
  - by apply good_get.
  - by apply good_queue.
  - apply bool_decide_eq_true in He. apply (good_return _ _ (ERecycle now i)); [done|done|].
    apply recycle_spec; [apply Hs|]. by rewrite (sok_held _ _ _ Hs).
  - apply bool_decide_eq_true in He. apply (good_return _ _ (EWaste i)); [done|done|].
    apply waste_spec; [apply Hs|]. by rewrite (sok_held _ _ _ Hs).
  - eexists. split; [done|]. apply good_storage; [done| |by apply cells_update].
    apply update_used_ok; [done|apply Hs].
  - eexists. split; [done|]. apply good_storage; [done| |by apply cells_marked].
    apply invalidate_ok, Hs.
  - by apply good_disable.
  - by apply good_timer.
Qed.

(** ** Reachable states *)

(** A pool of [cap] cells and a queue of [qcap] requests was constructed. *)
Inductive constructed (cap qcap : nat) : pool_impl V Q -> Prop :=
| constructed_empty idle lifespan p :
    make_pool cap qcap idle lifespan = Return p -> constructed cap qcap p
| constructed_full now values idle lifespan p : length values = cap ->
    make_pool_of now values qcap idle lifespan = Return p -> constructed cap qcap p.

Inductive reachable (s0 : system) : system -> Prop :=
| reachable_start : reachable s0 s0
| reachable_step s e s' : reachable s0 s -> step e s = Some s' -> reachable s0 s'.

Lemma constructed_ok cap qcap p : constructed cap qcap p -> sys_ok cap qcap (start p).
Proof.
  intros Hc. assert (Hp : impl_ok cap qcap p /\ cells_in_use p = [] /\ queued_requests p = []).
  { destruct (rq_make_law (Q := Q) qcap) as (Hq & Hi & Hcap). unfold queued_requests.
    destruct Hc as [idle lifespan p E|now values idle lifespan p Hv E].
    - unfold make_pool, assert_capacity, mret, outcome_ret in E. destruct cap; simplify_eq/=.
      rewrite Hi. split; [|done]. split; [apply make_storage_ok|done|done].
    - unfold make_pool_of, assert_capacity, mret, outcome_ret in E. rewrite Hv in E. destruct cap; simplify_eq/=.
      rewrite Hi. split; [|done]. split; [|done|done].
      simpl. rewrite <- Hv. apply make_storage_of_ok. }
  destruct Hp as (Hp & Hu & Hq). split; simpl; [done|by rewrite Hu|by rewrite Hq|constructor].
Qed.

Lemma step_inv e s s' : step e s = Some s' -> enabled e s = true /\ body e s = Some s'.
Proof. unfold step. by destruct (enabled e s). Qed.

(** The cells in the hands of clients: those before, but for the one returned,
    and those of the new answers. *)
Lemma step_held e s s' : step e s = Some s' ->
  exists new, s_answers s' = s_answers s ++ new
    /\ match e with
       | ERecycle _ i | EWaste i => s_held s ++ omap answer_cell new.*2 ≡ₚ i :: s_held s'
       | _ => s_held s' = s_held s ++ omap answer_cell new.*2
       end.
Proof.
  intros [_ Hb]%step_inv.
  assert (forall (res : option (option (nat * answer) * pool_impl V Q)) i,
    ('(a, p) ← res; s ← drop_held i (set_pool p s); Some (post (option_list a) s)) = Some s' ->
    exists new, s_answers s' = s_answers s ++ new /\ s_held s ++ omap answer_cell new.*2 ≡ₚ i :: s_held s') as Hreturn.
  { intros res i Hr. destruct res as [[a p]|]; [|done]. cbn [mbind option_bind] in Hr.
    unfold drop_held in Hr. simpl in Hr. destruct (take_key id i (s_held s)) as [[x held]|] eqn:Et; [|done].
    simplify_eq/=. apply take_key_perm in Et as Hp. apply take_key_spec in Et as [Hx _]. unfold id in Hx. subst x.
    eexists. split; [done|]. by rewrite Hp. }
  assert (forall answers p, s' = post answers (set_pool p s) ->
    exists new, s_answers s' = s_answers s ++ new /\ s_held s' = s_held s ++ omap answer_cell new.*2) as Hpost
    by (intros answers p ->; by eexists).
  assert (s_answers s' = s_answers s -> s_held s' = s_held s ->
    exists new, s_answers s' = s_answers s ++ new /\ s_held s' = s_held s ++ omap answer_cell new.*2) as Hsame
    by (intros -> ->; exists []; simpl; by rewrite !app_nil_r).
  destruct e as [now r ex wait|now r|now i|i|now i v| | |ec t]; cbn [body] in Hb.
  - destruct (get_locked now (s_pool s)) as [[a|] p]; simplify_eq/=; [by eexists|by apply Hsame].
  - destruct (take_key fst r (s_waiting s)) as [[[r' [ex wait]] w]|]; [|done]. cbn [mbind option_bind] in Hb.
    destruct (get_unlocked _ _ _ _ _) as [[[a|] p]|]; simplify_eq/=; [by eexists|by apply Hsame].
  - by eapply Hreturn.
  - by eapply Hreturn.
  - simplify_eq/=. by apply Hsame.
  - simplify_eq/=. by apply Hsame.
  - destruct (disable _) as [[answers p]|]; [|done]. simplify_eq/=. by eapply Hpost.
  - destruct (rq_cancel ec t _) as [[posted q]|]; [|done]. simplify_eq/=. by eapply Hpost.
Qed.

Lemma reachable_ok cap qcap p s : constructed cap qcap p -> reachable (start p) s -> sys_ok cap qcap s.
Proof.
  intros Hc Hr. induction Hr as [|s e s' Hr IH [He Hb]%step_inv]; [by apply constructed_ok|].
  destruct (step_good cap qcap e s IH He) as (s1 & E & Hok & _). congruence.
Qed.

(** ** Calls of [get] that no other thread interrupts *)

Definition seq_step (e : event) (s : system) : option system :=
  match e with
  | EGet now r _ _ =>
      s ← step e s;
      if bool_decide (r ∈ (s_waiting s).*1) then step (EQueue now r) s else Some s
  | EQueue _ _ => None
  | _ => step e s
  end.

Inductive seq_reachable (s0 : system) : system -> Prop :=
| seq_start : seq_reachable s0 s0
| seq_next s e s' : seq_reachable s0 s -> seq_step e s = Some s' -> seq_reachable s0 s'.

(** A request waits only while every cell is in use and the pool serves. *)
Definition busy (s : system) : Prop :=
  queued_requests (s_pool s) <> [] ->
  available_ (storage_ (s_pool s)) = [] /\ wasted_ (storage_ (s_pool s)) = []
  /\ disabled_ (s_pool s) = false.

Record seq_ok (cap qcap : nat) (s : system) : Prop := {
  seq_sys : sys_ok cap qcap s;
  seq_none : s_waiting s = [];
  seq_busy : busy s
}.

Lemma busy_get cap qcap now r ex wait s s' : seq_ok cap qcap s ->
  seq_step (EGet now r ex wait) s = Some s' -> seq_ok cap qcap s'.
Proof.
  intros [Hs Hw Hb] E. cbn [seq_step] in E.
  destruct (step (EGet now r ex wait) s) as [s1|] eqn:E1; [|done]. cbn [mbind option_bind] in E.
  apply step_inv in E1 as [He Eb]. pose proof (step_good _ _ _ _ Hs He) as (s1' & E1 & Hs1 & _).
  assert (s1' = s1) as -> by congruence. clear E1. cbn [body] in Eb.
  destruct (get_locked_spec cap qcap now _ (sok_pool _ _ _ Hs)) as (a & p & El & Hp & Hc & Hd & Ha).
  rewrite El in Eb. unfold busy, queued_requests in Hb.
  destruct a as [a|].
  - simplify_eq. simpl in E. rewrite bool_decide_eq_false_2 in E by (rewrite Hw; set_solver).
    simplify_eq. split; [done|exact Hw|]. unfold busy, queued_requests. simpl. rewrite Hc.
    destruct a as [i|e]; [|destruct Ha as (-> & _); exact Hb].
    intros Hq. destruct (Hb Hq) as (Hav & Hwa & _). destruct Ha as (Hu & _ & _). exfalso.
    pose proof (ok_sizes cap _ (pok_storage _ _ _ (sok_pool _ _ _ Hs))) as H1.
    pose proof (ok_sizes cap _ (pok_storage _ _ _ Hp)) as H2. simpl in H1, H2.
    apply Permutation_length in Hu. unfold cells_in_use in Hu.
    rewrite length_app, !length_fmap in Hu. rewrite Hav, Hwa in H1. simpl in *. lia.
  - injection Eb as Eb. destruct Ha as (Hu & Hdis & Hav & Hwa).
    assert (Hw1 : s_waiting s1 = [(r, (ex, wait))]) by (by rewrite <- Eb, Hw).
    assert (Hp1 : s_pool s1 = p) by (by rewrite <- Eb).
    rewrite bool_decide_eq_true_2 in E by (rewrite Hw1; simpl; set_solver).
    apply step_inv in E as [He2 Eb2]. destruct (step_good _ _ _ _ Hs1 He2) as (s2 & E2 & Hs2 & _).
    assert (s2 = s') as -> by congruence. clear E2. cbn [body] in Eb2.
    rewrite Hw1, Hp1 in Eb2. simpl in Eb2. rewrite decide_True in Eb2 by done. simpl in Eb2.
    destruct (get_unlocked_spec cap qcap now ex r wait p Hp) as (a & p' & Eu & _ & Hst & Hd' & _).
    rewrite Eu in Eb2. simpl in Eb2. injection Eb2 as <-. split; [done|by destruct a|].
    intros _. destruct a; simpl; rewrite Hst, Hd', Hd; done.
Qed.

(** A return keeps a waiting request waiting only if another one was served. *)
Lemma busy_return cap qcap now i s a p held : busy s ->
  returned_ok cap qcap now i (s_pool s) (Some (a, p)) ->
  busy (post (option_list a) (System p (s_waiting s) (s_answers s) held (s_issued s))).
Proof.
  intros Hb (a' & p' & [= <- <-] & _ & Hd & Ha). unfold busy in *. simpl.
  destruct (queued_requests (s_pool s)) as [|r rs].
  - destruct Ha as (_ & Hq & _). by rewrite Hq.
  - destruct Ha as (_ & _ & _ & _ & Hav & Hwa). intros _. rewrite Hav, Hwa, Hd. by apply Hb.
Qed.

Lemma busy_recycle cap qcap now i s s' : sys_ok cap qcap s -> busy s ->
  (returned_ok cap qcap now i (s_pool s) (recycle (default 0 now) i (s_pool s)) ->
   body (ERecycle (default 0 now) i) s = Some s' -> s_waiting s' = s_waiting s /\ busy s')
  /\ (returned_ok cap qcap now i (s_pool s) (waste i (s_pool s)) ->
   body (EWaste i) s = Some s' -> s_waiting s' = s_waiting s /\ busy s').
Proof.
  intros Hs Hb. split; intros Hr E; cbn [body] in E; pose proof Hr as (a & p & Ea & _ & _);
    rewrite Ea in E, Hr; cbn [mbind option_bind] in E; unfold drop_held in E; simpl in E;
    destruct (take_key id i (s_held s)) as [[x held]|]; simplify_eq/=;
    (split; [done|]; by eapply busy_return).
Qed.

Lemma seq_step_ok cap qcap e s s' : seq_ok cap qcap s -> seq_step e s = Some s' -> seq_ok cap qcap s'.
Proof.
  intros Hseq E. destruct Hseq as [Hs Hw Hb] eqn:Eq.
  destruct e as [now r ex wait|now r|now i|i|now i v| | |ec t]; [by eapply busy_get|done|..];
    (apply step_inv in E as [He Eb]; destruct (step_good _ _ _ _ Hs He) as (s1 & E1 & Hs1 & _);
     assert (s1 = s') as -> by congruence; clear E1).
  - apply bool_decide_eq_true in He.
    destruct (busy_recycle cap qcap (Some now) i s s' Hs Hb) as [Hr _]. destruct Hr as [Hw' Hb'].
    { apply recycle_spec; [apply Hs|]. by rewrite (sok_held _ _ _ Hs). }
    { done. } split; [done|congruence|done].
  - apply bool_decide_eq_true in He.
    destruct (busy_recycle cap qcap None i s s' Hs Hb) as [_ Hr]. destruct Hr as [Hw' Hb'].
    { apply waste_spec; [apply Hs|]. by rewrite (sok_held _ _ _ Hs). }
    { done. } split; [done|congruence|done].
  - cbn [body] in Eb. simplify_eq. by split.
  - cbn [body] in Eb. simplify_eq. split; [done|done|]. unfold busy in *. simpl in *.
    intros Hq. destruct (Hb Hq) as (-> & -> & ->). done.
  - cbn [body] in Eb. destruct (disable_spec _ _ _ (sok_pool _ _ _ Hs)) as (p & Ed & _ & Hq & _).
    rewrite Ed in Eb. simpl in Eb. simplify_eq. split; [done|done|].
    unfold busy. simpl. by rewrite Hq.
  - cbn [body] in Eb. destruct (cancel_pool_spec _ _ ec t _ (sok_pool _ _ _ Hs)) as (po & q & Ec & _ & Hq).
    rewrite Ec in Eb. simpl in Eb. simplify_eq. split; [done|done|]. unfold busy. simpl.
    intros Hne. apply Hb. intros Hnil. rewrite Hnil in Hq. apply Permutation_nil_l in Hq.
    symmetry in Hq. by apply app_eq_nil in Hq as [_ Hq].
Qed.

Lemma seq_reachable_ok cap qcap p s : constructed cap qcap p -> seq_reachable (start p) s ->
  seq_ok cap qcap s.
Proof.
  intros Hc Hr. induction Hr as [|s e s' Hr IH E]; [|by eapply seq_step_ok].
  pose proof (constructed_ok _ _ _ Hc) as Hs. split; [done|done|]. unfold busy. intros Hq.
  exfalso. apply Hq. pose proof (sok_issued _ _ _ Hs) as Hi. simpl in Hi.
  by apply Permutation_nil_l in Hi.
Qed.

(** ** What the pool guarantees *)

(** C2: in every state the pool and its clients can reach, whatever the
    order in which threads get, recycle, waste and reset cells, the timer fires
    and the pool is invalidated or disabled: the available, used and wasted cells
    make up the capacity, the cells in use are exactly those clients hold, each by
    one client; the queue is within its capacity; every request was answered once,
    waits once in the queue or is about to be queued; and every step a client may
    take completes. *)
Theorem pool_conserves_cells_and_requests (cap qcap : nat) (p : pool_impl V Q) (s : system) :
  constructed cap qcap p -> reachable (start p) s ->
  (let st := storage_stats_of (storage_ (s_pool s)) in
   st_available st + st_used st + st_wasted st = cap)%nat
  /\ cell_it <$> used_ (storage_ (s_pool s)) ≡ₚ s_held s /\ NoDup (s_held s)
  /\ (queue_size (pool_stats (s_pool s)) <= qcap)%nat
  /\ NoDup ((s_answers s).*1 ++ (s_waiting s).*1 ++ queued_requests (s_pool s))
  /\ s_issued s ≡ₚ (s_answers s).*1 ++ (s_waiting s).*1 ++ queued_requests (s_pool s)
  /\ (forall e, enabled e s = true -> is_Some (step e s)).
Proof.
  intros Hc Hr. pose proof (reachable_ok _ _ _ _ Hc Hr) as Hs.
  pose proof Hs as [[Hst Hq Hcap] Hh Hi Hn]. repeat split.
  - by apply ok_sizes.
  - done.
  - rewrite <- Hh. by eapply in_use_NoDup.
  - simpl. rewrite <- Hcap. by apply rq_bound.
  - by rewrite <- Hi.
  - done.
  - intros e He. unfold step. rewrite He.
    destruct (step_good _ _ _ _ Hs He) as (s' & -> & _). by eexists.
Qed.

(** C25: the cell of every successful answer, taken from the available or
    the wasted ones or handed over from another client, is empty or holds a
    resource that was not invalidated and has not lived its lifespan when the
    answer is given. *)
Theorem handed_out_resources_are_live (cap qcap : nat) (p : pool_impl V Q) (s s' : system)
    (e : event) :
  constructed cap qcap p -> reachable (start p) s -> step e s = Some s' ->
  exists new, s_answers s' = s_answers s ++ new
    /\ forall r i, (r, Cell i) ∈ new -> delivered (event_time e) i (storage_ (s_pool s')).
Proof.
  intros Hc Hr [He Hb]%step_inv.
  destruct (step_good _ _ _ _ (reachable_ok _ _ _ _ Hc Hr) He) as (s1 & E & _ & Hd).
  replace s' with s1 by congruence. exact Hd.
Qed.

(** C26: in a pool whose every call of [get] has run to its end before anything else
    happened to the pool, from its construction on, a request waits in the queue only
    while all cells are in the hands of clients and the pool is not disabled.  Where
    something was done between the two locks of a [get] it need not be so, also
    afterwards. *)
Theorem requests_wait_only_for_busy_cells (cap qcap : nat) (p : pool_impl V Q) (s : system) :
  constructed cap qcap p -> seq_reachable (start p) s ->
  queued_requests (s_pool s) <> [] ->
  available_ (storage_ (s_pool s)) = [] /\ wasted_ (storage_ (s_pool s)) = []
  /\ length (s_held s) = cap /\ disabled_ (s_pool s) = false.
Proof.
  intros Hc Hr Hq. destruct (seq_reachable_ok _ _ _ _ Hc Hr) as [Hs _ Hb].
  destruct (Hb Hq) as (Ha & Hw & Hd). do 2 (split; [done|]). split; [|done].
  pose proof (ok_sizes cap _ (pok_storage _ _ _ (sok_pool _ _ _ Hs))) as Hsz. simpl in Hsz.
  rewrite <- (sok_held _ _ _ Hs). unfold cells_in_use.
  rewrite length_fmap. rewrite Ha, Hw in Hsz. simpl in Hsz. lia.
Qed.

End pool.
Arguments system V Q : clear implicits.
Arguments event V : clear implicits.

(** ** Concrete runs, on the queue of the library *)
Section runs.

Definition io : executor := Executor 0 0.
Definition fresh_pool (cap qcap : nat) : pool_impl nat (queue nat) :=
  PoolImpl (make_storage cap 100 100) cap (make_queue qcap) false.

Lemma fresh_pool_constructed cap qcap : cap <> O -> constructed cap qcap (fresh_pool cap qcap).
Proof. intros Hc. apply (constructed_empty cap qcap 100 100). by destruct cap. Qed.

Lemma reachable_run (es : list (event nat)) (s0 s : system nat (queue nat)) :
  run es s0 = Some s -> reachable s0 s.
Proof.
  assert (Hgen : forall es s1, reachable s0 s1 -> run es s1 = Some s -> reachable s0 s).
  { clear es. induction es as [|e es IH]; intros s1 Hr E; simpl in E; [by simplify_eq|].
    destruct (step e s1) as [s2|] eqn:Es; simplify_eq/=. apply (IH s2); [|done].
    by eapply reachable_step. }
  apply Hgen. constructor.
Qed.

(** One client takes the cell, stores a resource and gives it to the next. *)
Definition hand_over : list (event nat) :=
  [EGet 0 1 io 10; EReset 1 0 42%nat; EGet 2 2 io 10; EQueue 2 2; ERecycle 3 0].

Lemma pool_conserves_cells_and_requests_witness :
  match run hand_over (start (fresh_pool 1 1)) with
  | Some s => s_answers s = [(1%nat, Cell 0); (2%nat, Cell 0)] /\ s_held s = [0%nat]
      /\ NoDup ((s_answers s).*1 ++ (s_waiting s).*1 ++ queued_requests (s_pool s))
  | None => False
  end.
Proof.
  destruct (run hand_over (start (fresh_pool 1 1))) as [s|] eqn:E.
  - pose proof (pool_conserves_cells_and_requests 1 1 _ s
      (fresh_pool_constructed 1 1 ltac:(done)) (reachable_run _ _ _ E)) as (_ & _ & _ & _ & Hn & _).
    split; [|split; [|exact Hn]]; vm_compute in E; injection E as <-; reflexivity.
  - vm_compute in E. discriminate E.
Defined.

Lemma handed_out_resources_are_live_witness :
  match run (take 4 hand_over) (start (fresh_pool 1 1)) with
  | Some s => exists s', step (ERecycle 3 0) s = Some s'
      /\ exists new, s_answers s' = s_answers s ++ new /\ new = [(2%nat, Cell 0)]
      /\ forall r i, (r, Cell i) ∈ new -> delivered (Some 3) i (storage_ (s_pool s'))
  | None => False
  end.
Proof.
  destruct (run (take 4 hand_over) (start (fresh_pool 1 1))) as [s|] eqn:E;
    [|vm_compute in E; discriminate E].
  destruct (step (ERecycle 3 0) s) as [s'|] eqn:E';
    [|vm_compute in E; injection E as <-; vm_compute in E'; discriminate E'].
  exists s'. split; [done|].
  destruct (handed_out_resources_are_live 1 1 _ s s' _ (fresh_pool_constructed 1 1 ltac:(done))
    (reachable_run _ _ _ E) E') as (new & Ha & Hd).
  exists new. split; [done|]. split; [|exact Hd].
  vm_compute in E. injection E as <-. vm_compute in E'. injection E' as <-. cbn [s_answers] in Ha.
  change [(1%nat, Cell 0); (2%nat, Cell 0)] with ([(1%nat, Cell 0)] ++ [(2%nat, Cell 0)]) in Ha.
  by apply app_inv_head in Ha.
Defined.

Lemma requests_wait_only_for_busy_cells_witness :
  exists s, seq_reachable (start (fresh_pool 1 1)) s
    /\ queued_requests (s_pool s) = [2%nat] /\ length (s_held s) = 1%nat.
Proof.
  destruct (seq_step (EGet 0 1 io 10) (start (fresh_pool 1 1))) as [s1|] eqn:E1;
    [|vm_compute in E1; discriminate E1].
  destruct (seq_step (EGet 1 2 io 10) s1) as [s2|] eqn:E2;
    [|vm_compute in E1; injection E1 as <-; vm_compute in E2; discriminate E2].
  assert (Hr : seq_reachable (start (fresh_pool 1 1)) s2)
    by (eapply seq_next; [eapply seq_next; [constructor|exact E1]|exact E2]).
  assert (Hq : queued_requests (s_pool s2) = [2%nat])
    by (vm_compute in E1; injection E1 as <-; vm_compute in E2; injection E2 as <-; reflexivity).
  exists s2. split; [done|]. split; [done|].
  apply (requests_wait_only_for_busy_cells 1 1 _ s2 (fresh_pool_constructed 1 1 ltac:(done)) Hr).
  by rewrite Hq.
Defined.

(** [get] gives the mutex up between finding every cell in use and
    queueing its request.  If the cell comes back in between, the request waits
    although a cell is available and nobody holds one; if the pool is disabled in
    between, the request is queued in a disabled pool. *)
Theorem wakeup_is_lost_between_unlock_and_push :
  (exists s, run [EGet 0 1 io 10; EGet 1 2 io 10; ERecycle 2 0; EQueue 3 2]
               (start (fresh_pool 1 1)) = Some s
     /\ queued_requests (s_pool s) = [2%nat] /\ s_waiting s = [] /\ s_held s = []
     /\ available (pool_stats (s_pool s)) = 1%nat)
  /\ (exists s, run [EGet 0 1 io 10; EGet 1 2 io 10; EDisable; EQueue 3 2]
                  (start (fresh_pool 1 1)) = Some s
        /\ queued_requests (s_pool s) = [2%nat] /\ disabled_ (s_pool s) = true).
Proof. split; (eexists; split; [vm_compute; reflexivity|]); vm_compute; auto. Qed.

(** A cell marked by [invalidate] that is handed over to a queued
    request keeps its mark.  The resource the next client stores in it, created
    after the invalidation and within its lifespan, is wasted when it comes
    back. *)
Theorem handed_over_cell_keeps_its_mark :
  exists s, run [EGet 0 1 io 10; EReset 1 0 41%nat; EGet 2 2 io 10; EQueue 2 2; EInvalidate;
                 ERecycle 3 0; EReset 4 0 42%nat; ERecycle 5 0] (start (fresh_pool 1 1)) = Some s
    /\ available_ (storage_ (s_pool s)) = []
    /\ (value <$> wasted_ (storage_ (s_pool s))) = [None]
    /\ (life_end (storage_ (s_pool s)) <$> wasted_ (storage_ (s_pool s))) = [104].
Proof. eexists; split; [vm_compute; reflexivity|]; vm_compute; auto. Qed.

End runs.
End ResourcePool.
