(* ===== verification/PoolDisable.v ===== *)
(** * Disabling the resource pool: [pool_impl::disable] while other threads run

    [disable] holds the mutex of the pool for its whole loop, but the queue has a mutex
    of its own: between two turns of the loop the timer of the queue may answer
    requests, and a thread that gave the mutex of the pool up inside [get] may queue
    one.  The handler of a request it takes out is dispatched with the mutex locked:
    it may run at once, inside [disable], and one that calls the pool then waits for
    ever for the mutex its own thread holds.  Here the loop is taken turn by turn,
    over the steps of [ResourcePool]. *)

From stdpp Require Import sets.
From S2P Require Import Prelude Words Time Errors PoolStorage PoolQueue ResourcePool.
Import Storage PoolQueue ResourcePool.
#[local] Open Scope Z_scope.

Module Disabling.

Section disabling.
Context {V Q : Type} `{RequestQueue nat Q}.

(** Where the thread that calls [disable] is: outside, at the head of the loop, inside
    a handler that [asio::dispatch] runs at once, or waiting inside such a handler for
    the mutex it has locked itself.  It has the mutex everywhere but outside. *)
Inductive disable_at := outside | at_loop | in_handler | blocked.

Record disabling := Disabling_ { d_system : system V Q; d_at : disable_at }.

(** What happens: a step of the pool and its clients on another thread, the entry into
    [disable], a turn of its loop with the handler dispatched run at once or not, and
    what a handler that runs at once does: an operation of the pool, its return. *)
Inductive disabling_event :=
| other (e : event V)
| disable_enter
| disable_turn (at_once : bool)
| handler_does (e : event V)
| handler_returns.

#[export] Instance disable_at_eq_dec : EqDecision disable_at.
Proof. solve_decision. Defined.

Definition has_mutex (a : disable_at) : bool := match a with outside => false | _ => true end.

(** [get], [recycle], [waste] and [invalidate] begin with the mutex of the pool; queueing
    a request, writing a cell and the timer do without. *)
Definition needs_mutex (e : event V) : bool :=
  match e with
  | EGet _ _ _ _ | ERecycle _ _ | EWaste _ | EInvalidate | EDisable => true
  | EQueue _ _ | EReset _ _ _ | ETimer _ _ => false
  end.

Definition mark_disabled (p : pool_impl V Q) : pool_impl V Q :=
  PoolImpl (storage_ p) (capacity_ p) (callbacks_ p) true.

(** One turn: a request popped and its handler dispatched, or the end of the loop. *)
Definition turn (at_once : bool) (s : system V Q) : option (system V Q * disable_at) :=
  '(queued, q) ← rq_pop (callbacks_ (s_pool s));
  let s := set_pool (set_callbacks q (s_pool s)) s in
  Some (match queued with
        | None => (s, outside)
        | Some (r, _) => (post [(r, Failed disabled)] s, if at_once then in_handler else at_loop)
        end).

Definition disabling_step (ev : disabling_event) (d : disabling) : option disabling :=
  match ev, d_at d with
  | other EDisable, _ => None
  | other e, a =>
      if has_mutex a && needs_mutex e then None
      else s ← step e (d_system d); Some (Disabling_ s a)
  | disable_enter, outside =>
      Some (Disabling_ (set_pool (mark_disabled (s_pool (d_system d))) (d_system d)) at_loop)
  | disable_turn at_once, at_loop => '(s, a) ← turn at_once (d_system d); Some (Disabling_ s a)
  | handler_does e, in_handler =>
      if needs_mutex e then Some (Disabling_ (d_system d) blocked)
      else match e with
           | EReset _ _ _ => s ← step e (d_system d); Some (Disabling_ s in_handler)
           | _ => None
           end
  | handler_returns, in_handler => Some (Disabling_ (d_system d) at_loop)
  | _, _ => None
  end.

Fixpoint disabling_run (evs : list disabling_event) (d : disabling) : option disabling :=
  match evs with
  | [] => Some d
  | ev :: evs => d ← disabling_step ev d; disabling_run evs d
  end.

Inductive disabling_reachable (p : pool_impl V Q) : disabling -> Prop :=
| disabling_start : disabling_reachable p (Disabling_ (start p) outside)
| disabling_next d ev d' : disabling_reachable p d -> disabling_step ev d = Some d' ->
    disabling_reachable p d'.

Implicit Types (d : disabling) (s : system V Q).

(** The requests that have no answer yet. *)
Definition outstanding s : list nat := (s_waiting s).*1 ++ queued_requests (s_pool s).

(** A request was answered with one of the errors of [disable] and of the timer. *)
Definition refused r s : Prop :=
  (r, Failed disabled) ∈ s_answers s \/ (r, Failed get_resource_timeout) ∈ s_answers s.

(** ** The system after a step *)

Record disabling_ok (cap qcap : nat) d : Prop := {
  dok_system : sys_ok cap qcap (d_system d);
  dok_inside : d_at d <> outside -> disabled_ (s_pool (d_system d)) = true
}.

Lemma turn_spec cap qcap at_once s : sys_ok cap qcap s ->
  exists s' b, turn at_once s = Some (s', b) /\ sys_ok cap qcap s' /\ disabled_ (s_pool s') = disabled_ (s_pool s)
    /\ s_issued s' = s_issued s /\ s_waiting s' = s_waiting s
    /\ match queued_requests (s_pool s) with
       | [] => b = outside /\ queued_requests (s_pool s') = [] /\ s_answers s' = s_answers s
       | r :: rs => b = (if at_once then in_handler else at_loop) /\ queued_requests (s_pool s') = rs
           /\ s_answers s' = s_answers s ++ [(r, Failed disabled)]
       end.
Proof.
  intros [Hp Hh Hi Hn]. unfold turn.
  destruct (pop_queued _ _ _ Hp) as (x & q & -> & Hp' & Hm). cbn [mbind option_bind].
  destruct (queued_requests (s_pool s)) as [|r rs].
  - destruct Hm as [-> Hq]. eexists _, outside. split; [done|]. split; [|by repeat split].
    split; simpl; [done|done| |done]. by rewrite Hi, Hq.
  - destruct Hm as (ex & -> & Hq). eexists _, _. split; [done|]. split; [|by repeat split].
    apply post_ok; simpl; [done|by rewrite app_nil_r| |done]. rewrite Hi, Hq. solve_Permutation.
Qed.

(** A step that makes no request gives answers to outstanding ones only. *)
Lemma outstanding_step cap qcap s s' : sys_ok cap qcap s -> sys_ok cap qcap s' ->
  s_issued s' = s_issued s -> forall new, s_answers s' = s_answers s ++ new ->
  new.*1 ++ outstanding s' ≡ₚ outstanding s.
Proof.
  intros Hs Hs' Hi new Ha. pose proof (sok_issued _ _ _ Hs) as H1. pose proof (sok_issued _ _ _ Hs') as H2.
  rewrite Hi, H1, Ha, fmap_app, <- app_assoc in H2. by apply Permutation_app_inv_l in H2.
Qed.

Lemma other_step cap qcap e s s' : sys_ok cap qcap s -> step e s = Some s' ->
  sys_ok cap qcap s' /\ exists new, s_answers s' = s_answers s ++ new.
Proof.
  intros Hs [He Hb]%step_inv. destruct (step_good cap qcap e s Hs He) as (s1 & E & Hok & new & Ha & _).
  simplify_eq. split; [done|]. by exists new.
Qed.

(** What a step does to the mark of a disabled pool and to the requests made. *)
Lemma step_marks cap qcap e s s' : sys_ok cap qcap s -> step e s = Some s' ->
  match e with
  | EDisable => True
  | EGet _ r _ _ => disabled_ (s_pool s') = disabled_ (s_pool s)
      /\ (disabled_ (s_pool s) = true -> outstanding s' = outstanding s)
  | _ => disabled_ (s_pool s') = disabled_ (s_pool s) /\ s_issued s' = s_issued s
  end.
Proof.
  intros Hs [He Hb]%step_inv. pose proof (sok_pool _ _ _ Hs) as Hp.
  destruct e as [now r ex wait|now r|now i|i|now i v| | |ec t]; cbn [body] in Hb; [..|done|].
  - destruct (get_locked_spec cap qcap now _ Hp) as (a & p & El & _ & Hc & Hd & Ha). rewrite El in Hb.
    destruct a as [[i|e]|]; simplify_eq/=; (split; [done|]; intros Ht).
    + destruct Ha as (_ & _ & Hf). congruence.
    + by destruct Ha as (-> & _).
    + destruct Ha as (_ & Hf & _). congruence.
  - destruct (take_key fst r (s_waiting s)) as [[[r' [ex wait]] w]|]; [|done]. cbn [mbind option_bind] in Hb.
    destruct (get_unlocked_spec cap qcap now ex r wait _ Hp) as (a & p & Eu & _ & _ & Hd & _).
    rewrite Eu in Hb. simplify_eq/=. by destruct a.
  - destruct (recycle_spec cap qcap now i _ Hp) as (a & p & Er & _ & Hd & _).
    { rewrite (sok_held _ _ _ Hs). by apply bool_decide_eq_true in He. }
    rewrite Er in Hb. cbn [mbind option_bind] in Hb. unfold drop_held in Hb. simpl in Hb.
    by destruct (take_key id i (s_held s)) as [[x held]|]; simplify_eq/=.
  - destruct (waste_spec cap qcap i _ Hp) as (a & p & Er & _ & Hd & _).
    { rewrite (sok_held _ _ _ Hs). by apply bool_decide_eq_true in He. }
    rewrite Er in Hb. cbn [mbind option_bind] in Hb. unfold drop_held in Hb. simpl in Hb.
    by destruct (take_key id i (s_held s)) as [[x held]|]; simplify_eq/=.
  - by simplify_eq/=.
  - by simplify_eq/=.
  - by destruct (rq_cancel ec t _) as [[posted q]|]; simplify_eq/=.
Qed.

(** Without the mutex nobody takes a request out of the queue but the timer. *)
Lemma queued_step cap qcap e s s' r : sys_ok cap qcap s -> needs_mutex e = false -> step e s = Some s' ->
  r ∈ queued_requests (s_pool s) -> r ∈ queued_requests (s_pool s') \/ refused r s'.
Proof.
  intros Hs Hm [He Hb]%step_inv Hr. pose proof (sok_pool _ _ _ Hs) as Hp.
  destruct e as [now r' ex wait|now r'|now i|i|now i v| | |ec t]; try done; cbn [body] in Hb.
  - destruct (take_key fst r' (s_waiting s)) as [[[r1 [ex wait]] w]|]; [|done]. cbn [mbind option_bind] in Hb.
    destruct (get_unlocked_spec cap qcap now ex r' wait _ Hp) as (a & p & Eu & _ & _ & _ & Ha).
    rewrite Eu in Hb. simplify_eq/=. left. destruct a; simpl.
    + destruct Ha as [Ha _]. unfold queued_requests. by rewrite Ha.
    + rewrite Ha. set_solver.
  - simplify_eq/=. by left.
  - destruct (cancel_pool_spec _ _ ec t _ Hp) as (posted & q & Ec & _ & Hq). rewrite Ec in Hb. simplify_eq/=.
    rewrite Hq in Hr. apply elem_of_app in Hr as [Hr|Hr]; [right; right|by left]. simpl.
    apply elem_of_app. right. apply list_elem_of_fmap in Hr as (x & -> & Hx). apply list_elem_of_fmap. by exists x.
Qed.

Lemma refused_mono r s s' new : s_answers s' = s_answers s ++ new -> refused r s -> refused r s'.
Proof. unfold refused. intros ->. set_solver. Qed.

(** ** Runs *)

(** A step of another thread. *)
Lemma other_inv e d d' : disabling_step (other e) d = Some d' ->
  exists s', step e (d_system d) = Some s' /\ d' = Disabling_ s' (d_at d) /\ e <> EDisable
    /\ (d_at d <> outside -> needs_mutex e = false).
Proof.
  intros E. assert (e <> EDisable /\ (if has_mutex (d_at d) && needs_mutex e then None
      else s ← step e (d_system d); Some (Disabling_ s (d_at d))) = Some d') as [He E'].
  { cbn [disabling_step] in E. by destruct e. }
  destruct (has_mutex (d_at d) && needs_mutex e) eqn:Em; [done|].
  destruct (step e (d_system d)) as [s'|]; [|done]. simplify_eq/=. exists s'. split_and!; [done..|].
  intros Ha. destruct (d_at d); [done|by simpl in Em..].
Qed.

(** What the handler does. *)
Lemma handler_inv e d d' : disabling_step (handler_does e) d = Some d' -> d_at d = in_handler
  /\ (if needs_mutex e then d' = Disabling_ (d_system d) blocked
      else exists s', step e (d_system d) = Some s' /\ d' = Disabling_ s' in_handler).
Proof.
  cbn [disabling_step]. destruct (d_at d); try done. intros E. split; [done|].
  destruct e; simpl in *; simplify_eq; try done. destruct (step _ _) as [s'|]; simplify_eq/=. by exists s'.
Qed.

(** Every event but a turn and the entry leaves the system as it is or makes a step. *)
Lemma disabling_inv ev d d' : disabling_step ev d = Some d' ->
  match ev with
  | other e => exists s', step e (d_system d) = Some s' /\ d' = Disabling_ s' (d_at d) /\ e <> EDisable
      /\ (d_at d <> outside -> needs_mutex e = false)
  | disable_enter => d_at d = outside
      /\ d' = Disabling_ (set_pool (mark_disabled (s_pool (d_system d))) (d_system d)) at_loop
  | disable_turn b => d_at d = at_loop /\ exists s a, turn b (d_system d) = Some (s, a) /\ d' = Disabling_ s a
  | handler_does e => d_at d = in_handler
      /\ (if needs_mutex e then d' = Disabling_ (d_system d) blocked
          else exists s', step e (d_system d) = Some s' /\ d' = Disabling_ s' in_handler)
  | handler_returns => d_at d = in_handler /\ d' = Disabling_ (d_system d) at_loop
  end.
Proof.
  destruct ev as [e| |b|e|]; [apply other_inv| | |apply handler_inv|]; cbn [disabling_step];
    destruct (d_at d); try done; [by intros [= <-]| |by intros [= <-]].
  destruct (turn b (d_system d)) as [[s a]|]; [|done]. intros [= <-]. split; [done|]. by exists s, a.
Qed.

Lemma disabling_step_ok cap qcap ev d d' : disabling_ok cap qcap d -> disabling_step ev d = Some d' ->
  disabling_ok cap qcap d' /\ exists new, s_answers (d_system d') = s_answers (d_system d) ++ new.
Proof.
  intros [Hs Hi] E%disabling_inv.
  assert (Hstep : forall e s' a, step e (d_system d) = Some s' -> e <> EDisable -> (a <> outside -> d_at d <> outside) ->
    disabling_ok cap qcap (Disabling_ s' a) /\ exists new, s_answers s' = s_answers (d_system d) ++ new).
  { intros e s' a Es Hne Ha. destruct (other_step _ _ _ _ _ Hs Es) as [Hs' Hn]. split; [split; [done|]|done].
    intros Hin. simpl in *. rewrite <- (Hi (Ha Hin)). pose proof (step_marks _ _ _ _ _ Hs Es) as Hm.
    destruct e; try done; apply Hm. }
  destruct ev as [e| |b|e|].
  - destruct E as (s' & Es & -> & Hne & _). by apply (Hstep e).
  - destruct E as [_ ->]. split; [|exists []; by rewrite app_nil_r]. split; simpl; [|done].
    by destruct Hs as [[??]???].
  - destruct E as (Ha & s' & a & Et & ->).
    destruct (turn_spec _ _ b _ Hs) as (s1 & b1 & Et1 & Hs' & Hd & _ & _ & Hq). rewrite Et in Et1. simplify_eq.
    split; [split; [done|]; intros _; simpl; rewrite Hd; apply Hi; by rewrite Ha|].
    destruct (queued_requests (s_pool (d_system d))); destruct Hq as (_ & _ & Hq); [exists []|by eexists].
    simpl. by rewrite Hq, app_nil_r.
  - destruct E as [Ha E]. destruct (needs_mutex e) eqn:Em.
    + subst d'. split; [split; simpl; [done|]; intros _; apply Hi; by rewrite Ha|]. exists []. by rewrite app_nil_r.
    + destruct E as (s' & Es & ->). apply (Hstep e); [done|by destruct e|by rewrite Ha].
  - destruct E as [Ha ->]. split; [split; simpl; [done|]; intros _; apply Hi; by rewrite Ha|].
    exists []. by rewrite app_nil_r.
Qed.

Lemma disabling_reachable_ok cap qcap p d : constructed cap qcap p -> disabling_reachable p d ->
  disabling_ok cap qcap d.
Proof.
  intros Hc Hr. induction Hr as [|d ev d' Hr IH E]; [|by eapply disabling_step_ok].
  split; [by apply constructed_ok|done].
Qed.

Lemma disabling_run_ok cap qcap evs d d' : disabling_ok cap qcap d -> disabling_run evs d = Some d' ->
  disabling_ok cap qcap d' /\ forall r, refused r (d_system d) -> refused r (d_system d').
Proof.
  revert d. induction evs as [|ev evs IH]; intros d Hd E; simpl in E; [by simplify_eq|].
  destruct (disabling_step ev d) as [d1|] eqn:E1; [|done].
  destruct (disabling_step_ok _ _ _ _ _ Hd E1) as [Hd1 [new Hn]].
  destruct (IH d1 Hd1 E) as [H1 H2]. split; [done|]. intros r Hr. apply H2. by eapply refused_mono.
Qed.

(** A step of the pool leaves a disabled pool disabled and takes no new requests. *)
Lemma disabled_system_step cap qcap e s s' : sys_ok cap qcap s -> e <> EDisable -> step e s = Some s' ->
  disabled_ (s_pool s) = true ->
  disabled_ (s_pool s') = true /\ outstanding s' ⊆ outstanding s.
Proof.
  intros Hs Hne Es Hd. destruct (other_step _ _ _ _ _ Hs Es) as [Hs' [new Hn]].
  pose proof (step_marks _ _ _ _ _ Hs Es) as Hm.
  destruct e as [now r ex wait| | | | | | |]; try done; destruct Hm as [Hm Ho];
    (split; [by rewrite <- Hd|]); [by rewrite Ho|..];
    rewrite <- (outstanding_step _ _ _ _ Hs Hs' Ho new Hn); set_solver.
Qed.

Lemma disabled_step cap qcap ev d d' : disabling_ok cap qcap d -> disabling_step ev d = Some d' ->
  disabled_ (s_pool (d_system d)) = true ->
  disabled_ (s_pool (d_system d')) = true /\ outstanding (d_system d') ⊆ outstanding (d_system d).
Proof.
  intros [Hs Hi] E%disabling_inv Hd. destruct ev as [e| |b|e|].
  - destruct E as (s' & Es & -> & Hne & _). by apply (disabled_system_step cap qcap e).
  - by destruct E as [_ ->].
  - destruct E as (_ & s' & a & Et & ->).
    destruct (turn_spec _ _ b _ Hs) as (s1 & b1 & Et1 & _ & Hd' & _ & Hw & Hq). rewrite Et in Et1. simplify_eq.
    split; [by rewrite <- Hd|]. unfold outstanding. simpl. rewrite Hw.
    destruct (queued_requests (s_pool (d_system d))); destruct Hq as (_ & -> & _); set_solver.
  - destruct E as [_ E]. destruct (needs_mutex e) eqn:Em; [by subst d'|]. destruct E as (s' & Es & ->).
    apply (disabled_system_step cap qcap e); [done|by destruct e|done..].
  - by destruct E as [_ ->].
Qed.

Lemma disabled_run cap qcap evs d d' : disabling_ok cap qcap d -> disabling_run evs d = Some d' ->
  disabled_ (s_pool (d_system d)) = true ->
  disabled_ (s_pool (d_system d')) = true /\ outstanding (d_system d') ⊆ outstanding (d_system d).
Proof.
  revert d. induction evs as [|ev evs IH]; intros d Hd E Hm; simpl in E; [by simplify_eq|].
  destruct (disabling_step ev d) as [d1|] eqn:E1; [|done].
  destruct (disabled_step _ _ _ _ _ Hd E1 Hm) as [Hm1 Ho1].
  destruct (IH d1) as [H1 H2]; [by eapply disabling_step_ok|done|done|]. split; [done|]. by etrans.
Qed.

(** The turns of the loop in a run, and runs within one call of [disable]. *)
Definition is_turn (ev : disabling_event) : bool := match ev with disable_turn _ => true | _ => false end.
Definition turns (evs : list disabling_event) : nat := length (List.filter is_turn evs).
Definition no_enter (ev : disabling_event) : bool := match ev with disable_enter => false | _ => true end.

(** The handler that runs at once does not call the pool. *)
Definition quiet (ev : disabling_event) : bool :=
  match ev with handler_does e => negb (needs_mutex e) | _ => true end.

Lemma turns_cons ev evs : turns (ev :: evs) = ((if is_turn ev then 1 else 0) + turns evs)%nat.
Proof. unfold turns. simpl. by destruct (is_turn ev). Qed.

(** A step of the pool made without its mutex while [disable] is going on. *)
Lemma inside_system_step cap qcap e s s' : sys_ok cap qcap s -> needs_mutex e = false -> step e s = Some s' ->
  (length (outstanding s') <= length (outstanding s))%nat
  /\ forall r, r ∈ queued_requests (s_pool s) -> r ∈ queued_requests (s_pool s') \/ refused r s'.
Proof.
  intros Hs Hm Es. split; [|intros r; by eapply queued_step].
  destruct (other_step _ _ _ _ _ Hs Es) as [Hs' [new Hn]]. pose proof (step_marks _ _ _ _ _ Hs Es) as Hk.
  assert (s_issued s' = s_issued s) as Hiss by (by destruct e; try done; destruct Hk).
  pose proof (outstanding_step _ _ _ _ Hs Hs' Hiss new Hn) as Ho%Permutation_length.
  rewrite length_app in Ho. lia.
Qed.

(** A step while a thread is inside [disable]. *)
Lemma inside_step cap qcap ev d d' : disabling_ok cap qcap d -> d_at d <> outside -> no_enter ev = true ->
  disabling_step ev d = Some d' ->
  (d_at d' <> outside
     /\ ((if is_turn ev then 1 else 0) + length (outstanding (d_system d')) <= length (outstanding (d_system d)))%nat
     /\ forall r, r ∈ queued_requests (s_pool (d_system d)) ->
          r ∈ queued_requests (s_pool (d_system d')) \/ refused r (d_system d'))
  \/ (d_at d' = outside /\ is_turn ev = true /\ queued_requests (s_pool (d_system d)) = []).
Proof.
  intros [Hs Hi] Hin Hne E%disabling_inv. destruct ev as [e| |b|e|]; [|done|..].
  - destruct E as (s' & Es & -> & _ & Hm). left. split; [done|]. by apply (inside_system_step cap qcap e); auto.
  - destruct E as (Ha & s' & a & Et & ->).
    destruct (turn_spec _ _ b _ Hs) as (s1 & b1 & Et1 & Hs' & _ & _ & Hw & Hq). rewrite Et in Et1. simplify_eq/=.
    unfold outstanding. rewrite Hw, !length_app.
    destruct (queued_requests (s_pool (d_system d))) as [|r rs]; destruct Hq as (-> & Hq & Hans); [by right|left].
    rewrite Hq. split; [by destruct b|]. split; [simpl; lia|].
    intros r' [->|Hr]%elem_of_cons; [right; left|by left]. rewrite Hans. set_solver.
  - destruct E as [Ha E]. left. destruct (needs_mutex e) eqn:Em.
    + subst d'. simpl. split; [done|]. split; [lia|by left].
    + destruct E as (s' & Es & ->). split; [done|]. by apply (inside_system_step cap qcap e).
  - destruct E as [_ ->]. left. simpl. split; [done|]. split; [lia|by left].
Qed.

(** After the loop nothing is taken for a turn of it. *)
Lemma outside_run evs d d' : d_at d = outside -> forallb no_enter evs = true ->
  disabling_run evs d = Some d' -> d_at d' = outside /\ turns evs = 0%nat.
Proof.
  revert d. induction evs as [|ev evs IH]; intros d Hin Hne E; simpl in E; [by simplify_eq|].
  simpl in Hne. apply andb_true_iff in Hne as [Hne1 Hne].
  destruct (disabling_step ev d) as [d1|] eqn:E1; [|done]. cbn [mbind option_bind] in E.
  apply disabling_inv in E1. rewrite turns_cons.
  destruct ev as [e| |b|e|]; [|done|destruct E1 as [E1 _]; congruence..].
  destruct E1 as (s' & _ & -> & _). by eapply IH in E.
Qed.

Lemma inside_run cap qcap evs d d' : disabling_ok cap qcap d -> d_at d <> outside ->
  forallb no_enter evs = true -> disabling_run evs d = Some d' ->
  (turns evs <= length (outstanding (d_system d)) + (if decide (d_at d' = outside) then 1 else 0))%nat
  /\ forall r, r ∈ queued_requests (s_pool (d_system d)) ->
       refused r (d_system d') \/ (d_at d' <> outside /\ r ∈ queued_requests (s_pool (d_system d'))).
Proof.
  revert d. induction evs as [|ev evs IH]; intros d Hd Hin Hne E; simpl in E.
  { simplify_eq. rewrite decide_False by done. split; [unfold turns; simpl; lia|]. by right. }
  simpl in Hne. apply andb_true_iff in Hne as [Hne1 Hne].
  destruct (disabling_step ev d) as [d1|] eqn:E1; [|done]. cbn [mbind option_bind] in E.
  destruct (disabling_step_ok _ _ _ _ _ Hd E1) as [Hd1 _]. rewrite turns_cons.
  destruct (inside_step _ _ _ _ _ Hd Hin Hne1 E1) as [(Hin1 & Hl & Hq)|(Hin1 & Ht & Hq)].
  - destruct (IH d1 Hd1 Hin1 Hne E) as (H1 & H2). split; [lia|]. intros r Hr.
    destruct (Hq r Hr) as [Hr'|Hr']; [by apply H2|left]. by apply (disabling_run_ok cap qcap evs d1).
  - destruct (outside_run _ _ _ Hin1 Hne E) as (H1 & H2). rewrite H1, H2, Ht, decide_True by done.
    split; [lia|]. rewrite Hq. by intros r ?%elem_of_nil.
Qed.

(** Who waits for the mutex it holds, waits for ever. *)
Lemma blocked_run evs d d' : d_at d = blocked -> disabling_run evs d = Some d' -> d_at d' = blocked.
Proof.
  revert d. induction evs as [|ev evs IH]; intros d Hb E; simpl in E; [by simplify_eq|].
  destruct (disabling_step ev d) as [d1|] eqn:E1; [|done]. apply (IH d1); [|done].
  apply disabling_inv in E1. destruct ev as [e| |b|e|]; [|destruct E1 as [E1 _]; congruence..].
  by destruct E1 as (s' & _ & -> & _).
Qed.

(** [disable] blocks exactly when a handler run at once calls the pool. *)
Lemma blocked_iff evs d d' : d_at d <> blocked -> disabling_run evs d = Some d' ->
  (d_at d' = blocked <-> forallb quiet evs = false).
Proof.
  revert d. induction evs as [|ev evs IH]; intros d Hb E; simpl in E; [by simplify_eq|].
  destruct (disabling_step ev d) as [d1|] eqn:E1; [|done]. cbn [mbind option_bind] in E. cbn [forallb].
  pose proof (disabling_inv _ _ _ E1) as Hi. destruct (quiet ev) eqn:Eq; cbn [andb].
  - apply (IH d1); [|done]. destruct ev as [e| |b|e|].
    + destruct Hi as (s' & _ & -> & _). done.
    + by destruct Hi as [_ ->].
    + destruct Hi as (_ & s' & a & Et & ->). unfold turn in Et.
      destruct (rq_pop _) as [[[[r ex]|] q]|]; simplify_eq/=; by destruct b.
    + destruct Hi as [_ Hi]. simpl in Eq. destruct (needs_mutex e); [done|]. by destruct Hi as (s' & _ & ->).
    + by destruct Hi as [_ ->].
  - split; [done|]. intros _. apply (blocked_run evs d1); [|done].
    destruct ev as [e| |b|e|]; try done. destruct Hi as [_ Hi]. simpl in Eq.
    destruct (needs_mutex e); [by subst d1|done].
Qed.

(** The loop with nobody in between. *)
Lemma undisturbed_turns n s answers q :
  disable_loop n (callbacks_ (s_pool s)) = Some (answers, q) ->
  disabling_run (replicate (S (length answers)) (disable_turn false)) (Disabling_ s at_loop)
  = Some (Disabling_ (post answers (set_pool (set_callbacks q (s_pool s)) s)) outside).
Proof.
  revert s answers. induction n as [|n IH]; intros s answers E; [done|]. cbn [disable_loop] in E.
  destruct (rq_pop (callbacks_ (s_pool s))) as [[[[r ex]|] q1]|] eqn:Ep; [| |done]; cbn [mbind option_bind] in E.
  - destruct (disable_loop n q1) as [[rest q2]|] eqn:El; [|done]. cbn [mbind option_bind] in E.
    injection E as <- <-.
    change (replicate (S (length ((r, Failed disabled) :: rest))) (disable_turn false))
      with (disable_turn false :: replicate (S (length rest)) (disable_turn false)).
    cbn [disabling_run disabling_step d_at d_system]. unfold turn. rewrite Ep. cbn [mbind option_bind].
    rewrite (IH (post [(r, Failed disabled)] (set_pool (set_callbacks q1 (s_pool s)) s)) rest El).
    unfold post, set_pool, set_callbacks. simpl. by rewrite app_nil_r, <- app_assoc.
  - injection E as <- <-. cbn [length replicate disabling_run disabling_step d_at d_system]. unfold turn.
    rewrite Ep. cbn [mbind option_bind]. unfold post. simpl. by rewrite !app_nil_r.
Qed.

(** With nobody in between and the handlers posted, the loop is the one step [EDisable] of [ResourcePool]. *)
Theorem undisturbed_disable_is_one_step cap qcap p s : constructed cap qcap p -> reachable (start p) s ->
  exists s' n, step EDisable s = Some s'
    /\ disabling_run (disable_enter :: replicate n (disable_turn false)) (Disabling_ s outside)
       = Some (Disabling_ s' outside).
Proof.
  intros Hc Hr. pose proof (reachable_ok _ _ _ _ Hc Hr) as Hs.
  destruct (step_good cap qcap EDisable s Hs eq_refl) as (s' & Eb & _).
  assert (step EDisable s = Some s') as Es by exact Eb. exists s'. cbn [body] in Eb. unfold disable in Eb.
  destruct (disable_loop _ _) as [[answers q]|] eqn:El; [|done]. cbn [mbind option_bind] in Eb. simplify_eq.
  exists (S (length answers)). split; [done|]. cbn [disabling_run disabling_step d_at d_system mbind option_bind].
  by rewrite (undisturbed_turns _ (set_pool (mark_disabled (s_pool s)) s) _ _ El).
Qed.

(** C10: a call of [disable] returns and leaves no request behind, whatever
    happens between two turns of its loop, as long as no handler that [asio::dispatch]
    runs at once calls the pool.  The thread inside it can always take its next turn or
    return from such a handler, and takes at most one turn per request without an
    answer and a last one; it is blocked exactly when a handler run at once calls the
    pool, and then for ever, with the mutex.  When it has returned, every request that
    was queued was answered, by it or by the timer; the pool stays disabled, and a
    request that still has no answer is one of a thread that was inside [get]; all the
    while every request has one answer, waits once, or is about to be queued once. *)
Theorem disable_returns_and_empties_queue (cap qcap : nat) (p : pool_impl V Q) d d'
    (evs : list disabling_event) :
  constructed cap qcap p -> disabling_reachable p d -> d_at d <> outside -> d_at d <> blocked ->
  forallb no_enter evs = true -> disabling_run evs d = Some d' ->
  (forall b, d_at d' = at_loop -> is_Some (disabling_step (disable_turn b) d'))
  /\ (d_at d' = in_handler -> is_Some (disabling_step handler_returns d'))
  /\ (turns evs <= length (outstanding (d_system d)) + (if decide (d_at d' = outside) then 1 else 0))%nat
  /\ (d_at d' = blocked <-> forallb quiet evs = false)
  /\ (d_at d' = blocked -> forall evs' d2, disabling_run evs' d' = Some d2 -> d_at d2 = blocked)
  /\ disabled_ (s_pool (d_system d')) = true
  /\ (d_at d' = outside ->
       (forall r, r ∈ queued_requests (s_pool (d_system d)) -> refused r (d_system d'))
       /\ forall r, r ∈ outstanding (d_system d') -> r ∈ (s_waiting (d_system d)).*1)
  /\ s_issued (d_system d') ≡ₚ (s_answers (d_system d')).*1 ++ outstanding (d_system d')
  /\ NoDup (s_issued (d_system d')).
Proof.
  intros Hc Hr Hin Hnb Hne E. pose proof (disabling_reachable_ok _ _ _ _ Hc Hr) as Hd.
  destruct (inside_run _ _ _ _ _ Hd Hin Hne E) as [Ht Hq].
  destruct (disabling_run_ok _ _ _ _ _ Hd E) as [Hd' _].
  destruct (disabled_run _ _ _ _ _ Hd E (dok_inside _ _ _ Hd Hin)) as [Hm Ho].
  pose proof (dok_system _ _ _ Hd') as Hs'. destruct Hd' as [[_ _ Hi Hn] _].
  split_and!; [| |done|by apply (blocked_iff evs d)| |done| |done|done].
  - intros b Ha. cbn [disabling_step]. rewrite Ha. destruct (turn_spec _ _ b _ Hs') as (s' & a & -> & _). by eexists.
  - intros Ha. cbn [disabling_step]. rewrite Ha. by eexists.
  - intros Hb evs' d2. by apply blocked_run.
  - intros Hout. assert (forall r, r ∈ queued_requests (s_pool (d_system d)) -> refused r (d_system d')) as Hall.
    { intros r Hr'. destruct (Hq r Hr') as [|[Hf _]]; [done|congruence]. }
    split; [done|]. intros r Hr'. pose proof (Ho r Hr') as Hr1. apply elem_of_app in Hr1 as [Hr1|Hr1]; [done|].
    exfalso. rewrite Hi in Hn. apply NoDup_app in Hn as (_ & Hn & _). apply (Hn r); [|done].
    destruct (Hall r Hr1) as [Ha|Ha]; apply (list_elem_of_fmap_2 fst) in Ha; exact Ha.
Qed.
End disabling.
Arguments disabling V Q : clear implicits.
Arguments disabling_event V : clear implicits.

Lemma disabling_reachable_run {V Q} `{RequestQueue nat Q} (p : pool_impl V Q) evs d :
  disabling_run evs (Disabling_ (start p) outside) = Some d -> disabling_reachable p d.
Proof.
  assert (Hgen : forall evs d1, disabling_reachable p d1 -> disabling_run evs d1 = Some d ->
    disabling_reachable p d).
  { clear evs. induction evs as [|ev evs IH]; intros d1 Hr E; simpl in E; [by simplify_eq|].
    destruct (disabling_step ev d1) as [d2|] eqn:Es; simplify_eq/=. apply (IH d2); [|done].
    by eapply disabling_next. }
  apply Hgen. constructor.
Qed.

(** One request is queued, another about to be, when [disable] is entered; the second one
    is queued between two turns and refused with the first, whose handler runs at once
    and leaves the pool alone. *)
Definition before_disable : list (disabling_event nat) :=
  [other (EGet 0 1 io 10); other (EGet 1 2 io 10); other (EQueue 1 2); other (EGet 2 3 io 10); disable_enter].
Definition during_disable : list (disabling_event nat) :=
  [disable_turn true; other (EQueue 3 3); handler_returns; disable_turn false; disable_turn false].

Lemma disable_returns_and_empties_queue_witness :
  exists d d', disabling_reachable (fresh_pool 1 2) d /\ d_at d = at_loop
    /\ disabling_run during_disable d = Some d' /\ d_at d' = outside
    /\ s_answers (d_system d') = [(1%nat, Cell 0); (2%nat, Failed disabled); (3%nat, Failed disabled)]
    /\ (turns during_disable <= length (outstanding (d_system d)) + 1)%nat
    /\ refused 2 (d_system d').
Proof.
  destruct (disabling_run before_disable (Disabling_ (start (fresh_pool 1 2)) outside)) as [d|] eqn:E;
    [|vm_compute in E; discriminate E].
  destruct (disabling_run during_disable d) as [d'|] eqn:E';
    [|vm_compute in E; injection E as <-; vm_compute in E'; discriminate E'].
  pose proof (disabling_reachable_run _ _ _ E) as Hr.
  assert (d_at d = at_loop /\ d_at d' = outside /\ queued_requests (s_pool (d_system d)) = [2%nat]
    /\ s_answers (d_system d') = [(1%nat, Cell 0); (2%nat, Failed disabled); (3%nat, Failed disabled)])
    as (Hin & Hout & Hq & Ha)
    by (vm_compute in E; injection E as <-; vm_compute in E'; injection E' as <-; repeat split).
  destruct (disable_returns_and_empties_queue 1 2 _ d d' during_disable
    (fresh_pool_constructed 1 2 ltac:(done)) Hr ltac:(by rewrite Hin) ltac:(by rewrite Hin) eq_refl E')
    as (_ & _ & Ht & _ & _ & _ & Hall & _).
  exists d, d'. rewrite Hout in Ht. split_and!; try done. apply (Hall Hout). rewrite Hq. by apply list_elem_of_singleton.
Defined.

(** The handler of the queued request, run at once, asks the pool again: [disable] does
    not return, and nobody gets the mutex any more. *)
Lemma handler_that_calls_the_pool_blocks_disable :
  exists d, disabling_run (before_disable ++ [disable_turn true; handler_does (EGet 3 4 io 10)])
      (Disabling_ (start (fresh_pool 1 2)) outside) = Some d
    /\ d_at d = blocked
    /\ (forall evs d', disabling_run evs d = Some d' -> d_at d' = blocked)
    /\ forall e, needs_mutex e = true -> disabling_step (other e) d = None.
Proof.
  destruct (disabling_run (before_disable ++ [disable_turn true; handler_does (EGet 3 4 io 10)])
    (Disabling_ (start (fresh_pool 1 2)) outside)) as [d|] eqn:E; [|vm_compute in E; discriminate E].
  assert (d_at d = blocked) as Hb by (vm_compute in E; by injection E as <-).
  exists d. split_and!; [done|done| |].
  - intros evs d'. by apply blocked_run.
  - intros e He. cbn [disabling_step]. rewrite Hb, He. by destruct e.
Qed.
End Disabling.
