(* ===== verification/SyncPool.v ===== *)
(** * The synchronous resource pool: [sync/detail/pool_impl.hpp],
    [sync/pool.hpp]

    The pool leases the cells of a storage; a thread that finds none waits on
    the condition variable [_has_capacity].  What a thread does while it holds
    [_mutex] is one step.  A thread inside [wait_for] is asleep until
    [notify_one] or [notify_all] picks it; it may leave [wait_for] at any time (a
    notification, the end of its time, or a spurious wake up), and what
    [wait_for] returns is whether its time was over when it left. *)

From stdpp Require Import gmap.
From S2P Require Import Prelude Words Time Errors PoolStorage ResourcePool.
Import Storage.
#[local] Open Scope Z_scope.

Module SyncPool.
Import ResourcePool (answer, Cell, Failed, answer_cell, zero_pool_capacity, ZeroPoolCapacity).

(** [sync::detail::pool_impl] without its mutex and condition variable. *)
Record pool_impl (V : Type) := PoolImpl {
  storage_ : storage V;
  _capacity : nat;
  _disabled : bool
}.
Arguments PoolImpl {V} _ _ _.
Arguments storage_ {V} _.
Arguments _capacity {V} _.
Arguments _disabled {V} _.

(** [sync::stats] *)
Record stats := Stats { size : nat; available : nat; used : nat }.

(** [pool_impl::assert_capacity] *)
Definition assert_capacity (value : nat) : outcome zero_pool_capacity nat :=
  if Nat.eqb value 0 then Throw ZeroPoolCapacity else Return value.

Section pool.
Context {V : Type}.
Implicit Types (p : pool_impl V) (i r : nat).

(** The constructors of [pool_impl]; [values] are what the generator returns. *)
Definition make_pool (capacity : nat) (idle_timeout lifespan : Z) :
    outcome zero_pool_capacity (pool_impl V) :=
  n ← assert_capacity capacity;
  mret (PoolImpl (make_storage n idle_timeout lifespan) capacity false).
Definition make_pool_of (now : Z) (values : list V) (idle_timeout lifespan : Z) :
    outcome zero_pool_capacity (pool_impl V) :=
  n ← assert_capacity (length values);
  mret (PoolImpl (make_storage_of now values idle_timeout lifespan) n false).

(** [pool_impl::size()], [available()], [used()] and [stats()] *)
Definition pool_size p : nat :=
  let s := storage_stats_of (storage_ p) in (st_available s + st_used s)%nat.
Definition pool_available p : nat := st_available (storage_stats_of (storage_ p)).
Definition pool_used p : nat := st_used (storage_stats_of (storage_ p)).
Definition pool_stats p : stats :=
  let s := storage_stats_of (storage_ p) in
  Stats (st_available s + st_used s) (st_available s) (st_used s).

Definition set_storage (s : storage V) p : pool_impl V := PoolImpl s (_capacity p) (_disabled p).

(** [pool_impl::recycle] and [pool_impl::waste] before they notify. *)
Definition recycle (now : Z) i p : option (pool_impl V) :=
  s ← Storage.recycle now i (storage_ p); Some (set_storage s p).
Definition waste i p : option (pool_impl V) :=
  s ← Storage.waste i (storage_ p); Some (set_storage s p).

(** [pool_impl::disable()] before it notifies, and [pool_impl::invalidate()]. *)
Definition disable p : pool_impl V := PoolImpl (storage_ p) (_capacity p) true.
Definition pool_invalidate p : pool_impl V := set_storage (invalidate (storage_ p)) p.

(** The loop of [pool_impl::get] up to [wait_for]: the answer it returns, unless
    it goes on to wait. *)
Definition get_iteration (now : Z) p : option answer * pool_impl V :=
  if _disabled p then (Some (Failed disabled), p) else
  match lease now (storage_ p) with
  | (Some i, s) => (Some (Cell i), set_storage s p)
  | (None, s) => (None, set_storage s p)
  end.

(** ** Threads *)

(** A thread inside [wait_for]: its call of [get], the [wait_duration] of the
    call, and when the [wait_for] it is in ends. *)
Record waiter := Waiter { w_request : nat; w_duration : Z; w_until : Z }.

(** What [wait_for] returns to a thread that leaves it at [now]: [true] is
    [cv_status::no_timeout]. *)
Definition wait_for (now : Z) (w : waiter) : bool := now <? w_until w.

(** [s_asleep]: the threads blocked on the condition variable; [s_notified]: the
    threads a notification unblocked that have not taken the mutex yet;
    [s_answers]: what the calls of [get] returned, in order; [s_held]: the cells in
    the hands of clients; [s_issued]: the calls of [get] made. *)
Record system := System {
  s_pool : pool_impl V;
  s_asleep : list waiter;
  s_notified : list waiter;
  s_answers : list (nat * answer);
  s_held : list nat;
  s_issued : list nat
}.

(** [who] is the thread that [notify_one] picks, if there is one to pick. *)
Inductive event :=
| EGet (now : Z) (r : nat) (wait : Z)
| EWake (now : Z) (r : nat)
| ERecycle (now : Z) (i : nat) (who : option nat)
| EWaste (i : nat) (who : option nat)
| EReset (now : Z) (i : nat) (v : V)
| EInvalidate
| EDisable.

Definition set_pool p (s : system) : system :=
  System p (s_asleep s) (s_notified s) (s_answers s) (s_held s) (s_issued s).
Definition set_waiters (asleep notified : list waiter) (s : system) : system :=
  System (s_pool s) asleep notified (s_answers s) (s_held s) (s_issued s).
Definition return_answer r (a : answer) (s : system) : system :=
  System (s_pool s) (s_asleep s) (s_notified s) (s_answers s ++ [(r, a)])
    (s_held s ++ option_list (answer_cell a)) (s_issued s).
Definition drop_held i (s : system) : option system :=
  '(_, held) ← take_key id i (s_held s);
  Some (System (s_pool s) (s_asleep s) (s_notified s) (s_answers s) held (s_issued s)).

(** One turn of the loop of [pool_impl::get]: the call returns or waits. *)
Definition get_turn (now : Z) r (wait : Z) (s : system) : system :=
  let '(a, p) := get_iteration now (s_pool s) in
  let s := set_pool p s in
  match a with
  | Some a => return_answer r a s
  | None => set_waiters (s_asleep s ++ [Waiter r wait (now + wait)]) (s_notified s) s
  end.

(** A thread leaves [wait_for]: the call of [get] returns when its time is over,
    and takes its next turn otherwise. *)
Definition get_wake (now : Z) (w : waiter) (s : system) : system :=
  if wait_for now w then get_turn now (w_request w) (w_duration w) s
  else return_answer (w_request w) (Failed get_resource_timeout) s.

(** [_has_capacity.notify_one()]: [None] when [who] is not a thread it could
    pick. *)
Definition notify_one (who : option nat) (s : system) : option system :=
  match who with
  | Some r =>
      '(w, asleep) ← take_key w_request r (s_asleep s);
      Some (set_waiters asleep (s_notified s ++ [w]) s)
  | None => match s_asleep s with [] => Some s | _ :: _ => None end
  end.

(** [_has_capacity.notify_all()] *)
Definition notify_all (s : system) : system :=
  set_waiters [] (s_notified s ++ s_asleep s) s.

(** The thread of call [r] leaves [wait_for]. *)
Definition take_waiter r (s : system) : option (waiter * system) :=
  match take_key w_request r (s_notified s) with
  | Some (w, notified) => Some (w, set_waiters (s_asleep s) notified s)
  | None =>
      '(w, asleep) ← take_key w_request r (s_asleep s);
      Some (w, set_waiters asleep (s_notified s) s)
  end.

(** One step; [None] when it is not one: a call is made once, a cell is given
    back and written by the client that holds it. *)
Definition step (e : event) (s : system) : option system :=
  match e with
  | EGet now r wait =>
      if decide (r ∈ s_issued s) then None else
      Some (get_turn now r wait
              (System (s_pool s) (s_asleep s) (s_notified s) (s_answers s) (s_held s)
                 (s_issued s ++ [r])))
  | EWake now r => '(w, s) ← take_waiter r s; Some (get_wake now w s)
  | ERecycle now i who =>
      s ← drop_held i s;
      p ← recycle now i (s_pool s);
      notify_one who (set_pool p s)
  | EWaste i who =>
      s ← drop_held i s;
      p ← waste i (s_pool s);
      notify_one who (set_pool p s)
  | EReset now i v =>
      if decide (i ∈ s_held s) then
        Some (set_pool (set_storage (update_used i (store_value now v) (storage_ (s_pool s)))
                          (s_pool s)) s)
      else None
  | EInvalidate => Some (set_pool (pool_invalidate (s_pool s)) s)
  | EDisable => Some (notify_all (set_pool (disable (s_pool s)) s))
  end.

Fixpoint run (es : list event) (s : system) : option system :=
  match es with
  | [] => Some s
  | e :: es => s ← step e s; run es s
  end.

Definition start p : system := System p [] [] [] [] [].

(** ** [sync::pool] *)

(** [list_iterator()], which is no iterator of the storage: the cells of a pool
    are numbered below its capacity. *)
Definition no_iterator p : nat := _capacity p.

(** What [pool_impl::get] returns for an answer: an error code and an iterator. *)
Definition get_result p (a : answer) : error_code * nat :=
  match a with
  | Cell i => (ec_default, i)
  | Failed e => (ec_pool e, no_iterator p)
  end.

(** [pool::get_handle(use_strategy, wait_duration)], after [_impl->get];
    [get_auto_recycle] and [get_auto_waste] fix the strategy. *)
Definition get_handle (u : Handles.strategy) p (a : answer) : error_code * Handles.handle :=
  let res := get_result p a in (res.1, Handles.make_handle u res.2).

(** What the destructor of a handle does to the pool. *)
Definition give_back (now : Z) (x : Handles.returned) p : option (pool_impl V) :=
  match x with
  | Handles.Recycled i => recycle now i p
  | Handles.Wasted i => waste i p
  end.

(** ** The invariant *)

Definition waiting (s : system) : list nat := w_request <$> (s_asleep s ++ s_notified s).
Definition cells_in_use p : list nat := cell_it <$> used_ (storage_ p).

Record sys_ok (cap : nat) (s : system) : Prop := {
  ok_storage : storage_ok cap (storage_ (s_pool s));
  ok_capacity : _capacity (s_pool s) = cap;
  ok_held : cells_in_use (s_pool s) ≡ₚ s_held s;
  ok_issued : s_issued s ≡ₚ (s_answers s).*1 ++ waiting s;
  ok_once : NoDup (s_issued s);
  ok_awake : _disabled (s_pool s) = true -> s_asleep s = []
}.

(** The cells nobody holds. *)
Definition free_cells (s : system) : nat :=
  let st := storage_ (s_pool s) in (length (available_ st) + length (wasted_ st))%nat.

(** A thread stays asleep only while each free cell has a thread that was
    notified and has not looked for it yet. *)
Definition wakeups_ok (s : system) : Prop :=
  s_asleep s = [] \/ (free_cells s <= length (s_notified s))%nat.

Lemma free_cells_held cap s : sys_ok cap s -> (free_cells s + length (s_held s))%nat = cap.
Proof.
  intros Hs. pose proof (ok_sizes _ _ (ok_storage _ _ Hs)) as Hc.
  pose proof (Permutation_length (ok_held _ _ Hs)) as Hh. unfold cells_in_use in Hh.
  rewrite length_fmap in Hh. unfold free_cells. simpl in *. lia.
Qed.

Lemma get_iteration_spec cap now p : storage_ok cap (storage_ p) ->
  exists a p', get_iteration now p = (a, p') /\ storage_ok cap (storage_ p')
    /\ _capacity p' = _capacity p /\ _disabled p' = _disabled p
    /\ match a with
       | Some (Cell i) => _disabled p = false /\ cells_in_use p' = cells_in_use p ++ [i]
       | Some (Failed e) => p' = p /\ e = disabled /\ _disabled p = true
       | None => _disabled p = false /\ cells_in_use p' = cells_in_use p
           /\ length (cells_in_use p') = cap
       end.
Proof.
  intros Hs. unfold get_iteration, cells_in_use. destruct (_disabled p) eqn:Ed.
  { by eexists (Some (Failed _)), p. }
  destruct (lease now (storage_ p)) as [r s] eqn:El.
  destruct (lease_ok _ _ _ _ _ Hs El) as [Hok Hr]. destruct r as [i|].
  - destruct Hr as (c & Hu & Hi & _). exists (Some (Cell i)), (set_storage s p). simpl.
    repeat (split; [done|]). by rewrite Hu, fmap_app, <- Hi.
  - destruct Hr as (Hu & Ha & Hw). exists None, (set_storage s p). simpl.
    repeat (split; [done|]). rewrite Hu. split; [done|].
    pose proof (ok_sizes _ _ Hok) as Hc. simpl in Hc. rewrite Ha, Hw, Hu in Hc. simpl in Hc.
    rewrite length_fmap. lia.
Qed.

(** A call of [get] that runs: it was issued, it neither returned nor waits. *)
Record turn_ok (cap : nat) r (s : system) : Prop := {
  tk_storage : storage_ok cap (storage_ (s_pool s));
  tk_capacity : _capacity (s_pool s) = cap;
  tk_held : cells_in_use (s_pool s) ≡ₚ s_held s;
  tk_issued : s_issued s ≡ₚ r :: (s_answers s).*1 ++ waiting s;
  tk_once : NoDup (s_issued s);
  tk_awake : _disabled (s_pool s) = true -> s_asleep s = []
}.

Lemma return_failed_ok cap r e s : turn_ok cap r s -> sys_ok cap (return_answer r (Failed e) s).
Proof.
  intros [Hs Hc Hh Hi Ho Ha]. split; simpl; [done|done| | |done|done].
  - by rewrite app_nil_r.
  - rewrite Hi, fmap_app. unfold waiting. simpl. solve_Permutation.
Qed.

(** What a turn of a running call does. *)
Lemma get_turn_ok cap now r wait s : turn_ok cap r s ->
  sys_ok cap (get_turn now r wait s)
  /\ s_notified (get_turn now r wait s) = s_notified s
  /\ (s_asleep (get_turn now r wait s) = s_asleep s
      /\ (s_held (get_turn now r wait s) = s_held s /\ _disabled (s_pool s) = true
          \/ length (s_held (get_turn now r wait s)) = S (length (s_held s)))
      \/ length (s_held (get_turn now r wait s)) = cap).
Proof.
  intros Ht. pose proof Ht as [Hs Hc Hh Hi Ho Ha]. unfold get_turn.
  destruct (get_iteration_spec cap now _ Hs) as (a & p & -> & Hs' & Hc' & Hd & Hm).
  destruct a as [[i|e]|].
  - destruct Hm as [Hf Hu]. split; [|split; [done|left; split; [done|right; simpl]]].
    + split; simpl; [done|congruence|by rewrite Hu, Hh| |done|congruence].
      rewrite Hi, fmap_app. unfold waiting. simpl. solve_Permutation.
    + rewrite length_app. simpl. lia.
  - destruct Hm as (-> & -> & Hf). split; [|split; [done|left; split; [done|left; simpl]]].
    + apply return_failed_ok. by split.
    + by rewrite app_nil_r.
  - destruct Hm as (Hf & Hu & Hn). split; [|split; [done|right; simpl]].
    + split; simpl; [done|congruence|by rewrite Hu| |done|congruence].
      rewrite Hi. unfold waiting. simpl. rewrite !fmap_app. simpl. solve_Permutation.
    + rewrite <- Hn. symmetry. apply Permutation_length. by rewrite Hu.
Qed.

Lemma take_waiter_spec cap r s w s' : sys_ok cap s -> take_waiter r s = Some (w, s') ->
  turn_ok cap r s' /\ w_request w = r /\ s_pool s' = s_pool s /\ s_held s' = s_held s
  /\ s_answers s' = s_answers s
  /\ (s_asleep s' = s_asleep s /\ s_notified s ≡ₚ w :: s_notified s'
      \/ s_notified s' = s_notified s /\ s_asleep s ≡ₚ w :: s_asleep s').
Proof.
  intros [Hs Hc Hh Hi Ho Ha] E. unfold take_waiter in E. unfold waiting in *.
  destruct (take_key w_request r (s_notified s)) as [[w' l]|] eqn:Et; [|
    destruct (take_key w_request r (s_asleep s)) as [[w' l]|] eqn:Ea]; simplify_eq/=;
    [pose proof (take_key_perm _ _ _ _ _ Et) as Hp; apply take_key_spec in Et as [Hr _]
    |pose proof (take_key_perm _ _ _ _ _ Ea) as Hp; apply take_key_spec in Ea as [Hr _]].
  - split; [|by auto 10]. split; simpl; try done.
    unfold waiting. simpl. rewrite Hi, Hp, !fmap_app. simpl. rewrite Hr. solve_Permutation.
  - split; [|by auto 10]. split; simpl; try done.
    + unfold waiting. simpl. rewrite Hi, Hp, !fmap_app. simpl. rewrite Hr. solve_Permutation.
    + intros Hd. specialize (Ha Hd). rewrite Ha in Hp. by apply Permutation_nil_l in Hp.
Qed.

Lemma take_waiter_is_Some r s : r ∈ waiting s -> is_Some (take_waiter r s).
Proof.
  unfold waiting, take_waiter. rewrite fmap_app. intros [Hr|Hr]%elem_of_app;
    destruct (take_key_is_Some w_request _ _ Hr) as [[w l] E]; rewrite E; simpl; [|by eexists].
  destruct (take_key w_request r (s_notified s)) as [[]|]; by eexists.
Qed.

Lemma drop_held_spec i s s' : drop_held i s = Some s' ->
  s' = System (s_pool s) (s_asleep s) (s_notified s) (s_answers s) (s_held s') (s_issued s)
  /\ s_held s ≡ₚ i :: s_held s'.
Proof.
  unfold drop_held. destruct (take_key id i (s_held s)) as [[x l]|] eqn:E; intros; simplify_eq/=.
  split; [done|]. pose proof (take_key_perm _ _ _ _ _ E) as Hp.
  apply take_key_spec in E as [Hx _]. by unfold id in Hx; subst.
Qed.

Lemma notify_one_ok cap who s s' : sys_ok cap s -> notify_one who s = Some s' ->
  sys_ok cap s' /\ s_held s' = s_held s
  /\ (s_asleep s' = [] \/ length (s_notified s') = S (length (s_notified s))).
Proof.
  intros Hs E. unfold notify_one in E. destruct who as [r|].
  - destruct (take_key w_request r (s_asleep s)) as [[w l]|] eqn:Ek; simplify_eq/=.
    pose proof (take_key_perm _ _ _ _ _ Ek) as Hp. destruct Hs as [Hs Hc Hh Hi Ho Ha].
    split; [|split; [done|right; rewrite length_app; simpl; lia]]. split; simpl; try done.
    + unfold waiting in *. simpl. rewrite Hi, Hp. rewrite !fmap_app. simpl. solve_Permutation.
    + intros Hd. rewrite (Ha Hd) in Hp. by apply Permutation_nil_l in Hp.
  - destruct (s_asleep s) eqn:Ea; simplify_eq. split; [done|]. by rewrite Ea; auto.
Qed.

(** Giving a cell back, by [recycle] or by [waste]. *)
Lemma give_back_ok cap now x s s1 p : sys_ok cap s ->
  drop_held (Handles.returned_cell x) s = Some s1 -> give_back now x (s_pool s1) = Some p ->
  sys_ok cap (set_pool p s1) /\ s_asleep s1 = s_asleep s /\ s_notified s1 = s_notified s
  /\ length (s_held s) = S (length (s_held s1)).
Proof.
  intros [Hs Hc Hh Hi Ho Ha] E1 E2. apply drop_held_spec in E1 as [E1 Hp].
  rewrite E1 in E2 |- *. simpl in *. set (i := Handles.returned_cell x) in *.
  assert (Hin : i ∈ cell_it <$> used_ (storage_ (s_pool s))).
  { unfold cells_in_use in Hh. rewrite Hh, Hp. by left. }
  assert (exists c st, p = set_storage st (s_pool s) /\ storage_ok cap st /\ cell_it c = i
    /\ used_ (storage_ (s_pool s)) ≡ₚ c :: used_ st) as (c & st & -> & Hst & Hci & Hu).
  { destruct x as [j|j]; simpl in E2; unfold recycle, waste in E2.
    - destruct (recycle_ok cap now j _ Hs Hin) as (c & st & Er & Hst & Hci & Hu).
      rewrite Er in E2. simplify_eq/=. by exists c, st.
    - destruct (waste_ok cap j _ Hs Hin) as (c & st & Er & Hst & Hci & Hu & _).
      rewrite Er in E2. simplify_eq/=. by exists c, st. }
  split; [|split; [done|split; [done|by rewrite (Permutation_length Hp)]]].
  split; simpl; try done. unfold cells_in_use in *. simpl.
  rewrite Hu, Hp in Hh. simpl in Hh. rewrite Hci in Hh. by apply Permutation_cons_inv in Hh.
Qed.

(** [recycle] or [waste], with the notification. *)
Lemma give_back_step cap now x who s s' : sys_ok cap s ->
  (s1 ← drop_held (Handles.returned_cell x) s; p ← give_back now x (s_pool s1);
   notify_one who (set_pool p s1)) = Some s' ->
  sys_ok cap s' /\ (wakeups_ok s -> wakeups_ok s').
Proof.
  intros Hs E. destruct (drop_held _ s) as [s1|] eqn:E1; simplify_eq/=.
  destruct (give_back now x (s_pool s1)) as [p|] eqn:E2; simplify_eq/=.
  destruct (give_back_ok _ _ _ _ _ _ Hs E1 E2) as (Hs1 & Ha & Hn & Hl).
  destruct (notify_one_ok _ _ _ _ Hs1 E) as (Hs' & Hh & Hw). split; [done|].
  simpl in *. intros [Hw0|Hw0]; unfold wakeups_ok.
  - left. destruct Hw as [?|Hw]; [done|]. destruct who as [r|]; simpl in E.
    + rewrite Ha, Hw0 in E. done.
    + rewrite Ha, Hw0 in E. simplify_eq/=. by rewrite Ha.
  - destruct Hw as [?|Hw]; [by left|right].
    pose proof (free_cells_held _ _ Hs). pose proof (free_cells_held _ _ Hs').
    rewrite Hh in *. simpl in *. rewrite Hw, Hn. lia.
Qed.

(** No thread that was notified leaves [wait_for] after the end of its time. *)
Definition timely (e : event) (s : system) : Prop :=
  match e with
  | EWake now r => Forall (fun w => w_request w = r -> now < w_until w) (s_notified s)
  | _ => True
  end.

Lemma wake_step cap now r s s' : sys_ok cap s -> step (EWake now r) s = Some s' ->
  sys_ok cap s' /\ (timely (EWake now r) s -> wakeups_ok s -> wakeups_ok s').
Proof.
  intros Hs E. simpl in E. destruct (take_waiter r s) as [[w s1]|] eqn:Et; simplify_eq/=.
  destruct (take_waiter_spec _ _ _ _ _ Hs Et) as (Hk & Hr & Hpool & Hheld & _ & Hw).
  unfold get_wake. destruct (wait_for now w) eqn:Ew.
  - rewrite Hr. destruct (get_turn_ok cap now r (w_duration w) s1 Hk) as (Hs' & Hn & Hm).
    split; [done|]. intros _ Hok. unfold wakeups_ok in *.
    pose proof (free_cells_held _ _ Hs). pose proof (free_cells_held _ _ Hs') as Hf'.
    rewrite Hn. destruct Hm as [[Ha [[_ Hd]|Hl]]|Hl]; [| |right; lia].
    + left. rewrite Ha. by apply (tk_awake _ _ _ Hk).
    + rewrite Ha, Hl, Hheld in *. destruct Hw as [[Ha1 Hp]|[Hn1 Hp]].
      * rewrite Ha1. apply Permutation_length in Hp. simpl in Hp. destruct Hok; [by left|right; lia].
      * rewrite Hn1. destruct Hok as [Hok|]; [|right; lia].
        rewrite Hok in Hp. by apply Permutation_nil_cons in Hp.
  - split; [rewrite Hr; by apply return_failed_ok|]. intros Ht Hok.
    unfold wait_for in Ew. apply Z.ltb_ge in Ew. destruct Hw as [[_ Hp]|[Hn1 Hp]].
    + rewrite Hp, Forall_cons in Ht. destruct Ht as [Ht _]. specialize (Ht Hr). lia.
    + unfold wakeups_ok, free_cells in *. simpl. rewrite Hn1, Hpool.
      destruct Hok as [Hok|]; [|by right]. rewrite Hok in Hp. by apply Permutation_nil_cons in Hp.
Qed.

Lemma get_step cap now r wait s s' : sys_ok cap s -> step (EGet now r wait) s = Some s' ->
  sys_ok cap s' /\ (wakeups_ok s -> wakeups_ok s').
Proof.
  intros Hs E. simpl in E. case_decide as Hin; simplify_eq. destruct Hs as [Hs Hc Hh Hi Ho Ha].
  set (s1 := System _ _ _ _ _ _). assert (Hk : turn_ok cap r s1).
  { split; simpl; try done.
    - rewrite Hi. unfold waiting. simpl. solve_Permutation.
    - apply NoDup_app. split; [done|]. split; [|apply NoDup_singleton].
      by intros x Hx ->%list_elem_of_singleton. }
  destruct (get_turn_ok cap now r wait s1 Hk) as (Hs' & Hn & Hm). split; [done|].
  intros Hok. unfold wakeups_ok in *. rewrite Hn. pose proof (free_cells_held _ _ Hs') as Hf'.
  assert ((free_cells s + length (s_held s))%nat = cap) as Hf by (by apply free_cells_held; split).
  destruct Hm as [[Hal [[_ Hd]|Hl]]|Hl]; [left; rewrite Hal; by apply Ha| |right; lia].
  rewrite Hal. simpl in *. destruct Hok; [by left|right; lia].
Qed.

(** A step that changes the storage and keeps the cells in use. *)
Lemma storage_step cap st s : sys_ok cap s -> storage_ok cap st ->
  cell_it <$> used_ st = cells_in_use (s_pool s) ->
  sys_ok cap (set_pool (set_storage st (s_pool s)) s)
  /\ (wakeups_ok s -> wakeups_ok (set_pool (set_storage st (s_pool s)) s)).
Proof.
  intros Hs Hst Hu. assert (Hs' : sys_ok cap (set_pool (set_storage st (s_pool s)) s)).
  { destruct Hs as [Hs Hc Hh Hi Ho Ha]. split; simpl; try done. unfold cells_in_use at 1. simpl.
    by rewrite Hu. }
  split; [done|]. pose proof (free_cells_held _ _ Hs). pose proof (free_cells_held _ _ Hs').
  simpl in *. unfold wakeups_ok. simpl. intros [?|?]; [by left|right; lia].
Qed.

Lemma sync_step_ok cap e s s' : sys_ok cap s -> step e s = Some s' ->
  sys_ok cap s' /\ (timely e s -> wakeups_ok s -> wakeups_ok s').
Proof.
  intros Hs E. destruct e as [now r wait|now r|now i who|i who|now i v| |].
  - destruct (get_step _ _ _ _ _ _ Hs E). by auto.
  - by apply wake_step.
  - destruct (give_back_step cap now (Handles.Recycled i) who s s' Hs E). by auto.
  - destruct (give_back_step cap 0 (Handles.Wasted i) who s s' Hs E). by auto.
  - simpl in E. case_decide; simplify_eq.
    destruct (storage_step cap (update_used i (store_value now v) (storage_ (s_pool s))) s Hs);
      [|by apply cells_update|by auto]. by apply update_used_ok, Hs.
  - simpl in E. simplify_eq.
    destruct (storage_step cap (invalidate (storage_ (s_pool s))) s Hs);
      [|by apply cells_marked|by auto]. by apply invalidate_ok, Hs.
  - simpl in E. simplify_eq. destruct Hs as [Hs Hc Hh Hi Ho Ha]. split; [|by left].
    split; simpl; try done. unfold waiting in *. simpl. rewrite Hi, !fmap_app. solve_Permutation.
Qed.

(** ** Reachable states *)

Inductive constructed (cap : nat) : pool_impl V -> Prop :=
| constructed_empty idle lifespan p :
    make_pool cap idle lifespan = Return p -> constructed cap p
| constructed_full now values idle lifespan p : length values = cap ->
    make_pool_of now values idle lifespan = Return p -> constructed cap p.

Lemma sync_constructed_ok cap p : constructed cap p ->
  (0 < cap)%nat /\ _disabled p = false /\ sys_ok cap (start p).
Proof.
  intros Hc. assert (Hp : (0 < cap)%nat /\ _disabled p = false /\ storage_ok cap (storage_ p)
    /\ _capacity p = cap /\ cells_in_use p = []).
  { destruct Hc as [idle lifespan p E|now values idle lifespan p Hv E];
      [|rewrite <- Hv]; unfold make_pool, make_pool_of, assert_capacity, mret, outcome_ret in E.
    - destruct cap; simplify_eq/=. split; [lia|]. split; [done|]. split; [apply make_storage_ok|done].
    - rewrite Hv in E. rewrite Hv. destruct cap; simplify_eq/=. split; [lia|]. split; [done|].
      split; [|done]. rewrite <- Hv. apply make_storage_of_ok. }
  destruct Hp as (H0 & Hd & Hs & Hcap & Hu). do 2 (split; [done|]).
  split; simpl; try done; [by rewrite Hu|constructor].
Qed.

Lemma sync_run_ok cap es s s' : sys_ok cap s -> run es s = Some s' -> sys_ok cap s'.
Proof.
  revert s. induction es as [|e es IH]; intros s Hs E; simpl in E; simplify_eq; [done|].
  destruct (step e s) as [s1|] eqn:E1; simplify_eq/=. eapply IH; [|done]. by eapply sync_step_ok.
Qed.

(** The states that the steps of any number of threads lead to, when no thread
    that was notified leaves [wait_for] too late. *)
Inductive reachable_timely (s0 : system) : system -> Prop :=
| reachable_start : reachable_timely s0 s0
| reachable_step s e s' : reachable_timely s0 s -> timely e s -> step e s = Some s' ->
    reachable_timely s0 s'.

(** While no thread leaves [wait_for], none leaves it too late. *)
Definition no_wake (e : event) : bool := match e with EWake _ _ => false | _ => true end.

Lemma sync_reachable_run es s0 s s' : reachable_timely s0 s -> forallb no_wake es = true ->
  run es s = Some s' -> reachable_timely s0 s'.
Proof.
  revert s. induction es as [|e es IH]; intros s Hr Hn E; simpl in *; simplify_eq; [done|].
  destruct (step e s) as [s1|] eqn:E1; simplify_eq/=. apply andb_true_iff in Hn as [He Hn].
  apply (IH s1); [|done|done]. apply (reachable_step s0 s e s1); [done| |done]. by destruct e.
Qed.

Lemma reachable_timely_ok cap p s : constructed cap p -> reachable_timely (start p) s ->
  sys_ok cap s /\ wakeups_ok s.
Proof.
  intros (_ & _ & H0)%sync_constructed_ok Hr. induction Hr as [|s e s' _ [Hs Hw] Ht E]; [by split; [|left]|].
  destruct (sync_step_ok _ _ _ _ Hs E). by auto.
Qed.

(** What a thread that leaves [wait_for] finds. *)
Lemma get_turn_answers cap now r wait s : turn_ok cap r s ->
  if _disabled (s_pool s)
  then s_answers (get_turn now r wait s) = s_answers s ++ [(r, Failed disabled)]
  else if Nat.eqb (free_cells s) 0
  then s_answers (get_turn now r wait s) = s_answers s /\ r ∈ waiting (get_turn now r wait s)
  else exists i, s_answers (get_turn now r wait s) = s_answers s ++ [(r, Cell i)]
    /\ i ∈ s_held (get_turn now r wait s).
Proof.
  intros [Hs Hc Hh Hi Ho Ha]. unfold get_turn.
  destruct (get_iteration_spec cap now _ Hs) as (a & p & -> & Hs' & Hc' & Hd & Hm).
  pose proof (ok_sizes _ _ Hs) as Hz. pose proof (ok_sizes _ _ Hs') as Hz'. simpl in Hz, Hz'.
  unfold free_cells, cells_in_use in *. destruct a as [[i|e]|].
  - destruct Hm as [Hf Hu]. rewrite Hf. apply (f_equal length) in Hu.
    rewrite length_app, !length_fmap in Hu. simpl in Hu. destruct (Nat.eqb_spec
      (length (available_ (storage_ (s_pool s))) + length (wasted_ (storage_ (s_pool s)))) 0); [lia|].
    exists i. split; [done|]. simpl. set_solver.
  - destruct Hm as (-> & -> & Hf). by rewrite Hf.
  - destruct Hm as (Hf & Hu & Hn). rewrite Hf. apply (f_equal length) in Hu.
    rewrite !length_fmap in Hu. rewrite length_fmap in Hn. destruct (Nat.eqb_spec
      (length (available_ (storage_ (s_pool s))) + length (wasted_ (storage_ (s_pool s)))) 0); [|lia].
    split; [done|]. unfold waiting. simpl. rewrite !fmap_app. simpl. set_solver.
Qed.

Lemma no_iterator_not_used cap s : sys_ok cap s ->
  take_key cell_it (no_iterator (s_pool s)) (used_ (storage_ (s_pool s))) = None.
Proof.
  intros Hs. destruct (take_key _ _ _) as [[c l]|] eqn:E; [|done].
  apply take_key_spec in E as (Hc & l1 & l2 & Hu & _). exfalso.
  assert (Hin : cell_it c ∈ cells (storage_ (s_pool s))).
  { unfold cells. rewrite Hu, !fmap_app, fmap_cons. set_solver. }
  destruct (ok_storage _ _ Hs) as [Hp _ _]. rewrite Hp, elem_of_seq, Hc in Hin.
  unfold no_iterator in Hin. rewrite (ok_capacity _ _ Hs) in Hin. lia.
Qed.

(** C29: whatever the threads that use a synchronous pool do, in any order, as long as
    they give back only cells they hold: its cells are those it was made with, the
    cells in use are the ones clients hold, each held by one client, every call of
    [get] has returned once or waits, and when the pool is disabled no thread is left
    asleep. *)
Theorem sync_pool_conserves_cells_and_calls cap p es s :
  constructed cap p -> run es (start p) = Some s ->
  cells (storage_ (s_pool s)) ≡ₚ seq 0 cap
  /\ cells_in_use (s_pool s) ≡ₚ s_held s /\ NoDup (s_held s)
  /\ (pool_size (s_pool s) <= cap)%nat /\ pool_used (s_pool s) = length (s_held s)
  /\ s_issued s ≡ₚ (s_answers s).*1 ++ waiting s /\ NoDup (s_issued s)
  /\ (_disabled (s_pool s) = true -> s_asleep s = []).
Proof.
  intros (_ & _ & H0)%sync_constructed_ok E. pose proof (sync_run_ok _ _ _ _ H0 E) as Hs.
  pose proof (ok_NoDup _ _ (ok_storage _ _ Hs)) as Hn.
  pose proof (ok_sizes _ _ (ok_storage _ _ Hs)) as Hz.
  destruct Hs as [Hst Hc Hh Hi Ho Ha]. split; [apply Hst|]. split; [done|]. split.
  { rewrite <- Hh. unfold cells, cells_in_use in *. rewrite !fmap_app in Hn.
    by apply NoDup_app in Hn as (_ & _ & [? _]%NoDup_app). }
  split; [unfold pool_size; simpl in *; lia|].
  split; [apply Permutation_length in Hh; unfold cells_in_use in Hh; rewrite length_fmap in Hh; exact Hh|].
  done.
Qed.

(** C30: no wake up is lost: as long as no thread that was notified leaves
    [wait_for] after its time, a thread sleeps only while every free cell has a
    notified thread on its way to it (in particular, not while a cell is free and
    no thread is on its way), and never in a disabled pool. *)
Theorem sync_sleepers_are_woken cap p s :
  constructed cap p -> reachable_timely (start p) s -> s_asleep s <> [] ->
  (free_cells s <= length (s_notified s))%nat /\ _disabled (s_pool s) = false.
Proof.
  intros Hc Hr Hne. destruct (reachable_timely_ok _ _ _ Hc Hr) as [Hs [?|Hw]]; [done|].
  split; [done|]. destruct (_disabled (s_pool s)) eqn:Ed; [|done].
  by destruct Hne; apply (ok_awake _ _ Hs).
Qed.

(** A call of [get] that leaves [wait_for] returns: [get_resource_timeout]
    when its time is over, [disabled] when the pool is disabled, a cell that is
    now its own when one is free; only when no cell is free does it wait again. *)
Theorem sync_get_returns cap p es s now r :
  constructed cap p -> run es (start p) = Some s -> r ∈ waiting s ->
  exists w s1 s', take_waiter r s = Some (w, s1) /\ step (EWake now r) s = Some s'
    /\ if w_until w <=? now
       then s_answers s' = s_answers s ++ [(r, Failed get_resource_timeout)]
       else if _disabled (s_pool s)
       then s_answers s' = s_answers s ++ [(r, Failed disabled)]
       else if Nat.eqb (free_cells s) 0
       then s_answers s' = s_answers s /\ r ∈ waiting s'
       else exists i, s_answers s' = s_answers s ++ [(r, Cell i)] /\ i ∈ s_held s'.
Proof.
  intros (_ & _ & H0)%sync_constructed_ok E Hw. pose proof (sync_run_ok _ _ _ _ H0 E) as Hs.
  destruct (take_waiter_is_Some _ _ Hw) as [[w s1] Et]. exists w, s1, (get_wake now w s1).
  split; [done|]. simpl. rewrite Et. split; [done|].
  destruct (take_waiter_spec _ _ _ _ _ Hs Et) as (Hk & <- & Hp & _ & Han & _).
  unfold get_wake, wait_for. rewrite Z.ltb_antisym. destruct (w_until w <=? now); simpl.
  - by rewrite Han.
  - pose proof (get_turn_answers cap now _ (w_duration w) s1 Hk) as Ha.
    unfold free_cells in *. by rewrite Hp, Han in Ha.
Qed.

(** When [get] fails, the handle [get_handle] makes from the iterator it
    returned counts as usable, so its destructor gives the pool an iterator that is
    not one of its cells: the call is undefined. *)
Theorem sync_failed_get_makes_a_usable_handle cap p es s u e now :
  constructed cap p -> run es (start p) = Some s ->
  let h := (get_handle u (s_pool s) (Failed e)).2 in
  Handles.unusable h = false
  /\ exists h' x, Handles.use_if_usable h = Some (h', [x]) /\ give_back now x (s_pool s) = None.
Proof.
  intros (_ & _ & H0)%sync_constructed_ok E. pose proof (sync_run_ok _ _ _ _ H0 E) as Hs.
  pose proof (no_iterator_not_used _ _ Hs) as Hn. split; [done|].
  destruct u; eexists _, _; (split; [reflexivity|]); cbn; unfold recycle, waste,
    Storage.recycle, Storage.waste; by rewrite Hn.
Qed.
End pool.

(** A pool of one cell, two threads that wait for it. *)
Definition one_cell : pool_impl nat := PoolImpl (make_storage 1 10 10) 1 false.
Definition two_waiters : list (event (V := nat)) :=
  [EGet 0 0 0; EGet 1 1 5; EGet 1 2 60; ERecycle 5 0 (Some 1%nat)].

Lemma one_cell_constructed : constructed 1 one_cell.
Proof. by apply (constructed_empty 1 10 10). Qed.

Lemma sync_pool_conserves_cells_and_calls_witness :
  exists s, run two_waiters (start one_cell) = Some s
    /\ s_issued s ≡ₚ (s_answers s).*1 ++ waiting s.
Proof.
  eexists. split; [vm_compute; reflexivity|].
  apply (sync_pool_conserves_cells_and_calls 1 one_cell two_waiters _ one_cell_constructed).
  vm_compute. reflexivity.
Defined.

Lemma sync_sleepers_are_woken_witness :
  exists s, run two_waiters (start one_cell) = Some s
    /\ length (s_asleep s) = 1%nat /\ free_cells s = 1%nat
    /\ (free_cells s <= length (s_notified s))%nat.
Proof.
  eexists. split; [vm_compute; reflexivity|]. split; [vm_compute; reflexivity|].
  split; [vm_compute; reflexivity|].
  apply (sync_sleepers_are_woken 1 one_cell _ one_cell_constructed); [|discriminate].
  apply (sync_reachable_run two_waiters _ _ _ (reachable_start _) eq_refl). vm_compute. reflexivity.
Defined.

(** A notification given to a thread whose time is over is lost: [recycle]
    notifies the first thread, which leaves [wait_for] at the end of its time and
    returns a timeout without looking at the storage; the cell is free and the
    second thread stays asleep. *)
Lemma notification_lost_by_timeout :
  exists s, run (two_waiters ++ [EWake 6 1]) (start one_cell) = Some s
    /\ s_answers s = [(0%nat, Cell 0); (1%nat, Failed get_resource_timeout)]
    /\ w_request <$> s_asleep s = [2%nat] /\ s_notified s = [] /\ free_cells s = 1%nat.
Proof. eexists. split; [vm_compute; reflexivity|]. by vm_compute. Qed.

(** Every wake up that finds no cell starts the whole [wait_duration] again: the
    call made at 1 with a wait of 5 is still waiting at 9, for time 10. *)
Lemma wait_restarts_after_wakeup :
  exists s, run [EGet 0 0 0; EGet 1 1 5; EWake 5 1] (start one_cell) = Some s
    /\ s_asleep s = [Waiter 1 5 10].
Proof. eexists. split; [vm_compute; reflexivity|]. by vm_compute. Qed.
End SyncPool.
