(* ===== verification/ConnectionPool.v ===== *)
(** * The connection pool: [connection_pool.h], [impl/connection_pool.h]

    A pool of PostgreSQL connections over the resource pool.  A cell holds a
    [connection_rep], which owns a native handle; replacing or resetting the
    value of a cell finishes the handle it owned.  The connection source is a
    parameter: the connection, possibly null, it calls its handler with. *)

From S2P Require Import Prelude Words Time Errors Connection PoolStorage.
Import Storage.
#[local] Open Scope Z_scope.

(** [connection_rep]: what a cell of the pool holds. *)
Record connection_rep (O : Type) := Rep {
  safe_handle_ : option handle;
  rep_oid_map : O;
  rep_error_context : string
}.
Arguments Rep {O} _ _ _.
Arguments safe_handle_ {O} _.
Arguments rep_oid_map {O} _.
Arguments rep_error_context {O} _.

(** A connection of the source, with its OID map. *)
Record source_connection (O : Type) := SourceConnection {
  sc_connection : connection;
  sc_oid_map : O
}.
Arguments SourceConnection {O} _ _.
Arguments sc_connection {O} _.
Arguments sc_oid_map {O} _.

Section pooled.
Context {O : Type}.
Context (PQsocket : handle -> Z) (PQstatus : handle -> conn_status).
Context (PQtransactionStatus : option handle -> pq_transaction_status).

(** A cell as its handle sees it: its iterator, its value and the native handles
    finished so far. *)
Record leased := Leased {
  l_it : nat;
  l_value : option (connection_rep O);
  l_finished : list handle
}.

Definition owned (v : option (connection_rep O)) : list handle :=
  option_list (v ≫= safe_handle_).

(** [handle_.reset(value)] on the cell: the value it held is destroyed. *)
Definition replace_value (v : option (connection_rep O)) (l : leased) : leased :=
  Leased (l_it l) v (l_finished l ++ owned (l_value l)).

(** [pooled_connection]: its representation is the handle of a cell; [pc_socket]
    is the descriptor of its stream. *)
Record pooled_connection := Pooled { rep_ : leased; pc_socket : option Z }.

(** [pooled_connection::native_handle()] *)
Definition native_handle (l : leased) : option handle := l_value l ≫= safe_handle_.

(** [PQsocket] of a null connection is -1. *)
Definition PQsocket_of (h : option handle) : Z :=
  match h with Some h => PQsocket h | None => -1 end.

(** [pooled_connection(ex, rep)] *)
Definition make_pooled_connection (l : leased) : pooled_connection :=
  let fd := PQsocket_of (native_handle l) in
  Pooled l (if fd =? -1 then None else Some fd).

(** What the handler of the pool's operation leads to. *)
Inductive pool_step :=
| CallHandler (ec : error_code) (conn : option pooled_connection)
| CallSource (l : leased).

(** [pooled_connection_wrapper::operator()(ec, handle)] *)
Definition on_handle (ec : error_code) (l : leased) : pool_step :=
  if failed ec then CallHandler ec None
  else
    match l_value l with
    | Some rep =>
        if negb (connection_status_bad PQstatus (safe_handle_ rep)) then
          CallHandler ec (Some (make_pooled_connection l))
        else CallSource l
    | None => CallSource l
    end.

(** [wrapper::operator()(ec, conn)]: the handler's arguments and, when the source
    gave no connection, the cell left in the wrapper's handle. *)
Definition on_source (ec : error_code) (conn : option (source_connection O)) (l : leased) :
    error_code * option pooled_connection * option leased :=
  match conn with
  | Some target =>
      let '(h, _) := release (sc_connection target) in
      let rep := Rep h (sc_oid_map target) (error_context_ (sc_connection target)) in
      (ec, Some (make_pooled_connection (replace_value (Some rep) l)), None)
  | None => (ec, None, Some l)
  end.

(** [pooled_connection::is_bad()] *)
Definition pooled_is_bad (c : pooled_connection) : bool :=
  negb (connection_status_ok PQstatus (native_handle (rep_ c))).

(** [pooled_connection::close()]; [None]: the handle is empty, which throws out of
    a [noexcept] function. *)
Definition pooled_close (c : pooled_connection) : option (error_code * pooled_connection) :=
  rep ← l_value (rep_ c);
  let l := rep_ c in
  Some (ec_default,
        Pooled (Leased (l_it l) (Some (Rep None (rep_oid_map rep) (rep_error_context rep)))
                  (l_finished l ++ option_list (safe_handle_ rep))) None).

(** [~pooled_connection()] and then the destructor of its handle, which recycles
    the cell unless it was wasted. *)
Definition destroy_pooled (c : pooled_connection) : may_throw Handles.returned :=
  let l := rep_ c in
  match l_value l with
  | None => Return (Handles.Recycled (l_it l))
  | Some _ =>
      if pooled_is_bad c then Return (Handles.Wasted (l_it l))
      else
        st ← get_transaction_status PQtransactionStatus
               (Some (Connection (native_handle l) (pc_socket c) EmptyString));
        Return (match st with
                | ts_idle => Handles.Recycled (l_it l)
                | _ => Handles.Wasted (l_it l)
                end)
  end.

End pooled.
Arguments leased O : clear implicits.
Arguments pooled_connection O : clear implicits.
Arguments pool_step O : clear implicits.

(** ** The life of a cell *)

(** One use of a cell: what libpq tells when it is leased and when it is given
    back, what the source gives if it is asked, whether the user closes the
    connection and whether the pool drops the resource at the end (its lifespan
    is over, or the pool was invalidated). *)
Record use (O : Type) := Use {
  u_socket : handle -> Z;
  u_status : handle -> conn_status;
  u_source : error_code * option (source_connection O);
  u_close : bool;
  u_status_end : handle -> conn_status;
  u_transaction : option handle -> pq_transaction_status;
  u_dropped : bool
}.
Arguments Use {O} _ _ _ _ _ _ _.
Arguments u_socket {O} _.
Arguments u_status {O} _.
Arguments u_source {O} _.
Arguments u_close {O} _.
Arguments u_status_end {O} _.
Arguments u_transaction {O} _.
Arguments u_dropped {O} _.

Section life.
Context {O : Type}.

(** The cell given back: a wasted one loses its value, a recycled one keeps it
    unless the pool drops it. *)
Definition give_back (dropped : bool) (r : Handles.returned) (l : leased O) : leased O :=
  match r with
  | Handles.Wasted _ => replace_value None l
  | Handles.Recycled _ => if dropped then replace_value None l else l
  end.

Definition end_use (u : use O) (c : pooled_connection O) : may_throw (leased O) :=
  let c := if u_close u then default c (snd <$> pooled_close c) else c in
  r ← destroy_pooled (u_status_end u) (u_transaction u) c;
  Return (give_back (u_dropped u) r (rep_ c)).

(** A use of the cell, with the native handles the source gave. *)
Definition use_cell (u : use O) (l : leased O) : may_throw (leased O * list handle) :=
  match on_handle (u_socket u) (u_status u) ec_default l with
  | CallHandler _ (Some c) => l ← end_use u c; Return (l, [])
  | CallHandler _ None => Return (l, [])
  | CallSource l =>
      match on_source (u_socket u) (u_source u).1 (u_source u).2 l with
      | (_, Some c, _) =>
          l ← end_use u c;
          Return (l, option_list ((u_source u).2 ≫= (fun t => handle_ (sc_connection t))))
      | (_, None, Some l) => Return (give_back (u_dropped u) (Handles.Recycled (l_it l)) l, [])
      | (_, None, None) => Return (l, [])
      end
  end.

Fixpoint use_cells (us : list (use O)) (l : leased O) : may_throw (leased O * list handle) :=
  match us with
  | [] => Return (l, [])
  | u :: us =>
      '(l, hs) ← use_cell u l;
      '(l, hs') ← use_cells us l;
      Return (l, hs ++ hs')
  end.

(** The native handles a cell accounts for. *)
Definition handles_of (l : leased O) : list handle := owned (l_value l) ++ l_finished l.

Lemma handles_of_replace v (l : leased O) : handles_of (replace_value v l) ≡ₚ owned v ++ handles_of l.
Proof. unfold handles_of, replace_value. simpl. solve_Permutation. Qed.

Lemma handles_of_give_back d r (l : leased O) : handles_of (give_back d r l) ≡ₚ handles_of l.
Proof. destruct r; simpl; [destruct d|]; by rewrite ?handles_of_replace. Qed.

Lemma handles_of_close (c : pooled_connection O) e c' : pooled_close c = Some (e, c') ->
  handles_of (rep_ c') ≡ₚ handles_of (rep_ c).
Proof.
  unfold pooled_close. destruct (rep_ c) as [i v f]; simpl. destruct v as [rep|]; intros E;
    simplify_eq/=. unfold handles_of, owned. simpl. apply Permutation_app_comm.
Qed.

Lemma handles_of_end u (c : pooled_connection O) l : end_use u c = Return l ->
  handles_of l ≡ₚ handles_of (rep_ c).
Proof.
  unfold end_use. intros E.
  set (c' := if u_close u then default c (snd <$> pooled_close c) else c) in E.
  assert (Hc : handles_of (rep_ c') ≡ₚ handles_of (rep_ c)).
  { unfold c'. destruct (u_close u); [|done].
    destruct (pooled_close c) as [[e d]|] eqn:Ed; [|done]. by apply (handles_of_close c e d). }
  destruct (destroy_pooled (u_status_end u) (u_transaction u) c') as [r|]; simplify_eq/=.
  by rewrite handles_of_give_back.
Qed.

Lemma handles_of_use u (l l' : leased O) hs : use_cell u l = Return (l', hs) ->
  handles_of l' ≡ₚ hs ++ handles_of l.
Proof.
  unfold use_cell. intros E.
  assert (Hs : forall k, CallSource k = on_handle (u_socket u) (u_status u) ec_default l -> k = l).
  { intros k. unfold on_handle. simpl. destruct (l_value l); [destruct (negb _)|]; congruence. }
  assert (Hu : forall e c, CallHandler e (Some c) = on_handle (u_socket u) (u_status u) ec_default l ->
    rep_ c = l).
  { intros e c. unfold on_handle. simpl.
    destruct (l_value l); [destruct (negb _)|]; intros H; by simplify_eq. }
  destruct (on_handle _ _ _ _) as [e [c|]|k].
  - destruct (end_use u c) as [l1|] eqn:Ee; simplify_eq/=.
    apply handles_of_end in Ee. rewrite Ee. by rewrite (Hu e c).
  - injection E as <- <-. done.
  - rewrite (Hs k) in E by done. unfold on_source in E. destruct (u_source u) as [e [t|]]; simpl in E.
    + destruct (end_use u _) as [l1|] eqn:Ee; simplify_eq/=.
      apply handles_of_end in Ee. rewrite Ee. simpl. by rewrite handles_of_replace.
    + injection E as <- <-. simpl. destruct (u_dropped u); by rewrite ?handles_of_replace.
Qed.

Lemma handles_of_uses us (l l' : leased O) hs : use_cells us l = Return (l', hs) ->
  handles_of l' ≡ₚ hs ++ handles_of l.
Proof.
  revert l hs. induction us as [|u us IH]; intros l hs E; simpl in E; [by injection E as <- <-|].
  destruct (use_cell u l) as [[l1 hs1]|] eqn:E1; simplify_eq/=.
  destruct (use_cells us l1) as [[l2 hs2]|] eqn:E2; simplify_eq/=.
  rewrite (IH _ _ E2), (handles_of_use _ _ _ _ E1). solve_Permutation.
Qed.

End life.

Module PooledConnections.

(** C24: a pooled connection goes back to the pool exactly when its cell
    is empty, or libpq reports its connection established and outside a
    transaction; in every other state libpq documents the cell is wasted; and the
    pool serves a request from a cell only when the connection in it is not bad. *)
Theorem pool_reuses_only_idle_connections {O : Type} (PQsocket : handle -> Z)
    (PQstatus : handle -> conn_status)
    (PQtransactionStatus : option handle -> pq_transaction_status) (c : pooled_connection O) :
  let returned := destroy_pooled PQstatus PQtransactionStatus c in
  let i := l_it (rep_ c) in
  (returned = Return (Handles.Recycled i)
   <-> l_value (rep_ c) = None
      \/ exists h, native_handle (rep_ c) = Some h /\ PQstatus h = CONNECTION_OK
                   /\ PQtransactionStatus (Some h) = PQTRANS_IDLE)
  /\ ((forall v, PQtransactionStatus (native_handle (rep_ c)) <> PQTRANS_OTHER v) ->
      returned <> Return (Handles.Recycled i) -> returned = Return (Handles.Wasted i))
  /\ (forall ec (l : leased O) c', on_handle PQsocket PQstatus ec l = CallHandler ec (Some c') ->
      rep_ c' = l /\ exists h, native_handle l = Some h /\ PQstatus h <> CONNECTION_BAD).
Proof.
  cbv zeta. unfold destroy_pooled, pooled_is_bad, get_transaction_status.
  destruct c as [[i v f] sock]. simpl. unfold native_handle. simpl. split_and!.
  - destruct v as [rep|]; simpl; [|naive_solver].
    destruct (safe_handle_ rep) as [h|]; simpl; [|split; [done|naive_solver]].
    destruct (bool_decide_reflect (PQstatus h = CONNECTION_OK)) as [Hok|Hok]; simpl.
    + destruct (PQtransactionStatus (Some h)) eqn:Et; simpl; split; naive_solver congruence.
    + split; [done|naive_solver].
  - destruct v as [rep|]; simpl; [|done].
    destruct (connection_status_ok PQstatus (safe_handle_ rep)); simpl; [|done].
    destruct (PQtransactionStatus (safe_handle_ rep)) eqn:Et; try done. intros H. by destruct (H v).
  - intros ec l c'. unfold on_handle. destruct (failed ec); [done|].
    destruct (l_value l) as [rep|] eqn:El; [|done].
    destruct (safe_handle_ rep) as [h|] eqn:Eh; simpl; [|done].
    destruct (bool_decide_reflect (PQstatus h = CONNECTION_BAD)); simpl; [done|].
    intros H. simplify_eq/=. split; [done|]. exists h. by rewrite Eh.
Qed.

(** Over any number of uses of a cell (served from the pool or
    connected anew, closed by the user or not, recycled or wasted, in any state of
    the connection), every native handle the source gave is the one the cell holds
    or was finished exactly once. *)
Theorem pooled_handles_are_finished_once {O : Type} (us : list (use O)) (i : nat)
    (l : leased O) (hs : list handle) :
  use_cells us (Leased i None []) = Return (l, hs) ->
  option_list (native_handle l) ++ l_finished l ≡ₚ hs.
Proof. intros E%handles_of_uses. by rewrite app_nil_r in E. Qed.

End PooledConnections.
