(* ===== verification/SharedPool.v ===== *)
(** * The connection pool as a whole: [connection_pool::operator()] of
      [impl/connection_pool.h] over the resource pool

    [ResourcePool] has the cells, the requests and the threads, [ConnectionPool] what
    happens to one cell in the hands of a connection.  Here they run together:
    every cell that is handed out goes through [pooled_connection_wrapper], the
    source, the connection of the user and back to the pool, in any interleaving
    with the other cells, and the native handles of libpq are followed. *)

From S2P Require Import Prelude Words Time Errors Connection PoolStorage PoolQueue ResourcePool ConnectionPool.
Import Storage PoolQueue ResourcePool.
#[local] Open Scope Z_scope.

(** Where a cell in use is: its answer was posted and the handler has not run
    yet, the source was called for it, or a [pooled_connection] holds it. *)
Inductive client := answered | asking_source | pooled (socket : option Z).

#[export] Instance client_eq_dec : EqDecision client.
Proof. solve_decision. Defined.

Section shared.
Context {O Q : Type} `{RequestQueue nat Q}.
Implicit Types (s : system (connection_rep O) Q) (l : list (idle (connection_rep O))).
Abbreviation rep := (connection_rep O).

(** The pool with the clients of its cells, the native handles the source gave
    and those that were finished. *)
Record shared := Shared {
  sh_system : system rep Q;
  sh_clients : list (nat * client);
  sh_given : list handle;
  sh_finished : list handle
}.

(** The native handles that cells own. *)
Definition owned_by l : list handle := l ≫= (fun c => owned (value c)).
Definition held_handles (st : storage rep) : list handle :=
  owned_by (available_ st ++ used_ st ++ wasted_ st).

Definition cells_of s : storage rep := storage_ (s_pool s).

(** The cells the loop of [storage::lease] resets before it finds one to hand out. *)
Fixpoint lease_drops (now : Z) l : list (idle rep) :=
  match l with
  | [] => []
  | c :: l => if now <? drop_time c then [] else c :: lease_drops now l
  end.

(** The value of the cell that a handle refers to. *)
Definition value_at i (st : storage rep) : option rep := c ← find_used i st; value c.

(** The native handles an operation of the pool finishes, with the values it resets:
    those of the cells [lease] finds expired, of a cell that is returned and is no
    longer valid, of a cell that is wasted, of a cell that is written, and of the
    available cells when the pool is invalidated. *)
Definition destroyed (e : event rep) s : list handle :=
  let st := cells_of s in
  match e with
  | EGet now _ _ _ => if disabled_ (s_pool s) then [] else owned_by (lease_drops now (available_ st))
  | ERecycle now i =>
      match find_used i st with
      | Some c => if is_valid now st c then [] else owned (value c)
      | None => []
      end
  | EWaste i | EReset _ i _ => owned (value_at i st)
  | EInvalidate => owned_by (available_ st)
  | EQueue _ _ | EDisable | ETimer _ _ => []
  end.

(** The state after a step of the pool: the cells it answered with have new
    clients. *)
Definition advance (given finished : list handle) (clients : list (nat * client)) s (sh : shared) : shared :=
  let new := omap answer_cell (drop (length (s_answers (sh_system sh))) (s_answers s)).*2 in
  Shared s (clients ++ ((fun i => (i, answered)) <$> new)) (sh_given sh ++ given) (sh_finished sh ++ finished).

(** An operation of the pool. *)
Definition pool_does e (clients : list (nat * client)) (sh : shared) : option shared :=
  s ← step e (sh_system sh); Some (advance [] (destroyed e (sh_system sh)) clients s sh).

(** [cell.value] written in place. *)
Definition set_value (v : option rep) (c : idle rep) : idle rep :=
  Idle (cell_it c) v (drop_time c) (reset_time c) (waste_on_recycle c).
Definition write_value i (v : option rep) s : system rep Q :=
  set_pool (set_storage (update_used i (set_value v) (cells_of s)) (s_pool s)) s.

(** The cell of a client and the other clients. *)
Definition client_of (i : nat) (sh : shared) : option (client * leased O * list (nat * client)) :=
  '((_, cl), rest) ← take_key fst i (sh_clients sh);
  c ← find_used i (cells_of (sh_system sh));
  Some (cl, Leased i (value c) [], rest).

Definition set_clients (clients : list (nat * client)) (sh : shared) : shared :=
  Shared (sh_system sh) clients (sh_given sh) (sh_finished sh).

Inductive shared_event :=
| pool_event (e : event rep)
| handler_runs (i : nat) (PQsocket : handle -> Z) (PQstatus : handle -> conn_status)
| source_done (now : Z) (i : nat) (PQsocket : handle -> Z) (ec : error_code)
    (conn : option (source_connection O))
| user_closes (i : nat)
| user_destroys (now : Z) (i : nat) (PQstatus : handle -> conn_status)
    (PQtransactionStatus : option handle -> pq_transaction_status).

(** Cells are returned and written by their clients only. *)
Definition is_pools (e : event rep) : bool :=
  match e with ERecycle _ _ | EWaste _ | EReset _ _ _ => false | _ => true end.

(** The handles a source gives with a connection. *)
Definition given_with (conn : option (source_connection O)) : list handle :=
  option_list (conn ≫= (fun t => handle_ (sc_connection t))).

(** One step: [connection_pool::operator()] and the timer, invalidation and
    disabling of the pool are events of the pool; the others are those of a cell
    in use, and what they finish is what the operations of the connection do.
    [None]: the step is not one, or a handle was given before. *)
Definition shared_step (ev : shared_event) (sh : shared) : option shared :=
  match ev with
  | pool_event e =>
      if is_pools e then pool_does e (sh_clients sh) sh else None
  | handler_runs i PQsocket PQstatus =>
      '(cl, l, rest) ← client_of i sh;
      if decide (cl = answered) then
        match on_handle PQsocket PQstatus ec_default l with
        | CallHandler _ (Some c) => Some (set_clients (rest ++ [(i, pooled (pc_socket c))]) sh)
        | CallHandler _ None => None
        | CallSource _ => Some (set_clients (rest ++ [(i, asking_source)]) sh)
        end
      else None
  | source_done now i PQsocket ec conn =>
      '(cl, l, rest) ← client_of i sh;
      if decide (cl = asking_source /\ Forall (fun h => h ∉ sh_given sh) (given_with conn)) then
        match on_source PQsocket ec conn l with
        | (_, Some c, _) =>
            v ← l_value (rep_ c);
            s ← step (EReset now i v) (sh_system sh);
            Some (advance (given_with conn) (l_finished (rep_ c)) (rest ++ [(i, pooled (pc_socket c))]) s sh)
        | (_, None, _) => pool_does (ERecycle now i) rest sh
        end
      else None
  | user_closes i =>
      '(cl, l, rest) ← client_of i sh;
      match cl with
      | pooled socket =>
          '(_, c) ← pooled_close (Pooled l socket);
          Some (advance [] (l_finished (rep_ c)) (rest ++ [(i, pooled (pc_socket c))])
                  (write_value i (l_value (rep_ c)) (sh_system sh)) sh)
      | _ => None
      end
  | user_destroys now i PQstatus PQtransactionStatus =>
      '(cl, l, rest) ← client_of i sh;
      match cl with
      | pooled socket =>
          match destroy_pooled PQstatus PQtransactionStatus (Pooled l socket) with
          | Return (Handles.Recycled _) => pool_does (ERecycle now i) rest sh
          | Return (Handles.Wasted _) => pool_does (EWaste i) rest sh
          | Throw _ => None
          end
      | _ => None
      end
  end.

(** ** The handles of cells *)

Lemma owned_by_app l1 l2 : owned_by (l1 ++ l2) = owned_by l1 ++ owned_by l2.
Proof using. unfold owned_by. by rewrite bind_app. Qed.

#[local] Instance owned_by_perm : Proper ((≡ₚ) ==> (≡ₚ)) owned_by.
Proof using. intros l1 l2 Hl. unfold owned_by. by rewrite Hl. Qed.

Lemma owned_by_cons c l : owned_by (c :: l) = owned (value c) ++ owned_by l.
Proof using. done. Qed.

Lemma owned_by_one c : owned_by [c] = owned (value c).
Proof using. unfold owned_by. simpl. by rewrite app_nil_r. Qed.

Lemma held_handles_eq (st : storage rep) :
  held_handles st = owned_by (available_ st) ++ owned_by (used_ st) ++ owned_by (wasted_ st).
Proof using. unfold held_handles. by rewrite !owned_by_app. Qed.

Lemma owned_by_fmap (f : idle rep -> idle rep) l : (forall c, owned (value (f c)) = owned (value c)) ->
  owned_by (f <$> l) = owned_by l.
Proof using. intros Hf. induction l as [|c l IH]; [done|]. rewrite fmap_cons, !owned_by_cons. by rewrite Hf, IH. Qed.

Lemma owned_by_reset l : owned_by (reset_value <$> l) = [].
Proof using. by induction l. Qed.

(** A write to the cell [i] of cells with different iterators. *)
Lemma owned_by_update i (f : idle rep -> idle rep) v l c rest : NoDup (cell_it <$> l) ->
  (forall c, owned (value (f c)) = v) -> take_key cell_it i l = Some (c, rest) ->
  owned (value c) ++ owned_by ((fun c => if decide (cell_it c = i) then f c else c) <$> l) ≡ₚ v ++ owned_by l.
Proof using.
  intros Hnd Hf Ht. apply take_key_spec in Ht as (Hc & l1 & l2 & -> & _).
  rewrite fmap_app, fmap_cons in Hnd. apply NoDup_app in Hnd as (_ & H1 & Hnd).
  apply NoDup_cons in Hnd as [H2 _]. rewrite fmap_app, fmap_cons, !owned_by_app, !owned_by_cons.
  rewrite decide_True by done. rewrite Hf.
  assert (forall k : list (idle rep), i ∉ cell_it <$> k -> (fun c => if decide (cell_it c = i) then f c else c) <$> k = k) as Hsame.
  { intros k Hk. rewrite <- (list_fmap_id k) at 2. apply list_fmap_ext. intros j c' Hj%list_elem_of_lookup_2.
    rewrite decide_False; [done|]. intros <-. apply Hk. by apply list_elem_of_fmap_2. }
  rewrite !Hsame; [solve_Permutation|by rewrite <- Hc|].
  intros Hi. apply (H1 i Hi). rewrite Hc. by left.
Qed.

Lemma lease_available_drops now (av wa : list (idle rep)) x av' wa' :
  lease_available now av wa = (x, av', wa') ->
  wa' = wa ++ (reset_value <$> lease_drops now av)
  /\ av = lease_drops now av ++ option_list x ++ av'.
Proof using.
  revert wa. induction av as [|c av IH]; intros wa E; simpl in E |- *; [simplify_eq; by rewrite app_nil_r|].
  destruct (now <? drop_time c); [simplify_eq; by rewrite app_nil_r|].
  apply IH in E as [-> E]. split; [by rewrite <- app_assoc|]. simpl. by f_equal.
Qed.

Lemma lease_handles now (st : storage rep) r st' : lease now st = (r, st') ->
  held_handles st ≡ₚ owned_by (lease_drops now (available_ st)) ++ held_handles st'.
Proof using.
  unfold lease. destruct (lease_available now (available_ st) (wasted_ st)) as [[x av] wa] eqn:El.
  apply lease_available_drops in El as [-> Hav]. rewrite !held_handles_eq. rewrite Hav at 1.
  rewrite !owned_by_app. destruct x as [c|].
  - intros [= <- <-]. simpl. rewrite !owned_by_app, owned_by_one, owned_by_reset, app_nil_r. solve_Permutation.
  - destruct (wasted_ st ++ (reset_value <$> _)) as [|c wa] eqn:Ew; intros [= <- <-]; simpl.
    + apply app_eq_nil in Ew as [-> _]. solve_Permutation.
    + assert (owned_by (wasted_ st) = owned (value c) ++ owned_by wa) as ->.
      { rewrite <- owned_by_cons, <- Ew, owned_by_app, owned_by_reset. by rewrite app_nil_r. }
      rewrite owned_by_app, owned_by_one. simpl. solve_Permutation.
Qed.

Lemma waste_handles i (st st' : storage rep) : Storage.waste i st = Some st' ->
  held_handles st ≡ₚ owned (value_at i st) ++ held_handles st'.
Proof using.
  unfold Storage.waste, value_at, find_used. destruct (take_key cell_it i (used_ st)) as [[c used]|] eqn:Et; [|done].
  intros [= <-]. apply take_key_perm in Et. rewrite !held_handles_eq. simpl.
  rewrite Et, owned_by_cons, owned_by_app, owned_by_one. simpl. solve_Permutation.
Qed.

Lemma recycle_handles now i c (st st' : storage rep) : Storage.recycle now i st = Some st' ->
  find_used i st = Some c ->
  held_handles st ≡ₚ (if is_valid now st c then [] else owned (value c)) ++ held_handles st'.
Proof using.
  intros Hr Hf. pose proof (waste_handles i st) as Hw. unfold value_at in Hw. rewrite Hf in Hw. simpl in Hw.
  unfold Storage.recycle, find_used, is_valid in *.
  destruct (take_key cell_it i (used_ st)) as [[c' used]|] eqn:Et; [|done]. simplify_eq/=.
  destruct (waste_on_recycle c); [by apply Hw|]. destruct (_ <=? now); [by apply Hw|]. simplify_eq/=.
  apply take_key_perm in Et. rewrite !held_handles_eq. simpl. rewrite Et, owned_by_cons, owned_by_app, owned_by_one.
  simpl. solve_Permutation.
Qed.

Lemma invalidate_handles (st : storage rep) :
  held_handles st ≡ₚ owned_by (available_ st) ++ held_handles (invalidate st).
Proof using.
  rewrite !held_handles_eq. simpl. rewrite owned_by_fmap by done. by rewrite owned_by_app, owned_by_reset, app_nil_r.
Qed.

Lemma update_handles cap i f v (st : storage rep) : storage_ok cap st -> i ∈ cell_it <$> used_ st ->
  (forall c, owned (value (f c)) = v) ->
  owned (value_at i st) ++ held_handles (update_used i f st) ≡ₚ v ++ held_handles st.
Proof using.
  intros Hok%ok_NoDup Hi Hf. unfold cells in Hok. rewrite !fmap_app in Hok.
  apply NoDup_app in Hok as (_ & _ & Hok). apply NoDup_app in Hok as (Hok & _).
  destruct (take_key_is_Some cell_it _ _ Hi) as [[c rest] Et].
  pose proof (owned_by_update i f v _ c rest Hok Hf Et) as Hu.
  unfold value_at, find_used. rewrite Et. simpl. rewrite !held_handles_eq. simpl.
  transitivity (owned_by (available_ st) ++ (v ++ owned_by (used_ st)) ++ owned_by (wasted_ st));
    [rewrite <- Hu|]; solve_Permutation.
Qed.
(** ** Steps of the pool *)

(** The handles an event writes to a cell. *)
Definition given_by (e : event rep) : list handle :=
  match e with EReset _ _ v => owned (Some v) | _ => [] end.

Lemma return_handles (res : option (option (nat * answer) * pool_impl rep Q)) i s s' hs :
  (forall a p, res = Some (a, p) -> held_handles (cells_of s) ≡ₚ hs ++ held_handles (storage_ p)) ->
  ('(a, p) ← res; s ← drop_held i (set_pool p s); Some (post (option_list a) s)) = Some s' ->
  hs ++ held_handles (cells_of s') ≡ₚ held_handles (cells_of s).
Proof using.
  intros Hr Hs. destruct res as [[a p]|]; [|done]. cbn [mbind option_bind] in Hs.
  unfold drop_held in Hs. destruct (take_key id i _) as [[x held]|]; [|done]. simplify_eq/=. by rewrite (Hr a p).
Qed.

(** What the cells own after an operation of the pool: what they owned and were given,
    but for what the operation finished. *)
Lemma step_handles cap qcap e s s' : sys_ok cap qcap s -> step e s = Some s' ->
  destroyed e s ++ held_handles (cells_of s') ≡ₚ given_by e ++ held_handles (cells_of s).
Proof using.
  intros Hok [He Hb]%step_inv. pose proof (pok_storage _ _ _ (sok_pool _ _ _ Hok)) as Hst.
  assert (forall i, bool_decide (i ∈ s_held s) = true -> i ∈ cell_it <$> used_ (cells_of s)) as Hin.
  { intros i Hi%bool_decide_eq_true. pose proof (sok_held _ _ _ Hok) as Hh. unfold cells_in_use in Hh.
    by rewrite <- Hh in Hi. }
  assert (forall i, bool_decide (i ∈ s_held s) = true ->
    held_handles (cells_of s) ≡ₚ owned (value_at i (cells_of s))
      ++ held_handles (update_used i reset_value (cells_of s))) as Hreset.
  { intros i Hi. symmetry. exact (update_handles cap i reset_value [] _ Hst (Hin i Hi) (fun _ => eq_refl)). }
  destruct e as [now r ex wait|now r|now i|i|now i v| | |ec t]; cbn [body given_by destroyed app enabled] in *.
  - unfold get_locked in Hb. destruct (disabled_ (s_pool s)); [by simplify_eq/=|].
    destruct (lease now (storage_ (s_pool s))) as [r0 st] eqn:El. apply lease_handles in El.
    destruct r0; simplify_eq/=; by rewrite <- El.
  - destruct (take_key fst r (s_waiting s)) as [[[r' [ex wait]] w]|]; [|done]. cbn [mbind option_bind] in Hb.
    unfold get_unlocked in Hb. destruct (wait =? 0); [by simplify_eq/=|].
    destruct (rq_push now ex wait r _) as [[[] q]|]; simplify_eq/=; done.
  - destruct (find_used_spec _ _ (Hin i He)) as (c & Hc & _). rewrite Hc.
    eapply return_handles; [|exact Hb]. intros a p Ha. unfold recycle in Ha.
    destruct (rq_pop _) as [[[[r ex]|] q]|]; [| |done]; cbn [mbind option_bind] in Ha; simpl in Ha.
    + unfold cells_of in Hc. rewrite Hc in Ha. cbn [mbind option_bind] in Ha. unfold cells_of.
      destruct (is_valid now _ c); simplify_eq/=; [done|].
      pose proof (Hreset i He) as Hv. unfold value_at, cells_of in Hv. by rewrite Hc in Hv.
    + destruct (Storage.recycle now i _) as [st|] eqn:Es; [|done]. simplify_eq/=. by apply (recycle_handles _ _ _ _ _ Es).
  - eapply return_handles; [|exact Hb]. intros a p Ha. unfold waste in Ha.
    destruct (rq_pop _) as [[[[r ex]|] q]|]; [| |done]; cbn [mbind option_bind] in Ha; simpl in Ha.
    + simplify_eq/=. by apply Hreset.
    + destruct (Storage.waste i _) as [st|] eqn:Es; [|done]. simplify_eq/=. by apply waste_handles in Es.
  - simplify_eq/=. by apply (update_handles cap); auto.
  - simplify_eq/=. symmetry. apply invalidate_handles.
  - destruct (disable _) as [[answers p]|] eqn:Ed; [|done]. simplify_eq/=. unfold disable in Ed.
    destruct (disable_loop _ _) as [[x q]|]; [|done]. by simplify_eq/=.
  - destruct (rq_cancel ec t _) as [[posted q]|]; [|done]. by simplify_eq/=.
Qed.

(** ** The invariant *)

Record shared_ok (cap qcap : nat) (sh : shared) : Prop := {
  shok_system : sys_ok cap qcap (sh_system sh);
  shok_clients : (sh_clients sh).*1 ≡ₚ s_held (sh_system sh);
  shok_handles : held_handles (cells_of (sh_system sh)) ++ sh_finished sh ≡ₚ sh_given sh;
  shok_given : NoDup (sh_given sh)
}.

Lemma advance_ok cap qcap given finished clients s (sh : shared) : shared_ok cap qcap sh -> sys_ok cap qcap s ->
  clients.*1 ++ omap answer_cell (drop (length (s_answers (sh_system sh))) (s_answers s)).*2 ≡ₚ s_held s ->
  finished ++ held_handles (cells_of s) ≡ₚ given ++ held_handles (cells_of (sh_system sh)) ->
  NoDup (sh_given sh ++ given) -> shared_ok cap qcap (advance given finished clients s sh).
Proof using.
  intros [_ _ Hh _] Hs Hc Hp Hnd. split; simpl; [done| | |done].
  - rewrite fmap_app, <- list_fmap_compose. rewrite (list_fmap_ext _ id) by done. by rewrite list_fmap_id.
  - transitivity ((finished ++ held_handles (cells_of s)) ++ sh_finished sh); [solve_Permutation|].
    rewrite Hp, <- Hh. solve_Permutation.
Qed.

(** A step of the pool, its new answers gone to new clients. *)
Lemma advance_step_ok cap qcap e given clients s (sh : shared) : shared_ok cap qcap sh ->
  step e (sh_system sh) = Some s -> given_by e = given -> NoDup (sh_given sh ++ given) ->
  match e with
  | ERecycle _ i | EWaste i => i :: clients.*1 ≡ₚ (sh_clients sh).*1
  | _ => clients.*1 ≡ₚ (sh_clients sh).*1
  end -> shared_ok cap qcap (advance given (destroyed e (sh_system sh)) clients s sh).
Proof using.
  intros Hok Hs Hg Hnd Hc. pose proof (shok_system _ _ _ Hok) as Hsys.
  assert (sys_ok cap qcap s) as Hsys'.
  { destruct (step_inv _ _ _ Hs) as [He Hb]. destruct (step_good _ _ _ _ Hsys He) as (s1 & Hb1 & Hs1 & _). congruence. }
  destruct (step_held _ _ _ Hs) as (new & Ha & Hh). pose proof (shok_clients _ _ _ Hok) as Hcl.
  apply advance_ok; [done|done| | |done].
  - rewrite Ha, drop_app_length.
    destruct e as [| |? i|i| | | |]; try (by rewrite Hh, Hc, Hcl).
    all: apply (Permutation_cons_inv (a := i)); rewrite <- Hh, app_comm_cons; by rewrite Hc, Hcl.
  - rewrite <- Hg. by eapply step_handles.
Qed.

Lemma pool_does_ok cap qcap e clients (sh sh' : shared) : shared_ok cap qcap sh -> given_by e = [] ->
  match e with
  | ERecycle _ i | EWaste i => i :: clients.*1 ≡ₚ (sh_clients sh).*1
  | _ => clients.*1 ≡ₚ (sh_clients sh).*1
  end -> pool_does e clients sh = Some sh' -> shared_ok cap qcap sh'.
Proof using.
  intros Hok Hg Hc Hs. unfold pool_does in Hs. destruct (step e (sh_system sh)) as [s|] eqn:Es; [|done].
  injection Hs as <-. apply advance_step_ok; [done..|rewrite app_nil_r; apply Hok|done].
Qed.

Lemma client_of_spec i (sh : shared) cl (l : leased O) rest : client_of i sh = Some (cl, l, rest) ->
  l_it l = i /\ i :: rest.*1 ≡ₚ (sh_clients sh).*1
  /\ exists c, find_used i (cells_of (sh_system sh)) = Some c /\ l = Leased i (value c) [].
Proof using.
  unfold client_of. destruct (take_key fst i (sh_clients sh)) as [[[j cl'] rest']|] eqn:Et; [|done].
  cbn [mbind option_bind]. destruct (find_used i _) as [c|]; [|done]. intros E. simplify_eq/=.
  apply take_key_perm in Et as Hp. apply take_key_spec in Et as [Hj _]. simpl in Hj. subst j.
  split; [done|]. split; [by rewrite Hp|]. by exists c.
Qed.

Lemma back_of i (rest : list (nat * client)) cl : (rest ++ [(i, cl)]).*1 ≡ₚ i :: rest.*1.
Proof using. rewrite fmap_app. simpl. by rewrite Permutation_app_comm. Qed.

Lemma write_ok cap qcap i v s : sys_ok cap qcap s -> sys_ok cap qcap (write_value i v s).
Proof using.
  intros Hs. apply (good_storage cap qcap EInvalidate); [done| |by apply cells_update].
  apply update_used_ok; [done|apply Hs].
Qed.

(** Closing a connection takes its handle out of the cell and finishes it. *)
Lemma close_handles cap qcap i s sk ec c cell : sys_ok cap qcap s -> find_used i (cells_of s) = Some cell ->
  pooled_close (Pooled (Leased i (value cell) []) sk) = Some (ec, c) ->
  l_finished (rep_ c) ++ held_handles (cells_of (write_value i (l_value (rep_ c)) s)) ≡ₚ held_handles (cells_of s).
Proof using.
  intros Hs Hf Hc. unfold pooled_close in Hc. simpl in Hc. destruct (value cell) as [r|] eqn:Hv; [|done]. simplify_eq/=.
  assert (option_list (safe_handle_ r) = owned (value_at i (cells_of s))) as ->
    by (unfold value_at; rewrite Hf; simpl; by rewrite Hv).
  apply (update_handles cap i _ []); [apply Hs| |done].
  unfold find_used in Hf. destruct (take_key cell_it i _) as [[c' rest]|] eqn:Et; [|done].
  apply take_key_spec in Et as (<- & l1 & l2 & -> & _). rewrite fmap_app, fmap_cons. apply elem_of_app. right. by left.
Qed.

(** The connection of the source takes the place of the value of the cell, which is
    finished. *)
Lemma source_handles now i PQsocket ec conn (l : leased O) e c rest v s cell :
  on_source PQsocket ec conn l = (e, Some c, rest) -> l = Leased i (value cell) [] ->
  find_used i (cells_of s) = Some cell -> l_value (rep_ c) = Some v ->
  l_finished (rep_ c) = destroyed (EReset now i v) s /\ given_by (EReset now i v) = given_with conn.
Proof using.
  intros Eo -> Hf Hv. unfold on_source in Eo. destruct conn as [t|]; [|done]. simplify_eq/=.
  unfold value_at. by rewrite Hf.
Qed.

Lemma shared_step_ok cap qcap ev (sh sh' : shared) : shared_ok cap qcap sh -> shared_step ev sh = Some sh' ->
  shared_ok cap qcap sh'.
Proof using.
  intros Hok Hs. pose proof Hok as [Hsys Hcl Hh Hnd].
  destruct ev as [e|i PQsocket PQstatus|now i PQsocket ec conn|i|now i PQstatus PQtrans]; cbn [shared_step] in Hs.
  - destruct (is_pools e) eqn:Ep; [|done]. apply (pool_does_ok cap qcap e) in Hs; [done|done|..]; by destruct e.
  - destruct (client_of i sh) as [[[cl l] rest]|] eqn:Ec; [|done]. cbn [mbind option_bind] in Hs.
    destruct (client_of_spec _ _ _ _ _ Ec) as (_ & Hr & _). case_decide; [|done].
    destruct (on_handle _ _ _ l) as [e [c|]|k]; simplify_eq/=;
      (split; simpl; [done|by rewrite back_of, Hr|done|done]).
  - destruct (client_of i sh) as [[[cl l] rest]|] eqn:Ec; [|done]. cbn [mbind option_bind] in Hs.
    destruct (client_of_spec _ _ _ _ _ Ec) as (_ & Hr & cell & Hf & Hl). case_decide as Hg; [|done].
    destruct Hg as [_ Hg]. destruct (on_source PQsocket ec conn l) as [[e' [c|]] o] eqn:Eo.
    + destruct (l_value (rep_ c)) as [v|] eqn:Ev; [|done]. cbn [mbind option_bind] in Hs.
      destruct (step (EReset now i v) (sh_system sh)) as [s|] eqn:Es; [|done]. simplify_eq/=.
      destruct (source_handles now _ _ _ _ _ _ _ _ _ _ _ Eo eq_refl Hf Ev) as [-> Hgv].
      apply (advance_step_ok cap qcap (EReset now i v)); [done|done|done| |by rewrite back_of].
      apply NoDup_app. split; [done|]. split.
      * intros h Hh1 Hh2. rewrite Forall_forall in Hg. by apply (Hg h).
      * unfold given_with. destruct (conn ≫= _); simpl; [apply NoDup_singleton|constructor].
    + by apply (pool_does_ok cap qcap (ERecycle now i) rest sh).
  - destruct (client_of i sh) as [[[cl l] rest]|] eqn:Ec; [|done]. cbn [mbind option_bind] in Hs.
    destruct (client_of_spec _ _ _ _ _ Ec) as (_ & Hr & cell & Hf & ->). destruct cl as [| |sk]; [done|done|].
    destruct (pooled_close _) as [[e c]|] eqn:Epc; [|done]. simplify_eq/=.
    apply advance_ok; [done|by apply write_ok| |by eapply close_handles|by rewrite app_nil_r].
    simpl. rewrite drop_all. simpl. by rewrite app_nil_r, back_of, Hr.
  - destruct (client_of i sh) as [[[cl l] rest]|] eqn:Ec; [|done]. cbn [mbind option_bind] in Hs.
    destruct (client_of_spec _ _ _ _ _ Ec) as (_ & Hr & _). destruct cl as [| |sk]; [done|done|].
    destruct (destroy_pooled _ _ _) as [[j|j]|]; [| |done].
    + by apply (pool_does_ok cap qcap (ERecycle now i) rest sh).
    + by apply (pool_does_ok cap qcap (EWaste i) rest sh).
Qed.
End shared.

(** ** Constructing a pool *)

(** [connection_pool_config], in nanoseconds. *)
Record connection_pool_config := Config {
  capacity : nat;
  queue_capacity : nat;
  idle_timeout : Z;
  lifespan : Z
}.
Definition default_config : connection_pool_config := Config 10 128 (60 * 10 ^ 9) (24 * 3600 * 10 ^ 9).

Section pools.
Context {O Q : Type} `{RequestQueue nat Q}.

(** [connection_pool(source, config)] and [make_connection_pool] *)
Definition make_connection_pool (config : connection_pool_config) : outcome zero_pool_capacity (shared (O := O) (Q := Q)) :=
  p ← make_pool (capacity config) (queue_capacity config) (idle_timeout config) (lifespan config);
  Return (Shared (start p) [] [] []).

Inductive shared_reachable (sh0 : shared (O := O) (Q := Q)) : shared -> Prop :=
| shared_start : shared_reachable sh0 sh0
| shared_next sh ev sh' : shared_reachable sh0 sh -> shared_step ev sh = Some sh' -> shared_reachable sh0 sh'.

Lemma make_connection_pool_ok config sh : make_connection_pool config = Return sh ->
  shared_ok (capacity config) (queue_capacity config) sh.
Proof.
  unfold make_connection_pool. intros E. destruct (make_pool _ _ _ _) as [p|] eqn:Ep; simplify_eq/=.
  pose proof (constructed_ok _ _ _ (constructed_empty _ _ _ _ _ Ep)) as Hs.
  split; simpl; [done|done| |constructor]. rewrite app_nil_r.
  unfold make_pool, assert_capacity in Ep. destruct (capacity config) as [|n]; simplify_eq/=.
  unfold mret, outcome_ret in Ep. simplify_eq/=. unfold cells_of, held_handles. simpl.
  by induction (seq 1 n).
Qed.

Lemma shared_reachable_ok config sh0 sh : make_connection_pool config = Return sh0 ->
  shared_reachable sh0 sh -> shared_ok (capacity config) (queue_capacity config) sh.
Proof.
  intros Hc. induction 1 as [|sh ev sh' _ IH Hs]; [by apply make_connection_pool_ok|by eapply shared_step_ok].
Qed.

Lemma owned_by_unique (l : list (idle (connection_rep O))) c1 c2 h : NoDup (owned_by l) ->
  c1 ∈ l -> c2 ∈ l -> h ∈ owned (value c1) -> h ∈ owned (value c2) -> c1 = c2.
Proof.
  induction l as [|c l IH]; intros Hnd H1 H2 Hh1 Hh2; [by apply elem_of_nil in H1|].
  rewrite owned_by_cons in Hnd. apply NoDup_app in Hnd as (_ & Hdis & Hnd).
  assert (forall c', c' ∈ l -> h ∈ owned (value c') -> h ∈ owned_by l) as Hin.
  { intros c' Hc' Hh'. apply list_elem_of_bind. by exists c'. }
  apply elem_of_cons in H1 as [->|H1]; apply elem_of_cons in H2 as [->|H2]; [done|..].
  - destruct (Hdis h Hh1). by apply (Hin c2).
  - destruct (Hdis h Hh2). by apply (Hin c1).
  - by apply IH.
Qed.

Lemma handles_exclusive cap qcap (sh : shared (O := O) (Q := Q)) i j ci cj h : shared_ok cap qcap sh ->
  find_used i (cells_of (sh_system sh)) = Some ci -> find_used j (cells_of (sh_system sh)) = Some cj ->
  value ci ≫= safe_handle_ = Some h -> value cj ≫= safe_handle_ = Some h -> i = j.
Proof.
  intros [_ _ Hh Hnd] Hi Hj Hci Hcj.
  assert (forall k c, find_used k (cells_of (sh_system sh)) = Some c ->
    c ∈ used_ (cells_of (sh_system sh)) /\ cell_it c = k) as Hf.
  { intros k c Hk. unfold find_used in Hk. destruct (take_key cell_it k _) as [[c' rest]|] eqn:Et; simplify_eq/=.
    apply take_key_spec in Et as (Hc' & l1 & l2 & -> & _). split; [apply elem_of_app; right; by left|done]. }
  destruct (Hf _ _ Hi) as [H1 <-], (Hf _ _ Hj) as [H2 <-]. f_equal.
  rewrite <- Hh in Hnd. apply NoDup_app in Hnd as [Hnd _]. rewrite held_handles_eq in Hnd.
  apply NoDup_app in Hnd as (_ & _ & Hnd). apply NoDup_app in Hnd as [Hnd _].
  apply (owned_by_unique _ ci cj h Hnd H1 H2); unfold owned; [rewrite Hci|rewrite Hcj]; by left.
Qed.

Lemma take_key_unique (l : list (nat * client)) i cl : NoDup l.*1 -> (i, cl) ∈ l ->
  exists rest, take_key fst i l = Some ((i, cl), rest).
Proof.
  intros Hnd Hin. assert (i ∈ fst <$> l) as Hi by (apply list_elem_of_fmap; by exists (i, cl)).
  destruct (take_key_is_Some fst i l Hi) as [[[j cl'] rest] Et]. exists rest. rewrite Et. do 2 f_equal.
  apply take_key_perm in Et as Hp. apply take_key_spec in Et as [Hj _]. simpl in Hj. subst j.
  rewrite Hp in Hin, Hnd. apply elem_of_cons in Hin as [?|Hin]; [done|]. exfalso.
  apply NoDup_cons in Hnd as [Hn _]. apply Hn. apply list_elem_of_fmap. by exists (i, cl).
Qed.

Lemma client_of_is_Some cap qcap (sh : shared (O := O) (Q := Q)) i cl : shared_ok cap qcap sh -> (i, cl) ∈ sh_clients sh ->
  i ∈ s_held (sh_system sh) /\ exists l rest, client_of i sh = Some (cl, l, rest).
Proof.
  intros Hok Hin. pose proof Hok as [Hs Hc _ _].
  assert (i ∈ s_held (sh_system sh)) as Hi.
  { rewrite <- Hc. apply list_elem_of_fmap. by exists (i, cl). }
  assert (NoDup (sh_clients sh).*1) as Hnd.
  { rewrite Hc, <- (sok_held _ _ _ Hs). pose proof (ok_NoDup _ _ (pok_storage _ _ _ (sok_pool _ _ _ Hs))) as Hd.
    unfold cells in Hd. rewrite !fmap_app in Hd. apply NoDup_app in Hd as (_ & _ & Hd). by apply NoDup_app in Hd as (Hd & _). }
  split; [done|]. destruct (take_key_unique _ _ _ Hnd Hin) as [rest Hr]. unfold client_of. rewrite Hr.
  cbn [mbind option_bind]. rewrite <- (sok_held _ _ _ Hs) in Hi. destruct (find_used_spec _ _ Hi) as (c & Hf & _).
  unfold cells_of. rewrite Hf. simpl. by eauto.
Qed.

(** No client is stuck: its handler runs, its source may answer with a connection
    or without one, its connection may be destroyed in any state libpq documents. *)
Lemma client_progress cap qcap (sh : shared (O := O) (Q := Q)) i cl : shared_ok cap qcap sh -> (i, cl) ∈ sh_clients sh ->
  match cl with
  | answered => forall sock st, is_Some (shared_step (handler_runs i sock st) sh)
  | asking_source => forall now sock ec conn, Forall (fun h => h ∉ sh_given sh) (given_with conn) ->
      is_Some (shared_step (source_done now i sock ec conn) sh)
  | pooled _ => forall now st tr, (forall h v, tr h <> PQTRANS_OTHER v) ->
      is_Some (shared_step (user_destroys now i st tr) sh)
  end.
Proof.
  intros Hok Hin. destruct (client_of_is_Some _ _ _ _ _ Hok Hin) as (Hi & l & rest & Hc).
  assert (forall e, enabled e (sh_system sh) = true -> is_Some (step e (sh_system sh))) as Hstep.
  { intros e He. unfold step. rewrite He.
    destruct (step_good _ _ _ _ (shok_system _ _ _ Hok) He) as (s' & -> & _). by eexists. }
  assert (bool_decide (i ∈ s_held (sh_system sh)) = true) as Hb by (by apply bool_decide_eq_true_2).
  destruct cl as [| |sk].
  - intros sock st. cbn [shared_step]. rewrite Hc. cbn [mbind option_bind]. rewrite decide_True by done.
    unfold on_handle. simpl. destruct (l_value l); [destruct (negb _)|]; by eexists.
  - intros now sock ec conn Hg. cbn [shared_step]. rewrite Hc. cbn [mbind option_bind]. rewrite decide_True by done.
    destruct conn as [t|]; simpl.
    + destruct (Hstep (EReset now i (Rep (handle_ (sc_connection t)) (sc_oid_map t)
        (error_context_ (sc_connection t)))) Hb) as [s' ->]. by eexists.
    + unfold pool_does. destruct (Hstep (ERecycle now i) Hb) as [s' ->]. by eexists.
  - intros now st tr Htr. cbn [shared_step]. rewrite Hc. cbn [mbind option_bind].
    destruct (Hstep (ERecycle now i) Hb) as [s1 H1]. destruct (Hstep (EWaste i) Hb) as [s2 H2].
    unfold destroy_pooled, pool_does. simpl. destruct (l_value l); [|rewrite H1; by eexists].
    destruct (pooled_is_bad _ _); [rewrite H2; by eexists|]. unfold get_transaction_status. simpl.
    destruct (tr (native_handle l)) as [| | | | |v] eqn:Et; simpl; rewrite ?H1, ?H2; try (by eexists).
    by destruct (Htr (native_handle l) v).
Qed.
End pools.
Arguments shared O Q : clear implicits.

Module SharedConnections.

(** C6: however many clients use a connection pool, in whatever order requests,
    handlers, sources, closings, destructions, timers, invalidations and the
    disabling of the pool come: every cell in use has exactly one client and no two of
    them share a native handle; every handle the source gave is owned by one cell or
    was finished once, by the operation that reset the value or closed the connection
    that owned it, never both and never neither; and no client is stuck. *)
Theorem shared_connections_are_exclusive {O Q : Type} `{RequestQueue nat Q}
    (config : connection_pool_config) (sh0 sh : shared O Q) :
  make_connection_pool config = Return sh0 -> shared_reachable sh0 sh ->
  (sh_clients sh).*1 ≡ₚ s_held (sh_system sh)
  /\ (forall i j ci cj h,
        find_used i (cells_of (sh_system sh)) = Some ci -> find_used j (cells_of (sh_system sh)) = Some cj ->
        value ci ≫= safe_handle_ = Some h -> value cj ≫= safe_handle_ = Some h -> i = j)
  /\ held_handles (cells_of (sh_system sh)) ++ sh_finished sh ≡ₚ sh_given sh /\ NoDup (sh_given sh)
  /\ (forall i cl, (i, cl) ∈ sh_clients sh ->
        match cl with
        | answered => forall sock st, is_Some (shared_step (handler_runs i sock st) sh)
        | asking_source => forall now sock ec conn, Forall (fun h => h ∉ sh_given sh) (given_with conn) ->
            is_Some (shared_step (source_done now i sock ec conn) sh)
        | pooled _ => forall now st tr, (forall h v, tr h <> PQTRANS_OTHER v) ->
            is_Some (shared_step (user_destroys now i st tr) sh)
        end).
Proof.
  intros Hc Hr. pose proof (shared_reachable_ok _ _ _ Hc Hr) as Hok. pose proof Hok as [_ Hcl Hh Hnd].
  split_and!; [done| |done|done|].
  - intros i j ci cj h. by apply (handles_exclusive (capacity config) (queue_capacity config)).
  - intros i cl. by apply (client_progress (capacity config) (queue_capacity config)).
Qed.

(** Two clients of a pool of two cells; the first one leaves its connection in a
    transaction. *)
Definition two_clients : list (shared_event (O := nat)) :=
  let sock h := Z.of_nat h in
  let ok (_ : handle) := CONNECTION_OK in
  let source h := Some (SourceConnection (Connection (Some h) (Some (Z.of_nat h)) EmptyString) 1%nat) in
  [pool_event (EGet 0 1 io 5); pool_event (EGet 0 2 io 5); handler_runs 0 sock ok; handler_runs 1 sock ok;
   source_done 1 0 sock ec_default (source 7%nat); source_done 1 1 sock ec_default (source 8%nat);
   user_destroys 2 0 ok (fun _ => PQTRANS_INTRANS); user_closes 1].

Fixpoint shared_run {O Q : Type} `{RequestQueue nat Q} (evs : list shared_event) (sh : shared O Q) : option (shared O Q) :=
  match evs with
  | [] => Some sh
  | ev :: evs => sh ← shared_step ev sh; shared_run evs sh
  end.

Lemma shared_run_reachable {O Q : Type} `{RequestQueue nat Q} evs (sh0 sh sh' : shared O Q) :
  shared_reachable sh0 sh -> shared_run evs sh = Some sh' -> shared_reachable sh0 sh'.
Proof.
  revert sh. induction evs as [|ev evs IH]; intros sh Hr E; simpl in E; [by simplify_eq|].
  destruct (shared_step ev sh) as [sh1|] eqn:Es; [|done]. eapply (IH sh1); [by eapply shared_next|done].
Qed.

Lemma shared_connections_are_exclusive_witness :
  exists sh0 sh : shared nat (queue nat),
    make_connection_pool (Config 2 3 100 1000) = Return sh0 /\ shared_run two_clients sh0 = Some sh
    /\ sh_given sh = [7%nat; 8%nat] /\ sh_finished sh = [7%nat; 8%nat]
    /\ (sh_clients sh).*1 ≡ₚ s_held (sh_system sh).
Proof.
  destruct (make_connection_pool (O := nat) (Q := queue nat) (Config 2 3 100 1000)) as [sh0|] eqn:E0; [|discriminate E0].
  destruct (shared_run two_clients sh0) as [sh|] eqn:E1.
  - exists sh0, sh. split; [reflexivity|]. split; [exact E1|]. injection E0 as <-. vm_compute in E1.
    injection E1 as <-. split; [reflexivity|]. split; [reflexivity|].
    apply (shared_connections_are_exclusive (Config 2 3 100 1000) _ _ eq_refl).
    apply (shared_run_reachable two_clients _ _ _ (shared_start _)). vm_compute. reflexivity.
  - exfalso. injection E0 as <-. vm_compute in E1. discriminate E1.
Defined.

End SharedConnections.
