(* ===== verification/AsyncPool.v ===== *)
(** * The pool as its users see it: [async/pool.hpp] and the handlers of
      [async/detail/pool_impl.hpp]

    A [pool] object shares its [pool_impl] with the requests that wait and with
    the handles that were given out.  [ResourcePool] has the [pool_impl] with the
    threads inside it, [PoolStorage] the handles, [Executors] the handlers; here
    they run together in a program that gets handles, moves, assigns, returns and
    destroys them, and moves and destroys pool objects. *)

From stdpp Require Import sets.
From S2P Require Import Prelude Words Time Errors PoolStorage PoolQueue ResourcePool Executors.
Import Storage PoolQueue ResourcePool.
#[local] Open Scope Z_scope.

Module AsyncPool.

(** A call of [get_auto_recycle] or [get_auto_waste]. *)
Record get_call := GetCall {
  gc_strategy : Handles.strategy;
  gc_executor : PoolQueue.executor;
  gc_handler : handler
}.

(** The executor argument as an executor of asio. *)
Definition io_of (ex : PoolQueue.executor) : Executors.executor := io_executor (ex_id ex).

(** [None]: no [pool] lives at the address; [Some b]: one lives there, and [b] is
    whether its [_impl] is set. *)
Abbreviation pool_object := (option bool).

(** ** The objects that answer a request *)

(** What is submitted to the executor of a request, with what it holds; [None] is
    [cell_iterator()].  Those but the first hold the [list_iterator_handler] the
    request was queued with. *)
Inductive object :=
| an_on_list_iterator (error : error_code) (it : option nat)
| an_on_error (error : error_code)
| an_on_serve_queued (it : nat)
| an_expired.

(** [list_iterator_handler::operator()] of an error and of an iterator: what the
    handler inside is called with. *)
Definition list_iterator_handler_error (ec : error_code) : error_code * option nat := (ec, None).
Definition list_iterator_handler_cell (it : nat) : error_code * option nat := (ec_default, Some it).

(** [operator()()] of the objects: what the [on_get_handler] is called with. *)
Definition on_list_iterator_call (error : error_code) (it : option nat) : error_code * option nat := (error, it).
Definition on_error_call (error : error_code) : error_code * option nat := list_iterator_handler_error error.
Definition on_serve_queued_call (it : nat) : error_code * option nat := list_iterator_handler_cell it.
Definition expired_call : error_code * option nat :=
  list_iterator_handler_error (ec_pool get_resource_timeout).

Definition call_object (o : object) : error_code * option nat :=
  match o with
  | an_on_list_iterator error it => on_list_iterator_call error it
  | an_on_error error => on_error_call error
  | an_on_serve_queued it => on_serve_queued_call it
  | an_expired => expired_call
  end.
Definition object_layer (o : object) : option layer :=
  match o with
  | an_on_list_iterator _ _ => None
  | an_on_error _ => Some on_error_handler
  | an_on_serve_queued _ => Some on_serve_queued_handler
  | an_expired => Some expired_handler
  end.

(** [on_get_handler::operator()(ec, res)]: the error code and the handle the
    handler of the user is called with; [None]: it would be a handle of
    [cell_iterator()]. *)
Definition on_get_call (u : Handles.strategy) (ec : error_code) (res : option nat) :
    option (error_code * Handles.handle) :=
  if failed ec then Some (ec, Handles.default_handle)
  else i ← res; Some (ec, Handles.make_handle u i).

(** What the user is told with an answer of [pool_impl]. *)
Definition answer_call (a : answer) : error_code * option nat :=
  match a with Cell i => (ec_default, Some i) | Failed e => (ec_pool e, None) end.

Section async_pool.
Context {V Q : Type} `{RequestQueue nat Q}.

(** [ap_tasks]: the objects submitted to executors that have not run;
    [ap_called]: the calls of the users' handlers, with the executor each ran on. *)
Record program := Program {
  ap_system : system V Q;
  ap_requests : list (nat * get_call);
  ap_tasks : list (nat * (object * handler));
  ap_called : list (nat * (Executors.executor * error_code));
  ap_objects : Handles.objects;
  ap_pools : list pool_object
}.

Inductive program_event :=
| get_auto (x : nat) (now : Z) (r : nat) (c : get_call) (wait : Z)
| get_goes_on (now : Z) (r : nat)
| timer_fires (ec : bool) (t : Z)
| task_runs (r : nat) (y : nat)
| handle_runs (now : Z) (op : Handles.handle_op)
| handle_resets (now : Z) (y : nat) (v : V)
| pool_invalidates (x : nat)
| pool_moves (x y : nat)
| pool_assigns (x y : nat)
| pool_ends (x : nat).

(** The object that [pool_impl] or its queue submits with an answer. *)
Definition object_of (e : event V) (a : answer) : option object :=
  match e, a with
  | EGet _ _ _ _, Cell i => Some (an_on_list_iterator ec_default (Some i))
  | EGet _ _ _ _, Failed disabled => Some (an_on_list_iterator (ec_pool disabled) None)
  | EQueue _ _, Failed get_resource_timeout => Some (an_on_list_iterator (ec_pool get_resource_timeout) None)
  | EQueue _ _, Failed request_queue_overflow => Some (an_on_error (ec_pool request_queue_overflow))
  | ERecycle _ _, Cell i | EWaste _, Cell i => Some (an_on_serve_queued i)
  | EDisable, Failed disabled => Some (an_on_error (ec_pool disabled))
  | ETimer _ _, Failed get_resource_timeout => Some an_expired
  | _, _ => None
  end.
Definition completion_of (o : object) (c : get_call) : handler :=
  pool_get (object_layer o) (io_of (gc_executor c)) (gc_handler c).

Definition call_of (r : nat) (calls : list (nat * get_call)) : option get_call :=
  snd ∘ fst <$> take_key fst r calls.

(** A step of [pool_impl] and the objects its new answers submit. *)
Definition advance (e : event V) (p : program) : option program :=
  s ← step e (ap_system p);
  let new := drop (length (s_answers (ap_system p))) (s_answers s) in
  tasks ← mapM (fun ra : nat * answer =>
                  c ← call_of ra.1 (ap_requests p); o ← object_of e ra.2;
                  Some (ra.1, (o, completion_of o c))) new;
  Some (Program s (ap_requests p) (ap_tasks p ++ tasks) (ap_called p) (ap_objects p) (ap_pools p)).

(** [_impl->recycle] and [_impl->waste] as a handle calls them. *)
Definition give_back (now : Z) (r : Handles.returned) : event V :=
  match r with
  | Handles.Recycled i => ERecycle now i
  | Handles.Wasted i => EWaste i
  end.
Fixpoint give_all_back (now : Z) (rs : list Handles.returned) (p : program) : option program :=
  match rs with
  | [] => Some p
  | r :: rs => p ← advance (give_back now r) p; give_all_back now rs p
  end.

Definition has_impl (x : nat) (p : program) : bool :=
  match ap_pools p !! x with Some (Some b) => b | _ => false end.

Definition set_objects (o : Handles.objects) (p : program) : program :=
  Program (ap_system p) (ap_requests p) (ap_tasks p) (ap_called p) o (ap_pools p).
Definition set_pools (l : list pool_object) (p : program) : program :=
  Program (ap_system p) (ap_requests p) (ap_tasks p) (ap_called p) (ap_objects p) l.

(** [pool::get(executor, handler, use_strategy, wait_duration)], as
    [get_auto_recycle] and [get_auto_waste] call it, up to where [pool_impl::get]
    gives the mutex up; [None]: the pool was moved from. *)
Definition pool_get_auto (x : nat) (now : Z) (r : nat) (c : get_call) (wait : Z) (p : program) : option program :=
  if has_impl x p && bool_decide (r ∉ s_issued (ap_system p)) then
    advance (EGet now r (gc_executor c) wait)
      (Program (ap_system p) (ap_requests p ++ [(r, c)]) (ap_tasks p) (ap_called p) (ap_objects p) (ap_pools p))
  else None.

(** A submitted object runs on its executor: down its layers to
    [on_get_handler::operator()], which makes the handle, here at the address [y],
    and calls the user's handler. *)
Definition run_task (r y : nat) (p : program) : option program :=
  '((_, (o, h)), tasks) ← take_key fst r (ap_tasks p);
  c ← call_of r (ap_requests p);
  let '(ec, res) := call_object o in
  '(ec, hd) ← on_get_call (gc_strategy c) ec res;
  let ex := user_runs_on (submit inline_executor (io_of (gc_executor c)) h) h in
  if Handles.is_free y (ap_objects p) then
    Some (Program (ap_system p) (ap_requests p) tasks (ap_called p ++ [(r, (ex, ec))])
            (Handles.store y (Some hd) (ap_objects p)) (ap_pools p))
  else None.

(** A member function of a handle, with the calls it makes to the pool. *)
Definition run_handle (now : Z) (op : Handles.handle_op) (p : program) : option program :=
  match op with
  | Handles.New _ _ _ => None
  | _ =>
      '(o, _) ← Handles.exec op (ap_objects p);
      give_all_back now (drop (length (Handles.returns (ap_objects p))) (Handles.returns o)) (set_objects o p)
  end.

(** [handle::reset(res)]: it throws when the handle is unusable. *)
Definition reset_handle (now : Z) (y : nat) (v : V) (p : program) : option program :=
  h ← Handles.object_at y (ap_objects p);
  match Handles.resource_it h with
  | Some i => advance (EReset now i v) p
  | None => Some p
  end.

(** [pool(pool&&)] and [pool& operator =(pool&&)]; a pool assigned to itself keeps
    its [_impl]. *)
Definition move_pool (x y : nat) (p : program) : option program :=
  match ap_pools p !! x, ap_pools p !! y with
  | Some None, Some (Some b) => Some (set_pools (<[y := Some false]> (<[x := Some b]> (ap_pools p))) p)
  | _, _ => None
  end.
Definition assign_pool (x y : nat) (p : program) : option program :=
  match ap_pools p !! x, ap_pools p !! y with
  | Some (Some _), Some (Some b) =>
      Some (if decide (x = y) then p else set_pools (<[y := Some false]> (<[x := Some b]> (ap_pools p))) p)
  | _, _ => None
  end.

(** [~pool()] *)
Definition end_pool (x : nat) (p : program) : option program :=
  match ap_pools p !! x with
  | Some (Some b) =>
      p ← (if (b : bool) then advance EDisable p else Some p);
      Some (set_pools (<[x := None]> (ap_pools p)) p)
  | _ => None
  end.

Definition program_step (ev : program_event) (p : program) : option program :=
  match ev with
  | get_auto x now r c wait => pool_get_auto x now r c wait p
  | get_goes_on now r => advance (EQueue now r) p
  | timer_fires ec t => advance (ETimer ec t) p
  | task_runs r y => run_task r y p
  | handle_runs now op => run_handle now op p
  | handle_resets now y v => reset_handle now y v p
  | pool_invalidates x => if has_impl x p then advance EInvalidate p else None
  | pool_moves x y => move_pool x y p
  | pool_assigns x y => assign_pool x y p
  | pool_ends x => end_pool x p
  end.

Fixpoint program_run (evs : list program_event) (p : program) : option program :=
  match evs with
  | [] => Some p
  | ev :: evs => p ← program_step ev p; program_run evs p
  end.

(** A program with a pool at address 0, and room for [n] pools and [m] handles. *)
Definition program_start (impl : pool_impl V Q) (n m : nat) : program :=
  Program (start impl) [] [] [] (Handles.Objects (replicate m None) []) (Some true :: replicate n None).

(** What keeps the [pool_impl] alive: pools, the [on_get_handler] of requests that
    are not answered, and handles. *)
Definition owned_impl (p : program) : Prop :=
  (exists x, has_impl x p = true)
  \/ ap_tasks p <> [] \/ s_waiting (ap_system p) <> [] \/ queued_requests (s_pool (ap_system p)) <> []
  \/ exists y h, Handles.object_at y (ap_objects p) = Some h /\ Handles.has_pool h = true.

(** ** The invariant *)

(** Where a user's handler has to be called: on its own executor, or on the one
    given to the pool if it is a handler without one. *)
Definition called_on (c : get_call) (ex : Executors.executor) : Prop :=
  (forall e, user_of (gc_handler c) = Some e -> e <> inline_executor -> ex = e)
  /\ (forall a, gc_handler c = user_handler None a -> ex = io_of (gc_executor c)).

(** An error comes without a cell, a success with one. *)
Definition call_ok (call : error_code * option nat) : Prop :=
  match call.2 with Some _ => call.1 = ec_default | None => failed call.1 = true end.

Definition task_ok (reqs : list (nat * get_call)) (t : nat * (object * handler)) : Prop :=
  call_ok (call_object t.2.1) /\ exists c, (t.1, c) ∈ reqs /\ t.2.2 = completion_of t.2.1 c.
Definition called_ok (reqs : list (nat * get_call)) (t : nat * (Executors.executor * error_code)) : Prop :=
  exists c, (t.1, c) ∈ reqs /\ called_on c t.2.1.

Definition task_cells (tasks : list (nat * (object * handler))) : list nat :=
  omap (fun t => (call_object t.2.1).2) tasks.

(** The requests answered and what their handlers are told: as the pool answered,
    as handlers were called, as submitted objects will call them. *)
Definition answers_told : list (nat * answer) -> list (nat * error_code) :=
  fmap (fun ra => (ra.1, (answer_call ra.2).1)).
Definition called_told : list (nat * (Executors.executor * error_code)) -> list (nat * error_code) :=
  fmap (fun t => (t.1, t.2.2)).
Definition tasks_told : list (nat * (object * handler)) -> list (nat * error_code) :=
  fmap (fun t => (t.1, (call_object t.2.1).1)).

(** The state but for the pool; [pending]: the cells that handles gave up and the
    pool has not taken back. *)
Record parts_ok (pending : list nat) (p : program) : Prop := {
  pt_held : s_held (ap_system p) ≡ₚ task_cells (ap_tasks p) ++ pending ++ Handles.held (ap_objects p);
  pt_answers : answers_told (s_answers (ap_system p)) ≡ₚ called_told (ap_called p) ++ tasks_told (ap_tasks p);
  pt_objects : Handles.objects_ok (ap_objects p);
  pt_tasks : Forall (task_ok (ap_requests p)) (ap_tasks p);
  pt_called : Forall (called_ok (ap_requests p)) (ap_called p)
}.

Record program_ok (cap qcap : nat) (pending : list nat) (p : program) : Prop := {
  prok_system : sys_ok cap qcap (ap_system p);
  prok_requests : (ap_requests p).*1 = s_issued (ap_system p);
  prok_parts : parts_ok pending p
}.

Lemma call_of_elem r calls c : call_of r calls = Some c -> (r, c) ∈ calls.
Proof using.
  unfold call_of. destruct (take_key fst r calls) as [[[r' c'] l]|] eqn:E; [|done].
  intros [= <-]. simpl. apply take_key_spec in E as (Hr & l1 & l2 & -> & _). simpl in Hr. subst. set_solver.
Qed.

Lemma call_of_is_Some r calls : r ∈ calls.*1 -> is_Some (call_of r calls).
Proof using.
  intros Hr. unfold call_of. destruct (take_key_is_Some fst r calls Hr) as [x ->]. by eexists.
Qed.

(** Every object the pool submits calls the user's handler where it has to. *)
Lemma completion_called_on o c cur :
  called_on c (user_runs_on (submit cur (io_of (gc_executor c)) (completion_of o c)) (completion_of o c)).
Proof using.
  split.
  - intros e Hu He. unfold submit, dispatch. apply user_runs_on_own; [|done]. by destruct o.
  - intros a Ha. unfold completion_of. rewrite Ha. by destruct o.
Qed.

(** The requests made after a step. *)
Definition issues (e : event V) : list nat := match e with EGet _ r _ _ => [r] | _ => [] end.

Lemma step_issued e (s s' : system V Q) : step e s = Some s' -> s_issued s' = s_issued s ++ issues e.
Proof using.
  intros [_ Hb]%step_inv. destruct e as [now r ex wait|now r|now i|i|now i v| | |ec t]; cbn [body issues] in *;
    rewrite ?app_nil_r.
  - destruct (get_locked now (s_pool s)) as [[a|] p]; by simplify_eq/=.
  - destruct (take_key fst r (s_waiting s)) as [[[r' [ex wait]] w]|]; [|done]. cbn [mbind option_bind] in Hb.
    destruct (get_unlocked _ _ _ _ _) as [[[a|] p]|]; by simplify_eq/=.
  - destruct (recycle _ _ _) as [[a p]|]; [|done]. cbn [mbind option_bind] in Hb. unfold drop_held in Hb.
    destruct (take_key id i _) as [[x held]|]; by simplify_eq/=.
  - destruct (waste _ _) as [[a p]|]; [|done]. cbn [mbind option_bind] in Hb. unfold drop_held in Hb.
    destruct (take_key id i _) as [[x held]|]; by simplify_eq/=.
  - by simplify_eq/=.
  - by simplify_eq/=.
  - destruct (disable _) as [[answers p]|]; by simplify_eq/=.
  - destruct (rq_cancel ec t _) as [[posted q]|]; by simplify_eq/=.
Qed.

(** Every answer of a step is submitted with an object, which tells the user what
    the pool answered. *)
Definition told (e : event V) (a : answer) : Prop :=
  exists o, object_of e a = Some o /\ call_object o = answer_call a /\ call_ok (call_object o).

Lemma disable_told (fuel : nat) (q q' : Q) answers : disable_loop fuel q = Some (answers, q') ->
  Forall (fun ra : nat * answer => told EDisable ra.2) answers.
Proof using.
  revert q q' answers. induction fuel as [|fuel IH]; intros q q' answers E; [done|]. cbn [disable_loop] in E.
  destruct (rq_pop q) as [[[[r ex]|] q1]|]; simplify_eq/=; [|done].
  destruct (disable_loop fuel q1) as [[answers' q2]|] eqn:E1; simplify_eq/=.
  constructor; [by eexists|by eapply IH].
Qed.

Lemma step_told e (s s' : system V Q) new : step e s = Some s' -> s_answers s' = s_answers s ++ new ->
  Forall (fun ra : nat * answer => told e ra.2) new.
Proof using.
  intros [_ Hb]%step_inv Hn.
  assert (forall answers s1, s' = post answers s1 -> s_answers s1 = s_answers s ->
    Forall (fun ra : nat * answer => told e ra.2) answers -> Forall (fun ra : nat * answer => told e ra.2) new) as Hpost.
  { intros answers s1 -> H1 Ha. simpl in Hn. rewrite H1 in Hn. by apply app_inv_head in Hn as <-. }
  assert (s_answers s' = s_answers s -> Forall (fun ra : nat * answer => told e ra.2) new) as Hsame.
  { intros H1. rewrite H1 in Hn. rewrite <- (app_nil_r (s_answers s)) in Hn at 1. by apply app_inv_head in Hn as <-. }
  destruct e as [now r ex wait|now r|now i|i|now i v| | |ec t]; cbn [body] in Hb.
  - unfold get_locked in Hb. destruct (disabled_ (s_pool s)).
    + simplify_eq. eapply Hpost; [done|done|]. constructor; [by eexists|constructor].
    + destruct (lease now (storage_ (s_pool s))) as [[i|] st]; simplify_eq; [|by apply Hsame].
      eapply Hpost; [done|done|]. constructor; [by eexists|constructor].
  - destruct (take_key fst r (s_waiting s)) as [[[r' [ex wait]] w]|]; [|done]. cbn [mbind option_bind] in Hb.
    unfold get_unlocked in Hb. destruct (wait =? 0).
    + simplify_eq/=. eapply Hpost; [done|done|]. constructor; [by eexists|constructor].
    + destruct (rq_push _ _ _ _ _) as [[[|] q]|]; simplify_eq/=; [by apply Hsame|].
      eapply Hpost; [done|done|]. constructor; [by eexists|constructor].
  - destruct (recycle now i (s_pool s)) as [[a p]|] eqn:Er; simplify_eq/=.
    unfold drop_held in Hb. destruct (take_key id i _) as [[x held]|]; simplify_eq/=.
    eapply Hpost; [done|done|]. unfold recycle in Er. destruct (rq_pop _) as [[[[r ex]|] q]|]; simplify_eq/=.
    + destruct (find_used i _); simplify_eq/=. constructor; [by eexists|constructor].
    + destruct (Storage.recycle _ _ _); simplify_eq/=. constructor.
  - destruct (waste i (s_pool s)) as [[a p]|] eqn:Er; simplify_eq/=.
    unfold drop_held in Hb. destruct (take_key id i _) as [[x held]|]; simplify_eq/=.
    eapply Hpost; [done|done|]. unfold waste in Er. destruct (rq_pop _) as [[[[r ex]|] q]|]; simplify_eq/=.
    + constructor; [by eexists|constructor].
    + destruct (Storage.waste _ _); simplify_eq/=. constructor.
  - simplify_eq/=. by apply Hsame.
  - simplify_eq/=. by apply Hsame.
  - unfold disable in Hb. destruct (disable_loop _ _) as [[answers q]|] eqn:Ed; [|done].
    apply disable_told in Ed. simplify_eq/=. by eapply Hpost.
  - destruct (rq_cancel ec t _) as [[posted q]|]; simplify_eq/=. eapply Hpost; [done|done|].
    apply Forall_fmap, Forall_true. intros x. by eexists.
Qed.

Lemma task_ok_more reqs reqs' t : reqs ⊆ reqs' -> task_ok reqs t -> task_ok reqs' t.
Proof using. intros Hs (Ho & c & Hc & Hq). split; [done|]. exists c. by split; [apply Hs|]. Qed.
Lemma called_ok_more reqs reqs' t : reqs ⊆ reqs' -> called_ok reqs t -> called_ok reqs' t.
Proof using. intros Hs (c & Hc & Ho). exists c. by split; [apply Hs|]. Qed.

(** The objects submitted with new answers. *)
Lemma tasks_of_answers e reqs (new : list (nat * answer)) : (forall r, r ∈ new.*1 -> r ∈ reqs.*1) ->
  Forall (fun ra : nat * answer => told e ra.2) new ->
  exists tasks, mapM (fun ra : nat * answer =>
                  c ← call_of ra.1 reqs; o ← object_of e ra.2;
                  Some (ra.1, (o, completion_of o c))) new = Some tasks
    /\ tasks_told tasks = answers_told new /\ task_cells tasks = omap answer_cell new.*2
    /\ Forall (task_ok reqs) tasks.
Proof using.
  induction new as [|[r a] new IH]; intros Hr Ht; [by exists []|].
  apply Forall_cons in Ht as [(o & Ho & Hc & Hcall) Ht].
  destruct (call_of_is_Some r reqs) as [c Hcl]; [apply Hr; set_solver|].
  destruct IH as (tasks & Hm & H1 & H2 & H3); [intros r' Hr'; apply Hr; set_solver|done|].
  exists ((r, (o, completion_of o c)) :: tasks). simpl in *. rewrite Hcl. cbn [mbind option_bind]. rewrite Ho.
  cbn [mbind option_bind]. rewrite Hm. split; [done|]. split; [unfold tasks_told, answers_told in *; csimpl; by rewrite Hc, H1|].
  split; [unfold task_cells in *; csimpl; rewrite Hc, H2; by destruct a|].
  constructor; [|done]. split; [done|]. apply call_of_elem in Hcl. by exists c.
Qed.

(** The cells a step of the pool takes from those that handles gave up. *)
Definition takes (e : event V) : list nat := match e with ERecycle _ i | EWaste i => [i] | _ => [] end.

Lemma pool_advance_ok cap qcap e pending p :
  sys_ok cap qcap (ap_system p) -> enabled e (ap_system p) = true ->
  (ap_requests p).*1 = s_issued (ap_system p) ++ issues e -> parts_ok (takes e ++ pending) p ->
  exists p', advance e p = Some p' /\ program_ok cap qcap pending p'
    /\ ap_objects p' = ap_objects p /\ ap_pools p' = ap_pools p.
Proof using.
  intros Hsys He Hreq [Hh Ha Ho Ht Hc].
  destruct (step_good _ _ _ _ Hsys He) as (s & Hb & Hsys' & _).
  assert (step e (ap_system p) = Some s) as Hs by (unfold step; by rewrite He).
  destruct (step_held _ _ _ Hs) as (new & Hnew & Hheld). pose proof (step_issued _ _ _ Hs) as Hiss.
  assert (drop (length (s_answers (ap_system p))) (s_answers s) = new) as Hd by (by rewrite Hnew, drop_app_length).
  destruct (tasks_of_answers e (ap_requests p) new) as (tasks & Hm & H1 & H2 & H3).
  { intros r Hr. rewrite Hreq, <- Hiss, (sok_issued _ _ _ Hsys'), Hnew, fmap_app. set_solver. }
  { by eapply step_told. }
  unfold advance. rewrite Hs. cbn [mbind option_bind]. rewrite Hd, Hm. cbn [mbind option_bind].
  eexists. split; [done|]. split; [|done]. split; simpl; [done|by rewrite Hreq, Hiss|].
  split; simpl; [| |done|by apply Forall_app|done].
  - unfold task_cells in *. rewrite omap_app, H2.
    assert (s_held (ap_system p) ++ omap answer_cell new.*2 ≡ₚ takes e ++ s_held s) as Hheld'
      by (destruct e; simpl; rewrite ?Hheld; done).
    apply (Permutation_app_inv_l (takes e)). rewrite <- Hheld', Hh. solve_Permutation.
  - unfold answers_told, tasks_told in *. rewrite Hnew, !fmap_app, H1, Ha. solve_Permutation.
Qed.

Lemma takes_give_back now r : takes (give_back now r) = [Handles.returned_cell r] /\ issues (give_back now r) = [].
Proof using. by destruct r. Qed.

Lemma give_all_back_ok cap qcap now rs p : program_ok cap qcap (Handles.returned_cell <$> rs) p ->
  exists p', give_all_back now rs p = Some p' /\ program_ok cap qcap [] p'
    /\ ap_objects p' = ap_objects p /\ ap_pools p' = ap_pools p.
Proof using.
  revert p. induction rs as [|r rs IH]; intros p [Hs Hr Hp]; [by exists p|]. cbn [give_all_back].
  destruct (takes_give_back now r) as [Ht Hi].
  destruct (pool_advance_ok cap qcap (give_back now r) (Handles.returned_cell <$> rs) p)
    as (p1 & -> & Hp1 & Ho1 & Hl1).
  - done.
  - pose proof (pt_held _ _ Hp) as Hh. unfold enabled.
    destruct r; simpl in *; apply bool_decide_eq_true; rewrite Hh; set_solver.
  - by rewrite Hi, app_nil_r.
  - by rewrite Ht.
  - destruct (IH p1 Hp1) as (p2 & Hp2 & Hok & Ho2 & Hl2). exists p2. cbn [mbind option_bind].
    split; [done|]. split; [done|]. by rewrite Ho2, Hl2.
Qed.

(** An event of the pool that takes no cell and makes no request. *)
Lemma advance_keeps cap qcap e p : program_ok cap qcap [] p -> enabled e (ap_system p) = true ->
  issues e = [] -> takes e = [] ->
  exists p', advance e p = Some p' /\ program_ok cap qcap [] p'
    /\ ap_objects p' = ap_objects p /\ ap_pools p' = ap_pools p.
Proof using.
  intros [Hs Hr Hp] He Hi Ht. apply pool_advance_ok; [done|done|by rewrite Hi, app_nil_r|by rewrite Ht].
Qed.

Lemma set_pools_ok cap qcap l p : program_ok cap qcap [] p -> program_ok cap qcap [] (set_pools l p).
Proof using. intros [Hs Hr [Hh Ha Ho Ht Hc]]. by split; [| |split]. Qed.

(** Changing the handles: the cells they give up are pending. *)
Lemma set_objects_ok cap qcap o pending p : program_ok cap qcap [] p -> Handles.objects_ok o ->
  pending ++ Handles.held o ≡ₚ Handles.held (ap_objects p) -> program_ok cap qcap pending (set_objects o p).
Proof using.
  intros [Hs Hr [Hh Ha Ho Ht Hc]] Ho' Hp. split; [done|done|]. split; simpl; [|done..].
  by rewrite Hh, Hp.
Qed.

(** A handle operation only adds to the calls made to the pool. *)
Lemma exec_returns op o o' err : Handles.exec op o = Some (o', err) ->
  exists rs, Handles.returns o' = Handles.returns o ++ rs.
Proof using.
  assert (forall f x, Handles.call f x o = Some (o', err) -> exists rs, Handles.returns o' = Handles.returns o ++ rs) as Hcall.
  { intros f x E. unfold Handles.call in E. destruct (Handles.object_at x o); [|done]. cbn [mbind option_bind] in E.
    destruct (f _) as [[h1 r1]|]; simplify_eq/=; [by eexists|]. exists []. by rewrite app_nil_r. }
  destruct op as [x u i|x y|x y|x|x|x]; cbn [Handles.exec]; [| | | |apply Hcall|apply Hcall].
  - destruct (Handles.is_free x o); [|done]. intros [= <- <-]. exists []. by rewrite app_nil_r.
  - unfold Handles.move_construct. destruct (Handles.object_at y o); [|done]. cbn [mbind option_bind].
    destruct (Handles.is_free x o); intros E; simplify_eq/=. exists []. by rewrite app_nil_r.
  - unfold Handles.assign. destruct (Handles.object_at x o); [|done]. cbn [mbind option_bind].
    destruct (Handles.use_if_usable _) as [[h1 rs1]|]; [|done]. cbn [mbind option_bind].
    destruct (Handles.object_at y _); intros E; simplify_eq/=. by eexists.
  - unfold Handles.destroy. destruct (Handles.object_at x o); [|done]. cbn [mbind option_bind].
    destruct (Handles.use_if_usable _) as [[h1 rs1]|]; intros E; simplify_eq/=. by eexists.
Qed.

Definition is_new (op : Handles.handle_op) : bool := match op with Handles.New _ _ _ => true | _ => false end.

Lemma run_handle_ok cap qcap now op o err p : program_ok cap qcap [] p -> is_new op = false ->
  Handles.exec op (ap_objects p) = Some (o, err) ->
  exists p', run_handle now op p = Some p' /\ program_ok cap qcap [] p' /\ ap_objects p' = o /\ ap_pools p' = ap_pools p.
Proof using.
  intros Hok Hn E. destruct (exec_returns _ _ _ _ E) as [rs Hrs].
  pose proof (Handles.accounted_exec _ _ _ _ (pt_objects _ _ (prok_parts _ _ _ _ Hok)) E) as [Hacc Ho].
  assert (run_handle now op p = give_all_back now rs (set_objects o p)) as ->.
  { unfold run_handle. rewrite E. cbn [mbind option_bind]. rewrite Hrs, drop_app_length. by destruct op. }
  destruct (give_all_back_ok cap qcap now rs (set_objects o p)) as (p' & Hp' & H1 & H2 & H3).
  - apply set_objects_ok; [done|done|].
    assert (Handles.acquired [op] = []) as Ha by (by destruct op).
    rewrite Ha in Hacc. unfold Handles.accounted in Hacc. rewrite Hrs, fmap_app, <- app_assoc in Hacc.
    cbn [app] in Hacc. by apply Permutation_app_inv_l in Hacc.
  - exists p'. split; [done|]. split; [done|]. by rewrite H2, H3.
Qed.

Lemma get_auto_ok cap qcap x now r c wait p : program_ok cap qcap [] p -> has_impl x p = true ->
  r ∉ s_issued (ap_system p) ->
  exists p', pool_get_auto x now r c wait p = Some p' /\ program_ok cap qcap [] p'.
Proof using.
  intros [Hs Hr [Hh Ha Ho Ht Hc]] Hi Hn. unfold pool_get_auto.
  rewrite Hi, bool_decide_eq_true_2 by done. cbn [andb].
  edestruct (pool_advance_ok cap qcap (EGet now r (gc_executor c) wait) []) as (p' & -> & Hok & _); [| | | |by exists p'].
  - done.
  - simpl. by apply bool_decide_eq_true.
  - simpl. by rewrite fmap_app, Hr.
  - split; simpl; [done|done|done| |].
    + eapply Forall_impl; [exact Ht|]. intros t. apply task_ok_more. set_solver.
    + eapply Forall_impl; [exact Hc|]. intros t. apply called_ok_more. set_solver.
Qed.

Lemma held_default y o h : Handles.is_free y o = true ->
  Handles.held (Handles.store y (Some h) o) ≡ₚ Handles.cell_of (Some h) ++ Handles.held o.
Proof using. intros Hf%Handles.is_free_lookup. symmetry. by apply (Handles.held_store y None). Qed.

(** A call without a cell has an error, so that a handle is made of a cell only. *)
Lemma on_get_call_ok u ec res : call_ok (ec, res) -> exists hd, on_get_call u ec res = Some (ec, hd)
  /\ Handles.cell_of (Some hd) = option_list res /\ Handles.strategy_set hd.
Proof using.
  unfold call_ok, on_get_call. destruct res as [i|]; simpl; [intros ->|intros ->]; eexists; (split; [done|]).
  - split; [done|]. by split; [eexists|].
  - split; [done|]. by intros [? ?].
Qed.

Lemma run_task_ok cap qcap r y p : program_ok cap qcap [] p -> r ∈ (ap_tasks p).*1 ->
  Handles.is_free y (ap_objects p) = true ->
  exists p', run_task r y p = Some p' /\ program_ok cap qcap [] p'.
Proof using.
  intros [Hs Hr [Hh Ha Ho Ht Hc]] Hin Hf. unfold run_task.
  destruct (take_key_is_Some fst r _ Hin) as [[[r' [o h]] tasks] Ek]. rewrite Ek. cbn [mbind option_bind].
  apply take_key_perm in Ek as Hp. apply take_key_spec in Ek as [Hr' _]. simpl in Hr'. subst r'.
  rewrite Hp in Ht. apply Forall_cons in Ht as [(Hcall & c0 & Hin0 & Eh) Ht].
  assert (NoDup (ap_requests p).*1) as Hnd by (rewrite Hr; apply Hs).
  destruct (call_of_is_Some r (ap_requests p)) as [c Hcl]; [by apply (list_elem_of_fmap_2 fst _ (r, c0))|].
  rewrite Hcl. cbn [mbind option_bind]. apply call_of_elem in Hcl.
  assert (c0 = c) as -> by (by eapply assoc_unique). simpl in *.
  destruct (call_object o) as [ec res] eqn:Eo.
  destruct (on_get_call_ok (gc_strategy c) ec res Hcall) as (hd & -> & Hcell & Hset). cbn [mbind option_bind].
  rewrite Hf. eexists. split; [done|]. split; simpl; [done|done|]. split; simpl.
  - rewrite held_default by done. rewrite Hh, Hcell. unfold task_cells in *. rewrite Hp. csimpl. rewrite Eo.
    destruct res; simpl; solve_Permutation.
  - rewrite Ha. unfold called_told, tasks_told. rewrite Hp, fmap_app. csimpl. rewrite Eo. solve_Permutation.
  - by apply Handles.objects_ok_store.
  - done.
  - apply Forall_app. split; [done|]. constructor; [|done]. exists c. split; [done|]. simpl in *. subst h.
    apply completion_called_on.
Qed.

Lemma advance_enabled e p p' : advance e p = Some p' -> enabled e (ap_system p) = true.
Proof using.
  unfold advance. destruct (step e (ap_system p)) as [s|] eqn:Es; [|done]. intros _.
  by apply step_inv in Es as [? _].
Qed.

Lemma advance_keeps_ok cap qcap e p p' : program_ok cap qcap [] p -> advance e p = Some p' ->
  issues e = [] -> takes e = [] -> program_ok cap qcap [] p'.
Proof using.
  intros Hok E Hi Ht. destruct (advance_keeps cap qcap e p Hok (advance_enabled _ _ _ E) Hi Ht) as (p1 & E1 & Hp & _).
  congruence.
Qed.

Lemma run_task_inv r y p p' : run_task r y p = Some p' ->
  r ∈ (ap_tasks p).*1 /\ Handles.is_free y (ap_objects p) = true.
Proof using.
  unfold run_task. destruct (take_key fst r (ap_tasks p)) as [[[r' [o h]] tasks]|] eqn:Ek; [|done].
  cbn [mbind option_bind]. destruct (call_of r (ap_requests p)) as [c|]; [|done]. cbn [mbind option_bind].
  destruct (call_object o) as [ec res]. destruct (on_get_call _ _ _) as [[ec' hd]|]; [|done].
  cbn [mbind option_bind]. destruct (Handles.is_free y _); [|done]. intros _.
  split; [|done]. apply take_key_spec in Ek as (Hr & l1 & l2 & -> & _). simpl in Hr. subst.
  rewrite fmap_app. csimpl. set_solver.
Qed.

Lemma program_step_ok cap qcap ev p p' : program_ok cap qcap [] p -> program_step ev p = Some p' ->
  program_ok cap qcap [] p'.
Proof using.
  intros Hok E. destruct ev as [x now r c wait|now r|ec t|r y|now op|now y v|x|x y|x y|x]; cbn [program_step] in E.
  - pose proof E as E0. unfold pool_get_auto in E0. destruct (has_impl x p) eqn:Hx; [|done].
    case_bool_decide as Hn; [|done].
    destruct (get_auto_ok cap qcap x now r c wait p Hok Hx Hn) as (p1 & E1 & Hp). congruence.
  - by eapply advance_keeps_ok.
  - by eapply advance_keeps_ok.
  - destruct (run_task_inv _ _ _ _ E) as [Hr Hf]. destruct (run_task_ok cap qcap r y p Hok Hr Hf) as (p1 & E1 & Hp).
    congruence.
  - pose proof E as E0. unfold run_handle in E0. destruct (is_new op) eqn:En; [by destruct op|].
    destruct (Handles.exec op (ap_objects p)) as [[o err]|] eqn:Ex; [|by destruct op].
    destruct (run_handle_ok cap qcap now op o err p Hok En Ex) as (p1 & E1 & Hp & _). congruence.
  - unfold reset_handle in E. destruct (Handles.object_at y _) as [h|]; [|done]. cbn [mbind option_bind] in E.
    destruct (Handles.resource_it h); [by eapply advance_keeps_ok|by simplify_eq].
  - destruct (has_impl x p); [by eapply advance_keeps_ok|done].
  - unfold move_pool in E. repeat case_match; simplify_eq. by apply set_pools_ok.
  - unfold assign_pool in E. repeat case_match; simplify_eq; [done|by apply set_pools_ok].
  - unfold end_pool in E. destruct (ap_pools p !! x) as [[b|]|]; [|done..].
    destruct b; cbn [mbind option_bind] in E; [|simplify_eq; by apply set_pools_ok].
    destruct (advance EDisable p) as [p1|] eqn:E1; [|done]. simplify_eq/=.
    apply set_pools_ok. by eapply advance_keeps_ok.
Qed.

(** The states of a program with a pool of [cap] cells. *)
Inductive program_reachable (p0 : program) : program -> Prop :=
| program_starts : program_reachable p0 p0
| program_steps p ev p' : program_reachable p0 p -> program_step ev p = Some p' -> program_reachable p0 p'.

Lemma program_start_ok cap qcap impl n m : constructed cap qcap impl ->
  program_ok cap qcap [] (program_start impl n m).
Proof using.
  intros Hs%constructed_ok. split; simpl; [done|done|]. split; simpl; [|done| |done|done].
  - unfold Handles.held. simpl. by induction m.
  - unfold Handles.objects_ok. simpl. by apply Forall_replicate.
Qed.

Lemma program_reachable_ok cap qcap impl n m p : constructed cap qcap impl ->
  program_reachable (program_start impl n m) p -> program_ok cap qcap [] p.
Proof using.
  intros Hc. induction 1 as [|p ev p' _ IH E]; [by apply program_start_ok|by eapply program_step_ok].
Qed.

(** A cell in a handle keeps the [pool_impl] alive. *)
Lemma held_has_pool o i : Handles.objects_ok o -> i ∈ Handles.held o ->
  exists y h, Handles.object_at y o = Some h /\ Handles.has_pool h = true.
Proof using.
  intros Ho Hi. unfold Handles.held in Hi. apply list_elem_of_omap in Hi as (h & Hh & Ei).
  destruct h as [h|]; [|done]. apply list_elem_of_lookup_1 in Hh as [y Hy]. exists y, h.
  unfold Handles.object_at. rewrite Hy. split; [done|].
  unfold Handles.objects_ok in Ho. rewrite Forall_lookup in Ho. apply (Ho _ _ Hy). by exists i.
Qed.

(** What handlers were told is what the pool answered. *)
Lemma told_answers p :
  answers_told (s_answers (ap_system p)) ≡ₚ called_told (ap_called p) ++ tasks_told (ap_tasks p) ->
  (s_answers (ap_system p)).*1 ≡ₚ (ap_called p).*1 ++ (ap_tasks p).*1.
Proof using.
  intros Ha%(fmap_Permutation fst). unfold answers_told, called_told, tasks_told in Ha.
  rewrite fmap_app, <- !list_fmap_compose in Ha. exact Ha.
Qed.
Lemma told_answer p r ex ec :
  answers_told (s_answers (ap_system p)) ≡ₚ called_told (ap_called p) ++ tasks_told (ap_tasks p) ->
  (r, (ex, ec)) ∈ ap_called p -> exists a, (r, a) ∈ s_answers (ap_system p) /\ ec = (answer_call a).1.
Proof using.
  intros Ha Hin. assert ((r, ec) ∈ answers_told (s_answers (ap_system p))) as Ht.
  { rewrite Ha. apply elem_of_app. left. apply list_elem_of_fmap. by exists (r, (ex, ec)). }
  apply list_elem_of_fmap in Ht as ([r' a] & [= -> ->] & Hin'). by exists a.
Qed.

(** The requests whose handlers [pool_impl::disable], called on [cur], runs before
    it returns, that is with the mutex of the pool locked: [asio::dispatch] runs
    an object at once when its executor is the one the caller runs on. *)
Definition runs_inside_disable (cur : Executors.executor) (p : program) : list nat :=
  omap (fun r =>
    c ← call_of r (ap_requests p);
    let h := completion_of (an_on_error (ec_pool disabled)) c in
    if decide (io_of (gc_executor c) = cur /\ submit cur (io_of (gc_executor c)) h = cur) then Some r else None)
    (queued_requests (s_pool (ap_system p))).

(** ** What users of the pool can rely on *)

(** C7: whatever a program does with its pools and handles, in any order with the
    threads inside the pool and with the timer: the cells in use are those of
    submitted objects that have not run and those of its handles, each once; every
    call of [get] has its handler called once, with what the pool answered, or its
    object is about to run, or it waits; handlers are called on their own executors or else on the one given to
    the call; every submitted object can run, every handle and every pool can be
    destroyed; and when nothing owns the [pool_impl] any more, no cell is out and
    every handler was called. *)
Theorem pool_users_share_cells (cap qcap n m : nat) (impl : pool_impl V Q) (p : program) :
  constructed cap qcap impl -> program_reachable (program_start impl n m) p ->
  cells_in_use (s_pool (ap_system p)) ≡ₚ task_cells (ap_tasks p) ++ Handles.held (ap_objects p)
  /\ NoDup (task_cells (ap_tasks p) ++ Handles.held (ap_objects p))
  /\ (ap_requests p).*1 ≡ₚ (ap_called p).*1 ++ (ap_tasks p).*1 ++ (s_waiting (ap_system p)).*1
                          ++ queued_requests (s_pool (ap_system p))
  /\ NoDup (ap_requests p).*1
  /\ (forall r ex ec, (r, (ex, ec)) ∈ ap_called p ->
       exists c a, (r, c) ∈ ap_requests p /\ called_on c ex
         /\ (r, a) ∈ s_answers (ap_system p) /\ ec = (answer_call a).1)
  /\ (forall r y, r ∈ (ap_tasks p).*1 -> Handles.is_free y (ap_objects p) = true ->
       is_Some (program_step (task_runs r y) p))
  /\ (forall now y h, Handles.object_at y (ap_objects p) = Some h ->
       is_Some (program_step (handle_runs now (Handles.Destroy y)) p))
  /\ (forall x b, ap_pools p !! x = Some (Some b) -> is_Some (program_step (pool_ends x) p))
  /\ (~ owned_impl p -> cells_in_use (s_pool (ap_system p)) = [] /\ (ap_requests p).*1 ≡ₚ (ap_called p).*1).
Proof using.
  intros Hcon Hr. pose proof (program_reachable_ok _ _ _ _ _ _ Hcon Hr) as Hok.
  pose proof Hok as [Hs Hq [Hh Ha Ho Ht Hc]]. pose proof (sok_held _ _ _ Hs) as Hu. simpl in Hh.
  assert ((ap_requests p).*1 ≡ₚ (ap_called p).*1 ++ (ap_tasks p).*1 ++ (s_waiting (ap_system p)).*1
            ++ queued_requests (s_pool (ap_system p))) as Hreq
    by (rewrite Hq, (sok_issued _ _ _ Hs), (told_answers p Ha); solve_Permutation).
  split_and!; [by rewrite Hu|by rewrite <- Hh, <- Hu; eapply in_use_NoDup, Hs|done|by rewrite Hq; apply Hs|..].
  - intros r ex ec Hin. rewrite Forall_forall in Hc. destruct (Hc _ Hin) as (c & Hc1 & Hc2).
    destruct (told_answer p r ex ec Ha Hin) as (a & Hans & ->). by exists c, a.
  - intros r y H1 H2. destruct (run_task_ok cap qcap r y p Hok H1 H2) as (p' & E & _). by exists p'.
  - intros now y h Hy. destruct (Handles.destroy_total y _ h Ho Hy) as [o Eo].
    destruct (run_handle_ok cap qcap now (Handles.Destroy y) o None p Hok eq_refl) as (p' & E & _);
      [simpl; by rewrite Eo|by exists p'].
  - intros x b Hx. simpl. unfold end_pool. rewrite Hx. destruct b; [|by eexists].
    destruct (advance_keeps cap qcap EDisable p Hok eq_refl eq_refl eq_refl) as (p' & -> & _). by eexists.
  - intros Hn. unfold owned_impl in Hn.
    assert (ap_tasks p = []) as Htn by (destruct (ap_tasks p); [done|naive_solver]).
    assert (s_waiting (ap_system p) = []) as Hwn by (destruct (s_waiting (ap_system p)); [done|naive_solver]).
    assert (queued_requests (s_pool (ap_system p)) = []) as Hqn
      by (destruct (queued_requests (s_pool (ap_system p))); [done|naive_solver]).
    split; [|by rewrite Hreq, Htn, Hwn, Hqn, app_nil_r].
    assert (Handles.held (ap_objects p) = []) as Hhn.
    { destruct (Handles.held (ap_objects p)) as [|i l] eqn:Eh; [done|]. destruct Hn. do 4 right.
      apply (held_has_pool _ i); [done|]. rewrite Eh. set_solver. }
    apply Permutation_nil_r. by rewrite Hu, Hh, Htn, Hhn.
Qed.
End async_pool.
Arguments program V Q : clear implicits.
Arguments program_event V : clear implicits.

(** ** Concrete runs *)

Lemma program_reachable_run (evs : list (program_event nat)) (p0 p1 p : program nat (queue nat)) :
  program_reachable p0 p1 -> program_run evs p1 = Some p -> program_reachable p0 p.
Proof.
  revert p1. induction evs as [|ev evs IH]; intros p1 Hr E; simpl in E; [by simplify_eq|].
  destruct (program_step ev p1) as [p2|] eqn:Es; simplify_eq/=. apply (IH p2); [|done].
  by eapply program_steps.
Qed.

(** A handler without an executor gets the cell, one with the executor 7 waits for
    it; the pool is moved and destroyed, then the handles are. *)
Definition pool_outlived : list (program_event nat) :=
  [get_auto 0 0 1 (GetCall Handles.UseRecycle io (user_handler None None)) 10;
   get_auto 0 1 2 (GetCall Handles.UseWaste io (user_handler (Some (io_executor 7)) None)) 10;
   get_goes_on 1 2; task_runs 1 0; handle_resets 2 0 42%nat; pool_moves 1 0;
   handle_runs 3 (Handles.MoveConstruct 1 0); handle_runs 4 (Handles.Destroy 1); task_runs 2 2;
   pool_ends 1; pool_ends 0; handle_runs 5 (Handles.Destroy 2); handle_runs 6 (Handles.Destroy 0)].

Lemma pool_users_share_cells_witness :
  match program_run pool_outlived (program_start (fresh_pool 1 1) 1 3) with
  | Some p =>
      ap_called p = [(1%nat, (io_executor 0, ec_default)); (2%nat, (io_executor 7, ec_default))]
      /\ cells_in_use (s_pool (ap_system p)) = [] /\ NoDup (ap_requests p).*1
  | None => False
  end.
Proof.
  destruct (program_run pool_outlived (program_start (fresh_pool 1 1) 1 3)) as [p|] eqn:E.
  - pose proof (pool_users_share_cells 1 1 1 3 _ p (fresh_pool_constructed 1 1 ltac:(done))
      (program_reachable_run _ _ _ _ (program_starts _) E)) as (_ & _ & _ & Hn & _).
    split; [|split; [|exact Hn]]; vm_compute in E; injection E as <-; reflexivity.
  - vm_compute in E. discriminate E.
Defined.

(** A pool destroyed on the executor of a waiting request calls its handler with
    the mutex locked: a handler that asks the pool again, or that lets a handle go,
    locks it a second time. *)
Lemma handlers_run_inside_disable :
  match program_run (take 4 pool_outlived) (program_start (fresh_pool 1 1) 1 3) with
  | Some p => runs_inside_disable (io_executor 0) p = []
  | None => False
  end
  /\ match program_run [get_auto 0 0 1 (GetCall Handles.UseRecycle io (user_handler None None)) 10;
                        get_auto 0 1 2 (GetCall Handles.UseRecycle io (user_handler None None)) 10;
                        get_goes_on 1 2] (program_start (fresh_pool 1 1) 1 3) with
     | Some p => runs_inside_disable (io_executor 0) p = [2%nat]
     | None => False
     end.
Proof. split; vm_compute; reflexivity. Qed.

End AsyncPool.
