(* ===== verification/Operations.v ===== *)
(** * Whole operations: [async_request], [async_execute], [async_connect] with
      their time constraints

    A request and a connect are steps of libpq driven by socket waits ([Request],
    [Connect]); the handler they call is the user's, or an [io_deadline_handler]
    ([Deadlines]) around it when there is a time constraint, and a connect goes
    on with the request of the oids before it calls.  What an operation promises
    the deadline handler is the class [OneCall]; the composition is proved
    against it, and the operations discharge it. *)

From Stdlib Require Import Strings.Byte.
From S2P Require Import Prelude Words Time Errors PgTypes TypeSystem Stream Codec Result Connection.
From S2P Require Import Deadlines Connect Request Wrapped Providers Failover.
Import Deadline IoDeadline PgTypes.
#[local] Open Scope string_scope.
#[local] Open Scope list_scope.
#[local] Open Scope Z_scope.

(** ** An operation under a deadline *)

(** An operation that waits for the socket: the calls its handler got, the
    completions its pending waits may have, a step per completion. *)
Class IoOperation (S E : Type) := {
  io_calls : S -> list error_code;
  io_pending : S -> E -> Prop;
  io_step : S -> E -> option S
}.

(** In the states of [reach] the operation calls its handler once. *)
Class OneCall (S E : Type) `{IoOperation S E} (reach : S -> Prop) : Prop := {
  one_call s : reach s -> (length (io_calls s) <= 1)%nat;
  call_stays s e s' ec : reach s -> io_step s e = Some s' -> io_calls s = [ec] -> io_calls s' = [ec];
  call_made s : reach s -> (forall e, ~ io_pending s e) -> io_calls s <> [];
  waits_complete s e : reach s -> io_pending s e -> exists s', io_step s e = Some s'
}.

Section timed.
Context {S E : Type} `{IoOperation S E}.

(** The operation and the state of its [io_deadline_handler], if it has one. *)
Record timed := Timed { inner : S; deadline_of : option (IoDeadline.state ()) }.

(** The calls of the operation arrive at the deadline handler; [None] when it
    was reset before. *)
Definition deliver (ecs : list error_code) (d : IoDeadline.state ()) : option (IoDeadline.state ()) :=
  foldl (fun d ec => d ≫= on_operation ec ()) (Some d) ecs.

(** [apply_time_constaint_or_strand] of a request and [apply_time_constaint] of a
    connect, and the start of the operation: it may call at once. *)
Definition apply_time_constraint (t : time_constraint) (s : S) : option timed :=
  match t with
  | tc_none => Some (Timed s None)
  | _ => d ← deliver (io_calls s) io_start; Some (Timed s (Some d))
  end.

Inductive timed_event := operation_event (e : E) | timer_event (ec : error_code).

Definition timed_step (o : timed) (ev : timed_event) : option timed :=
  match ev with
  | operation_event e =>
      s ← io_step (inner o) e;
      match deadline_of o with
      | None => Some (Timed s None)
      | Some d => d ← deliver (drop (length (io_calls (inner o))) (io_calls s)) d; Some (Timed s (Some d))
      end
  | timer_event _ => d ← deadline_of o; d ← on_timer d; Some (Timed (inner o) (Some d))
  end.

(** What the user's handler was called with. *)
Definition user_calls (o : timed) : list error_code :=
  match deadline_of o with
  | None => io_calls (inner o)
  | Some d => (calls d).*1
  end.

Definition timer_pending (o : timed) : bool :=
  match deadline_of o with None => false | Some d => timer_ctx d end.

Context (reach : S -> Prop) `{!OneCall S E reach}.

(** The states an operation and its deadline handler go through, the operation
    staying in [reach]. *)
Inductive timed_states (t : time_constraint) : timed -> Prop :=
| timed_start s o : reach s -> apply_time_constraint t s = Some o -> timed_states t o
| timed_next o ev o' : timed_states t o -> timed_step o ev = Some o' -> reach (inner o') ->
    timed_states t o'.

(** The deadline handler before and after the operation's call. *)
Definition before_call (d : IoDeadline.state ()) : Prop :=
  operation_ctx d = true /\ calls d = []
  /\ ((timer_ctx d = true /\ first_call d = 2)
      \/ (timer_ctx d = false /\ first_call d = 1 /\ ctx_ec d = ec_asio timed_out)).
Definition after_call (ec : error_code) (d : IoDeadline.state ()) : Prop :=
  (timer_ctx d = true /\ first_call d = 1 /\ ctx_ec d = ec /\ calls d = [])
  \/ (timer_ctx d = false /\ ((calls d).*1 = [ec] \/ (calls d).*1 = [ec_asio timed_out])).

Definition timed_ok (o : timed) : Prop :=
  reach (inner o)
  /\ match deadline_of o with
     | None => True
     | Some d => match io_calls (inner o) with [] => before_call d | ec :: _ => after_call ec d end
     end.

Lemma io_start_before : before_call io_start.
Proof using. split_and!; [done..|by left]. Qed.

Lemma before_call_operation ec d : before_call d ->
  exists d', on_operation ec () d = Some d' /\ after_call ec d'.
Proof using.
  intros (Ho & Hc & Ht). unfold on_operation. rewrite Ho. simpl.
  destruct Ht as [(Ht & ->)|(Ht & -> & He)]; simpl; (eexists; split; [done|]).
  - by left.
  - right. simpl. rewrite Hc, He. split; [done|by right].
Qed.

Lemma on_timer_ok d : timer_ctx d = true ->
  exists d', on_timer d = Some d' /\ (before_call d -> before_call d')
    /\ forall ec, after_call ec d -> after_call ec d'.
Proof using.
  intros Ht. unfold on_timer. rewrite Ht. simpl.
  destruct (Z.eqb_spec (first_call d - 1) 0) as [E0|E0]; simpl; (eexists; split; [done|]); split.
  - intros (_ & _ & [(_ & ?)|(? & _)]); [lia|congruence].
  - intros ec [(_ & _ & <- & Hc)|(? & _)]; [|congruence]. right. simpl. rewrite Hc. split; [done|by left].
  - intros (Ho & Hc & Hd). split_and!; [done..|]. right.
    destruct Hd as [(_ & Hd)|(? & _)]; [|congruence]. simpl. rewrite Hd. done.
  - intros ec [(_ & ? & _)|(? & _)]; [lia|congruence].
Qed.

Lemma at_most_one (l : list error_code) : (length l <= 1)%nat -> l = [] \/ exists ec, l = [ec].
Proof using. destruct l as [|ec [|? ?]]; simpl; [by left|by right; eexists|lia]. Qed.

Lemma timed_start_ok t s : reach s -> exists o, apply_time_constraint t s = Some o /\ inner o = s /\ timed_ok o.
Proof using OneCall0.
  intros Hr. destruct (at_most_one _ (one_call s Hr)) as [Hc|[ec Hc]].
  - destruct t; unfold apply_time_constraint; rewrite ?Hc; (eexists; split; [done|]); (split; [done|]);
      split; simpl; rewrite ?Hc; (done || apply io_start_before).
  - destruct (before_call_operation ec io_start io_start_before) as (d & Hd & Ha).
    destruct t; unfold apply_time_constraint; rewrite ?Hc; cbn [deliver foldl mbind option_bind]; rewrite ?Hd;
      (eexists; split; [done|]); (split; [done|]); split; simpl; rewrite ?Hc; done.
Qed.

Lemma timed_operation_ok o e s : timed_ok o -> io_step (inner o) e = Some s -> reach s ->
  exists o', timed_step o (operation_event e) = Some o' /\ inner o' = s /\ timed_ok o'.
Proof using OneCall0.
  intros [Hr Hd] Hs Hr'. cbn [timed_step]. rewrite Hs. cbn [mbind option_bind].
  destruct (deadline_of o) as [d|]; [|eexists; split; [done|]; by split].
  destruct (at_most_one _ (one_call _ Hr)) as [Hc|[ec Hc]]; rewrite Hc in *; cbn [length drop].
  - destruct (at_most_one _ (one_call _ Hr')) as [Hc'|[ec Hc']]; rewrite Hc'.
    + eexists. split; [done|]. split; [done|]. split; [done|]. simpl. by rewrite Hc'.
    + destruct (before_call_operation ec d Hd) as (d' & Hd' & Ha).
      unfold deliver. simpl. rewrite Hd'. simpl.
      eexists. split; [done|]. split; [done|]. split; [done|]. simpl. by rewrite Hc'.
  - rewrite (call_stays _ _ _ _ Hr Hs Hc). unfold deliver. simpl.
    eexists. split; [done|]. split; [done|]. split; [done|]. simpl. by rewrite (call_stays _ _ _ _ Hr Hs Hc).
Qed.

Lemma timed_timer_ok o ec : timed_ok o -> timer_pending o = true ->
  exists o', timed_step o (timer_event ec) = Some o' /\ inner o' = inner o /\ timed_ok o'.
Proof using.
  intros [Hr Hd] Ht. unfold timer_pending in Ht. cbn [timed_step].
  destruct (deadline_of o) as [d|]; [|done]. destruct (on_timer_ok d Ht) as (d' & Hs & Hb & Ha).
  cbn [mbind option_bind]. rewrite Hs. eexists. split; [done|]. split; [done|]. split; [done|].
  simpl. destruct (io_calls (inner o)); auto.
Qed.

Lemma timed_states_ok t o : timed_states t o -> timed_ok o.
Proof using OneCall0.
  induction 1 as [s o Hr Ho|o ev o' _ IH Hs Hr].
  - destruct (timed_start_ok t s Hr) as (o' & Ho' & _ & Hok). congruence.
  - destruct ev as [e|ec].
    + pose proof Hs as Hs0. cbn [timed_step] in Hs. destruct (io_step (inner o) e) as [s|] eqn:Es; [|done].
      assert (inner o' = s) as <-.
      { cbn [mbind option_bind] in Hs. destruct (deadline_of o) as [d|]; [|by simplify_eq].
        destruct (deliver _ d); by simplify_eq/=. }
      destruct (timed_operation_ok o e _ IH Es Hr) as (o2 & Ho2 & _ & Hok). congruence.
    + pose proof Hs as Hs0. cbn [timed_step] in Hs. destruct (deadline_of o) as [d|] eqn:Ed; [|done].
      destruct (timed_timer_ok o ec IH) as (o2 & Ho2 & _ & Hok); [|congruence].
      unfold timer_pending. rewrite Ed. cbn [mbind option_bind] in Hs. unfold on_timer in Hs.
      by destruct (timer_ctx d).
Qed.

Lemma timed_calls o : timed_ok o ->
  (length (user_calls o) <= 1)%nat
  /\ (forall ec, user_calls o = [ec] -> exists ec0, io_calls (inner o) = [ec0]
        /\ (ec = ec0 \/ (ec = ec_asio timed_out /\ deadline_of o <> None)))
  /\ (timer_pending o = false -> (forall e, ~ io_pending (inner o) e) -> exists ec, user_calls o = [ec]).
Proof using OneCall0.
  intros [Hr Hd]. unfold user_calls, timer_pending. pose proof (one_call _ Hr) as H1.
  pose proof (call_made _ Hr) as H2.
  destruct (deadline_of o) as [d|].
  - destruct (at_most_one _ H1) as [Hc|[ec Hc]]; rewrite Hc in *.
    + destruct Hd as (_ & -> & _). split_and!; [simpl; lia|done|]. intros _ Hq. by destruct (H2 Hq).
    + destruct Hd as [(Ht & _ & _ & ->)|(Ht & Hd)]; [split_and!; [simpl; lia|done|congruence]|].
      destruct Hd as [-> | ->]; (split_and!; [simpl; lia| |by eexists]);
        intros ec' [= <-]; exists ec; (split; [done|]); [by left|by right].
  - split; [done|]. destruct (at_most_one _ H1) as [Hc|[ec Hc]]; rewrite Hc in *.
    + split; [done|]. intros _ Hq. by destruct (H2 Hq).
    + split; [|by eexists]. intros ec' [= <-]. exists ec. split; [done|by left].
Qed.

(** The handler of a timed operation is called once, after the operation is done
    with the connection, and no completion finds the deadline handler reset. *)
Lemma timed_once t o : timed_states t o ->
  (length (user_calls o) <= 1)%nat
  /\ (forall ec, user_calls o = [ec] -> exists ec0, io_calls (inner o) = [ec0]
        /\ (ec = ec0 \/ (ec = ec_asio timed_out /\ deadline_of o <> None)))
  /\ (timer_pending o = false -> (forall e, ~ io_pending (inner o) e) -> exists ec, user_calls o = [ec])
  /\ (forall e, io_pending (inner o) e -> exists s, io_step (inner o) e = Some s
        /\ (reach s -> exists o', timed_step o (operation_event e) = Some o' /\ inner o' = s))
  /\ (forall ec, timer_pending o = true -> exists o', timed_step o (timer_event ec) = Some o').
Proof using OneCall0.
  intros Ho. apply timed_states_ok in Ho as Hok. destruct (timed_calls o Hok) as (H1 & H2 & H3).
  split_and!; [done..| |].
  - intros e He. destruct (waits_complete _ e (proj1 Hok) He) as [s Hs]. exists s. split; [done|].
    intros Hr. destruct (timed_operation_ok o e s Hok Hs Hr) as (o' & Hs' & Hi & _). by exists o'.
  - intros ec Ht. destruct (timed_timer_ok o ec Hok Ht) as (o' & Hs' & _). by exists o'.
Qed.

(** A call of the user's handler is the last. *)
Lemma timed_call_stays o ev o' ec : timed_ok o -> timed_step o ev = Some o' -> user_calls o = [ec] ->
  user_calls o' = [ec].
Proof using OneCall0.
  intros Hok Hs Hc. destruct (timed_calls o Hok) as (_ & H2 & _). destruct (H2 ec Hc) as (ec0 & Hi & _).
  destruct Hok as [Hr Hd]. unfold user_calls in *. destruct ev as [e|c]; cbn [timed_step] in Hs.
  - destruct (io_step (inner o) e) as [s|] eqn:Es; [|done]. pose proof (call_stays _ _ _ _ Hr Es Hi) as Hi'.
    cbn [mbind option_bind] in Hs. destruct (deadline_of o) as [d|].
    + rewrite Hi, Hi' in Hs. by injection Hs as <-.
    + injection Hs as <-. simpl. congruence.
  - destruct (deadline_of o) as [d|]; [|done]. rewrite Hi in Hd. cbn [mbind option_bind] in Hs.
    destruct Hd as [(_ & _ & _ & Hd)|(Ht & _)]; [by rewrite Hd in Hc|]. unfold on_timer in Hs. by rewrite Ht in Hs.
Qed.

(** A completion that makes at most one call finds the deadline handler set. *)
Lemma timed_operation_total o e s : timed_ok o -> io_step (inner o) e = Some s -> (length (io_calls s) <= 1)%nat ->
  exists o', timed_step o (operation_event e) = Some o' /\ inner o' = s.
Proof using OneCall0.
  intros [Hr Hd] Es Hl. cbn [timed_step]. rewrite Es. cbn [mbind option_bind].
  destruct (deadline_of o) as [d|]; [|by eexists].
  destruct (at_most_one _ (one_call _ Hr)) as [Hc|[ec Hc]]; rewrite Hc in Hd |- *.
  - simpl. destruct (at_most_one _ Hl) as [->|[ec ->]]; [by eexists|].
    destruct (before_call_operation ec d Hd) as (d' & Hd' & _). unfold deliver. simpl. rewrite Hd'. by eexists.
  - rewrite (call_stays _ _ _ _ Hr Es Hc). by eexists.
Qed.

Lemma after_call_one ec d : after_call ec d -> (length (calls d).*1 <= 1)%nat.
Proof using. intros [(_ & _ & _ & ->)|(_ & [-> | ->])]; simpl; lia. Qed.

(** Such a completion makes at most one call of the user's handler. *)
Lemma timed_operation_one_call o e o' : timed_ok o -> timed_step o (operation_event e) = Some o' ->
  (length (io_calls (inner o')) <= 1)%nat -> (length (user_calls o') <= 1)%nat.
Proof using OneCall0.
  intros [Hr Hd] Hs Hl. cbn [timed_step] in Hs. destruct (io_step (inner o) e) as [s|] eqn:Es; [|done].
  cbn [mbind option_bind] in Hs. unfold user_calls. destruct (deadline_of o) as [d|]; [|by injection Hs as <-].
  destruct (at_most_one _ (one_call _ Hr)) as [Hc|[ec Hc]]; rewrite Hc in Hd, Hs.
  - simpl in Hs. assert (inner o' = s) as Hi by (destruct (deliver _ d); by simplify_eq/=). rewrite Hi in Hl.
    destruct (at_most_one _ Hl) as [Hs'|[ec Hs']]; rewrite Hs' in Hs.
    + simpl in Hs. injection Hs as <-. simpl. destruct Hd as (_ & -> & _). simpl. lia.
    + destruct (before_call_operation ec d Hd) as (d' & Hd' & Ha). unfold deliver in Hs. simpl in Hs.
      rewrite Hd' in Hs. simpl in Hs. injection Hs as <-. simpl. by eapply after_call_one.
  - rewrite (call_stays _ _ _ _ Hr Es Hc) in Hs. simpl in Hs. injection Hs as <-. simpl. by eapply after_call_one.
Qed.
End timed.
Arguments timed : clear implicits.
Arguments timed_event : clear implicits.

(** ** Requests *)

Section requests.
Context {L R : Type} `{libpq L R} (results_left : L -> nat).
Context (process : R -> may_throw ()) (what : exn -> string).

#[local] Instance request_operation : IoOperation (request L R) Request.event := {
  io_calls := rq_calls;
  io_pending s e :=
    match e with
    | write_ready _ => rq_write_wait s = true
    | read_ready _ => rq_recv s = at_first_loop \/ rq_recv s = at_drain_loop
    end;
  io_step := request_step results_left process what
}.

(** The states of a request in which no result is reported before the query is
    sent. *)
Inductive orderly (ec : error_code) (l : L) : request L R -> Prop :=
| orderly_start s : request_start results_left process what ec l = Some s -> ~ early s -> orderly ec l s
| orderly_step s e s' : orderly ec l s -> request_step results_left process what s e = Some s' ->
    ~ early s' -> orderly ec l s'.

Lemma handle_result_recv (s : request L R) : rq_recv (handle_result process what s) = rq_recv s.
Proof using.
  unfold handle_result. destruct (rq_result s) as [r|]; [|done].
  destruct (pq_result_status r); try (by rewrite recv_done_error_at);
    (unfold process_and_done; destruct (process r); [done|by rewrite recv_done_error_at]).
Qed.

Lemma drain_recv fuel (s s' : request L R) : drain process what fuel s = Some s' -> rq_recv s' <> at_start.
Proof using.
  revert s. induction fuel as [|fuel IH]; intros s Hd; [done|]. cbn [drain] in Hd.
  destruct (pq_is_busy _); [by injection Hd as <-|].
  destruct (pq_get_result _) as [[r|] l]; [by eapply IH|]. injection Hd as <-. by rewrite handle_result_recv.
Qed.

Lemma first_loop_recv (s s' : request L R) :
  first_loop results_left process what s = Some s' -> rq_recv s' <> at_start.
Proof using.
  unfold first_loop. destruct (pq_is_busy _); [by intros [= <-]|].
  destruct (pq_get_result _) as [[r|] l]; [|by intros [= <-]].
  case_bool_decide; simpl; [intros [= <-]; by rewrite handle_result_recv|by apply drain_recv].
Qed.

Lemma recv_op_recv ec (s s' : request L R) :
  recv_op results_left process what ec s = Some s' -> rq_recv s' <> at_start.
Proof using.
  unfold recv_op. case_bool_decide; [by intros [= <-]|].
  destruct (failed ec); [intros [= <-]; by rewrite recv_done_error_at|].
  destruct (rq_recv s); [apply first_loop_recv| | |done];
    (destruct (pq_consume_input _) as [[] l]; simpl; [apply first_loop_recv || apply drain_recv|]).
  - intros [= <-]. by rewrite recv_done_error_at.
  - intros [= <-]. by rewrite handle_result_recv.
Qed.

Lemma send_op_recv ec (s : request L R) : rq_recv (send_op ec s) = rq_recv s.
Proof using.
  unfold send_op. destruct (negb _); [done|]. destruct (failed ec); [done|].
  by destruct (pq_flush _) as [[] l].
Qed.

Lemma request_start_total `{!libpq_laws L R results_left} ec l :
  exists s, request_start results_left process what ec l = Some s /\ (length (rq_calls s) <= 1)%nat.
Proof.
  assert (exists s, request_start results_left process what ec l = Some s) as [s Hs].
  { unfold request_start. destruct (failed ec); [by eexists|]. apply recv_op_total; [done|].
    unfold send_perform. destruct (pq_set_nonblocking _) as [[] l1]; [|done].
    destruct (pq_send_query_params _) as [[] l2]; [|done]. cbn [negb]. by rewrite send_op_recv. }
  exists s. split; [done|]. pose proof (request_start_not_late _ _ _ _ _ _ Hs) as Hl.
  destruct (request_start_inv _ _ _ _ _ _ Hs) as [[(_ & _ & -> & _)|[(_ & _ & _ & ->)|[(_ & _ & ->)|[(_ & ->)|Hb]]]] _];
    simpl; (lia || done).
Qed.

Lemma orderly_inv ec l s : orderly ec l s ->
  request_inv s /\ result_held s /\ ~ failed_late s /\ ~ early s /\ rq_recv s <> at_start.
Proof using.
  induction 1 as [s Hs Hn|s e s' _ (Hi & Hh & Hl & Hn0 & Ha) Hs Hn].
  - destruct (request_start_inv _ _ _ _ _ _ Hs) as [Hi Hh]. split_and!; [done..| | |].
    + by eapply request_start_not_late.
    + done.
    + unfold request_start in Hs. destruct (failed ec); [by injection Hs as <-|by eapply recv_op_recv].
  - destruct (request_step_inv _ _ _ _ _ _ Hi Hh Hs) as [Hi' Hh']. split_and!; [done..| | |].
    + by eapply (request_step_not_late results_left process what s e).
    + done.
    + destruct e as [ec'|ec']; simpl in Hs.
      * destruct (rq_write_wait s); [|done]. injection Hs as <-. by rewrite send_op_recv.
      * destruct (rq_recv s); try done; by eapply recv_op_recv.
Qed.

(** After its call an orderly request only lets its waits run out. *)
Lemma orderly_call_stays ec0 l s e s' ec : orderly ec0 l s ->
  request_step results_left process what s e = Some s' -> rq_calls s = [ec] ->
  rq_calls s' = [ec] /\ rq_processed s' = rq_processed s /\ rq_result s' = rq_result s
  /\ rq_lib s' = rq_lib s.
Proof using.
  intros Ho Hs Hc. destruct (orderly_inv _ _ _ Ho) as (Hi & _ & Hl & Hn & _).
  destruct Hi as [(_ & _ & Hb & _)|[(_ & Hw & He & _)|[(Hb & _)|[(Hq & _)|Hb]]]]; [congruence| |done| |done].
  - destruct e; simpl in Hs; rewrite ?Hw, ?He in Hs; done.
  - destruct e as [ec'|ec']; simpl in Hs.
    + destruct (rq_write_wait s); [|done]. injection Hs as <-. unfold send_op. simpl.
      rewrite bool_decide_eq_false_2 by congruence. done.
    + assert (recv_op results_left process what ec' s = Some s') as Hr by (destruct (rq_recv s); done).
      unfold recv_op in Hr. rewrite bool_decide_eq_true_2 in Hr by done. by injection Hr as <-.
Qed.

#[export] Instance request_one_call `{!libpq_laws L R results_left} ec l :
  OneCall (request L R) Request.event (orderly ec l).
Proof.
  split.
  - intros s Ho. destruct (orderly_inv _ _ _ Ho) as (Hi & _ & Hl & Hn & _).
    exact (proj1 (not_early_once s Hi Hn Hl)).
  - intros s e s' ec' Ho Hs Hc. exact (proj1 (orderly_call_stays _ _ _ _ _ _ Ho Hs Hc)).
  - intros s Ho Hq. destruct (orderly_inv _ _ _ Ho) as (Hi & _ & Hl & Hn & Ha).
    destruct (not_early_once s Hi Hn Hl) as [_ H1]. cbn [io_calls request_operation].
    intros Hc. rewrite Hc in H1. enough (quiescent s) as Hqs by (specialize (H1 Hqs); done).
    pose proof (Hq (write_ready ec_default)) as Hw. pose proof (Hq (read_ready ec_default)) as Hr.
    cbn in Hw, Hr. split; [by destruct (rq_write_wait s)|].
    destruct (rq_recv s); naive_solver.
  - intros s e Ho Hp. destruct e as [ec'|ec']; cbn in Hp |- *.
    + rewrite Hp. by eexists.
    + destruct (recv_op_total results_left process what ec' s) as [s' Hs].
      { destruct Hp as [-> | ->]; done. }
      exists s'. by destruct Hp as [-> | ->].
Qed.

Lemma orderly_step_one_call ec l s e s' : orderly ec l s ->
  request_step results_left process what s e = Some s' -> (length (rq_calls s') <= 1)%nat.
Proof using.
  intros Ho Hs. destruct (orderly_inv _ _ _ Ho) as (Hi & Hh & Hl & Hn & _).
  pose proof (request_step_not_late results_left process what s e s' Hi Hh Hn Hl Hs) as Hl'.
  destruct (request_step_inv _ _ _ _ _ _ Hi Hh Hs) as [[(_ & _ & -> & _)|[(_ & _ & _ & ->)|[(_ & _ & ->)|[(_ & ->)|Hb]]]] _];
    simpl; (lia || done).
Qed.

(** The result the request holds is one [PQgetResult] gave. *)
Definition taken (s : request L R) : Prop :=
  forall r, rq_result s = Some r -> exists l1 l2, pq_get_result l1 = (Some r, l2).

(** The statuses of a result with an answer. *)
Definition answers (st : exec_status) : Prop :=
  st = PGRES_SINGLE_TUPLE \/ st = PGRES_TUPLES_OK \/ st = PGRES_COMMAND_OK.

(** The result libpq gave was handed to the out handler, once, and it did not
    throw; there is none only when libpq, no longer busy, said there is none. *)
Definition received (s : request L R) : Prop :=
  match rq_result s with
  | Some r => (exists l1 l2, pq_get_result l1 = (Some r, l2)) /\ answers (pq_result_status r)
      /\ rq_processed s = [r] /\ process r = Return tt
  | None => rq_processed s = []
      /\ exists l, pq_is_busy l = false /\ pq_get_result l = (None, rq_lib s)
  end.

(** A success is reported when the result was received. *)
Definition processed_ok (s : request L R) : Prop :=
  (rq_calls s = [] -> rq_processed s = [] /\ taken s) /\ (rq_calls s = [ec_default] -> received s).

Lemma nothing_processed (s : request L R) :
  rq_calls s = [] -> rq_processed s = [] -> taken s -> processed_ok s.
Proof using. intros Hc Hp Ht. split; [done|]. by rewrite Hc. Qed.

Lemma error_reported ec (s : request L R) : rq_calls s = [ec] -> ec <> ec_default -> processed_ok s.
Proof using. intros Hc He. split; rewrite Hc; [done|congruence]. Qed.

Lemma recv_done_error_reported ec (s : request L R) : rq_calls s = [] -> ec <> ec_default ->
  processed_ok (recv_done_error ec s).
Proof using.
  intros Hc He. apply (error_reported ec); [|done]. unfold recv_done_error. case_bool_decide; simpl; by rewrite Hc.
Qed.

Lemma handle_result_processed (s : request L R) : rq_calls s = [] -> rq_processed s = [] -> taken s ->
  processed_ok (handle_result process what s).
Proof using.
  intros Hc Hp Ht. unfold handle_result. destruct (rq_result s) as [r|] eqn:Hr; [|by apply nothing_processed].
  destruct (pq_result_status r) eqn:Es;
    try (apply recv_done_error_reported; [done|unfold result_error; destruct (pq_result_sqlstate r); done]);
    (unfold process_and_done; destruct (process r) as [[]|e] eqn:Er;
     [split; simpl; rewrite Hc; [done|]; intros _; unfold received, answers; simpl; rewrite Hr, Hp; naive_solver
     |apply recv_done_error_reported; done]).
Qed.

Lemma drain_processed fuel (s s' : request L R) : rq_calls s = [] -> rq_processed s = [] -> taken s ->
  drain process what fuel s = Some s' -> processed_ok s'.
Proof using.
  revert s. induction fuel as [|fuel IH]; intros s Hc Hp Ht Hd; [done|]. cbn [drain] in Hd.
  destruct (pq_is_busy _); [injection Hd as <-; by apply nothing_processed|].
  destruct (pq_get_result _) as [[r|] l]; [by eapply (IH (with_lib l s))|].
  injection Hd as <-. by apply handle_result_processed.
Qed.

Lemma first_loop_processed (s s' : request L R) : rq_calls s = [] -> rq_processed s = [] -> taken s ->
  first_loop results_left process what s = Some s' -> processed_ok s'.
Proof using.
  intros Hc Hp Ht. unfold first_loop. destruct (pq_is_busy _) eqn:Eb; [intros [= <-]; by apply nothing_processed|].
  destruct (pq_get_result _) as [[r|] l] eqn:El.
  - assert (taken (set_result (Some r) (with_lib l s))) as Hr by (intros r' [= <-]; by do 2 eexists).
    case_bool_decide; simpl; [intros [= <-]; by apply handle_result_processed|by apply drain_processed].
  - intros [= <-]. split; simpl; rewrite Hc; [done|]. intros _. split; [done|]. by exists (rq_lib s).
Qed.

Lemma recv_op_processed ec (s s' : request L R) : rq_calls s = [] -> rq_processed s = [] -> taken s ->
  recv_op results_left process what ec s = Some s' -> processed_ok s'.
Proof using.
  intros Hc Hp Ht. unfold recv_op. case_bool_decide; [intros [= <-]; by apply nothing_processed|].
  destruct (failed ec) eqn:Ef.
  { intros [= <-]. apply recv_done_error_reported; [done|]. case_bool_decide; [done|]. by intros ->. }
  destruct (rq_recv s); [by apply first_loop_processed| | |done];
    destruct (pq_consume_input _) as [[] l]; simpl.
  - by apply first_loop_processed.
  - intros [= <-]. by apply recv_done_error_reported.
  - by apply drain_processed.
  - intros [= <-]. by apply handle_result_processed.
Qed.

Lemma send_op_processed ec (s : request L R) :
  rq_processed (send_op ec s) = rq_processed s /\ rq_result (send_op ec s) = rq_result s
  /\ (rq_calls s = [] -> rq_calls (send_op ec s) = []
        \/ exists c, rq_calls (send_op ec s) = [c] /\ c <> ec_default).
Proof using.
  unfold send_op. destruct (negb _); [by auto|]. destruct (failed ec) eqn:Ef.
  - split_and!; [done..|]. intros Hc. right. exists ec. simpl in *. rewrite Hc. split; [done|]. by intros ->.
  - destruct (pq_flush _) as [[] l]; (split_and!; [done..|]); intros Hc; simpl in *; rewrite Hc;
      first [by left|right; by eexists].
Qed.

Lemma orderly_processed ec l s : orderly ec l s -> processed_ok s.
Proof using.
  induction 1 as [s Hs _|s e s' Ho IH Hs _].
  - unfold request_start in Hs. destruct (failed ec) eqn:Ef.
    { injection Hs as <-. apply (error_reported ec); [done|]. by intros ->. }
    assert (rq_processed (send_perform (new_request l)) = [] /\ rq_result (send_perform (new_request l)) = None
      /\ (rq_calls (send_perform (new_request l)) = []
          \/ exists c, rq_calls (send_perform (new_request l)) = [c] /\ c <> ec_default)) as (Hp & Hr & He).
    { unfold send_perform. destruct (pq_set_nonblocking _) as [[] l1]; [|naive_solver].
      destruct (pq_send_query_params _) as [[] l2]; [|naive_solver]. cbn [negb].
      edestruct send_op_processed as (-> & -> & Hc). naive_solver. }
    destruct (send_perform_awaiting l) as [(_ & _ & Hc & _)|(Hq & Hl)].
    { eapply recv_op_processed; [done..| |done]. intros r. by rewrite Hr. }
    unfold recv_op in Hs. rewrite bool_decide_eq_true_2 in Hs by done. injection Hs as <-.
    destruct He as [He|(c & Hc & Hd)]; [|by eapply error_reported].
    apply nothing_processed; [done..|]. intros r. simpl. by rewrite Hr.
  - destruct (orderly_inv _ _ _ Ho) as (Hi & _ & Hl & Hn & _).
    destruct (at_most_one _ (proj1 (not_early_once s Hi Hn Hl))) as [Hc|[ec' Hc]].
    + destruct (proj1 IH Hc) as [Hp Ht]. destruct e as [ec'|ec']; simpl in Hs.
      * destruct (rq_write_wait s); [|done]. injection Hs as <-.
        destruct (send_op_processed ec' s) as (Hp' & Hr' & He).
        destruct (He Hc) as [He'|(c & Hc' & Hd)]; [|by eapply error_reported].
        apply nothing_processed; [done|congruence|]. intros r. rewrite Hr'. apply Ht.
      * apply (recv_op_processed ec' s); [done..|]. by destruct (rq_recv s).
    + destruct (orderly_call_stays _ _ _ _ _ _ Ho Hs Hc) as (Hc' & Hp' & Hr' & Hl').
      split; rewrite Hc'; [done|]. unfold received. rewrite Hp', Hr', Hl', <- Hc. apply IH.
Qed.

(** [async_request_op::operator()(ec, conn)] with its time constraint: a connection
    that could not be got is reported to the handler as it is. *)
Definition async_request_op (t : time_constraint) (ec : error_code) (l : L) : option (timed (request L R)) :=
  s ← request_start results_left process what ec l;
  if failed ec then Some (Timed s None) else apply_time_constraint t s.

(** What happens to a request whose connection came with [ec]: completions of its
    waits and of its timer, in any order, no result being reported early. *)
Inductive request_runs (t : time_constraint) (ec : error_code) (l : L) : timed (request L R) -> Prop :=
| request_runs_start o : async_request_op t ec l = Some o -> ~ early (inner o) -> request_runs t ec l o
| request_runs_step o ev o' : request_runs t ec l o -> timed_step o ev = Some o' -> ~ early (inner o') ->
    request_runs t ec l o'.

Lemma apply_time_constraint_inner t (s : request L R) o : apply_time_constraint t s = Some o -> inner o = s.
Proof using.
  destruct t; simpl; [by intros [= <-]| |]; destruct (deliver _ _); simpl; by intros [= <-].
Qed.

Lemma request_runs_timed `{!libpq_laws L R results_left} t ec l o : request_runs t ec l o ->
  timed_states (orderly ec l) (if failed ec then tc_none else t) o.
Proof.
  induction 1 as [o Ho Hn|o ev o' Hr IH Hs Hn].
  - unfold async_request_op in Ho. destruct (request_start _ _ _ ec l) as [s|] eqn:Es; [|done].
    cbn [mbind option_bind] in Ho. destruct (failed ec).
    + injection Ho as <-. by eapply timed_start; [apply orderly_start|].
    + pose proof (apply_time_constraint_inner _ _ _ Ho) as Hi. subst s.
      by eapply timed_start; [apply orderly_start|].
  - eapply timed_next; [done|done|]. destruct (timed_states_ok _ _ _ IH) as [Hi _].
    destruct ev as [e|ec']; cbn [timed_step] in Hs.
    + destruct (io_step (inner o) e) as [s|] eqn:Es; [|done]. cbn [mbind option_bind] in Hs.
      assert (inner o' = s) as <-.
      { destruct (deadline_of o) as [d|]; [destruct (deliver _ d)|]; by simplify_eq/=. }
      exact (orderly_step _ _ _ e _ Hi Es Hn).
    + destruct (deadline_of o) as [d|]; [|done]. cbn [mbind option_bind] in Hs.
      destruct (on_timer d); simplify_eq/=. done.
Qed.

Lemma request_runs_failed t ec l o : failed ec = true -> request_runs t ec l o ->
  user_calls o = [ec].
Proof using.
  intros Hf Hr. enough (rq_calls (inner o) = [ec] /\ deadline_of o = None
    /\ rq_write_wait (inner o) = false /\ rq_recv (inner o) = at_end) as (Hc & Hd & _).
  { unfold user_calls. by rewrite Hd. }
  induction Hr as [o Ho _|o ev o' _ (Hc & Hd & Hw & He) Hs _].
  - unfold async_request_op, request_start in Ho. rewrite Hf in Ho. by injection Ho as <-.
  - destruct ev as [e|ec']; cbn [timed_step] in Hs; [|by rewrite Hd in Hs].
    exfalso. destruct e; cbn in Hs; rewrite ?Hw, ?He in Hs; done.
Qed.
End requests.

(** ** [async_request] and [async_execute] *)

(** [async_request_out_handler::operator()]: the rows are received into [out]. *)
Definition async_request_out_handler {R : Type} `{pg_result R} (native : endian) (tick : Z) (oids : oid_map)
    (t : cty) (out : list (den t)) (r : R) : may_throw () :=
  match (recv_result native tick oids t r out).2 with
  | None => Return tt
  | Some e => Throw e
  end.

(** [async_execute] has [none] for the out handler. *)
Definition execute_out_handler {R : Type} (r : R) : may_throw () := Return tt.

(** [async_request(provider, query, t, out, handler)] and [async_execute]: how the
    connection is got, and the time constraint of the operation that follows.  The
    clock is read for each of the two deadlines. *)
Definition async_request (now now' : Z) (p : provider) (t : time_constraint) :
    option (getting * time_constraint) :=
  g ← async_get_connection now p (deadline now t); Some (g, deadline now' t).

(** ** [async_connect] with the request of the oids *)

Section connects.
Context {L R : Type} `{libpq L R} `{pg_result R} (results_left : L -> nat) (what : exn -> string).
Context (fd : Z) (PQstatus : handle -> conn_status) (native : endian) (tick : Z).
(** The handle [PQconnectStart] returns, the state of libpq once connected, the
    registered types. *)
Context (started : option handle) (l0 : L) (m0 : oid_map).

(** The out handler of the request of the oids, and the [res_] it fills. *)
Definition oids_handler : R -> may_throw () := async_request_out_handler native tick m0 (Scalar sc_oid) [].
Definition received_oids (rs : list R) : list Z :=
  foldl (fun out r => (recv_result native tick m0 (Scalar sc_oid) r out).1) [] rs.

(** The connect operation, then the request of the oids; [ca_context] is the
    error context that [request_oid_map_op] sets. *)
Record connect_all := ConnectAll {
  ca_connect : connect_state;
  ca_oids : option (request L R);
  ca_map : oid_map;
  ca_context : option string;
  ca_calls : list error_code
}.

(** [request_oid_map_op::operator()] for each call the request made since [old]. *)
Definition oids_called (old : list error_code) (a : connect_all) : connect_all :=
  match ca_oids a with
  | None => a
  | Some r =>
      foldl (fun a ec =>
          let '(ec, m, ctx) := on_oids ec (received_oids (rq_processed r)) (ca_map a) what in
          ConnectAll (ca_connect a) (ca_oids a) m ctx (ca_calls a ++ [ec]))
        a (drop (length old) (rq_calls r))
  end.

(** The handler of [async_connect_op]: [apply_oid_map_request]. *)
Definition connect_called (a : connect_all) : option connect_all :=
  match cs_calls (ca_connect a) with
  | [] => Some a
  | ec :: _ =>
      match after_connect (ca_map a) ec with
      | Connect.call_handler ec =>
          Some (ConnectAll (ca_connect a) None (ca_map a) (ca_context a) (ca_calls a ++ [ec]))
      | request_oids =>
          r ← request_start results_left oids_handler what ec_default l0;
          Some (oids_called [] (ConnectAll (ca_connect a) (Some r) (ca_map a) (ca_context a) (ca_calls a)))
      end
  end.

(** [async_connect(conninfo, t, conn, handler)] without its time constraint. *)
Definition async_connect : option connect_all :=
  connect_called (ConnectAll (perform PQstatus started fd new_connect) None m0 None []).

Inductive connect_event := socket_ready (ec : error_code) (poll : polling_status) | oids_event (e : Request.event).

Definition connect_all_step (a : connect_all) (e : connect_event) : option connect_all :=
  match e, ca_oids a with
  | socket_ready ec poll, None =>
      s ← connect_step (ca_connect a) (ec, poll);
      connect_called (ConnectAll s None (ca_map a) (ca_context a) (ca_calls a))
  | oids_event e, Some r =>
      r' ← request_step results_left oids_handler what r e;
      Some (oids_called (rq_calls r) (ConnectAll (ca_connect a) (Some r') (ca_map a) (ca_context a) (ca_calls a)))
  | _, _ => None
  end.

#[local] Instance connect_operation : IoOperation connect_all connect_event := {
  io_calls := ca_calls;
  io_pending a e :=
    match e, ca_oids a with
    | socket_ready _ _, None => cs_wait (ca_connect a) <> None
    | oids_event (write_ready _), Some r => rq_write_wait r = true
    | oids_event (read_ready _), Some r => rq_recv r = at_first_loop \/ rq_recv r = at_drain_loop
    | _, _ => False
    end;
  io_step := connect_all_step
}.

Definition oids_early (a : connect_all) : Prop :=
  match ca_oids a with None => False | Some r => early r end.

(** The states of a connect in which the oids do not arrive before their request is sent. *)
Inductive connect_runs : connect_all -> Prop :=
| connect_runs_start a : async_connect = Some a -> ~ oids_early a -> connect_runs a
| connect_runs_step a e a' : connect_runs a -> connect_all_step a e = Some a' -> ~ oids_early a' ->
    connect_runs a'.

(** The request of the oids has not been answered, or it was and the map is what
    the answer made of it. *)
Definition oids_ok (a : connect_all) (r : request L R) : Prop :=
  (rq_calls r = [] /\ ca_calls a = [] /\ ca_map a = m0)
  \/ (exists ec, rq_calls r = [ec]
       /\ ca_calls a = [(on_oids ec (received_oids (rq_processed r)) m0 what).1.1]
       /\ ca_map a = (on_oids ec (received_oids (rq_processed r)) m0 what).1.2).

Definition connect_all_ok (a : connect_all) : Prop :=
  connecting PQstatus started fd (ca_connect a)
  /\ match ca_oids a with
     | None => ca_map a = m0
         /\ ((cs_calls (ca_connect a) = [] /\ ca_calls a = [])
             \/ (exists ec, cs_calls (ca_connect a) = [ec] /\ ca_calls a = [ec]
                  /\ after_connect m0 ec = Connect.call_handler ec))
     | Some r => (exists ec, cs_calls (ca_connect a) = [ec] /\ after_connect m0 ec = request_oids)
         /\ orderly results_left oids_handler what ec_default l0 r /\ oids_ok a r
     end.

Lemma after_connect_calls ec c : after_connect m0 ec = Connect.call_handler c -> c = ec.
Proof using.
  unfold after_connect. destruct (oid_map_empty m0); [congruence|].
  destruct (failed ec); congruence.
Qed.

Lemma oids_called_first c r ctx : (length (rq_calls r) <= 1)%nat ->
  exists m ctx' calls, oids_called [] (ConnectAll c (Some r) m0 ctx []) = ConnectAll c (Some r) m ctx' calls
    /\ oids_ok (ConnectAll c (Some r) m ctx' calls) r.
Proof using.
  intros Hl. unfold oids_called, oids_ok. simpl.
  destruct (at_most_one _ Hl) as [Hc|[ec Hc]]; rewrite Hc; simpl.
  - eexists _, _, _. split; [done|]. by left.
  - destruct (on_oids ec _ m0 what) as [[ec' m'] ctx'] eqn:Eo. eexists _, _, _. split; [done|].
    right. exists ec. simpl. by rewrite Eo.
Qed.

Lemma orderly_one_call r : orderly results_left oids_handler what ec_default l0 r -> (length (rq_calls r) <= 1)%nat.
Proof using. intros Ho. destruct (orderly_inv _ _ _ _ _ _ Ho) as (Hi & _ & Hl & Hn & _). by apply not_early_once. Qed.

Lemma connect_called_ok s ctx a : connecting PQstatus started fd s ->
  connect_called (ConnectAll s None m0 ctx []) = Some a -> ~ oids_early a -> connect_all_ok a.
Proof using.
  intros Hs Ha Hn. unfold connect_called in Ha. simpl in Ha.
  pose proof (connecting_inv _ _ _ _ Hs) as Hi.
  destruct (cs_calls s) as [|ec calls] eqn:Ec.
  { injection Ha as <-. split; [done|]. simpl. split; [done|by left]. }
  assert (calls = []) as -> by (destruct Hi as [(_ & ? & _)|(? & _ & ? & _)]; congruence).
  destruct (after_connect m0 ec) as [c|] eqn:Ek.
  - apply after_connect_calls in Ek as Hk. subst c. injection Ha as <-. split; [done|]. simpl.
    split; [done|]. right. by exists ec.
  - destruct (request_start _ _ _ _ l0) as [r|] eqn:Er; [|done]. cbn [mbind option_bind] in Ha.
    assert (~ early r) as Hr.
    { assert (oids_early a = early r) as <-; [|done]. unfold oids_called in Ha. simpl in Ha.
      destruct (request_start_inv _ _ _ _ _ _ Er) as [Hri _]. pose proof (request_start_not_late _ _ _ _ _ _ Er).
      destruct (oids_called_first s r ctx) as (m & ctx' & calls & Ho & _);
        [|unfold oids_called in Ho; simpl in Ho; rewrite Ho in Ha; by injection Ha as <-].
      destruct Hri as [(_ & _ & -> & _)|[(_ & _ & _ & ->)|[(_ & _ & ->)|[(_ & ->)|?]]]]; simpl; (lia || done). }
    assert (orderly results_left oids_handler what ec_default l0 r) as Hord by (by apply orderly_start).
    destruct (oids_called_first s r ctx (orderly_one_call r Hord)) as (m & ctx' & calls & Ho & Hok).
    rewrite Ho in Ha. injection Ha as <-. split; [done|]. simpl. split; [by exists ec|]. by split.
Qed.

Lemma connect_oids_step a r e r' : ca_oids a = Some r -> connect_all_ok a ->
  request_step results_left oids_handler what r e = Some r' -> ~ early r' ->
  exists m ctx calls, connect_all_step a (oids_event e) = Some (ConnectAll (ca_connect a) (Some r') m ctx calls)
    /\ connect_all_ok (ConnectAll (ca_connect a) (Some r') m ctx calls)
    /\ (forall ec, ca_calls a = [ec] -> calls = [ec]).
Proof using.
  intros Er [Hc Hok] Hs Hn. rewrite Er in Hok. destruct Hok as (He & Hord & Hok). cbn [connect_all_step].
  rewrite Er, Hs. cbn [mbind option_bind].
  assert (orderly results_left oids_handler what ec_default l0 r') as Hord' by (by eapply orderly_step).
  destruct Hok as [(Hrc & Hcc & Hm)|(ec & Hrc & Hcc & Hm)].
  - rewrite Hrc, Hcc, Hm.
    destruct (oids_called_first (ca_connect a) r' (ca_context a) (orderly_one_call r' Hord')) as (m & ctx & calls & -> & Hok).
    exists m, ctx, calls. by split_and!.
  - destruct (orderly_call_stays _ _ _ _ _ _ _ _ _ Hord Hs Hrc) as (Hrc' & Hp & _).
    unfold oids_called. simpl. rewrite Hrc, Hrc'. simpl.
    exists (ca_map a), (ca_context a), (ca_calls a). split_and!; [done|split; [done|]|done].
    simpl. split_and!; [done..|]. right. exists ec. simpl. by rewrite Hp, Hrc', Hcc, Hm.
Qed.

Lemma connect_step_ok a e a' : connect_all_ok a -> connect_all_step a e = Some a' -> ~ oids_early a' ->
  connect_all_ok a'.
Proof using.
  intros Hok Hs Hn. destruct e as [ec poll|e]; cbn [connect_all_step] in Hs.
  - destruct (ca_oids a) as [|] eqn:Er; [done|]. destruct Hok as [Hc Hok]. rewrite Er in Hok.
    destruct (connect_step (ca_connect a) (ec, poll)) as [s|] eqn:Es; [|done]. cbn [mbind option_bind] in Hs.
    assert (connecting PQstatus started fd s) as Hs' by (by eapply connecting_step).
    destruct Hok as [Hm [[_ Hca]|(ec' & Hcs & _)]]; [rewrite Hca, Hm in Hs; by eapply connect_called_ok|].
    unfold connect_step in Es. destruct (connecting_inv _ _ _ _ Hc) as [(_ & ? & _)|(? & Hw & _)]; [congruence|].
    by rewrite Hw in Es.
  - destruct (ca_oids a) as [r|] eqn:Er; [|done].
    destruct (request_step _ _ _ r e) as [r'|] eqn:Es; [|done]. cbn [mbind option_bind] in Hs.
    assert (~ early r') as Hn'.
    { assert (oids_early a' = early r') as <-; [|done]. injection Hs as <-. unfold oids_called. simpl.
      generalize (drop (length (rq_calls r)) (rq_calls r')) as l. intros l.
      enough (forall b, ca_oids b = Some r' -> oids_early (foldl (fun a ec =>
          let '(ec, m, ctx) := on_oids ec (received_oids (rq_processed r')) (ca_map a) what in
          ConnectAll (ca_connect a) (ca_oids a) m ctx (ca_calls a ++ [ec])) b l) = early r') as Hb by (by apply Hb).
      induction l as [|x l IH]; intros b Hb; simpl; [unfold oids_early; by rewrite Hb|].
      apply IH. by destruct (on_oids x _ _ _) as [[? ?] ?]. }
    destruct (connect_oids_step a r e r' Er Hok Es Hn') as (m & ctx & calls & Ha & Hok' & _).
    cbn [connect_all_step] in Ha. rewrite Er, Es in Ha. cbn [mbind option_bind] in Ha. congruence.
Qed.

Lemma connect_runs_ok a : connect_runs a -> connect_all_ok a.
Proof using.
  induction 1 as [a Ha Hn|a e a' _ IH Hs Hn]; [|by eapply connect_step_ok].
  eapply connect_called_ok; [apply connecting_perform|done|done].
Qed.

Lemma connect_one_call_len a : connect_all_ok a -> (length (ca_calls a) <= 1)%nat.
Proof using.
  intros [Hc Hok]. destruct (ca_oids a) as [r|].
  - destruct Hok as (_ & _ & [(_ & -> & _)|(ec & _ & -> & _)]); simpl; lia.
  - destruct Hok as (_ & [[_ ->]|(ec & _ & -> & _)]); simpl; lia.
Qed.

Lemma connect_called_total `{!libpq_laws L R results_left} a : exists a', connect_called a = Some a'.
Proof.
  unfold connect_called. destruct (cs_calls (ca_connect a)) as [|ec cs]; [by eexists|].
  destruct (after_connect (ca_map a) ec); [by eexists|]. unfold request_start.
  change (failed ec_default) with false. cbn iota.
  destruct (recv_op_total results_left oids_handler what ec_default (send_perform (new_request l0))) as [r Hr].
  { unfold send_perform. destruct (pq_set_nonblocking _) as [[] l1]; [|done].
    destruct (pq_send_query_params _) as [[] l2]; [|done]. cbn [negb]. by rewrite send_op_recv. }
  rewrite Hr. by eexists.
Qed.

#[export] Instance connect_one_call `{!libpq_laws L R results_left} :
  OneCall connect_all connect_event connect_runs.
Proof.
  split.
  - intros a Ha. apply connect_one_call_len. by apply connect_runs_ok.
  - intros a e a' ec Ha Hs Hc. apply connect_runs_ok in Ha as Hok. cbn in Hs, Hc |- *.
    destruct e as [ec' poll|e]; cbn [connect_all_step] in Hs; destruct (ca_oids a) as [r|] eqn:Er; try done.
    + exfalso. destruct Hok as [Hcn Hok]. rewrite Er in Hok.
      destruct Hok as [_ [[_ ?]|(ec0 & Hcs & _)]]; [congruence|].
      destruct (connecting_inv _ _ _ _ Hcn) as [(_ & ? & _)|(? & Hw & _)]; [congruence|].
      unfold connect_step in Hs. by rewrite Hw in Hs.
    + destruct Hok as [Hcn Hok]. rewrite Er in Hok. destruct Hok as (_ & Hord & Hok).
      destruct Hok as [(_ & ? & _)|(ec0 & Hrc & Hcc & _)]; [congruence|].
      destruct (request_step _ _ _ r e) as [r'|] eqn:Es; [|done].
      destruct (orderly_call_stays _ _ _ _ _ _ _ _ _ Hord Es Hrc) as (Hrc' & _).
      cbn [mbind option_bind] in Hs. injection Hs as <-. unfold oids_called. simpl.
      by rewrite Hrc, Hrc'.
  - intros a Ha Hq. apply connect_runs_ok in Ha as [Hcn Hok]. cbn. destruct (ca_oids a) as [r|] eqn:Er.
    + destruct Hok as (_ & Hord & [(Hrc & _)|(ec & _ & -> & _)]); [|done]. exfalso.
      apply (call_made (OneCall := request_one_call results_left oids_handler what ec_default l0) r Hord); [|done].
      intros e He. apply (Hq (oids_event e)). cbn. rewrite Er. by destruct e.
    + destruct Hok as [_ [[Hcs _]|(ec & _ & -> & _)]]; [|done]. exfalso.
      destruct (connecting_inv _ _ _ _ Hcn) as [([w Hw] & _)|(? & _ & ? & _)]; [|congruence].
      apply (Hq (socket_ready ec_default PGRES_POLLING_OK)). cbn. rewrite Er, Hw. done.
  - intros a e Ha Hp. cbn in Hp |- *. apply connect_runs_ok in Ha as [_ Hok].
    destruct e as [ec poll|e]; cbn [connect_all_step]; destruct (ca_oids a) as [r|] eqn:Er; try done.
    + unfold connect_step. destruct (cs_wait (ca_connect a)); [|done]. cbn [mbind option_bind].
      apply connect_called_total.
    + destruct Hok as (_ & Hord & _).
      destruct (waits_complete (OneCall := request_one_call results_left oids_handler what ec_default l0) r e Hord)
        as [r' Hr']; [by destruct e|].
      cbn in Hr'. rewrite Hr'. by eexists.
    + by destruct e.
Qed.

(** When a success is reported, the handle is open and the registered types have
    the oids the database answered with. *)
Lemma connect_ready a ec : NoDup (keys m0) -> connect_runs a -> ca_calls a = [ec] -> failed ec = false ->
  is_open (cs_conn (ca_connect a)) = true
  /\ ((m0 = [] /\ ca_map a = [])
      \/ exists r, ca_oids a = Some r /\ ca_map a = zip (keys m0) (received_oids (rq_processed r))
           /\ length m0 = length (received_oids (rq_processed r))
           /\ Forall (fun i => i <> null_oid) (received_oids (rq_processed r))).
Proof using.
  intros Hnd Ha Hc Hf. apply connect_runs_ok in Ha as [Hcn Hok].
  pose proof (connecting_inv _ _ _ _ Hcn) as Hi. destruct (ca_oids a) as [r|].
  - destruct Hok as ((ec0 & Hcs & Hk) & _ & [(_ & ? & _)|(ec1 & _ & Hcc & Hm)]); [congruence|].
    assert (failed ec0 = false) as Hf0.
    { unfold after_connect in Hk. destruct (oid_map_empty m0); [done|]. by destruct (failed ec0). }
    split.
    { destruct Hi as [(_ & ? & _)|(ec2 & _ & Hec & Ho)]; [congruence|]. apply Ho. congruence. }
    right. exists r. split; [done|]. rewrite Hcc in Hc. injection Hc as Hc.
    generalize dependent (received_oids (rq_processed r)). intros res Hcc Hm Hc.
    unfold on_oids in Hm, Hc. destruct (failed ec1) eqn:Ef1; [simpl in Hc; congruence|].
    unfold set_oid_map in Hm, Hc. case_bool_decide as Hl; [|simpl in Hc; subst ec; done].
    destruct (set_oids_spec [] m0 res Hnd Hl) as [H1 H2]. simpl in H1, H2.
    destruct (decide (Forall (fun i => i <> null_oid) res)) as [Hall|Hall].
    + rewrite (H1 Hall) in Hm. done.
    + destruct (H2 Hall) as (m' & Hs & _). rewrite Hs in Hc. simpl in Hc. by subst ec.
  - destruct Hok as [Hm [[_ ?]|(ec0 & Hcs & Hcc & Hk)]]; [congruence|]. rewrite Hcc in Hc. injection Hc as <-.
    split.
    { destruct Hi as [(_ & ? & _)|(ec2 & _ & Hec & Ho)]; [congruence|]. apply Ho. congruence. }
    left. unfold after_connect, oid_map_empty in Hk. case_bool_decide as Hm0; [by subst m0|].
    by rewrite Hf in Hk.
Qed.
End connects.
Arguments connect_all : clear implicits.

(** ** A libpq that answers from memory *)

#[export] Instance tables_libpq : libpq (list table) table := {
  pq_set_nonblocking l := (true, l);
  pq_send_query_params l := (true, l);
  pq_flush l := (qs_send_finish, l);
  pq_is_busy l := false;
  pq_consume_input l := (true, l);
  pq_get_result l := (head l, tail l);
  pq_result_status r := PGRES_TUPLES_OK;
  pq_result_sqlstate r := None
}.

#[export] Instance tables_laws : libpq_laws (list table) table length.
Proof. split. intros [|t l] r l' [= <- <-]. simpl. lia. Qed.

Module Operating.

(** C5: a request with or without a time constraint, given a connection or the
    error of getting one, calls the user's handler exactly once when no result is
    reported early, whatever the order of socket completions and the timer: at
    most once always, and once when nothing is pending.  The call comes after the
    request itself has reported, so the connection is no longer in use; it
    carries the request's own code, or [timed_out] when there is a time
    constraint; a success means that the result [PQgetResult] gave has a status with
    an answer and was handed to the out handler, once, and that it did not throw,
    or that libpq said there is no result; the error of a connection that could
    not be got is passed on at once.  No completion finds the deadline handler
    reset. *)
Theorem timed_request_calls_handler_once {L R : Type} `{libpq L R} (results_left : L -> nat)
    (process : R -> may_throw ()) (what : exn -> string) (t : time_constraint) (ec : error_code) (l : L)
    (o : timed (request L R)) (Hlaws : libpq_laws L R results_left)
    (Ho : request_runs results_left process what t ec l o) :
  let pending := io_pending (IoOperation := request_operation results_left process what) (inner o) in
  let calls := user_calls (H := request_operation results_left process what) o in
  (length calls <= 1)%nat
  /\ (failed ec = true -> calls = [ec])
  /\ (forall c, calls = [c] -> exists c0, rq_calls (inner o) = [c0]
        /\ (c = c0 \/ (c = ec_asio timed_out /\ t <> tc_none))
        /\ (c = ec_default -> received process (inner o)))
  /\ (timer_pending o = false -> (forall e, ~ pending e) -> exists c, calls = [c])
  /\ (forall e, pending e -> exists s, request_step results_left process what (inner o) e = Some s
        /\ (~ early s -> exists o', timed_step (H := request_operation results_left process what) o
                                      (operation_event e) = Some o'))
  /\ (forall c, timer_pending o = true -> exists o',
        timed_step (H := request_operation results_left process what) o (timer_event c) = Some o').
Proof.
  cbv zeta. pose proof (request_runs_timed results_left process what t ec l o Ho) as Ht.
  destruct (timed_states_ok _ _ _ Ht) as [Hord _].
  destruct (timed_once _ _ _ Ht) as (H1 & H2 & H3 & H4 & H5).
  split_and!; [done| | |done| |done].
  - intros Hf. by apply (request_runs_failed results_left process what t ec l).
  - intros c Hc. destruct (H2 c Hc) as (c0 & Hc0 & Hcc). exists c0. split; [done|]. split.
    + destruct Hcc as [Hcc|[Hcc Hd]]; [by left|]. right. split; [done|]. intros ->. apply Hd.
      assert (deadline_of o = None) as ->; [|done].
      clear -Ht. replace (if failed ec then tc_none else tc_none) with tc_none in Ht by (by destruct (failed ec)).
      induction Ht as [s o _ Ho|o ev o' _ IH Hs _]; [by injection Ho as <-|].
      destruct ev as [e|c]; cbn [timed_step] in Hs; rewrite IH in Hs; [|done].
      destruct (io_step (inner o) e); by simplify_eq/=.
    + intros ->. destruct Hcc as [<-|[Hcc _]]; [|done]. by apply (orderly_processed _ _ _ _ _ _ Hord).
  - intros e He. destruct (H4 e He) as (s & Hs & Hk). exists s. split; [done|]. intros Hn.
    destruct Hk as (o' & Ho' & _); [|by exists o']. exact (orderly_step results_left process what ec l (inner o) e s Hord Hs Hn).
Qed.

Lemma timed_request_calls_handler_once_witness :
  let results_left (l : script) := length (sc_results l) in
  let o := Timed (Request (Script [] []) qs_send_finish false at_end (Some PGRES_TUPLES_OK) "" 0
                    [PGRES_TUPLES_OK] [ec_default])
             (Some (IoDeadline.State 0 ec_default (Some tt) false false true false [(ec_default, Some tt)])) in
  request_runs results_left (fun _ => Return tt) (fun _ => "") (tc_duration 5) ec_default
    (Script [qs_send_finish] [PGRES_TUPLES_OK]) o
  /\ (length (user_calls (H := request_operation results_left (fun _ => Return tt) (fun _ => "")) o) <= 1)%nat.
Proof.
  intros results_left o.
  assert (request_runs results_left (fun _ => Return tt) (fun _ => "") (tc_duration 5) ec_default
    (Script [qs_send_finish] [PGRES_TUPLES_OK]) o) as Ho.
  { eapply (request_runs_step results_left (fun _ => Return tt) (fun _ => "") (tc_duration 5) ec_default
      (Script [qs_send_finish] [PGRES_TUPLES_OK]) _ (timer_event (ec_asio operation_aborted))).
    - apply request_runs_start; [vm_compute; reflexivity|]. intros [_ He]. discriminate He.
    - vm_compute. reflexivity.
    - intros [_ He]. discriminate He. }
  split; [exact Ho|].
  apply (timed_request_calls_handler_once results_left (fun _ => Return tt) (fun _ => "") (tc_duration 5)
    ec_default (Script [qs_send_finish] [PGRES_TUPLES_OK]) o script_laws Ho).
Defined.

(** C9: connecting, from [PQconnectStart] over the request of the oids to the
    user's handler, with or without a time constraint, as long as the result of the
    request of the oids is not reported before its query was sent, calls the handler
    at most once in any order of completions, and once when nothing is pending;
    success means an open handle and, when types are registered, that each of them has
    the oid the database answered for it, none of them null; libpq's handle is held by
    the connection or finished; every completion can be handled. *)
Theorem timed_connect_is_ready {L R : Type} `{libpq L R} `{pg_result R} (results_left : L -> nat)
    (what : exn -> string) (fd : Z) (PQstatus : handle -> conn_status) (native : endian)
    (tick : Z) (started : option handle) (l0 : L) (m0 : oid_map) (t : time_constraint)
    (o : timed (connect_all L R)) (Hlaws : libpq_laws L R results_left) (Hkeys : NoDup (keys m0))
    (Ho : timed_states
            (H := connect_operation results_left what native tick l0 m0)
            (connect_runs results_left what fd PQstatus native tick started l0 m0) t o) :
  let io := connect_operation results_left what native tick l0 m0 in
  let calls := user_calls (H := io) o in
  (length calls <= 1)%nat
  /\ (timer_pending o = false -> (forall e, ~ io_pending (IoOperation := io) (inner o) e) ->
        exists c, calls = [c])
  /\ (forall c, calls = [c] -> failed c = false ->
        is_open (cs_conn (ca_connect (inner o))) = true
        /\ ((m0 = [] /\ ca_map (inner o) = [])
            \/ exists r, ca_oids (inner o) = Some r
                 /\ let res := received_oids native tick m0 (rq_processed r) in
                    ca_map (inner o) = zip (keys m0) res /\ length m0 = length res
                    /\ Forall (fun i => i <> null_oid) res))
  /\ option_list (handle_ (cs_conn (ca_connect (inner o)))) ++ cs_finished (ca_connect (inner o))
     = option_list started
  /\ (forall e, io_pending (IoOperation := io) (inner o) e ->
        exists a, connect_all_step results_left what native tick l0 m0 (inner o) e = Some a)
  /\ (forall c, timer_pending o = true -> exists o', timed_step (H := io) o (timer_event c) = Some o').
Proof.
  cbv zeta. destruct (timed_states_ok _ _ _ Ho) as [Hr _].
  destruct (timed_once _ _ _ Ho) as (H1 & H2 & H3 & H4 & H5).
  split_and!; [done|done| | | |done].
  - intros c Hc Hf. destruct (H2 c Hc) as (c0 & Hc0 & Hcc). apply (connect_ready results_left what fd
      PQstatus native tick started l0 m0 _ c0 Hkeys Hr Hc0). by destruct Hcc as [<-|[-> _]].
  - apply (connecting_owned PQstatus started fd). apply (connect_runs_ok _ _ _ _ _ _ _ _ _ _ Hr).
  - intros e He. destruct (H4 e He) as (a & Ha & _). by exists a.
Qed.

Lemma timed_connect_is_ready_witness :
  let m0 := [(Struct "custom" ["id"] [Scalar sc_int4], null_oid)] in
  let answer := Table [("oid", 26)] [[Some [x00; x00; x40; x00]]] in
  let io := connect_operation length (fun _ => "") little 1000 [answer] m0 in
  exists o : timed (connect_all (list table) table),
    timed_states (H := io)
      (connect_runs length (fun _ => "") 5 (fun _ => CONNECTION_OTHER) little 1000 (Some 1%nat)
         [answer] m0) (tc_duration 9) o
    /\ user_calls (H := io) o = [ec_default]
    /\ ca_map (inner o) = [(Struct "custom" ["id"] [Scalar sc_int4], 16384)]
    /\ is_open (cs_conn (ca_connect (inner o))) = true.
Proof.
  intros m0 answer io.
  pose (reach := connect_runs (L := list table) (R := table) length (fun _ => "") 5
    (fun _ => CONNECTION_OTHER) little 1000 (Some 1%nat) [answer] m0).
  pose (conn := Connection (Some 1%nat) (Some 5) "").
  pose (a0 := ConnectAll (ConnectState conn [] (Some wait_write) []) None m0 None [] : connect_all (list table) table).
  pose (a1 := ConnectAll (ConnectState conn [] None [ec_default])
    (Some (Request ([] : list table) qs_send_finish false at_end (Some answer) "" 0 [answer] [ec_default]))
    [(Struct "custom" ["id"] [Scalar sc_int4], 16384)] None [ec_default]).
  pose (o := Timed a1 (Some (IoDeadline.State 0 ec_default (Some tt) false false true false [(ec_default, Some tt)]))).
  assert (reach a0) as H0 by (apply connect_runs_start; [vm_compute; reflexivity|exact (fun x => x)]).
  assert (reach a1) as H1.
  { apply (connect_runs_step _ _ _ _ _ _ _ _ _ a0 (socket_ready ec_default PGRES_POLLING_OK) a1 H0);
      [vm_compute; reflexivity|intros [_ He]; discriminate He]. }
  assert (timed_states (H := io) reach (tc_duration 9) o) as Ho.
  { apply (timed_next reach _
      (Timed a1 (Some (IoDeadline.State 1 ec_default (Some tt) false true true false [])))
      (timer_event (ec_asio operation_aborted))); [|vm_compute; reflexivity|exact H1].
    apply (timed_next reach _ (Timed a0 (Some io_start))
      (operation_event (socket_ready ec_default PGRES_POLLING_OK))); [|vm_compute; reflexivity|exact H1].
    apply (timed_start reach _ a0); [exact H0|reflexivity]. }
  assert (user_calls (H := io) o = [ec_default]) as Hc by reflexivity.
  assert (ca_map (inner o) = [(Struct "custom" ["id"] [Scalar sc_int4], 16384)]) as Hm by reflexivity.
  exists o. split; [exact Ho|]. split; [exact Hc|]. split; [exact Hm|].
  destruct (timed_connect_is_ready length (fun _ => "") 5 (fun _ => CONNECTION_OTHER) little 1000
    (Some 1%nat) [answer] m0 (tc_duration 9) o tables_laws (NoDup_singleton _) Ho) as (_ & _ & Hready & _).
  exact (proj1 (Hready ec_default Hc eq_refl)).
Defined.

(** With a time constraint a result that is reported early makes the failure of
    the pending write a call through the context the deadline handler has reset. *)
Lemma early_result_finds_handler_reset :
  let results_left (l : script) := length (sc_results l) in
  let io := request_operation results_left (fun _ => Return tt) (fun _ => "") in
  exists o s, async_request_op results_left (fun _ => Return tt) (fun _ => "") (tc_duration 5) ec_default
      (Script [qs_send_in_progress] [PGRES_COMMAND_OK]) = Some o
    /\ early (inner o)
    /\ request_step results_left (fun _ => Return tt) (fun _ => "") (inner o)
         (write_ready (ec_asio operation_aborted)) = Some s
    /\ timed_step (H := io) o (operation_event (write_ready (ec_asio operation_aborted))) = None.
Proof.
  exists (Timed (Request (Script [] []) qs_send_in_progress true at_end (Some PGRES_COMMAND_OK) "" 0
                   [PGRES_COMMAND_OK] [ec_default])
            (Some (IoDeadline.State 1 ec_default (Some tt) false true true false []))),
         (Request (Script [] []) qs_error false at_end (Some PGRES_COMMAND_OK) "" 1
            [PGRES_COMMAND_OK] [ec_default; ec_asio operation_aborted]).
  split; [vm_compute; reflexivity|]. split; [by split|]. split; vm_compute; reflexivity.
Qed.

(** Both deadlines of an [async_request] are the one the user gave: getting the
    connection and the request on it share the time. *)
Lemma async_request_shares_deadline now now' s ex t : source_ok s = true ->
  exists l, async_request now now' (bind_executor s ex) t
    = Some (from_source (SourceCall l ex (deadline now t)), deadline now' t)
  /\ (now = now' -> deadline now t = deadline now' t)
  /\ (forall p, t = tc_time_point p -> deadline now t = tc_time_point p /\ deadline now' t = tc_time_point p).
Proof.
  intros Hs. destruct (call_source_ok (depth s) s Hs) as (l & _ & Hc); [done|]. exists l.
  unfold async_request, bind_executor. cbn [async_get_connection]. unfold provider_get_connection.
  rewrite Hc. split_and!; [done|by intros ->|]. by intros p ->.
Qed.

End Operating.
