(* ===== verification/Echo.v ===== *)
(** * From a query to its result

    What a user gives a query and gets from its result: the builder, the binary query
    libpq is handed, the result of a statement that returns its parameters, and the
    rows received from it, composed.  The server is not part of the library; what is
    used of it is that such a statement answers with the types and the bytes of its
    parameters ([echoes]). *)

From Stdlib Require Import Strings.Byte.
From S2P Require Import Prelude Words Time Errors PgTypes TypeSystem.
From S2P Require Import Stream Codec CodecSize CodecRoundtrip Query Result Operations.
#[local] Open Scope string_scope.
#[local] Open Scope list_scope.
#[local] Open Scope Z_scope.

Module Echo.

(** The members of a tuple as parameters. *)
Fixpoint tuple_params (ts : list cty) : dens ts -> list param :=
  match ts return dens ts -> list param with
  | [] => fun _ => []
  | t :: ts => fun v => Param t v.1 :: tuple_params ts v.2
  end.

(** The result of a statement that selects its parameters: one row, a column per
    parameter with its oid, and what libpq read of it. *)
Record echoes {R : Type} `{pg_result R} (q : binary_query) (r : R) : Prop := {
  echo_rows : ntuples r = 1;
  echo_columns : nfields r = Z.of_nat (params_count q);
  echo_cells i oid p : types_ q !! i = Some oid -> libpq_param q i = Some p ->
    field_type r (Z.of_nat i) = oid
    /\ match p with
       | None => get_isnull r 0 (Z.of_nat i) = true
       | Some bytes => get_isnull r 0 (Z.of_nat i) = false
           /\ get_value r 0 (Z.of_nat i) = bytes /\ get_length r 0 (Z.of_nat i) = len bytes
       end
}.

Section echo.
Context (native : endian) (tick : Z) (oids : oid_map).

(** The values that arrive: those that can be sent and received, and whose encoding is
    not empty, which libpq takes for a null. *)
Fixpoint arriving (ts : list cty) : dens ts -> Prop :=
  match ts return dens ts -> Prop with
  | [] => fun _ => True
  | t :: ts => fun v =>
      transferable native tick oids t v.1
      /\ (bytes_of native tick oids t v.1 = [] -> is_null v.1 = true)
      /\ arriving ts v.2
  end.

Lemma arriving_regular ts v : arriving ts v -> Forall regular_param (tuple_params ts v).
Proof.
  revert v. induction ts as [|t ts IH]; intros v Hv; [constructor|].
  destruct Hv as ((Hr & _) & _ & Hv). constructor; [exact Hr|by apply IH].
Qed.

Lemma length_tuple_params ts v : length (tuple_params ts v) = length ts.
Proof. revert v. induction ts as [|t ts IH]; intros v; [done|]. simpl. by rewrite IH. Qed.

Context {R : Type} `{pg_result R} (text : string) (r : R).

(** The cells of the row hold the members from the [k]-th on. *)
Lemma echoed_cells params q ts v k :
  make_binary_query native tick oids text params = Return q -> Forall regular_param params ->
  len (concat (param_bytes native tick oids <$> params)) <= size_max ->
  echoes q r -> drop k params = tuple_params ts v -> arriving ts v ->
  cells_hold native tick oids (fun j => Some (row_advance (result_index r 0) (Z.of_nat j))) k ts v.
Proof.
  intros Hq Hreg Hfits He. rewrite (make_binary_query_eq _ _ _ _ _ Hreg Hfits) in Hq. injection Hq as Hq.
  revert v k. induction ts as [|t ts IH]; intros v k Hk Hv; [done|].
  destruct Hv as (Ht & Hempty & Hv). cbn [tuple_params] in Hk.
  assert (params !! k = Some (Param t v.1)) as Hp.
  { rewrite <- (Nat.add_0_r k), <- lookup_drop, Hk. done. }
  split.
  - eexists. split; [done|]. split; [done|].
    assert (types_ q !! k = Some (type_oid oids t)) as Hty by (rewrite <- Hq; simpl; by rewrite list_lookup_fmap, Hp).
    pose proof (libpq_reads native tick oids text (types_ q) (replicate (length params) binary_format)
      params k _ Hp) as Hl.
    assert (libpq_param q k = Some (match bytes_of native tick oids t v.1 with [] => None | bs => Some bs end)) as Hl'
      by (rewrite <- Hq; exact Hl).
    destruct (echo_cells _ _ He k _ _ Hty Hl') as [Hf Hc].
    unfold cell_holds, value_oid, value_is_null, value_data, value_size. cbn [row_advance result_index res row_ col].
    rewrite Z.add_0_l. split; [done|].
    destruct (bytes_of native tick oids t v.1) as [|b bs] eqn:Eb.
    + rewrite (Hempty eq_refl). by split; [|left].
    + destruct Hc as (Hn & Hd & Hlen). rewrite Hn, Hd, Hlen. split; [|by right].
      destruct (is_null v.1) eqn:En; [|done]. by rewrite (null_bytes native tick oids t v.1 En) in Eb.
  - apply (IH v.2 (S k)); [|done]. rewrite <- Nat.add_1_r, <- drop_drop, Hk. done.
Qed.
End echo.

(** C3: values given to a query come back from its result.  A builder that starts with
    text and whose parameters are the members of a tuple builds a query; its binary
    form is made, with the text of the builder; and if the statement answers with its
    parameters, the result, whatever represents it, is received as one tuple with
    exactly the values given, on either byte order: numbers, strings, nulls, arrays
    and composites, nested in any way.  The values have to be such as can arrive: they
    are [regular] (no array mixes nulls and values of an item type of static size) and
    [representable] (integers in their ranges, whole microseconds), none but a null has
    an empty encoding, which an empty string has, and all the encodings together fit
    into [size_type]. *)
Theorem parameters_come_back (native : endian) (tick : Z) (oids : oid_map) (b : query_builder) (ts : list cty)
    (vs : dens ts) {R : Type} `{pg_result R} (Htick : clock_ok tick) (Hoids : oids_in_range oids)
    (Hb : starts_with_text b) (Hparams : builder_params b = tuple_params ts vs)
    (Hvs : arriving native tick oids ts vs)
    (Hfits : len (concat (param_bytes native tick oids <$> tuple_params ts vs)) <= size_max) :
  exists query q, build b = Some query /\ to_binary_query native tick oids query = Return q
    /\ text_ q = render 1 b
    /\ forall r : R, echoes q r ->
         recv_result native tick oids (Tuple ts) r [] = ([vs], None)
         /\ async_request_out_handler native tick oids (Tuple ts) [] r = Return tt.
Proof.
  exists (make_query (render 1 b) (tuple_params ts vs)). pose proof (arriving_regular _ _ _ _ _ Hvs) as Hreg.
  eexists. split; [|split; [by apply make_binary_query_eq|split; [done|]]].
  { unfold build. by rewrite builder_text_render, Hparams. }
  intros r He. assert (recv_result native tick oids (Tuple ts) r [] = ([vs], None)) as Hr.
  { unfold recv_result, result_rows, result_size. rewrite (echo_rows _ _ He).
    change (seq 0 (Z.to_nat 1)) with [0%nat]. cbn [fmap list_fmap recv_rows recv_row].
    unfold row_size. cbn [result_index res Z.of_nat].
    rewrite (echo_columns _ _ He). unfold params_count. cbn [types_ get_query_params].
    rewrite length_fmap, length_tuple_params.
    rewrite Z.eqb_refl. cbn [negb]. change (result_index r 0) with (row_advance (result_index r 0) (Z.of_nat 0)).
    change (default_den (Tuple ts)) with (default_dens ts).
    rewrite (recv_columns_ok native tick oids Htick Hoids (result_index r 0) 0 ts vs); [done|].
    eapply echoed_cells; [by apply make_binary_query_eq|done|done|exact He|done|done]. }
  split; [done|]. unfold async_request_out_handler. by rewrite Hr.
Qed.

(** An empty string comes back as a null: into an optional it is received as one, into a
    string it cannot be received. *)
Theorem empty_string_does_not_come_back (native : endian) (tick : Z) (oids : oid_map) {R : Type} `{pg_result R} (r : R) q :
  make_binary_query native tick oids "SELECT $1" [Param (Scalar sc_text) []] = Return q -> echoes q r ->
  recv_result native tick oids (Scalar sc_text) r [] = ([], Some invalid_argument)
  /\ recv_result native tick oids (Nullable (Scalar sc_text)) r [] = ([None], None).
Proof.
  intros Hq He. vm_compute in Hq. injection Hq as <-.
  destruct (echo_cells _ _ He 0%nat 25 None eq_refl eq_refl) as [Hf Hn].
  pose proof (echo_rows _ _ He) as Hr. pose proof (echo_columns _ _ He) as Hc.
  unfold recv_result, result_rows, result_size. rewrite Hr. change (seq 0 (Z.to_nat 1)) with [0%nat].
  cbn [fmap list_fmap recv_rows recv_row]. unfold row_size. cbn [result_index res Z.of_nat]. rewrite Hc.
  cbn [params_count types_ length Z.of_nat]. change (1 =? 1) with true. cbn [negb].
  unfold recv_value, value_is_null, value_oid. cbn [result_index res row_ col].
  change (Z.of_nat 0) with 0 in *. rewrite Hn, Hf.
  split; reflexivity.
Qed.

(** An integer, an absent string and an array of strings, from a result in memory. *)
Definition sample_types : list cty :=
  [Scalar sc_int4; Nullable (Scalar sc_text); Array c_vector (Scalar sc_text)].
Definition sample_values : dens sample_types := (42, (None, ([[x61]; [x62; x63]], tt))).
Definition sample_builder : query_builder :=
  query_text "SELECT " :: query_param (Param (Scalar sc_int4) 42) :: query_text ", "
    :: query_param (Param (Nullable (Scalar sc_text)) None) :: query_text ", "
    :: [query_param (Param (Array c_vector (Scalar sc_text)) [[x61]; [x62; x63]])].
Definition sample_result : table :=
  Table [("a", 23); ("b", 25); ("c", 1009)]
    [[Some [x00; x00; x00; x2a]; None; Some (bytes_of little 1000 [] (Array c_vector (Scalar sc_text)) [[x61]; [x62; x63]])]].

Lemma parameters_come_back_witness :
  exists query q, build sample_builder = Some query /\ text_ q = "SELECT $1, $2, $3"
    /\ to_binary_query little 1000 [] query = Return q /\ echoes q sample_result
    /\ recv_result little 1000 [] (Tuple sample_types) sample_result [] = ([sample_values], None).
Proof.
  destruct (parameters_come_back little 1000 [] sample_builder sample_types sample_values (R := table))
    as (query & q & Hb & Hq & Ht & Hr).
  - vm_compute. intuition discriminate.
  - constructor.
  - exact I.
  - reflexivity.
  - repeat split; try done; try (vm_compute; discriminate); repeat constructor; vm_compute; try done; discriminate.
  - vm_compute. discriminate.
  - assert (echoes q sample_result) as He.
    { vm_compute in Hb. injection Hb as <-. vm_compute in Hq. injection Hq as <-.
      split; [reflexivity|reflexivity|].
      intros [|[|[|i]]] oid p; try done; intros [= <-] Hp; vm_compute in Hp; injection Hp as <-; by vm_compute. }
    exists query, q. split; [done|]. split; [rewrite Ht; reflexivity|]. split; [done|]. split; [done|]. by apply Hr.
Defined.
End Echo.
