(* ===== verification/Recovery.v ===== *)
(** * Failover over whole operations

    [Failover] follows a strategy through the codes its operations complete with;
    [Operations] has the operations, down to the waits for the socket.  Here a
    strategy initiates operations and is called back by them: the operations of
    earlier tries may still have completions to come while the next one runs.
    The composition is proved against the interfaces [FailoverTry] and [OneCall], and
    requests got through a provider, with their time constraints, discharge the
    second. *)

From Stdlib Require Import Strings.Byte.
From S2P Require Import Prelude Words Time Errors Result Connection Deadlines Request Failover Operations.
Import Deadline IoDeadline.
#[local] Open Scope string_scope.
#[local] Open Scope list_scope.
#[local] Open Scope Z_scope.

(** A step from a state of [reach] leaves at most one call behind. *)
Class StepsOnce (S E : Type) `{IoOperation S E} (reach : S -> Prop) : Prop :=
  step_one_call s e s' : reach s -> io_step s e = Some s' -> (length (io_calls s') <= 1)%nat.

Section recovering.
Context {S E T C : Type} `{IoOperation S E} `{FailoverTry T C}.
(** The operation initiated at some time with the context of a try. *)
Context (begin_op : Z -> C -> S).

(** [rc_operations]: the operations of the tries, in order. *)
Record recovery := Recovery { rc_execution : execution T C; rc_operations : list S }.

(** The operations an execution has initiated since [e]. *)
Definition initiated_since (now : Z) (e e' : execution T C) : list S :=
  begin_op now <$> drop (length (ex_initiated e)) (ex_initiated e').

(** [operation_initiator::operator()] *)
Definition recovery_start (now : Z) (first_try : T) : recovery :=
  let e := failover_start now first_try in Recovery e (begin_op now <$> ex_initiated e).

(** [continuation::operator()(ec, conn)]; [None] is a call of a continuation whose
    handler was moved away. *)
Definition continue (now : Z) (r : recovery) (ec : error_code) : option recovery :=
  e ← on_completed now ec (rc_execution r);
  Some (Recovery e (rc_operations r ++ initiated_since now (rc_execution r) e)).

(** A completion arrives at the operation of the try [k], which may call its
    continuation. *)
Definition recovery_step (k : nat) (now : Z) (ev : E) (r : recovery) : option recovery :=
  s ← rc_operations r !! k;
  s' ← io_step s ev;
  foldl (fun r ec => r ≫= fun r => continue now r ec)
    (Some (Recovery (rc_execution r) (<[k := s']> (rc_operations r))))
    (drop (length (io_calls s)) (io_calls s')).

Context (reach : C -> S -> Prop) `{!forall c, OneCall S E (reach c)}.
Context (begin_reach : forall now c, reach c (begin_op now c))
  (begin_silent : forall now c, io_calls (begin_op now c) = []).

(** The states of a failover, its operations staying in [reach]. *)
Inductive recovery_states (now : Z) (t : T) : recovery -> Prop :=
| recovery_starts : recovery_states now t (recovery_start now t)
| recovery_steps r k now' ev r' : recovery_states now t r -> recovery_step k now' ev r = Some r' ->
    (forall c s, ex_initiated (rc_execution r) !! k = Some c -> rc_operations r' !! k = Some s -> reach c s) ->
    recovery_states now t r'.

(** ** The invariant *)

(** The calls of the operations: one failure each, and the last one's. *)
Definition calls_so_far (r : recovery) (errors : list error_code) (last : list error_code) : Prop :=
  io_calls <$> rc_operations r = ((fun ec => [ec]) <$> errors) ++ [last]
  /\ Forall (fun ec => failed ec = true) errors.

Record recovery_ok (now : Z) (t : T) (r : recovery) : Prop := {
  rok_run : exists cs, rc_execution r = Failover.run (failover_start now t) cs;
  rok_reach : Forall2 reach (ex_initiated (rc_execution r)) (rc_operations r);
  rok_calls : exists errors last, calls_so_far r errors last
    /\ ex_calls (rc_execution r) = last
    /\ ((is_Some (ex_try (rc_execution r)) /\ last = []) \/ (ex_try (rc_execution r) = None /\ exists ec, last = [ec]))
}.

Lemma recovery_start_ok now t : recovery_ok now t (recovery_start now t).
Proof using begin_reach begin_silent.
  split; simpl.
  - by exists [].
  - by constructor.
  - exists [], []. split; [|by split; [|left]]. split; [|done]. simpl. by rewrite begin_silent.
Qed.

(** Only the last operation has not called. *)
Lemma silent_is_last r errors last k s : calls_so_far r errors last -> rc_operations r !! k = Some s ->
  io_calls s = [] -> k = length errors /\ last = [].
Proof using.
  intros [Hc _] Hk Hs. assert ((io_calls <$> rc_operations r) !! k = Some []) as Hl
    by (rewrite list_lookup_fmap, Hk; simpl; by rewrite Hs).
  rewrite Hc in Hl. apply lookup_app_Some in Hl as [Hl|[Hk' Hl]].
  - rewrite list_lookup_fmap in Hl. by destruct (errors !! k).
  - rewrite length_fmap in *. apply list_lookup_singleton_Some in Hl as [Hz Hl]. split; [lia|done].
Qed.

Lemma calls_insert (ops : list S) k s s' : ops !! k = Some s -> io_calls s' = io_calls s ->
  io_calls <$> <[k := s']> ops = io_calls <$> ops.
Proof using.
  intros Hk Hs. rewrite list_fmap_insert. apply list_insert_id. by rewrite list_lookup_fmap, Hk, Hs.
Qed.

Lemma run_snoc (e : execution T C) cs now ec e' : is_Some (ex_try (Failover.run e cs)) ->
  on_completed now ec (Failover.run e cs) = Some e' -> Failover.run e (cs ++ [(now, ec)]) = e'.
Proof using. intros Ht He. rewrite run_app by done. simpl. by rewrite He. Qed.

Lemma continue_keeps now r ec r' k s : continue now r ec = Some r' -> rc_operations r !! k = Some s ->
  rc_operations r' !! k = Some s.
Proof using.
  unfold continue. destruct (on_completed now ec (rc_execution r)); [|done]. intros [= <-] Hk. simpl.
  by apply lookup_app_l_Some.
Qed.

Lemma continue_all_keeps now r ecs r' k s :
  foldl (fun r ec => r ≫= fun r => continue now r ec) (Some r) ecs = Some r' ->
  rc_operations r !! k = Some s -> rc_operations r' !! k = Some s.
Proof using.
  revert r. induction ecs as [|ec ecs IH]; intros r Hr Hk; simpl in Hr; [by simplify_eq|].
  destruct (continue now r ec) as [r1|] eqn:E1.
  - apply (IH r1 Hr). by eapply continue_keeps.
  - exfalso. clear -Hr. by induction ecs.
Qed.

(** The last operation calls its continuation. *)
Lemma continue_ok now t r now' ec errors :
  (exists cs, rc_execution r = Failover.run (failover_start now t) cs) ->
  Forall2 reach (ex_initiated (rc_execution r)) (rc_operations r) ->
  calls_so_far r errors [ec] -> ex_calls (rc_execution r) = [] -> is_Some (ex_try (rc_execution r)) ->
  exists r', continue now' r ec = Some r' /\ recovery_ok now t r'.
Proof using begin_reach begin_silent.
  intros [cs Hcs] Hf [Hc Hfail] Hn [u Hu]. unfold continue.
  destruct (on_completed_total now' ec _ u Hu) as [e' He']. rewrite He'. eexists. split; [done|].
  assert (exists cs, e' = Failover.run (failover_start now t) cs) as Hrun.
  { exists (cs ++ [(now', ec)]). symmetry. apply run_snoc; rewrite <- Hcs; [by exists u|done]. }
  assert (failed ec = true /\ (exists u', initiate_next_try u ec = Some u')
          \/ failed ec = false \/ initiate_next_try u ec = None) as [[Hec [u' Hu']]|Hend].
  { destruct (failed ec); [destruct (initiate_next_try u ec)|]; eauto. }
  - rewrite (on_completed_next _ _ _ _ _ Hu Hec Hu') in He'. injection He' as <-. split; simpl; [done| |].
    + unfold initiated_since. simpl. rewrite drop_app_length. simpl. by apply Forall2_app; [|constructor].
    + exists (errors ++ [ec]), []. split; [|by split; [|left; split; [eexists|]]].
      unfold initiated_since, calls_so_far. simpl. rewrite drop_app_length. simpl.
      rewrite fmap_app, Hc, fmap_app. simpl. rewrite begin_silent. split; [done|].
      apply Forall_app. by split; [|constructor].
  - rewrite (on_completed_end _ _ _ _ Hu Hend) in He'. injection He' as <-. split; simpl; [done| |].
    + unfold initiated_since. simpl. rewrite drop_all. simpl. by rewrite app_nil_r.
    + exists errors, [ec]. rewrite Hn. split; [|by split; [|right; split; [|eexists]]].
      unfold initiated_since, calls_so_far. simpl. rewrite drop_all. simpl. by rewrite app_nil_r.
Qed.

Lemma update_ok now t r k c s s' : recovery_ok now t r -> rc_operations r !! k = Some s ->
  ex_initiated (rc_execution r) !! k = Some c -> reach c s' ->
  let r' := Recovery (rc_execution r) (<[k := s']> (rc_operations r)) in
  Forall2 reach (ex_initiated (rc_execution r')) (rc_operations r')
  /\ (io_calls s' = io_calls s -> recovery_ok now t r').
Proof using.
  intros [Hrun Hf Hc] Hk Hi Hs' r'.
  assert (Forall2 reach (ex_initiated (rc_execution r')) (rc_operations r')) as Hf'.
  { simpl. rewrite <- (list_insert_id (ex_initiated (rc_execution r)) k c) by done. by apply Forall2_insert. }
  split; [done|]. intros Hcs. split; [done|done|]. destruct Hc as (errors & last & [Hl Hfail] & Hex).
  exists errors, last. split; [|done]. split; [|done]. unfold r'. simpl. by rewrite (calls_insert _ _ s).
Qed.

(** Where the operation of a try stands before and after a completion of it. *)
Lemma recovery_step_result now t r k now' ev c s s' : recovery_ok now t r -> rc_operations r !! k = Some s ->
  ex_initiated (rc_execution r) !! k = Some c -> io_step s ev = Some s' -> reach c s' ->
  exists r', recovery_step k now' ev r = Some r' /\ recovery_ok now t r'.
Proof using All.
  intros Hok Hk Hi Hs Hs'. unfold recovery_step. rewrite Hk. cbn [mbind option_bind]. rewrite Hs. cbn [mbind option_bind].
  destruct (update_ok now t r k c s s' Hok Hk Hi Hs') as [Hf Hsame].
  pose proof (Forall2_lookup_lr _ _ _ _ _ _ (rok_reach _ _ _ Hok) Hi Hk) as Hr.
  destruct (at_most_one _ (one_call s Hr)) as [Hc|[ec Hc]].
  - rewrite Hc. cbn [length drop]. destruct (at_most_one _ (one_call s' Hs')) as [Hc'|[ec Hc']]; rewrite Hc'; simpl.
    + eexists. split; [done|]. apply Hsame. congruence.
    + pose proof Hok as [Hrun _ (errors & last & Hcs & Hex & Htry)].
      destruct (silent_is_last _ _ _ _ _ Hcs Hk Hc) as [-> ->].
      destruct Htry as [[Ht _]|[_ [? ?]]]; [|done].
      apply (continue_ok now t _ now' ec errors); [done|done| |done|done].
      destruct Hcs as [Hcs Hfail]. split; [|done]. simpl. rewrite list_fmap_insert, Hcs, Hc'.
      rewrite insert_app_r_alt by (by rewrite length_fmap). by rewrite length_fmap, Nat.sub_diag.
  - rewrite (call_stays _ _ _ _ Hr Hs Hc), Hc. simpl. eexists. split; [done|]. apply Hsame.
    rewrite Hc. exact (call_stays _ _ _ _ Hr Hs Hc).
Qed.

Lemma recovery_states_ok now t r : recovery_states now t r -> recovery_ok now t r.
Proof using All.
  induction 1 as [|r k now' ev r' _ IH Hs Hr]; [by apply recovery_start_ok|].
  pose proof Hs as Hs0. unfold recovery_step in Hs0.
  destruct (rc_operations r !! k) as [s|] eqn:Hk; [|done]. cbn [mbind option_bind] in Hs0.
  destruct (io_step s ev) as [s'|] eqn:Es; [|done]. cbn [mbind option_bind] in Hs0.
  destruct (Forall2_lookup_r _ _ _ _ _ (rok_reach _ _ _ IH) Hk) as (c & Hc & _).
  assert (reach c s') as Hs'.
  { apply (Hr c s' Hc). eapply continue_all_keeps; [exact Hs0|]. simpl.
    by apply list_lookup_insert_eq, lookup_lt_is_Some; eexists. }
  destruct (recovery_step_result now t r k now' ev c s s' IH Hk Hc Es Hs') as (r1 & Hr1 & Hok). congruence.
Qed.

(** The tries of a bounded strategy. *)
Lemma recovery_bounded `{!BoundedTry T C} now t r : recovery_states now t r ->
  (length (rc_operations r) <= 1 + tries_bound t)%nat.
Proof using All.
  intros [[cs Hrun] Hf _]%recovery_states_ok. rewrite <- (Forall2_length _ _ _ Hf), Hrun.
  exact (proj1 (failover_bounded now t cs)).
Qed.

(** What the interfaces give together: the handler is called at most once, by the
    end of the last try; the tries do not overlap; every completion can be
    handled; when none is to come the handler was called. *)
Lemma recovery_once now t r : recovery_states now t r ->
  (length (ex_calls (rc_execution r)) <= 1)%nat
  /\ (forall k s, rc_operations r !! k = Some s -> (Datatypes.S k < length (rc_operations r))%nat ->
       exists ec, io_calls s = [ec] /\ failed ec = true)
  /\ (forall ec, ex_calls (rc_execution r) = [ec] -> exists s, last (rc_operations r) = Some s /\ io_calls s = [ec])
  /\ ((forall s ev, s ∈ rc_operations r -> ~ io_pending s ev) -> exists ec, ex_calls (rc_execution r) = [ec])
  /\ (forall k c s now' ev, ex_initiated (rc_execution r) !! k = Some c -> rc_operations r !! k = Some s ->
       io_pending s ev -> exists s', io_step s ev = Some s'
         /\ (reach c s' -> exists r', recovery_step k now' ev r = Some r')).
Proof using All.
  intros Hok%recovery_states_ok. pose proof Hok as [[cs Hrun] Hf (errors & lst & [Hc Hfail] & Hex & Htry)].
  assert (exists l s, rc_operations r = l ++ [s] /\ io_calls <$> l = (fun ec => [ec]) <$> errors /\ io_calls s = lst)
    as (l & s & Hops & Hl & Hs).
  { destruct (rc_operations r) as [|s l _] using rev_ind; [by destruct errors|]. rewrite fmap_app in Hc.
    apply app_inj_tail in Hc as [Hc Hs]. by exists l, s. }
  assert (forall k s, l !! k = Some s -> exists ec, io_calls s = [ec] /\ failed ec = true) as Hearlier.
  { intros k s0 Hk. assert ((io_calls <$> l) !! k = Some (io_calls s0)) as Hk' by (by rewrite list_lookup_fmap, Hk).
    rewrite Hl, list_lookup_fmap in Hk'. destruct (errors !! k) as [ec|] eqn:Ek; [|done]. injection Hk' as Hk'.
    exists ec. split; [done|]. rewrite Forall_lookup in Hfail. by eapply Hfail. }
  split_and!.
  - rewrite Hex. destruct Htry as [[_ ->]|[_ [ec ->]]]; simpl; lia.
  - intros k s0 Hk Hlt. rewrite Hops, length_app in Hlt. simpl in Hlt. rewrite Hops, lookup_app_l in Hk by lia.
    by eapply Hearlier.
  - intros ec Hec. exists s. rewrite Hops, last_snoc. split; [done|congruence].
  - intros Hq. destruct Htry as [[_ Hn]|[_ [ec Hec]]]; [|exists ec; congruence]. exfalso.
    assert (exists c, reach c s) as [c Hr].
    { destruct (Forall2_lookup_r _ _ _ (length l) s Hf) as (c & _ & Hr); [|by exists c].
      by rewrite Hops, lookup_app_r, Nat.sub_diag by lia. }
    apply (call_made s Hr); [|congruence]. intros ev. apply Hq. rewrite Hops. apply elem_of_app. right. left.
  - intros k c s0 now' ev Hi Hk Hp. pose proof (Forall2_lookup_lr _ _ _ _ _ _ Hf Hi Hk) as Hr.
    destruct (waits_complete _ ev Hr Hp) as [s' Hs']. exists s'. split; [done|]. intros Hr'.
    destruct (recovery_step_result now t r k now' ev c s0 s' Hok Hk Hi Hs' Hr') as (r' & Hr1 & _). by exists r'.
Qed.

(** ** A failover as an operation *)

#[export] Instance recovery_operation : IoOperation recovery (nat * Z * E) := {
  io_calls r := ex_calls (rc_execution r);
  io_pending r ev := exists s, rc_operations r !! ev.1.1 = Some s /\ io_pending s ev.2;
  io_step r ev := recovery_step ev.1.1 ev.1.2 ev.2 r
}.

Context `{!forall c, StepsOnce S E (reach c)}.

(** A completion of an operation, whatever state it leaves the operation in. *)
Lemma recovery_step_total now t r k now' ev s s' : recovery_ok now t r -> rc_operations r !! k = Some s ->
  io_step s ev = Some s' ->
  exists r', recovery_step k now' ev r = Some r' /\ (length (ex_calls (rc_execution r')) <= 1)%nat
    /\ (ex_calls (rc_execution r) <> [] -> rc_execution r' = rc_execution r).
Proof using All.
  intros Hok Hk Hs. pose proof Hok as [_ Hf (errors & lst & Hc & Hex & Htry)].
  destruct (Forall2_lookup_r _ _ _ _ _ Hf Hk) as (c & _ & Hr).
  assert (length (ex_calls (rc_execution r)) <= 1)%nat as Hle
    by (rewrite Hex; destruct Htry as [[_ ->]|[_ [ec ->]]]; simpl; lia).
  unfold recovery_step. rewrite Hk. cbn [mbind option_bind]. rewrite Hs. cbn [mbind option_bind].
  destruct (at_most_one _ (one_call s Hr)) as [Hcs|[ec Hcs]].
  - rewrite Hcs. cbn [length drop]. destruct (silent_is_last _ _ _ _ _ Hc Hk Hcs) as [-> ->].
    destruct Htry as [[[u Hu] _]|[_ [? ?]]]; [|done].
    destruct (at_most_one _ (step_one_call _ _ _ Hr Hs)) as [Hcs'|[ec Hcs']]; rewrite Hcs'; simpl; [by eexists|].
    unfold continue. simpl. destruct (on_completed_total now' ec _ u Hu) as [e' He']. rewrite He'. eexists.
    split; [done|]. split; [|done]. simpl. unfold on_completed in He'. rewrite Hu in He'. cbn [mbind option_bind] in He'.
    destruct (failed ec); [destruct (initiate_next_try u ec)|]; injection He' as <-; simpl; rewrite Hex; simpl; lia.
  - rewrite (call_stays _ _ _ _ Hr Hs Hcs), Hcs. simpl. by eexists.
Qed.

(** The states of a failover begun at any time. *)
Definition recovered (first_try : Z -> T) (r : recovery) : Prop := exists now, recovery_states now (first_try now) r.

#[export] Instance recovery_one_call first_try : OneCall recovery (nat * Z * E) (recovered first_try).
Proof using All.
  split.
  - intros r [now Hr]. by destruct (recovery_once _ _ _ Hr) as (Hl & _).
  - intros r [[k now'] ev] r' ec [now Hr] Hs Hc. cbn in *. pose proof Hs as Hs0. unfold recovery_step in Hs0.
    destruct (rc_operations r !! k) as [s|] eqn:Hk; [|done]. cbn [mbind option_bind] in Hs0.
    destruct (io_step s ev) as [s'|] eqn:Es; [|done].
    destruct (recovery_step_total _ _ r k now' ev s s' (recovery_states_ok _ _ _ Hr) Hk Es) as (r1 & Hr1 & _ & Hsame).
    rewrite Hs in Hr1. injection Hr1 as <-. rewrite Hsame; [done|]. by rewrite Hc.
  - intros r [now Hr] Hq. destruct (recovery_once _ _ _ Hr) as (_ & _ & _ & Hlast & _).
    destruct Hlast as [ec Hec]; [|cbn; congruence]. intros s ev [k Hk]%list_elem_of_lookup_1 Hp.
    apply (Hq (k, 0, ev)). cbn. by exists s.
  - intros r [[k now'] ev] [now Hr] (s & Hk & Hp). cbn in *. pose proof (recovery_states_ok _ _ _ Hr) as Hok.
    destruct (Forall2_lookup_r _ _ _ _ _ (rok_reach _ _ _ Hok) Hk) as (c & _ & Hrc).
    destruct (waits_complete _ ev Hrc Hp) as [s' Hs'].
    destruct (recovery_step_total _ _ r k now' ev s s' Hok Hk Hs') as (r' & Hr' & _). by exists r'.
Qed.

#[export] Instance recovery_steps_once first_try : StepsOnce recovery (nat * Z * E) (recovered first_try).
Proof using All.
  intros r [[k now'] ev] r' [now Hr] Hs. cbn in *. pose proof Hs as Hs0. unfold recovery_step in Hs0.
  destruct (rc_operations r !! k) as [s|] eqn:Hk; [|done]. cbn [mbind option_bind] in Hs0.
  destruct (io_step s ev) as [s'|] eqn:Es; [|done].
  destruct (recovery_step_total _ _ r k now' ev s s' (recovery_states_ok _ _ _ Hr) Hk Es) as (r1 & Hr1 & Hl & _).
  congruence.
Qed.
End recovering.
Arguments recovery : clear implicits.

(** ** Requests through a provider *)

Section asked.
Context {L R : Type} `{libpq L R} (results_left : L -> nat).
Context (process : R -> may_throw ()) (what : exn -> string).
Abbreviation io := (request_operation results_left process what).

(** [async_request] and [async_execute] as the initiators call them: the provider
    was asked for a connection, or the request runs on it. *)
Inductive asked := getting_connection (t : time_constraint) | on_connection (o : timed (request L R)).
Inductive asked_event :=
| connection_got (ec : error_code) (l : L)
| request_event (ev : timed_event Request.event).

#[export] Instance asked_operation : IoOperation asked asked_event := {
  io_calls a :=
    match a with
    | getting_connection _ => []
    | on_connection o => user_calls (H := io) o
    end;
  io_pending a ev :=
    match a, ev with
    | getting_connection _, connection_got _ _ => True
    | on_connection o, request_event (operation_event e) => io_pending (IoOperation := io) (inner o) e
    | on_connection o, request_event (timer_event _) => timer_pending o = true
    | _, _ => False
    end;
  io_step a ev :=
    match a, ev with
    | getting_connection t, connection_got ec l => on_connection <$> async_request_op results_left process what t ec l
    | on_connection o, request_event ev => on_connection <$> timed_step (H := io) o ev
    | _, _ => None
    end
}.

(** A request with the time constraint [t], no result being reported early. *)
Definition asked_reach (t : time_constraint) (a : asked) : Prop :=
  match a with
  | getting_connection t' => t' = t
  | on_connection o => exists ec l, request_runs results_left process what t ec l o
  end.

Lemma async_request_op_total `{!libpq_laws L R results_left} t ec l :
  exists o, async_request_op results_left process what t ec l = Some o.
Proof.
  destruct (request_start_total results_left process what ec l) as (s & Hs & Hlen).
  unfold async_request_op. rewrite Hs. cbn [mbind option_bind]. destruct (failed ec); [by eexists|].
  destruct t; simpl; [by eexists| |]; destruct (at_most_one _ Hlen) as [->|[c ->]]; simpl; by eexists.
Qed.

#[export] Instance asked_one_call `{!Inhabited L, !libpq_laws L R results_left} t : OneCall asked asked_event (asked_reach t).
Proof.
  assert (forall o ec l, request_runs results_left process what t ec l o ->
    timed_ok (H := io) (orderly results_left process what ec l) o /\ timed_states (H := io)
      (orderly results_left process what ec l) (if failed ec then tc_none else t) o) as Hruns.
  { intros o ec l Ho%request_runs_timed; [|done]. split; [exact (timed_states_ok _ _ _ Ho)|done]. }
  split.
  - intros [t'|o] Ha; simpl; [lia|]. destruct Ha as (ec & l & Ho). destruct (Hruns _ _ _ Ho) as [_ Hs].
    by destruct (timed_once _ _ _ Hs) as (H1 & _).
  - intros [t'|o] ev a' c Ha Hs Hc; [done|]. destruct Ha as (ec & l & Ho). destruct (Hruns _ _ _ Ho) as [Hok _].
    destruct ev as [|ev]; [done|]. cbn in Hs. destruct (timed_step _ ev) as [o'|] eqn:Es; [|done].
    injection Hs as <-. exact (timed_call_stays _ _ _ _ _ Hok Es Hc).
  - intros [t'|o] Ha Hq; [by destruct (Hq (connection_got ec_default inhabitant))|].
    destruct Ha as (ec & l & Ho). destruct (Hruns _ _ _ Ho) as [_ Hs].
    destruct (timed_once _ _ _ Hs) as (_ & _ & H3 & _). destruct H3 as [c Hc]; [| |cbn; by rewrite Hc].
    + pose proof (Hq (request_event (timer_event ec_default))) as Ht. cbn in Ht. by destruct (timer_pending o).
    + intros e. exact (Hq (request_event (operation_event e))).
  - intros [t'|o] ev Ha Hp; destruct ev as [ec l|ev]; cbn in Hp |- *; try done.
    + destruct (async_request_op_total t' ec l) as [o ->]. by eexists.
    + destruct Ha as (ec & l & Ho). destruct (Hruns _ _ _ Ho) as [Hok Hs]. destruct ev as [e|c].
      * destruct (timed_once _ _ _ Hs) as (_ & _ & _ & H4 & _). destruct (H4 e Hp) as (s & Es & _).
        pose proof (orderly_step_one_call results_left process what ec l _ _ _ (proj1 Hok) Es) as Hl.
        destruct (timed_operation_total _ _ e s Hok Es Hl) as (o' & -> & _). by eexists.
      * destruct (timed_once _ _ _ Hs) as (_ & _ & _ & _ & H5). destruct (H5 c Hp) as [o' ->]. by eexists.
Qed.

#[export] Instance asked_steps_once `{!libpq_laws L R results_left} t : StepsOnce asked asked_event (asked_reach t).
Proof.
  intros [t'|o] ev a' Ha Hs; destruct ev as [ec l|ev]; cbn in Hs; try done.
  - destruct (async_request_op _ _ _ t' ec l) as [o|] eqn:Eo; [|done]. injection Hs as <-. cbn.
    destruct (request_start_total results_left process what ec l) as (s & Hs & Hl).
    unfold async_request_op in Eo. rewrite Hs in Eo. cbn [mbind option_bind] in Eo.
    destruct (failed ec); [by injection Eo as <-|].
    destruct t'; simpl in Eo; [by injection Eo as <-| |];
      destruct (at_most_one _ Hl) as [Hc|[c Hc]]; rewrite Hc in Eo; simpl in Eo; injection Eo as <-; simpl; lia.
  - destruct Ha as (ec & l & Ho). pose proof (request_runs_timed _ _ _ _ _ _ _ Ho) as Ht.
    pose proof (timed_states_ok _ _ _ Ht) as Hok.
    destruct (timed_step o ev) as [o'|] eqn:Es; [|done]. injection Hs as <-. destruct ev as [e|c].
    + apply (timed_operation_one_call _ o e o' Hok Es). pose proof Es as Es0. cbn [timed_step] in Es0.
      destruct (io_step (inner o) e) as [s|] eqn:Ei; [|done].
      pose proof (orderly_step_one_call results_left process what ec l _ _ _ (proj1 Hok) Ei) as Hl.
      destruct (timed_operation_total _ o e s Hok Ei Hl) as (o2 & Ho2 & Hi).
      assert (o2 = o') as <- by congruence. by rewrite Hi.
    + destruct (timed_timer_ok _ o c Hok) as (o2 & Ho2 & _ & Hok2).
      { cbn [timed_step] in Es. unfold timer_pending. destruct (deadline_of o) as [d|]; [|done].
        cbn [mbind option_bind] in Es. unfold on_timer in Es. by destruct (timer_ctx d). }
      assert (o2 = o') as -> by congruence. by destruct (timed_calls _ o' Hok2) as (Hl & _).
Qed.
End asked.
Arguments asked : clear implicits.
Arguments asked_event : clear implicits.


(** ** Operation objects *)

(** What [request], [execute] and [get_connection] are ([base_async_operation]): an
    initiator that begins the operation with its arguments, [C]; what it promises is
    the interface. *)
Record operation (C : Type) := Operation {
  op_state : Type;
  op_event : Type;
  op_io : IoOperation op_state op_event;
  op_begin : Z -> C -> op_state;
  op_reach : C -> op_state -> Prop;
  op_once : forall c, OneCall op_state op_event (op_reach c);
  op_steps : forall c, StepsOnce op_state op_event (op_reach c);
  op_begin_reach : forall now c, op_reach c (op_begin now c);
  op_begin_silent : forall now c, io_calls (op_begin now c) = []
}.
Arguments Operation {C} _ _ _ _ _ _ _ _ _.
Arguments op_state {C} _.
Arguments op_event {C} _.
Arguments op_io {C} _.
Arguments op_begin {C} _ _ _.
Arguments op_reach {C} _ _ _.
Arguments op_once {C} _ _.
Arguments op_steps {C} _ _.
Arguments op_begin_reach {C} _ _ _.
Arguments op_begin_silent {C} _ _ _.
#[export] Existing Instance op_io.
#[export] Existing Instance op_once.
#[export] Existing Instance op_steps.

(** [initiate_async_request], [initiate_async_execute]: an operation on a provider, a
    time constraint and the rest of the arguments. *)
Definition request_object (P A : Type) {L R : Type} `{libpq L R} (results_left : L -> nat) (process : R -> may_throw ())
    (what : exn -> string) (Hinh : Inhabited L) (Hlaws : libpq_laws L R results_left) :
    operation (P * time_constraint * A) :=
  Operation (asked L R) (asked_event L) (asked_operation results_left process what)
    (fun _ c => getting_connection c.1.2) (fun c => asked_reach results_left process what c.1.2)
    (fun c => asked_one_call results_left process what c.1.2) (fun c => asked_steps_once results_left process what c.1.2)
    (fun _ c => eq_refl c.1.2) (fun _ _ => eq_refl).

(** [op[strategy]]: [construct_initiator] makes the initiator
    [operation_initiator(strategy, op)], which begins with [get_first_try]. *)
Definition with_failover {T C C' : Type} `{FailoverTry T C} (get_first_try : Z -> C' -> T) (op : operation C) :
    operation C' :=
  Operation (recovery (op_state op) T C) (nat * Z * op_event op) (recovery_operation (op_begin op))
    (fun now c => recovery_start (op_begin op) now (get_first_try now c))
    (fun c => recovered (op_begin op) (op_reach op) (fun now => get_first_try now c))
    (fun c => recovery_one_call _ _ (op_begin_reach op) (op_begin_silent op) _)
    (fun c => recovery_steps_once _ _ (op_begin_reach op) (op_begin_silent op) _)
    (fun now c => ex_intro _ now (recovery_starts _ _ _ _)) (fun _ _ => eq_refl).

(** The states of [op[strategy]]. *)
Lemma failover_step {T C C' : Type} `{FailoverTry T C} (get_first_try : Z -> C' -> T) (op : operation C) (c : C')
    (r : op_state (with_failover get_first_try op)) k now ev r' :
  op_reach (with_failover get_first_try op) c r -> recovery_step (op_begin op) k now ev r = Some r' ->
  (forall c s, ex_initiated (rc_execution r) !! k = Some c -> rc_operations r' !! k = Some s -> op_reach op c s) ->
  op_reach (with_failover get_first_try op) c r'.
Proof. intros [now0 Hr] Hs Hk. exists now0. by eapply recovery_steps. Qed.

Module Recovering.

(** C11: an operation under a failover strategy, where the operation is a request
    or is itself under another strategy, as long as no request has a result reported
    before its query was sent: in any order of connections got, socket completions and
    timers, also those that earlier tries left behind, the user's handler is called at
    most once, with the code of the last try; a try begins only after every try before
    it has failed, and where the strategy bounds its tries, as those of the library
    do, there are no more; every completion can be handled; and when none is to come
    the handler was called. *)
Theorem failover_calls_handler_once {T C C' : Type} `{F : FailoverTry T C} (get_first_try : Z -> C' -> T)
    (op : operation C) (c : C') (r : op_state (with_failover get_first_try op)) :
  op_reach (with_failover get_first_try op) c r ->
  (length (io_calls r) <= 1)%nat
  /\ (forall B : BoundedTry T C, exists now, (length (rc_operations r) <= 1 + tries_bound (get_first_try now c))%nat)
  /\ (forall k s, rc_operations r !! k = Some s -> (S k < length (rc_operations r))%nat ->
       exists ec, io_calls s = [ec] /\ failed ec = true)
  /\ (forall ec, io_calls r = [ec] -> exists s, last (rc_operations r) = Some s /\ io_calls s = [ec])
  /\ ((forall s ev, s ∈ rc_operations r -> ~ io_pending s ev) -> exists ec, io_calls r = [ec])
  /\ (forall k s now ev, rc_operations r !! k = Some s -> io_pending s ev ->
       is_Some (recovery_step (op_begin op) k now ev r)).
Proof.
  intros [now Hr].
  destruct (recovery_once _ _ (op_begin_reach op) (op_begin_silent op) now _ r Hr) as (H1 & H3 & H4 & H5 & _).
  split_and!; [done| |done|done|done|].
  { intros B. exists now. exact (recovery_bounded _ _ (op_begin_reach op) (op_begin_silent op) now _ r Hr). }
  intros k s now' ev Hk Hp.
  destruct (waits_complete (OneCall := op_once (with_failover get_first_try op) c) r (k, now', ev)) as [r' Hr'];
    [by exists now|by exists s|by exists r'].
Qed.

(** [request[retry][retry]]: the inner strategy tries twice without a connection,
    the outer one begins again and the request succeeds. *)
Lemma failover_calls_handler_once_witness :
  let op := request_object () () (fun l => length (sc_results l)) (fun _ => Return tt) (fun _ => "")
              (populate (Script [] [])) script_laws in
  let twice now c := retry_first_try now 2 [] c.1.1 c.1.2 c.2 in
  let c0 := (tt, tc_none, tt) in
  let op1 := with_failover twice op in
  let op2 := with_failover twice op1 in
  exists r : op_state op2, op_reach op2 c0 r /\ io_calls r = [ec_default] /\ length (rc_operations r) = 2%nat
    /\ exists s, last (rc_operations r) = Some s /\ io_calls s = [ec_default].
Proof.
  intros op twice c0 op1 op2. pose (refused := ec_ozo pq_connection_start_failed).
  pose (l := Script [qs_send_finish] [PGRES_COMMAND_OK]).
  pose (got ec := connection_got ec l : op_event op).
  assert (forall ec a, io_step (op_begin op 0 c0) (got ec) = Some a ->
            match a with on_connection o => rq_state (inner o) <> qs_send_in_progress | _ => False end ->
            op_reach op c0 a) as Hop.
  { intros ec [t|o] Ho Hs; [done|]. exists ec, l. apply request_runs_start; [|by intros [_ He]].
    cbn in Ho. destruct (async_request_op _ _ _ _ _ _); by simplify_eq/=. }
  pose (i0 := op_begin op1 0 c0). pose (r0 := op_begin op2 0 c0).
  pose (n := 0%nat). pose (m := 1%nat).
  destruct (recovery_step (op_begin op) n 1 (got refused) i0) as [i1|] eqn:F1; [|vm_compute in F1; discriminate F1].
  assert (op_reach op1 c0 i1) as Hi1.
  { apply (failover_step twice op c0 i0 n 1 (got refused) i1); [apply op_begin_reach|exact F1|].
    vm_compute in F1. injection F1 as <-. intros c s [= <-] [= <-]. apply (Hop refused); [reflexivity|discriminate]. }
  destruct (recovery_step (op_begin op) m 2 (got refused) i1) as [i2|] eqn:F2;
    [|vm_compute in F1; injection F1 as <-; vm_compute in F2; discriminate F2].
  assert (op_reach op1 c0 i2) as Hi2.
  { apply (failover_step twice op c0 i1 m 2 (got refused) i2); [exact Hi1|exact F2|].
    vm_compute in F1. injection F1 as <-. vm_compute in F2. injection F2 as <-.
    intros c s [= <-] [= <-]. apply (Hop refused); [reflexivity|discriminate]. }
  pose (j0 := op_begin op1 2 c0).
  destruct (recovery_step (op_begin op) n 3 (got ec_default) j0) as [j1|] eqn:G1; [|vm_compute in G1; discriminate G1].
  assert (op_reach op1 c0 j1) as Hj1.
  { apply (failover_step twice op c0 j0 n 3 (got ec_default) j1); [apply op_begin_reach|exact G1|].
    vm_compute in G1. injection G1 as <-. intros c s [= <-] [= <-]. apply (Hop ec_default); [reflexivity|discriminate]. }
  pose (r1 := Recovery (rc_execution r0) [i1] : op_state op2).
  assert (op_reach op2 c0 r1) as Hr1.
  { apply (failover_step twice op1 c0 r0 n 1 (n, 1, got refused) r1); [apply op_begin_reach| |].
    - vm_compute in F1. injection F1 as <-. reflexivity.
    - by intros c s [= <-] [= <-]. }
  destruct (recovery_step (op_begin op1) n 2 (m, 2, got refused) r1) as [r2|] eqn:E2;
    [|vm_compute in F1; injection F1 as <-; vm_compute in E2; discriminate E2].
  assert (rc_operations r2 = [i2; j0]) as Ho2.
  { vm_compute in F1. injection F1 as <-. vm_compute in F2. injection F2 as <-. vm_compute in E2.
    injection E2 as <-. reflexivity. }
  assert (op_reach op2 c0 r2) as Hr2.
  { apply (failover_step twice op1 c0 r1 n 2 (m, 2, got refused) r2); [exact Hr1|exact E2|].
    intros c s [= <-] Hs. rewrite Ho2 in Hs. injection Hs as <-. exact Hi2. }
  destruct (recovery_step (op_begin op1) m 3 (n, 3, got ec_default) r2) as [r3|] eqn:E3;
    [|vm_compute in F1; injection F1 as <-; vm_compute in E2; injection E2 as <-; vm_compute in E3; discriminate E3].
  assert (rc_operations r3 = [i2; j1] /\ ex_initiated (rc_execution r2) !! m = Some c0 /\ ex_calls (rc_execution r3) = [ec_default])
    as (Ho3 & Hc2 & Hc3).
  { vm_compute in F1. injection F1 as <-. vm_compute in F2. injection F2 as <-. vm_compute in G1. injection G1 as <-.
    vm_compute in E2. injection E2 as <-. vm_compute in E3. injection E3 as <-. split_and!; reflexivity. }
  assert (op_reach op2 c0 r3) as Hr3.
  { apply (failover_step twice op1 c0 r2 m 3 (n, 3, got ec_default) r3); [exact Hr2|exact E3|].
    intros c s Hc Hs. rewrite Hc2 in Hc. injection Hc as <-. rewrite Ho3 in Hs. injection Hs as <-. exact Hj1. }
  exists r3. split; [exact Hr3|]. split; [exact Hc3|]. split; [by rewrite Ho3|].
  destruct (failover_calls_handler_once twice op1 c0 r3 Hr3) as (_ & _ & _ & H4 & _). exact (H4 _ Hc3).
Defined.

End Recovering.
