(* ===== verification/Transaction.v ===== *)
(** * Transactions: [transaction_options.h], [detail/begin_statement_builder.h],
      [transaction.h], [impl/transaction.h]

    The value [none] of an option is kept apart from the option being absent, as
    the source has it. *)

From S2P Require Import Prelude Words Time Errors Options Wrapped Connection Providers Operations Query.
Import Deadline.
#[local] Open Scope string_scope.
#[local] Open Scope list_scope.
#[local] Open Scope Z_scope.

(** ** [transaction_options.h] *)
Inductive isolation_level := serializable | repeatable_read | read_committed | read_uncommitted.
Inductive transaction_mode := read_write | read_only.
#[export] Instance isolation_level_eq_dec : EqDecision isolation_level.
Proof. solve_decision. Defined.
#[export] Instance transaction_mode_eq_dec : EqDecision transaction_mode.
Proof. solve_decision. Defined.

Inductive transaction_option := opt_isolation_level | opt_mode | opt_deferrability.
#[export] Instance transaction_option_eq_dec : EqDecision transaction_option.
Proof. solve_decision. Defined.

(** The value of a transaction option; [is_none] is [ozo::none]. *)
Inductive option_value :=
| is_none
| is_level (l : isolation_level)
| is_mode (m : transaction_mode)
| is_deferrable (b : bool).
#[export] Instance option_value_eq_dec : EqDecision option_value.
Proof. solve_decision. Defined.

Definition transaction_options := list (transaction_option * option_value).

(** ** [detail/begin_statement_builder.h] *)
Module Begin.

Definition sql_level (l : isolation_level) : string :=
  match l with
  | serializable => "SERIALIZABLE"
  | repeatable_read => "REPEATABLE READ"
  | read_committed => "READ COMMITTED"
  | read_uncommitted => "READ UNCOMMITTED"
  end.

(** The overload set [to_string(option, value)]; [None] does not compile. *)
Definition to_string (k : transaction_option) (v : option_value) : option string :=
  match k, v with
  | opt_isolation_level, is_level l => Some (" ISOLATION LEVEL " +:+ sql_level l)
  | opt_mode, is_mode read_write => Some " READ WRITE"
  | opt_mode, is_mode read_only => Some " READ ONLY"
  | opt_deferrability, is_deferrable true => Some " DEFERRABLE"
  | opt_deferrability, is_deferrable false => Some " NOT DEFERRABLE"
  | _, _ => None
  end.

Definition supported_options : list transaction_option :=
  [opt_isolation_level; opt_mode; opt_deferrability].

(** [real_options] of [build]: the options among [supported] that the map
    contains with a value. *)
Definition real_options (options : transaction_options) (supported : list transaction_option) :
    list transaction_option :=
  filter (fun k => Options.find_option options k <> Some is_none)
    (filter (fun k => Options.has options k = true) supported).

(** [begin_statement_builder::build(options)] *)
Definition build (options : transaction_options) : option string :=
  strings ← mapM (fun k => v ← Options.find_option options k; to_string k v)
              (real_options options supported_options);
  Some ("BEGIN" +:+ foldr String.append "" strings).

(** The options a statement asks for. *)
Definition requested (options : transaction_options) (k : transaction_option) : option_value :=
  Options.get_option options k is_none.

(** The text as a function of the requested values. *)
Definition part (k : transaction_option) (v : option_value) : option string :=
  match v with is_none => Some "" | v => to_string k v end.
Definition statement (l m d : option_value) : option string :=
  sl ← part opt_isolation_level l; sm ← part opt_mode m; sd ← part opt_deferrability d;
  Some ("BEGIN" +:+ (sl +:+ (sm +:+ sd))).

Lemma has_find (options : transaction_options) k :
  Options.has options k = match Options.find_option options k with Some _ => true | None => false end.
Proof.
  unfold Options.has. induction options as [|[k' v] o IH]; [done|].
  rewrite fmap_cons. cbn [Options.find_option fst].
  destruct (decide (k' = k)) as [->|Hne].
  - apply bool_decide_eq_true_2, elem_of_cons. by left.
  - rewrite <- IH. apply bool_decide_ext. rewrite elem_of_cons. naive_solver.
Qed.

(** An option adds its text, if it is requested. *)
Lemma strings_cons (options : transaction_options) k ks :
  let f k := v ← Options.find_option options k; to_string k v in
  mapM f (real_options options (k :: ks))
  = match requested options k with
    | is_none => mapM f (real_options options ks)
    | v => s ← to_string k v; ss ← mapM f (real_options options ks); Some (s :: ss)
    end.
Proof.
  cbv zeta. unfold real_options, requested, Options.get_option. rewrite filter_cons, has_find.
  destruct (Options.find_option options k) as [v|] eqn:E.
  - rewrite decide_True by done. destruct v.
    1: by rewrite filter_cons_False by (rewrite E; naive_solver).
    all: rewrite filter_cons_True by (by rewrite E); cbn [mapM]; rewrite E; reflexivity.
  - by rewrite decide_False.
Qed.

Lemma build_statement (options : transaction_options) :
  build options = statement (requested options opt_isolation_level)
                    (requested options opt_mode) (requested options opt_deferrability).
Proof.
  unfold build, statement, supported_options. rewrite !strings_cons.
  destruct (requested options opt_isolation_level) as [|[]|[]|[]],
    (requested options opt_mode) as [|[]|[]|[]],
    (requested options opt_deferrability) as [|[]|[]|[]]; reflexivity.
Qed.

(** The values an option can be given. *)
Definition level_values : list option_value :=
  is_none :: (is_level <$> [serializable; repeatable_read; read_committed; read_uncommitted]).
Definition mode_values : list option_value := is_none :: (is_mode <$> [read_write; read_only]).
Definition deferrable_values : list option_value := is_none :: (is_deferrable <$> [true; false]).

Definition all_requests : list (option_value * option_value * option_value) :=
  l ← level_values; m ← mode_values; d ← deferrable_values; [(l, m, d)].

Lemma statements_differ :
  NoDup ((fun x : option_value * option_value * option_value => statement x.1.1 x.1.2 x.2) <$> all_requests).
Proof. apply (bool_decide_unpack _). vm_compute. exact I. Qed.

Lemma statement_requests l m d s : statement l m d = Some s -> (l, m, d) ∈ all_requests.
Proof.
  intros H. apply (bool_decide_unpack _).
  destruct l as [|[]|[]|[]], m as [|[]|[]|[]], d as [|[]|[]|[]]; try discriminate H;
    vm_compute; exact I.
Qed.

(** The text of the BEGIN statement depends on the requested isolation
    level, mode and deferrability only, an option set to [none] counting as one
    that is not set, and two options maps that compile give the same statement
    exactly when they request the same; with all three requested the text spells
    them out in this order. *)
Theorem begin_statement_determines_options (o1 o2 : transaction_options) (s1 s2 : string) :
  build o1 = Some s1 -> build o2 = Some s2 ->
  (s1 = s2 <-> forall k, requested o1 k = requested o2 k)
  /\ (forall l m d, requested o1 opt_isolation_level = is_level l ->
      requested o1 opt_mode = is_mode m -> requested o1 opt_deferrability = is_deferrable d ->
      s1 = "BEGIN ISOLATION LEVEL " +:+ sql_level l
           +:+ (match m with read_write => " READ WRITE" | read_only => " READ ONLY" end)
           +:+ (if d then " DEFERRABLE" else " NOT DEFERRABLE")).
Proof.
  intros H1 H2. rewrite build_statement in H1, H2. split; [split|].
  - intros <-. pose proof (statement_requests _ _ _ _ H1) as Hi1.
    pose proof (statement_requests _ _ _ _ H2) as Hi2.
    apply list_elem_of_lookup in Hi1 as [i Hi1], Hi2 as [j Hi2].
    assert (i = j) as <-.
    { apply (proj1 (NoDup_alt _) statements_differ i j (Some s1)); rewrite list_lookup_fmap.
      - by rewrite Hi1, <- H1.
      - by rewrite Hi2, <- H2. }
    rewrite Hi1 in Hi2. injection Hi2 as E1 E2 E3. by intros [].
  - intros Hr. rewrite !Hr in H1. congruence.
  - intros l m d El Em Ed. rewrite El, Em, Ed in H1.
    destruct l, m, d; cbn in H1; injection H1 as <-; reflexivity.
Qed.

End Begin.

(** ** [transaction.h], [impl/transaction.h] *)

(** [transaction<Connection, Options>] *)
Record transaction := Transaction {
  impl_ : wrapped connection;
  options_ : transaction_options
}.

Section transaction.
Context (PQstatus : handle -> conn_status).

(** [transaction::is_null()] *)
Definition transaction_is_null (t : transaction) : bool := wrapper_is_null (impl_ t).

(** [lowest_layer()]: one unwrapping; [None] dereferences null, or the handle has
    more wrappers and does not compile. *)
Definition lowest_layer (t : transaction) : option connection :=
  match unwrap (impl_ t) with
  | Some (Bare c) => Some c
  | _ => None
  end.

(** The members that forward to the lowest layer. *)
Definition transaction_native_handle (t : transaction) : option (option handle) :=
  handle_ <$> lowest_layer t.
Definition transaction_error_context (t : transaction) : option string :=
  error_context_ <$> lowest_layer t.
Definition transaction_is_bad (t : transaction) : option bool := is_bad PQstatus <$> lowest_layer t.
Definition transaction_set_error_context (v : string) (t : transaction) : option transaction :=
  _ ← lowest_layer t; Some (Transaction (update_wrapped (set_error_context v) (impl_ t)) (options_ t)).
Definition transaction_close (t : transaction) (finished : list handle) :
    option (error_code * transaction * list handle) :=
  c ← lowest_layer t;
  Some (ec_default, Transaction (update_wrapped (fun c => (close c []).1) (impl_ t)) (options_ t),
        (close c finished).2).

(** [transaction::operator bool()]: [!(is_null() || is_bad())], and
    [transaction::is_open()]: [!is_null() && lowest_layer().is_open()]. *)
Definition transaction_bool (t : transaction) : option bool :=
  if transaction_is_null t then Some false else negb <$> transaction_is_bad t.
Definition transaction_is_open (t : transaction) : option bool :=
  if transaction_is_null t then Some false else is_open <$> lowest_layer t.

(** [release_connection(transaction&&)] *)
Definition release_connection (t : transaction) : wrapped connection := impl_ t.

(** [get_transaction_isolation_level], [get_transaction_mode],
    [get_transaction_deferrability] *)
Definition get_transaction_option (t : transaction) (k : transaction_option) : option_value :=
  Options.get_option (options_ t) k is_none.

(** [begin_op::operator()(provider, t, token)]: the statement, how the connection is
    got for it, and the time constraint of its execution; the clock is read twice. *)
Definition begin_op (options : transaction_options) (now now' : Z) (p : provider) (t : time_constraint) :
    option (string * (getting * time_constraint)) :=
  text ← Begin.build options; op ← async_request now now' p t; Some (text, op).

(** [async_start_transaction_op::operator()(ec, connection)]: the arguments of the
    handler. *)
Definition start_transaction_done (options : transaction_options) (ec : error_code)
    (conn : wrapped connection) : error_code * transaction :=
  (ec, Transaction conn options).

(** [commit_op] and [rollback_op]: the transaction is the connection the statement is
    executed on, so it is forwarded with its error context cleared. *)
Inductive ending := commit | rollback.
Definition end_query (e : ending) : string := match e with commit => "COMMIT" | rollback => "ROLLBACK" end.
Definition end_op (e : ending) (now : Z) (t : transaction) (tc : time_constraint) :
    option (string * transaction * time_constraint) :=
  t ← transaction_set_error_context "" t; Some (end_query e, t, deadline now tc).

(** [async_end_transaction_op::operator()(ec, transaction)] *)
Definition end_transaction_done (ec : error_code) (t : transaction) : error_code * wrapped connection :=
  (ec, release_connection t).

(** The handles a transaction can be made of. *)
Definition handle_type_ok (w : wrapped connection) : bool :=
  match w with
  | Bare _ => true
  | Wrap k (Some (Bare _)) | Wrap k None => wrapper_unwraps k && bound w
  | _ => false
  end.

(** A transaction tells of its connection what the connection tells, and the two
    members that may be asked of a null one do not touch it; beginning and
    ending a transaction, whatever comes of the statements, gives the connection
    back as it was, but for its error context. *)
Lemma transaction_is_its_connection (o : transaction_options) (w : wrapped connection) (e : ending)
    (now : Z) (tc : time_constraint) (ec1 ec2 : error_code) : handle_type_ok w = true ->
  let t := (start_transaction_done o ec1 w).2 in
  lowest_layer t = unwrap_recursive w
  /\ transaction_native_handle t = get_native_handle w
  /\ transaction_bool t = connection_good PQstatus w
  /\ (transaction_is_null t = true -> transaction_bool t = Some false /\ transaction_is_open t = Some false
        /\ end_op e now t tc = None)
  /\ (forall q t' tc', end_op e now t tc = Some (q, t', tc') ->
        q = end_query e /\ tc' = deadline now tc /\ options_ t' = o
        /\ end_transaction_done ec2 t' = (ec2, update_wrapped (set_error_context "") w))
  /\ forall k, get_transaction_option t k = Options.get_option o k is_none.
Proof.
  intros Hw. cbv zeta. unfold end_op, transaction_set_error_context, transaction_bool, transaction_is_open,
    transaction_is_null, transaction_is_bad, transaction_native_handle, lowest_layer, get_native_handle,
    connection_good, connection_bad.
  destruct w as [c|k [[c|k2 w2]|]]; simpl in Hw |- *; [|destruct (wrapper_unwraps k); [|done]|done|].
  - split_and!; try done. intros q t' tc' Hq. by simplify_eq/=.
  - rewrite andb_false_r. simpl. split_and!; try done. intros q t' tc' Hq. by simplify_eq/=.
  - apply andb_true_iff in Hw as [-> ->]. simpl. split_and!; try done.
Qed.

End transaction.
