(* ===== verification/Facades.v ===== *)
(** * The operations as a user calls them: [request.h], [execute.h], [connection.h],
      [transaction.h], [asio.h] and the contexts of [failover/strategy.h]

    [request], [execute], [get_connection] and [begin] are objects with an initiator;
    a call hands the initiator its arguments in an order of its own, [op[strategy]] is
    an object whose initiator takes the arguments apart and hands them, changed for a
    try, to the initiator of [op], when the try begins.  The arguments are a list here,
    and a call whose argument types do not fit does not compile: [None]. *)

From S2P Require Import Prelude Words Time Errors Options.
From S2P Require Import Wrapped Connection Providers Failover Operations Transaction.
Import Deadline.
#[local] Open Scope string_scope.
#[local] Open Scope list_scope.
#[local] Open Scope Z_scope.

Module Facades.

(** The arguments of initiators; where the results go is identified by a number. *)
Inductive argument :=
| a_provider (p : provider)
| a_transaction (t : transaction)
| a_time (t : time_constraint)
| a_query (text : string)
| a_out (out : nat)
| a_options (o : transaction_options).

(** The functions initiators call: [impl::async_request], [impl::async_execute],
    [async_get_connection], [async_start_transaction], [async_end_transaction]. *)
Inductive started :=
| async_request_of (p : provider) (query : string) (t : time_constraint) (out : nat)
| async_execute_of (p : provider) (query : string) (t : time_constraint)
| async_get_connection_of (p : provider) (t : time_constraint)
| async_start_transaction_of (p : provider) (o : transaction_options) (query : string) (t : time_constraint)
| async_end_transaction_of (tr : transaction) (query : string) (t : time_constraint).

(** [retry(conditions...)*n] and [role_based(first, rest...)] *)
Inductive strategy := retry_of (n : Z) (conditions : list errc) | role_of (first : role) (rest : list role).

Inductive initiator :=
| initiate_async_request
| initiate_async_execute
| initiate_async_get_connection
| initiate_async_start_transaction
| initiate_async_end_transaction
| operation_initiator (s : strategy) (op : initiator).

(** How the tries of a strategy ended so far: when, with which code. *)
Definition history := list (Z * error_code).

(** The context of the try a failover has come to, and when the try began; [None]: the
    failover is over. *)
Definition current_try {T C : Type} `{FailoverTry T C} (now : Z) (first_try : T) (h : history) : option (Z * C) :=
  let e := run (failover_start now first_try) h in
  _ ← ex_try e; c ← last (ex_initiated e); Some (default now (last h.*1), c).

(** [operation_initiator::operator()] and the [continuation]s after it: the first try is
    made of the arguments at [now], the second of which has to model
    [TimeConstraint]; the arguments the try after [h] initiates its operation with. *)
Definition try_arguments (now : Z) (s : strategy) (h : history) (args : list argument) :
    option (Z * list argument) :=
  match args with
  | a_provider p :: a_time t :: args =>
      match s with
      | retry_of n conditions =>
          '(at_, (p, t, args)) ← current_try now (retry_first_try now n conditions p t args) h;
          Some (at_, a_provider p :: a_time t :: args)
      | role_of first rest =>
          '(at_, (p, t, args)) ← current_try now (role_first_try now first rest (Some p) t args) h;
          p ← p;
          Some (at_, a_provider p :: a_time t :: args)
      end
  | _ => None
  end.

(** The call operators of the initiators, which take their arguments in their own order. *)
Definition call_async_request (args : list argument) : option started :=
  match args with
  | [a_provider p; a_time t; a_query q; a_out out] => Some (async_request_of p q t out)
  | _ => None
  end.
Definition call_async_execute (args : list argument) : option started :=
  match args with
  | [a_provider p; a_time t; a_query q] => Some (async_execute_of p q t)
  | _ => None
  end.
Definition call_async_get_connection (args : list argument) : option started :=
  match args with
  | [a_provider p; a_time t] => Some (async_get_connection_of p t)
  | _ => None
  end.
Definition call_async_start_transaction (args : list argument) : option started :=
  match args with
  | [a_provider p; a_options o; a_query q; a_time t] => Some (async_start_transaction_of p o q t)
  | _ => None
  end.
Definition call_async_end_transaction (args : list argument) : option started :=
  match args with
  | [a_transaction tr; a_query q; a_time t] => Some (async_end_transaction_of tr q t)
  | _ => None
  end.

(** The initiator is called at [now] with the arguments; the histories are those of
    its strategies, the outermost first, none for those that are at their first try.
    The result is the function called by the try in progress, and when. *)
Fixpoint initiate (now : Z) (hs : list history) (i : initiator) (args : list argument) : option (Z * started) :=
  match i with
  | initiate_async_request => pair now <$> call_async_request args
  | initiate_async_execute => pair now <$> call_async_execute args
  | initiate_async_get_connection => pair now <$> call_async_get_connection args
  | initiate_async_start_transaction => pair now <$> call_async_start_transaction args
  | initiate_async_end_transaction => pair now <$> call_async_end_transaction args
  | operation_initiator s op =>
      '(at_, args) ← try_arguments now s (default [] (head hs)) args; initiate at_ (tail hs) op args
  end.

(** ** Operation objects *)

Inductive facade := request_op | execute_op | get_connection_op | begin_op (options : transaction_options).

(** [base_async_operation] *)
Record async_operation := AsyncOperation { facade_ : facade; initiator_ : initiator }.

(** [request], [execute], [get_connection] and [begin] *)
Definition facade_initiator (f : facade) : initiator :=
  match f with
  | request_op => initiate_async_request
  | execute_op => initiate_async_execute
  | get_connection_op => initiate_async_get_connection
  | begin_op _ => initiate_async_start_transaction
  end.
Definition operation_of (f : facade) : async_operation := AsyncOperation f (facade_initiator f).

Definition rebind_initiator (op : async_operation) (i : initiator) : async_operation :=
  AsyncOperation (facade_ op) i.
Definition with_transaction_options (op : async_operation) (o : transaction_options) : async_operation :=
  match facade_ op with
  | begin_op _ => AsyncOperation (begin_op o) (initiator_ op)
  | _ => op
  end.

(** [op[strategy]] *)
Definition op_index (op : async_operation) (s : strategy) : async_operation :=
  rebind_initiator op (operation_initiator s (initiator_ op)).

(** [operator()(provider, query, t, out, token)] and the like: the arguments each of the
    objects hands over. *)
Definition request_arguments (p : provider) (query : string) (t : time_constraint) (out : nat) : list argument :=
  [a_provider p; a_time t; a_query query; a_out out].
Definition execute_arguments (p : provider) (query : string) (t : time_constraint) : list argument :=
  [a_provider p; a_time t; a_query query].
Definition get_connection_arguments (p : provider) (t : time_constraint) : list argument :=
  [a_provider p; a_time t].
Definition begin_arguments (o : transaction_options) (p : provider) (t : time_constraint) : option (list argument) :=
  text ← Begin.build o; Some [a_provider p; a_options o; a_query text; a_time t].

(** [execute], [get_connection] and [begin] have no use for the others. *)
Definition arguments (f : facade) (p : provider) (query : string) (t : time_constraint) (out : nat) :
    option (list argument) :=
  match f with
  | request_op => Some (request_arguments p query t out)
  | execute_op => Some (execute_arguments p query t)
  | get_connection_op => Some (get_connection_arguments p t)
  | begin_op o => begin_arguments o p t
  end.
Definition call (now : Z) (hs : list history) (op : async_operation) (p : provider) (query : string)
    (t : time_constraint) (out : nat) : option (Z * started) :=
  args ← arguments (facade_ op) p query t out; initiate now hs (initiator_ op) args.

(** The overloads without a time constraint. *)
Definition call_without_time (now : Z) (hs : list history) (op : async_operation) (p : provider) (query : string)
    (out : nat) : option (Z * started) := call now hs op p query tc_none out.

(** [commit(transaction, t, token)] and [rollback(transaction, t, token)] *)
Definition commit_call (now : Z) (tr : transaction) (t : time_constraint) : option (Z * started) :=
  initiate now [] initiate_async_end_transaction [a_transaction tr; a_query "COMMIT"; a_time t].
Definition rollback_call (now : Z) (tr : transaction) (t : time_constraint) : option (Z * started) :=
  initiate now [] initiate_async_end_transaction [a_transaction tr; a_query "ROLLBACK"; a_time t].
Definition end_call (e : ending) : Z -> transaction -> time_constraint -> option (Z * started) :=
  match e with commit => commit_call | rollback => rollback_call end.

(** What the functions do, as the other files have it: how the connection is got for
    which statement, the provider being asked at [now'], and the time constraint that
    follows; a transaction is ended on the connection it holds. *)
Definition performed (now' : Z) (s : Z * started) : option (string * (getting * time_constraint)) :=
  match s with
  | (now, async_request_of p q t _) | (now, async_execute_of p q t) | (now, async_start_transaction_of p _ q t) =>
      op ← async_request now now' p t; Some (q, op)
  | (now, async_get_connection_of p t) => g ← async_get_connection now p t; Some ("", (g, t))
  | (_, async_end_transaction_of _ _ _) => None
  end.
Definition perform_end (s : Z * started) : option (string * transaction * time_constraint) :=
  match s with
  | (now, async_end_transaction_of tr q t) => tr ← transaction_set_error_context "" tr; Some (q, tr, deadline now t)
  | _ => None
  end.

(** ** Strategies of strategies *)

(** [f[s_n]...[s_1]]: the strategies, the outermost first. *)
Definition indexed (f : facade) (ss : list strategy) : async_operation :=
  foldr (fun s op => op_index op s) (operation_of f) ss.

(** The role a role-based failover is at after some errors, and the roles after it. *)
Fixpoint role_after (first : role) (rest : list role) (errors : list error_code) : option (role * list role) :=
  match errors with
  | [] => Some (first, rest)
  | ec :: errors => if failed ec then '(r, rest) ← next_role rest ec; role_after r rest errors else None
  end.

(** The provider of the try after some errors and the number of tries its time is shared
    with: there is one as long as the errors are those the strategy reacts to and tries
    are left. *)
Definition try_after (s : strategy) (errors : list error_code) (p : provider) : option (provider * Z) :=
  match s with
  | retry_of n conditions =>
      if forallb (retried conditions) errors && (Z.of_nat (length errors) <? Z.max 1 n)
      then Some (p, n - Z.of_nat (length errors)) else None
  | role_of first rest =>
      '(r, rest) ← role_after first rest errors;
      p ← rebind_role p r;
      Some (p, Z.of_nat (length (r :: rest)))
  end.

(** The time a try has: none where no tries were asked for. *)
Definition time_of_try (now : Z) (t : time_constraint) (at_ : Z) (remaining : Z) : time_constraint :=
  if 0 <? remaining then share_of now t at_ remaining
  else match t with tc_none => tc_none | _ => tc_duration 0 end.

(** When the operation itself is begun, on which provider and for how long, each of the
    strategies having the history given: the time of a strategy is counted from when
    its own try of the strategy around it began. *)
Fixpoint tried (now : Z) (ss : list strategy) (hs : list history) (p : provider) (t : time_constraint) :
    option (Z * provider * time_constraint) :=
  match ss with
  | [] => Some (now, p, t)
  | s :: ss =>
      let h := default [] (head hs) in
      let at_ := default now (last h.*1) in
      '(p, remaining) ← try_after s h.*2 p;
      tried at_ ss (tail hs) p (time_of_try now t at_ remaining)
  end.

Lemma indexed_facade f ss : facade_ (indexed f ss) = f.
Proof. by induction ss. Qed.

(** ** The try a failover has come to *)

Section after.
Context {T C : Type} `{FailoverTry T C}.

(** The try after some errors. *)
Fixpoint after (t : T) (errors : list error_code) : option T :=
  match errors with
  | [] => Some t
  | ec :: errors => if failed ec then t ← initiate_next_try t ec; after t errors else None
  end.

Lemma run_after now t (e : execution T C) h : ex_try e = Some t -> last (ex_initiated e) = Some (get_try_context now t) ->
  let at_ := default now (last h.*1) in
  ex_try (run e h) = after t h.*2
  /\ forall t', after t h.*2 = Some t' -> last (ex_initiated (run e h)) = Some (get_try_context at_ t').
Proof.
  cbv zeta. revert now t e. induction h as [|[n ec] h IH]; intros now t e Ht Hl; [split; [done|]; by intros t' [= <-]|].
  cbn [run fmap list_fmap fst snd after]. rewrite last_cons.
  destruct (failed ec) eqn:Ef; [destruct (initiate_next_try t ec) as [t1|] eqn:En|]; cbn [mbind option_bind].
  - rewrite (on_completed_next n ec e t t1 Ht Ef En).
    match goal with |- context [run ?e1 h] => destruct (IH n t1 e1) as [H1 H2]; [done|apply last_snoc|] end.
    split; [done|]. intros t' Ht'. rewrite (H2 t' Ht'). by destruct (last h.*1).
  - rewrite (on_completed_end n ec e t Ht), run_done by auto. done.
  - rewrite (on_completed_end n ec e t Ht), run_done by auto. done.
Qed.

Lemma current_try_after now t h :
  current_try now t h
  = let at_ := default now (last h.*1) in t' ← after t h.*2; Some (at_, get_try_context at_ t').
Proof.
  destruct (run_after now t (failover_start now t) h eq_refl eq_refl) as [H1 H2].
  unfold current_try. rewrite H1. destruct (after t h.*2) as [t'|]; [|done]. simpl. by rewrite (H2 t' eq_refl).
Qed.
End after.

Lemma retry_after {P A} n cs close (ctx : basic_context P A) errors :
  after (RetryTry n cs close ctx) errors
  = if forallb (retried cs) errors && (Z.of_nat (length errors) <? Z.max 1 n)
    then Some (RetryTry (n - Z.of_nat (length errors)) cs close ctx) else None.
Proof.
  revert n. induction errors as [|ec errors IH]; intros n.
  { simpl. rewrite (proj2 (Z.ltb_lt _ _)) by lia. by rewrite Z.sub_0_r. }
  cbn [after forallb length]. unfold retried at 1. destruct (failed ec); [|done]. cbn [andb].
  change (initiate_next_try _ ec) with (get_next_try (RetryTry n cs close ctx) ec). rewrite retry_next.
  cbn [rt_tries rt_conditions rt_close_connection rt_context].
  destruct (conditions_match cs ec); [rewrite andb_true_r|by rewrite andb_false_r]. cbn [andb]. rewrite Nat2Z.inj_succ.
  destruct (Z.leb_spec 2 n).
  - cbn [mbind option_bind]. rewrite IH. destruct (forallb (retried cs) errors); [|done]. cbn [andb].
    destruct (Z.ltb_spec (Z.of_nat (length errors)) (Z.max 1 (n - 1))), (Z.ltb_spec (Z.succ (Z.of_nat (length errors))) (Z.max 1 n));
      try lia; [|done]. do 2 f_equal. lia.
  - rewrite (proj2 (Z.ltb_ge _ (Z.max 1 n))) by lia. by rewrite andb_false_r.
Qed.

Lemma role_after_spec {A} r rest close (ctx : basic_context (option provider) A) errors :
  after (RoleTry r rest close ctx) errors
  = '(r, rest) ← role_after r rest errors; Some (RoleTry r rest close ctx).
Proof.
  revert r rest. induction errors as [|ec errors IH]; intros r rest; [done|]. cbn [after role_after].
  destruct (failed ec); [|done]. change (initiate_next_try _ ec) with (role_next_try (RoleTry r rest close ctx) ec).
  unfold role_next_try. simpl. destruct (next_role rest ec) as [[r' rest']|]; [|done]. simpl. apply IH.
Qed.

Lemma time_of_try_spec now t at_ n : get_try_time_constraint (deadline now t) n at_ = time_of_try now t at_ n.
Proof.
  unfold time_of_try. destruct (Z.ltb_spec 0 n); [by apply share_of_spec|].
  destruct t; simpl; rewrite ?(proj2 (Z.ltb_ge _ _)) by done; done.
Qed.

(** The arguments of the try a strategy has come to. *)
Lemma try_arguments_spec now s h p t rest :
  try_arguments now s h (a_provider p :: a_time t :: rest)
  = let at_ := default now (last h.*1) in
    '(p, remaining) ← try_after s h.*2 p; Some (at_, a_provider p :: a_time (time_of_try now t at_ remaining) :: rest).
Proof.
  cbv zeta. destruct s as [n cs|first roles]; cbn [try_arguments try_after]; rewrite current_try_after; cbv zeta.
  - unfold retry_first_try. rewrite retry_after. destruct (_ && _); [|done]. cbn. by rewrite time_of_try_spec.
  - unfold role_first_try. rewrite role_after_spec. destruct (role_after first roles h.*2) as [[r rest']|]; [|done].
    cbn [mbind option_bind get_try_context role_failover]. unfold role_get_context, tries_left. cbn.
    destruct (rebind_role p r) as [p'|]; [|done]. cbn [length]. rewrite Nat2Z.inj_succ, <- Z.add_1_l. cbn. by rewrite time_of_try_spec.
Qed.

(** The arguments that come after the time constraint go through every strategy. *)
Lemma initiate_tried now hs f ss p t rest :
  initiate now hs (initiator_ (indexed f ss)) (a_provider p :: a_time t :: rest)
  = '(now, p, t) ← tried now ss hs p t; initiate now [] (facade_initiator f) (a_provider p :: a_time t :: rest).
Proof.
  revert now hs p t. induction ss as [|s ss IH]; intros now hs p t; [by destruct f|].
  change (initiator_ (indexed f (s :: ss))) with (operation_initiator s (initiator_ (indexed f ss))).
  cbn [initiate tried]. rewrite try_arguments_spec. cbv zeta.
  destruct (try_after s _ p) as [[p' remaining]|]; [|done]. cbn [mbind option_bind]. apply IH.
Qed.

(** C23: what a user calls is what is carried out.  A call of [request],
    [execute], [get_connection] or [begin] leads to the operation of the other files for
    its provider, its statement and its time constraint, without one to an operation
    that waits as long as it takes; [commit] and [rollback] end the transaction they are given.  Under any
    strategies of the library, nested in any way and each after any errors of its
    operation, the try in progress of [request], [execute] and [get_connection] is the
    call itself, with the same statement and destination: it begins when the last
    error of the innermost strategy came, on the provider of the roles the errors have
    led to, within the share that is left of the time each strategy was given when it
    was begun by the one around it; there is none when the errors have ended a
    strategy.  Options given to [begin] are kept when a strategy is added, but
    [begin] under a strategy is never carried out: its options stand where the
    strategies expect the time constraint. *)
Theorem operations_carry_out_calls (now now' : Z) (p : provider) (query : string) (t : time_constraint) (out : nat) :
  (forall f ss hs, match f with
     | begin_op _ => ss <> [] -> call now hs (indexed f ss) p query t out = None
     | _ => call now hs (indexed f ss) p query t out
            = '(at_, p, t) ← tried now ss hs p t; call at_ [] (operation_of f) p query t out
     end)
  /\ (forall f, f = request_op \/ f = execute_op ->
        (call_without_time now [] (operation_of f) p query out) ≫= performed now'
        = g ← async_get_connection now p tc_none; Some (query, (g, tc_none)))
  /\ (forall f, f = request_op \/ f = execute_op ->
        (call now [] (operation_of f) p query t out) ≫= performed now'
        = op ← async_request now now' p t; Some (query, op))
  /\ ((call now [] (operation_of get_connection_op) p query t out) ≫= performed now'
        = g ← async_get_connection now p t; Some ("", (g, t)))
  /\ (forall o, (call now [] (operation_of (begin_op o)) p query t out) ≫= performed now'
        = Transaction.begin_op o now now' p t)
  /\ (forall e tr, end_call e now tr t ≫= perform_end = end_op e now tr t)
  /\ (forall op s o, with_transaction_options (op_index op s) o = op_index (with_transaction_options op o) s).
Proof.
  split_and!; try done; [| | | |by intros [] tr|].
  - intros f ss hs. unfold call. rewrite indexed_facade. destruct f as [| | |o];
      unfold arguments, request_arguments, execute_arguments, get_connection_arguments; cbn [mbind option_bind].
    1-3: rewrite initiate_tried; by destruct (tried now ss hs p t) as [[[at_ p'] t']|].
    unfold begin_arguments. intros Hss. destruct (Begin.build o) as [text|]; [|done]. by destruct ss as [|s ss].
  - intros f [-> | ->]; unfold call_without_time, call, performed; cbn;
      unfold async_request; cbn [deadline]; by destruct (async_get_connection now p tc_none).
  - by intros f [-> | ->].
  - intros o. unfold call, Transaction.begin_op. cbn [operation_of facade_ initiator_ arguments]. unfold begin_arguments.
    destruct (Begin.build o) as [text|]; reflexivity.
  - intros [[] i] s o; done.
Qed.

(** A request under a retry at its last try, which began at 40, with a retry of two
    tries inside, at its first: of the 60 left it has half. A request retried in a
    role: the connection to the first of two roles was lost at 30, the inner retry is at
    its second and last try, begun at 50, of the 70 there were at 30. *)
Definition two_hosts : list (role * source) :=
  [(master, connection_info "host=a"); (replica, connection_info "host=b")].
Lemma operations_carry_out_calls_witness :
  let lost := ec_asio connection_reset in
  call 0 [[(40, lost)]; []] (indexed request_op [retry_of 2 []; retry_of 2 []])
    (source_provider (connection_info "host=a") 5) "SELECT 1" (tc_duration 100) 7
  = Some (40, async_request_of (source_provider (connection_info "host=a") 5) "SELECT 1" (tc_duration 30) 7)
  /\ call 0 [[(30, lost)]; [(50, lost)]] (indexed request_op [role_of master [replica]; retry_of 2 []])
    (source_provider (role_based_connection_source two_hosts master) 5) "SELECT 1" (tc_duration 100) 7
  = Some (50, async_request_of (source_provider (role_based_connection_source two_hosts replica) 5) "SELECT 1"
            (tc_duration 50) 7)
  /\ call 0 [] (indexed (begin_op []) [retry_of 2 []]) (source_provider (connection_info "host=a") 5) ""
       (tc_duration 100) 0 = None.
Proof.
  split_and!.
  - rewrite (proj1 (operations_carry_out_calls 0 0 _ "SELECT 1" (tc_duration 100) 7) request_op). reflexivity.
  - rewrite (proj1 (operations_carry_out_calls 0 0 _ "SELECT 1" (tc_duration 100) 7) request_op). reflexivity.
  - apply (proj1 (operations_carry_out_calls 0 0 _ "" (tc_duration 100) 0) (begin_op []) [retry_of 2 []]).
    discriminate.
Defined.
End Facades.
