(* ===== verification/Waits.v ===== *)
(** * Waiting on sockets: [impl/connection.h], [impl/connection_pool.h],
      [transaction.h] and the streams of [asio.h]

    A connection waits for its socket through a [stream_descriptor] of Boost.Asio,
    while the socket itself belongs to libpq, which closes it in [PQfinish] and may
    go on with another one while it connects.  The stream is a parameter with its documented behaviour; [Connection],
    [ConnectionPool] and [Transaction] have the rest of the three classes.  What a
    connection does to the outside is a log that a monitor reads. *)

From stdpp Require Import gmap.
From S2P Require Import Prelude Words Errors Connection PoolStorage ConnectionPool.
#[local] Open Scope Z_scope.

(** ** The monitor *)

(** libpq uses a descriptor for a handle, which [PQsocket] answers; a stream
    watches a descriptor or lets it go; a wait is asked for and completed; a stream
    closes a descriptor; a handle is given to the caller; [PQfinish] is called. *)
Inductive effect :=
| Socket (h : handle) (fd : Z)
| Watched (fd : Z)
| Unwatched (fd : Z)
| Waits (w : nat)
| Completed (w : nat) (ec : error_code)
| Descriptor_closed (fd : Z)
| Left (h : handle)
| Finished (h : handle).

Fixpoint pick {A} `{EqDecision A} (x : A) (l : list A) : option (list A) :=
  match l with
  | [] => None
  | y :: l => if decide (x = y) then Some l else l ← pick x l; Some (y :: l)
  end.

(** The descriptors libpq uses, as far as it has told, the descriptors that are
    watched, the waits in flight and all waits. *)
Record monitor := Monitor {
  m_sockets : gmap handle Z;
  m_watched : list Z;
  m_pending : list nat;
  m_asked : list nat
}.

Section monitor.

(** Whether libpq may close the descriptor it uses for a handle. *)
Definition may_close (h : handle) (m : monitor) : bool :=
  match m_sockets m !! h with
  | Some fd => negb (bool_decide (fd ∈ m_watched m))
  | None => true
  end.

(** What may happen next: a descriptor has one watcher, a wait is asked for once
    and completed once, no stream closes a descriptor of libpq, and libpq does not
    close one that is watched, neither in [PQfinish], which who owns the handle may
    call, nor when it goes on with another one. *)
Definition accept (m : monitor) (e : effect) : option monitor :=
  match e with
  | Socket h fd =>
      if bool_decide (m_sockets m !! h = Some fd) || may_close h m
      then Some (Monitor (<[h:=fd]> (m_sockets m)) (m_watched m) (m_pending m) (m_asked m))
      else None
  | Watched fd =>
      if decide (fd ∈ m_watched m) then None
      else Some (Monitor (m_sockets m) (fd :: m_watched m) (m_pending m) (m_asked m))
  | Unwatched fd =>
      l ← pick fd (m_watched m); Some (Monitor (m_sockets m) l (m_pending m) (m_asked m))
  | Waits w =>
      if decide (w ∈ m_asked m) then None
      else Some (Monitor (m_sockets m) (m_watched m) (m_pending m ++ [w]) (m_asked m ++ [w]))
  | Completed w _ =>
      l ← pick w (m_pending m); Some (Monitor (m_sockets m) (m_watched m) l (m_asked m))
  | Descriptor_closed _ => None
  | Left h | Finished h =>
      if may_close h m
      then Some (Monitor (delete h (m_sockets m)) (m_watched m) (m_pending m) (m_asked m))
      else None
  end.

Fixpoint accepts (m : monitor) (log : list effect) : option monitor :=
  match log with
  | [] => Some m
  | e :: log => m ← accept m e; accepts m log
  end.

Lemma accepts_app m log1 log2 : accepts m (log1 ++ log2) = (m ← accepts m log1; accepts m log2).
Proof.
  revert m. induction log1 as [|e log1 IH]; intros m; [done|]. simpl. destruct (accept m e); [apply IH|done].
Qed.

Lemma pick_head {A} `{EqDecision A} (x : A) l : pick x (x :: l) = Some l.
Proof. simpl. by rewrite decide_True. Qed.

Lemma pick_snoc {A} `{EqDecision A} (x : A) l : x ∉ l -> pick x (l ++ [x]) = Some l.
Proof.
  induction l as [|y l IH]; intros Hx; simpl; [by rewrite decide_True|].
  apply not_elem_of_cons in Hx as [Hne Hx]. rewrite decide_False by done. by rewrite IH.
Qed.

Lemma pick_is_Some {A} `{EqDecision A} (x : A) l : x ∈ l -> exists l', pick x l = Some l' /\ l ≡ₚ x :: l'.
Proof.
  induction l as [|y l IH]; intros Hx; [by apply elem_of_nil in Hx|]. simpl.
  destruct (decide (x = y)) as [->|Hne]; [by exists l|].
  destruct IH as (l' & -> & Hp); [by apply elem_of_cons in Hx as [?|?]|]. exists (y :: l').
  split; [done|]. rewrite Hp. apply perm_swap.
Qed.

(** Every wait the monitor has seen completed once, or is pending. *)
Definition completions (log : list effect) : list nat :=
  omap (fun e => match e with Completed w _ => Some w | _ => None end) log.
Definition asked (log : list effect) : list nat :=
  omap (fun e => match e with Waits w => Some w | _ => None end) log.

Lemma pick_perm {A} `{EqDecision A} (x : A) l l' : pick x l = Some l' -> l ≡ₚ x :: l'.
Proof.
  revert l'. induction l as [|y l IH]; intros l' E; [done|]. simpl in E.
  destruct (decide (x = y)) as [->|]; [by simplify_eq|]. destruct (pick x l) as [l1|]; simplify_eq/=.
  rewrite (IH l1 eq_refl). apply perm_swap.
Qed.

Lemma accepts_conserves m log m' : accepts m log = Some m' ->
  m_asked m' = m_asked m ++ asked log /\ (NoDup (m_asked m) -> NoDup (m_asked m'))
  /\ m_pending m ++ asked log ≡ₚ completions log ++ m_pending m'.
Proof.
  revert m. induction log as [|e log IH]; intros m E; simpl in E.
  - simplify_eq. by rewrite !app_nil_r.
  - destruct (accept m e) as [m1|] eqn:Ea; [|done]. simpl in E. destruct (IH m1 E) as (H1 & H2 & H3).
    unfold asked, completions in *. destruct e as [h fd|fd|fd|w|w ec|fd|h|h]; cbn [accept] in Ea; csimpl.
    + destruct (_ || _); simplify_eq/=. done.
    + case_decide; simplify_eq/=. done.
    + destruct (pick fd _); simplify_eq/=. done.
    + case_decide; simplify_eq/=. rewrite <- !app_assoc in *. simpl in *. split_and!; [done| |done].
      intros Hn. apply H2, NoDup_app. split_and!; [done|set_solver|apply NoDup_singleton].
    + destruct (pick w _) as [l|] eqn:Ep; simplify_eq/=. apply pick_perm in Ep. split_and!; [done..|].
      rewrite Ep, <- H3. done.
    + done.
    + destruct (may_close h m); simplify_eq/=. done.
    + destruct (may_close h m); simplify_eq/=. done.
Qed.

End monitor.

(** ** Streams *)

Definition aborted (ws : list nat) : list effect := (fun w => Completed w operation_aborted) <$> ws.
Definition unwatched (fd : option Z) : list effect := match fd with Some fd => [Unwatched fd] | None => [] end.
Definition closed (fd : option Z) : list effect :=
  match fd with Some fd => [Unwatched fd; Descriptor_closed fd] | None => [] end.

(** [asio::posix::basic_stream_descriptor], as documented: [release] and [cancel]
    complete the waits in flight with [operation_aborted], the first lets the
    descriptor go; a wait on a stream without a descriptor fails; a stream that is
    destroyed or assigned to closes the descriptor it has; one that is moved from
    has none. *)
Class StreamDescriptor (S : Type) := {
  sd_fd : S -> option Z;
  sd_pending : S -> list nat;
  sd_make : S;
  sd_make_with : Z -> S * list effect;
  sd_assign : Z -> S -> S * list effect;
  sd_release : S -> S * list effect;
  sd_cancel : S -> S * list effect;
  sd_async_wait : nat -> S -> S * list effect;
  sd_ready : nat -> S -> option (S * list effect);
  sd_move_assign : S -> S -> S * S * list effect;
  sd_destroy : S -> list effect;
  sd_make_spec : sd_fd sd_make = None /\ sd_pending sd_make = [];
  sd_make_with_spec fd :
    sd_fd (sd_make_with fd).1 = Some fd /\ sd_pending (sd_make_with fd).1 = []
    /\ (sd_make_with fd).2 = [Watched fd];
  sd_assign_spec fd s : sd_fd s = None -> sd_pending s = [] ->
    sd_fd (sd_assign fd s).1 = Some fd /\ sd_pending (sd_assign fd s).1 = []
    /\ (sd_assign fd s).2 = [Watched fd];
  sd_release_spec s :
    sd_fd (sd_release s).1 = None /\ sd_pending (sd_release s).1 = []
    /\ (sd_release s).2 = aborted (sd_pending s) ++ unwatched (sd_fd s);
  sd_cancel_spec s :
    sd_fd (sd_cancel s).1 = sd_fd s /\ sd_pending (sd_cancel s).1 = []
    /\ (sd_cancel s).2 = aborted (sd_pending s);
  sd_async_wait_spec w s :
    sd_fd (sd_async_wait w s).1 = sd_fd s
    /\ match sd_fd s with
       | Some _ => sd_pending (sd_async_wait w s).1 = sd_pending s ++ [w] /\ (sd_async_wait w s).2 = [Waits w]
       | None => sd_pending (sd_async_wait w s).1 = sd_pending s
                 /\ (sd_async_wait w s).2 = [Waits w; Completed w bad_descriptor]
       end;
  sd_ready_spec w s :
    match pick w (sd_pending s) with
    | Some l => exists s', sd_ready w s = Some (s', [Completed w ec_default])
                  /\ sd_fd s' = sd_fd s /\ sd_pending s' = l
    | None => sd_ready w s = None
    end;
  sd_move_assign_spec s o :
    let '(s', o', log) := sd_move_assign s o in
    sd_fd s' = sd_fd o /\ sd_pending s' = sd_pending o /\ sd_fd o' = None /\ sd_pending o' = []
    /\ log = aborted (sd_pending s) ++ closed (sd_fd s);
  sd_destroy_spec s : sd_destroy s = aborted (sd_pending s) ++ closed (sd_fd s)
}.

Section streams.
Context {S : Type} `{StreamDescriptor S}.
Implicit Types (socks : gmap handle Z).

(** What the monitor knows of a stream. *)
Definition watches socks (s : S) (issued : list nat) : monitor :=
  Monitor socks (option_list (sd_fd s)) (sd_pending s) issued.

Lemma accepts_aborted socks fds ws rest issued log :
  accepts (Monitor socks fds (ws ++ rest) issued) (aborted ws ++ log)
  = accepts (Monitor socks fds rest issued) log.
Proof using.
  induction ws as [|w ws IH]; [done|]. cbn -[pick]. by rewrite pick_head.
Qed.

Lemma accepts_release socks s issued log :
  accepts (watches socks s issued) ((sd_release s).2 ++ log)
  = accepts (watches socks (sd_release s).1 issued) log.
Proof using.
  destruct (sd_release_spec s) as (Hf & Hp & ->). unfold watches. rewrite Hf, Hp, <- app_assoc.
  rewrite <- (app_nil_r (sd_pending s)) at 1. rewrite accepts_aborted.
  destruct (sd_fd s); [|done]. cbn -[pick]. by rewrite pick_head.
Qed.

Lemma accepts_cancel socks s issued :
  accepts (watches socks s issued) (sd_cancel s).2 = Some (watches socks (sd_cancel s).1 issued).
Proof using.
  destruct (sd_cancel_spec s) as (Hf & Hp & ->). unfold watches. rewrite Hf, Hp.
  rewrite <- (app_nil_r (sd_pending s)) at 1. rewrite <- (app_nil_r (aborted _)). by rewrite accepts_aborted.
Qed.

Lemma accepts_wait socks w s issued : w ∉ issued -> sd_pending s ⊆ issued ->
  accepts (watches socks s issued) (sd_async_wait w s).2
  = Some (watches socks (sd_async_wait w s).1 (issued ++ [w])).
Proof using.
  intros Hw Hs. destruct (sd_async_wait_spec w s) as [Hf Hp]. unfold watches. rewrite Hf.
  destruct (sd_fd s); destruct Hp as [-> ->]; cbn -[pick]; rewrite decide_False by done; [done|].
  cbn -[pick]. rewrite pick_snoc by set_solver. done.
Qed.

Lemma accepts_ready socks w s s' log issued : sd_ready w s = Some (s', log) ->
  accepts (watches socks s issued) log = Some (watches socks s' issued)
  /\ sd_fd s' = sd_fd s /\ sd_pending s' ⊆ sd_pending s.
Proof using.
  intros E. pose proof (sd_ready_spec w s) as Hr. destruct (pick w (sd_pending s)) as [l|] eqn:Ep; [|congruence].
  destruct Hr as (s1 & E1 & Hf & Hp). rewrite E in E1. injection E1 as <- ->. cbn. rewrite Ep. cbn. unfold watches.
  rewrite Hf, Hp. apply pick_perm in Ep. split_and!; [done..|]. intros x Hx. rewrite Ep. set_solver.
Qed.

Lemma accepts_destroy socks s issued log : sd_fd s = None ->
  accepts (watches socks s issued) (sd_destroy s ++ log) = accepts (Monitor socks [] [] issued) log.
Proof using.
  intros Hf. unfold watches. rewrite sd_destroy_spec, Hf, <- app_assoc.
  rewrite <- (app_nil_r (sd_pending s)) at 1. by rewrite accepts_aborted.
Qed.

(** ** The connection *)

(** The data members of [connection], with its stream. *)
Record waiting_connection := WaitingConnection {
  wc_handle : option handle;
  wc_socket : S;
  wc_error_context : string
}.

(** [connection(ex, statistics)] *)
Definition make_connection : waiting_connection := WaitingConnection None sd_make "".

(** [connection::assign(handle)], given the descriptor [PQsocket] answers *)
Definition wc_assign (fd : Z) (h : handle) (c : waiting_connection) :
    error_code * waiting_connection * list effect :=
  if fd =? -1 then (ec_ozo pq_socket_failed, c, [])
  else
    let '(new_socket, log1) := sd_make_with fd in
    let '(socket, log2) := sd_release (wc_socket c) in
    let '(socket, new_socket, log3) := sd_move_assign socket new_socket in
    (ec_default, WaitingConnection (Some h) socket (wc_error_context c),
     Socket h fd :: log1 ++ log2 ++ log3 ++ (Finished <$> option_list (wc_handle c)) ++ sd_destroy new_socket).

(** [connection::release()] *)
Definition wc_release (c : waiting_connection) : option handle * waiting_connection * list effect :=
  let '(socket, log) := sd_release (wc_socket c) in
  (wc_handle c, WaitingConnection None socket (wc_error_context c),
   log ++ (Left <$> option_list (wc_handle c))).

(** [connection::close()]: [release().reset()] *)
Definition wc_close (c : waiting_connection) : waiting_connection * list effect :=
  let '(h, c, log) := wc_release c in (c, log ++ (Finished <$> option_list h)).

Definition set_socket (r : S * list effect) (c : waiting_connection) : waiting_connection * list effect :=
  (WaitingConnection (wc_handle c) r.1 (wc_error_context c), r.2).

(** [connection::async_wait_write], [connection::async_wait_read] and
    [connection::cancel] *)
Definition wc_async_wait_write (w : nat) (c : waiting_connection) : waiting_connection * list effect :=
  set_socket (sd_async_wait w (wc_socket c)) c.
Definition wc_async_wait_read (w : nat) (c : waiting_connection) : waiting_connection * list effect :=
  set_socket (sd_async_wait w (wc_socket c)) c.
Definition wc_cancel (c : waiting_connection) : waiting_connection * list effect :=
  set_socket (sd_cancel (wc_socket c)) c.

(** [~connection()] and the destructor of the stream. *)
Definition wc_destroy (c : waiting_connection) : list effect :=
  let '(c, log) := wc_close c in log ++ sd_destroy (wc_socket c).

(** ** The pooled connection *)

Context {O : Type}.

Record waiting_pooled := WaitingPooled { wp_rep : leased O; wp_stream : S }.

(** [pooled_connection(ex, rep)], given what [PQsocket] answers *)
Definition wp_make (PQsocket : handle -> Z) (l : leased O) : waiting_pooled * list effect :=
  let fd := PQsocket_of PQsocket (native_handle l) in
  let told := (fun h => Socket h fd) <$> option_list (native_handle l) in
  if fd =? -1 then (WaitingPooled l sd_make, [])
  else let '(stream, log) := sd_assign fd sd_make in (WaitingPooled l stream, told ++ log).

Definition set_stream (r : S * list effect) (c : waiting_pooled) : waiting_pooled * list effect :=
  (WaitingPooled (wp_rep c) r.1, r.2).

(** [pooled_connection::async_wait_write], [pooled_connection::async_wait_read]
    and [pooled_connection::cancel] *)
Definition wp_async_wait_write (w : nat) (c : waiting_pooled) : waiting_pooled * list effect :=
  set_stream (sd_async_wait w (wp_stream c)) c.
Definition wp_async_wait_read (w : nat) (c : waiting_pooled) : waiting_pooled * list effect :=
  set_stream (sd_async_wait w (wp_stream c)) c.
Definition wp_cancel (c : waiting_pooled) : waiting_pooled * list effect :=
  set_stream (sd_cancel (wp_stream c)) c.

(** [pooled_connection::close()]; [None]: the handle of the cell is empty. *)
Definition wp_close (c : waiting_pooled) : option (waiting_pooled * list effect) :=
  let '(stream, log) := sd_release (wp_stream c) in
  rep ← l_value (wp_rep c);
  let l := wp_rep c in
  let finished := option_list (safe_handle_ rep) in
  Some (WaitingPooled (Leased (l_it l) (Some (Rep None (rep_oid_map rep) (rep_error_context rep)))
                         (l_finished l ++ finished)) stream,
        log ++ (Finished <$> finished)).

(** [~pooled_connection()], given what libpq answers: the stream is released and
    the cell is wasted unless its connection is idle, which finishes its handle; then
    the destructors of the stream and of the handle of the cell, which recycles a cell
    that was not wasted: its value is finished when the pool drops it. *)
Definition wp_destroy (PQstatus : handle -> conn_status)
    (PQtransactionStatus : option handle -> pq_transaction_status) (dropped : bool) (c : waiting_pooled) :
    may_throw (list effect) :=
  let '(stream, log) := sd_release (wp_stream c) in
  let finish := Finished <$> owned (l_value (wp_rep c)) in
  returned ← destroy_pooled PQstatus PQtransactionStatus (Pooled (wp_rep c) (sd_fd stream));
  Return (match returned with
          | Handles.Wasted _ => log ++ finish ++ sd_destroy stream
          | Handles.Recycled _ => log ++ sd_destroy stream ++ (if dropped then finish else [])
          end).

End streams.
Arguments waiting_connection S : clear implicits.
Arguments waiting_pooled S O : clear implicits.

(** ** What operations ask of a connection *)

(** The part of the concept [Connection] that waits; [None] is an undefined call.
    [w_own]: the operations a class has besides; [w_ready]: the socket is ready. *)
Class Waiter (Own C : Type) := {
  w_fd : C -> option Z;
  w_pending : C -> list nat;
  w_async_wait_write : nat -> C -> option (C * list effect);
  w_async_wait_read : nat -> C -> option (C * list effect);
  w_cancel : C -> option (C * list effect);
  w_close : C -> option (C * list effect);
  w_ready : nat -> C -> option (C * list effect);
  w_own : Own -> C -> option (C * list effect);
  w_own_possible : Own -> C -> Prop;
  w_destroy : C -> option (list effect)
}.
#[global] Hint Mode Waiter - ! : typeclass_instances.

Inductive demand (Own : Type) :=
| asks_write (w : nat)
| asks_read (w : nat)
| cancels
| closes
| gets_ready (w : nat)
| own_demand (o : Own).
Arguments asks_write {Own} _.
Arguments asks_read {Own} _.
Arguments cancels {Own}.
Arguments closes {Own}.
Arguments gets_ready {Own} _.
Arguments own_demand {Own} _.

(** The waits a demand asks for; they are told apart by numbers. *)
Definition asks {Own} (d : demand Own) : list nat :=
  match d with asks_write w | asks_read w => [w] | _ => [] end.

Section waiter.
Context {Own C : Type} `{Waiter Own C}.
Implicit Types (socks : gmap handle Z).

Definition serve (d : demand Own) (c : C) : option (C * list effect) :=
  match d with
  | asks_write w => w_async_wait_write w c
  | asks_read w => w_async_wait_read w c
  | cancels => w_cancel c
  | closes => w_close c
  | gets_ready w => w_ready w c
  | own_demand o => w_own o c
  end.

Definition possible (d : demand Own) (c : C) : Prop :=
  match d with
  | gets_ready w => w ∈ w_pending c
  | own_demand o => w_own_possible o c
  | _ => True
  end.

Fixpoint serve_all (ds : list (demand Own)) (c : C) : option (C * list effect) :=
  match ds with
  | [] => Some (c, [])
  | d :: ds =>
      '(c, log1) ← serve d c;
      '(c, log2) ← serve_all ds c;
      Some (c, log1 ++ log2)
  end.

Definition waiter_watches socks (c : C) (issued : list nat) : monitor :=
  Monitor socks (option_list (w_fd c)) (w_pending c) issued.

(** What a class of connections promises the operations. *)
Class WaiterLaws (w_ok : gmap handle Z -> C -> Prop) : Prop := {
  serve_ok d socks c c' log issued : w_ok socks c -> Forall (.∉ issued) (asks d) -> w_pending c ⊆ issued ->
    serve d c = Some (c', log) ->
    exists socks', w_ok socks' c'
      /\ accepts (waiter_watches socks c issued) log = Some (waiter_watches socks' c' (issued ++ asks d));
  serve_total d socks c : w_ok socks c -> possible d c -> is_Some (serve d c);
  destroy_ok socks c issued : w_ok socks c ->
    exists log socks', w_destroy c = Some log
      /\ accepts (waiter_watches socks c issued) log = Some (Monitor socks' [] [] issued)
}.

(** A connection that was made with the effects [log0] keeps the monitor content
    whatever is asked of it up to its destruction, every wait asked for completes
    exactly once by then, nothing stays watched, and nothing possible is
    undefined. *)
Definition orderly_waits (c0 : C) (log0 : list effect) : Prop :=
  forall ds c log, NoDup (concat (asks <$> ds)) -> serve_all ds c0 = Some (c, log) ->
  (exists last, w_destroy c = Some last
    /\ (exists socks issued, accepts (Monitor ∅ [] [] []) (log0 ++ log ++ last) = Some (Monitor socks [] [] issued))
    /\ asked (log0 ++ log ++ last) = concat (asks <$> ds)
    /\ completions (log0 ++ log ++ last) ≡ₚ concat (asks <$> ds))
  /\ forall d, possible d c -> is_Some (serve d c).

Context (w_ok : gmap handle Z -> C -> Prop) `{!WaiterLaws w_ok}.

Lemma serve_pending d socks c c' log issued : w_ok socks c -> Forall (.∉ issued) (asks d) -> w_pending c ⊆ issued ->
  serve d c = Some (c', log) -> w_pending c' ⊆ issued ++ asks d.
Proof using Type*.
  intros Hok Hf Hp E. destruct (serve_ok d socks c c' log issued Hok Hf Hp E) as (socks' & _ & Ha).
  apply accepts_conserves in Ha as (H1 & _ & H3). simpl in H1, H3. apply app_inv_head in H1.
  intros w Hw. assert (w ∈ w_pending c ++ asked log) as Hin by (rewrite H3; set_solver).
  rewrite <- H1 in Hin. set_solver.
Qed.

Lemma serve_all_ok ds socks c c' log issued : w_ok socks c -> w_pending c ⊆ issued ->
  NoDup (issued ++ concat (asks <$> ds)) -> serve_all ds c = Some (c', log) ->
  exists socks', w_ok socks' c' /\ accepts (waiter_watches socks c issued) log
             = Some (waiter_watches socks' c' (issued ++ concat (asks <$> ds))).
Proof using Type*.
  revert socks c log issued. induction ds as [|d ds IH]; intros socks c log issued Hok Hp Hn E; cbn [serve_all] in E.
  - simplify_eq. cbn. exists socks. by rewrite app_nil_r.
  - destruct (serve d c) as [[c1 log1]|] eqn:E1; [|done]. cbn [mbind option_bind] in E.
    destruct (serve_all ds c1) as [[c2 log2]|] eqn:E2; [|done]. simplify_eq/=.
    assert (Forall (.∉ issued) (asks d)) as Hf.
    { apply NoDup_app in Hn as (_ & Hn & _). apply Forall_forall. intros w Hw Hi. apply (Hn w Hi). set_solver. }
    destruct (serve_ok d socks c c1 log1 issued Hok Hf Hp E1) as (socks1 & Hok1 & Ha).
    rewrite app_assoc in Hn.
    destruct (IH socks1 c1 log2 (issued ++ asks d) Hok1 (serve_pending _ _ _ _ _ _ Hok Hf Hp E1) Hn E2)
      as (socks2 & Hok2 & Ha2).
    exists socks2. split; [done|]. rewrite accepts_app, Ha. cbn [mbind option_bind]. by rewrite Ha2, app_assoc.
Qed.

Lemma orderly_waits_from socks c0 log0 : w_ok socks c0 -> w_pending c0 = [] ->
  accepts (Monitor ∅ [] [] []) log0 = Some (waiter_watches socks c0 []) -> orderly_waits c0 log0.
Proof using Type*.
  intros Hok Hp H0 ds c log Hn E.
  destruct (serve_all_ok ds socks c0 c log [] Hok) as (socks1 & Hc & Ha); [by rewrite Hp|done|done|].
  destruct (destroy_ok socks1 c ([] ++ concat (asks <$> ds)) Hc) as (last & socks2 & Hd & Hl).
  assert (accepts (Monitor ∅ [] [] []) (log0 ++ log ++ last)
          = Some (Monitor socks2 [] [] (concat (asks <$> ds)))) as Hall.
  { rewrite !accepts_app, H0. cbn [mbind option_bind]. rewrite accepts_app, Ha. cbn [mbind option_bind].
    by rewrite Hl. }
  split; [|intros d Hpd; by eapply serve_total].
  apply accepts_conserves in Hall as Hcons. destruct Hcons as (H1 & _ & H3). simpl in H1, H3.
  rewrite app_nil_r in H3. exists last. split_and!; [done|by eexists _, _|done|by rewrite H1, H3].
Qed.

End waiter.

(** ** The classes of connections *)

Section classes.
Context {S : Type} `{StreamDescriptor S}.
Implicit Types (socks : gmap handle Z).

Inductive own_op := own_assign (fd : Z) (h : handle) | own_release.

Definition on_socket (r : option (S * list effect)) (c : waiting_connection S) :
    option (waiting_connection S * list effect) :=
  r ← r; Some (set_socket r c).

(** A handle has one owner, and the system gives two open connections different
    sockets. *)
Definition own_possible (o : own_op) (c : waiting_connection S) : Prop :=
  match o with
  | own_assign fd h => wc_handle c <> Some h /\ sd_fd (wc_socket c) <> Some fd
  | own_release => True
  end.
#[export] Instance own_possible_dec o c : Decision (own_possible o c).
Proof using. destruct o; simpl; apply _. Defined.

#[export] Instance connection_waiter : Waiter own_op (waiting_connection S) := {
  w_fd c := sd_fd (wc_socket c);
  w_pending c := sd_pending (wc_socket c);
  w_async_wait_write w c := Some (wc_async_wait_write w c);
  w_async_wait_read w c := Some (wc_async_wait_read w c);
  w_cancel c := Some (wc_cancel c);
  w_close c := Some (wc_close c);
  w_ready w c := on_socket (sd_ready w (wc_socket c)) c;
  w_own o c :=
    if decide (own_possible o c) then
      match o with
      | own_assign fd h => let '(_, c, log) := wc_assign fd h c in Some (c, log)
      | own_release => let '(_, c, log) := wc_release c in Some (c, log)
      end
    else None;
  w_own_possible := own_possible;
  w_destroy c := Some (wc_destroy c)
}.

(** A connection watches the socket libpq told for the handle it holds. *)
Definition wc_ok socks (c : waiting_connection S) : Prop :=
  match wc_handle c with
  | Some h => exists fd, sd_fd (wc_socket c) = Some fd /\ socks = {[h := fd]}
  | None => sd_fd (wc_socket c) = None /\ socks = ∅
  end.

Lemma wc_ok_same socks (c c' : waiting_connection S) : wc_handle c' = wc_handle c ->
  sd_fd (wc_socket c') = sd_fd (wc_socket c) -> wc_ok socks c -> wc_ok socks c'.
Proof using. unfold wc_ok. intros -> ->. done. Qed.

Lemma wc_assign_ok fd h socks c issued : wc_ok socks c -> own_possible (own_assign fd h) c ->
  let '(_, c', log) := wc_assign fd h c in
  exists socks', wc_ok socks' c'
    /\ accepts (waiter_watches socks c issued) log = Some (waiter_watches socks' c' issued).
Proof using.
  intros Hok [Hh Hne]. unfold wc_assign. destruct (fd =? -1); [by exists socks|].
  pose proof (sd_make_with_spec fd) as (Hf1 & Hp1 & Hl1).
  destruct (sd_make_with fd) as [new log1]. simpl in *.
  pose proof (sd_release_spec (wc_socket c)) as (Hf2 & Hp2 & Hl2).
  destruct (sd_release (wc_socket c)) as [s2 log2]. simpl in *.
  pose proof (sd_move_assign_spec s2 new) as Hm. destruct (sd_move_assign s2 new) as [[s3 new'] log3].
  destruct Hm as (Hf3 & Hp3 & Hf4 & Hp4 & ->). rewrite sd_destroy_spec, Hf2, Hp2, Hf4, Hp4. simpl.
  exists {[h := fd]}. unfold wc_ok at 1, waiter_watches, w_fd, w_pending. simpl. rewrite Hf3, Hp3, Hf1, Hp1.
  split; [by exists fd|]. subst log1 log2. unfold may_close. simpl.
  unfold wc_ok in Hok. destruct (wc_handle c) as [h0|].
  - destruct Hok as (fd0 & Hf0 & ->). rewrite Hf0 in *.
    assert (h0 <> h) as Hh0 by congruence. assert (fd0 <> fd) as Hfd by congruence.
    rewrite lookup_singleton_ne by done. rewrite orb_true_r. simpl.
    rewrite decide_False by (intros ?%list_elem_of_singleton; congruence). cbn [mbind option_bind].
    rewrite <- (app_nil_r (sd_pending (wc_socket c))) at 1. rewrite <- app_assoc, accepts_aborted. cbn -[pick may_close].
    assert (pick fd0 [fd; fd0] = Some [fd]) as -> by (by apply (pick_snoc fd0 [fd]); intros ?%list_elem_of_singleton).
    cbn -[may_close]. unfold may_close. simpl. rewrite lookup_insert_ne, lookup_singleton_eq by done.
    rewrite bool_decide_false by (intros ?%list_elem_of_singleton; congruence). simpl. do 2 f_equal.
    rewrite delete_insert_ne, delete_singleton_eq by done. done.
  - destruct Hok as [Hf0 ->]. rewrite Hf0. rewrite lookup_empty, orb_true_r. simpl.
    rewrite <- (app_nil_r (sd_pending (wc_socket c))) at 1.
    rewrite <- app_assoc, accepts_aborted. done.
Qed.

Lemma wc_release_ok socks c issued : wc_ok socks c ->
  let '(h, c', log) := wc_release c in
  wc_ok ∅ c' /\ h = wc_handle c /\ w_fd c' = None /\ w_pending c' = []
  /\ forall log', accepts (waiter_watches socks c issued) (log ++ log')
                  = accepts (Monitor ∅ [] [] issued) log'.
Proof using.
  intros Hok. unfold wc_release. pose proof (sd_release_spec (wc_socket c)) as (Hf & Hp & _).
  pose proof (accepts_release socks (wc_socket c) issued) as Ha.
  destruct (sd_release (wc_socket c)) as [s log]. simpl in *. unfold wc_ok at 1. simpl. rewrite Hf, Hp.
  split_and!; [done..|]. intros log'. unfold watches in Ha. rewrite Hf, Hp in Ha. rewrite <- app_assoc.
  etrans; [exact (Ha _)|]. unfold wc_ok in Hok. destruct (wc_handle c) as [h|].
  - destruct Hok as (fd & _ & ->). simpl. unfold may_close. simpl. rewrite lookup_singleton_eq. simpl.
    by rewrite delete_singleton_eq.
  - by destruct Hok as [_ ->].
Qed.

Lemma wc_close_ok socks c issued : wc_ok socks c ->
  let '(c', log) := wc_close c in
  wc_ok ∅ c' /\ w_fd c' = None /\ w_pending c' = []
  /\ forall log', accepts (waiter_watches socks c issued) (log ++ log')
                  = accepts (Monitor ∅ [] [] issued) log'.
Proof using.
  intros Hc. unfold wc_close. pose proof (wc_release_ok socks c issued Hc) as Hr.
  destruct (wc_release c) as [[h c'] log].
  destruct Hr as (Hok & -> & Hf & Hp & Ha). split_and!; [done..|]. intros log'. rewrite <- app_assoc, Ha.
  by destruct (wc_handle c).
Qed.

(** A step that leaves the connection with nothing watched. *)
Lemma let_go_ok socks (c c' : waiting_connection S) issued log : w_fd c' = None -> w_pending c' = [] ->
  (forall log', accepts (waiter_watches socks c issued) (log ++ log') = accepts (Monitor ∅ [] [] issued) log') ->
  accepts (waiter_watches socks c issued) log = Some (waiter_watches ∅ c' issued).
Proof using.
  intros Hf Hp Ha. specialize (Ha []). rewrite app_nil_r in Ha. rewrite Ha. unfold waiter_watches. by rewrite Hf, Hp.
Qed.

Lemma connection_serve_ok d socks (c c' : waiting_connection S) log issued : wc_ok socks c ->
  Forall (.∉ issued) (asks d) -> w_pending c ⊆ issued -> serve d c = Some (c', log) ->
  exists socks', wc_ok socks' c'
    /\ accepts (waiter_watches socks c issued) log = Some (waiter_watches socks' c' (issued ++ asks d)).
Proof using.
  intros Hok Hf Hp E. destruct d as [w|w| | |w|o]; cbn [serve asks] in *; rewrite ?app_nil_r.
  - injection E as <- <-. rewrite Forall_singleton in Hf. exists socks. split; [|by apply accepts_wait].
    apply (wc_ok_same socks c); [done|exact (proj1 (sd_async_wait_spec _ _))|done].
  - injection E as <- <-. rewrite Forall_singleton in Hf. exists socks. split; [|by apply accepts_wait].
    apply (wc_ok_same socks c); [done|exact (proj1 (sd_async_wait_spec _ _))|done].
  - injection E as <- <-. exists socks. split; [|apply accepts_cancel].
    apply (wc_ok_same socks c); [done|exact (proj1 (sd_cancel_spec _))|done].
  - simpl in E. pose proof (wc_close_ok socks c issued Hok) as Hc. destruct (wc_close c) as [c1 log1]. simplify_eq.
    destruct Hc as (Hok' & Hf' & Hp' & Ha). exists ∅. split; [done|]. by apply let_go_ok.
  - simpl in E. destruct (sd_ready w (wc_socket c)) as [[s log1]|] eqn:Er; [|done]. injection E as <- <-.
    destruct (accepts_ready socks _ _ _ _ issued Er) as (Ha & Hf' & _). exists socks. split; [|exact Ha].
    by apply (wc_ok_same socks c).
  - simpl in E. destruct (decide (own_possible o c)) as [Ho|]; [|done]. destruct o as [fd h|].
    + pose proof (wc_assign_ok fd h socks c issued Hok Ho) as Ha.
      destruct (wc_assign fd h c) as [[ec c1] log1]. by simplify_eq.
    + pose proof (wc_release_ok socks c issued Hok) as Hc. destruct (wc_release c) as [[h c1] log1]. simplify_eq.
      destruct Hc as (Hok' & _ & Hf' & Hp' & Ha). exists ∅. split; [done|]. by apply let_go_ok.
Qed.

#[export] Instance connection_laws : WaiterLaws wc_ok.
Proof using.
  split.
  - apply connection_serve_ok.
  - intros d socks c _ Hd. destruct d as [w|w| | |w|o]; simpl in *; try by eexists.
    + destruct (pick_is_Some w _ Hd) as (l & Hl & _). pose proof (sd_ready_spec w (wc_socket c)) as Hr.
      rewrite Hl in Hr. destruct Hr as (s' & -> & _). by eexists.
    + rewrite decide_True by done. destruct o as [fd h|];
        [destruct (wc_assign fd h c) as [[ec c1] log1]|destruct (wc_release c) as [[h c1] log1]]; by eexists.
  - intros socks c issued Hok. unfold w_destroy. simpl. unfold wc_destroy.
    pose proof (wc_close_ok socks c issued Hok) as Hc.
    destruct (wc_close c) as [c1 log1]. destruct Hc as (_ & Hf & Hp & Ha). eexists _, ∅. split; [done|]. rewrite Ha.
    change (sd_fd (wc_socket c1) = None) in Hf. change (sd_pending (wc_socket c1) = []) in Hp.
    by rewrite sd_destroy_spec, Hf, Hp.
Qed.

(** A pooled connection has no operation of its own.  What libpq answers when it
    is destroyed, and whether the pool drops the value of a cell that comes back. *)
Context {O : Type} (PQstatus : handle -> conn_status)
  (PQtransactionStatus : option handle -> pq_transaction_status) (dropped : bool).

#[export] Instance pooled_waiter : Waiter Empty_set (waiting_pooled S O) := {
  w_fd c := sd_fd (wp_stream c);
  w_pending c := sd_pending (wp_stream c);
  w_async_wait_write w c := Some (wp_async_wait_write w c);
  w_async_wait_read w c := Some (wp_async_wait_read w c);
  w_cancel c := Some (wp_cancel c);
  w_close c := wp_close c;
  w_ready w c := r ← sd_ready w (wp_stream c); Some (set_stream r c);
  w_own o c := match o with end;
  w_own_possible o c := False;
  w_destroy c :=
    match wp_destroy PQstatus PQtransactionStatus dropped c with Return log => Some log | Throw _ => None end
}.

(** The pool makes pooled connections of cells that have a value. *)
Definition wp_ok socks (c : waiting_pooled S O) : Prop := is_Some (l_value (wp_rep c)).

(** When nothing is watched, handles may be finished. *)
Lemma accepts_finished socks issued hs :
  exists socks', accepts (Monitor socks [] [] issued) (Finished <$> hs) = Some (Monitor socks' [] [] issued).
Proof using.
  revert socks. induction hs as [|h hs IH]; intros socks; [by exists socks|]. cbn. unfold may_close. simpl.
  destruct (socks !! h); simpl; [apply IH|apply IH].
Qed.

Lemma accepts_released socks (s : S) issued log :
  accepts (watches socks s issued) ((sd_release s).2 ++ log) = accepts (Monitor socks [] [] issued) log
  /\ sd_destroy (sd_release s).1 = [].
Proof using.
  pose proof (sd_release_spec s) as (Hf & Hp & _). rewrite accepts_release. unfold watches.
  by rewrite sd_destroy_spec, Hf, Hp.
Qed.

Lemma wp_destroy_ok socks (c : waiting_pooled S O) issued : (forall h v, PQtransactionStatus h <> PQTRANS_OTHER v) ->
  exists log socks', wp_destroy PQstatus PQtransactionStatus dropped c = Return log
    /\ accepts (watches socks (wp_stream c) issued) log = Some (Monitor socks' [] [] issued).
Proof using.
  intros Htr. unfold wp_destroy. pose proof (accepts_released socks (wp_stream c) issued) as Ha.
  destruct (sd_release (wp_stream c)) as [s log1]. simpl in Ha.
  assert (exists r, destroy_pooled PQstatus PQtransactionStatus (Pooled (wp_rep c) (sd_fd s)) = Return r) as [r ->].
  { unfold destroy_pooled. simpl. destruct (l_value (wp_rep c)); [|by eexists].
    destruct (pooled_is_bad _ _); [by eexists|]. unfold get_transaction_status. simpl.
    destruct (PQtransactionStatus _) as [| | | | |v] eqn:Et; try by eexists. by destruct (Htr _ _ Et). }
  destruct (accepts_finished socks issued (owned (l_value (wp_rep c)))) as [socks' Hs].
  destruct (Ha []) as [_ Hd]. rewrite Hd. cbn [mbind outcome_bind].
  destruct r; [destruct dropped|]; rewrite ?app_nil_r; eexists _, _; (split; [done|]).
  - simpl. rewrite (proj1 (Ha _)). exact Hs.
  - rewrite <- (app_nil_r log1). by rewrite (proj1 (Ha _)).
  - rewrite (proj1 (Ha _)). exact Hs.
Qed.

Lemma wp_close_ok socks (c c' : waiting_pooled S O) log issued : wp_close c = Some (c', log) ->
  exists socks', wp_ok socks' c'
    /\ accepts (watches socks (wp_stream c) issued) log = Some (watches socks' (wp_stream c') issued).
Proof using.
  intros E. unfold wp_close in E. pose proof (accepts_released socks (wp_stream c) issued) as Ha.
  pose proof (sd_release_spec (wp_stream c)) as (Hf & Hp & _).
  destruct (sd_release (wp_stream c)) as [s log1]. simpl in *.
  destruct (l_value (wp_rep c)) as [rep|] eqn:Hrep; [|done]. injection E as <- <-.
  destruct (accepts_finished socks issued (option_list (safe_handle_ rep))) as [socks' Hs].
  exists socks'. split; [by eexists|]. rewrite (proj1 (Ha _)), Hs. unfold watches. simpl. by rewrite Hf, Hp.
Qed.

#[export] Instance pooled_laws : (forall h v, PQtransactionStatus h <> PQTRANS_OTHER v) -> WaiterLaws wp_ok.
Proof using.
  intros Htr. split.
  - intros d socks c c' log issued Hok Hf Hp E.
    destruct d as [w|w| | |w|[]]; cbn [serve asks] in *; rewrite ?app_nil_r.
    + injection E as <- <-. rewrite Forall_singleton in Hf. exists socks. split; [done|]. by apply accepts_wait.
    + injection E as <- <-. rewrite Forall_singleton in Hf. exists socks. split; [done|]. by apply accepts_wait.
    + injection E as <- <-. exists socks. split; [done|]. apply accepts_cancel.
    + by apply (wp_close_ok socks _ _ _ issued) in E.
    + simpl in E. destruct (sd_ready w (wp_stream c)) as [[s log1]|] eqn:Er; [|done]. injection E as <- <-.
      destruct (accepts_ready socks _ _ _ _ issued Er) as (Ha & _). exists socks. split; [done|exact Ha].
  - intros d socks c [rep Hrep] Hd. destruct d as [w|w| | |w|[]]; simpl in *; try by eexists.
    + unfold wp_close. destruct (sd_release (wp_stream c)) as [s log1]. rewrite Hrep. by eexists.
    + destruct (pick_is_Some w _ Hd) as (l & Hl & _). pose proof (sd_ready_spec w (wp_stream c)) as Hr.
      rewrite Hl in Hr. destruct Hr as (s' & -> & _). by eexists.
  - intros socks c issued _. destruct (wp_destroy_ok socks c issued Htr) as (log & socks' & Hd & Ha).
    exists log, socks'. split; [|exact Ha]. simpl. by rewrite Hd.
Qed.

End classes.

(** ** Transactions *)

Section transactions.
Context {Own C : Type} `{Waiter Own C}.

(** [impl_] of a [transaction] is a pointer to a connection; every member forwards
    to [lowest_layer()], which must not be null. *)
Record waiting_transaction := WaitingTransaction { tr_impl : option C }.

Definition forward (f : C -> option (C * list effect)) (t : waiting_transaction) :
    option (waiting_transaction * list effect) :=
  c ← tr_impl t; '(c, log) ← f c; Some (WaitingTransaction (Some c), log).

(** [transaction::async_wait_write], [transaction::async_wait_read] and
    [transaction::cancel] *)
Definition tr_async_wait_write (w : nat) : waiting_transaction -> option (waiting_transaction * list effect) :=
  forward (w_async_wait_write w).
Definition tr_async_wait_read (w : nat) : waiting_transaction -> option (waiting_transaction * list effect) :=
  forward (w_async_wait_read w).
Definition tr_cancel : waiting_transaction -> option (waiting_transaction * list effect) := forward w_cancel.
Definition tr_close : waiting_transaction -> option (waiting_transaction * list effect) := forward w_close.

#[export] Instance transaction_waiter : Waiter Own waiting_transaction := {
  w_fd t := tr_impl t ≫= w_fd;
  w_pending t := match tr_impl t with Some c => w_pending c | None => [] end;
  w_async_wait_write := tr_async_wait_write;
  w_async_wait_read := tr_async_wait_read;
  w_cancel := tr_cancel;
  w_close := tr_close;
  w_ready w := forward (w_ready w);
  w_own o := forward (w_own o);
  w_own_possible o t := match tr_impl t with Some c => w_own_possible o c | None => False end;
  w_destroy t := match tr_impl t with Some c => w_destroy c | None => Some [] end
}.

Definition tr_ok (w_ok : gmap handle Z -> C -> Prop) (socks : gmap handle Z) (t : waiting_transaction) : Prop :=
  match tr_impl t with Some c => w_ok socks c | None => False end.

Lemma serve_forward d t : serve d t = forward (serve d) t.
Proof using. by destruct d. Qed.

#[export] Instance transaction_laws w_ok `{!WaiterLaws w_ok} : WaiterLaws (tr_ok w_ok).
Proof using.
  split.
  - intros d socks [[c|]] t' log issued Hok Hf Hp E; [|done]. rewrite serve_forward in E. cbn in E.
    destruct (serve d c) as [[c' log']|] eqn:Es; [|done]. simplify_eq/=.
    exact (serve_ok d socks c c' log issued Hok Hf Hp Es).
  - intros d socks [[c|]] Hok Hd; [|done]. rewrite serve_forward. cbn.
    destruct (serve_total d socks c Hok) as [[c' log'] ->]; [by destruct d|by eexists].
  - intros socks [[c|]] issued Hok; [|done]. exact (destroy_ok socks c issued Hok).
Qed.

End transactions.
Arguments waiting_transaction C : clear implicits.

(** ** Waits of connections *)

Module Waiting.

Section waiting.
Context {S O : Type} `{StreamDescriptor S}.

Lemma made_pooled_ok (PQsocket : handle -> Z) (l : leased O) :
  let '(c, log) := wp_make (S:=S) PQsocket l in
  sd_pending (wp_stream c) = [] /\ wp_rep c = l
  /\ exists socks, accepts (Monitor ∅ [] [] []) log = Some (watches socks (wp_stream c) []).
Proof using.
  unfold wp_make. destruct sd_make_spec as [Hf Hp]. destruct (_ =? -1).
  - split_and!; [done..|]. exists ∅. unfold watches. simpl. by rewrite Hf, Hp.
  - pose proof (sd_assign_spec (PQsocket_of PQsocket (native_handle l)) sd_make Hf Hp) as (Hf' & Hp' & Hl).
    destruct (sd_assign _ _) as [s log]. simpl in *. subst log. split_and!; [done..|].
    unfold watches. rewrite Hf', Hp'. destruct (native_handle l) as [h|]; simpl; by eexists.
Qed.

(** C12: whatever is asked of a connection, of a pooled connection made of a cell
    that has a value, or of a transaction over either (waits, cancelling, closing,
    for a connection also assigning and releasing handles, each with the descriptor
    [PQsocket] answers then, in any order with the events of the socket): every wait
    asked for completes exactly once, at the latest when the object is destroyed; a
    descriptor is watched by one stream at a time; no stream ever closes a descriptor,
    which is libpq's; the descriptor of a handle is not watched any more when the
    handle is finished, by closing or replacing it, by the pool it is wasted in or
    given back to, or when it is given to the caller; nothing is watched in the end.
    This is under the condition that libpq does not change the socket of a handle
    while a connection holds it, that a handle has one owner and that the system gives
    open connections different descriptors. *)
Theorem waits_complete_once (PQsocket : handle -> Z) (PQstatus : handle -> conn_status)
    (PQtransactionStatus : option handle -> pq_transaction_status) (dropped : bool) :
  (forall h v, PQtransactionStatus h <> PQTRANS_OTHER v) ->
  (let conn := make_connection (S:=S) in
   orderly_waits conn [] /\ orderly_waits (WaitingTransaction (Some conn)) [])
  /\ forall l : leased O, is_Some (l_value l) ->
     let pool := pooled_waiter PQstatus PQtransactionStatus dropped in
     let '(conn, log) := wp_make (S:=S) PQsocket l in
     orderly_waits (H:=pool) conn log
     /\ orderly_waits (H:=transaction_waiter (H:=pool)) (WaitingTransaction (Some conn)) log.
Proof using.
  intros Htr. destruct (sd_make_spec (S:=S)) as [Hf Hp].
  assert (Hw : accepts (Monitor ∅ [] [] []) [] = Some (watches ∅ (sd_make (S:=S)) []))
    by (unfold watches; by rewrite Hf, Hp).
  split; [split|].
  - eapply (orderly_waits_from wc_ok ∅); [by split|done|exact Hw].
  - eapply (orderly_waits_from (tr_ok wc_ok) ∅); [by split|done|exact Hw].
  - intros l Hl. cbv zeta. pose proof (made_pooled_ok PQsocket l) as Hm.
    destruct (wp_make PQsocket l) as [conn log]. destruct Hm as (Hp' & Hrep & socks & Ha).
    pose proof (pooled_laws (S:=S) (O:=O) PQstatus PQtransactionStatus dropped Htr) as Hlaws. split.
    + eapply (orderly_waits_from (H:=pooled_waiter PQstatus PQtransactionStatus dropped) wp_ok socks); [|done|exact Ha].
      unfold wp_ok. by rewrite Hrep.
    + eapply (orderly_waits_from (tr_ok wp_ok) socks); [|done|exact Ha].
      unfold tr_ok, wp_ok. simpl. by rewrite Hrep.
Qed.

(** Seen without their waits, the connection and the pooled connection are those of
    [Connection] and [ConnectionPool]: the same handle, descriptor, error and
    handles finished. *)
Definition forget (c : waiting_connection S) : connection :=
  Connection (wc_handle c) (sd_fd (wc_socket c)) (wc_error_context c).
Definition forget_pooled (c : waiting_pooled S O) : pooled_connection O :=
  Pooled (wp_rep c) (sd_fd (wp_stream c)).
Definition finished_in (log : list effect) : list handle :=
  omap (fun e => match e with Finished h => Some h | _ => None end) log.

Lemma finished_in_streams ws fd : finished_in (aborted ws) = [] /\ finished_in (unwatched fd) = []
  /\ finished_in (closed fd) = [].
Proof using.
  split_and!; [|by destruct fd..]. unfold finished_in, aborted. by induction ws.
Qed.

Lemma finished_in_handles hs : finished_in (Finished <$> hs) = hs.
Proof using. unfold finished_in. induction hs as [|h hs IH]; [done|]. csimpl. by rewrite IH. Qed.

Lemma finished_in_app log1 log2 : finished_in (log1 ++ log2) = finished_in log1 ++ finished_in log2.
Proof using. apply omap_app. Qed.

Lemma finished_in_release (s : S) : finished_in (sd_release s).2 = [].
Proof using.
  destruct (sd_release_spec s) as (_ & _ & ->).
  destruct (finished_in_streams (sd_pending s) (sd_fd s)) as (H1 & H2 & _). by rewrite finished_in_app, H1, H2.
Qed.

Lemma finished_in_left hs : finished_in (Left <$> hs) = [].
Proof using. unfold finished_in. by induction hs. Qed.

(** The operations with waits refine those without. *)
Theorem waiting_connections_refine (PQsocket : handle -> Z) (PQstatus : handle -> conn_status)
    (PQtransactionStatus : option handle -> pq_transaction_status) (dropped : bool) (fd : Z) (h : handle)
    (c : waiting_connection S) (p : waiting_pooled S O) (l : leased O) (finished : list handle) :
  (let '(ec, c', log) := wc_assign fd h c in
   assign fd h (forget c) finished = (ec, forget c', finished ++ finished_in log))
  /\ (let '(h', c', log) := wc_release c in release (forget c) = (h', forget c') /\ finished_in log = [])
  /\ (let '(c', log) := wc_close c in close (forget c) finished = (forget c', finished ++ finished_in log))
  /\ forget_pooled (wp_make PQsocket l).1 = make_pooled_connection PQsocket l
  /\ pooled_close (forget_pooled p) = (fun r => (ec_default, forget_pooled r.1)) <$> wp_close p
  /\ match destroy_pooled PQstatus PQtransactionStatus (forget_pooled p) with
     | Return r => exists log, wp_destroy PQstatus PQtransactionStatus dropped p = Return log
         /\ l_finished (give_back dropped r (wp_rep p)) = l_finished (wp_rep p) ++ finished_in log
     | Throw e => wp_destroy PQstatus PQtransactionStatus dropped p = Throw e
     end.
Proof using.
  destruct (sd_release_spec (wc_socket c)) as (Hf & Hp & _). pose proof (finished_in_release (wc_socket c)) as Hr.
  split_and!.
  - unfold wc_assign, assign. destruct (_ =? -1); [by rewrite app_nil_r|].
    destruct (sd_make_with_spec fd) as (Hf1 & _ & Hl1).
    destruct (sd_make_with fd) as [new log1], (sd_release (wc_socket c)) as [s2 log2]. simpl in *.
    pose proof (sd_move_assign_spec s2 new) as Hm. destruct (sd_move_assign s2 new) as [[s3 new'] log3].
    destruct Hm as (Hf3 & _ & Hf4 & Hp4 & ->). unfold forget. simpl.
    rewrite Hf3, Hf1, sd_destroy_spec, Hf, Hp, Hf4, Hp4. subst log1. simpl. f_equal.
    rewrite app_nil_r. change (finished_in (Socket h fd :: Watched fd :: ?l)) with (finished_in l).
    by rewrite finished_in_app, Hr, finished_in_handles.
  - unfold wc_release, release. destruct (sd_release (wc_socket c)) as [s log]. simpl in *. unfold forget. simpl.
    by rewrite Hf, finished_in_app, Hr, finished_in_left.
  - unfold wc_close, wc_release, close, release. destruct (sd_release (wc_socket c)) as [s log]. simpl in *.
    unfold forget. simpl. by rewrite Hf, !finished_in_app, Hr, finished_in_left, finished_in_handles.
  - unfold wp_make, make_pooled_connection. destruct sd_make_spec as [Hf0 Hp0]. destruct (_ =? -1).
    + unfold forget_pooled. simpl. by rewrite Hf0.
    + destruct (sd_assign_spec (PQsocket_of PQsocket (native_handle l)) sd_make Hf0 Hp0) as (Hf' & _).
      destruct (sd_assign _ _) as [s log]. unfold forget_pooled. simpl in *. by rewrite Hf'.
  - unfold pooled_close, wp_close. destruct (sd_release_spec (wp_stream p)) as (Hf' & _).
    destruct (sd_release (wp_stream p)) as [s log]. unfold forget_pooled. simpl in *.
    destruct (l_value (wp_rep p)); [|done]. simpl. by rewrite Hf'.
  - unfold wp_destroy, destroy_pooled. destruct (sd_release_spec (wp_stream p)) as (Hf' & Hp' & _).
    pose proof (finished_in_release (wp_stream p)) as Hr'.
    destruct (sd_release (wp_stream p)) as [s log]. unfold forget_pooled, pooled_is_bad. simpl in *.
    rewrite sd_destroy_spec, Hf', Hp'. simpl.
    assert (Hg : forall r, exists log', Return (match r with
        | Handles.Wasted _ => log ++ (Finished <$> owned (l_value (wp_rep p))) ++ []
        | Handles.Recycled _ => log ++ [] ++ (if dropped then Finished <$> owned (l_value (wp_rep p)) else [])
        end) = (Return log' : may_throw (list effect))
      /\ l_finished (give_back dropped r (wp_rep p)) = l_finished (wp_rep p) ++ finished_in log').
    { intros [i|i]; [destruct dropped|]; (eexists; split; [done|]); simpl;
        rewrite ?app_nil_r, ?finished_in_app, Hr', ?finished_in_handles; simpl; by rewrite ?app_nil_r. }
    destruct (l_value (wp_rep p)) as [v|]; [|exact (Hg (Handles.Recycled _))].
    destruct (negb _); [exact (Hg (Handles.Wasted _))|]. unfold get_transaction_status. simpl.
    destruct (PQtransactionStatus _); [exact (Hg (Handles.Wasted _))|exact (Hg (Handles.Recycled _))|
      exact (Hg (Handles.Wasted _))..|done].
Qed.

End waiting.

(** ** A stream *)

Record stream := Stream { st_fd : option Z; st_pending : list nat }.

#[export] Instance stream_descriptor : StreamDescriptor stream.
Proof.
  refine {|
    sd_fd := st_fd; sd_pending := st_pending;
    sd_make := Stream None [];
    sd_make_with fd := (Stream (Some fd) [], [Watched fd]);
    sd_assign fd s := (Stream (Some fd) [], [Watched fd]);
    sd_release s := (Stream None [], aborted (st_pending s) ++ unwatched (st_fd s));
    sd_cancel s := (Stream (st_fd s) [], aborted (st_pending s));
    sd_async_wait w s :=
      match st_fd s with
      | Some _ => (Stream (st_fd s) (st_pending s ++ [w]), [Waits w])
      | None => (s, [Waits w; Completed w bad_descriptor])
      end;
    sd_ready w s := l ← pick w (st_pending s); Some (Stream (st_fd s) l, [Completed w ec_default]);
    sd_move_assign s o := (o, Stream None [], aborted (st_pending s) ++ closed (st_fd s));
    sd_destroy s := aborted (st_pending s) ++ closed (st_fd s)
  |}; try done.
  - intros w [[fd|] ps]; done.
  - intros w [fd ps]. simpl. destruct (pick w ps); simpl; [by eexists|done].
Defined.

(** A connection that waits before it has a handle, then for the socket of its
    first handle, which is ready, then again, when it is given a second handle. *)
Definition two_handles : list (demand own_op) :=
  [asks_write 1; own_demand (own_assign 107 7%nat); asks_write 2; gets_ready 2; asks_read 3;
   own_demand (own_assign 108 8%nat); asks_read 4; cancels; closes; asks_read 5].

Lemma waits_complete_once_witness :
  let sockets (h : handle) := Z.of_nat h + 100 in
  let pool := pooled_waiter (S:=stream) (O:=unit) (fun _ => CONNECTION_OK) (fun _ => PQTRANS_INTRANS) false in
  match serve_all two_handles (make_connection (S:=stream)) with
  | Some (c, log) =>
      log = [Waits 1; Completed 1 bad_descriptor; Socket 7%nat 107; Watched 107; Waits 2; Completed 2 ec_default;
             Waits 3; Socket 8%nat 108; Watched 108; Completed 3 operation_aborted; Unwatched 107; Finished 7%nat;
             Waits 4; Completed 4 operation_aborted; Unwatched 108; Left 8%nat; Finished 8%nat; Waits 5;
             Completed 5 bad_descriptor]
      /\ completions log ≡ₚ [1; 2; 3; 4; 5]%nat
      /\ orderly_waits (H:=pool)
           (wp_make sockets (Leased 0 (Some (Rep (Some 9%nat) tt "")) [])).1 [Socket 9%nat 109; Watched 109]
      /\ w_destroy (Waiter:=pool) (wp_make sockets (Leased 0 (Some (Rep (Some 9%nat) tt "")) [])).1
         = Some [Unwatched 109; Finished 9%nat]
  | None => False
  end.
Proof.
  cbv zeta. destruct (waits_complete_once (S:=stream) (O:=unit) (fun h => Z.of_nat h + 100) (fun _ => CONNECTION_OK)
    (fun _ => PQTRANS_INTRANS) false ltac:(done)) as [[Hc _] Hp].
  specialize (Hp (Leased 0 (Some (Rep (Some 9%nat) tt "")) []) (ltac:(by eexists))).
  destruct (serve_all _ _) as [[c log]|] eqn:E; [|vm_compute in E; discriminate E].
  destruct (Hc two_handles c log (ltac:(vm_compute; repeat constructor; set_solver)) E) as [(last & El & _ & _ & Hcomp) _].
  vm_compute in E. injection E as <- <-. vm_compute in El. injection El as <-.
  split; [reflexivity|]. split; [exact Hcomp|]. split; [exact (proj1 Hp)|reflexivity].
Defined.

(** libpq that goes on with another socket while it connects closes the one the
    stream of the connection watches: no operation of the connection is involved. *)
Lemma moved_socket_is_watched :
  match serve_all [own_demand (own_assign 5 7%nat); asks_write 1] (make_connection (S:=stream)) with
  | Some (_, log) => is_Some (accepts (Monitor ∅ [] [] []) log)
      /\ accepts (Monitor ∅ [] [] []) (log ++ [Completed 1 ec_default; Socket 7%nat 6]) = None
  | None => False
  end.
Proof. vm_compute. split; [by eexists|done]. Qed.

End Waiting.
